(* ===== verification/_CoqProject ===== *)
-Q . S2P
Prelude.v
Text.v
Float.v
Json.v
Wire.v
Shard.v
FieldFilter.v
TDigest.v
DigestLaws.v
DigestRank.v
Registry.v
Fanout.v
Agg.v
Hybrid.v
Index.v
Embed.v
Onnx.v
Vector.v
Store.v
Server.v
RaftStorage.v
S3.v
Transport.v
Wal.v
Member.v
Ingest.v
Sources.v
Replication.v
ShardRaft.v
Auth.v
Net.v
Metrics.v
Control.v
Service.v
Memory.v
Client.v
Federation.v
Cluster.v
EndToEnd.v
Restart.v
Analytics.v
Migration.v
CoordinatorMain.v
Node.v
AgentTools.v
Mcp.v
Nlq.v
Eval.v
Bedrock.v
Briefing.v
Smtp.v
Proxy.v
Supervisor.v
Dashboard.v
DashboardMain.v
