(* ===== verification/Prelude.v ===== *)
(** * Aether: a verification library

    Aether is a distributed search engine over a stream of flight documents. Documents are
    polled from feeds, indexed by shard nodes, searched and aggregated by coordinators that
    scatter a query over the shards and merge the answers, and governed by two kinds of raft
    groups: one per shard for its documents, one for the coordinators' operator intent. On
    top sit a federation of clusters, an agent layer (tools, a planning loop, a memory, a
    briefing mailer, an MCP server) and a dashboard that runs a local cluster. This library
    models the implementation under src/crates and the messages of src/proto, and proves the
    components and their composition correct. This file holds what the components share: the
    result type and its notations, list, sorting, integer and hash-map lemmas, the hint
    databases and tactics.

    ** Files and the code they model

    Foundations. [Text]: the string operations the code uses, over UTF-8 bytes. [Float]: f64
    and f32 by the standard library's SpecFloat. [Json]: values of serde_json. [Wire]: the
    messages of proto/aether.proto, field for field.

    Documents and placement. [Shard] (common/src/shard.rs): FNV-1a placement. [FieldFilter]
    (common/src/filter.rs). [TDigest], [DigestLaws], [DigestRank] (common/src/tdigest.rs): the
    digest over an arithmetic interface, its laws and its accuracy. [Embed] (common/src/embed.rs,
    shard-node/src/quant.rs): the hashing embedder and quantization. [Onnx]
    (common/src/embed_onnx.rs): the learned embedder around an inference session.

    The shard node (crates/shard-node/src). [Index] (index.rs): BM25 keyword index. [Vector]
    (vector.rs): flat, graph and quantized vector search. [Store] (store.rs): both indexes in
    lockstep. [Server] (server.rs, the follower side of replication.rs): its handlers.
    [Ingest] and [Sources] (ingest.rs): ownership, mapping, the producer/consumer loop; the
    feeds. [Replication] (replication.rs): the leader's side. [ShardRaft] (raft/): the store
    as a raft application, group formation, eviction, membership. [Cluster] (cluster.rs and
    the ownership choice of main.rs): registration and heartbeats. [Node] (main.rs): what a
    node starts, from its environment.

    The coordinator (crates/coordinator/src). [Registry] (registry.rs), [Fanout] (fanout.rs),
    [Hybrid] (hybrid.rs), [Agg] (agg.rs, with the shard's agg.rs), [Auth] (auth.rs),
    [Metrics] (metrics.rs), [Control] (control.rs and the registry wiring of main.rs),
    [Service] (service.rs): every gRPC handler, from credentials to reply.
    [CoordinatorMain] (main.rs, with the raft timing of consensus/src/lib.rs and the metrics
    endpoint of metrics.rs): what a coordinator starts, from its environment.

    Consensus (crates/consensus/src). [RaftStorage] (storage.rs, the trait of lib.rs): log,
    state machine, snapshots. [Wal] (wal.rs): the durable log, its recovery and the vote
    file. [Member] (the openings in the two main.rs): log and snapshots of one member
    together, over crashes and restarts. [S3] (s3.rs): the snapshot tier. [Transport]
    (network.rs, service.rs): raft calls.

    Clients and agents. [Net] and [Client] (common/src/net.rs, client.rs), [Federation]
    (federation), [Memory] (memory), [AgentTools] (agent-tools), [Mcp] (mcp-agent), [Nlq]
    and [Eval] (nlq), [Bedrock] (nlq/src/bedrock.rs and which planner each binary chooses),
    [Briefing] and [Smtp] (briefing).

    The compositions. [EndToEnd] puts ingestion, replication or the raft log, the registry,
    the shards and the coordinator together; [Restart] adds crashes of the members,
    [Analytics] does the same for aggregates, and [Migration] for virtual shards moving
    between groups while everything goes on.

    Operation. [Supervisor], [Dashboard] and [DashboardMain] (dashboard): the processes, the
    poller and the buttons, and the binary from its environment to its shutdown. [Proxy]
    (testkit).

    Definitions keep the source's names (prefixed where two would clash); records have the
    fields of the structs under short prefixes, inductive types the constructors of the
    enums; one definition per function, with the guards and early returns in source order.

    ** How the parts interact

    Calls between processes go through type classes, and a client's theorems are proved
    against the class. [ControlNet] is what a node needs of its coordinators and [AgentNet]
    what the tools need of one; [live_net] and [live_agent] implement them with the handlers
    of [Service]. [RaftWire] is what a raft client needs of the network and [WireLaws] what a
    gRPC call promises of it; [live_wire] implements both with the services of the other
    end. [StateMachineApp] is what [RaftStorage]
    needs of an application; [ShardApp] (over [Store]) and [ControlApp] (over [Registry])
    implement it. [FlightSource] is the feeds' trait, with an instance per feed, and the
    ingestion loop runs over any. [ObjectStore], [Processes], [Model], [ToolRunner],
    [Emailer] and [Watch] are the object store, the operating system, the planner, the
    tools, the mail sink and the channel of snapshots; each has an instance that computes.
    The durable log of [Wal] is related to the in-memory one of [RaftStorage] by a
    refinement.

    ** What the theorems show

    End to end: in whichever way the shards keep their feeds, a search answers with exactly
    the latest report of every matching aircraft ([ingested_is_found]), and still does after
    nodes went silent and the reaper routed their shards to live nodes that keep the feeds
    ([failover_loses_nothing]), or after every leader crashed and restarted from its disks
    ([restart_loses_nothing]); an aggregate other than percentiles is that of one node with
    all of them ([analytics_exact]), and percentiles are read from a digest of every sample
    once ([percentiles_gathered]). In exact rational arithmetic, which the code's f64 only
    approximates, that digest loses no sample ([gathered_digest]) and its ranks are right up
    to a bound ([quantile_accurate]). Once a reassignment of virtual shards has settled, in
    any interleaving, every document left is where the table says and is found once
    ([migration_settles]).

    Safety of replicated state: the log on disk recovers what was acknowledged after a crash
    at any step of any call and refines the in-memory log ([durable_recovers],
    [durable_refines], [vote_atomic]), over any number of crashes; its entries and the
    snapshots of the state machine always reach everything committed ([member_recovers]);
    replicas at one log position agree, whatever snapshots and restarts they went through,
    generically and for both applications ([replicas_converge], [shard_replicas_converge],
    [control_replicas_converge]); a cold boot takes the newest snapshot of a prefix that fits
    a page ([cold_boot_newest]); the transport adds nothing ([transport_transparent]). These
    hold on runs that keep conditions the code does not enforce, each stated in the rules or
    hypotheses and each with a theorem of what happens without it: a purge deletes the oldest
    segments only ([Wal.gc_resurrects_truncated]); a log that goes on after a crash still has
    the checkpoint of its newest segment ([Wal.headless_segment_loses_committed]), and no
    pointer record fills one; no entry is applied between the dump of a snapshot and its
    label ([RaftStorage.concurrent_snapshot_stale]); the write of a snapshot does not fail
    ([Member.failed_write_loses_log]); a member's documents change by the log alone
    ([Node.replicate_bypasses_log]).

    Cluster management: the registry's invariant under every operation and the behaviour of
    each; liveness of promotion, of dropping a silent node within the timeout and one tick,
    and of relearning a forgotten leader; eviction and membership changes remove only what
    they may.

    Queries: keyword search is exact BM25, quantized vector search equals the exact scan when
    the candidates cover the index, aggregation of any partition equals that of the whole,
    merged answers hold each aircraft once, freshest copy, ranked, with exact accounting;
    [cluster_search] composes them from the coordinator's handler down to the documents of
    the shards. Streaming agrees with the one-shot query when shards hold disjoint aircraft,
    federation with one fan-out when clusters do or nothing is cut; otherwise they may not
    ([Fanout.progressive_diverges], [Federation.federation_limit_diverges]).

    Ingestion: ownership partitions documents; producer and consumer end with every owned
    document stored, for any feed, and over the synthetic feed after any number of polls
    ([synthetic_ingested]), unless a follower's call never ends: the channel of the
    replication task is bounded, and a stalled follower stops consumer and producer
    ([stalled_follower_stops_ingestion]). Followers that every batch reaches match their
    leader.

    Governance: refused calls change nothing, reads change nothing, the memory stays within
    its quotas, mail goes only to allowlisted recipients, the planning loop ends within its
    budget whatever the planner, the documents sent to and received from a hosted planner
    are the JSON of the tools up to key order and the numbers the SDK's type cannot tell
    apart ([document_roundtrip]), TLS never degrades to plaintext, and
    the dashboard leaves no child process behind ([dashboard_cleans_up]).

    Flaws are theorems too: among them [Wal.gc_resurrects_truncated],
    [Wal.midlog_corruption_loses_acknowledged], [Wal.headless_segment_loses_committed],
    [Member.failed_write_loses_log], [Migration.overlap_serves_superseded],
    [Migration.overlap_counts_twice], [Migration.stale_tick_evicts],
    [Migration.late_batch_lands], [Service.foreign_embedder_silent],
    [Briefing.binary_gate_is_open], [Onnx.onnx_panic_poisons],
    [RaftStorage.concurrent_snapshot_stale], [ShardRaft.reconcile_breaches_floor],
    [Memory.huge_ttl_expires_at_once], [AgentTools.limit_wraps_to_none],
    [Service.errors_never_counted], [Fanout.progressive_diverges],
    [EndToEnd.late_coordinator_splits_placement], [Node.replicate_bypasses_log],
    [S3.stale_beyond_page], [Dashboard.nan_bucket_panics], [Agg.huge_samples_panic],
    [DashboardMain.remote_add_spawns], [Ingest.stalled_follower_stops_ingestion],
    [Federation.federation_limit_diverges], [Bedrock.big_integer_becomes_float].

    ** Conventions, bounds and fuel

    Machine integers are [Z] with the wrap of a release build written out where the code can
    overflow; lengths and in-memory positions are [nat] or unwrapped [Z] where the code's
    are bounded by memory. Times are milliseconds in [Z], and the clock is an argument.
    [option] at the top of a result is a panic ([None]); [result] is Rust's. The iteration
    order of hash maps is an interface, [HashOrder]: some order of the entries, one per
    process. What a network call came to, and in which order concurrent calls completed, are
    inputs, quantified over in the theorems. Interleavings of tasks are step relations
    ([Ingest.pipe_step], [Proxy.proxy_step], [Member.member_run]) or steps over event lists
    ([Migration.step], [Registry.reg_exec], [DashboardMain.dash_step]), one step per stretch of code without an await.
    Third-party code (openraft, tonic, serde, prost, bincode, hnsw_rs, the AWS SDK, libm,
    the Unicode tables) is a parameter; the facts relied on are laws of its class, and each
    class has an instance in the examples, the codecs of [Transport] and its raft among them.
    A crash of a disk keeps every file that was created and not removed, everything synced
    in it, and any prefix of the rest.

    Fuel: [Wal.append_fuel] is 2, as rotation appends once more and cannot rotate again; the
    scan of a segment has fuel equal to its length, as each frame takes at least a byte; the
    planning loop has its budget plus one, as each round but the last calls a tool. Loops of
    the code that are bounded are structural on the bound the code has (20 connection
    attempts, 10 attempts to learn the placement). [Wal.log_record]'s lemmas show that
    appending returns, [scan_frames] and [scan_torn] that the scan reads all that was
    written, and [run_total] that the planning loop answers.

    ** Not modelled

    Raft itself, and the construction of its nodes: openraft, whose calls and promises are
    rules and hypotheses. The tokenizer and the inference session of the learned embedder,
    the client of the hosted planner and the mail transport: parameters of [Onnx], [Bedrock]
    and [Smtp]. Wire encodings: prost, serde and bincode, parameters with a round trip. The
    wiring of the small clients' binaries and the examples: reading arguments, printing.
    Routing HTTP requests, the WebSocket protocol and the pages; the routes lead to the
    handlers of [Dashboard]. I/O errors of the log are modelled as crashes, since openraft
    stops on them. *)

From stdpp Require Export base gmap strings list pretty numbers sorting.
From Stdlib Require Export ZArith.

#[global] Open Scope Z_scope.

(** ** Results: the [Result<T, E>] of the source *)

Inductive result (A E : Type) : Type :=
| Ok (a : A)
| Err (e : E).
Arguments Ok {A E} a.
Arguments Err {A E} e.

Declare Scope aether_scope.
Delimit Scope aether_scope with aether.
#[global] Open Scope aether_scope.

(** The [?] operator: continue with the value, or return the error. *)
Notation "x '<-?' c ';;' k" :=
  (match c with Ok x => k | Err e => Err e end)
  (at level 100, c at next level, k at level 200, right associativity) : aether_scope.

Definition is_ok {A E} (r : result A E) : bool :=
  match r with Ok _ => true | Err _ => false end.

(** [Option::is_some]. *)
Definition is_some {A} (o : option A) : bool := match o with Some _ => true | None => false end.

Definition ok_or {A E} (o : option A) (e : E) : result A E :=
  match o with Some a => Ok a | None => Err e end.

Definition map_err {A E F} (f : E → F) (r : result A E) : result A F :=
  match r with Ok a => Ok a | Err e => Err (f e) end.

(** ** Machine integers

    A [u32], [u64] or [i64] is a [Z] in range; the operations that can leave the
    range wrap as release builds of the source do. *)

Definition u32_max : Z := 2 ^ 32 - 1.
Definition wrap_u8 (z : Z) : Z := z mod 2 ^ 8.
Definition wrap_u32 (z : Z) : Z := z mod 2 ^ 32.
Definition wrap_u64 (z : Z) : Z := z mod 2 ^ 64.
Definition wrap_i32 (z : Z) : Z := (z + 2 ^ 31) mod 2 ^ 32 - 2 ^ 31.
Definition wrap_i64 (z : Z) : Z := (z + 2 ^ 63) mod 2 ^ 64 - 2 ^ 63.

Definition u32_in (z : Z) : Prop := 0 ≤ z < 2 ^ 32.
Definition u64_in (z : Z) : Prop := 0 ≤ z < 2 ^ 64.

(** [len as u32] and [len as u64]. *)
Definition len_u32 {A} (l : list A) : Z := wrap_u32 (Z.of_nat (length l)).
Definition len_u64 {A} (l : list A) : Z := wrap_u64 (Z.of_nat (length l)).

(** ** Sequences *)

(** [Vec::truncate] under the [limit != 0 && len > limit] guard used by every ranked
    list of the source ([0] means no limit). *)
Definition truncate_limit {A} (limit : nat) (l : list A) : list A :=
  if bool_decide (limit ≠ 0%nat) && bool_decide (limit < length l)%nat
  then take limit l else l.

(** [slice::sort_by]: a stable sort. [insert_by] puts an element before the first one
    that does not compare strictly below it, so equal elements keep their order. *)
Section sort_by.
Context {A : Type} (cmp : A → A → comparison).

Fixpoint insert_by (x : A) (l : list A) : list A :=
  match l with
  | [] => [x]
  | y :: k => match cmp x y with
              | Gt => y :: insert_by x k
              | _ => x :: l
              end
  end.

Fixpoint sort_by (l : list A) : list A :=
  match l with
  | [] => []
  | x :: k => insert_by x (sort_by k)
  end.
End sort_by.

(** [Ordering::then_with]. *)
Definition then_with (c d : comparison) : comparison :=
  match c with Eq => d | _ => c end.

(** [bool::cmp]: [false < true]. *)
Definition bool_cmp (a b : bool) : comparison :=
  match a, b with
  | false, true => Lt
  | true, false => Gt
  | _, _ => Eq
  end.

(** A comparator is a total preorder on the elements satisfying [P]; [strict_on] adds
    that elements comparing equal are equal. *)
Record total_on {A} (P : A → Prop) (cmp : A → A → comparison) : Prop := {
  total_on_anti : ∀ x y, P x → P y → cmp y x = CompOpp (cmp x y);
  total_on_trans : ∀ x y z, P x → P y → P z →
    cmp x y ≠ Gt → cmp y z ≠ Gt → cmp x z ≠ Gt;
}.

Definition strict_on {A} (P : A → Prop) (cmp : A → A → comparison) : Prop :=
  ∀ x y, P x → P y → cmp x y = Eq → x = y.

(** The list is ranked by [cmp]: no element compares above a later one. *)
Definition ranked {A} (cmp : A → A → comparison) (l : list A) : Prop :=
  StronglySorted (λ x y, cmp x y ≠ Gt) l.

(** [Iterator::enumerate]. *)
Definition enumerate {A} (l : list A) : list (nat * A) := zip (seq 0 (length l)) l.

(** The sum of a list; folding a wrapping addition computes it modulo the width. *)
Definition z_sum (l : list Z) : Z := foldr Z.add 0 l.

(** [Iterator::max] / [min] over integers with a default for the empty iterator. *)
Definition z_max_or (d : Z) (l : list Z) : Z :=
  match l with [] => d | x :: k => foldl Z.max x k end.
Definition z_min_or (d : Z) (l : list Z) : Z :=
  match l with [] => d | x :: k => foldl Z.min x k end.

(** ** Hash-map iteration

    [std::collections::HashMap] iterates in an order that depends on a per-process
    random seed. Every definition that iterates takes the order as a [HashOrder]; a
    theorem about it therefore holds for every order. *)
Class HashOrder := {
  hm_order : ∀ {K} `{Countable K} {V}, gmap K V → list (K * V);
  hm_order_perm : ∀ {K} `{Countable K} {V} (m : gmap K V),
    hm_order m ≡ₚ map_to_list m;
}.

(** One concrete order, for evaluation. *)
Definition canonical_order : HashOrder :=
  {| hm_order := λ K _ _ V m, map_to_list m;
     hm_order_perm := λ K _ _ V m, reflexivity _ |}.

Definition hm_values `{!HashOrder} `{Countable K} {V} (m : gmap K V) : list V :=
  (hm_order m).*2.
Definition hm_keys `{!HashOrder} `{Countable K} {V} (m : gmap K V) : list K :=
  (hm_order m).*1.

(** [*map.entry(k).or_insert(0) += v] on [u64] and [u32] counters. *)
Definition bump `{Countable K} (wrap : Z → Z) (k : K) (v : Z) (m : gmap K Z) : gmap K Z :=
  <[k := wrap (default 0 (m !! k) + v)]> m.

(** ** Automation *)

(** Split on every [decide]/[bool_decide] and destructible [match] of the goal. *)
Ltac case_all :=
  repeat (case_match || case_decide || case_bool_decide); simplify_eq; try done.

(** Destruct the outermost [match] of a hypothesis, naming the equation. *)
Ltac split_in H :=
  match type of H with
  | context [match ?x with _ => _ end] => let E := fresh "E" in destruct x eqn:E
  end.

Create HintDb aether.

(** ** Lemmas *)

Lemma filter_none {A} (P : A → Prop) `{!∀ x, Decision (P x)} (l : list A) :
  Forall (λ x, ¬ P x) l → filter P l = [].
Proof. induction 1 as [|x l Hx _ IH]; [done|]. by rewrite filter_cons_False. Qed.

Lemma filter_all {A} (P : A → Prop) `{!∀ x, Decision (P x)} (l : list A) :
  Forall P l → filter P l = l.
Proof. induction 1 as [|x l Hx _ IH]; [done|]. by rewrite filter_cons_True, IH. Qed.

Section sort_by_lemmas.
Context {A : Type} (P : A → Prop) (cmp : A → A → comparison).

Lemma insert_by_perm x l : insert_by cmp x l ≡ₚ x :: l.
Proof.
  induction l as [|y l IH]; [done|]. simpl.
  destruct (cmp x y); [done..|]. rewrite IH. apply Permutation_swap.
Qed.

Lemma sort_by_perm l : sort_by cmp l ≡ₚ l.
Proof.
  induction l as [|x l IH]; [done|]. simpl. by rewrite insert_by_perm, IH.
Qed.

Lemma sort_by_length l : length (sort_by cmp l) = length l.
Proof. apply Permutation_length, sort_by_perm. Qed.

Lemma elem_of_sort_by x l : x ∈ sort_by cmp l ↔ x ∈ l.
Proof. by rewrite sort_by_perm. Qed.

Lemma Forall_sort_by Q l : Forall Q (sort_by cmp l) ↔ Forall Q l.
Proof. by rewrite sort_by_perm. Qed.

Hypothesis Htotal : total_on P cmp.

Lemma insert_by_ranked x l :
  P x → Forall P l → ranked cmp l → ranked cmp (insert_by cmp x l).
Proof.
  destruct Htotal as [anti trans]. intros Hx HP Hl. unfold ranked in *.
  induction l as [|y l IH]; simpl; [by repeat constructor|].
  apply Forall_cons in HP as [Hy HP]. apply StronglySorted_inv in Hl as [Hl Hall].
  assert (Hkeep : cmp x y ≠ Gt → StronglySorted (λ a b, cmp a b ≠ Gt) (x :: y :: l)).
  { intros Hxy. constructor; [by constructor|]. constructor; [done|].
    rewrite Forall_forall in Hall, HP |- *. intros z Hz.
    apply (trans x y z); auto. }
  destruct (cmp x y) eqn:E; [by apply Hkeep..|].
  constructor; [auto|]. rewrite insert_by_perm. constructor; [|done].
  rewrite (anti x y), E by done. done.
Qed.

Lemma sort_by_ranked l : Forall P l → ranked cmp (sort_by cmp l).
Proof.
  induction l as [|x l IH]; intros HP; [constructor|].
  apply Forall_cons in HP as [Hx HP].
  apply insert_by_ranked; [done| |auto]. by apply Forall_sort_by.
Qed.

Hypothesis Hstrict : strict_on P cmp.

(** A ranked list is determined by its elements. *)
Lemma ranked_unique l k :
  Forall P l → ranked cmp l → ranked cmp k → l ≡ₚ k → l = k.
Proof.
  destruct Htotal as [anti trans].
  revert k. induction l as [|x l IH]; intros k HP Hl Hk Hlk.
  { by apply Permutation_nil_l in Hlk. }
  destruct k as [|y k]; [by apply Permutation_nil_r in Hlk|].
  assert (HPk : Forall P (y :: k)) by (by rewrite <- Hlk).
  apply Forall_cons in HP as [Hx HP]. apply Forall_cons in HPk as [Hy HPk].
  apply StronglySorted_inv in Hl as [Hl Hxl]. apply StronglySorted_inv in Hk as [Hk Hyk].
  assert (x = y) as ->.
  { assert (x ∈ y :: k) as Hin1 by (rewrite <- Hlk; left).
    assert (y ∈ x :: l) as Hin2 by (rewrite Hlk; left).
    apply elem_of_cons in Hin1 as [?|Hin1]; [done|].
    apply elem_of_cons in Hin2 as [?|Hin2]; [done|].
    rewrite Forall_forall in Hxl, Hyk.
    specialize (Hxl _ Hin2). specialize (Hyk _ Hin1). simpl in *.
    apply Hstrict; [done..|]. rewrite (anti x y) in Hyk by done.
    by destruct (cmp x y). }
  f_equal. apply IH; [done..|]. by apply Permutation_cons_inv in Hlk.
Qed.

(** Sorting does not depend on the order of its input. *)
Lemma sort_by_ext l k : Forall P l → l ≡ₚ k → sort_by cmp l = sort_by cmp k.
Proof.
  intros HP Hlk. apply ranked_unique.
  - by apply Forall_sort_by.
  - by apply sort_by_ranked.
  - apply sort_by_ranked. by rewrite <- Hlk.
  - by rewrite !sort_by_perm.
Qed.

(** *** Incremental top-k *)

(** An element with [k] elements strictly before it does not enter the first [k]. *)
Lemma take_insert_by k d l :
  P d → Forall P l → ranked cmp l →
  (k ≤ length (filter (λ y, cmp d y = Gt) l))%nat →
  take k (insert_by cmp d l) = take k l.
Proof.
  destruct Htotal as [anti trans]. intros Hd. revert k.
  induction l as [|y l IH]; intros k HP Hl Hk; [simpl in Hk; destruct k; [done|lia]|].
  apply Forall_cons in HP as [Hy HP]. apply StronglySorted_inv in Hl as [Hl Hyl]. simpl.
  assert (cmp d y ≠ Gt → filter (λ y, cmp d y = Gt) (y :: l) = []) as Hnil.
  { intros E. rewrite filter_cons_False by done. apply filter_none.
    rewrite Forall_forall in Hyl, HP |- *. intros z Hz. by apply (trans d y z); auto. }
  destruct (cmp d y) eqn:E.
  1, 2: rewrite Hnil in Hk by done; simpl in Hk; by destruct k; [|lia].
  destruct k as [|k]; [done|]. simpl. f_equal. apply IH; [done..|].
  rewrite filter_cons_True in Hk by done. simpl in Hk. lia.
Qed.

Lemma take_sort_by_dominated k ds l :
  Forall P ds → Forall P l →
  Forall (λ d, k ≤ length (filter (λ y, cmp d y = Gt) l))%nat ds →
  take k (sort_by cmp (ds ++ l)) = take k (sort_by cmp l).
Proof.
  intros Hds Hl. revert Hds. induction ds as [|d ds IH]; intros HP Hk; [done|].
  apply Forall_cons in HP as [Hd HP]. apply Forall_cons in Hk as [Hdk Hk]. simpl.
  rewrite take_insert_by; [by apply IH|done| |apply sort_by_ranked|].
  - apply Forall_sort_by, Forall_app. done.
  - by apply Forall_app.
  - rewrite sort_by_perm, filter_app, length_app. lia.
Qed.
End sort_by_lemmas.

Lemma ranked_take {A} (cmp : A → A → comparison) n l :
  ranked cmp l → ranked cmp (take n l).
Proof.
  unfold ranked. revert n. induction l as [|x l IH]; intros [|n] Hl; simpl; try constructor.
  - apply StronglySorted_inv in Hl as [Hl _]. auto.
  - apply StronglySorted_inv in Hl as [_ Hx]. by apply Forall_take.
Qed.

Lemma total_on_weaken {A} (P Q : A → Prop) cmp :
  (∀ x, Q x → P x) → total_on P cmp → total_on Q cmp.
Proof. intros HQ [anti trans]. split; eauto 10. Qed.

(** Sorting does nothing to a list that is already ranked. *)
Lemma StronglySorted_filter {A} (R : relation A) (P : A → Prop) `{!∀ x, Decision (P x)} l :
  StronglySorted R l → StronglySorted R (filter P l).
Proof.
  induction 1 as [|x l Hl IH Hx]; [constructor|]. rewrite filter_cons. case_decide; [|done].
  constructor; [done|]. apply Forall_forall. intros y [_ Hy]%list_elem_of_filter.
  rewrite Forall_forall in Hx. auto.
Qed.

Lemma StronglySorted_weaken {A} (R R' : relation A) l :
  (∀ x y, R x y → R' x y) → StronglySorted R l → StronglySorted R' l.
Proof.
  intros HR. induction 1 as [|x l _ IH Hx]; constructor; [done|].
  eapply Forall_impl; [exact Hx|]. auto.
Qed.

Lemma sort_by_id {A} (cmp : A → A → comparison) l : ranked cmp l → sort_by cmp l = l.
Proof.
  unfold ranked. induction 1 as [|x l Hl IH Hx]; [done|]. simpl. rewrite IH.
  destruct Hx as [|y l Hxy]; [done|]. simpl. by destruct (cmp x y).
Qed.

Lemma truncate_limit_prefix {A} limit (l : list A) : truncate_limit limit l `prefix_of` l.
Proof.
  unfold truncate_limit. destruct (_ && _); [|done]. exists (drop limit l).
  by rewrite take_drop.
Qed.

Lemma truncate_limit_take {A} limit (l : list A) :
  limit ≠ 0%nat → truncate_limit limit l = take limit l.
Proof.
  intros H. unfold truncate_limit. rewrite bool_decide_true by done. simpl.
  case_bool_decide; [done|]. by rewrite take_ge by lia.
Qed.

Lemma truncate_limit_zero {A} (l : list A) : truncate_limit 0 l = l.
Proof. done. Qed.

Lemma truncate_limit_length {A} limit (l : list A) :
  length (truncate_limit limit l) =
  if bool_decide (limit = 0%nat) then length l else (limit `min` length l)%nat.
Proof.
  case_bool_decide; subst; [done|]. by rewrite truncate_limit_take, length_take by done.
Qed.

Lemma elem_of_truncate_limit {A} limit (l : list A) x : x ∈ truncate_limit limit l → x ∈ l.
Proof. intros Hx. eapply elem_of_prefix; [done|]. apply truncate_limit_prefix. Qed.

Lemma ranked_truncate {A} (cmp : A → A → comparison) limit l :
  ranked cmp l → ranked cmp (truncate_limit limit l).
Proof. intros. unfold truncate_limit. destruct (_ && _); [by apply ranked_take|done]. Qed.

Lemma then_with_eq c d : then_with c d = Eq ↔ c = Eq ∧ d = Eq.
Proof. by destruct c, d; naive_solver. Qed.

Lemma then_with_opp c d : CompOpp (then_with c d) = then_with (CompOpp c) (CompOpp d).
Proof. by destruct c. Qed.

Lemma enumerate_length {A} (l : list A) : length (enumerate l) = length l.
Proof. unfold enumerate. rewrite length_zip_with, length_seq. lia. Qed.

Lemma enumerate_lookup {A} (l : list A) i :
  enumerate l !! i = (λ x, (i, x)) <$> l !! i.
Proof.
  unfold enumerate. rewrite lookup_zip_with.
  destruct (l !! i) as [x|] eqn:E; simpl.
  - apply lookup_lt_Some in E. by rewrite lookup_seq_lt by done.
  - by destruct (seq 0 (length l) !! i).
Qed.

Lemma enumerate_snd {A} (l : list A) : (enumerate l).*2 = l.
Proof. unfold enumerate. rewrite snd_zip; [done|]. by rewrite length_seq. Qed.

Lemma elem_of_enumerate {A} (l : list A) i x : (i, x) ∈ enumerate l ↔ l !! i = Some x.
Proof.
  rewrite list_elem_of_lookup. split.
  - intros [j Hj]. rewrite enumerate_lookup in Hj. by destruct (l !! j) eqn:E; simplify_eq/=.
  - intros Hi. exists i. by rewrite enumerate_lookup, Hi.
Qed.

Lemma z_sum_perm l k : l ≡ₚ k → z_sum l = z_sum k.
Proof. unfold z_sum. induction 1; simpl; lia. Qed.

Lemma z_sum_app l k : z_sum (l ++ k) = z_sum l + z_sum k.
Proof. unfold z_sum. induction l; simpl; lia. Qed.

Lemma foldl_wrap_sum {A} w (f : A → Z) l a :
  0 < w → 0 ≤ a < w →
  foldl (λ acc x, (acc + f x) mod w) a l = (a + z_sum (f <$> l)) mod w.
Proof.
  intros Hw. revert a. induction l as [|x l IH]; intros a Ha.
  { unfold z_sum. simpl. by rewrite Z.add_0_r, Z.mod_small. }
  cbn [foldl]. rewrite IH by (by apply Z.mod_pos_bound).
  rewrite Z.add_mod_idemp_l by lia. unfold z_sum. simpl. by rewrite Z.add_assoc.
Qed.

(** Deleting a list of keys, one by one. *)
Lemma foldl_delete_lookup `{Countable K} {V A} (key : A → K) (m : gmap K V) (l : list A) k :
  foldl (λ m x, delete (key x) m) m l !! k = if decide (k ∈ key <$> l) then None else m !! k.
Proof.
  revert m. induction l as [|x l IH]; intros m; [done|]. cbn [foldl fmap list_fmap].
  rewrite IH. destruct (decide (k ∈ key <$> l)).
  - rewrite decide_True; [done|]. by right.
  - destruct (decide (k = key x)) as [->|].
    + rewrite lookup_delete_eq, decide_True; [done|left].
    + rewrite lookup_delete_ne, decide_False by (rewrite ?elem_of_cons; naive_solver). done.
Qed.

(** *** Hash-map iteration *)

Section hash_order.
Context `{!HashOrder} `{Countable K} {V : Type}.
Implicit Types m : gmap K V.

Lemma elem_of_hm_order m k v : (k, v) ∈ hm_order m ↔ m !! k = Some v.
Proof. by rewrite hm_order_perm, elem_of_map_to_list. Qed.

Lemma hm_order_NoDup m : NoDup (hm_order m).
Proof. rewrite hm_order_perm. apply NoDup_map_to_list. Qed.

Lemma hm_keys_NoDup m : NoDup (hm_keys m).
Proof. unfold hm_keys. rewrite hm_order_perm. apply NoDup_fst_map_to_list. Qed.

Lemma elem_of_hm_keys m k : k ∈ hm_keys m ↔ is_Some (m !! k).
Proof.
  unfold hm_keys. rewrite list_elem_of_fmap. split.
  - intros ([k' v] & -> & Hin%elem_of_hm_order). eauto.
  - intros [v Hv]. exists (k, v). by rewrite elem_of_hm_order.
Qed.

Lemma elem_of_hm_values m v : v ∈ hm_values m ↔ ∃ k, m !! k = Some v.
Proof.
  unfold hm_values. rewrite list_elem_of_fmap. split.
  - intros ([k v'] & -> & Hin%elem_of_hm_order). eauto.
  - intros [k Hv]. exists (k, v). by rewrite elem_of_hm_order.
Qed.

Lemma hm_order_length m : length (hm_order m) = size m.
Proof. by rewrite hm_order_perm, length_map_to_list. Qed.

Lemma hm_values_length m : length (hm_values m) = size m.
Proof. unfold hm_values. by rewrite length_fmap, hm_order_length. Qed.
End hash_order.

Lemma omap_ext_in {A B} (f g : A → option B) (l : list A) :
  (∀ x, x ∈ l → f x = g x) → omap f l = omap g l.
Proof.
  induction l as [|x l IH]; intros Hl; [done|]. cbn. rewrite (Hl x) by left.
  rewrite IH; [done|]. intros. apply Hl. by right.
Qed.

Lemma fmap_ext_in {A B} (f g : A → B) (l : list A) :
  (∀ x, x ∈ l → f x = g x) → f <$> l = g <$> l.
Proof. intros Hl. apply list_fmap_ext. intros i x Hx. eapply Hl, list_elem_of_lookup_2, Hx. Qed.

Lemma filter_fmap_comm {A B} (f : A → B) (P : B → Prop) `{!∀ x, Decision (P x)} (l : list A) :
  filter P (f <$> l) = f <$> filter (λ x, P (f x)) l.
Proof.
  induction l as [|x l IH]; [done|]. rewrite fmap_cons, !filter_cons, IH. by case_decide.
Qed.

Lemma NoDup_keys_filter {K V} (P : K * V → Prop) `{!∀ x, Decision (P x)} (l : list (K * V)) :
  NoDup l.*1 → NoDup (filter P l).*1.
Proof.
  induction l as [|x l IH]; [done|]. rewrite filter_cons. cbn. intros [Hx Hl]%NoDup_cons.
  case_decide; [|auto]. cbn. apply NoDup_cons. split; [|auto].
  intros Hin. apply Hx. apply list_elem_of_fmap in Hin as (y & -> & [_ Hy]%list_elem_of_filter).
  by apply list_elem_of_fmap_2.
Qed.

Lemma omap_filter_fmap {A B C} (f : A → option B) (P : B → Prop) `{!∀ x, Decision (P x)}
    (h : B → C) (l : list A) :
  omap (λ a, b ← f a; if decide (P b) then Some (h b) else None) l = h <$> filter P (omap f l).
Proof.
  induction l as [|a l IH]; [done|]. cbn [omap list_omap].
  destruct (f a) as [b|]; cbn [mbind option_bind]; [|done].
  rewrite filter_cons. case_decide; [rewrite fmap_cons|]; by rewrite IH.
Qed.

Lemma omap_fmap {A B C} (f : B → option C) (g : A → B) (l : list A) :
  omap f (g <$> l) = omap (λ a, f (g a)) l.
Proof. induction l as [|a l IH]; [done|]. cbn. by destruct (f (g a)); rewrite IH. Qed.

Lemma mapM_omap {A B} (f : A → option B) (l : list A) :
  (∀ x, x ∈ l → is_Some (f x)) → mapM f l = Some (omap f l).
Proof.
  induction l as [|x l IH]; intros Hl; [done|]. cbn. destruct (Hl x) as [y Hy]; [by left|].
  rewrite Hy. cbn. rewrite IH; [done|]. intros z Hz. apply Hl. by right.
Qed.

Lemma omap_seq_lookup {A} (l : list (option A)) :
  omap (λ i, l !! i ≫= id) (seq 0 (length l)) = omap id l.
Proof.
  induction l as [|x l IH]; [done|]. cbn [length seq]. rewrite <- fmap_S_seq.
  cbn [omap list_omap]. rewrite omap_fmap. cbn. by destruct x; cbn; rewrite <- IH.
Qed.

Lemma NoDup_omap_pair {A B} (f : A → option B) (l : list A) :
  NoDup l → NoDup (omap (λ a, pair a <$> f a) l).
Proof.
  induction 1 as [|a l Ha Hl IH]; [constructor|]. cbn. destruct (f a) as [b|]; cbn; [|done].
  apply NoDup_cons. split; [|done].
  intros (a' & Ha' & (b' & _ & [= <- <-])%fmap_Some)%list_elem_of_omap. done.
Qed.

Lemma length_omap_total {A B} (f : A → option B) (l : list A) :
  (∀ x, x ∈ l → is_Some (f x)) → length (omap f l) = length l.
Proof.
  induction l as [|x l IH]; intros Hl; [done|]. cbn. destruct (Hl x) as [y ->]; [by left|].
  cbn. rewrite IH; [done|]. intros z Hz. apply Hl. by right.
Qed.

Lemma list_filter_iff_in {A} (P Q : A → Prop) `{!∀ x, Decision (P x), !∀ x, Decision (Q x)}
    (l : list A) :
  (∀ x, x ∈ l → P x ↔ Q x) → filter P l = filter Q l.
Proof.
  induction l as [|x l IH]; intros Hl; [done|]. rewrite !filter_cons.
  rewrite IH by (intros; apply Hl; by right). specialize (Hl x ltac:(left)).
  repeat case_decide; tauto || done.
Qed.

Lemma fmap_Permutation_inv {A B} (f : A → B) (l : list B) (k : list A) :
  l ≡ₚ f <$> k → ∃ k', l = f <$> k' ∧ k' ≡ₚ k.
Proof.
  intros H. apply Permutation_map_inv in H as (k' & -> & Hk).
  exists k'. split; [done|]. by symmetry.
Qed.

Lemma mapM_fmap {A B C} (f : B → option C) (g : A → B) (l : list A) :
  mapM f (g <$> l) = mapM (λ a, f (g a)) l.
Proof. induction l as [|a l IH]; [done|]. cbn. by rewrite IH. Qed.

Lemma prefix_take {A} n (l : list A) : take n l `prefix_of` l.
Proof. exists (drop n l). by rewrite take_drop. Qed.

(** Inserting elements of distinct keys one by one. *)
Lemma foldl_insert_lookup {V} `{Countable K} (key : V → K) (ds : list V) (m : gmap K V) k v :
  NoDup (key <$> ds) →
  foldl (λ m d, <[key d := d]> m) m ds !! k = Some v ↔
  (v ∈ ds ∧ key v = k) ∨ (m !! k = Some v ∧ k ∉ key <$> ds).
Proof.
  revert m. induction ds as [|d ds IH]; intros m Hnd.
  { cbn. split; [right; split; [done|apply not_elem_of_nil]|].
    intros [[Hin%elem_of_nil _]|[Hm _]]; done. }
  apply NoDup_cons in Hnd as [Hd Hnd]. cbn [foldl]. rewrite IH by done. cbn.
  rewrite elem_of_cons, not_elem_of_cons, lookup_insert_Some. split.
  - intros [[Hin Hk]|[[[<- <-]|[Hne Hm]] Hk]]; naive_solver.
  - intros [[[->|Hin] <-]|[Hm [Hne Hk]]]; naive_solver.
Qed.

Lemma NoDup_fmap_sublist_of {A B} (f : A → B) (l k : list A) :
  NoDup (f <$> k) → l `sublist_of` k → NoDup (f <$> l).
Proof. intros Hk Hl. eapply sublist_NoDup; [exact Hk|by apply fmap_sublist]. Qed.

(** Folding inserts in any order gives the map of a duplicate-free list. *)
Lemma bump_lookup `{Countable K} wrap (k j : K) v m :
  bump wrap k v m !! j =
  if decide (k = j) then Some (wrap (default 0 (m !! k) + v)) else m !! j.
Proof. unfold bump. by rewrite lookup_insert. Qed.

(** The extrema of a list are in it and bound it. *)
Lemma foldl_max_spec l x : foldl Z.max x l ∈ x :: l ∧ ∀ t, t ∈ x :: l → t ≤ foldl Z.max x l.
Proof.
  revert x. induction l as [|y l IH]; intros x; cbn [foldl].
  { split; [left|]. intros t ->%list_elem_of_singleton. lia. }
  destruct (IH (Z.max x y)) as [Hin Hle]. split.
  - apply elem_of_cons in Hin as [E|Hin]; [|by do 2 right]. rewrite E.
    destruct (Z.max_spec x y) as [[_ ->]|[_ ->]]; [by right; left|left].
  - assert (Z.max x y ≤ foldl Z.max (Z.max x y) l) by (apply Hle; left).
    intros t [->|[->|Ht]%elem_of_cons]%elem_of_cons; [lia..|]. apply Hle. by right.
Qed.

Lemma foldl_min_spec l x : foldl Z.min x l ∈ x :: l ∧ ∀ t, t ∈ x :: l → foldl Z.min x l ≤ t.
Proof.
  revert x. induction l as [|y l IH]; intros x; cbn [foldl].
  { split; [left|]. intros t ->%list_elem_of_singleton. lia. }
  destruct (IH (Z.min x y)) as [Hin Hle]. split.
  - apply elem_of_cons in Hin as [E|Hin]; [|by do 2 right]. rewrite E.
    destruct (Z.min_spec x y) as [[_ ->]|[_ ->]]; [left|by right; left].
  - assert (foldl Z.min (Z.min x y) l ≤ Z.min x y) by (apply Hle; left).
    intros t [->|[->|Ht]%elem_of_cons]%elem_of_cons; [lia..|]. apply Hle. by right.
Qed.

Lemma z_max_or_elem d l : l ≠ [] → z_max_or d l ∈ l.
Proof. destruct l as [|x l]; [done|]. intros _. apply foldl_max_spec. Qed.
Lemma z_min_or_elem d l : l ≠ [] → z_min_or d l ∈ l.
Proof. destruct l as [|x l]; [done|]. intros _. apply foldl_min_spec. Qed.
Lemma z_between d d' l t : t ∈ l → z_min_or d l ≤ t ≤ z_max_or d' l.
Proof.
  destruct l as [|x l]; [by intros ?%elem_of_nil|]. intros Ht.
  split; [by apply foldl_min_spec|by apply foldl_max_spec].
Qed.

(** Truncating between batches loses nothing of the final top-k. *)
Lemma truncate_sort_incremental {A} (P : A → Prop) (cmp : A → A → comparison) limit l k :
  total_on P cmp → strict_on P cmp →
  Forall P (l ++ k) → NoDup (l ++ k) →
  truncate_limit limit (sort_by cmp (truncate_limit limit (sort_by cmp l) ++ k)) =
  truncate_limit limit (sort_by cmp (l ++ k)).
Proof.
  intros Htotal Hstrict HP Hnd. pose proof HP as [HPl HPk]%Forall_app.
  destruct (decide (limit = 0%nat)) as [->|Hlim].
  { rewrite !truncate_limit_zero. apply (sort_by_ext P); [done|done| |].
    - apply Forall_app. split; [by apply Forall_sort_by|done].
    - by rewrite sort_by_perm. }
  rewrite !truncate_limit_take by done.
  assert (Forall P (sort_by cmp l)) as HPs by by apply Forall_sort_by.
  rewrite <- (take_drop limit (sort_by cmp l)) in HPs.
  apply Forall_app in HPs as [HPt HPd].
  rewrite <- (take_sort_by_dominated P cmp Htotal limit (drop limit (sort_by cmp l))).
  - f_equal. apply (sort_by_ext P); [done|done| |].
    + rewrite !Forall_app. done.
    + rewrite app_assoc, (Permutation_app_comm (drop _ _)), take_drop. by rewrite sort_by_perm.
  - done.
  - by apply Forall_app.
  - apply Forall_forall. intros d Hd. rewrite filter_app, length_app.
    assert (filter (λ y, cmp d y = Gt) (take limit (sort_by cmp l)) = take limit (sort_by cmp l))
      as Hall.
    { apply filter_all. apply Forall_forall. intros t Ht.
      pose proof (sort_by_ranked P cmp Htotal l HPl) as Hr.
      rewrite <- (take_drop limit (sort_by cmp l)) in Hr.
      assert (cmp t d ≠ Gt) as Htd by (by apply (StronglySorted_app_1_elem_of _ _ _ t d Hr)).
      rewrite Forall_forall in HPt, HPd. destruct Htotal as [anti _].
      rewrite (anti t d) by auto. destruct (cmp t d) eqn:E; try done.
      exfalso. apply Hstrict in E as ->; [|by auto..].
      apply NoDup_app in Hnd as [Hnd _]. rewrite <- (sort_by_perm cmp) in Hnd.
      rewrite <- (take_drop limit (sort_by cmp l)) in Hnd.
      apply NoDup_app in Hnd as (_ & Hno & _). by apply (Hno d). }
    rewrite Hall, length_take. assert (limit < length (sort_by cmp l))%nat; [|lia].
    destruct (decide (limit < length (sort_by cmp l))%nat); [done|].
    rewrite drop_ge in Hd by lia. by apply elem_of_nil in Hd.
Qed.

#[export] Hint Rewrite @hm_order_length @hm_values_length @enumerate_length : aether.
#[export] Hint Resolve ranked_truncate sort_by_ranked elem_of_truncate_limit : aether.
