(* ===== verification/Text.v ===== *)
(** * Text: the string operations of the source

    A Rust [String] is a Rocq [string] holding its UTF-8 bytes. Character-level
    operations decode it to code points. The Unicode tables of the standard library
    (alphanumeric and white-space classes, non-ASCII lower-casing) are the [Unicode]
    interface; on ASCII the definitions below are complete. *)

From Stdlib Require Export Ascii String.
From stdpp Require Export strings pretty.
From S2P Require Export Prelude.

(** ** Bytes and code points *)

Fixpoint str_bytes (s : string) : list N :=
  match s with
  | EmptyString => []
  | String c r => N_of_ascii c :: str_bytes r
  end.

Fixpoint str_of_bytes (l : list N) : string :=
  match l with
  | [] => EmptyString
  | b :: r => String (ascii_of_N b) (str_of_bytes r)
  end.

(** UTF-8 decoding. A Rust string is always well formed, so the malformed branches
    (which keep the byte) are never taken on a value of the source. *)
Fixpoint utf8_decode (l : list N) : list N :=
  match l with
  | [] => []
  | b0 :: r0 =>
      if (b0 <? 128)%N then b0 :: utf8_decode r0 else
      match r0 with
      | [] => [b0]
      | b1 :: r1 =>
          let c1 := N.land b1 63 in
          if (b0 <? 224)%N then (N.land b0 31 * 64 + c1)%N :: utf8_decode r1 else
          match r1 with
          | [] => [b0; b1]
          | b2 :: r2 =>
              let c2 := N.land b2 63 in
              if (b0 <? 240)%N
              then (N.land b0 15 * 4096 + c1 * 64 + c2)%N :: utf8_decode r2 else
              match r2 with
              | [] => [b0; b1; b2]
              | b3 :: r3 =>
                  (N.land b0 7 * 262144 + c1 * 4096 + c2 * 64 + N.land b3 63)%N
                    :: utf8_decode r3
              end
          end
      end
  end.

Definition utf8_encode_char (c : N) : list N :=
  if (c <? 128)%N then [c]
  else if (c <? 2048)%N then [192 + c / 64; 128 + c mod 64]%N
  else if (c <? 65536)%N then [224 + c / 4096; 128 + (c / 64) mod 64; 128 + c mod 64]%N
  else [240 + c / 262144; 128 + (c / 4096) mod 64; 128 + (c / 64) mod 64; 128 + c mod 64]%N.

Definition str_chars (s : string) : list N := utf8_decode (str_bytes s).
Definition str_of_chars (l : list N) : string := str_of_bytes (l ≫= utf8_encode_char).

(** ** Character classes *)

Class Unicode := {
  uni_alphanumeric : N → bool;
  uni_whitespace : N → bool;
  uni_to_lowercase : string → string;
}.

(** Tables that know ASCII only, for evaluation on ASCII inputs. *)
Definition ascii_only : Unicode :=
  {| uni_alphanumeric := λ _, false;
     uni_whitespace := λ _, false;
     uni_to_lowercase := λ s, s |}.

Definition is_digit (c : N) : bool := ((48 <=? c) && (c <=? 57))%N.
Definition is_upper (c : N) : bool := ((65 <=? c) && (c <=? 90))%N.
Definition is_lower (c : N) : bool := ((97 <=? c) && (c <=? 122))%N.
Definition ascii_lower (c : N) : N := if is_upper c then (c + 32)%N else c.

(** [char::is_alphanumeric], [char::is_whitespace]. *)
Definition char_alphanumeric `{!Unicode} (c : N) : bool :=
  if (c <? 128)%N then is_digit c || is_upper c || is_lower c else uni_alphanumeric c.
Definition char_whitespace `{!Unicode} (c : N) : bool :=
  if (c <? 128)%N then ((9 <=? c) && (c <=? 13))%N || (c =? 32)%N else uni_whitespace c.

(** ** String operations *)

Definition str_is_empty (s : string) : bool := bool_decide (s = EmptyString).

(** [str::to_ascii_lowercase], byte by byte. *)
Definition str_ascii_lower (s : string) : string :=
  str_of_bytes (ascii_lower <$> str_bytes s).

(** [str::to_lowercase]. *)
Definition str_to_lowercase `{!Unicode} (s : string) : string :=
  if forallb (λ b, b <? 128)%N (str_bytes s) then str_ascii_lower s
  else uni_to_lowercase s.

(** [str::eq_ignore_ascii_case]. *)
Definition eq_ignore_ascii_case (a b : string) : bool :=
  bool_decide (str_ascii_lower a = str_ascii_lower b).

(** [split]: the pieces between separator characters; always at least one piece. *)
Fixpoint split_chars (sep : N → bool) (l : list N) : list (list N) :=
  match l with
  | [] => [[]]
  | c :: r =>
      if sep c then [] :: split_chars sep r
      else match split_chars sep r with
           | [] => [[c]]
           | p :: ps => (c :: p) :: ps
           end
  end.

Definition str_split (sep : N → bool) (s : string) : list string :=
  str_of_chars <$> split_chars sep (str_chars s).

(** [text.split(|c| !c.is_alphanumeric()).filter(nonempty).map(to_lowercase)]: the
    tokenizer written out in [index.rs], [embed.rs] and [memory/src/lib.rs]. *)
Definition tokenize `{!Unicode} (text : string) : list string :=
  str_to_lowercase <$>
    filter (λ s, s ≠ EmptyString) (str_split (λ c, negb (char_alphanumeric c)) text).

Definition comma : N := 44.

Fixpoint trim_start_chars `{!Unicode} (l : list N) : list N :=
  match l with
  | c :: r => if char_whitespace c then trim_start_chars r else l
  | [] => []
  end.

(** [str::trim]. *)
Definition str_trim `{!Unicode} (s : string) : string :=
  str_of_chars (reverse (trim_start_chars (reverse (trim_start_chars (str_chars s))))).

(** [str::strip_prefix], [str::strip_suffix]. *)
Fixpoint strip_prefix (p s : string) : option string :=
  match p, s with
  | EmptyString, _ => Some s
  | String a p', String b s' => if bool_decide (a = b) then strip_prefix p' s' else None
  | String _ _, EmptyString => None
  end.

Definition strip_suffix (p s : string) : option string :=
  String.rev <$> strip_prefix (String.rev p) (String.rev s).

Definition starts_with (p s : string) : bool := bool_decide (is_Some (strip_prefix p s)).
Definition ends_with (p s : string) : bool := bool_decide (is_Some (strip_suffix p s)).

(** [str::contains]. *)
Definition str_contains (sub s : string) : bool :=
  bool_decide (is_Some (String.index 0 sub s)).

(** [str::split_once] on a one-byte or longer separator: at its first occurrence. *)
Fixpoint split_once (sep s : string) : option (string * string) :=
  match strip_prefix sep s with
  | Some rest => Some (EmptyString, rest)
  | None => match s with
            | EmptyString => None
            | String c r => p ← split_once sep r; Some (String c p.1, p.2)
            end
  end.

(** [slice::join]. *)
Fixpoint join (sep : string) (l : list string) : string :=
  match l with
  | [] => EmptyString
  | [s] => s
  | s :: k => s +:+ sep +:+ join sep k
  end.

(** [str::lines]: split at newlines, without a carriage return before the newline; what
    follows the last newline is a line only if it is not empty. *)
Definition strip_cr (s : string) : string :=
  default s (strip_suffix (String "013"%char EmptyString) s).
Definition str_lines (s : string) : list string :=
  let pieces := str_split (λ c, c =? 10)%N s in
  let n := (length pieces - 1)%nat in
  (strip_cr <$> take n pieces) ++ filter (λ p, p ≠ EmptyString) (drop n pieces).

(** Characters a literal of this file cannot show. *)
Definition newline : string := String "010"%char EmptyString.
Definition dquote : string := String "034"%char EmptyString.

(** [str::split_whitespace]. *)
Definition split_whitespace `{!Unicode} (s : string) : list string :=
  filter (λ p, p ≠ EmptyString) (str_split char_whitespace s).

(** [str::parse::<u64>] and friends: an optional [+], digits, and no overflow. *)
Fixpoint parse_digits (acc : Z) (l : list N) : option Z :=
  match l with
  | [] => Some acc
  | c :: r => if is_digit c then parse_digits (acc * 10 + Z.of_N (c - 48)) r else None
  end.

Definition parse_uint (max : Z) (s : string) : option Z :=
  let ds := match str_bytes s with 43%N :: r => r | l => l end in
  match ds with
  | [] => None
  | _ => n ← parse_digits 0 ds; if n <=? max then Some n else None
  end.

Definition parse_u64 : string → option Z := parse_uint (2 ^ 64 - 1).
Definition parse_u32 : string → option Z := parse_uint (2 ^ 32 - 1).

(** ** The environment

    [env key] is a variable's value, when it is set and is Unicode. *)

(** What the binaries call [env_or]: a variable parsed, or the default. *)
Definition env_or {A} (env : string → option string) (parse : string → option A) (key : string)
    (d : A) : A := default d (env key ≫= parse).

Definition env_is (env : string → option string) (key value : string) : bool :=
  match env key with Some v => eq_ignore_ascii_case v value | None => false end.

(** [Display] of an integer, and the zero-padded forms [{:0w}] and [{:0wx}]. *)
Definition show_Z (z : Z) : string := pretty z.
Definition show_nat (n : nat) : string := pretty (N.of_nat n).

Fixpoint repeat_zero (n : nat) : string :=
  match n with O => EmptyString | S n => String "0"%char (repeat_zero n) end.
Definition pad_zero (w : nat) (s : string) : string :=
  repeat_zero (w - String.length s) +:+ s.

Definition hex_char (d : Z) : ascii :=
  ascii_of_N (if (d <? 10)%Z then 48 + Z.to_N d else 87 + Z.to_N d)%N.
Fixpoint hex_digits (fuel : nat) (z : Z) (acc : string) : string :=
  match fuel with
  | O => acc
  | S f => let acc := String (hex_char (z mod 16)) acc in
           if z <? 16 then acc else hex_digits f (z / 16) acc
  end.
(** Sixteen digits cover a [u64]. *)
Definition show_hex (z : Z) : string := hex_digits 16 z EmptyString.

(** [str::cmp]: lexicographic on bytes. *)
Definition str_cmp (a b : string) : comparison := String.compare a b.

(** ** Lemmas *)

Lemma str_cmp_eq a b : str_cmp a b = Eq ↔ a = b.
Proof.
  split; [apply String.compare_eq_iff|]. intros ->. unfold str_cmp.
  pose proof (String.compare_antisym b b) as E. by destruct (String.compare b b).
Qed.

Lemma str_cmp_anti a b : str_cmp b a = CompOpp (str_cmp a b).
Proof. apply String.compare_antisym. Qed.

Lemma str_cmp_cons c a d b :
  str_cmp (String c a) (String d b) =
  then_with (N.compare (N_of_ascii c) (N_of_ascii d)) (str_cmp a b).
Proof.
  unfold str_cmp. simpl. unfold Ascii.compare. by destruct (N.compare _ _).
Qed.

Lemma str_cmp_trans a b c : str_cmp a b ≠ Gt → str_cmp b c ≠ Gt → str_cmp a c ≠ Gt.
Proof.
  revert b c. induction a as [|x a IH]; intros [|y b] [|z c]; try done.
  rewrite !str_cmp_cons. intros Hab Hbc.
  destruct (N.compare_spec (N_of_ascii x) (N_of_ascii y)) as [E1|E1|E1]; try done;
  destruct (N.compare_spec (N_of_ascii y) (N_of_ascii z)) as [E2|E2|E2]; try done;
  destruct (N.compare_spec (N_of_ascii x) (N_of_ascii z)) as [E3|E3|E3];
    try done; try (exfalso; lia); simpl in *; eauto.
Qed.

Lemma str_bytes_of_bytes l :
  Forall (λ b, b < 256)%N l → str_bytes (str_of_bytes l) = l.
Proof.
  induction 1 as [|b l Hb _ IH]; [done|]. simpl. by rewrite IH, N_ascii_embedding.
Qed.

Lemma str_of_bytes_bytes s : str_of_bytes (str_bytes s) = s.
Proof. induction s as [|c s IH]; [done|]. simpl. by rewrite IH, ascii_N_embedding. Qed.

Lemma str_bytes_range s : Forall (λ b, b < 256)%N (str_bytes s).
Proof.
  induction s as [|c s IH]; constructor; [|done]. apply N_ascii_bounded.
Qed.

(** *** UTF-8 *)

(** Decoding reads back any sequence of code points. *)
Lemma utf8_roundtrip l :
  Forall (λ c, c < 2097152)%N l → utf8_decode (l ≫= utf8_encode_char) = l.
Proof.
  assert (∀ x, N.land x 63 = x mod 64)%N as L6 by exact (λ x, N.land_ones x 6).
  assert (∀ x, N.land x 31 = x mod 32)%N as L5 by exact (λ x, N.land_ones x 5).
  assert (∀ x, N.land x 15 = x mod 16)%N as L4 by exact (λ x, N.land_ones x 4).
  assert (∀ x, N.land x 7 = x mod 8)%N as L3 by exact (λ x, N.land_ones x 3).
  induction 1 as [|c l Hc _ IH]; [done|]. rewrite bind_cons. unfold utf8_encode_char at 1.
  repeat case_match; rewrite ?N.ltb_lt, ?N.ltb_ge in *;
    cbn [app utf8_decode]; rewrite ?L6, ?L5, ?L4, ?L3;
    repeat (match goal with |- context [(?x <? ?y)%N] =>
      destruct (N.ltb_spec x y); try (exfalso; zify; Z.to_euclidean_division_equations; lia) end);
    (f_equal; [zify; Z.to_euclidean_division_equations; lia|exact IH]) || (f_equal; exact IH).
Qed.

Lemma utf8_decode_range l :
  Forall (λ b, b < 256)%N l → Forall (λ c, c < 2097152)%N (utf8_decode l).
Proof.
  assert (∀ x k, N.land x (N.ones k) < 2 ^ k)%N as Hl.
  { intros x k. rewrite N.land_ones. by apply N.mod_lt, N.pow_nonzero. }
  assert (∀ x, N.land x 63 < 64)%N as L6 by exact (λ x, Hl x 6%N).
  assert (∀ x, N.land x 31 < 32)%N as L5 by exact (λ x, Hl x 5%N).
  assert (∀ x, N.land x 15 < 16)%N as L4 by exact (λ x, Hl x 4%N).
  assert (∀ x, N.land x 7 < 8)%N as L3 by exact (λ x, Hl x 3%N). clear Hl.
  induction l as [l IH] using (induction_ltof1 _ (@length N)). unfold ltof in IH. intros H.
  destruct l as [|b0 l]; [constructor|]. apply Forall_cons in H as [B0 H].
  cbn [utf8_decode]. destruct (b0 <? 128)%N.
  { constructor; [lia|]. apply IH; [cbn; lia|done]. }
  destruct l as [|b1 l]; [repeat constructor; lia|]. apply Forall_cons in H as [B1 H].
  pose proof (L6 b1). pose proof (L5 b0). pose proof (L4 b0). pose proof (L3 b0).
  destruct (b0 <? 224)%N; [constructor; [lia|apply IH; [cbn; lia|done]]|].
  destruct l as [|b2 l]; [repeat constructor; lia|]. apply Forall_cons in H as [B2 H].
  pose proof (L6 b2).
  destruct (b0 <? 240)%N; [constructor; [lia|apply IH; [cbn; lia|done]]|].
  destruct l as [|b3 l]; [repeat constructor; lia|]. apply Forall_cons in H as [B3 H].
  pose proof (L6 b3). constructor; [lia|apply IH; [cbn; lia|done]].
Qed.

Lemma str_chars_range s : Forall (λ c, c < 2097152)%N (str_chars s).
Proof. apply utf8_decode_range, str_bytes_range. Qed.

(** The characters of a string made of characters. *)
Lemma str_chars_of_chars l : Forall (λ c, c < 2097152)%N l → str_chars (str_of_chars l) = l.
Proof.
  intros Hl. unfold str_chars, str_of_chars. rewrite str_bytes_of_bytes; [by apply utf8_roundtrip|].
  apply Forall_bind. eapply Forall_impl; [exact Hl|]. intros c Hc. cbn in Hc |- *. unfold utf8_encode_char.
  repeat case_match; rewrite ?N.ltb_lt, ?N.ltb_ge in *; repeat constructor; zify; Z.to_euclidean_division_equations; lia.
Qed.

Section trim.
Context `{!Unicode}.

Lemma trim_start_suffix l : trim_start_chars l `suffix_of` l.
Proof.
  induction l as [|c l IH]; [done|]. cbn. case_match; [by apply suffix_cons_r|done].
Qed.

Lemma trim_start_idem l : trim_start_chars (trim_start_chars l) = trim_start_chars l.
Proof. induction l as [|c l IH]; [done|]. cbn. case_match eqn:E; [done|]. cbn. by rewrite E. Qed.

(** Trimming the front of a list whose front is trimmed at the back too. *)
Lemma trim_start_back l :
  trim_start_chars l = l →
  trim_start_chars (reverse (trim_start_chars (reverse l))) = reverse (trim_start_chars (reverse l)).
Proof.
  intros Hl. destruct (trim_start_suffix (reverse l)) as [k Hk].
  apply (f_equal reverse) in Hk. rewrite reverse_involutive, reverse_app in Hk.
  set (r := reverse (trim_start_chars (reverse l))) in *. clearbody r. destruct r as [|c r]; [done|].
  rewrite Hk in Hl. cbn in Hl |- *. destruct (char_whitespace c); [|done].
  exfalso. apply (f_equal length) in Hl.
  pose proof (suffix_length _ _ (trim_start_suffix (r ++ reverse k))). cbn in Hl. lia.
Qed.

Lemma str_trim_idem s : str_trim (str_trim s) = str_trim s.
Proof.
  unfold str_trim. set (l := reverse (trim_start_chars (reverse (trim_start_chars (str_chars s))))).
  rewrite str_chars_of_chars.
  - assert (trim_start_chars l = l) as -> by apply trim_start_back, trim_start_idem.
    unfold l. by rewrite reverse_involutive, trim_start_idem.
  - pose proof (str_chars_range s) as Hs. unfold l.
    destruct (trim_start_suffix (str_chars s)) as [k Hk]. rewrite Hk in Hs.
    apply Forall_app in Hs as [_ Hs]. apply Forall_reverse.
    destruct (trim_start_suffix (reverse (trim_start_chars (str_chars s)))) as [k' Hk'].
    apply Forall_reverse in Hs. rewrite Hk' in Hs. by apply Forall_app in Hs as [_ Hs].
Qed.
End trim.

(** *** Comparison and numbers *)

Lemma eq_ignore_ascii_case_refl s : eq_ignore_ascii_case s s = true.
Proof. by apply bool_decide_true. Qed.

Lemma eq_ignore_ascii_case_sym a b : eq_ignore_ascii_case a b = eq_ignore_ascii_case b a.
Proof. unfold eq_ignore_ascii_case. by apply bool_decide_ext. Qed.

(** *** Printed numbers parse back *)

Lemma str_bytes_app a b : str_bytes (a +:+ b) = str_bytes a ++ str_bytes b.
Proof. induction a as [|c a IH]; [done|]. simpl. by f_equal. Qed.

Lemma digit_cases (P : N → Prop) :
  P 0%N → P 1%N → P 2%N → P 3%N → P 4%N → P 5%N → P 6%N → P 7%N → P 8%N → P 9%N →
  ∀ x, (x < 10)%N → P x.
Proof.
  intros. do 10 (destruct (decide (x = 0%N)) as [->|]; [done|];
    destruct (decide (x = 1%N)) as [->|]; [done|]; destruct (decide (x = 2%N)) as [->|]; [done|];
    destruct (decide (x = 3%N)) as [->|]; [done|]; destruct (decide (x = 4%N)) as [->|]; [done|];
    destruct (decide (x = 5%N)) as [->|]; [done|]; destruct (decide (x = 6%N)) as [->|]; [done|];
    destruct (decide (x = 7%N)) as [->|]; [done|]; destruct (decide (x = 8%N)) as [->|]; [done|];
    destruct (decide (x = 9%N)) as [->|]; [done|]). lia.
Qed.

Lemma digit_char x : (x < 10)%N → N_of_ascii (pretty_N_char x) = (x + 48)%N.
Proof. revert x. by apply digit_cases. Qed.

Lemma is_digit_shift x : (x < 10)%N → is_digit (x + 48) = true.
Proof. intros. unfold is_digit. apply andb_true_iff. rewrite !N.leb_le. lia. Qed.

Lemma parse_pretty_go x s :
  parse_digits 0 (str_bytes (pretty_N_go x s)) = parse_digits (Z.of_N x) (str_bytes s).
Proof.
  revert s. induction (N.lt_wf_0 x) as [x _ IH]. intros s.
  destruct (decide (x = 0%N)) as [->|Hx]; [by rewrite pretty_N_go_0|].
  rewrite pretty_N_go_step by lia. rewrite IH by (apply N.div_lt; lia).
  cbn [str_bytes parse_digits]. pose proof (N.mod_lt x 10) as Hm.
  rewrite digit_char, is_digit_shift by lia. f_equal.
  rewrite N.add_sub. pose proof (N.div_mod x 10). lia.
Qed.

Lemma pretty_go_digits x s :
  Forall (λ b, is_digit b = true) (str_bytes s) →
  Forall (λ b, is_digit b = true) (str_bytes (pretty_N_go x s)).
Proof.
  revert s. induction (N.lt_wf_0 x) as [x _ IH]. intros s Hs.
  destruct (decide (x = 0%N)) as [->|Hx]; [by rewrite pretty_N_go_0|].
  rewrite pretty_N_go_step by lia. apply IH; [apply N.div_lt; lia|].
  cbn [str_bytes]. constructor; [|done]. pose proof (N.mod_lt x 10).
  rewrite digit_char by lia. apply is_digit_shift. lia.
Qed.

Lemma show_Z_N z : 0 ≤ z → show_Z z = pretty (Z.to_N z).
Proof. by destruct z. Qed.

Lemma show_Z_digits z : 0 ≤ z → Forall (λ b, is_digit b = true) (str_bytes (show_Z z)).
Proof.
  intros. rewrite show_Z_N by done. unfold pretty, pretty_N. case_decide; [by repeat constructor|].
  apply pretty_go_digits. constructor.
Qed.

Lemma parse_show_Z z : 0 ≤ z → parse_digits 0 (str_bytes (show_Z z)) = Some z.
Proof.
  intros Hz. rewrite show_Z_N by done. unfold pretty, pretty_N. case_decide as H.
  - simpl. f_equal. lia.
  - rewrite parse_pretty_go. simpl. f_equal. lia.
Qed.

Lemma show_Z_nonempty z : 0 ≤ z → str_bytes (show_Z z) ≠ [].
Proof.
  intros Hz E. destruct (decide (z = 0)) as [->|]; [done|].
  pose proof (parse_show_Z z Hz) as H. rewrite E in H. simpl in H. congruence.
Qed.

Lemma parse_zeros n l :
  parse_digits 0 (str_bytes (repeat_zero n +:+ l)) = parse_digits 0 (str_bytes l).
Proof. by induction n. Qed.

Lemma no_plus_sign b (l : list N) :
  is_digit b = true → match b :: l with 43%N :: r => r | k => k end = b :: l.
Proof.
  unfold is_digit. intros [H1 H2]%andb_true_iff. apply N.leb_le in H1, H2.
  replace b with (b - 48 + 48)%N by lia. generalize (b - 48)%N as x, (ltac:(lia) : (b - 48 < 10)%N).
  by apply digit_cases.
Qed.

(** [format!("{z:0w}").parse()] gives the number back. *)
Lemma parse_padded max w z :
  0 ≤ z ≤ max → parse_uint max (pad_zero w (show_Z z)) = Some z.
Proof.
  intros [Hz Hmax]. unfold parse_uint, pad_zero.
  set (n := (w - String.length (show_Z z))%nat).
  pose proof (parse_zeros n (show_Z z)) as Hp. rewrite parse_show_Z in Hp by done.
  assert (Forall (λ b, is_digit b = true) (str_bytes (repeat_zero n +:+ show_Z z))) as Hd.
  { rewrite str_bytes_app. apply Forall_app. split; [|by apply show_Z_digits].
    clear Hp. induction n; by constructor. }
  assert (str_bytes (repeat_zero n +:+ show_Z z) ≠ []) as Hne.
  { rewrite str_bytes_app. intros E. apply app_eq_nil in E as [_ E].
    by apply (show_Z_nonempty z). }
  destruct (str_bytes _) as [|b l]; [done|]. apply Forall_cons in Hd as [Hb _].
  rewrite no_plus_sign, Hp by done. cbn [mbind option_bind].
  by rewrite (proj2 (Z.leb_le z max) Hmax).
Qed.

Lemma strip_prefix_app p s : strip_prefix p (p +:+ s) = Some s.
Proof. induction p as [|c p IH]; [done|]. simpl. by rewrite bool_decide_true. Qed.

Lemma str_app_assoc (a b c : string) : a +:+ (b +:+ c) = (a +:+ b) +:+ c.
Proof. induction a as [|x a IH]; [done|]. exact (f_equal (String x) IH). Qed.

Lemma str_app_nil (a : string) : a +:+ EmptyString = a.
Proof. induction a as [|x a IH]; [done|]. exact (f_equal (String x) IH). Qed.

Lemma rev_app_spec s t : String.rev_app s t = String.rev s +:+ t.
Proof.
  unfold String.rev. revert t. induction s as [|x s IH]; intros t; [done|]. simpl.
  rewrite IH, (IH (String x "")), <- str_app_assoc. done.
Qed.

Lemma rev_cons_str x s : String.rev (String x s) = String.rev s +:+ String x "".
Proof. unfold String.rev at 1. simpl. apply rev_app_spec. Qed.

Lemma str_rev_app a b : String.rev (a +:+ b) = String.rev b +:+ String.rev a.
Proof.
  induction a as [|x a IH]; [by rewrite str_app_nil|].
  change (String.rev (String x (a +:+ b)) = String.rev b +:+ String.rev (String x a)).
  rewrite !rev_cons_str, IH. symmetry. apply str_app_assoc.
Qed.

Lemma str_rev_rev s : String.rev (String.rev s) = s.
Proof. induction s as [|x s IH]; [done|]. by rewrite rev_cons_str, str_rev_app, IH. Qed.

Lemma strip_suffix_app p s : strip_suffix p (s +:+ p) = Some s.
Proof.
  unfold strip_suffix. rewrite str_rev_app, strip_prefix_app.
  exact (f_equal Some (str_rev_rev s)).
Qed.

(** *** Zero-padded numbers sort as numbers *)

Lemma str_length_bytes s : String.length s = length (str_bytes s).
Proof. induction s as [|c s IH]; [done|]. cbn. by f_equal. Qed.

Lemma pretty_go_length x s n :
  (x < 10 ^ N.of_nat n)%N → (length (str_bytes (pretty_N_go x s)) ≤ n + length (str_bytes s))%nat.
Proof.
  revert x s. induction n as [|n IH]; intros x s Hx.
  { replace x with 0%N by (cbn in Hx; lia). by rewrite pretty_N_go_0. }
  destruct (decide (x = 0%N)) as [->|H0]; [rewrite pretty_N_go_0; lia|].
  rewrite pretty_N_go_step by lia. etransitivity; [apply IH|cbn; lia].
  apply N.Div0.div_lt_upper_bound. rewrite Nat2N.inj_succ, N.pow_succ_r' in Hx. lia.
Qed.

Lemma show_Z_length z n :
  0 ≤ z < 10 ^ Z.of_nat n → (0 < n)%nat → (String.length (show_Z z) ≤ n)%nat.
Proof.
  intros [Hz Hn] H0. rewrite str_length_bytes, show_Z_N by done. unfold pretty, pretty_N.
  case_decide; [cbn; lia|]. etransitivity; [apply (pretty_go_length _ _ n)|cbn; lia].
  apply Z2N.inj_lt in Hn; [|lia..]. rewrite Z2N.inj_pow in Hn by lia.
  by rewrite <- nat_N_Z, N2Z.id in Hn.
Qed.

Lemma repeat_zero_bytes n : str_bytes (repeat_zero n) = replicate n 48%N.
Proof. induction n as [|n IH]; [done|]. cbn. by f_equal. Qed.

Lemma str_cmp_prefix p a b : str_cmp (p +:+ a) (p +:+ b) = str_cmp a b.
Proof.
  induction p as [|c p IH]; [done|].
  change (str_cmp (String c (p +:+ a)) (String c (p +:+ b)) = str_cmp a b).
  by rewrite str_cmp_cons, N.compare_refl.
Qed.

Lemma str_cmp_suffix a b t :
  String.length a = String.length b → str_cmp (a +:+ t) (b +:+ t) = str_cmp a b.
Proof.
  revert b. induction a as [|x a IH]; intros [|y b] H; try done.
  { cbn. by apply str_cmp_eq. }
  injection H as H.
  change (str_cmp (String x (a +:+ t)) (String y (b +:+ t)) = str_cmp (String x a) (String y b)).
  rewrite !str_cmp_cons. by rewrite IH.
Qed.

Lemma parse_digits_cmp a b x y n m :
  String.length a = String.length b → parse_digits x (str_bytes a) = Some n →
  parse_digits y (str_bytes b) = Some m → Z.compare n m = then_with (Z.compare x y) (str_cmp a b).
Proof.
  revert b x y. induction a as [|c a IH]; intros [|d b] x y; try done.
  { cbn. intros _ [= ->] [= ->]. by destruct (Z.compare n m). }
  intros Hl. injection Hl as Hl. cbn [str_bytes parse_digits].
  destruct (is_digit (N_of_ascii c)) eqn:Hc; [|done]. destruct (is_digit (N_of_ascii d)) eqn:Hd; [|done].
  intros Hn Hm. rewrite (IH b _ _ Hl Hn Hm), str_cmp_cons.
  unfold is_digit in *. apply andb_true_iff in Hc as [Hc1 Hc2], Hd as [Hd1 Hd2].
  rewrite N.leb_le in *. generalize dependent (N_of_ascii c). generalize dependent (N_of_ascii d).
  intros q ?? _ p ?? _.
  destruct (Z.compare_spec x y) as [->|E|E].
  - cbn. replace (y * 10 + Z.of_N (p - 48) ?= y * 10 + Z.of_N (q - 48)) with (N.compare p q);
      [by destruct (N.compare p q)|].
    destruct (N.compare_spec p q); symmetry; [apply Z.compare_eq_iff|apply Z.compare_lt_iff|apply Z.compare_gt_iff]; lia.
  - cbn. rewrite (proj2 (Z.compare_lt_iff _ _)); [done|lia].
  - cbn. rewrite (proj2 (Z.compare_gt_iff _ _)); [done|lia].
Qed.

Lemma padded_length w z :
  0 ≤ z < 10 ^ Z.of_nat w → (0 < w)%nat → String.length (pad_zero w (show_Z z)) = w.
Proof.
  intros Hz Hw. unfold pad_zero. pose proof (show_Z_length z w Hz Hw).
  rewrite str_length_bytes, str_bytes_app, length_app, repeat_zero_bytes, length_replicate,
    <- str_length_bytes. lia.
Qed.

Lemma parse_pad w z : 0 ≤ z → parse_digits 0 (str_bytes (pad_zero w (show_Z z))) = Some z.
Proof. intros. unfold pad_zero. by rewrite parse_zeros, parse_show_Z. Qed.

Lemma padded_cmp w i j :
  0 ≤ i < 10 ^ Z.of_nat w → 0 ≤ j < 10 ^ Z.of_nat w → (0 < w)%nat →
  str_cmp (pad_zero w (show_Z i)) (pad_zero w (show_Z j)) = Z.compare i j.
Proof.
  intros Hi Hj Hw.
  rewrite (parse_digits_cmp (pad_zero w (show_Z i)) (pad_zero w (show_Z j)) 0 0 i j);
    [done|by rewrite !padded_length|apply parse_pad; lia..].
Qed.

(** *** Hexadecimal *)

Definition hex_value (start : Z) (l : list N) : Z :=
  foldl (λ a b, a * 16 + (if (b <? 58)%N then Z.of_N b - 48 else Z.of_N b - 87)) start l.

Lemma hex_char_value d a :
  0 ≤ d < 16 → hex_value a [N_of_ascii (hex_char d)] = a * 16 + d.
Proof.
  intros Hd. unfold hex_value. cbn [foldl]. f_equal.
  assert (Forall (λ d, (if (N_of_ascii (hex_char d) <? 58)%N then Z.of_N (N_of_ascii (hex_char d)) - 48
    else Z.of_N (N_of_ascii (hex_char d)) - 87) = d) (seqZ 0 16)) as H by (repeat constructor).
  rewrite Forall_forall in H. apply H. apply elem_of_seqZ. lia.
Qed.

Lemma hex_digits_value fuel z acc :
  0 ≤ z < 16 ^ Z.of_nat fuel →
  hex_value 0 (str_bytes (hex_digits fuel z acc)) = hex_value z (str_bytes acc).
Proof.
  revert z acc. induction fuel as [|f IH]; intros z acc Hz.
  { cbn in Hz. by replace z with 0 by lia. }
  cbn [hex_digits]. pose proof (Z.mod_pos_bound z 16 ltac:(lia)) as Hm.
  rewrite Nat2Z.inj_succ, Z.pow_succ_r in Hz by lia.
  assert (∀ a, hex_value a (str_bytes (String (hex_char (z mod 16)) acc)) =
    hex_value (a * 16 + z mod 16) (str_bytes acc)) as Hc.
  { intros a. cbn [str_bytes]. change (N_of_ascii ?c :: ?l) with ([N_of_ascii c] ++ l).
    unfold hex_value. rewrite foldl_app. fold (hex_value a [N_of_ascii (hex_char (z mod 16))]).
    by rewrite hex_char_value. }
  pose proof (Z.div_mod z 16 ltac:(lia)) as Hdm.
  destruct (Z.ltb_spec z 16).
  - rewrite Hc. f_equal. rewrite Z.mod_small; lia.
  - rewrite IH, Hc; [f_equal; lia|]. split; [apply Z.div_pos; lia|]. apply Z.div_lt_upper_bound; lia.
Qed.

(** Padded hexadecimal numbers are distinct. *)
Lemma hex_pad_value w z :
  0 ≤ z < 2 ^ 64 → hex_value 0 (str_bytes (pad_zero w (show_hex z))) = z.
Proof.
  intros Hz. unfold pad_zero. rewrite str_bytes_app, repeat_zero_bytes. unfold hex_value.
  rewrite foldl_app. replace (foldl _ 0 (replicate _ _)) with 0.
  - fold (hex_value 0 (str_bytes (show_hex z))). unfold show_hex. rewrite hex_digits_value; [done|].
    change (16 ^ Z.of_nat 16) with (2 ^ 64). lia.
  - induction (w - String.length (show_hex z))%nat as [|n IH]; [done|exact IH].
Qed.

Example tokenize_ex :
  @tokenize ascii_only "Boeing-737 max" = ["boeing"; "737"; "max"]%string.
Proof. reflexivity. Qed.

Example trim_ex : @str_trim ascii_only "  UAL231 " = "UAL231"%string.
Proof. reflexivity. Qed.

Example show_hex_ex : pad_zero 6 (show_hex 255) = "0000ff"%string.
Proof. reflexivity. Qed.
