(* ===== verification/Float.v ===== *)
(** * Floating point: [f64] and [f32]

    IEEE 754 binary64 and binary32 with round-to-nearest-even, as specified by the
    standard library's [SpecFloat]: every operation below computes. The platform's
    transcendental functions and the decimal conversions are the [FloatLib]
    interface. *)

From Stdlib Require Export SpecFloat.
From S2P Require Export Prelude Text.

#[export] Instance spec_float_eq_dec : EqDecision spec_float.
Proof. solve_decision. Defined.

Abbreviation f64 := spec_float.
Abbreviation f32 := spec_float.

(** ** Binary64 *)

Definition f64_add (x y : f64) : f64 := SFadd 53 1024 x y.
Definition f64_sub (x y : f64) : f64 := SFsub 53 1024 x y.
Definition f64_mul (x y : f64) : f64 := SFmul 53 1024 x y.
Definition f64_div (x y : f64) : f64 := SFdiv 53 1024 x y.

(** [z as f64]. *)
Definition f64_of_Z (z : Z) : f64 := binary_normalize 53 1024 z 0 false.

(** A decimal literal [n/d]: the quotient of two exactly represented integers is
    rounded once, as the literal is. *)
Definition f64_lit (n d : Z) : f64 := f64_div (f64_of_Z n) (f64_of_Z d).

Definition f64_zero : f64 := S754_zero false.
Definition f64_one : f64 := f64_of_Z 1.
Definition f64_nan : f64 := S754_nan.
(** [std::f64::consts::PI]. *)
Definition f64_pi : f64 := S754_finite false 7074237752028440 (-51).

Definition is_nan (x : f64) : bool := match x with S754_nan => true | _ => false end.
Definition is_finite (x : f64) : bool :=
  match x with S754_nan | S754_infinity _ => false | _ => true end.

(** [partial_cmp] and the comparison operators. *)
Definition f64_cmp (x y : f64) : option comparison := SFcompare x y.
Definition f64_ltb (x y : f64) : bool := SFltb x y.
Definition f64_leb (x y : f64) : bool := SFleb x y.
Definition f64_gtb (x y : f64) : bool := SFltb y x.
Definition f64_geb (x y : f64) : bool := SFleb y x.
Definition f64_eqb (x y : f64) : bool := SFeqb x y.

(** [f64::max] against a non-NaN bound, [f64::clamp]. *)
Definition f64_max (x y : f64) : f64 :=
  if is_nan x then y else if f64_ltb x y then y else x.
Definition f64_clamp (x lo hi : f64) : f64 :=
  if f64_ltb x lo then lo else if f64_gtb x hi then hi else x.

(** [f64::floor]. *)
Definition f64_floor (x : f64) : f64 :=
  match x with
  | S754_finite s m e =>
      if 0 <=? e then x
      else binary_normalize 53 1024
             ((if s then Zneg m else Zpos m) / 2 ^ (- e)) 0 s
  | _ => x
  end.

(** ** Binary32 *)

Definition f32_add (x y : f32) : f32 := SFadd 24 128 x y.
Definition f32_mul (x y : f32) : f32 := SFmul 24 128 x y.
Definition f32_div (x y : f32) : f32 := SFdiv 24 128 x y.
Definition f32_sqrt (x : f32) : f32 := SFsqrt 24 128 x.
Definition f32_of_Z (z : Z) : f32 := binary_normalize 24 128 z 0 false.
Definition f32_zero : f32 := S754_zero false.
Definition f32_abs (x : f32) : f32 := SFabs x.
Definition f32_neg (x : f32) : f32 := SFopp x.
Definition f32_gtb (x y : f32) : bool := SFltb y x.
(** [Iterator::sum] over [f32]. *)
Definition f32_sum (l : list f32) : f32 := foldl f32_add f32_zero l.

(** [x as f64] is exact. *)
Definition f64_of_f32 (x : f32) : f64 :=
  match x with
  | S754_finite s m e => binary_normalize 53 1024 (if s then Zneg m else Zpos m) e s
  | _ => x
  end.

(** ** Platform functions *)

Class FloatLib := {
  f64_ln : f64 → f64;
  f64_asin : f64 → f64;
  (** [format!("{x}")]: the shortest decimal that reads back as [x]. *)
  f64_display : f64 → string;
  (** [format!("{x:.n}")]. *)
  f64_fixed : nat → f64 → string;
  (** [str::parse::<f64>]. *)
  f64_parse : string → option f64;
}.

(** Stand-ins that only print and read whole numbers, for evaluation. *)
Definition f64_to_Z (x : f64) : Z :=
  match x with
  | S754_finite s m e =>
      (if s then -1 else 1) * (if 0 <=? e then Zpos m * 2 ^ e else Zpos m / 2 ^ (- e))
  | _ => 0
  end.
Definition whole_numbers : FloatLib :=
  {| f64_ln := λ x, x; f64_asin := λ x, x;
     f64_display := λ x, show_Z (f64_to_Z x);
     f64_fixed := λ _ x, show_Z (f64_to_Z x);
     f64_parse := λ s, f64_of_Z <$> parse_u64 s |}.

(** ** The ranking comparator

    [b.score.partial_cmp(&a.score).unwrap_or(Equal).then_with(|| a.id.cmp(&b.id))]:
    score descending, ties broken by document key. *)
Definition score_cmp (sa sb : f64) : comparison := default Eq (f64_cmp sb sa).
Definition rank_cmp (sa : f64) (ka : string) (sb : f64) (kb : string) : comparison :=
  then_with (score_cmp sa sb) (str_cmp ka kb).

(** ** Lemmas *)

(** Every non-NaN float has a key whose lexicographic order is the float order. *)
Definition f64_key (x : f64) : Z * Z * Z :=
  match x with
  | S754_zero _ => (0, 0, 0)
  | S754_infinity false => (2, 0, 0)
  | S754_infinity true => (-2, 0, 0)
  | S754_nan => (0, 0, 0)
  | S754_finite false m e => (1, e, Zpos m)
  | S754_finite true m e => (-1, - e, Zneg m)
  end.
Definition key_cmp (a b : Z * Z * Z) : comparison :=
  then_with (Z.compare a.1.1 b.1.1)
    (then_with (Z.compare a.1.2 b.1.2) (Z.compare a.2 b.2)).

Lemma f64_cmp_key x y :
  is_nan x = false → is_nan y = false → f64_cmp x y = Some (key_cmp (f64_key x) (f64_key y)).
Proof.
  destruct x as [s|s| |s m e], y as [t|t| |t n d]; try done;
    try (by destruct s); try (by destruct t); try (by destruct s, t).
  intros _ _. destruct s, t; try done; unfold key_cmp; simpl; do 2 f_equal.
  - destruct (Z.compare_spec e d), (Z.compare_spec (- e) (- d)); try done; lia.
  - by destruct (e ?= d)%Z.
Qed.

Lemma f64_cmp_nan_l x : f64_cmp S754_nan x = None.
Proof. done. Qed.

Lemma f64_cmp_nan_r x : f64_cmp x S754_nan = None.
Proof. by destruct x. Qed.

Lemma key_cmp_anti a b : key_cmp b a = CompOpp (key_cmp a b).
Proof.
  unfold key_cmp. rewrite !then_with_opp, <- !Z.compare_antisym. done.
Qed.

Lemma key_cmp_refl a : key_cmp a a = Eq.
Proof. unfold key_cmp. by rewrite !Z.compare_refl. Qed.

Lemma key_cmp_trans a b c : key_cmp a b ≠ Gt → key_cmp b c ≠ Gt → key_cmp a c ≠ Gt.
Proof.
  destruct a as [[a1 a2] a3], b as [[b1 b2] b3], c as [[c1 c2] c3]. unfold key_cmp; simpl.
  destruct (Z.compare_spec a1 b1), (Z.compare_spec b1 c1), (Z.compare_spec a1 c1);
    simpl; try done; try (exfalso; lia);
  destruct (Z.compare_spec a2 b2), (Z.compare_spec b2 c2), (Z.compare_spec a2 c2);
    simpl; try done; try (exfalso; lia);
  destruct (Z.compare_spec a3 b3), (Z.compare_spec b3 c3), (Z.compare_spec a3 c3);
    simpl; try done; exfalso; lia.
Qed.

Lemma score_cmp_anti x y : score_cmp y x = CompOpp (score_cmp x y).
Proof.
  unfold score_cmp. destruct (is_nan x) eqn:Hx, (is_nan y) eqn:Hy.
  1-3: by destruct x, y.
  rewrite !f64_cmp_key by done. simpl. apply key_cmp_anti.
Qed.

Lemma score_cmp_trans x y z :
  is_nan x = false → is_nan y = false → is_nan z = false →
  score_cmp x y ≠ Gt → score_cmp y z ≠ Gt → score_cmp x z ≠ Gt.
Proof.
  intros. unfold score_cmp in *. rewrite !f64_cmp_key in * by done. simpl in *.
  eauto using key_cmp_trans.
Qed.

Lemma score_cmp_refl x : score_cmp x x = Eq.
Proof.
  unfold score_cmp. destruct (is_nan x) eqn:Hx; [by destruct x|].
  rewrite f64_cmp_key by done. simpl. apply key_cmp_refl.
Qed.

Lemma score_cmp_Eq_l x y z :
  is_nan x = false → is_nan y = false → is_nan z = false →
  score_cmp x y = Eq → score_cmp x z = score_cmp y z.
Proof.
  intros Hx Hy Hz E. unfold score_cmp in *. rewrite !f64_cmp_key in * by done. simpl in *.
  unfold key_cmp in *. rewrite !then_with_eq, !Z.compare_eq_iff in E.
  destruct E as (E1 & E2 & E3). by rewrite E1, E2, E3.
Qed.

(** [rank_cmp] is a total preorder on hits whose scores are numbers, and it tells
    hits with different keys apart. *)
Lemma rank_cmp_total {A} (score : A → f64) (key : A → string) :
  total_on (λ a, is_nan (score a) = false)
    (λ a b, rank_cmp (score a) (key a) (score b) (key b)).
Proof.
  unfold rank_cmp. split.
  - intros x y _ _. by rewrite then_with_opp, <- score_cmp_anti, <- str_cmp_anti.
  - intros x y z Hx Hy Hz.
    pose proof (score_cmp_trans (score x) (score y) (score z) Hx Hy Hz) as Htr.
    pose proof (str_cmp_trans (key x) (key y) (key z)).
    pose proof (score_cmp_Eq_l (score x) (score y) (score z) Hx Hy Hz) as El.
    pose proof (score_cmp_Eq_l (score y) (score z) (score x) Hy Hz Hx) as Er.
    rewrite (score_cmp_anti (score x) (score y)), (score_cmp_anti (score x) (score z)) in Er.
    destruct (score_cmp (score x) (score y)) eqn:E1; simpl; try done.
    + rewrite El by done. by destruct (score_cmp (score y) (score z)).
    + destruct (score_cmp (score y) (score z)) eqn:E2; simpl; try done.
      * intros _ _. specialize (Er eq_refl).
        by destruct (score_cmp (score x) (score z)).
      * intros _ _. destruct (score_cmp (score x) (score z)) eqn:E3; try done.
        -- specialize (El). exfalso.
           pose proof (score_cmp_Eq_l (score x) (score z) (score y) Hx Hz Hy E3) as E.
           rewrite (score_cmp_anti (score y) (score z)), E2, E1 in E. done.
        -- exfalso. by apply Htr.
Qed.

(** *** Non-negative floats

    Rounding a non-negative real never gives a NaN or flips the sign, so sums of
    non-negative floats and reciprocals of them are non-negative floats. *)

Definition f64_nonneg (x : f64) : Prop :=
  match x with
  | S754_zero s | S754_infinity s => s = false
  | S754_finite s _ _ => s = false
  | S754_nan => False
  end.

Lemma nonneg_not_nan x : f64_nonneg x → is_nan x = false.
Proof. by destruct x. Qed.

Lemma shr_1_nonneg r : 0 ≤ shr_m r → 0 ≤ shr_m (shr_1 r).
Proof. destruct r as [[|m|m] r s]; simpl; [lia| |lia]. by destruct m. Qed.

Lemma shr_nonneg r e n : 0 ≤ shr_m r → 0 ≤ shr_m (shr r e n).1.
Proof.
  intros Hr. unfold shr. destruct n as [|p|p]; simpl; [done| |done].
  revert r Hr. induction p as [p IH|p IH|]; intros r Hr; simpl; auto using shr_1_nonneg.
Qed.

Lemma shr_fexp_nonneg prec emax m e l : 0 ≤ m → 0 ≤ shr_m (shr_fexp prec emax m e l).1.
Proof.
  intros Hm. unfold shr_fexp. apply shr_nonneg.
  destruct l as [|[]]; simpl; done.
Qed.

Lemma round_aux_nonneg prec emax m e l :
  0 ≤ m → f64_nonneg (binary_round_aux prec emax false m e l).
Proof.
  intros Hm. unfold binary_round_aux.
  pose proof (shr_fexp_nonneg prec emax m e l Hm) as H1.
  destruct (shr_fexp prec emax m e l) as [r1 e1]. simpl in H1.
  assert (0 ≤ round_nearest_even (shr_m r1) (loc_of_shr_record r1)) as H2.
  { unfold round_nearest_even. repeat case_match; lia. }
  pose proof (shr_fexp_nonneg prec emax _ e1 loc_Exact H2) as H3.
  destruct (shr_fexp prec emax _ e1 loc_Exact) as [r2 e2]. simpl in H3.
  destruct (shr_m r2); simpl; [done| |lia]. by destruct (_ <=? _).
Qed.

Lemma normalize_nonneg prec emax m e :
  0 ≤ m → f64_nonneg (binary_normalize prec emax m e false).
Proof.
  intros Hm. unfold binary_normalize. destruct m as [|m|m]; simpl; [done| |lia].
  unfold binary_round. destruct (shl_align _ _ _). by apply round_aux_nonneg.
Qed.

Lemma f64_of_Z_nonneg z : 0 ≤ z → f64_nonneg (f64_of_Z z).
Proof. apply normalize_nonneg. Qed.

Lemma f64_add_nonneg x y : f64_nonneg x → f64_nonneg y → f64_nonneg (f64_add x y).
Proof.
  destruct x as [s|s| |s m e], y as [t|t| |t n d]; simpl; try done; intros -> ->; try done.
  unfold f64_add, SFadd. apply normalize_nonneg. simpl. lia.
Qed.

Lemma f64_div_one_nonneg x : f64_nonneg x → f64_nonneg (f64_div f64_one x).
Proof.
  change f64_one with (S754_finite false 4503599627370496 (-52)).
  destruct x as [s|s| |s m e]; simpl; try done; [by intros ->..|]. intros ->.
  unfold f64_div, SFdiv. destruct (SFdiv_core_binary _ _ _ _ _ _) as [[q e'] l] eqn:E.
  apply round_aux_nonneg. unfold SFdiv_core_binary in E.
  match type of E with context [Z.div_eucl ?a ?b] =>
    pose proof (Z.div_pos a b) as Hpos; destruct (Z.div_eucl a b) as [q' r] eqn:E' end.
  simplify_eq. unfold Z.div in Hpos. rewrite E' in Hpos. apply Hpos; [|lia].
  case_match; [lia| |lia]. apply Z.shiftl_nonneg. lia.
Qed.

Lemma f64_ltb_gtb x y : f64_gtb x y = f64_ltb y x.
Proof. done. Qed.

Example f64_lit_ex : f64_add (f64_lit 1 10) (f64_lit 2 10) = f64_lit 30000000000000004 100000000000000000.
Proof. vm_compute. reflexivity. Qed.

Example f64_floor_ex : f64_floor (f64_lit (-5) 2) = f64_of_Z (-3).
Proof. reflexivity. Qed.
