(* ===== verification/Json.v ===== *)
(** * JSON values: what the sources use of [serde_json]

    Values are data; numbers, and how they print and parse, are parameters. *)

From S2P Require Export Text Float.

(** [number_of_Z] is [json!] on an integer literal. *)
Class Json := {
  jnumber : Type;
  number_as_f64 : jnumber → option f64;
  number_as_i64 : jnumber → option Z;
  number_as_u64 : jnumber → option Z;
  number_display : jnumber → string;
  number_of_Z : Z → jnumber;
}.

Section json.
Context {JS : Json}.

Inductive Value :=
| Null
| Bool (b : bool)
| Number (n : jnumber)
| JString (s : string)
| Array (a : list Value)
| Object (o : list (string * Value)).

Definition as_f64 (v : Value) : option f64 :=
  match v with Number n => number_as_f64 n | _ => None end.
Definition as_i64 (v : Value) : option Z :=
  match v with Number n => number_as_i64 n | _ => None end.
Definition as_u64 (v : Value) : option Z :=
  match v with Number n => number_as_u64 n | _ => None end.
Definition as_str (v : Value) : option string :=
  match v with JString s => Some s | _ => None end.
Definition as_bool (v : Value) : option bool :=
  match v with Bool b => Some b | _ => None end.

Definition as_array (v : Value) : option (list Value) :=
  match v with Array a => Some a | _ => None end.

Definition object_get (o : list (string * Value)) (k : string) : option Value :=
  snd <$> head (filter (λ kv, kv.1 = k) o).
Definition value_get (v : Value) (k : string) : option Value :=
  match v with Object o => object_get o k | _ => None end.

End json.

(** Numbers as integers, for evaluation. *)
Definition integers : Json :=
  {| jnumber := Z; number_as_f64 := λ n, Some (f64_of_Z n); number_as_i64 := λ n, Some n;
     number_as_u64 := λ n, if 0 <=? n then Some n else None; number_display := show_Z;
     number_of_Z := λ n, n |}.
