(* ===== verification/Wire.v ===== *)
(** * The wire contract: messages of [proto/aether.proto]

    The generated Rust structs, field for field. Integer fields are [Z] in the range of
    their wire type; [optional] and message fields are [option]; proto maps are [gmap].
    Enum fields are wire integers read through the accessors below, as prost does: an
    unknown number reads as the default value. *)

From S2P Require Export Prelude Text Float.

(** ** Documents *)

Record FlightDocument := {
  fd_icao24 : string;
  fd_callsign : string;
  fd_observed_at : Z;
  fd_latitude : f64;
  fd_longitude : f64;
  fd_altitude : f64;
  fd_origin : string;
  fd_destination : string;
  fd_aircraft_type : string;
  fd_velocity : f64;
  fd_heading : f64;
  fd_vertical_rate : f64;
  fd_on_ground : bool;
  fd_tenant_id : string;
  fd_text : gmap string string;
  fd_number : gmap string f64;
}.

(** [FlightDocument::default()] with the fields the source usually sets. *)
Definition default_doc : FlightDocument :=
  {| fd_icao24 := ""; fd_callsign := ""; fd_observed_at := 0;
     fd_latitude := f64_zero; fd_longitude := f64_zero; fd_altitude := f64_zero;
     fd_origin := ""; fd_destination := ""; fd_aircraft_type := "";
     fd_velocity := f64_zero; fd_heading := f64_zero; fd_vertical_rate := f64_zero;
     fd_on_ground := false; fd_tenant_id := ""; fd_text := ∅; fd_number := ∅ |}.

(** ** Filters *)

Record NumericRange := { nr_min : option f64; nr_max : option f64 }.

Inductive Test :=
| Equals (want : string)
| Range (r : NumericRange)
| Is (want : bool).

Record FilterCondition := { fc_field : string; fc_test : option Test }.
Record Filter := { f_conditions : list FilterCondition }.

(** ** Search *)

Record SearchRequest := {
  sr_query : string;
  sr_limit : Z;
  sr_filter : option Filter;
}.

Inductive IndexKind := IndexUnspecified | IndexKeyword | IndexVector.
Definition index_kind_to_i32 (k : IndexKind) : Z :=
  match k with IndexUnspecified => 0 | IndexKeyword => 1 | IndexVector => 2 end.
Definition index_kind_of_i32 (z : Z) : IndexKind :=
  if z =? 1 then IndexKeyword else if z =? 2 then IndexVector else IndexUnspecified.

Record HitProvenance := {
  hp_source_group : string;
  hp_observed_at : Z;
  hp_index : Z;
  hp_score : f64;
  hp_owning_vshard : Z;
}.

Record SearchHit := {
  sh_document : option FlightDocument;
  sh_score : f64;
  sh_provenance : option HitProvenance;
}.

Record OmittedShard := { os_address : string; os_reason : string }.

Record QueryManifest := {
  qm_shards_queried : Z;
  qm_shards_answered : Z;
  qm_omitted : list OmittedShard;
  qm_deduped : Z;
  qm_freshest_observed_at : Z;
  qm_stalest_observed_at : Z;
  qm_elapsed_ms : Z;
  qm_placement_version : Z;
}.

Record SearchResponse := {
  sp_hits : list SearchHit;
  sp_total_matched : Z;
  sp_shard_id : string;
  sp_shards_queried : Z;
  sp_shards_answered : Z;
  sp_manifest : option QueryManifest;
}.

Record VectorSearchRequest := {
  vr_vector : list f32;
  vr_limit : Z;
  vr_filter : option Filter;
}.

Record SearchUpdate := {
  su_hits : list SearchHit;
  su_total_matched : Z;
  su_shards_answered : Z;
  su_shards_queried : Z;
  su_complete : bool;
  su_manifest : option QueryManifest;
}.

(** ** Aggregation *)

Inductive AggKind :=
| AggUnspecified | AggCount | AggValueCounts | AggTimeHistogram
| AggNumericHistogram | AggGeoGrid | AggPercentiles.

#[export] Instance agg_kind_eq_dec : EqDecision AggKind.
Proof. solve_decision. Defined.

Definition agg_kind_to_i32 (k : AggKind) : Z :=
  match k with
  | AggUnspecified => 0 | AggCount => 1 | AggValueCounts => 2 | AggTimeHistogram => 3
  | AggNumericHistogram => 4 | AggGeoGrid => 5 | AggPercentiles => 6
  end.
Definition agg_kind_of_i32 (z : Z) : AggKind :=
  if z =? 1 then AggCount else if z =? 2 then AggValueCounts
  else if z =? 3 then AggTimeHistogram else if z =? 4 then AggNumericHistogram
  else if z =? 5 then AggGeoGrid else if z =? 6 then AggPercentiles else AggUnspecified.

Record AggregateRequest := {
  ar_query : string;
  ar_kind : Z;
  ar_field : string;
  ar_interval : f64;
  ar_percentiles : list f64;
  ar_filter : option Filter;
}.

Record TDigestMsg := { tm_centroid_mean : list f64; tm_centroid_weight : list f64 }.

Record AggregatePartial := {
  ap_kind : Z;
  ap_count : Z;
  ap_buckets : gmap string Z;
  ap_digest : option TDigestMsg;
}.

Record Percentile := { pc_p : f64; pc_value : f64 }.

Record AggregateResponse := {
  ag_partial : option AggregatePartial;
  ag_percentiles : list Percentile;
  ag_manifest : option QueryManifest;
}.

(** ** Replication and the shard log *)

Record ReplicateRequest := { rr_documents : list FlightDocument; rr_shard_id : Z }.
Record EvictVShard := { ev_vshard : Z; ev_v : Z }.
Inductive ShardCommandKind := Batch (b : ReplicateRequest) | Evict (e : EvictVShard).
Record ShardCommand := { sc_kind : option ShardCommandKind }.

(** ** The control plane *)

Inductive NodeRole := RoleUnspecified | Leader | Follower.

#[export] Instance node_role_eq_dec : EqDecision NodeRole.
Proof. solve_decision. Defined.

Definition role_to_i32 (r : NodeRole) : Z :=
  match r with RoleUnspecified => 0 | Leader => 1 | Follower => 2 end.
Definition role_of_i32 (z : Z) : NodeRole :=
  if z =? 1 then Leader else if z =? 2 then Follower else RoleUnspecified.

Record RegisterNodeRequest := {
  rn_node_id : string;
  rn_address : string;
  rn_shard_id : Z;
  rn_role : Z;
}.
Record RegisterNodeResponse := {
  rp_accepted : bool;
  rp_cluster_size : Z;
  rp_message : string;
}.
Record HeartbeatRequest := { hb_node_id : string; hb_raft_leader : bool }.
Record HeartbeatResponse := { hr_known : bool; hr_current_role : Z }.

Record NodeState := {
  ns_node_id : string;
  ns_address : string;
  ns_role : Z;
  ns_shard_id : Z;
  ns_millis_since_seen : Z;
  ns_draining : bool;
}.
Record ClusterStateResponse := {
  cs_shard_count : Z;
  cs_nodes : list NodeState;
  cs_vshard_group : list Z;
}.
Record DrainRequest := { dr_node_id : string }.
Record DrainResponse := { dp_ok : bool; dp_message : string }.
Record ReassignVShardRequest := { rv_vshard : Z; rv_group : Z }.
Record ReassignVShardResponse := { rvp_ok : bool; rvp_message : string }.

(** ** gRPC status *)

Inductive Code := InvalidArgument | Unauthenticated | PermissionDenied | Internal | Unavailable.

#[export] Instance code_eq_dec : EqDecision Code.
Proof. solve_decision. Defined.

Record Status := { st_code : Code; st_message : string }.
Definition status (c : Code) (m : string) : Status := {| st_code := c; st_message := m |}.

(** ** Round trips of the enum accessors *)

Lemma role_roundtrip r : role_of_i32 (role_to_i32 r) = r.
Proof. by destruct r. Qed.

Lemma agg_kind_roundtrip k : agg_kind_of_i32 (agg_kind_to_i32 k) = k.
Proof. by destruct k. Qed.

Lemma index_kind_roundtrip k : index_kind_of_i32 (index_kind_to_i32 k) = k.
Proof. by destruct k. Qed.

#[export] Hint Rewrite role_roundtrip agg_kind_roundtrip index_kind_roundtrip : aether.
