(* ===== verification/Shard.v ===== *)
(** * Shard placement: [crates/common/src/shard.rs]

    FNV-1a over the document key, modulo the shard count. *)

From S2P Require Export Prelude Text.

(** ** Definitions *)

Definition FNV_OFFSET_BASIS : Z := 0xcbf29ce484222325.
Definition FNV_PRIME : Z := 0x100000001b3.

(** One round: XOR the byte in, then multiply modulo 2^64. *)
Definition fnv_step (hash : Z) (byte : N) : Z :=
  wrap_u64 (Z.lxor hash (Z.of_N byte) * FNV_PRIME).

Definition fnv1a_64 (key : list N) : Z := foldl fnv_step FNV_OFFSET_BASIS key.

(** [shard_count] is a [NonZeroU32]. *)
Definition NonZeroU32 : Type := {n : Z | bool_decide (1 ≤ n < 2 ^ 32)}.
Definition nz_get (n : NonZeroU32) : Z := proj1_sig n.
Definition nz_new (z : Z) : option NonZeroU32 :=
  match decide (bool_decide (1 ≤ z < 2 ^ 32)) with
  | left H => Some (exist _ z H)
  | right _ => None
  end.

Definition shard_for (icao24 : string) (shard_count : NonZeroU32) : Z :=
  wrap_u32 (fnv1a_64 (str_bytes icao24) mod nz_get shard_count).

Definition vshard_for (icao24 : string) (vshard_count : NonZeroU32) : Z :=
  shard_for icao24 vshard_count.

(** ** Lemmas *)

Lemma nz_range (n : NonZeroU32) : 1 ≤ nz_get n < 2 ^ 32.
Proof. destruct n as [z H]. exact (bool_decide_unpack _ H). Qed.

Lemma nz_new_get z n : nz_new z = Some n → nz_get n = z.
Proof. unfold nz_new. destruct (decide _); intros; by simplify_eq. Qed.

Lemma nz_new_Some z : 1 ≤ z < 2 ^ 32 → ∃ n, nz_new z = Some n ∧ nz_get n = z.
Proof.
  intros Hz. unfold nz_new. destruct (decide _) as [H|H]; [by eexists|].
  exfalso. apply H. by apply bool_decide_pack.
Qed.

Lemma nz_new_None z : nz_new z = None ↔ ¬ (1 ≤ z < 2 ^ 32).
Proof.
  unfold nz_new. destruct (decide _) as [H|H]; split; try done.
  - intros Hn. exfalso. apply Hn. by apply bool_decide_unpack in H.
  - intros _ Hz. apply H. by apply bool_decide_pack.
Qed.

Lemma nz_ext (m n : NonZeroU32) : nz_get m = nz_get n → m = n.
Proof.
  destruct m as [x Hx], n as [y Hy]. simpl. intros ->. f_equal. apply proof_irrel.
Qed.

Lemma fnv_step_u64 h b : u64_in (fnv_step h b).
Proof. unfold fnv_step, wrap_u64, u64_in. apply Z.mod_pos_bound. lia. Qed.

Lemma fnv1a_64_u64 key : u64_in (fnv1a_64 key).
Proof.
  unfold fnv1a_64. rewrite <- (reverse_involutive key).
  destruct (reverse key) as [|b k]; [by vm_compute|].
  rewrite reverse_cons, foldl_app. apply fnv_step_u64.
Qed.

(** The [as u32] cast never loses anything: the remainder already fits. *)
Lemma shard_for_mod k n : shard_for k n = fnv1a_64 (str_bytes k) mod nz_get n.
Proof.
  unfold shard_for, wrap_u32. pose proof (nz_range n).
  apply Z.mod_small. pose proof (Z.mod_pos_bound (fnv1a_64 (str_bytes k)) (nz_get n)). lia.
Qed.

Lemma shard_for_lt k n : 0 ≤ shard_for k n < nz_get n.
Proof. rewrite shard_for_mod. apply Z.mod_pos_bound. pose proof (nz_range n). lia. Qed.

#[export] Hint Resolve shard_for_lt nz_range fnv1a_64_u64 : aether.

(** ** Properties *)

(** Whatever the key and the shard count, the shard a document is placed on is
    inside [0..N], it is exactly the 64-bit FNV-1a hash modulo N (the narrowing cast
    loses nothing), and virtual shards use the same placement. *)
Theorem shard_for_in_range (icao24 : string) (n : NonZeroU32) :
  0 ≤ shard_for icao24 n < nz_get n ∧
  shard_for icao24 n = fnv1a_64 (str_bytes icao24) mod nz_get n ∧
  vshard_for icao24 n = shard_for icao24 n.
Proof. split_and!; [apply shard_for_lt..|apply shard_for_mod|done]. Qed.

Example fnv_vectors :
  fnv1a_64 [] = 0xcbf29ce484222325 ∧ fnv1a_64 (str_bytes "a") = 0xaf63dc4c8601ec8c.
Proof. split; reflexivity. Qed.
