(* ===== verification/FieldFilter.v ===== *)
(** * Structured filters: [crates/common/src/filter.rs]

    Validation of a filter's shape and its evaluation on a document. *)

From S2P Require Export Wire.

(** ** Definitions *)

Definition TEXT_FIELDS : list string :=
  ["callsign"; "origin"; "destination"; "aircraft_type"; "tenant_id"; "icao24"]%string.
Definition NUMERIC_FIELDS : list string :=
  ["altitude"; "velocity"; "heading"; "vertical_rate"; "latitude"; "longitude";
   "observed_at"]%string.
Definition BOOL_FIELDS : list string := ["on_ground"]%string.

Definition contains (fields : list string) (f : string) : bool := bool_decide (f ∈ fields).

Section validate.
  Context `{!FloatLib}.

(** One iteration of the loop of [validate]. *)
Definition validate_condition (cond : FilterCondition) : result () string :=
  let field := fc_field cond in
  match fc_test cond with
  | Some (Equals _) =>
      if contains NUMERIC_FIELDS field || contains BOOL_FIELDS field
      then Err ("'" +:+ field +:+ "' is not a text field (equals applies to text/generic fields)")%string
      else Ok ()
  | Some (Range r) =>
      if contains TEXT_FIELDS field || contains BOOL_FIELDS field
      then Err ("'" +:+ field +:+ "' is not a numeric field (range applies to numeric/generic fields)")%string
      else match nr_min r, nr_max r with
           | Some min, Some max =>
               if f64_gtb min max
               then Err ("'" +:+ field +:+ "' range has min " +:+ f64_display min
                         +:+ " > max " +:+ f64_display max)%string
               else Ok ()
           | _, _ => Ok ()
           end
  | Some (Is _) =>
      if negb (contains BOOL_FIELDS field)
      then Err ("'" +:+ field +:+ "' is not a boolean field (is applies to: "
                +:+ join ", " BOOL_FIELDS +:+ ")")%string
      else Ok ()
  | None => Err ("condition on '" +:+ field +:+ "' has no test")%string
  end.

Fixpoint validate_conditions (conds : list FilterCondition) : result () string :=
  match conds with
  | [] => Ok ()
  | c :: k => _ <-? validate_condition c;; validate_conditions k
  end.

Definition validate (filter : Filter) : result () string :=
  validate_conditions (f_conditions filter).

End validate.

Definition text_value (doc : FlightDocument) (field : string) : string :=
  if decide (field = "callsign")%string then fd_callsign doc
  else if decide (field = "origin")%string then fd_origin doc
  else if decide (field = "destination")%string then fd_destination doc
  else if decide (field = "aircraft_type")%string then fd_aircraft_type doc
  else if decide (field = "tenant_id")%string then fd_tenant_id doc
  else if decide (field = "icao24")%string then fd_icao24 doc
  else default EmptyString (fd_text doc !! field).

Definition numeric_value (doc : FlightDocument) (field : string) : f64 :=
  if decide (field = "altitude")%string then fd_altitude doc
  else if decide (field = "velocity")%string then fd_velocity doc
  else if decide (field = "heading")%string then fd_heading doc
  else if decide (field = "vertical_rate")%string then fd_vertical_rate doc
  else if decide (field = "latitude")%string then fd_latitude doc
  else if decide (field = "longitude")%string then fd_longitude doc
  else if decide (field = "observed_at")%string then f64_of_Z (fd_observed_at doc)
  else default f64_nan (fd_number doc !! field).

(** [Option::is_none_or]. *)
Definition is_none_or {A} (o : option A) (p : A → bool) : bool :=
  match o with None => true | Some a => p a end.

Definition condition_holds (doc : FlightDocument) (cond : FilterCondition) : bool :=
  match fc_test cond with
  | Some (Equals want) => eq_ignore_ascii_case (text_value doc (fc_field cond)) want
  | Some (Range r) =>
      let v := numeric_value doc (fc_field cond) in
      is_none_or (nr_min r) (λ min, f64_geb v min) && is_none_or (nr_max r) (λ max, f64_leb v max)
  | Some (Is want) => bool_decide (fd_on_ground doc = want)
  | None => false
  end.

Definition passes (doc : FlightDocument) (filter : option Filter) : bool :=
  match filter with
  | None => true
  | Some f => forallb (condition_holds doc) (f_conditions f)
  end.

(** ** Specification *)

(** A condition addresses a column with a test of its kind: equality on text columns,
    a range (with its bounds in order) on numeric ones, [is] on boolean ones. Names
    outside the built-in schema are generic fields of either of the first two kinds. *)
Definition well_typed (c : FilterCondition) : Prop :=
  match fc_test c with
  | Some (Equals _) => fc_field c ∉ NUMERIC_FIELDS ∧ fc_field c ∉ BOOL_FIELDS
  | Some (Range r) =>
      fc_field c ∉ TEXT_FIELDS ∧ fc_field c ∉ BOOL_FIELDS ∧
      ∀ lo hi, nr_min r = Some lo → nr_max r = Some hi → f64_gtb lo hi = false
  | Some (Is _) => fc_field c ∈ BOOL_FIELDS
  | None => False
  end.

(** Columns of the built-in schema. *)
Definition builtin (field : string) : Prop :=
  field ∈ TEXT_FIELDS ∨ field ∈ NUMERIC_FIELDS ∨ field ∈ BOOL_FIELDS.

(** ** Lemmas *)

Lemma contains_true fields f : contains fields f = true ↔ f ∈ fields.
Proof. apply bool_decide_eq_true. Qed.

Lemma contains_false fields f : contains fields f = false ↔ f ∉ fields.
Proof. apply bool_decide_eq_false. Qed.

Lemma validate_condition_ok `{!FloatLib} c :
  validate_condition c = Ok () ↔ well_typed c.
Proof.
  unfold validate_condition, well_typed.
  destruct (fc_test c) as [[w|[mn mx]|w]|]; simpl; [| | |split; done].
  - case_match eqn:E; [apply orb_true_iff in E|apply orb_false_iff in E];
      rewrite ?contains_true, ?contains_false in E; split; try done; naive_solver.
  - case_match eqn:E; [apply orb_true_iff in E|apply orb_false_iff in E];
      rewrite ?contains_true, ?contains_false in E; [split; naive_solver|].
    destruct mn as [lo|], mx as [hi|]; try (split; naive_solver).
    destruct (f64_gtb lo hi) eqn:E'; split; try done.
    + intros (_ & _ & Hb). by rewrite (Hb lo hi) in E'.
    + intros _. destruct E. split_and!; [done..|]. by intros ?? [= <-] [= <-].
  - rewrite <- contains_true. by destruct (contains BOOL_FIELDS (fc_field c)).
Qed.

Lemma validate_conditions_first `{!FloatLib} conds e :
  validate_conditions conds = Err e →
  ∃ pre c post, conds = pre ++ c :: post ∧ Forall well_typed pre ∧ ¬ well_typed c ∧
                validate_condition c = Err e.
Proof.
  induction conds as [|c k IH]; [done|]. simpl.
  destruct (validate_condition c) as [[]|e'] eqn:E.
  - intros (pre & c' & post & -> & Hpre & Hc & He)%IH.
    exists (c :: pre), c', post. split_and!; try done.
    constructor; [|done]. by apply validate_condition_ok.
  - intros [= ->]. exists [], c, k. split_and!; try done.
    rewrite <- validate_condition_ok. congruence.
Qed.

Lemma validate_conditions_ok `{!FloatLib} conds :
  validate_conditions conds = Ok () ↔ Forall well_typed conds.
Proof.
  induction conds as [|c k IH]; simpl; [by split|].
  rewrite Forall_cons, <- validate_condition_ok, <- IH.
  destruct (validate_condition c) as [[]|e]; naive_solver.
Qed.

Lemma numeric_value_generic doc field :
  field ∉ NUMERIC_FIELDS → numeric_value doc field = default f64_nan (fd_number doc !! field).
Proof. intros H. unfold numeric_value, NUMERIC_FIELDS in *. repeat case_decide; set_solver. Qed.

Lemma text_value_generic doc field :
  field ∉ TEXT_FIELDS → text_value doc field = default EmptyString (fd_text doc !! field).
Proof. intros H. unfold text_value, TEXT_FIELDS in *. repeat case_decide; set_solver. Qed.

Lemma passes_all doc f :
  passes doc (Some f) = true ↔ Forall (λ c, condition_holds doc c = true) (f_conditions f).
Proof.
  simpl. induction (f_conditions f) as [|c k IH]; simpl; [by split|].
  by rewrite andb_true_iff, IH, Forall_cons.
Qed.

(** ** Properties *)

(** A filter is accepted exactly when every condition is well typed; otherwise the
    error reported is that of the first ill-typed condition, every one before it being
    well typed. *)
Theorem validate_spec `{!FloatLib} (f : Filter) :
  (validate f = Ok () ↔ Forall well_typed (f_conditions f)) ∧
  (∀ e, validate f = Err e →
     ∃ pre c post, f_conditions f = pre ++ c :: post ∧ Forall well_typed pre ∧
                   ¬ well_typed c ∧ validate_condition c = Err e).
Proof.
  split; [apply validate_conditions_ok|]. intros e. apply validate_conditions_first.
Qed.

(** Filters are conjunctions (an absent or empty one passes everything), text
    equality ignores ASCII case on both sides, and a bounded range on a numeric column
    the document does not have never passes, whatever the bounds. *)
Theorem passes_semantics (doc : FlightDocument) :
  passes doc None = true ∧
  passes doc (Some {| f_conditions := [] |}) = true ∧
  (∀ c1 c2, passes doc (Some {| f_conditions := c1 ++ c2 |}) =
     passes doc (Some {| f_conditions := c1 |}) && passes doc (Some {| f_conditions := c2 |})) ∧
  (∀ field w1 w2, eq_ignore_ascii_case w1 w2 = true →
     condition_holds doc {| fc_field := field; fc_test := Some (Equals w1) |} =
     condition_holds doc {| fc_field := field; fc_test := Some (Equals w2) |}) ∧
  (∀ field lo hi, field ∉ NUMERIC_FIELDS → fd_number doc !! field = None →
     (is_Some lo ∨ is_Some hi) →
     condition_holds doc
       {| fc_field := field; fc_test := Some (Range {| nr_min := lo; nr_max := hi |}) |} = false).
Proof.
  split_and!; try done.
  - intros c1 c2. simpl. apply forallb_app.
  - intros field w1 w2 Hw. unfold condition_holds; simpl.
    unfold eq_ignore_ascii_case in *. apply bool_decide_eq_true in Hw. by rewrite Hw.
  - intros field lo hi Hf Hn Hb. unfold condition_holds; simpl.
    rewrite numeric_value_generic, Hn by done. simpl.
    destruct lo as [lo|], hi as [hi|]; simpl; try done.
    + by destruct lo.
    + by destruct lo.
    + by destruct Hb as [[? ?]|[? ?]].
Qed.
