(* ===== verification/TDigest.v ===== *)
(** * The t-digest: [crates/common/src/tdigest.rs]

    The digest is defined over an arithmetic interface [Num]. [f64_num] is the
    arithmetic of the source (binary64); [Q_num] is exact rational arithmetic, over
    which the statistical properties are stated: they are properties of the algorithm
    that rounding only perturbs. *)

From Stdlib Require Export QArith Qminmax Lqa.
From S2P Require Export Prelude Float Wire.
#[local] Open Scope Z_scope.

(** ** Arithmetic *)

Class Num := {
  num : Type;
  num_of_Z : Z → num;
  num_add : num → num → num;
  num_sub : num → num → num;
  num_mul : num → num → num;
  num_div : num → num → num;
  num_cmp : num → num → option comparison;
  num_asin : num → num;
  num_pi : num;
  num_finite : num → bool;
  num_nan : num;
}.

Definition f64_num `{!FloatLib} : Num :=
  {| num := f64; num_of_Z := f64_of_Z; num_add := f64_add; num_sub := f64_sub;
     num_mul := f64_mul; num_div := f64_div; num_cmp := f64_cmp; num_asin := f64_asin;
     num_pi := f64_pi; num_finite := is_finite; num_nan := f64_nan |}.

(** Exact arithmetic; [asin] and [pi] stay arbitrary. *)
Definition Q_num (asin : Q → Q) (pi : Q) : Num :=
  {| num := Q; num_of_Z := inject_Z; num_add := Qplus; num_sub := Qminus;
     num_mul := Qmult; num_div := Qdiv; num_cmp := λ x y, Some (x ?= y)%Q;
     num_asin := asin; num_pi := pi; num_finite := λ _, true; num_nan := 0%Q |}.

(** ** Definitions *)

Section digest.
  Context `{!Num}.

Definition num_leb (x y : num) : bool :=
  match num_cmp x y with Some (Lt | Eq) => true | _ => false end.
Definition num_ltb (x y : num) : bool :=
  match num_cmp x y with Some Lt => true | _ => false end.
Definition num_eqb (x y : num) : bool :=
  match num_cmp x y with Some Eq => true | _ => false end.
(** [x.clamp(0.0, 1.0)]. *)
Definition num_clamp01 (x : num) : num :=
  if num_ltb x (num_of_Z 0) then num_of_Z 0
  else if num_ltb (num_of_Z 1) x then num_of_Z 1 else x.

Record Centroid := { ct_mean : num; ct_weight : num }.

Record TDigest := {
  td_centroids : list Centroid;
  td_buffer : list num;
  td_count : num;
  td_delta : num;
}.

Definition td_with_delta (delta : num) : TDigest :=
  {| td_centroids := []; td_buffer := []; td_count := num_of_Z 0; td_delta := delta |}.
Definition td_new : TDigest := td_with_delta (num_of_Z 100).

Definition td_is_empty (d : TDigest) : bool := num_eqb (td_count d) (num_of_Z 0).

(** The scale function [k(q) = (delta / 2 pi) * asin(2 q - 1)]. *)
Definition td_k (delta q : num) : num :=
  let q := num_clamp01 q in
  num_mul (num_div delta (num_mul (num_of_Z 2) num_pi))
          (num_asin (num_sub (num_mul (num_of_Z 2) q) (num_of_Z 1))).

(** [sort_by(|a, b| a.mean.partial_cmp(&b.mean).unwrap())]: [None] is the panic of the
    [unwrap], which two or more points with a NaN mean among them always reach. *)
Definition mean_cmp (a b : Centroid) : comparison :=
  default Eq (num_cmp (ct_mean a) (ct_mean b)).
Definition has_nan (l : list Centroid) : bool :=
  existsb (λ c, match num_cmp (ct_mean c) (ct_mean c) with None => true | _ => false end) l.
Definition sort_points (l : list Centroid) : option (list Centroid) :=
  if bool_decide (2 ≤ length l)%nat && has_nan l then None else Some (sort_by mean_cmp l).

Definition weight_sum (l : list Centroid) : num :=
  foldl (λ acc c, num_add acc (ct_weight c)) (num_of_Z 0) l.

(** Two points replaced by their weighted mean. *)
Definition absorb (cur p : Centroid) : Centroid :=
  let proposed := num_add (ct_weight cur) (ct_weight p) in
  {| ct_mean := num_div (num_add (num_mul (ct_mean cur) (ct_weight cur))
                                 (num_mul (ct_mean p) (ct_weight p))) proposed;
     ct_weight := proposed |}.

(** The greedy pass: [cum] is the weight strictly before [cur]. *)
Fixpoint cluster (delta total : num) (cur : Centroid) (cum : num) (ps : list Centroid)
    : list Centroid :=
  match ps with
  | [] => [cur]
  | p :: k =>
      let proposed := num_add (ct_weight cur) (ct_weight p) in
      let q_left := num_div cum total in
      let q_right := num_div (num_add cum proposed) total in
      if num_leb (num_sub (td_k delta q_right) (td_k delta q_left)) (num_of_Z 1)
      then cluster delta total (absorb cur p) cum k
      else cur :: cluster delta total p (num_add cum (ct_weight cur)) k
  end.

Definition singleton_point (x : num) : Centroid :=
  {| ct_mean := x; ct_weight := num_of_Z 1 |}.

Definition td_points (d : TDigest) : list Centroid :=
  td_centroids d ++ (singleton_point <$> td_buffer d).

Definition td_compress (d : TDigest) : option TDigest :=
  if bool_decide (td_buffer d = []) && bool_decide (length (td_centroids d) ≤ 1)%nat
  then Some d
  else
    points ← sort_points (td_points d);
    let total := weight_sum points in
    if num_eqb total (num_of_Z 0)
    then Some {| td_centroids := []; td_buffer := []; td_count := num_of_Z 0;
                 td_delta := td_delta d |}
    else match points with
         | [] => None
         | p0 :: ps =>
             Some {| td_centroids := cluster (td_delta d) total p0 (num_of_Z 0) ps;
                     td_buffer := []; td_count := total; td_delta := td_delta d |}
         end.

Definition td_add (d : TDigest) (x : num) : option TDigest :=
  if num_finite x then
    let d' := {| td_centroids := td_centroids d; td_buffer := td_buffer d ++ [x];
                 td_count := num_add (td_count d) (num_of_Z 1); td_delta := td_delta d |} in
    if num_leb (num_mul (td_delta d) (num_of_Z 10))
               (num_of_Z (Z.of_nat (length (td_buffer d'))))
    then td_compress d' else Some d'
  else Some d.

Definition td_to_parts (d : TDigest) : option (TDigest * (list num * list num)) :=
  d ← td_compress d; Some (d, (ct_mean <$> td_centroids d, ct_weight <$> td_centroids d)).

Definition positive_part (mw : num * num) : option Centroid :=
  if num_ltb (num_of_Z 0) mw.2 then Some {| ct_mean := mw.1; ct_weight := mw.2 |} else None.

Definition td_from_parts (means weights : list num) : option TDigest :=
  let cs := omap positive_part (zip means weights) in
  sorted ← sort_points cs;
  Some {| td_centroids := sorted; td_buffer := []; td_count := weight_sum cs;
          td_delta := num_of_Z 100 |}.

(** The centroids and the buffer of another digest, put next to one's own. *)
Definition td_union (d other : TDigest) : TDigest :=
  {| td_centroids := td_centroids d ++ td_centroids other;
     td_buffer := td_buffer d ++ td_buffer other;
     td_count := foldl (λ acc _, num_add acc (num_of_Z 1))
                   (foldl (λ acc c, num_add acc (ct_weight c)) (td_count d)
                      (td_centroids other)) (td_buffer other);
     td_delta := td_delta d |}.

Definition td_merge (d other : TDigest) : option TDigest := td_compress (td_union d other).

(** The walk of [quantile]: [acc] is the weight before the current centroid. *)
Fixpoint quantile_walk (target acc prev_center prev_mean : num) (first : bool)
    (cs : list Centroid) : option num :=
  match cs with
  | [] => None
  | c :: k =>
      let center := num_add acc (num_div (ct_weight c) (num_of_Z 2)) in
      if num_leb target center then
        if first then Some (ct_mean c)
        else
          let t := num_div (num_sub target prev_center) (num_sub center prev_center) in
          Some (num_add prev_mean (num_mul t (num_sub (ct_mean c) prev_mean)))
      else quantile_walk target (num_add acc (ct_weight c)) center (ct_mean c) false k
  end.

Definition td_quantile (d : TDigest) (q : num) : num :=
  match td_centroids d with
  | [] => num_nan
  | [c] => ct_mean c
  | c0 :: _ =>
      let target := num_mul (num_clamp01 q) (td_count d) in
      match quantile_walk target (num_of_Z 0) (num_of_Z 0) (ct_mean c0) true (td_centroids d) with
      | Some v => v
      | None => match last (td_centroids d) with Some c => ct_mean c | None => num_nan end
      end
  end.

(** ** The two sides of an aggregation *)

(** What a shard sends for its samples, and what the coordinator gathers from the shards. *)
Definition td_add_all (d : TDigest) (xs : list num) : option TDigest :=
  foldl (λ o x, d ← o; td_add d x) (Some d) xs.

Definition sample_parts (xs : list num) : option (list num * list num) :=
  d ← td_add_all td_new xs; p ← td_to_parts d; Some p.2.

Definition gather_step (o : option TDigest) (p : list num * list num) : option TDigest :=
  d ← o; shard ← td_from_parts p.1 p.2; td_merge d shard.
Definition td_gather (parts : list (list num * list num)) : option TDigest :=
  foldl gather_step (Some td_new) parts.

Lemma td_add_all_cons d x xs :
  td_add_all d (x :: xs) = d' ← td_add d x; td_add_all d' xs.
Proof.
  unfold td_add_all. cbn [foldl mbind option_bind]. destruct (td_add d x) as [d'|]; [done|].
  cbn [mbind option_bind]. by induction xs.
Qed.

Lemma gather_none parts : foldl gather_step None parts = None.
Proof. by induction parts. Qed.

End digest.

Arguments Centroid : clear implicits.
Arguments TDigest : clear implicits.
