(* ===== verification/DigestLaws.v ===== *)
(** * Laws of the t-digest

    Over exact arithmetic: compression loses no weight and no mass, keeps centroids
    ordered and inside the range of the samples, never fails, and quantiles stay inside
    that range. Over [f64]: the wire round trip. *)

From S2P Require Export TDigest.
#[local] Open Scope Q_scope.

(** ** Reference quantities *)

Section exact.
Context (asin : Q → Q) (pi : Q).
#[local] Existing Instance Q_num.
Let QN : Num := Q_num asin pi.
#[local] Existing Instance QN.

Definition q_weight (l : list (Centroid QN)) : Q :=
  foldr (λ c acc, ct_weight c + acc) 0 l.
Definition q_mass (l : list (Centroid QN)) : Q :=
  foldr (λ c acc, ct_mean c * ct_weight c + acc) 0 l.

Definition positive_weights (l : list (Centroid QN)) : Prop :=
  Forall (λ c, 0 < ct_weight c) l.
Definition means_within (lo hi : Q) (l : list (Centroid QN)) : Prop :=
  Forall (λ c, lo <= ct_mean c <= hi) l.
Definition means_sorted (l : list (Centroid QN)) : Prop :=
  StronglySorted (λ a b, ct_mean a <= ct_mean b) l.

(** A digest as its operations leave it. *)
Definition digest_wf (d : TDigest QN) : Prop :=
  positive_weights (td_centroids d) ∧ td_count d == q_weight (td_points d).

Definition q_sum (xs : list Q) : Q := foldr Qplus 0 xs.

(** ** Lemmas *)

#[export] Instance positive_weights_perm : Proper (Permutation ==> iff) positive_weights.
Proof. intros l k H. unfold positive_weights. by rewrite H. Qed.

#[export] Instance means_within_perm lo hi : Proper (Permutation ==> iff) (means_within lo hi).
Proof. intros l k H. unfold means_within. by rewrite H. Qed.

Lemma q_weight_app l k : q_weight (l ++ k) == q_weight l + q_weight k.
Proof. induction l as [|c l IH]; simpl; [lra|]. rewrite IH. lra. Qed.

Lemma q_weight_perm l k : l ≡ₚ k → q_weight l == q_weight k.
Proof. induction 1; simpl; lra. Qed.

Lemma q_mass_perm l k : l ≡ₚ k → q_mass l == q_mass k.
Proof. induction 1; simpl; lra. Qed.

Lemma q_weight_pos l : positive_weights l → 0 <= q_weight l.
Proof. induction 1; simpl; lra. Qed.

Lemma q_weight_pos_cons c l : positive_weights (c :: l) → 0 < q_weight (c :: l).
Proof. intros [Hc Hl]%Forall_cons. apply q_weight_pos in Hl. simpl. lra. Qed.

Lemma foldl_weight l a :
  foldl (λ acc (c : Centroid QN), acc + ct_weight c) a l == a + q_weight l.
Proof.
  revert a. induction l as [|c l IH]; intros a; simpl; [lra|]. rewrite IH. lra.
Qed.

Lemma weight_sum_Q l : weight_sum l == q_weight l.
Proof. unfold weight_sum. simpl. rewrite foldl_weight. unfold inject_Z. lra. Qed.

Lemma singleton_points_pos b : positive_weights (singleton_point <$> b).
Proof. apply Forall_fmap, Forall_forall. intros x _. simpl. unfold inject_Z. lra. Qed.

Lemma absorb_mass a b :
  0 < ct_weight a → 0 < ct_weight b →
  0 < ct_weight (absorb a b) ∧
  ct_weight (absorb a b) == ct_weight a + ct_weight b ∧
  ct_mean (absorb a b) * ct_weight (absorb a b) ==
    ct_mean a * ct_weight a + ct_mean b * ct_weight b.
Proof.
  intros Ha Hb. simpl. split_and!; [lra|lra|]. field. lra.
Qed.

(** The weighted mean of two ordered points lies between them. *)
Lemma absorb_between a b :
  0 < ct_weight a → 0 < ct_weight b → ct_mean a <= ct_mean b →
  ct_mean a <= ct_mean (absorb a b) <= ct_mean b.
Proof.
  intros Ha Hb Hab. simpl.
  assert (0 < ct_weight a + ct_weight b) as Hs by lra.
  split; [apply Qle_shift_div_l|apply Qle_shift_div_r]; nra.
Qed.

Lemma cluster_totals delta total cur cum ps :
  0 < ct_weight cur → positive_weights ps →
  let out := cluster delta total cur cum ps in
  q_weight out == q_weight (cur :: ps) ∧ q_mass out == q_mass (cur :: ps) ∧
  positive_weights out.
Proof.
  revert cur cum. induction ps as [|p ps IH]; intros cur cum Hc HP; simpl.
  { split_and!; [lra|lra|by repeat constructor]. }
  apply Forall_cons in HP as [Hp HP].
  destruct (absorb_mass cur p) as (Hpos & Hw & Hm); [done..|].
  case_match.
  - destruct (IH (absorb cur p) cum) as (Hw' & Hm' & Hp'); [done..|].
    split_and!; [..|done].
    + rewrite Hw'. change (ct_weight (absorb cur p) + q_weight ps ==
        ct_weight cur + (ct_weight p + q_weight ps)). rewrite Hw. lra.
    + rewrite Hm'. change (ct_mean (absorb cur p) * ct_weight (absorb cur p) + q_mass ps ==
        ct_mean cur * ct_weight cur + (ct_mean p * ct_weight p + q_mass ps)).
      rewrite Hm. lra.
  - destruct (IH p (cum + ct_weight cur)) as (Hw' & Hm' & Hp'); [done..|].
    simpl. split_and!; [rewrite Hw'; simpl; lra|rewrite Hm'; simpl; lra|by constructor].
Qed.

(** Every centroid the pass emits starts at or after [cur], and they come out sorted. *)
Lemma cluster_sorted delta total lo hi cur cum ps :
  0 < ct_weight cur → positive_weights ps → means_sorted (cur :: ps) →
  means_within lo hi (cur :: ps) →
  let out := cluster delta total cur cum ps in
  means_sorted out ∧ means_within (ct_mean cur) hi out.
Proof.
  revert cur cum. induction ps as [|p ps IH]; intros cur cum Hc HP Hs Hb; simpl.
  { apply Forall_cons in Hb as [[? ?] _].
    split; [repeat constructor|repeat constructor; lra]. }
  apply Forall_cons in HP as [Hp HP].
  apply Forall_cons in Hb as [[Hl Hh] Hb]. pose proof Hb as [[Hl' Hh'] _]%Forall_cons.
  apply StronglySorted_inv in Hs as [Hs Hle]. apply Forall_cons in Hle as [Hle Hle2].
  pose proof Hs as [Hs' Hps]%StronglySorted_inv.
  destruct (absorb_mass cur p) as (Hpos & _); [done..|].
  destruct (absorb_between cur p) as [Hb1 Hb2]; [done..|].
  case_match.
  - destruct (IH (absorb cur p) cum) as [S1 B1]; [done|done| | |].
    + constructor; [done|]. rewrite Forall_forall in Hps |- *. intros x Hx.
      specialize (Hps x Hx). lra.
    + constructor; [lra|]. by apply Forall_cons in Hb as [_ ?].
    + split; [done|]. eapply Forall_impl; [done|]. simpl in *. intros x [? ?]. lra.
  - destruct (IH p (cum + ct_weight cur)) as [S1 B1]; [done..|].
    split.
    + constructor; [done|]. eapply Forall_impl; [done|]. intros x [? ?]. lra.
    + constructor; [lra|]. eapply Forall_impl; [done|]. intros x [? ?]. lra.
Qed.

Lemma no_nan_Q (l : list (Centroid QN)) : has_nan l = false.
Proof. unfold has_nan. by induction l. Qed.

Lemma sort_points_Q (l : list (Centroid QN)) : sort_points l = Some (sort_by mean_cmp l).
Proof. unfold sort_points. by rewrite no_nan_Q, andb_false_r. Qed.

Lemma mean_cmp_total : total_on (λ _ : Centroid QN, True) mean_cmp.
Proof.
  unfold mean_cmp. split; simpl.
  - intros x y _ _. by rewrite <- Qcompare_antisym.
  - intros x y z _ _ _. rewrite <- !Qle_alt. intros. lra.
Qed.

Lemma sort_by_means_sorted l : means_sorted (sort_by mean_cmp l).
Proof.
  pose proof (sort_by_ranked _ _ mean_cmp_total l) as Hr. unfold ranked in Hr.
  assert (Forall (λ _ : Centroid QN, True) l) as Hl by by apply Forall_true.
  specialize (Hr Hl). clear Hl. unfold means_sorted.
  induction Hr as [|c k _ IH Hc]; constructor; [done|].
  eapply Forall_impl; [done|]. intros x. unfold mean_cmp. simpl. by rewrite <- Qle_alt.
Qed.

Lemma num_eqb_Q (x y : Q) : @num_eqb QN x y = true ↔ x == y.
Proof.
  unfold num_eqb. simpl. rewrite Qeq_alt. by destruct (x ?= y).
Qed.

Lemma td_points_pos d : digest_wf d → positive_weights (td_points d).
Proof.
  intros [Hp _]. unfold td_points. apply Forall_app. split; [done|].
  apply singleton_points_pos.
Qed.

(** The clustering branch of compression, on sorted points. *)
Lemma cluster_spec delta lo hi p0 ps :
  positive_weights (p0 :: ps) → means_sorted (p0 :: ps) → means_within lo hi (p0 :: ps) →
  let out := cluster delta (weight_sum (p0 :: ps)) p0 (inject_Z 0) ps in
  q_weight out == q_weight (p0 :: ps) ∧ q_mass out == q_mass (p0 :: ps) ∧
  positive_weights out ∧ means_sorted out ∧ means_within lo hi out.
Proof.
  intros Hpos Hs Hin. pose proof Hpos as [Hp0 Hps]%Forall_cons. intros out.
  destruct (cluster_totals delta (weight_sum (p0 :: ps)) p0 (inject_Z 0) ps)
    as (Hw & Hm & Hpp); [done..|].
  destruct (cluster_sorted delta (weight_sum (p0 :: ps)) lo hi p0 (inject_Z 0) ps)
    as (Hso & Hbd); [done..|].
  apply Forall_cons in Hin as [[Hlo Hhi] _].
  split_and!; [done..|]. eapply Forall_impl; [done|]. simpl. intros x [? ?]. lra.
Qed.

Lemma means_sorted_short l : (length l ≤ 1)%nat → means_sorted l.
Proof. destruct l as [|a [|b l]]; simpl; intros; [constructor|repeat constructor|lia]. Qed.

Lemma compress_unfold d :
  digest_wf d → ¬ (td_buffer d = [] ∧ (length (td_centroids d) ≤ 1)%nat) →
  ∃ p0 ps, sort_by mean_cmp (td_points d) = p0 :: ps ∧
    td_compress d = Some
      {| td_centroids := cluster (td_delta d) (weight_sum (p0 :: ps)) p0 (inject_Z 0) ps;
         td_buffer := []; td_count := weight_sum (p0 :: ps); td_delta := td_delta d |}.
Proof.
  intros Hwf Hn. pose proof (td_points_pos d Hwf) as Hpos.
  rewrite <- (sort_by_perm mean_cmp (td_points d)) in Hpos.
  unfold td_compress. replace (_ && _) with false.
  2: { symmetry. apply andb_false_iff. rewrite !bool_decide_eq_false.
       destruct (decide (td_buffer d = [])); [right|left]; tauto. }
  rewrite sort_points_Q. simpl.
  destruct (sort_by mean_cmp (td_points d)) as [|p0 ps] eqn:E.
  { exfalso. apply Hn. pose proof (sort_by_length mean_cmp (td_points d)) as Hl.
    rewrite E in Hl. unfold td_points in Hl. rewrite length_app, length_fmap in Hl.
    destruct (td_buffer d); simpl in *; [split; [done|lia]|lia]. }
  exists p0, ps. split; [done|].
  pose proof (q_weight_pos_cons p0 ps Hpos).
  replace (num_eqb _ _) with false; [done|].
  symmetry. apply not_true_iff_false. rewrite num_eqb_Q, weight_sum_Q.
  change (num_of_Z 0) with (inject_Z 0). unfold inject_Z. lra.
Qed.

(** What compression does, in one lemma the properties below read from. *)
Lemma compress_spec d lo hi :
  digest_wf d → means_within lo hi (td_points d) →
  ∃ d', td_compress d = Some d' ∧ digest_wf d' ∧ td_count d' == td_count d ∧
    q_mass (td_points d') == q_mass (td_points d) ∧
    means_sorted (td_centroids d') ∧ means_within lo hi (td_points d') ∧ td_buffer d' = [].
Proof.
  intros Hwf Hin.
  destruct (decide (td_buffer d = [] ∧ (length (td_centroids d) ≤ 1)%nat)) as [[Hb Hc]|Hn].
  { exists d. unfold td_compress. rewrite !bool_decide_true by done. split_and!; try done.
    by apply means_sorted_short. }
  destruct (compress_unfold d Hwf Hn) as (p0 & ps & E & ->).
  pose proof (sort_by_perm mean_cmp (td_points d)) as Hperm. rewrite E in Hperm.
  destruct (cluster_spec (td_delta d) lo hi p0 ps) as (Hw & Hm & Hpp & Hs & Hbd).
  - rewrite Hperm. by apply td_points_pos.
  - rewrite <- E. apply sort_by_means_sorted.
  - by rewrite Hperm.
  - eexists. split; [done|]. unfold digest_wf, td_points; simpl. rewrite app_nil_r.
    destruct Hwf as [_ Hcount].
    assert (weight_sum (p0 :: ps) == q_weight (td_points d)) as Hws
      by (by rewrite weight_sum_Q; apply q_weight_perm).
    split_and!; try done.
    + rewrite Hw. by rewrite weight_sum_Q.
    + by rewrite Hws, Hcount.
    + rewrite Hm. by apply q_mass_perm.
Qed.

(** *** Quantiles *)

Lemma num_ltb_Q (x y : Q) : @num_ltb QN x y = true ↔ x < y.
Proof. unfold num_ltb. simpl. rewrite Qlt_alt. by destruct (x ?= y). Qed.

Lemma num_leb_Q (x y : Q) : @num_leb QN x y = true ↔ x <= y.
Proof. unfold num_leb. simpl. rewrite Qle_alt. by destruct (x ?= y). Qed.

Lemma num_leb_Q_false (x y : Q) : @num_leb QN x y = false ↔ y < x.
Proof. rewrite <- not_true_iff_false, num_leb_Q. split; lra. Qed.

Lemma clamp01_cases (x : Q) :
  (x < 0 ∧ @num_clamp01 QN x = inject_Z 0) ∨ (1 < x ∧ @num_clamp01 QN x = inject_Z 1) ∨
  (0 <= x <= 1 ∧ @num_clamp01 QN x = x).
Proof.
  unfold num_clamp01. change (num_of_Z 0) with 0. change (num_of_Z 1) with 1.
  change (@num QN) with Q in *. destruct (@num_ltb QN x 0) eqn:E1; [apply num_ltb_Q in E1; by left|].
  apply not_true_iff_false in E1. rewrite num_ltb_Q in E1.
  destruct (@num_ltb QN 1 x) eqn:E2; [apply num_ltb_Q in E2; by right; left|].
  apply not_true_iff_false in E2. rewrite num_ltb_Q in E2.
  right; right. split; [lra|done].
Qed.

Lemma clamp01_mono (x y : Q) : x <= y → @num_clamp01 QN x <= @num_clamp01 QN y.
Proof.
  intros. destruct (clamp01_cases x) as [[? ->]|[[? ->]|[? ->]]],
    (clamp01_cases y) as [[? ->]|[[? ->]|[? ->]]]; unfold inject_Z; lra.
Qed.

(** The value the walk interpolates between two centroids. *)
Definition interpolate (target pc center pm m : Q) : Q :=
  pm + (target - pc) / (center - pc) * (m - pm).

Lemma interpolate_bounds target pc center pm m :
  pc < target → target <= center → pm <= m →
  pm <= interpolate target pc center pm m <= m.
Proof.
  intros H1 H2 H3. unfold interpolate.
  assert (0 < center - pc) as Hd by lra.
  assert (0 <= (target - pc) / (center - pc)) by (apply Qle_shift_div_l; lra).
  assert ((target - pc) / (center - pc) <= 1) by (apply Qle_shift_div_r; lra).
  split; nra.
Qed.

Lemma interpolate_mono t1 t2 pc center pm m :
  t1 <= t2 → pc < center → pm <= m →
  interpolate t1 pc center pm m <= interpolate t2 pc center pm m.
Proof.
  intros H1 H2 H3. unfold interpolate.
  assert ((t1 - pc) / (center - pc) <= (t2 - pc) / (center - pc)).
  { apply Qle_shift_div_l; [lra|]. unfold Qdiv.
    assert ((t1 - pc) * / (center - pc) * (center - pc) == t1 - pc) as -> by (field; lra). lra. }
  nra.
Qed.

Lemma quantile_walk_cons target acc pc pm first (c : Centroid QN) k :
  quantile_walk target acc pc pm first (c :: k) =
  let center := acc + ct_weight c / inject_Z 2 in
  if num_leb target center
  then if first then Some (ct_mean c) else Some (interpolate target pc center pm (ct_mean c))
  else quantile_walk target (acc + ct_weight c) center (ct_mean c) false k.
Proof. done. Qed.

Lemma half_pos (w : Q) : 0 < w → 0 < w / inject_Z 2 < w.
Proof.
  intros. unfold inject_Z.
  split; [apply Qlt_shift_div_l|apply Qlt_shift_div_r]; lra.
Qed.

(** Past the first centroid, the walk returns a value between the previous mean and the
    largest one. *)
Lemma walk_bounds target acc pc pm hi cs v :
  positive_weights cs → StronglySorted (λ a b : Centroid QN, ct_mean a <= ct_mean b) cs →
  Forall (λ c : Centroid QN, pm <= ct_mean c <= hi) cs → pc < target → pc < acc →
  quantile_walk target acc pc pm false cs = Some v → pm <= v <= hi.
Proof.
  revert acc pc pm. induction cs as [|c k IH]; intros acc pc pm Hp Hs Hb Ht Ha; [done|].
  rewrite quantile_walk_cons. cbv zeta.
  apply Forall_cons in Hp as [Hc Hp]. apply Forall_cons in Hb as [[Hb1 Hb2] Hb].
  apply StronglySorted_inv in Hs as [Hs Hck]. pose proof (half_pos _ Hc) as [Hh1 Hh2].
  destruct (num_leb _ _) eqn:E.
  - apply num_leb_Q in E. intros [= <-].
    destruct (interpolate_bounds target pc (acc + ct_weight c / inject_Z 2) pm (ct_mean c));
      [lra..|]. lra.
  - apply num_leb_Q_false in E. intros Hv.
    assert (ct_mean c <= v <= hi) as [? ?]; [|lra].
    eapply (IH (acc + ct_weight c) (acc + ct_weight c / inject_Z 2) _ Hp Hs);
      [|done|change (@num QN) with Q in *; lra|done].
    rewrite Forall_forall in Hb, Hck |- *. intros x Hx.
    specialize (Hb x Hx). specialize (Hck x Hx). simpl in *. lra.
Qed.

Lemma walk_mono t1 t2 acc pc pm hi first cs :
  positive_weights cs → StronglySorted (λ a b : Centroid QN, ct_mean a <= ct_mean b) cs →
  Forall (λ c : Centroid QN, pm <= ct_mean c <= hi) cs →
  (first = false → pc < acc) → (first = false → pc < t1) →
  t1 <= t2 → pm <= hi →
  default hi (quantile_walk t1 acc pc pm first cs) <=
  default hi (quantile_walk t2 acc pc pm first cs).
Proof.
  revert acc pc pm first.
  induction cs as [|c k IH]; intros acc pc pm first Hp Hs Hb Ha Ht H12 Hpm; [simpl; lra|].
  rewrite !quantile_walk_cons. cbv zeta.
  apply Forall_cons in Hp as [Hc Hp]. apply Forall_cons in Hb as [[Hb1 Hb2] Hb].
  apply StronglySorted_inv in Hs as [Hs Hck]. pose proof (half_pos _ Hc) as [Hh1 Hh2].
  assert (Forall (λ x : Centroid QN, ct_mean c <= ct_mean x <= hi) k) as Hck'.
  { rewrite Forall_forall in Hb, Hck |- *. intros x Hx.
    specialize (Hb x Hx). specialize (Hck x Hx). simpl in *. lra. }
  destruct (@num_leb QN t1 _) eqn:E1, (@num_leb QN t2 _) eqn:E2;
    [apply num_leb_Q in E1|apply num_leb_Q in E1|apply num_leb_Q_false in E1|apply num_leb_Q_false in E1];
    [apply num_leb_Q in E2|apply num_leb_Q_false in E2|apply num_leb_Q in E2|apply num_leb_Q_false in E2].
  - destruct first; simpl; [lra|]. specialize (Ha eq_refl). apply interpolate_mono; lra.
  - apply (Qle_trans _ (ct_mean c)).
    + destruct first; simpl; [lra|]. specialize (Ha eq_refl). specialize (Ht eq_refl).
      apply interpolate_bounds; lra.
    + destruct (@quantile_walk QN t2 _ _ _ _ k) as [v|] eqn:Ev; simpl; [|lra].
      eapply (walk_bounds _ _ _ _ hi) in Ev; [|done|done|done|done|change (@num QN) with Q in *; simpl; lra]. lra.
  - lra.
  - apply IH; try done; intros; change (@num QN) with Q in *; simpl; lra.
Qed.

Definition centroid_max (d : TDigest QN) : Q :=
  match last (td_centroids d) with Some c => ct_mean c | None => 0 end.

Lemma means_sorted_last d c l :
  td_centroids d = c :: l → means_sorted (td_centroids d) →
  Forall (λ x, ct_mean c <= ct_mean x <= centroid_max d) (td_centroids d).
Proof.
  unfold centroid_max. intros ->. revert c. unfold means_sorted.
  induction l as [|c' l IH]; intros c Hs; [simpl; repeat constructor; lra|].
  apply StronglySorted_inv in Hs as [Hs Hc]. specialize (IH c' Hs).
  change (last (c :: c' :: l)) with (last (c' :: l)).
  pose proof IH as [[? ?] _]%Forall_cons. apply Forall_cons in Hc as [Hcc _].
  constructor; [lra|]. eapply Forall_impl; [exact IH|]. simpl. intros x [? ?]. lra.
Qed.

Lemma quantile_unfold d c c' l q :
  td_centroids d = c :: c' :: l →
  td_quantile d q =
  default (centroid_max d)
    (quantile_walk (@num_clamp01 QN q * td_count d) (inject_Z 0) (inject_Z 0) (ct_mean c) true
       (td_centroids d)).
Proof.
  unfold td_quantile, centroid_max. intros ->. cbv zeta.
  destruct (quantile_walk _ _ _ _ _ _); [done|]. by destruct (last _).
Qed.

Lemma quantile_laws d lo hi q1 :
  digest_wf d → means_sorted (td_centroids d) → means_within lo hi (td_centroids d) →
  td_centroids d ≠ [] →
  lo <= td_quantile d q1 <= hi ∧
  ∀ q2, q1 <= q2 → td_quantile d q1 <= td_quantile d q2.
Proof.
  intros [Hp Hcount] Hs Hr Hn. destruct (td_centroids d) as [|c [|c' l]] eqn:E; [done|..].
  { apply Forall_cons in Hr as [Hr _]. unfold td_quantile. rewrite E.
    split; [done|]. intros. apply Qle_refl. }
  pose proof Hs as Hmax. rewrite <- E in Hmax. eapply means_sorted_last in Hmax; [|done].
  rewrite E in Hmax. pose proof Hmax as [[_ Hcm] _]%Forall_cons.
  assert (lo <= ct_mean c) as Hlo by by apply Forall_cons in Hr as [[? ?] _].
  assert (centroid_max d <= hi) as Hhi.
  { unfold centroid_max. rewrite E. destruct (last (c :: c' :: l)) as [m|] eqn:El; [|by apply last_None in El].
    unfold means_within in Hr. rewrite Forall_forall in Hr. apply Hr. by eapply last_Some_elem_of. }
  split.
  - rewrite (quantile_unfold d c c' l q1 E), E.
    destruct (@quantile_walk QN _ _ _ _ _ _) as [v|] eqn:Ev; simpl; [|lra].
    cut (ct_mean c <= v <= centroid_max d); [lra|].
    rewrite quantile_walk_cons in Ev. cbv zeta in Ev.
    destruct (@num_leb QN _ _) eqn:E1; [injection Ev as <-; lra|].
    apply num_leb_Q_false in E1. apply Forall_cons in Hp as [Hc Hp].
    pose proof (half_pos _ Hc) as [??]. apply StronglySorted_inv in Hs as [Hs _].
    apply Forall_cons in Hmax as [_ Hmax].
    eapply (walk_bounds _ _ _ _ (centroid_max d)) in Ev; [exact Ev|done..|].
    change (@num QN) with Q in *. simpl. lra.
  - intros q2 Hq. rewrite !(quantile_unfold d c c' l _ E), E.
    apply walk_mono; try done. apply Qmult_le_compat_r; [by apply clamp01_mono|].
    rewrite Hcount. apply q_weight_pos, td_points_pos. by split; [rewrite E|].
Qed.

Lemma td_points_range d : ∃ lo hi, means_within lo hi (td_points d).
Proof.
  induction (td_points d) as [|c l (lo & hi & IH)]; [exists 0, 0; constructor|].
  exists (Qmin lo (ct_mean c)), (Qmax hi (ct_mean c)). constructor.
  - split; [apply Q.le_min_r|apply Q.le_max_r].
  - eapply Forall_impl; [done|]. intros x [? ?].
    pose proof (Q.le_min_l lo (ct_mean c)). pose proof (Q.le_max_l hi (ct_mean c)). lra.
Qed.

(** *** Size *)

Section size.
Context (asin_mono : ∀ x y, x <= y → asin x <= asin y) (pi_pos : 0 < pi).

Lemma td_k_mono (delta x y : Q) : 0 <= delta → x <= y → @td_k QN delta x <= @td_k QN delta y.
Proof.
  intros Hd Hxy. unfold td_k. change (num_of_Z 1) with 1. change (num_of_Z 2) with 2.
  pose proof (clamp01_mono x y Hxy) as Hc.
  assert (asin (2 * @num_clamp01 QN x - 1) <= asin (2 * @num_clamp01 QN y - 1)) as Ha
    by (apply asin_mono; lra).
  assert (0 <= delta / (2 * pi)) as Hs by (apply Qle_shift_div_l; lra).
  change (delta / (2 * pi) * asin (2 * @num_clamp01 QN x - 1) <=
          delta / (2 * pi) * asin (2 * @num_clamp01 QN y - 1)).
  generalize dependent (delta / (2 * pi)). intros. nra.
Qed.

Lemma td_k_top (delta x : Q) : 0 <= delta → @td_k QN delta x <= @td_k QN delta 1.
Proof.
  intros Hd. apply (Qle_trans _ (@td_k QN delta (@num_clamp01 QN x))).
  - unfold td_k. destruct (clamp01_cases x) as [[? E]|[[? E]|[? E]]]; rewrite E;
      [| |rewrite E]; apply Qle_refl.
  - apply td_k_mono; [done|].
    destruct (clamp01_cases x) as [[? ->]|[[? ->]|[? ->]]]; unfold inject_Z; lra.
Qed.

Lemma div_mono (a b t : Q) : 0 < t → a <= b → a / t <= b / t.
Proof.
  intros Ht Hab. apply Qle_shift_div_l; [done|]. unfold Qdiv.
  assert (a * / t * t == a) as -> by (field; lra). done.
Qed.

(** Two consecutive clusters span more than one unit of the scale, so the scale's
    extent bounds their number. *)
Lemma cluster_size delta total cur cum ps :
  0 <= delta → 0 < total → 0 < ct_weight cur → positive_weights ps →
  let n := inject_Z (Z.of_nat (length (cluster delta total cur cum ps))) in
  n <= 2 * (@td_k QN delta 1 - @td_k QN delta ((cum + ct_weight cur) / total)) + 2 ∧
  n <= 2 * (@td_k QN delta 1 - @td_k QN delta (cum / total)) + 1.
Proof.
  intros Hd Ht. revert cur cum. induction ps as [|p ps IH]; intros cur cum Hc HP;
    cbv zeta; cbn [cluster].
  { cbn [length].
    pose proof (td_k_top delta ((cum + ct_weight cur) / total) Hd).
    pose proof (td_k_top delta (cum / total) Hd).
    change (inject_Z (Z.of_nat 1)) with 1. split; lra. }
  apply Forall_cons in HP as [Hp HP].
  pose proof (td_k_mono delta ((cum + ct_weight cur) / total)
    ((cum + (ct_weight cur + ct_weight p)) / total) Hd
    ltac:(apply div_mono; [done|lra])) as Hm.
  destruct (num_leb _ _) eqn:E.
  - clear E. destruct (IH (absorb cur p) cum) as [H1 H2]; [simpl; lra|done|].
    split; [|exact H2]. cbv zeta in *. cbn [absorb ct_weight] in H1.
    change (@num_add QN) with Qplus in H1. lra.
  - apply num_leb_Q_false in E. destruct (IH p (cum + ct_weight cur)) as [H1 H2]; [done..|].
    cbn [length]. rewrite Nat2Z.inj_succ. unfold Z.succ. rewrite inject_Z_plus.
    change (num_of_Z 1) with 1 in E. change (inject_Z 1) with 1.
    assert (@td_k QN delta ((cum + (ct_weight cur + ct_weight p)) / total) <=
            @td_k QN delta ((cum + ct_weight cur + ct_weight p) / total)) as Hassoc
      by (apply td_k_mono; [done|]; apply div_mono; [done|lra]).
    cbv zeta in *. change (@num_add QN) with Qplus in *. change (@num_sub QN) with Qminus in *.
    change (@num_div QN) with Qdiv in *. split; lra.
Qed.

Lemma scale_extent (delta total : Q) :
  0 < total → asin 1 - asin (- (1)) <= pi → 0 <= delta →
  2 * (@td_k QN delta 1 - @td_k QN delta (inject_Z 0 / total)) + 1 <= delta + 1.
Proof.
  intros Ht He Hd. unfold td_k.
  change (num_of_Z 1) with 1. change (num_of_Z 2) with 2.
  change (@num_clamp01 QN 1) with 1.
  assert (@num_clamp01 QN (inject_Z 0 / total) == 0) as Hz.
  { assert (inject_Z 0 / total == 0) as Hz by (unfold Qdiv, inject_Z; lra).
    destruct (clamp01_cases (inject_Z 0 / total)) as [[? ->]|[[? ->]|[? ->]]];
      [reflexivity|lra|exact Hz]. }
  change (2 * (delta / (2 * pi) * asin (2 * 1 - 1) - delta / (2 * pi) *
    asin (2 * @num_clamp01 QN (inject_Z 0 / total) - 1)) + 1 <= delta + 1).
  assert (asin (- (1)) <= asin (2 * @num_clamp01 QN (inject_Z 0 / total) - 1)) as H1
    by (apply asin_mono; lra).
  assert (asin (2 * 1 - 1) <= asin 1) as H2 by (apply asin_mono; lra).
  assert (delta / (2 * pi) * 2 * pi == delta) as Hk by (field; lra).
  assert (0 <= delta / (2 * pi)) as Hs by (apply Qle_shift_div_l; lra).
  generalize dependent (delta / (2 * pi)). intros s Hk Hs.
  generalize dependent (asin (2 * @num_clamp01 QN (inject_Z 0 / total) - 1)). intros. nra.
Qed.
End size.

(** *** Adding, merging, and the wire form *)

Lemma q_mass_app l k : q_mass (l ++ k) == q_mass l + q_mass k.
Proof. induction l as [|c l IH]; simpl; [lra|]. rewrite IH. lra. Qed.

Lemma digest_wf_new : digest_wf td_new.
Proof. split; [constructor|]. unfold td_new, td_with_delta, td_points. simpl. reflexivity. Qed.

Lemma td_add_spec d x lo hi :
  digest_wf d → means_within lo hi (td_points d) → lo <= x <= hi →
  ∃ d', td_add d x = Some d' ∧ digest_wf d' ∧ td_count d' == td_count d + 1 ∧
    q_mass (td_points d') == q_mass (td_points d) + x ∧ means_within lo hi (td_points d').
Proof.
  intros [Hp Hc] Hw Hx. unfold td_add. cbn [num_finite Q_num QN].
  set (d1 := {| td_centroids := _; td_buffer := _; td_count := _; td_delta := _ |}).
  assert (td_points d1 = td_points d ++ [singleton_point x]) as Hpts.
  { unfold td_points. simpl. by rewrite fmap_app, app_assoc. }
  assert (digest_wf d1) as Hwf1.
  { split; [done|]. rewrite Hpts, q_weight_app. simpl. rewrite Hc. unfold inject_Z. lra. }
  assert (means_within lo hi (td_points d1)) as Hw1.
  { rewrite Hpts. apply Forall_app. split; [done|]. by apply Forall_singleton. }
  assert (q_mass (td_points d1) == q_mass (td_points d) + x) as Hm1.
  { rewrite Hpts, q_mass_app. simpl. unfold inject_Z. lra. }
  destruct (num_leb _ _).
  - destruct (compress_spec d1 lo hi) as (d2 & -> & Hwf & Hct & Hm & _ & Hw2 & _); [done..|].
    exists d2. split_and!; try done. by rewrite Hm.
  - exists d1. by split_and!.
Qed.

Lemma td_add_all_spec d xs lo hi :
  digest_wf d → means_within lo hi (td_points d) → Forall (λ x, lo <= x <= hi) xs →
  ∃ d', td_add_all d xs = Some d' ∧ digest_wf d' ∧
    td_count d' == td_count d + inject_Z (Z.of_nat (length xs)) ∧
    q_mass (td_points d') == q_mass (td_points d) + q_sum xs ∧
    means_within lo hi (td_points d').
Proof.
  intros Hwf Hw Hxs. revert d Hwf Hw.
  induction Hxs as [|x xs Hx Hxs IH]; intros d Hwf Hw.
  { exists d. change (inject_Z (Z.of_nat (length (@nil Q)))) with 0.
    split_and!; try done; change (@num QN) with Q in *; simpl; lra. }
  rewrite (@td_add_all_cons QN).
  destruct (td_add_spec d x lo hi) as (d1 & E1 & Hwf1 & Hc1 & Hm1 & Hw1); [done..|].
  rewrite E1. simpl.
  destruct (IH d1) as (d2 & E & Hwf2 & Hc2 & Hm2 & Hw2); [done..|].
  exists d2. split_and!; try done.
  - rewrite Hc2, Hc1. cbn [length]. rewrite Nat2Z.inj_succ. unfold Z.succ.
    rewrite inject_Z_plus. change (inject_Z 1) with 1. lra.
  - rewrite Hm2, Hm1. simpl. lra.
Qed.

Lemma foldl_count (l : list Q) (a : Q) :
  foldl (λ acc _, acc + inject_Z 1) a l == a + inject_Z (Z.of_nat (length l)).
Proof.
  revert a. induction l as [|x l IH]; intros a; [simpl; change (inject_Z 0) with 0; ring|]. cbn [foldl length].
  rewrite IH, Nat2Z.inj_succ. unfold Z.succ. rewrite inject_Z_plus. ring.
Qed.

Lemma q_weight_singletons (l : list Q) :
  q_weight (singleton_point <$> l) == inject_Z (Z.of_nat (length l)).
Proof.
  induction l as [|x l IH]; [done|]. cbn [length]. rewrite Nat2Z.inj_succ. unfold Z.succ.
  rewrite inject_Z_plus. change (inject_Z 1 + q_weight (singleton_point <$> l) ==
    inject_Z (Z.of_nat (length l)) + inject_Z 1). rewrite IH. ring.
Qed.

(** The digest [merge] hands to [compress]. *)
Lemma td_union_spec a b lo hi :
  digest_wf a → digest_wf b → means_within lo hi (td_points a) →
  means_within lo hi (td_points b) →
  digest_wf (td_union a b) ∧ td_count (td_union a b) == td_count a + td_count b ∧
  td_points (td_union a b) ≡ₚ td_points a ++ td_points b ∧
  means_within lo hi (td_points (td_union a b)).
Proof.
  intros [Hpa Hca] [Hpb Hcb] Hwa Hwb.
  assert (td_points (td_union a b) ≡ₚ td_points a ++ td_points b) as Hperm.
  { unfold td_points. simpl. rewrite fmap_app. solve_Permutation. }
  assert (td_count (td_union a b) == td_count a + td_count b) as Hcount.
  { simpl. rewrite (foldl_count (td_buffer b)).
    rewrite (foldl_weight (td_centroids b) (td_count a)), Hcb. unfold td_points.
    rewrite q_weight_app, q_weight_singletons. lra. }
  split_and!; [|done..|].
  - split; [by apply Forall_app|]. rewrite Hcount, Hca, Hcb.
    rewrite (q_weight_perm _ _ Hperm). by rewrite q_weight_app.
  - rewrite Hperm. by apply Forall_app.
Qed.

Lemma td_merge_spec a b lo hi :
  digest_wf a → digest_wf b → means_within lo hi (td_points a) →
  means_within lo hi (td_points b) →
  ∃ d, td_merge a b = Some d ∧ digest_wf d ∧ td_count d == td_count a + td_count b ∧
    q_mass (td_points d) == q_mass (td_points a) + q_mass (td_points b) ∧
    means_sorted (td_centroids d) ∧ means_within lo hi (td_points d) ∧ td_buffer d = [].
Proof.
  intros Ha Hb Hwa Hwb. destruct (td_union_spec a b lo hi) as (Hwf & Hcount & Hperm & Hw); [done..|].
  destruct (compress_spec (td_union a b) lo hi Hwf Hw) as (d & E & Hwf' & Hct & Hm & Hs & Hw' & Hb').
  exists d. split_and!; try done; [by rewrite Hct|]. rewrite Hm, (q_mass_perm _ _ Hperm). apply q_mass_app.
Qed.

Lemma positive_part_all (cs : list (Centroid QN)) :
  positive_weights cs → omap positive_part (zip (ct_mean <$> cs) (ct_weight <$> cs)) = cs.
Proof.
  induction 1 as [|[m w] cs Hc _ IH]; [done|]. apply num_ltb_Q in Hc.
  change (match (if @num_ltb QN 0 w then Some {| ct_mean := m; ct_weight := w |} else None)
          with Some c => c :: omap positive_part (zip (ct_mean <$> cs) (ct_weight <$> cs))
          | None => omap positive_part (zip (ct_mean <$> cs) (ct_weight <$> cs)) end =
          {| ct_mean := m; ct_weight := w |} :: cs).
  cbn [ct_weight] in Hc. by rewrite Hc, IH.
Qed.

Lemma means_ranked cs : means_sorted cs → ranked mean_cmp cs.
Proof.
  unfold means_sorted, ranked. induction 1 as [|c l _ IH Hc]; constructor; [done|].
  eapply Forall_impl; [done|]. intros x. unfold mean_cmp. simpl. by rewrite <- Qle_alt.
Qed.

Lemma from_parts_sorted cs :
  positive_weights cs → means_sorted cs →
  td_from_parts (ct_mean <$> cs) (ct_weight <$> cs) =
  Some {| td_centroids := cs; td_buffer := []; td_count := weight_sum cs;
          td_delta := inject_Z 100 |}.
Proof.
  intros Hp Hs. unfold td_from_parts. rewrite positive_part_all by done.
  rewrite sort_points_Q. simpl. by rewrite sort_by_id by (by apply means_ranked).
Qed.

Lemma compress_size (d d' : TDigest QN) :
  digest_wf d → (∀ x y, x <= y → asin x <= asin y) → 0 < pi → asin 1 - asin (- (1)) <= pi →
  1 <= td_delta d → td_compress d = Some d' →
  inject_Z (Z.of_nat (length (td_centroids d'))) <= td_delta d + 1.
Proof.
  intros Hwf Hmono Hpi Hextent Hd Hc.
  destruct (decide (td_buffer d = [] ∧ (length (td_centroids d) ≤ 1)%nat)) as [[Hb Hl]|Hn].
  { unfold td_compress in Hc. rewrite !bool_decide_true in Hc by done.
    injection Hc as <-. apply (Qle_trans _ (inject_Z 1)); [|unfold inject_Z; lra].
    rewrite <- Zle_Qle. lia. }
  destruct (compress_unfold d Hwf Hn) as (p0 & ps & E & E'). rewrite E' in Hc.
  injection Hc as <-. cbn [td_centroids].
  assert (positive_weights (p0 :: ps)) as Hpos.
  { rewrite <- E, sort_by_perm. by apply td_points_pos. }
  pose proof Hpos as [Hp0 Hps]%Forall_cons.
  pose proof (q_weight_pos_cons p0 ps Hpos) as Hw. rewrite <- weight_sum_Q in Hw.
  destruct (cluster_size Hmono Hpi (td_delta d) _ p0 (inject_Z 0) ps
    ltac:(lra) Hw Hp0 Hps) as [_ Hsz].
  eapply Qle_trans; [exact Hsz|]. apply scale_extent; (done || lra).
Qed.

End exact.

(** ** Properties *)

(** Feeding any samples to a fresh digest never panics, and however often it
    compressed on the way its count is the number of samples, its mass their sum, every
    weight is positive and every mean lies in the range of the samples. *)
Theorem digest_of_samples asin pi lo hi xs (H : Forall (λ x, lo <= x <= hi) xs) :
  ∃ d, @td_add_all (Q_num asin pi) td_new xs = Some d ∧ digest_wf asin pi d ∧
    td_count d == inject_Z (Z.of_nat (length xs)) ∧
    q_mass asin pi (td_points d) == q_sum xs ∧ means_within asin pi lo hi (td_points d).
Proof.
  destruct (td_add_all_spec asin pi td_new xs lo hi) as (d & E & Hwf & Hc & Hm & Hw);
    [apply digest_wf_new|constructor|done|].
  exists d. split_and!; try done.
  - rewrite Hc. change (td_count td_new) with 0. ring.
  - rewrite Hm. change (q_mass asin pi (td_points td_new)) with 0. ring.
Qed.

(** Merging two digests never fails and is lossless in weight and mass: the count
    is the sum of the counts, the mass the sum of the masses; the result is again well
    formed, sorted, and inside any range that contains both. *)
Theorem merge_lossless asin pi (a b : TDigest (Q_num asin pi)) lo hi
    (Ha : digest_wf asin pi a) (Hb : digest_wf asin pi b)
    (Hra : means_within asin pi lo hi (td_points a))
    (Hrb : means_within asin pi lo hi (td_points b)) :
  ∃ d, td_merge a b = Some d ∧ digest_wf asin pi d ∧ td_count d == td_count a + td_count b ∧
    q_mass asin pi (td_points d) == q_mass asin pi (td_points a) + q_mass asin pi (td_points b) ∧
    means_sorted asin pi (td_centroids d) ∧ means_within asin pi lo hi (td_points d).
Proof.
  destruct (td_merge_spec asin pi a b lo hi Ha Hb Hra Hrb) as (d & E & Hwf & Hc & Hm & Hs & Hw & _).
  by exists d.
Qed.

(** A compressed digest has constant size. For any monotone arcsine whose extent
    is at most pi, it keeps at most [delta + 1] centroids, whatever it was fed. *)
Theorem compress_bounded asin pi (d d' : TDigest (Q_num asin pi))
    (Hwf : digest_wf asin pi d) (Hmono : ∀ x y, x <= y → asin x <= asin y)
    (Hpi : 0 < pi) (Hextent : asin 1 - asin (- (1)) <= pi) (Hd : 1 <= td_delta d)
    (Hc : td_compress d = Some d') :
  inject_Z (Z.of_nat (length (td_centroids d'))) <= td_delta d + 1.
Proof. by apply (compress_size asin pi) with (d := d). Qed.

(** Quantiles of a compressed digest lie between its smallest and its largest
    centroid mean and are monotone in the requested rank, also for ranks outside [0, 1]. *)
Theorem quantile_monotone asin pi (d : TDigest (Q_num asin pi)) lo hi q1 q2
    (Hwf : digest_wf asin pi d) (Hs : means_sorted asin pi (td_centroids d))
    (Hr : means_within asin pi lo hi (td_centroids d)) (Hn : td_centroids d ≠ [])
    (Hq : q1 <= q2) :
  lo <= td_quantile d q1 <= hi ∧ td_quantile d q1 <= td_quantile d q2.
Proof.
  destruct (quantile_laws asin pi d lo hi q1 Hwf Hs Hr Hn) as [Hb Hm].
  split; [done|by apply Hm].
Qed.

(** The wire form loses nothing: a digest rebuilt from the parts another node sent
    has the same centroids and the same count. *)
Theorem parts_roundtrip asin pi (d : TDigest (Q_num asin pi)) (Hwf : digest_wf asin pi d) :
  ∃ d1 means weights d2,
    td_to_parts d = Some (d1, (means, weights)) ∧ td_from_parts means weights = Some d2 ∧
    td_centroids d2 = td_centroids d1 ∧ td_count d2 == td_count d.
Proof.
  destruct (td_points_range asin pi d) as (lo & hi & Hr).
  destruct (compress_spec asin pi d lo hi Hwf Hr) as (d1 & E & Hwf1 & Hc & _ & Hs & _ & Hb).
  destruct Hwf1 as [Hp Hcount].
  exists d1, (ct_mean <$> td_centroids d1), (ct_weight <$> td_centroids d1).
  eexists. unfold td_to_parts. rewrite E. simpl.
  split; [done|]. split; [by apply from_parts_sorted|]. split; [done|]. cbn [td_count].
  rewrite weight_sum_Q, <- Hc, Hcount. unfold td_points. rewrite Hb. simpl.
  by rewrite app_nil_r.
Qed.

(** ** Witnesses *)

Definition sample_digest : TDigest (Q_num (λ x, x) 2) :=
  @Build_TDigest (Q_num (λ x, x) 2)
    [@Build_Centroid (Q_num (λ x, x) 2) 1 2; @Build_Centroid (Q_num (λ x, x) 2) 3 1]
    [] 3 100.

Lemma digest_of_samples_witness :
  ∃ d, @td_add_all (Q_num (λ x, x) 2) td_new [3; 1; 2] = Some d ∧ digest_wf (λ x, x) 2 d ∧
    td_count d == 3 ∧ q_mass (λ x, x) 2 (td_points d) == 6 ∧
    means_within (λ x, x) 2 1 3 (td_points d).
Proof.
  apply (digest_of_samples (λ x, x) 2 1 3 [3; 1; 2]). repeat constructor; by vm_compute.
Defined.

Lemma sample_digest_wf : digest_wf (λ x, x) 2 sample_digest.
Proof. split; [repeat constructor|by vm_compute]. Qed.

Lemma sample_digest_within : means_within (λ x, x) 2 1 3 (td_points sample_digest).
Proof. repeat constructor; by vm_compute. Qed.

Lemma merge_lossless_witness :
  ∃ d, td_merge sample_digest sample_digest = Some d ∧ td_count d == 6.
Proof.
  destruct (merge_lossless (λ x, x) 2 sample_digest sample_digest 1 3
    sample_digest_wf sample_digest_wf sample_digest_within sample_digest_within)
    as (d & E & _ & Hc & _).
  exists d. split; [exact E|]. rewrite Hc. reflexivity.
Defined.

Lemma compress_bounded_witness :
  inject_Z (Z.of_nat (length (td_centroids sample_digest))) <= 101.
Proof.
  destruct (td_compress sample_digest) as [d|] eqn:E; [|by vm_compute in E].
  assert (length (td_centroids sample_digest) = length (td_centroids d)) as ->
    by (vm_compute in E; injection E as <-; reflexivity).
  apply (compress_bounded (λ x, x) 2 sample_digest d);
    [apply sample_digest_wf|by intros|by vm_compute|by vm_compute|by vm_compute|exact E].
Defined.

Lemma quantile_monotone_witness :
  1 <= td_quantile sample_digest (1 # 4) <= 3 ∧
  td_quantile sample_digest (1 # 4) <= td_quantile sample_digest (3 # 4).
Proof.
  apply (quantile_monotone (λ x, x) 2 sample_digest 1 3 (1 # 4) (3 # 4) sample_digest_wf);
    [repeat constructor; by vm_compute|apply sample_digest_within|done|by vm_compute].
Defined.

Lemma parts_roundtrip_witness :
  ∃ d1 means weights d2,
    td_to_parts sample_digest = Some (d1, (means, weights)) ∧
    td_from_parts means weights = Some d2 ∧
    td_centroids d2 = td_centroids d1 ∧ td_count d2 == td_count sample_digest.
Proof. apply (parts_roundtrip (λ x, x) 2 sample_digest sample_digest_wf). Defined.
