(* ===== verification/DigestRank.v ===== *)
(** * The accuracy of a t-digest

    The source measures the accuracy of [crates/common/src/tdigest.rs] in its tests; here a
    bound is proved, over exact arithmetic. One compression cuts the sorted points into
    consecutive blocks, each a single point or at most one step of the scale function wide;
    so the value given for a quantile is, in rank, off by at most one and a half of the
    widest block. *)

From S2P Require Export DigestLaws.
#[local] Open Scope Q_scope.

#[export] Instance Q_lt_dec (x y : Q) : Decision (x < y).
Proof. destruct (Qlt_le_dec x y); [by left|right; lra]. Defined.

#[export] Instance Q_le_dec (x y : Q) : Decision (x <= y).
Proof. destruct (Qlt_le_dec y x); [right; lra|by left]. Defined.

Section exact.
Context (asin : Q → Q) (pi : Q).
Notation QN := (Q_num asin pi).

Notation q_weight := (q_weight asin pi).
Notation q_mass := (q_mass asin pi).
Notation positive_weights := (positive_weights asin pi).
Notation means_sorted := (means_sorted asin pi).

(** ** Blocks *)

(** A centroid stands for a block of points: their weight, at their weighted mean. *)
Definition summary (b : list (Centroid QN)) (c : Centroid QN) : Prop :=
  b ≠ [] ∧ ct_weight c == q_weight b ∧ ct_mean c * ct_weight c == q_mass b.

(** Between two ranks, one step of the scale. *)
Definition one_step (delta total cum w : Q) : Prop :=
  @td_k QN delta ((cum + w) / total) - @td_k QN delta (cum / total) <= 1.

(** Consecutive blocks, the first after the weight [cum], are single points or at most one
    step wide. *)
Fixpoint tight (delta total cum : Q) (blocks : list (list (Centroid QN))) : Prop :=
  match blocks with
  | [] => True
  | b :: bs => (length b = 1%nat ∨ one_step delta total cum (q_weight b)) ∧
      tight delta total (cum + q_weight b) bs
  end.

(** ** Ranks *)

(** The weight of the points below a value, and at or below it. *)
Definition rank_lt (v : Q) (l : list (Centroid QN)) : Q := q_weight (filter (λ c : Centroid QN, ct_mean c < v) l).
Definition rank_le (v : Q) (l : list (Centroid QN)) : Q := q_weight (filter (λ c : Centroid QN, ct_mean c <= v) l).

(** ** Lemmas *)

Lemma weight_filter_mono P P' `{!∀ c, Decision (P c)} `{!∀ c, Decision (P' c)} l :
  positive_weights l → (∀ c, P c → P' c) → q_weight (filter P l) <= q_weight (filter P' l).
Proof.
  intros Hl HP. induction Hl as [|c l Hc Hl IH]; [simpl; lra|]. rewrite !filter_cons.
  repeat case_decide; simpl; try lra. exfalso. auto.
Qed.

Lemma weight_filter_bounds P `{!∀ c, Decision (P c)} l :
  positive_weights l → 0 <= q_weight (filter P l) <= q_weight l.
Proof.
  intros Hl. induction Hl as [|c l Hc Hl IH]; [simpl; lra|]. rewrite filter_cons.
  case_decide; simpl; lra.
Qed.

Lemma rank_lt_mono v v' l : positive_weights l → v <= v' → rank_lt v l <= rank_lt v' l.
Proof. intros Hl Hv. apply weight_filter_mono; [done|]. intros c ?. lra. Qed.

Lemma rank_le_mono v v' l : positive_weights l → v <= v' → rank_le v l <= rank_le v' l.
Proof. intros Hl Hv. apply weight_filter_mono; [done|]. intros c ?. lra. Qed.

Lemma rank_lt_bounds v l : positive_weights l → 0 <= rank_lt v l <= q_weight l.
Proof. apply weight_filter_bounds. Qed.

Lemma rank_le_bounds v l : positive_weights l → 0 <= rank_le v l <= q_weight l.
Proof. apply weight_filter_bounds. Qed.

Lemma rank_lt_perm v l k : l ≡ₚ k → rank_lt v l == rank_lt v k.
Proof. intros H. apply q_weight_perm. by rewrite H. Qed.

Lemma rank_le_perm v l k : l ≡ₚ k → rank_le v l == rank_le v k.
Proof. intros H. apply q_weight_perm. by rewrite H. Qed.

(** No point of the second half is below the value; every point of the first is. *)
Lemma rank_lt_prefix v l r :
  positive_weights l → Forall (λ c : Centroid QN, v <= ct_mean c) r → rank_lt v (l ++ r) <= q_weight l.
Proof.
  intros Hl Hr. unfold rank_lt. rewrite filter_app, (filter_none _ r), app_nil_r.
  - by apply rank_lt_bounds.
  - eapply Forall_impl; [exact Hr|]. simpl. intros c ??. lra.
Qed.

Lemma rank_le_prefix v l r :
  positive_weights r → Forall (λ c : Centroid QN, ct_mean c <= v) l → q_weight l <= rank_le v (l ++ r).
Proof.
  intros Hr Hl. unfold rank_le. rewrite filter_app, (filter_all _ l), q_weight_app by done.
  pose proof (rank_le_bounds v r Hr) as [H _]. unfold rank_le in H. lra.
Qed.

(** The mean of a block lies where its points do. *)
Lemma mass_le hi b :
  positive_weights b → Forall (λ c : Centroid QN, ct_mean c <= hi) b → q_mass b <= hi * q_weight b.
Proof.
  intros Hp Hb. induction Hb as [|c b Hc Hb IH]; simpl; [lra|].
  apply Forall_cons in Hp as [Hw Hp]. specialize (IH Hp). nra.
Qed.

Lemma mass_ge lo b :
  positive_weights b → Forall (λ c : Centroid QN, lo <= ct_mean c) b → lo * q_weight b <= q_mass b.
Proof.
  intros Hp Hb. induction Hb as [|c b Hc Hb IH]; simpl; [lra|].
  apply Forall_cons in Hp as [Hw Hp]. specialize (IH Hp). nra.
Qed.

Lemma summary_weight b (c : Centroid QN) : positive_weights b → summary b c → 0 < @ct_weight QN c.
Proof.
  intros Hp (Hne & Hw & _). destruct b as [|x b]; [done|].
  pose proof (q_weight_pos_cons asin pi x b Hp). lra.
Qed.

Lemma summary_le hi b (c : Centroid QN) :
  positive_weights b → summary b c → Forall (λ x : Centroid QN, ct_mean x <= hi) b → ct_mean c <= hi.
Proof.
  intros Hp Hs Hb. pose proof (summary_weight b c Hp Hs). destruct Hs as (_ & Hw & Hm).
  pose proof (mass_le hi b Hp Hb). nra.
Qed.

Lemma summary_ge lo b (c : Centroid QN) :
  positive_weights b → summary b c → Forall (λ x : Centroid QN, lo <= ct_mean x) b → lo <= ct_mean c.
Proof.
  intros Hp Hs Hb. pose proof (summary_weight b c Hp Hs). destruct Hs as (_ & Hw & Hm).
  pose proof (mass_ge lo b Hp Hb). nra.
Qed.

(** The sorted points around a block: what its mean has below and above. *)
Lemma block_ranks L b R (c : Centroid QN) :
  positive_weights (L ++ b ++ R) → means_sorted (L ++ b ++ R) → summary b c →
  q_weight L <= rank_le (ct_mean c) (L ++ b ++ R) ∧
  rank_lt (ct_mean c) (L ++ b ++ R) <= q_weight L + ct_weight c ∧
  Forall (λ x : Centroid QN, ct_mean c <= ct_mean x) R.
Proof.
  intros Hp Hs Hsum. pose proof Hp as [HpL [Hpb HpR]%Forall_app]%Forall_app.
  apply StronglySorted_app in Hs as (HLr & _ & Hs).
  apply StronglySorted_app in Hs as (HbR & _ & _).
  assert (Forall (λ x : Centroid QN, ct_mean c <= ct_mean x) R) as HR.
  { apply Forall_forall. intros x Hx. apply (summary_le _ b); [done..|].
    apply Forall_forall. intros y Hy. by apply HbR. }
  split_and!; [| |done].
  - apply rank_le_prefix; [by apply Forall_app|]. apply Forall_forall. intros x Hx.
    apply (summary_ge _ b); [done..|]. apply Forall_forall. intros y Hy. apply HLr; [done|].
    apply elem_of_app. by left.
  - destruct Hsum as (_ & Hw & _). rewrite app_assoc.
    pose proof (rank_lt_prefix (ct_mean c) (L ++ b) R ltac:(by apply Forall_app) HR) as H.
    rewrite q_weight_app in H. lra.
Qed.

(** The walk past the first centroid: [L] are the points walked over, [pc] and [pm] the
    last center and mean. *)
Lemma walk_rank W target L acc pc pm bs (cs : list (Centroid QN)) :
  let P := L ++ concat bs in
  positive_weights P → means_sorted P → q_weight L == acc → Forall2 summary bs cs →
  Forall (λ c : Centroid QN, ct_weight c <= W) cs → 0 <= W →
  pc < target → target <= q_weight P → acc - (1 # 2) * W <= pc → acc - W <= rank_le pm P →
  Forall (λ x : Centroid QN, pm <= ct_mean x) (concat bs) →
  let v := default (from_option (@ct_mean QN) pm (last cs))
             (@quantile_walk QN target acc pc pm false cs) in
  rank_lt v P <= target + (3 # 2) * W ∧ target - (3 # 2) * W <= rank_le v P.
Proof.
  cbv zeta. intros Hp Hs Hacc Hsum HW HW0 Hpc Ht. revert L acc pc pm Hp Hs Hacc Hpc Ht.
  induction Hsum as [|b c bs cs Hb Hsum IH]; intros L acc pc pm Hp Hs Hacc Hpc Ht Hc Hle Hpm.
  { cbn [concat] in *. simpl. rewrite app_nil_r in *.
    pose proof (rank_lt_bounds pm L Hp) as [_ H]. split; lra. }
  apply Forall_cons in HW as [Hw HW]. cbn [concat] in *.
  destruct (block_ranks L b (concat bs) c Hp Hs Hb) as (H1 & H2 & H3).
  pose proof Hp as [_ [Hpb _]%Forall_app]%Forall_app.
  pose proof (summary_weight b c Hpb Hb) as Hcw. apply Forall_app in Hpm as [Hpmb _].
  pose proof (summary_ge pm b c Hpb Hb Hpmb) as Hpmc.
  rewrite quantile_walk_cons. cbv zeta. destruct (@num_leb QN _ _) eqn:E.
  - apply num_leb_Q in E. simpl.
    destruct (interpolate_bounds target pc (acc + ct_weight c / inject_Z 2) pm (ct_mean c)
      Hpc E Hpmc) as [Hv1 Hv2]. set (v := interpolate _ _ _ _ _) in *.
    pose proof (rank_lt_mono v (ct_mean c) _ Hp Hv2).
    pose proof (rank_le_mono pm v _ Hp Hv1).
    pose proof (half_pos _ Hcw). assert (ct_weight c / inject_Z 2 == (1 # 2) * ct_weight c) by apply Qmult_comm.
    split; lra.
  - apply num_leb_Q_false in E. rewrite last_cons.
    assert (from_option (@ct_mean QN) pm (match last cs with Some y => Some y | None => Some c end) =
      from_option (@ct_mean QN) (ct_mean c) (last cs)) as -> by (by destruct (last cs)).
    pose proof (half_pos _ Hcw). assert (ct_weight c / inject_Z 2 == (1 # 2) * ct_weight c) by apply Qmult_comm.
    rewrite app_assoc in *. apply IH; try done.
    + rewrite q_weight_app. destruct Hb as (_ & -> & _). lra.
    + lra.
    + lra.
Qed.

Lemma first_walk_rank W target bs b c (cs : list (Centroid QN)) :
  let P := b ++ concat bs in
  positive_weights P → means_sorted P → summary b c → Forall2 summary bs cs →
  Forall (λ c : Centroid QN, ct_weight c <= W) (c :: cs) → 0 <= target <= q_weight P →
  let v := default (from_option (@ct_mean QN) (ct_mean c) (last cs))
             (@quantile_walk QN target (inject_Z 0) (inject_Z 0) (ct_mean c) true (c :: cs)) in
  rank_lt v P <= target + (3 # 2) * W ∧ target - (3 # 2) * W <= rank_le v P.
Proof.
  cbv zeta. intros Hp Hs Hb Hsum [Hw HW]%Forall_cons [Ht0 Ht].
  destruct (block_ranks [] b (concat bs) c Hp Hs Hb) as (H1 & H2 & H3). cbn [app] in *.
  pose proof Hp as [Hpb _]%Forall_app. pose proof (summary_weight b c Hpb Hb) as Hcw.
  change (q_weight []) with 0 in *. change (inject_Z 0) with 0.
  assert (ct_weight c / inject_Z 2 == (1 # 2) * ct_weight c) as Hh by apply Qmult_comm.
  rewrite quantile_walk_cons. cbv zeta. destruct (@num_leb QN _ _) eqn:E.
  - apply num_leb_Q in E. simpl. split; lra.
  - apply num_leb_Q_false in E.
    apply (walk_rank W target b (0 + ct_weight c) (0 + ct_weight c / inject_Z 2)); try done; try lra.
    destruct Hb as (_ & Hb & _). lra.
Qed.

Lemma quantile_from (d : TDigest QN) c c' l q :
  td_centroids d = c :: c' :: l →
  @td_quantile QN d q =
  default (from_option (@ct_mean QN) (ct_mean c) (last (c' :: l)))
    (@quantile_walk QN (@num_clamp01 QN q * td_count d) (inject_Z 0) (inject_Z 0) (ct_mean c) true
       (c :: c' :: l)).
Proof.
  intros E. rewrite (quantile_unfold asin pi d c c' l q E), E. unfold centroid_max. rewrite E.
  f_equal. rewrite !last_cons. by destruct (last l).
Qed.

Lemma quantile_rank W (d : TDigest QN) bs q :
  let P := concat bs in
  positive_weights P → means_sorted P → Forall2 summary bs (td_centroids d) →
  Forall (λ c : Centroid QN, ct_weight c <= W) (td_centroids d) → td_centroids d ≠ [] →
  td_count d == q_weight P → 0 <= q <= 1 →
  rank_lt (@td_quantile QN d q) P <= q * td_count d + (3 # 2) * W ∧
  q * td_count d - (3 # 2) * W <= rank_le (@td_quantile QN d q) P.
Proof.
  cbv zeta. intros Hp Hs Hsum HW Hne Hcount Hq.
  pose proof (q_weight_pos asin pi _ Hp) as Hpos.
  assert (0 <= q * td_count d <= td_count d) as Ht by (split; nra).
  destruct (td_centroids d) as [|c [|c' cs]] eqn:E; [done|..].
  - unfold td_quantile. rewrite E. inversion Hsum as [|b ? bs' ? Hb Hsum']; subst.
    inversion Hsum'; subst. cbn [concat] in *. rewrite app_nil_r in *.
    apply Forall_cons in HW as [Hw _]. destruct Hb as (_ & Hb & _).
    pose proof (rank_lt_bounds (ct_mean c) b Hp). pose proof (rank_le_bounds (ct_mean c) b Hp).
    split; lra.
  - rewrite (quantile_from d c c' cs q E).
    assert (@num_clamp01 QN q == q) as Hcl.
    { destruct (clamp01_cases asin pi q) as [[? ->]|[[? ->]|[? ->]]]; [lra|lra|reflexivity]. }
    inversion Hsum as [|b ? bs' ? Hb Hsum']; subst. cbn [concat] in *.
    destruct (first_walk_rank W (@num_clamp01 QN q * td_count d) bs' b c (c' :: cs)) as [H1 H2];
      try done.
    { rewrite Hcl. lra. }
    assert (@num_clamp01 QN q * td_count d == q * td_count d) as Et by (by rewrite Hcl).
    split; lra.
Qed.

Context (asin_mono : ∀ x y, x <= y → asin x <= asin y) (pi_pos : 0 < pi).

Lemma td_k_ext (delta x y : Q) : 0 <= delta → x == y → @td_k QN delta x == @td_k QN delta y.
Proof. intros Hd E. apply Qle_antisym; apply td_k_mono; (done || lra). Qed.

Lemma div_ext (a b t : Q) : a == b → a / t == b / t.
Proof. by intros ->. Qed.

Lemma one_step_ext delta total cum cum' w w' :
  0 <= delta → cum == cum' → w == w' → one_step delta total cum w → one_step delta total cum' w'.
Proof.
  intros Hd Ec Ew. unfold one_step.
  rewrite (td_k_ext delta ((cum' + w') / total) ((cum + w) / total)),
    (td_k_ext delta (cum' / total) (cum / total)); try done; apply div_ext; lra.
Qed.

Lemma tight_ext delta total cum cum' bs :
  0 <= delta → cum == cum' → tight delta total cum bs → tight delta total cum' bs.
Proof.
  intros Hd. revert cum cum'. induction bs as [|b bs IH]; intros cum cum' E; [done|].
  intros [[H|H] Hbs]; (split; [|apply (IH (cum + q_weight b)); [by rewrite E|done]]); [by left|].
  right. by apply (one_step_ext delta total cum cum' (q_weight b)).
Qed.

Lemma q_weight_single (c : Centroid QN) : q_weight [c] == ct_weight c.
Proof. apply Qplus_0_r. Qed.

Lemma q_mass_single (c : Centroid QN) : q_mass [c] == ct_mean c * ct_weight c.
Proof. apply Qplus_0_r. Qed.

Lemma summary_single c : summary [c] c.
Proof.
  split; [done|]. split; symmetry; [apply q_weight_single|apply q_mass_single].
Qed.

Lemma summary_absorb b (cur p : Centroid QN) :
  positive_weights b → 0 < ct_weight cur → 0 < ct_weight p →
  summary b cur → summary (b ++ [p]) (absorb cur p).
Proof.
  intros Hb Hc Hp (Hne & Hw & Hm). destruct (absorb_mass asin pi cur p Hc Hp) as (_ & Hw' & Hm').
  pose proof (q_weight_single p). pose proof (q_mass_single p).
  pose proof (q_weight_app asin pi b [p]). pose proof (q_mass_app asin pi b [p]).
  split; [by destruct b|]. split; lra.
Qed.

Lemma cluster_blocks delta total b0 (cur : Centroid QN) cum ps :
  0 <= delta → positive_weights b0 → 0 < ct_weight cur → positive_weights ps → summary b0 cur →
  length b0 = 1%nat ∨ one_step delta total cum (q_weight b0) →
  ∃ bs, concat bs = b0 ++ ps ∧ Forall2 summary bs (@cluster QN delta total cur cum ps) ∧
    tight delta total cum bs.
Proof.
  intros Hd. revert b0 cur cum. induction ps as [|p ps IH]; intros b0 cur cum Hb Hc Hps Hs Ht;
    cbn [cluster].
  { exists [b0]. split; [done|]. split; [by apply Forall2_cons|by split]. }
  apply Forall_cons in Hps as [Hp Hps]. destruct (@num_leb QN _ _) eqn:E.
  - apply num_leb_Q in E. destruct (IH (b0 ++ [p]) (absorb cur p) cum) as (bs & Hbs & H); try done.
    + apply Forall_app. split; [done|by apply Forall_singleton].
    + by apply absorb_mass.
    + by apply summary_absorb.
    + right. destruct Hs as (_ & Hw & _). apply (one_step_ext delta total cum cum
        (ct_weight cur + ct_weight p)); [done|reflexivity| |exact E].
      by rewrite q_weight_app, q_weight_single, Hw.
    + exists bs. by rewrite Hbs, <- app_assoc.
  - destruct (IH [p] p (cum + ct_weight cur)) as (bs & Hbs & H2 & Htb); try done.
    + by constructor.
    + apply summary_single.
    + by left.
    + exists (b0 :: bs). split; [cbn; by rewrite Hbs|]. split; [by constructor|]. split; [done|].
      destruct Hs as (_ & Hw & _). apply (tight_ext _ _ (cum + ct_weight cur)); [done|by rewrite Hw|done].
Qed.

(** *** The width of a step *)

Context (asin_steep : ∀ x y, x <= y → y - x <= asin y - asin x).

Lemma clamp01_id (x : Q) : 0 <= x <= 1 → @num_clamp01 QN x = x.
Proof.
  intros Hx. destruct (clamp01_cases asin pi x) as [[? ->]|[[? ->]|[_ ->]]]; (done || lra).
Qed.

(** One step takes at most [pi / delta] of the weight. *)
Lemma step_weight delta total cum w :
  0 < delta → 0 < total → 0 <= cum → 0 <= w → cum + w <= total →
  one_step delta total cum w → delta * w <= pi * total.
Proof.
  intros Hd Ht Hc Hw Hle. unfold one_step.
  assert (0 <= cum / total <= (cum + w) / total ∧ (cum + w) / total <= 1) as [Hx Hy].
  { split; [split|].
    - apply Qle_shift_div_l; lra.
    - apply div_mono; [done|lra].
    - apply Qle_shift_div_r; lra. }
  assert ((cum + w) / total - cum / total == w / total) as Hdiff by (field; lra).
  assert (w / total * total == w) as Hwt by (field; lra).
  generalize dependent ((cum + w) / total). generalize dependent (cum / total). intros X Y Hx Hy Hdiff.
  unfold td_k. rewrite !clamp01_id by lra. change (num_of_Z 1) with 1. change (num_of_Z 2) with 2.
  change (@num_sub QN) with Qminus. change (@num_mul QN) with Qmult.
  change (@num_div QN) with Qdiv. change (@num_asin QN) with asin. change (@num_pi QN) with pi.
  pose proof (asin_steep (2 * X - 1) (2 * Y - 1) ltac:(lra)) as Ha.
  assert (delta / (2 * pi) * (2 * pi) == delta) as Hs by (field; lra).
  assert (0 < delta / (2 * pi)) as Hs0 by (apply Qlt_shift_div_l; lra).
  generalize dependent (delta / (2 * pi)). intros s Hs Hs0 H1.
  generalize dependent (asin (2 * X - 1)). generalize dependent (asin (2 * Y - 1)). intros b a Ha H1.
  generalize dependent (w / total). intros u Hwt Hdiff.
  assert (s * (2 * u) <= 1) as Hu by nra.
  assert (delta * u <= pi) as Hdu by (rewrite <- Hs; nra).
  rewrite <- Hwt. nra.
Qed.

Lemma tight_weights W delta total cum bs :
  0 < delta → 0 < total → 0 <= cum → cum + q_weight (concat bs) <= total →
  Forall (λ c : Centroid QN, ct_weight c == 1) (concat bs) → 1 <= W → pi * total <= delta * W →
  tight delta total cum bs → Forall (λ b, q_weight b <= W) bs.
Proof.
  intros Hd Ht. revert cum. induction bs as [|b bs IH]; intros cum Hc Hle Hone HW1 HW2; [constructor|].
  cbn [concat] in *. rewrite q_weight_app in Hle. apply Forall_app in Hone as [Hb Hone].
  assert (∀ l, Forall (λ c : Centroid QN, ct_weight c == 1) l → positive_weights l) as Hpos.
  { intros l Hl. eapply Forall_impl; [exact Hl|]. simpl. intros c E. lra. }
  pose proof (q_weight_pos asin pi b (Hpos b Hb)) as Hb0.
  pose proof (q_weight_pos asin pi (concat bs) (Hpos _ Hone)) as Hbs0.
  intros [Hstep Htight]. constructor; [|apply (IH (cum + q_weight b)); (done || lra)].
  destruct Hstep as [Hl|Hstep].
  - destruct b as [|c [|? ?]]; try done. apply Forall_cons in Hb as [Hb _].
    pose proof (q_weight_single c). lra.
  - pose proof (step_weight delta total cum (q_weight b) Hd Ht Hc Hb0 ltac:(lra) Hstep). nra.
Qed.

(** *** Samples *)

(** How many samples lie below a value, and at or below it. *)
Definition samples_below (v : Q) (xs : list Q) : Z := Z.of_nat (length (filter (λ x, x < v) xs)).
Definition samples_upto (v : Q) (xs : list Q) : Z := Z.of_nat (length (filter (λ x, x <= v) xs)).

Lemma filter_singletons P P' `{!∀ c, Decision (P c), !∀ x, Decision (P' x)} (xs : list Q) :
  (∀ x, P (@singleton_point QN x) ↔ P' x) →
  filter P (@singleton_point QN <$> xs) = singleton_point <$> filter P' xs.
Proof.
  intros Hiff. induction xs as [|x xs IH]; [done|]. rewrite fmap_cons, !filter_cons, IH.
  specialize (Hiff x). repeat case_decide; tauto || done.
Qed.

Lemma rank_lt_samples v xs :
  rank_lt v (@singleton_point QN <$> xs) == inject_Z (samples_below v xs).
Proof.
  unfold rank_lt, samples_below. erewrite filter_singletons; [apply q_weight_singletons|done].
Qed.

Lemma rank_le_samples v xs :
  rank_le v (@singleton_point QN <$> xs) == inject_Z (samples_upto v xs).
Proof.
  unfold rank_le, samples_upto. erewrite filter_singletons; [apply q_weight_singletons|done].
Qed.

(** A digest holds samples back until it has [10 * delta] of them. *)
Lemma add_all_buffered (d : TDigest QN) xs :
  inject_Z (Z.of_nat (length (td_buffer d ++ xs))) < td_delta d * 10 →
  ∃ d', @td_add_all QN d xs = Some d' ∧ td_centroids d' = td_centroids d ∧
    td_buffer d' = td_buffer d ++ xs ∧ td_delta d' = td_delta d.
Proof.
  revert d. induction xs as [|x xs IH]; intros d Hlen.
  { exists d. by rewrite app_nil_r. }
  rewrite (@td_add_all_cons QN). unfold td_add. cbn [num_finite Q_num].
  destruct (@num_leb QN _ _) eqn:E.
  - exfalso. apply num_leb_Q in E. cbn [td_buffer] in E.
    change (td_delta d * 10 <= inject_Z (Z.of_nat (length (td_buffer d ++ [x])))) in E.
    assert (inject_Z (Z.of_nat (length (td_buffer d ++ [x]))) <=
      inject_Z (Z.of_nat (length (td_buffer d ++ x :: xs)))); [|lra].
    rewrite <- Zle_Qle, !length_app. cbn [length]. lia.
  - cbn [mbind option_bind].
    destruct (IH {| td_centroids := td_centroids d; td_buffer := td_buffer d ++ [x];
      td_count := num_add (td_count d) (num_of_Z 1); td_delta := td_delta d |}) as (d' & E1 & E2 & E3 & E4).
    { cbn [td_buffer td_delta]. by rewrite <- app_assoc. }
    exists d'. cbn [td_buffer td_delta td_centroids] in *. rewrite <- app_assoc in E3. by split_and!.
Qed.

(** Compressing nothing but samples cuts them into blocks. *)
Lemma compress_samples W (d d' : TDigest QN) :
  digest_wf asin pi d → td_centroids d = [] → td_buffer d ≠ [] → 0 < td_delta d → 1 <= W →
  pi * td_count d <= td_delta d * W → td_compress d = Some d' →
  ∃ bs, concat bs ≡ₚ (@singleton_point QN <$> td_buffer d) ∧ means_sorted (concat bs) ∧
    Forall2 summary bs (td_centroids d') ∧ td_centroids d' ≠ [] ∧
    Forall (λ c : Centroid QN, ct_weight c <= W) (td_centroids d') ∧ td_count d' == td_count d.
Proof.
  intros Hwf Hcs Hbuf Hd HW1 HW2 Hc.
  destruct (compress_unfold asin pi d Hwf) as (p0 & ps & E & E'); [by intros [? _]|].
  rewrite E' in Hc. injection Hc as <-. cbn [td_centroids td_count].
  pose proof (sort_by_perm mean_cmp (td_points d)) as Hperm. rewrite E in Hperm.
  pose proof (sort_by_means_sorted asin pi (td_points d)) as Hsort. rewrite E in Hsort.
  assert (positive_weights (p0 :: ps)) as Hpos by (rewrite Hperm; by apply td_points_pos).
  pose proof Hpos as [Hp0 Hps]%Forall_cons.
  assert (td_points d = singleton_point <$> td_buffer d) as Hpts by (unfold td_points; by rewrite Hcs).
  assert (weight_sum (p0 :: ps) == td_count d) as Hsum.
  { destruct Hwf as [_ ->]. rewrite weight_sum_Q. by apply q_weight_perm. }
  pose proof (q_weight_pos_cons asin pi p0 ps Hpos) as Hw. rewrite <- weight_sum_Q in Hw.
  destruct (cluster_blocks (td_delta d) (weight_sum (p0 :: ps)) [p0] p0 (inject_Z 0) ps)
    as (bs & Hbs & Hsums & Htight); try done; [lra|by constructor|apply summary_single|by left|].
  cbn [app] in Hbs. exists bs. rewrite Hbs. split_and!; try done.
  - by rewrite Hperm, Hpts.
  - intros Hn. rewrite Hn in Hsums. inversion Hsums; subst. done.
  - apply (tight_weights W) in Htight; try done; try lra.
    + eapply Forall2_Forall_r; [exact Hsums|]. eapply Forall_impl; [exact Htight|]. simpl.
      intros b Hb c (_ & Hcw & _). lra.
    + rewrite Hbs, weight_sum_Q. change (inject_Z 0) with 0. lra.
    + rewrite Hbs, Hperm, Hpts. apply Forall_fmap, Forall_forall. done.
    + rewrite Hsum. done.
Qed.
(** *** Gathering the shards *)

Lemma compress_delta (d d' : TDigest QN) : td_compress d = Some d' → td_delta d' = td_delta d.
Proof.
  unfold td_compress. destruct (_ && _); [by intros [= <-]|].
  destruct (sort_points _) as [[|p0 ps]|]; [| |done]; cbn [mbind option_bind];
    destruct (num_eqb _ _); [by intros [= <-]|done|by intros [= <-]..].
Qed.

Lemma sample_parts_spec lo hi xs :
  Forall (λ x, lo <= x <= hi) xs →
  ∃ parts s, @sample_parts QN xs = Some parts ∧ @td_from_parts QN parts.1 parts.2 = Some s ∧
    digest_wf asin pi s ∧ td_count s == inject_Z (Z.of_nat (length xs)) ∧
    q_mass (td_points s) == q_sum xs ∧ means_within asin pi lo hi (td_points s).
Proof.
  intros Hxs. destruct (td_add_all_spec asin pi td_new xs lo hi) as (d & E & Hwf & Hc & Hm & Hw);
    [apply digest_wf_new|constructor|done|].
  destruct (compress_spec asin pi d lo hi Hwf Hw) as (d1 & E1 & [Hp Hc1] & Hcd & Hm1 & Hs & Hw1 & Hb).
  unfold sample_parts. rewrite E. cbn [mbind option_bind]. unfold td_to_parts. rewrite E1.
  cbn [mbind option_bind]. eexists _, _. split; [reflexivity|].
  split; [by apply from_parts_sorted|]. unfold td_points in *. cbn [td_buffer td_centroids td_count].
  rewrite Hb in *. cbn [fmap list_fmap] in *. rewrite !app_nil_r in *. split_and!; try done.
  - split; [done|]. unfold td_points. cbn [td_buffer td_centroids td_count fmap list_fmap].
    rewrite app_nil_r. apply weight_sum_Q.
  - rewrite weight_sum_Q, <- Hc1, Hcd, Hc. change (@td_count QN td_new) with 0. apply Qplus_0_l.
  - rewrite Hm1, Hm. apply Qplus_0_l.
Qed.

(** What the coordinator's digest is at any time. *)
Record gathered (lo hi : Q) (d : TDigest QN) : Prop := {
  ga_wf : digest_wf asin pi d;
  ga_within : means_within asin pi lo hi (td_points d);
  ga_sorted : means_sorted (td_centroids d);
  ga_buffer : td_buffer d = [];
  ga_delta : td_delta d = 100;
  ga_size : inject_Z (Z.of_nat (length (td_centroids d))) <= 101;
}.

Lemma gathered_new lo hi : gathered lo hi td_new.
Proof. split; try done; [apply digest_wf_new|constructor|constructor]. Qed.

Lemma q_sum_app xs ys : q_sum (xs ++ ys) == q_sum xs + q_sum ys.
Proof. induction xs as [|x xs IH]; simpl; [lra|]. rewrite IH. lra. Qed.

Context (asin_extent : asin 1 - asin (- (1)) <= pi).

Lemma merge_gathered lo hi (d s : TDigest QN) :
  gathered lo hi d → digest_wf asin pi s → means_within asin pi lo hi (td_points s) →
  ∃ d', td_merge d s = Some d' ∧ gathered lo hi d' ∧ td_count d' == td_count d + td_count s ∧
    q_mass (td_points d') == q_mass (td_points d) + q_mass (td_points s).
Proof.
  intros [Hwf Hw Hs Hb Hd _] Hwfs Hws.
  destruct (td_merge_spec asin pi d s lo hi) as (d' & E & Hwf' & Hc & Hm & Hs' & Hw' & Hb'); [done..|].
  destruct (td_union_spec asin pi d s lo hi) as (Hwfu & _); [done..|].
  assert (td_delta (td_union d s) = 100) as Hdu by exact Hd.
  exists d'. split; [exact E|]. split; [|done]. split; try done.
  - by rewrite (compress_delta _ _ E).
  - pose proof (compress_size asin pi _ d' Hwfu asin_mono pi_pos asin_extent) as H. rewrite Hdu in H.
    apply (Qle_trans _ (100 + 1)); [|done]. by apply H.
Qed.

Lemma gather_spec lo hi shards (d : TDigest QN) :
  gathered lo hi d → Forall (Forall (λ x, lo <= x <= hi)) shards →
  ∃ parts d', mapM (@sample_parts QN) shards = Some parts ∧
    foldl gather_step (Some d) parts = Some d' ∧ gathered lo hi d' ∧
    td_count d' == td_count d + inject_Z (Z.of_nat (length (concat shards))) ∧
    q_mass (td_points d') == q_mass (td_points d) + q_sum (concat shards).
Proof.
  intros Hd Hsh. revert d Hd. induction Hsh as [|xs shards Hxs Hsh IH]; intros d Hd.
  { exists [], d. split_and!; try done; symmetry; apply Qplus_0_r. }
  destruct (sample_parts_spec lo hi xs Hxs) as (p & s & E1 & E2 & Hwf & Hc & Hm & Hw).
  destruct (merge_gathered lo hi d s Hd Hwf Hw) as (d1 & E3 & Hd1 & Hc1 & Hm1).
  destruct (IH d1 Hd1) as (parts & d2 & E4 & E5 & Hd2 & Hc2 & Hm2).
  exists (p :: parts), d2. cbn [mapM]. rewrite E1, E4. split; [done|]. split.
  { cbn [foldl]. unfold gather_step at 2. cbn [mbind option_bind]. rewrite E2. cbn [mbind option_bind]. by rewrite E3. }
  split; [done|]. cbn [concat]. rewrite length_app, Nat2Z.inj_add, inject_Z_plus. split.
  - rewrite Hc2, Hc1, Hc. symmetry. apply Qplus_assoc.
  - rewrite Hm2, Hm1, Hm, q_sum_app. symmetry. apply Qplus_assoc.
Qed.
End exact.

(** ** Properties *)

(** Quantiles are accurate. A digest that was given fewer than a thousand samples and
    then compressed, as a shard's is when its partial is built, answers the quantile [q] of
    [n] samples with a value whose rank is [q n] up to one and a half times the larger of 1
    and [pi n / 100]: at most that many more samples lie below it, and at most that many
    fewer at or below it. The arcsine is any function at least as steep as the identity. *)
Theorem quantile_accurate asin pi (xs : list Q) (d : TDigest (Q_num asin pi)) (q : Q)
    (Hsteep : ∀ x y, x <= y → y - x <= asin y - asin x) (Hpi : 0 < pi)
    (Hne : xs ≠ []) (Hlen : (length xs < 1000)%nat)
    (Hd : (fed ← @td_add_all (Q_num asin pi) td_new xs; td_compress fed) = Some d) (Hq : 0 <= q <= 1) :
  let n := inject_Z (Z.of_nat (length xs)) in
  let slack := (3 # 2) * Qmax 1 (pi / 100 * n) in
  let v := @td_quantile (Q_num asin pi) d q in
  inject_Z (samples_below v xs) <= q * n + slack ∧ q * n - slack <= inject_Z (samples_upto v xs).
Proof.
  cbv zeta. set (n := inject_Z (Z.of_nat (length xs))). set (W := Qmax 1 (pi / 100 * n)).
  destruct (add_all_buffered asin pi td_new xs) as (d0 & E & Ecs & Ebuf & Edelta).
  { change (n < 1000). unfold n. change 1000 with (inject_Z 1000). rewrite <- Zlt_Qlt. lia. }
  cbn [app td_new td_with_delta td_buffer td_centroids td_delta] in *. rewrite E in Hd.
  cbn [mbind option_bind] in Hd.
  destruct (td_points_range asin pi (@Build_TDigest (Q_num asin pi) [] xs n 100)) as (lo & hi & Hr).
  destruct (td_add_all_spec asin pi td_new xs lo hi) as (d1 & E1 & Hwf & Hcount & _).
  { apply digest_wf_new. } { constructor. }
  { unfold td_points in Hr. cbn in Hr. by apply Forall_fmap in Hr. }
  rewrite E in E1. injection E1 as <-.
  assert (td_count d0 == n) as Hn by (rewrite Hcount; change (td_count td_new) with 0; unfold n; ring).
  assert (pi * td_count d0 <= td_delta d0 * W) as HW.
  { rewrite Hn, Edelta. change (num_of_Z 100) with 100. pose proof (Q.le_max_r 1 (pi / 100 * n)).
    fold W in H. assert (pi * n == 100 * (pi / 100 * n)) as -> by field. lra. }
  destruct (compress_samples asin pi ltac:(intros x y Hxy; specialize (Hsteep x y Hxy); lra) Hpi Hsteep
    W d0 d) as (bs & Hperm & Hsort & Hsum & Hcs & Hws & Hct); try done.
  - by rewrite Ebuf.
  - by rewrite Edelta.
  - apply Q.le_max_l.
  - rewrite Ebuf in Hperm.
    assert (positive_weights asin pi (concat bs)) as Hpos by (rewrite Hperm; apply singleton_points_pos).
    destruct (quantile_rank asin pi W d bs q) as [H1 H2]; try done.
    + rewrite Hct, Hn. rewrite (q_weight_perm asin pi _ _ Hperm). symmetry. apply q_weight_singletons.
    + rewrite (rank_lt_perm asin pi _ _ _ Hperm), rank_lt_samples, Hct, Hn in H1.
      rewrite (rank_le_perm asin pi _ _ _ Hperm), rank_le_samples, Hct, Hn in H2. by split.
Qed.

(** Percentiles over the cluster. However the samples are spread over shards, building
    a digest per shard, sending its parts and merging them never fails, loses no sample and
    counts none twice: the count and the sum are those of all samples; the digest has at
    most 101 centroids; and if there is a sample, every quantile, also of a rank outside
    [0, 1], lies within the range of the samples and grows with the rank. *)
Theorem gathered_digest asin pi (shards : list (list Q)) lo hi
    (Hmono : ∀ x y, x <= y → asin x <= asin y) (Hpi : 0 < pi)
    (Hextent : asin 1 - asin (- (1)) <= pi)
    (Hrange : Forall (Forall (λ x, lo <= x <= hi)) shards) :
  ∃ parts (d : TDigest (Q_num asin pi)), mapM (@sample_parts (Q_num asin pi)) shards = Some parts ∧
    td_gather parts = Some d ∧
    td_count d == inject_Z (Z.of_nat (length (concat shards))) ∧
    q_mass asin pi (td_points d) == q_sum (concat shards) ∧
    inject_Z (Z.of_nat (length (td_centroids d))) <= 101 ∧
    (concat shards ≠ [] → ∀ q1 q2 : Q, q1 <= q2 →
       lo <= @td_quantile (Q_num asin pi) d q1 <= hi ∧
       @td_quantile (Q_num asin pi) d q1 <= @td_quantile (Q_num asin pi) d q2).
Proof.
  destruct (gather_spec asin pi Hmono Hpi Hextent lo hi shards td_new)
    as (parts & d & E1 & E2 & [Hwf Hw Hs Hb _ Hsz] & Hc & Hm); [apply gathered_new|done|].
  assert (td_count d == inject_Z (Z.of_nat (length (concat shards)))) as Hc'
    by (rewrite Hc; apply Qplus_0_l).
  exists parts, d. split_and!; try done; [rewrite Hm; apply Qplus_0_l|].
  unfold td_points in Hw. rewrite Hb in Hw. cbn [fmap list_fmap] in Hw. rewrite app_nil_r in Hw.
  intros Hne q1 q2 Hq. destruct (quantile_laws asin pi d lo hi q1 Hwf Hs Hw) as [H1 H2]; [|by auto].
  intros Hn. destruct Hwf as [_ Hcount]. unfold td_points in Hcount. rewrite Hn, Hb in Hcount.
  rewrite Hc' in Hcount. destruct (concat shards); [done|]. cbn [length] in Hcount.
  rewrite Nat2Z.inj_succ in Hcount. unfold Z.succ in Hcount. rewrite inject_Z_plus in Hcount.
  assert (0 <= inject_Z (Z.of_nat (length l))) by (change 0 with (inject_Z 0); rewrite <- Zle_Qle; lia).
  change (inject_Z (Z.of_nat (length l)) + 1 == 0) in Hcount. lra.
Qed.

(** ** Witnesses *)

(** Ten samples in pairs, under a scale coarse enough to merge them: the median is right up
    to three ranks. *)
Definition ten_samples : list Q := [7; 3; 9; 1; 10; 2; 8; 4; 6; 5].

Lemma quantile_accurate_witness :
  ∃ d, (fed ← @td_add_all (Q_num (λ x, x) 20) td_new ten_samples; td_compress fed) = Some d ∧
    length (td_centroids d) = 5%nat ∧
    inject_Z (samples_below (@td_quantile (Q_num (λ x, x) 20) d (1 # 2)) ten_samples) <= 8 ∧
    2 <= inject_Z (samples_upto (@td_quantile (Q_num (λ x, x) 20) d (1 # 2)) ten_samples).
Proof.
  eexists. split; [vm_compute; reflexivity|]. split; [reflexivity|].
  refine (_ (quantile_accurate (λ x, x) 20 ten_samples _ (1 # 2) _ _ _ _ _ _));
    [|intros x y _; lra|reflexivity|discriminate|vm_compute; lia|vm_compute; reflexivity|split; discriminate].
  intros [H1 H2]. split; (eapply Qle_trans; [exact H1|]) || (eapply Qle_trans; [|exact H2]); by vm_compute.
Defined.

(** Three shards, one without samples. *)
Lemma gathered_digest_witness :
  ∃ parts (d : TDigest (Q_num (λ x, x) 20)),
    mapM (@sample_parts (Q_num (λ x, x) 20)) [[7; 3; 9]; []; [1; 10]] = Some parts ∧
    td_gather parts = Some d ∧ td_count d == 5 ∧
    1 <= @td_quantile (Q_num (λ x, x) 20) d (1 # 2) <= 10.
Proof.
  destruct (gathered_digest (λ x, x) 20 [[7; 3; 9]; []; [1; 10]] 1 10)
    as (parts & d & E1 & E2 & Hc & _ & _ & Hq).
  - done.
  - reflexivity.
  - discriminate.
  - repeat constructor; by vm_compute.
  - exists parts, d. split; [exact E1|]. split; [exact E2|]. split; [exact Hc|].
    exact (proj1 (Hq ltac:(discriminate) (1 # 2) (1 # 2) (Qle_refl _))).
Defined.
