(* ===== verification/Registry.v ===== *)
(** * The coordinator's registry: [crates/coordinator/src/registry.rs]

    The shard map (one routed leader per shard and its followers), the drain set and the
    virtual-shard table. [Instant]s and [Duration]s are integers in milliseconds. *)

From S2P Require Export Wire.

(** ** State *)

Record NodeInfo := {
  ni_node_id : string;
  ni_address : string;
  ni_role : NodeRole;
  ni_last_seen : Z;
}.

Record NodeSnapshot := {
  sn_node_id : string;
  sn_address : string;
  sn_role : NodeRole;
  sn_shard_id : Z;
  sn_since_seen : Z;
  sn_draining : bool;
}.

(** [Instant::saturating_duration_since]. *)
Definition since (now seen : Z) : Z := Z.max 0 (now - seen).

Definition from_info (info : NodeInfo) (shard_id now : Z) : NodeSnapshot :=
  {| sn_node_id := ni_node_id info; sn_address := ni_address info; sn_role := ni_role info;
     sn_shard_id := shard_id; sn_since_seen := since now (ni_last_seen info);
     sn_draining := false |}.

Definition DEFAULT_LIVENESS_TIMEOUT : Z := 15000.

Record Registry := {
  shard_count : Z;
  liveness_timeout : Z;
  leaders : gmap Z NodeInfo;
  followers : gmap Z (list NodeInfo);
  draining : gset string;
  vshards : list Z;
  placement_version : Z;
  authority_replicated : bool;
}.

Definition reg_new (n : Z) : Registry :=
  {| shard_count := n; liveness_timeout := DEFAULT_LIVENESS_TIMEOUT; leaders := ∅;
     followers := ∅; draining := ∅; vshards := []; placement_version := 0;
     authority_replicated := false |}.

(** Functional updates of the mutable fields. *)
Definition set_map (r : Registry) (ls : gmap Z NodeInfo) (fs : gmap Z (list NodeInfo)) : Registry :=
  {| shard_count := shard_count r; liveness_timeout := liveness_timeout r; leaders := ls;
     followers := fs; draining := draining r; vshards := vshards r;
     placement_version := placement_version r;
     authority_replicated := authority_replicated r |}.
Definition set_draining (r : Registry) (d : gset string) : Registry :=
  {| shard_count := shard_count r; liveness_timeout := liveness_timeout r;
     leaders := leaders r; followers := followers r; draining := d; vshards := vshards r;
     placement_version := placement_version r;
     authority_replicated := authority_replicated r |}.
Definition set_table (r : Registry) (vs : list Z) (version : Z) : Registry :=
  {| shard_count := shard_count r; liveness_timeout := liveness_timeout r;
     leaders := leaders r; followers := followers r; draining := draining r; vshards := vs;
     placement_version := version; authority_replicated := authority_replicated r |}.

Definition with_liveness_timeout (r : Registry) (timeout : Z) : Registry :=
  {| shard_count := shard_count r; liveness_timeout := timeout; leaders := leaders r;
     followers := followers r; draining := draining r; vshards := vshards r;
     placement_version := placement_version r;
     authority_replicated := authority_replicated r |}.

Definition with_replicated_authority (r : Registry) : Registry :=
  {| shard_count := shard_count r; liveness_timeout := liveness_timeout r;
     leaders := leaders r; followers := followers r; draining := draining r;
     vshards := vshards r; placement_version := placement_version r;
     authority_replicated := true |}.

(** [(0..v).map(|i| i % n)]; the remainder by zero panics, so this is for [n > 0]. *)
Definition with_vshards (r : Registry) (v : nat) : Registry :=
  set_table r ((λ i, Z.of_nat i mod shard_count r) <$> seq 0 v) (placement_version r).

Definition vshard_assignments (r : Registry) : list Z := vshards r.

(** ** The placement table *)

Definition validate_reassign (r : Registry) (vshard group : Z) : result () string :=
  if bool_decide (vshards r = []) then Err "virtual shards are not enabled"%string
  else if Z.of_nat (length (vshards r)) <=? vshard then
    Err ("vshard " +:+ show_Z vshard +:+ " out of range (V="
         +:+ show_nat (length (vshards r)) +:+ ")")%string
  else if shard_count r <=? group then
    Err ("group " +:+ show_Z group +:+ " out of range (N=" +:+ show_Z (shard_count r)
         +:+ ")")%string
  else Ok ().

Definition reassign_vshard (r : Registry) (vshard group : Z) : Registry * result () string :=
  if bool_decide (vshards r = []) then (r, Err "virtual shards are not enabled"%string)
  else if Z.of_nat (length (vshards r)) <=? vshard then
    (r, Err ("vshard " +:+ show_Z vshard +:+ " out of range (V="
             +:+ show_nat (length (vshards r)) +:+ ")")%string)
  else if shard_count r <=? group then
    (r, Err ("group " +:+ show_Z group +:+ " out of range (N=" +:+ show_Z (shard_count r)
             +:+ ")")%string)
  else (set_table r (<[Z.to_nat vshard := group]> (vshards r))
          (wrap_u64 (placement_version r + 1)), Ok ()).

(** ** Authority *)

Definition apply_drain_marker (r : Registry) (node_id : string) : Registry :=
  set_draining r ({[node_id]} ∪ draining r).

Definition authority (r : Registry) : list Z * list string :=
  (vshards r, sort_by str_cmp (elements (draining r))).

Definition set_authority (r : Registry) (vs : list Z) (ds : list string) : Registry :=
  set_draining (set_table r vs (wrap_u64 (placement_version r + 1))) (list_to_set ds).

Section ops.
Context {HO : HashOrder}.

(** ** Lookup *)

Definition is_node (node_id : string) (n : NodeInfo) : bool :=
  bool_decide (ni_node_id n = node_id).

Definition knows_node (r : Registry) (node_id : string) : bool :=
  existsb (is_node node_id) (hm_values (leaders r))
  || existsb (is_node node_id) (concat (hm_values (followers r))).

Definition mark_draining (r : Registry) (node_id : string) : Registry * bool :=
  let known := knows_node r node_id in
  (if known then set_draining r ({[node_id]} ∪ draining r) else r, known).

Definition leader_addresses (r : Registry) : list string :=
  ni_address <$> hm_values (leaders r).

Definition follower_addresses (r : Registry) (shard_id : Z) : list string :=
  match followers r !! shard_id with
  | Some nodes => ni_address <$> nodes
  | None => []
  end.

Definition leaders_registered (r : Registry) : nat := size (leaders r).

Definition all_shards_have_leader (r : Registry) : bool :=
  wrap_u32 (Z.of_nat (size (leaders r))) =? shard_count r.

(** ** Registration *)

Definition reject (r : Registry) (message : string) : RegisterNodeResponse :=
  {| rp_accepted := false; rp_cluster_size := shard_count r; rp_message := message |}.

(** The live-leader guard: the incumbent that blocks a leader registration. *)
Definition blocking_leader (r : Registry) (req : RegisterNodeRequest) (now : Z)
    : option NodeInfo :=
  match leaders r !! rn_shard_id req with
  | Some current =>
      let current_is_live := since now (ni_last_seen current) <=? liveness_timeout r in
      if current_is_live && negb (bool_decide (ni_node_id current = rn_node_id req))
      then Some current else None
  | None => None
  end.

(** The follower list after a registration: the node's entry is replaced in place, or
    appended. *)
Fixpoint upsert (info : NodeInfo) (nodes : list NodeInfo) : list NodeInfo :=
  match nodes with
  | [] => [info]
  | n :: k => if bool_decide (ni_node_id n = ni_node_id info) then info :: k
              else n :: upsert info k
  end.

Definition show_role (role : NodeRole) : string :=
  match role with
  | RoleUnspecified => "Unspecified" | Leader => "Leader" | Follower => "Follower"
  end.

Definition register_at (r : Registry) (req : RegisterNodeRequest) (now : Z)
    : Registry * RegisterNodeResponse :=
  if shard_count r <=? rn_shard_id req then
    (r, reject r ("shard_id " +:+ show_Z (rn_shard_id req) +:+ " out of range for N="
                  +:+ show_Z (shard_count r)))
  else
    let role := role_of_i32 (rn_role req) in
    match (if decide (role = Leader) then blocking_leader r req now else None) with
    | Some current =>
        (r, reject r ("shard " +:+ show_Z (rn_shard_id req) +:+ " already has a live leader '"
                      +:+ ni_node_id current +:+ "'; rejecting takeover by '"
                      +:+ rn_node_id req +:+ "'"))
    | None =>
        let info := {| ni_node_id := rn_node_id req; ni_address := rn_address req;
                       ni_role := role; ni_last_seen := now |} in
        let accepted :=
          {| rp_accepted := true; rp_cluster_size := shard_count r;
             rp_message := "registered shard " +:+ show_Z (rn_shard_id req) +:+ " as "
                           +:+ show_role role |} in
        match role with
        | Leader => (set_map r (<[rn_shard_id req := info]> (leaders r)) (followers r), accepted)
        | Follower =>
            let nodes := default [] (followers r !! rn_shard_id req) in
            (set_map r (leaders r) (<[rn_shard_id req := upsert info nodes]> (followers r)),
             accepted)
        | RoleUnspecified => (r, reject r "role unspecified")
        end
    end.

(** ** Liveness *)

Definition touch (now : Z) (n : NodeInfo) : NodeInfo :=
  {| ni_node_id := ni_node_id n; ni_address := ni_address n; ni_role := ni_role n;
     ni_last_seen := now |}.

(** The first shard, in iteration order, routed to the node; the first follower entry. *)
Definition find_leader (r : Registry) (node_id : string) : option (Z * NodeInfo) :=
  snd <$> list_find (λ kn, ni_node_id kn.2 = node_id) (hm_order (leaders r)).

Definition find_follower (r : Registry) (node_id : string) : option (Z * nat) :=
  head (omap (λ kn : Z * list NodeInfo,
                match list_find (λ n, ni_node_id n = node_id) kn.2 with
                | Some (idx, _) => Some (kn.1, idx)
                | None => None
                end) (hm_order (followers r))).

Definition heartbeat (r : Registry) (node_id : string) (now : Z) : Registry * option NodeRole :=
  match find_leader r node_id with
  | Some (shard, node) =>
      (set_map r (<[shard := touch now node]> (leaders r)) (followers r), Some Leader)
  | None =>
      match find_follower r node_id with
      | Some (shard, idx) =>
          (set_map r (leaders r) (alter (alter (touch now) idx) shard (followers r)),
           Some Follower)
      | None => (r, None)
      end
  end.

Definition stale (now timeout : Z) (n : NodeInfo) : bool := timeout <? since now (ni_last_seen n).

(** The [while] loop over one follower list: the nodes kept and the nodes removed. *)
Fixpoint reap_list (now timeout : Z) (nodes : list NodeInfo) : list NodeInfo * list NodeInfo :=
  match nodes with
  | [] => ([], [])
  | n :: k => let '(kept, removed) := reap_list now timeout k in
              if stale now timeout n then (kept, n :: removed) else (n :: kept, removed)
  end.

Definition reap_dead (r : Registry) (now timeout : Z) : Registry * list NodeInfo :=
  let dead_shards := (filter (λ kn, stale now timeout kn.2 = true) (hm_order (leaders r))).*1 in
  let '(leaders', removed_leaders) :=
    foldl (λ '(ls, removed) shard,
             match ls !! shard with
             | Some node => (delete shard ls, removed ++ [node])
             | None => (ls, removed)
             end) (leaders r, []) dead_shards in
  let followers' := (λ nodes, (reap_list now timeout nodes).1) <$> followers r in
  let removed := removed_leaders
    ++ concat ((λ nodes, (reap_list now timeout nodes).2) <$> hm_values (followers r)) in
  let r' := set_map r leaders' followers' in
  (if authority_replicated r then r'
   else set_draining r' (foldl (λ d n, d ∖ {[ni_node_id n]}) (draining r) removed),
   removed).

(** ** Leadership *)

Definition with_role (role : NodeRole) (n : NodeInfo) : NodeInfo :=
  {| ni_node_id := ni_node_id n; ni_address := ni_address n; ni_role := role;
     ni_last_seen := ni_last_seen n |}.

Definition report_raft_leader (r : Registry) (node_id : string) (now : Z)
    : Registry * option Z :=
  match find_leader r node_id with
  | Some (shard, leader) =>
      (set_map r (<[shard := touch now leader]> (leaders r)) (followers r), None)
  | None =>
      match find_follower r node_id with
      | None => (r, None)
      | Some (shard, idx) =>
          let nodes := default [] (followers r !! shard) in
          match nodes !! idx with
          | None => (r, None)
          | Some node =>
              let promoted := touch now (with_role Leader node) in
              let followers1 := <[shard := delete idx nodes]> (followers r) in
              let followers2 :=
                match leaders r !! shard with
                | Some old =>
                    <[shard := default [] (followers1 !! shard) ++ [with_role Follower old]]>
                      followers1
                | None => followers1
                end in
              (set_map r (<[shard := promoted]> (leaders r)) followers2, Some shard)
          end
      end
  end.

(** One iteration of [promote_orphaned_shards]. [Vec::pop] takes the last follower. *)
Definition promote_shard (st : Registry * list (Z * string)) (shard : Z)
    : Registry * list (Z * string) :=
  let '(r, promotions) := st in
  match leaders r !! shard with
  | Some _ => st
  | None =>
      match followers r !! shard with
      | None => st
      | Some nodes =>
          match last nodes with
          | None => st
          | Some node =>
              let rest := take (length nodes - 1) nodes in
              let fs := if bool_decide (rest = []) then delete shard (followers r)
                        else <[shard := rest]> (followers r) in
              (set_map r (<[shard := with_role Leader node]> (leaders r)) fs,
               promotions ++ [(shard, ni_node_id node)])
          end
      end
  end.

Definition promote_orphaned_shards (r : Registry) : Registry * list (Z * string) :=
  foldl promote_shard (r, []) (hm_keys (followers r)).

(** ** Views *)

Definition snap_one (r : Registry) (now shard_id : Z) (info : NodeInfo) : NodeSnapshot :=
  let s := from_info info shard_id now in
  {| sn_node_id := sn_node_id s; sn_address := sn_address s; sn_role := sn_role s;
     sn_shard_id := sn_shard_id s; sn_since_seen := sn_since_seen s;
     sn_draining := bool_decide (sn_node_id s ∈ draining r) |}.

Definition snap_cmp (a b : NodeSnapshot) : comparison :=
  then_with (Z.compare (sn_shard_id a) (sn_shard_id b))
    (then_with (bool_cmp (negb (bool_decide (sn_role a = Leader)))
                         (negb (bool_decide (sn_role b = Leader))))
       (str_cmp (sn_node_id a) (sn_node_id b))).

Definition snapshot (r : Registry) (now : Z) : list NodeSnapshot :=
  sort_by snap_cmp
    ((λ kn, snap_one r now kn.1 kn.2) <$> hm_order (leaders r) ++
     (hm_order (followers r) ≫= λ kn, pair kn.1 <$> kn.2)).

Definition members_of (r : Registry) (shard_id now : Z) : list NodeSnapshot :=
  filter (λ n, sn_shard_id n = shard_id) (snapshot r now).

End ops.

(** ** Specification *)

(** The registry as every operation leaves it: only shards in [0..N], entries filed
    under their role, and a table of [v] entries over existing groups. *)
Record registry_wf (n : Z) (v : nat) (r : Registry) : Prop := {
  wf_count : shard_count r = n;
  wf_leaders : map_Forall (λ s i, 0 ≤ s < n ∧ ni_role i = Leader) (leaders r);
  wf_followers :
    map_Forall (λ s l, 0 ≤ s < n ∧ Forall (λ i, ni_role i = Follower) l) (followers r);
  wf_table : Forall (λ g, 0 ≤ g < n) (vshards r);
  wf_table_len : length (vshards r) = v;
}.

(** Everything that mutates a registry, as one alphabet. *)
Inductive reg_op :=
| OpRegister (req : RegisterNodeRequest) (now : Z)
| OpHeartbeat (node_id : string) (now : Z)
| OpReap (now timeout : Z)
| OpPromote
| OpReport (node_id : string) (now : Z)
| OpDrain (node_id : string)
| OpApplyDrain (node_id : string)
| OpReassign (vshard group : Z)
| OpRestore (vs : list Z) (ds : list string).

Definition reg_exec `{!HashOrder} (r : Registry) (op : reg_op) : Registry :=
  match op with
  | OpRegister req now => (register_at r req now).1
  | OpHeartbeat i now => (heartbeat r i now).1
  | OpReap now timeout => (reap_dead r now timeout).1
  | OpPromote => (promote_orphaned_shards r).1
  | OpReport i now => (report_raft_leader r i now).1
  | OpDrain i => (mark_draining r i).1
  | OpApplyDrain i => apply_drain_marker r i
  | OpReassign vs g => (reassign_vshard r vs g).1
  | OpRestore vs ds => set_authority r vs ds
  end.

(** Wire integers are unsigned; a restored table comes from a replica of the same
    cluster. *)
Definition op_ok (n : Z) (v : nat) (op : reg_op) : Prop :=
  match op with
  | OpRegister req _ => 0 ≤ rn_shard_id req
  | OpReassign vs g => 0 ≤ vs ∧ 0 ≤ g
  | OpRestore vs _ => Forall (λ g, 0 ≤ g < n) vs ∧ length vs = v
  | _ => True
  end.

(** The nodes a shard is served by, the routed leader first. *)
Definition shard_nodes (r : Registry) (s : Z) : list string :=
  (ni_node_id <$> option_list (leaders r !! s)) ++
  (ni_node_id <$> default [] (followers r !! s)).

(** The follower a leaderless shard promotes: the last of its list. *)
Definition promotee (r : Registry) (s : Z) : option NodeInfo :=
  match leaders r !! s with
  | Some _ => None
  | None => followers r !! s ≫= last
  end.

(** ** Lemmas *)

Section lemmas.
Context {HO : HashOrder}.

Lemma find_leader_Some r i s n :
  find_leader r i = Some (s, n) → leaders r !! s = Some n ∧ ni_node_id n = i.
Proof.
  unfold find_leader. intros ([k [s' n']] & Hl & ?)%fmap_Some. simplify_eq/=.
  apply list_find_Some in Hl as (Hl & Hp & _). split; [|done].
  apply elem_of_hm_order. by eapply list_elem_of_lookup_2.
Qed.

Lemma find_leader_None r i :
  find_leader r i = None ↔ map_Forall (λ _ n, ni_node_id n ≠ i) (leaders r).
Proof.
  unfold find_leader. rewrite fmap_None, list_find_None, Forall_forall. split.
  - intros H s n Hs. apply (H (s, n)). by apply elem_of_hm_order.
  - intros H [s n] Hin%elem_of_hm_order. by apply (H s n).
Qed.

Lemma find_follower_Some r i s k :
  find_follower r i = Some (s, k) →
  ∃ nodes n, followers r !! s = Some nodes ∧ nodes !! k = Some n ∧ ni_node_id n = i.
Proof.
  unfold find_follower. intros Hh. apply head_Some_elem_of in Hh.
  apply list_elem_of_omap in Hh as ([s' nodes] & Hin%elem_of_hm_order & Hm). simpl in Hm.
  destruct (list_find _ nodes) as [[k' n]|] eqn:E; simplify_eq.
  apply list_find_Some in E as (? & ? & _). by exists nodes, n.
Qed.

Lemma find_follower_None r i :
  find_follower r i = None ↔
  map_Forall (λ _ l, Forall (λ n, ni_node_id n ≠ i) l) (followers r).
Proof.
  unfold find_follower. rewrite head_None. split.
  - intros H s nodes Hs. apply Forall_forall. intros n Hn Hi.
    destruct (list_find_elem_of (λ n, ni_node_id n = i) nodes n Hn Hi) as [[k n'] Hf].
    apply elem_of_hm_order in Hs.
    assert ((s, k) ∈ @nil (Z * nat)) as Hin; [|by apply elem_of_nil in Hin].
    rewrite <- H. apply list_elem_of_omap. exists (s, nodes). simpl. by rewrite Hf.
  - intros H. destruct (omap _ _) as [|sk l] eqn:E; [done|]. exfalso.
    assert (sk ∈ sk :: l) as Hin by left. rewrite <- E in Hin.
    apply list_elem_of_omap in Hin as ([s nodes] & Hin%elem_of_hm_order & Hm). simpl in Hm.
    destruct (list_find _ nodes) as [[k n]|] eqn:Ef; simplify_eq.
    apply list_find_Some in Ef as (Hk & Hn & _).
    specialize (H _ _ Hin). rewrite Forall_lookup in H. by apply (H k n).
Qed.

Lemma upsert_Forall (P : NodeInfo → Prop) info l :
  P info → Forall P l → Forall P (upsert info l).
Proof. intros Hi. induction 1; simpl; [by constructor|]. case_bool_decide; by constructor. Qed.

Lemma reap_list_fst now timeout l :
  (reap_list now timeout l).1 = filter (λ n, stale now timeout n = false) l.
Proof.
  induction l as [|n l IH]; [done|]. cbn [reap_list]. rewrite filter_cons.
  destruct (reap_list now timeout l). simpl in IH. subst.
  destruct (stale now timeout n) eqn:E; case_decide; done.
Qed.

Lemma reap_list_snd now timeout l :
  (reap_list now timeout l).2 = filter (λ n, stale now timeout n = true) l.
Proof.
  induction l as [|n l IH]; [done|]. cbn [reap_list]. rewrite filter_cons.
  destruct (reap_list now timeout l). simpl in IH. subst.
  destruct (stale now timeout n) eqn:E; case_decide; done.
Qed.

(** The leader half of the reaper, as a fold over the dead shards. *)
Definition reap_leaders (ls : gmap Z NodeInfo) (removed : list NodeInfo) (dead : list Z) :=
  foldl (λ '(ls, removed) shard,
           match ls !! shard with
           | Some node => (delete shard ls, removed ++ [node])
           | None => (ls, removed)
           end) (ls, removed) dead.

Lemma reap_leaders_spec ls removed dead :
  NoDup dead → (∀ s, s ∈ dead → is_Some (ls !! s)) →
  reap_leaders ls removed dead =
    (filter (λ kn, kn.1 ∉ dead) ls, removed ++ omap (λ s, ls !! s) dead).
Proof.
  revert ls removed. induction dead as [|s dead IH]; intros ls removed Hnd Hin.
  { unfold reap_leaders. cbn. rewrite app_nil_r. f_equal.
    symmetry. apply map_filter_id. intros ? ? _. apply not_elem_of_nil. }
  apply NoDup_cons in Hnd as [Hs Hnd]. destruct (Hin s) as [n Hn]; [left|].
  pose proof (IH (delete s ls) (removed ++ [n]) Hnd) as E.
  unfold reap_leaders in *. cbn [foldl]. rewrite Hn, E.
  - rewrite <- app_assoc. cbn. rewrite Hn. f_equal.
    + apply map_eq. intros k. apply option_eq. intros x.
      rewrite !map_lookup_filter_Some, lookup_delete_Some. simpl. set_solver.
    + apply (f_equal (λ l, removed ++ n :: l)). apply omap_ext_in. intros x Hx.
      apply lookup_delete_ne. by intros ->.
  - intros s' Hs'. rewrite lookup_delete_ne by congruence. apply Hin. by right.
Qed.

Lemma omap_lookup_order (ls : gmap Z NodeInfo) (l : list (Z * NodeInfo)) :
  (∀ s n, (s, n) ∈ l → ls !! s = Some n) → omap (λ s, ls !! s) l.*1 = l.*2.
Proof.
  induction l as [|[s n] l IH]; intros Hl; [done|]. cbn. rewrite (Hl s n) by left.
  f_equal. apply IH. intros. apply Hl. by right.
Qed.

(** What the reaper removes and what it keeps. *)
Lemma reap_dead_spec r now timeout :
  let r' := (reap_dead r now timeout).1 in
  leaders r' = filter (λ kn, stale now timeout kn.2 = false) (leaders r) ∧
  followers r' = filter (λ n, stale now timeout n = false) <$> followers r ∧
  (reap_dead r now timeout).2 =
    filter (λ n, stale now timeout n = true)
      (hm_values (leaders r) ++ concat (hm_values (followers r))).
Proof.
  unfold reap_dead.
  set (dead := filter _ (hm_order (leaders r))).
  assert (∀ s n, (s, n) ∈ dead → leaders r !! s = Some n) as Hdead.
  { intros s n [_ Hin]%list_elem_of_filter. by apply elem_of_hm_order. }
  change (foldl _ (leaders r, []) dead.*1) with (reap_leaders (leaders r) [] dead.*1).
  rewrite reap_leaders_spec.
  2: { apply NoDup_keys_filter, hm_keys_NoDup. }
  2: { intros s ([s' n] & -> & Hin)%list_elem_of_fmap. eauto. }
  cbn [fst snd]. rewrite omap_lookup_order by done. split_and!.
  - trans (filter (λ kn, kn.1 ∉ dead.*1) (leaders r)); [by destruct (authority_replicated r)|].
    apply map_filter_ext. intros s n Hn. simpl. rewrite list_elem_of_fmap. unfold dead.
    destruct (stale now timeout n) eqn:E; split; try done; intros Hs.
    + exfalso. apply Hs. exists (s, n). rewrite list_elem_of_filter, elem_of_hm_order. done.
    + intros ([s' n'] & -> & [Hst Hin%elem_of_hm_order]%list_elem_of_filter).
      simpl in *. simplify_map_eq. congruence.
  - trans ((λ nodes, (reap_list now timeout nodes).1) <$> followers r);
      [by destruct (authority_replicated r)|].
    apply map_fmap_ext. intros s l _. apply reap_list_fst.
  - simpl. rewrite filter_app. f_equal.
    + unfold dead, hm_values. by rewrite filter_fmap_comm.
    + induction (hm_values (followers r)) as [|l k IH]; [done|]. cbn [fmap list_fmap concat].
      by rewrite filter_app, reap_list_snd, IH.
Qed.

Lemma wf_set_map n v r ls fs :
  registry_wf n v r →
  map_Forall (λ s i, 0 ≤ s < n ∧ ni_role i = Leader) ls →
  map_Forall (λ s l, 0 ≤ s < n ∧ Forall (λ i, ni_role i = Follower) l) fs →
  registry_wf n v (set_map r ls fs).
Proof. intros [] ? ?. by split. Qed.

Lemma wf_set_draining n v r d : registry_wf n v r → registry_wf n v (set_draining r d).
Proof. intros []. by split. Qed.

Lemma promote_shard_fields r ps s :
  let r' := (promote_shard (r, ps) s).1 in
  shard_count r' = shard_count r ∧ vshards r' = vshards r ∧ draining r' = draining r ∧
  (∀ k, leaders r' !! k =
     if decide (k = s) then match promotee r s with
                            | Some n => Some (with_role Leader n)
                            | None => leaders r !! s end
     else leaders r !! k) ∧
  (∀ k, followers r' !! k =
     if decide (k = s) then
       match promotee r s, followers r !! s with
       | Some _, Some nodes => if decide (length nodes = 1%nat) then None
                               else Some (take (length nodes - 1) nodes)
       | _, _ => followers r !! s end
     else followers r !! k) ∧
  (promote_shard (r, ps) s).2 = ps ++ ((λ n, (s, ni_node_id n)) <$> option_list (promotee r s)).
Proof.
  unfold promote_shard, promotee.
  destruct (leaders r !! s) as [l|] eqn:El.
  { simpl. rewrite app_nil_r. split_and!; try done; intros k; case_decide; by subst. }
  destruct (followers r !! s) as [nodes|] eqn:Ef; simpl.
  2: { rewrite app_nil_r. split_and!; try done; intros k; case_decide; by subst. }
  destruct (last nodes) as [n|] eqn:En; simpl.
  2: { rewrite app_nil_r. split_and!; try done; intros k; case_decide; by subst. }
  assert (length nodes ≠ 0%nat) as Hl by (by destruct nodes).
  split_and!; try done; intros k.
  - rewrite lookup_insert. by repeat case_decide.
  - assert (take (length nodes - 1) nodes = [] ↔ length nodes = 1%nat) as Ht.
    { rewrite <- length_zero_iff_nil, length_take. lia. }
    case_bool_decide as Hb; [rewrite lookup_delete|rewrite lookup_insert];
      repeat case_decide; subst; try done; tauto.
Qed.

Lemma promotee_ext r r' s :
  leaders r !! s = leaders r' !! s → followers r !! s = followers r' !! s →
  promotee r s = promotee r' s.
Proof. unfold promotee. by intros -> ->. Qed.

(** The fold, pointwise: every shard is promoted from its original entry. *)
Lemma promote_fold r ps keys :
  NoDup keys →
  let out := foldl promote_shard (r, ps) keys in
  shard_count out.1 = shard_count r ∧ vshards out.1 = vshards r ∧
  draining out.1 = draining r ∧
  (∀ k, leaders out.1 !! k =
     match (if decide (k ∈ keys) then promotee r k else None) with
     | Some n => Some (with_role Leader n) | None => leaders r !! k end) ∧
  (∀ k, followers out.1 !! k =
     match (if decide (k ∈ keys) then promotee r k else None), followers r !! k with
     | Some _, Some nodes => if decide (length nodes = 1%nat) then None
                             else Some (take (length nodes - 1) nodes)
     | _, _ => followers r !! k end) ∧
  out.2 = ps ++ omap (λ k, (λ n, (k, ni_node_id n)) <$> promotee r k) keys.
Proof.
  revert r ps. induction keys as [|s keys IH]; intros r ps Hnd.
  { cbn. rewrite app_nil_r. split_and!; try done; intros k;
      by (case_decide; [by apply elem_of_nil in H|]). }
  apply NoDup_cons in Hnd as [Hs Hnd]. cbn [foldl].
  destruct (promote_shard_fields r ps s) as (F1 & F2 & F3 & F4 & F5 & F6).
  destruct (promote_shard (r, ps) s) as [r1 ps1]. cbn [fst snd] in *.
  destruct (IH r1 ps1 Hnd) as (G1 & G2 & G3 & G4 & G5 & G6).
  assert (∀ k, k ≠ s → promotee r1 k = promotee r k) as Hp.
  { intros k Hk. apply promotee_ext; [rewrite F4|rewrite F5]; by rewrite decide_False. }
  split_and!; [congruence..| | |].
  - intros k. rewrite G4, F4. destruct (decide (k = s)) as [->|Hk].
    + rewrite (decide_False (P := s ∈ keys)), (decide_True (P := s ∈ s :: keys)) by set_solver.
      done.
    + rewrite Hp by done. repeat case_decide; try done; set_solver.
  - intros k. rewrite G5, F5. destruct (decide (k = s)) as [->|Hk].
    + rewrite (decide_False (P := s ∈ keys)), (decide_True (P := s ∈ s :: keys)) by set_solver.
      done.
    + rewrite Hp by done. repeat case_decide; try done; set_solver.
  - rewrite G6, F6, <- app_assoc. f_equal. cbn.
    rewrite (omap_ext_in _ (λ k, (λ n, (k, ni_node_id n)) <$> promotee r k)).
    + by destruct (promotee r s).
    + intros k Hk. rewrite Hp; [done|]. by intros ->.
Qed.

Lemma promotee_spec r s n :
  promotee r s = Some n ↔
  leaders r !! s = None ∧ ∃ nodes, followers r !! s = Some nodes ∧ last nodes = Some n.
Proof.
  unfold promotee. destruct (leaders r !! s); [naive_solver|].
  destruct (followers r !! s); naive_solver.
Qed.

Lemma promote_spec r :
  let out := promote_orphaned_shards r in
  shard_count out.1 = shard_count r ∧ vshards out.1 = vshards r ∧
  draining out.1 = draining r ∧
  (∀ k, leaders out.1 !! k = match promotee r k with
                             | Some n => Some (with_role Leader n)
                             | None => leaders r !! k end) ∧
  (∀ k, followers out.1 !! k =
     match promotee r k, followers r !! k with
     | Some _, Some nodes => if decide (length nodes = 1%nat) then None
                             else Some (take (length nodes - 1) nodes)
     | _, _ => followers r !! k end) ∧
  (∀ s i, (s, i) ∈ out.2 ↔ ∃ n, promotee r s = Some n ∧ ni_node_id n = i).
Proof.
  unfold promote_orphaned_shards.
  destruct (promote_fold r [] (hm_keys (followers r)) (hm_keys_NoDup _))
    as (F1 & F2 & F3 & F4 & F5 & F6).
  assert (∀ k, (if decide (k ∈ hm_keys (followers r)) then promotee r k else None)
               = promotee r k) as Hp.
  { intros k. case_decide as Hk; [done|]. destruct (promotee r k) eqn:E; [|done].
    apply promotee_spec in E as (_ & nodes & E & _). exfalso. apply Hk.
    apply elem_of_hm_keys. eauto. }
  split_and!; [done..| | |].
  - intros k. by rewrite F4, Hp.
  - intros k. by rewrite F5, Hp.
  - intros s i. rewrite F6. simpl. rewrite list_elem_of_omap. split.
    + intros (k & _ & E). destruct (promotee r k) eqn:Ep; simplify_eq/=. eauto.
    + intros (n & E & <-). exists s. rewrite E. split; [|done].
      apply promotee_spec in E as (_ & nodes & E & _). apply elem_of_hm_keys. eauto.
Qed.

Lemma wf_promote n v r : registry_wf n v r → registry_wf n v (promote_orphaned_shards r).1.
Proof.
  intros [Hc Hl Hf Ht Hlen]. destruct (promote_spec r) as (F1 & F2 & F3 & F4 & F5 & _).
  split; [congruence| | |by rewrite F2|by rewrite F2].
  - intros s i. rewrite F4. destruct (promotee r s) as [i'|] eqn:E; [|apply Hl].
    intros [= <-]. apply promotee_spec in E as (_ & nodes & E & _).
    apply Hf in E as [? _]. done.
  - intros s l. rewrite F5.
    destruct (promotee r s), (followers r !! s) as [nodes|] eqn:E; try done;
      apply Hf in E as [Hs Hall].
    + case_decide; [done|]. intros [= <-]. split; [done|]. by apply Forall_take.
    + by intros [= <-].
Qed.

Lemma wf_register n v r req now :
  registry_wf n v r → 0 ≤ rn_shard_id req → registry_wf n v (register_at r req now).1.
Proof.
  intros Hwf Hs. pose proof Hwf as [Hc Hl Hf _ _]. unfold register_at.
  destruct (_ <=? _) eqn:Eb; [done|]. apply Z.leb_gt in Eb.
  destruct (if decide _ then _ else _); [done|].
  destruct (role_of_i32 _) eqn:Er; simpl; [done|..]; apply wf_set_map; try done.
  - apply map_Forall_insert_2; [|done]. simpl. split; [lia|done].
  - apply map_Forall_insert_2; [|done]. split; [lia|].
    apply upsert_Forall; [done|]. destruct (followers r !! _) eqn:E; [|constructor].
    by apply Hf in E as [_ ?].
Qed.

Lemma wf_heartbeat n v r i now :
  registry_wf n v r → registry_wf n v (heartbeat r i now).1.
Proof.
  intros Hwf. pose proof Hwf as [Hc Hl Hf _ _]. unfold heartbeat.
  destruct (find_leader r i) as [[s node]|] eqn:E1; simpl.
  { apply find_leader_Some in E1 as [E1 _]. apply wf_set_map; [done| |done].
    apply map_Forall_insert_2; [|done]. by apply Hl in E1. }
  destruct (find_follower r i) as [[s k]|] eqn:E2; simpl; [|done].
  apply wf_set_map; [done..|]. intros s' l.
  rewrite lookup_alter_Some. intros [(-> & l' & Hl' & ->)|[_ Hl']]; [|by apply Hf in Hl'].
  apply Hf in Hl' as [? Hall]. split; [done|]. by apply Forall_alter; [|intros].
Qed.

Lemma wf_reap n v r now timeout :
  registry_wf n v r → registry_wf n v (reap_dead r now timeout).1.
Proof.
  intros [Hc Hl Hf Ht Hlen]. destruct (reap_dead_spec r now timeout) as (F1 & F2 & _).
  assert (shard_count (reap_dead r now timeout).1 = shard_count r ∧
          vshards (reap_dead r now timeout).1 = vshards r) as [E1 E2].
  { unfold reap_dead. destruct (foldl _ _ _). simpl. by destruct (authority_replicated r). }
  split; [congruence| | |by rewrite E2|by rewrite E2].
  - rewrite F1. intros s i [Hi _]%map_lookup_filter_Some. by apply Hl.
  - rewrite F2. intros s l. rewrite lookup_fmap. intros (l' & Hl' & ->)%fmap_Some.
    apply Hf in Hl' as [? Hall]. split; [done|].
    rewrite Forall_forall in Hall |- *. intros x [_ Hx]%list_elem_of_filter. by apply Hall.
Qed.

Lemma wf_report n v r i now :
  registry_wf n v r → registry_wf n v (report_raft_leader r i now).1.
Proof.
  intros Hwf. pose proof Hwf as [Hc Hl Hf _ _]. unfold report_raft_leader.
  destruct (find_leader r i) as [[s node]|] eqn:E1; simpl.
  { apply find_leader_Some in E1 as [E1 _]. apply wf_set_map; [done| |done].
    apply map_Forall_insert_2; [|done]. by apply Hl in E1. }
  destruct (find_follower r i) as [[s k]|] eqn:E2; simpl; [|done].
  apply find_follower_Some in E2 as (nodes & node & Hn & Hk & _). rewrite Hn. simpl. rewrite Hk.
  pose proof Hn as [Hs Hall]%Hf.
  assert (map_Forall (λ s l, 0 ≤ s < n ∧ Forall (λ i, ni_role i = Follower) l)
            (<[s := delete k nodes]> (followers r))) as Hf1.
  { apply map_Forall_insert_2; [|done]. split; [done|]. by apply Forall_delete. }
  apply wf_set_map; [done| |].
  - by apply map_Forall_insert_2.
  - destruct (leaders r !! s) as [old|]; [|done]. apply map_Forall_insert_2; [|done].
    split; [done|]. rewrite lookup_insert_eq. simpl. apply Forall_app.
    split; [by apply Forall_delete|by repeat constructor].
Qed.

Lemma wf_reassign n v r vs g :
  registry_wf n v r → 0 ≤ vs → 0 ≤ g → registry_wf n v (reassign_vshard r vs g).1.
Proof.
  intros Hwf Hv Hg. pose proof Hwf as [Hc Hl Hf Ht Hlen]. unfold reassign_vshard.
  case_bool_decide; [done|]. destruct (_ <=? vs); [done|].
  destruct (_ <=? g) eqn:E; [done|]. apply Z.leb_gt in E.
  split; try done; simpl; [|by rewrite length_insert].
  apply Forall_insert; [done|]. lia.
Qed.

Lemma wf_exec n v r op : registry_wf n v r → op_ok n v op → registry_wf n v (reg_exec r op).
Proof.
  intros Hwf Hok. destruct op; simpl in *;
    eauto using wf_register, wf_heartbeat, wf_reap, wf_promote,
      wf_report, wf_set_draining.
  - unfold mark_draining. simpl. destruct (knows_node _ _); [by apply wf_set_draining|done].
  - apply wf_reassign; tauto.
  - apply wf_set_draining. destruct Hwf as [Hc Hl Hf Ht Hlen], Hok. by split.
Qed.
Lemma knows_node_spec r i :
  knows_node r i = true ↔
  (∃ s n, leaders r !! s = Some n ∧ ni_node_id n = i) ∨
  (∃ s l n, followers r !! s = Some l ∧ n ∈ l ∧ ni_node_id n = i).
Proof.
  unfold knows_node, is_node. rewrite orb_true_iff, !existsb_exists.
  setoid_rewrite <- list_elem_of_In. setoid_rewrite elem_of_hm_values.
  setoid_rewrite bool_decide_eq_true. split.
  - intros [(n & [s Hs] & Hn)|(n & Hin & Hn)]; [by left; eauto|]. right.
    apply list_elem_of_In, in_concat in Hin as (l & Hl & Hin).
    apply list_elem_of_In, elem_of_hm_values in Hl as [s Hs].
    exists s, l, n. by rewrite list_elem_of_In.
  - intros [(s & n & Hs & Hn)|(s & l & n & Hs & Hin & Hn)]; [left; by eauto|]. right.
    exists n. split; [|done]. apply list_elem_of_In, in_concat. exists l.
    rewrite <- !list_elem_of_In, elem_of_hm_values. eauto.
Qed.

(** Promoting a reporter and demoting the incumbent permutes the shard's nodes. *)
Lemma shard_nodes_report r s k nodes node now s' :
  followers r !! s = Some nodes → nodes !! k = Some node →
  let fs1 := <[s := delete k nodes]> (followers r) in
  shard_nodes
    (set_map r (<[s := touch now (with_role Leader node)]> (leaders r))
       (match leaders r !! s with
        | Some old => <[s := default [] (fs1 !! s) ++ [with_role Follower old]]> fs1
        | None => fs1 end)) s'
  ≡ₚ shard_nodes r s'.
Proof.
  intros Hn Hk fs1. unfold shard_nodes. simpl. subst fs1.
  destruct (decide (s = s')) as [<-|Hne].
  - rewrite lookup_insert_eq, Hn. simpl. apply delete_Permutation in Hk. rewrite Hk.
    destruct (leaders r !! s) as [old|]; rewrite ?lookup_insert_eq; simpl; [|done].
    rewrite fmap_app. simpl. solve_Permutation.
  - rewrite lookup_insert_ne by done.
    destruct (leaders r !! s); by rewrite ?lookup_insert_ne.
Qed.
End lemmas.

(** ** Properties *)

(** C8: starting from a configured cluster, whatever sequence of registrations,
    heartbeats, reaps, promotions, raft-leader reports, drains, reassignments and
    snapshot restores arrives, and in whatever order the hash maps iterate: N never
    changes, only shards in [0..N] are ever led or followed, every routed leader is
    filed as a leader and every follower as a follower, and the placement table keeps
    its V entries, each naming an existing group. *)
Theorem registry_invariant {HO : HashOrder} (n : Z) (v : nat) (ops : list reg_op)
    (Hn : 0 < n) (Hops : Forall (op_ok n v) ops) :
  registry_wf n v (foldl reg_exec (with_vshards (reg_new n) v) ops).
Proof.
  assert (registry_wf n v (with_vshards (reg_new n) v)) as Hwf.
  { split; try done; simpl; [|by rewrite length_fmap, length_seq].
    apply Forall_fmap, Forall_forall. intros i _. simpl. by apply Z.mod_pos_bound. }
  revert Hwf. generalize (with_vshards (reg_new n) v).
  induction Hops as [|op ops Hop _ IH]; intros r Hwf; [done|].
  simpl. apply IH. by apply wf_exec.
Qed.

(** C9: a registration is accepted exactly when its shard exists, its role is known, and
    it is not a takeover of a shard whose leader is a different, live node. A rejected
    registration changes nothing; an accepted leader replaces only its shard's leader,
    an accepted follower only its shard's list, where re-registration does not
    duplicate; and the reply always carries the real N. *)
Theorem register_guard (r : Registry) (req : RegisterNodeRequest) (now : Z) :
  let '(r', resp) := register_at r req now in
  let s := rn_shard_id req in
  let role := role_of_i32 (rn_role req) in
  let info := {| ni_node_id := rn_node_id req; ni_address := rn_address req;
                 ni_role := role; ni_last_seen := now |} in
  rp_cluster_size resp = shard_count r ∧
  (rp_accepted resp = true ↔
     s < shard_count r ∧ role ≠ RoleUnspecified ∧
     ¬ (role = Leader ∧ ∃ cur, leaders r !! s = Some cur ∧
          ni_node_id cur ≠ rn_node_id req ∧
          since now (ni_last_seen cur) ≤ liveness_timeout r)) ∧
  (rp_accepted resp = false → r' = r) ∧
  (rp_accepted resp = true → role = Leader →
     r' = set_map r (<[s := info]> (leaders r)) (followers r)) ∧
  (rp_accepted resp = true → role = Follower →
     r' = set_map r (leaders r)
            (<[s := upsert info (default [] (followers r !! s))]> (followers r))).
Proof.
  unfold register_at. destruct (_ <=? _) eqn:Eb.
  { apply Z.leb_le in Eb. simpl. split_and!; try done. split; [done|]. lia. }
  apply Z.leb_gt in Eb. unfold blocking_leader.
  destruct (role_of_i32 (rn_role req)) eqn:Er; simpl.
  - split_and!; try done. split; [done|]. naive_solver.
  - destruct (leaders r !! rn_shard_id req) as [cur|] eqn:El.
    2: { simpl. split_and!; try done. split; [|done]. intros _. split_and!; try done.
         intros (_ & ? & ? & _). congruence. }
    destruct (_ && _) eqn:Ea; simpl.
    + apply andb_true_iff in Ea as [E1%Z.leb_le E2].
      apply negb_true_iff, bool_decide_eq_false in E2.
      split_and!; try done. split; [done|]. intros (_ & _ & H). destruct H. eauto.
    + split_and!; try done. split; [|done]. intros _. split_and!; try done.
      intros (_ & cur' & [= <-] & Hne & Hlive). apply Z.leb_le in Hlive.
      rewrite Hlive, bool_decide_false in Ea by done. done.
  - split_and!; try done. split; [|done]. intros _. split_and!; try done. by intros [? _].
Qed.

(** The reaper removes exactly the nodes not heard from within the timeout, leaders
    and followers alike, returns exactly those, and clears their drain markers unless
    the drain set is owned by the replication layer, in which case it is left alone. *)
Theorem reap_exact {HO : HashOrder} (r : Registry) (now timeout : Z) :
  let '(r', removed) := reap_dead r now timeout in
  (∀ s n, leaders r' !! s = Some n ↔
     leaders r !! s = Some n ∧ since now (ni_last_seen n) ≤ timeout) ∧
  (∀ s, followers r' !! s =
     filter (λ n, stale now timeout n = false) <$> followers r !! s) ∧
  (∀ n, n ∈ removed ↔ timeout < since now (ni_last_seen n) ∧
     ((∃ s, leaders r !! s = Some n) ∨ (∃ s l, followers r !! s = Some l ∧ n ∈ l))) ∧
  (∀ i, i ∈ draining r' ↔ i ∈ draining r ∧
     (authority_replicated r = true ∨ i ∉ ni_node_id <$> removed)).
Proof.
  destruct (reap_dead_spec r now timeout) as (F1 & F2 & F3).
  assert (∀ i, i ∈ draining (reap_dead r now timeout).1 ↔ i ∈ draining r ∧
     (authority_replicated r = true ∨ i ∉ ni_node_id <$> (reap_dead r now timeout).2)) as Hd.
  { unfold reap_dead. destruct (foldl _ _ _) as [ls rl]. cbn [fst snd].
    generalize (rl ++ concat ((λ nodes, (reap_list now timeout nodes).2)
                              <$> hm_values (followers r))) as removed.
    intros removed i. destruct (authority_replicated r); simpl; [naive_solver|].
    generalize (draining r). induction removed as [|n k IH]; intros d; simpl.
    { split; [|naive_solver]. intros. split; [done|]. right. apply not_elem_of_nil. }
    rewrite IH, not_elem_of_cons. set_solver. }
  destruct (reap_dead r now timeout) as [r' removed]. cbn [fst snd] in *.
  split_and!; [| | |done].
  - intros s n. rewrite F1, map_lookup_filter_Some. simpl. unfold stale.
    by rewrite Z.ltb_ge.
  - intros s. by rewrite F2, lookup_fmap.
  - intros n. rewrite F3, list_elem_of_filter, elem_of_app, elem_of_hm_values.
    unfold stale. rewrite Z.ltb_lt. apply and_iff_compat_l. apply or_iff_compat_l.
    rewrite list_elem_of_In, in_concat. setoid_rewrite <- list_elem_of_In.
    setoid_rewrite elem_of_hm_values. naive_solver.
Qed.

(** Failover. Promotion gives a leader to every shard that has followers and none,
    choosing that shard's last follower and moving it out of the list; it touches no
    shard that still has a leader, and reports exactly the promotions it made. *)
Theorem promotion_total {HO : HashOrder} (r : Registry) :
  let '(r', promotions) := promote_orphaned_shards r in
  (∀ s l, followers r !! s = Some l → l ≠ [] → is_Some (leaders r' !! s)) ∧
  (∀ s n, leaders r !! s = Some n →
     leaders r' !! s = Some n ∧ followers r' !! s = followers r !! s) ∧
  (∀ s l n, leaders r !! s = None → followers r !! s = Some (l ++ [n]) →
     leaders r' !! s = Some (with_role Leader n) ∧ default [] (followers r' !! s) = l ∧
     (s, ni_node_id n) ∈ promotions) ∧
  (∀ s i, (s, i) ∈ promotions → leaders r !! s = None).
Proof.
  destruct (promote_spec r) as (_ & _ & _ & F4 & F5 & F6).
  destruct (promote_orphaned_shards r) as [r' promotions]. cbn [fst snd] in *.
  split_and!.
  - intros s l Hl Hne. rewrite F4. unfold promotee.
    destruct (leaders r !! s) eqn:E; [done|]. rewrite Hl. simpl.
    destruct (last l) eqn:El; [done|]. by apply last_None in El.
  - intros s n Hs. rewrite F4, F5. unfold promotee. by rewrite Hs.
  - intros s l n Hs Hf.
    assert (promotee r s = Some n) as Hp.
    { apply promotee_spec. rewrite Hf. split; [done|]. eexists. by rewrite last_snoc. }
    split_and!; [by rewrite F4, Hp| |apply F6; eauto].
    rewrite F5, Hp, Hf, length_app. simpl. case_decide; simpl.
    + by destruct l; [|simpl in *; lia].
    + replace (length l + 1 - 1)%nat with (length l) by lia. by rewrite take_app_length.
  - intros s i (n & Hp & _)%F6. by apply promotee_spec in Hp as [? _].
Qed.

(** The routing view of an elected raft leader. When a known node reports that it
    leads, the map ends up routing some shard to it, freshly seen; no shard loses or
    gains a node (a deposed leader becomes a follower); a change is reported exactly
    when the reporter was a follower. An unknown reporter changes nothing. *)
Theorem raft_leader_view {HO : HashOrder} (r : Registry) (i : string) (now : Z) :
  let '(r', changed) := report_raft_leader r i now in
  (knows_node r i = false → r' = r ∧ changed = None) ∧
  (knows_node r i = true →
     ∃ s n, leaders r' !! s = Some n ∧ ni_node_id n = i ∧ ni_last_seen n = now ∧
       (changed = None ∨ changed = Some s)) ∧
  (is_Some changed ↔ knows_node r i = true ∧
     map_Forall (λ _ n, ni_node_id n ≠ i) (leaders r)) ∧
  (∀ s, shard_nodes r' s ≡ₚ shard_nodes r s).
Proof.
  pose proof (knows_node_spec r i) as Hk. unfold report_raft_leader.
  destruct (find_leader r i) as [[s node]|] eqn:E1.
  { apply find_leader_Some in E1 as [E1 Ei]. split_and!.
    - intros Hf. exfalso. rewrite <- not_true_iff_false, Hk in Hf. apply Hf. eauto.
    - intros _. exists s, (touch now node). simpl. rewrite lookup_insert_eq. naive_solver.
    - split; [by intros []|]. intros [_ H]. exfalso. by apply (H s node).
    - intros s'. unfold shard_nodes. simpl. destruct (decide (s = s')) as [<-|].
      + by rewrite lookup_insert_eq, E1.
      + by rewrite lookup_insert_ne. }
  pose proof E1 as Hno%find_leader_None.
  destruct (find_follower r i) as [[s k]|] eqn:E2.
  2: { apply find_follower_None in E2.
       assert (knows_node r i = false) as Hu.
       { rewrite <- not_true_iff_false, Hk. intros [(s & n & H & Hn)|(s & l & n & H & Hin & Hn)].
         - by apply (Hno s n).
         - apply E2 in H. rewrite Forall_forall in H. by apply (H n). }
       rewrite Hu. split_and!; try done. split; [by intros []|]. by intros []. }
  apply find_follower_Some in E2 as (nodes & node & Hn & Hl & Hi).
  rewrite Hn. change (default [] (Some nodes)) with nodes. rewrite Hl.
  assert (knows_node r i = true) as Hu.
  { apply Hk. right. exists s, nodes, node. split_and!; try done.
    by eapply list_elem_of_lookup_2. }
  rewrite Hu. split_and!; try done.
  - intros _. exists s, (touch now (with_role Leader node)). simpl.
    rewrite lookup_insert_eq. naive_solver.
  - intros s'. apply shard_nodes_report; done.
Qed.

(** Reassigning a virtual shard validates exactly as the pre-check that coordinators
    run before proposing it to the group, changes nothing when it fails, and otherwise
    changes that one entry and bumps the placement version: V and N never change. *)
Theorem reassign_spec (r : Registry) (vshard group : Z) (Hv : 0 ≤ vshard) :
  let '(r', res) := reassign_vshard r vshard group in
  res = validate_reassign r vshard group ∧
  (res = Ok () ↔ vshard < Z.of_nat (length (vshards r)) ∧ group < shard_count r) ∧
  (res ≠ Ok () → r' = r) ∧
  (res = Ok () →
     vshards r' !! Z.to_nat vshard = Some group ∧
     (∀ i, i ≠ Z.to_nat vshard → vshards r' !! i = vshards r !! i) ∧
     length (vshards r') = length (vshards r) ∧ shard_count r' = shard_count r ∧
     leaders r' = leaders r ∧ followers r' = followers r ∧ draining r' = draining r ∧
     placement_version r' = wrap_u64 (placement_version r + 1)).
Proof.
  unfold reassign_vshard, validate_reassign. case_bool_decide as E0.
  { rewrite E0. simpl. split_and!; try done. split; [done|lia]. }
  destruct (_ <=? vshard) eqn:E1; [apply Z.leb_le in E1|apply Z.leb_gt in E1].
  { split_and!; try done. split; [done|lia]. }
  destruct (_ <=? group) eqn:E2; [apply Z.leb_le in E2|apply Z.leb_gt in E2].
  { split_and!; try done. split; [done|lia]. }
  split_and!; try done. intros _. simpl. split_and!; try done.
  - apply list_lookup_insert_eq. lia.
  - intros i Hi. by apply list_lookup_insert_ne.
  - apply length_insert.
Qed.

(** ** Witnesses *)

Definition reg_req (id : string) (shard : Z) (role : NodeRole) : RegisterNodeRequest :=
  {| rn_node_id := id; rn_address := id +:+ ":6000"; rn_shard_id := shard;
     rn_role := role_to_i32 role |}.

Lemma registry_invariant_witness :
  @registry_wf 2 4 (foldl (@reg_exec canonical_order) (with_vshards (reg_new 2) 4)
    [OpRegister (reg_req "a" 0 Leader) 0; OpRegister (reg_req "b" 0 Follower) 5;
     OpReport "b" 9; OpReassign 3 0; OpReap 20000 15000; OpPromote;
     OpRestore [0; 1; 1; 0] ["a"%string]]).
Proof.
  apply (@registry_invariant canonical_order 2 4); [done|].
  repeat (apply Forall_cons_2; [simpl; try done; try lia|]); [|constructor].
  split; [|done]. repeat (apply Forall_cons_2; [lia|]). constructor.
Defined.

Lemma reassign_spec_witness :
  (reassign_vshard (with_vshards (reg_new 3) 6) 4 2).2 = Ok () ∧
  vshards (reassign_vshard (with_vshards (reg_new 3) 6) 4 2).1 !! 4%nat = Some 2.
Proof.
  pose proof (reassign_spec (with_vshards (reg_new 3) 6) 4 2 ltac:(lia)) as H.
  vm_compute in H |- *. destruct H as (_ & _ & _ & H). split; [reflexivity|].
  by destruct (H eq_refl).
Defined.

(** A follower that registers again as leader (after the leader it followed went stale)
    stays filed as a follower too: the shard's replicas now include its own leader. *)
Theorem leader_still_follower :
  let r := foldl (@reg_exec canonical_order) (reg_new 1)
    [OpRegister (reg_req "l" 0 Leader) 0; OpRegister (reg_req "f" 0 Follower) 0;
     OpRegister (reg_req "f" 0 Leader) 15001] in
  @leader_addresses canonical_order r = ["f:6000"%string] ∧ follower_addresses r 0 = ["f:6000"%string].
Proof. split; reflexivity. Qed.
