(* ===== verification/Fanout.v ===== *)
(** * Scatter-gather and merging: [crates/coordinator/src/fanout.rs]

    The RPCs are a parameter: what each leader's call came to within the deadline, and
    the order in which the calls completed. Merging is the source's. *)

From S2P Require Export Wire.

(** ** The fan-out *)

(** What one call under the deadline came to. [Panicked] is a task that died: the
    join error the collection loop skips. *)
Inductive Attempt (A : Type) :=
| Answered (a : A)
| Unreachable
| TimedOut
| Panicked.
Arguments Answered {A} a.
Arguments Unreachable {A}.
Arguments TimedOut {A}.
Arguments Panicked {A}.

Definition omitted_shard (address reason : string) : OmittedShard :=
  {| os_address := address; os_reason := reason |}.

Definition panicked {A} (a : Attempt A) : bool :=
  match a with Panicked => true | _ => false end.

(** The joined task: [None] is a join error. *)
Definition query_leader {A} (addr : string) (attempt : Attempt A)
    : option (result A OmittedShard) :=
  match attempt with
  | Answered resp => Some (Ok resp)
  | Unreachable => Some (Err (omitted_shard addr "unreachable"))
  | TimedOut => Some (Err (omitted_shard addr "timeout"))
  | Panicked => None
  end.

Record Fanout (A : Type) := { fo_responses : list A; fo_omitted : list OmittedShard }.
Arguments fo_responses {A} f.
Arguments fo_omitted {A} f.
Arguments Build_Fanout {A} _ _.

(** The [join_next] loop. *)
Definition collect {A} (f : Fanout A) (joined : option (result A OmittedShard)) : Fanout A :=
  match joined with
  | Some (Ok resp) =>
      {| fo_responses := fo_responses f ++ [resp]; fo_omitted := fo_omitted f |}
  | Some (Err o) =>
      {| fo_responses := fo_responses f; fo_omitted := fo_omitted f ++ [o] |}
  | None => f
  end.

(** [order] lists the leaders in the order their calls completed: some permutation of
    the leaders asked. Also [scatter_gather_vector], with its own request type. *)
Definition scatter_gather {Req A} (rpc : string → Req → Attempt A) (order : list string)
    (request : Req) : Fanout A :=
  foldl (λ f addr, collect f (query_leader addr (rpc addr request)))
    {| fo_responses := []; fo_omitted := [] |} order.

Definition scatter_gather_vector (rpc : string → VectorSearchRequest → Attempt SearchResponse)
    (order : list string) (request : VectorSearchRequest) : Fanout SearchResponse :=
  scatter_gather rpc order request.

(** ** Ranking and deduplication *)

Definition icao24_of (hit : SearchHit) : string :=
  match sh_document hit with Some d => fd_icao24 d | None => EmptyString end.

Definition cmp_hits (a b : SearchHit) : comparison :=
  rank_cmp (sh_score a) (icao24_of a) (sh_score b) (icao24_of b).

Definition observed_at_of (hit : SearchHit) : Z :=
  match sh_document hit with Some d => fd_observed_at d | None => 0 end.

Definition supersedes (a b : SearchHit) : bool :=
  let ta := observed_at_of a in
  let tb := observed_at_of b in
  (tb <? ta) || ((ta =? tb) && f64_gtb (sh_score a) (sh_score b)).

(** One hit offered to the map of the best hit per aircraft. *)
Definition dedup_step (best : gmap string SearchHit) (hit : SearchHit) : gmap string SearchHit :=
  match best !! icao24_of hit with
  | Some existing => if supersedes hit existing then <[icao24_of hit := hit]> best else best
  | None => <[icao24_of hit := hit]> best
  end.

Section merge.
Context {HO : HashOrder}.

Definition dedup_by_aircraft (hits : list SearchHit) : list SearchHit :=
  hm_values (foldl dedup_step ∅ hits).

Definition observed_times (hits : list SearchHit) : list Z :=
  filter (λ t, 0 < t)
    (omap (λ h, hp_observed_at <$> sh_provenance h) hits).

Definition build_manifest (hits : list SearchHit) (shards_queried shards_answered : Z)
    (omitted : list OmittedShard) (deduped placement_version elapsed_ms : Z) : QueryManifest :=
  {| qm_shards_queried := shards_queried; qm_shards_answered := shards_answered;
     qm_omitted := omitted; qm_deduped := deduped;
     qm_freshest_observed_at := z_max_or 0 (observed_times hits);
     qm_stalest_observed_at := z_min_or 0 (observed_times hits);
     qm_elapsed_ms := elapsed_ms; qm_placement_version := placement_version |}.

Definition merge_search_responses (fanout : Fanout SearchResponse) (limit : nat)
    (shards_queried placement_version elapsed_ms : Z) : SearchResponse :=
  let responses := fo_responses fanout in
  let shards_answered := len_u32 responses in
  let total_matched :=
    foldl (λ acc r, wrap_u64 (acc + sp_total_matched r)) 0 responses in
  let all := responses ≫= sp_hits in
  let deduped_hits := dedup_by_aircraft all in
  let deduped := wrap_u32 (Z.of_nat (length all - length deduped_hits)) in
  let hits := truncate_limit limit (sort_by cmp_hits deduped_hits) in
  {| sp_hits := hits; sp_total_matched := total_matched; sp_shard_id := "coordinator";
     sp_shards_queried := shards_queried; sp_shards_answered := shards_answered;
     sp_manifest := Some (build_manifest hits shards_queried shards_answered
                            (fo_omitted fanout) deduped placement_version elapsed_ms) |}.

(** ** Progressive merging *)

Record ProgressiveMerge := {
  pm_limit : nat;
  pm_hits : list SearchHit;
  pm_total_matched : Z;
  pm_shards_answered : Z;
  pm_shards_queried : Z;
  pm_omitted : list OmittedShard;
  pm_deduped : Z;
  pm_placement_version : Z;
  pm_started : Z;
}.

Definition pm_new (shards_queried : Z) (limit : nat) (placement_version now : Z)
    : ProgressiveMerge :=
  {| pm_limit := limit; pm_hits := []; pm_total_matched := 0; pm_shards_answered := 0;
     pm_shards_queried := shards_queried; pm_omitted := []; pm_deduped := 0;
     pm_placement_version := placement_version; pm_started := now |}.

Definition pm_omit (m : ProgressiveMerge) (o : OmittedShard) : ProgressiveMerge :=
  {| pm_limit := pm_limit m; pm_hits := pm_hits m; pm_total_matched := pm_total_matched m;
     pm_shards_answered := pm_shards_answered m; pm_shards_queried := pm_shards_queried m;
     pm_omitted := pm_omitted m ++ [o]; pm_deduped := pm_deduped m;
     pm_placement_version := pm_placement_version m; pm_started := pm_started m |}.

Definition pm_add (m : ProgressiveMerge) (resp : SearchResponse) : ProgressiveMerge :=
  let all := pm_hits m ++ sp_hits resp in
  let deduped_hits := dedup_by_aircraft all in
  {| pm_limit := pm_limit m;
     pm_hits := truncate_limit (pm_limit m) (sort_by cmp_hits deduped_hits);
     pm_total_matched := wrap_u64 (pm_total_matched m + sp_total_matched resp);
     pm_shards_answered := wrap_u32 (pm_shards_answered m + 1);
     pm_shards_queried := pm_shards_queried m; pm_omitted := pm_omitted m;
     pm_deduped := wrap_u32 (pm_deduped m
                     + wrap_u32 (Z.of_nat (length all - length deduped_hits)));
     pm_placement_version := pm_placement_version m; pm_started := pm_started m |}.

Definition pm_snapshot (m : ProgressiveMerge) (complete : bool) (now : Z) : SearchUpdate :=
  {| su_hits := pm_hits m; su_total_matched := pm_total_matched m;
     su_shards_answered := pm_shards_answered m; su_shards_queried := pm_shards_queried m;
     su_complete := complete;
     su_manifest :=
       if complete
       then Some (build_manifest (pm_hits m) (pm_shards_queried m) (pm_shards_answered m)
                    (pm_omitted m) (pm_deduped m) (pm_placement_version m)
                    (Z.max 0 (now - pm_started m)))
       else None |}.

End merge.

(** ** Specification *)

Definition scored (h : SearchHit) : Prop := is_nan (sh_score h) = false.

(** Copies of one aircraft that neither supersedes are the same hit. *)
Definition unambiguous (hits : list SearchHit) : Prop :=
  ∀ a b, a ∈ hits → b ∈ hits → icao24_of a = icao24_of b →
    supersedes a b = false → supersedes b a = false → a = b.

(** The representatives deduplication keeps: one per aircraft seen, superseded by
    none of its copies. *)
Definition best_of (hits out : list SearchHit) : Prop :=
  NoDup (icao24_of <$> out) ∧
  (∀ h, h ∈ out → h ∈ hits ∧
     ∀ k, k ∈ hits → icao24_of k = icao24_of h → supersedes k h = false) ∧
  (∀ k, k ∈ hits → icao24_of k ∈ icao24_of <$> out).

(** ** Lemmas *)

(** [supersedes] is a strict order on copies with real scores. *)
Lemma f64_gtb_irrefl x : f64_gtb x x = false.
Proof.
  unfold f64_gtb, SFltb. change (SFcompare x x) with (f64_cmp x x).
  destruct (is_nan x) eqn:E; [by destruct x|]. by rewrite f64_cmp_key, key_cmp_refl.
Qed.

Lemma f64_gtb_false x y :
  is_nan x = false → is_nan y = false →
  f64_gtb x y = false ↔ key_cmp (f64_key x) (f64_key y) ≠ Gt.
Proof.
  intros. unfold f64_gtb, SFltb. change (SFcompare y x) with (f64_cmp y x).
  rewrite f64_cmp_key, (key_cmp_anti (f64_key x)) by done.
  by destruct (key_cmp (f64_key x) (f64_key y)).
Qed.

Lemma supersedes_irrefl h : supersedes h h = false.
Proof.
  unfold supersedes. by rewrite Z.ltb_irrefl, f64_gtb_irrefl, andb_false_r.
Qed.

Lemma supersedes_asym a b : supersedes a b = true → supersedes b a = false.
Proof.
  unfold supersedes. rewrite orb_true_iff, andb_true_iff, orb_false_iff, andb_false_iff.
  rewrite !Z.ltb_lt, Z.eqb_eq, Z.ltb_ge, Z.eqb_neq.
  intros [H|[E H]]; split; try lia. right. unfold f64_gtb, SFltb in *.
  change (SFcompare (sh_score b) (sh_score a)) with (f64_cmp (sh_score b) (sh_score a)) in H.
  change (SFcompare (sh_score a) (sh_score b)) with (f64_cmp (sh_score a) (sh_score b)).
  destruct (is_nan (sh_score a)) eqn:Ha; [by destruct (sh_score a), (sh_score b)|].
  destruct (is_nan (sh_score b)) eqn:Hb; [by destruct (sh_score a), (sh_score b)|].
  rewrite f64_cmp_key in * by done.
  rewrite (key_cmp_anti (f64_key (sh_score b))). by destruct (key_cmp _ _).
Qed.

(** Not being superseded is transitive. *)
Lemma not_supersedes_trans a b c :
  scored a → scored b → scored c →
  supersedes a b = false → supersedes b c = false → supersedes a c = false.
Proof.
  unfold supersedes, scored. intros Ha Hb Hc.
  rewrite !orb_false_iff, !andb_false_iff, !Z.ltb_ge, !Z.eqb_neq.
  rewrite !f64_gtb_false by done. intros [Hab Eab] [Hbc Ebc]. split; [lia|].
  destruct (decide (observed_at_of a = observed_at_of c)) as [E|]; [|by left]. right.
  destruct Eab as [?|Eab]; [lia|]. destruct Ebc as [?|Ebc]; [lia|].
  by eapply key_cmp_trans.
Qed.

(** What the best-per-aircraft map holds after any prefix. *)
Lemma dedup_fold best seen hits :
  Forall scored (seen ++ hits) →
  (∀ key h, best !! key = Some h → icao24_of h = key ∧ h ∈ seen ∧
     ∀ k, k ∈ seen → icao24_of k = key → supersedes k h = false) →
  (∀ k, k ∈ seen → is_Some (best !! icao24_of k)) →
  let out := foldl dedup_step best hits in
  (∀ key h, out !! key = Some h → icao24_of h = key ∧ h ∈ seen ++ hits ∧
     ∀ k, k ∈ seen ++ hits → icao24_of k = key → supersedes k h = false) ∧
  (∀ k, k ∈ seen ++ hits → is_Some (out !! icao24_of k)).
Proof.
  revert best seen. induction hits as [|x hits IH]; intros best seen Hsc Hb Hs.
  { rewrite app_nil_r in *. done. }
  replace (seen ++ x :: hits) with ((seen ++ [x]) ++ hits) in * by (by rewrite <- app_assoc).
  cbn [foldl]. apply IH; [done|..]; clear IH; apply Forall_app in Hsc as [Hsc _];
    rewrite Forall_forall in Hsc.
  - intros key h Hh. unfold dedup_step in Hh.
    destruct (best !! icao24_of x) as [e|] eqn:E.
    + destruct (supersedes x e) eqn:Es.
      * apply lookup_insert_Some in Hh as [[<- <-]|[Hne Hh]].
        -- split_and!; [done|set_solver|]. intros k [Hk|Hk]%elem_of_app Hi.
           ++ destruct (Hb _ _ E) as (Hie & Hin & Hmax).
              apply (not_supersedes_trans k e x);
                [apply Hsc; set_solver..|by apply Hmax|by apply supersedes_asym].
           ++ apply list_elem_of_singleton in Hk as ->. apply supersedes_irrefl.
        -- destruct (Hb _ _ Hh) as (? & ? & Hmax). split_and!; [done|set_solver|].
           intros k [Hk|Hk]%elem_of_app Hi; [by apply Hmax|].
           apply list_elem_of_singleton in Hk as ->. by destruct Hne.
      * destruct (Hb _ _ Hh) as (Hi' & ? & Hmax). split_and!; [done|set_solver|].
        intros k [Hk|Hk]%elem_of_app Hi; [by apply Hmax|].
        apply list_elem_of_singleton in Hk as ->. subst key. rewrite Hi in *. congruence.
    + apply lookup_insert_Some in Hh as [[<- <-]|[Hne Hh]].
      * split_and!; [done|set_solver|]. intros k [Hk|Hk]%elem_of_app Hi.
        -- destruct (Hs k Hk) as [? Hk']. rewrite Hi in Hk'. congruence.
        -- apply list_elem_of_singleton in Hk as ->. apply supersedes_irrefl.
      * destruct (Hb _ _ Hh) as (? & ? & Hmax). split_and!; [done|set_solver|].
        intros k [Hk|Hk]%elem_of_app Hi; [by apply Hmax|].
        apply list_elem_of_singleton in Hk as ->. by destruct Hne.
  - intros k Hk. unfold dedup_step.
    assert (is_Some (best !! icao24_of k) ∨ k = x) as Hor
      by (apply elem_of_app in Hk as [Hk|Hk%list_elem_of_singleton]; auto).
    destruct (best !! icao24_of x) as [e|] eqn:E; [destruct (supersedes x e)|];
      rewrite ?lookup_insert; try case_decide; try by eauto; destruct Hor as [?| ->]; eauto;
      congruence.
Qed.

Section dedup.
Context {HO : HashOrder}.

Lemma dedup_best_of hits : Forall scored hits → best_of hits (dedup_by_aircraft hits).
Proof.
  intros Hsc. unfold dedup_by_aircraft.
  destruct (dedup_fold ∅ [] hits) as [Hb Hs]; simpl; try done.
  { intros k Hk. by apply elem_of_nil in Hk. }
  set (best := foldl dedup_step ∅ hits) in *. simpl in *.
  assert (∀ kh, kh ∈ hm_order best → icao24_of kh.2 = kh.1) as Hkey.
  { intros [k h] Hin%elem_of_hm_order. by apply Hb in Hin as [? _]. }
  assert (icao24_of <$> hm_values best = hm_keys best) as Hkeys.
  { unfold hm_values, hm_keys. rewrite <- list_fmap_compose. by apply fmap_ext_in. }
  split_and!.
  - rewrite Hkeys. apply hm_keys_NoDup.
  - intros h [k Hk]%elem_of_hm_values. apply Hb in Hk as (<- & Hin & Hmax). naive_solver.
  - intros k Hk. rewrite Hkeys. apply elem_of_hm_keys. by apply Hs.
Qed.
End dedup.

Lemma best_of_keys hits out : best_of hits out →
  ∀ key, key ∈ icao24_of <$> out ↔ key ∈ icao24_of <$> hits.
Proof.
  intros (_ & Hin & Hall) key. split.
  - intros (h & -> & Hh)%list_elem_of_fmap. apply list_elem_of_fmap_2. by apply Hin.
  - intros (h & -> & Hh)%list_elem_of_fmap. by apply Hall.
Qed.

Lemma best_of_unique hits hits' out out' :
  hits ≡ₚ hits' → unambiguous hits → best_of hits out → best_of hits' out' → out ≡ₚ out'.
Proof.
  intros Hp Hu Hb Hb'.
  assert (∀ o o', best_of hits o → best_of hits o' → ∀ h, h ∈ o → h ∈ o') as Hsub.
  { intros o o' (_ & Hin & _) (_ & Hin' & Hall') h Hh.
    destruct (Hin h Hh) as [Hhh Hmax].
    apply Hall' in Hhh as Hk. apply list_elem_of_fmap in Hk as (h' & E & Hh').
    destruct (Hin' h' Hh') as [Hhh' Hmax'].
    replace h with h'; [done|]. symmetry. apply Hu; auto. }
  assert (best_of hits out') as Hb2.
  { destruct Hb' as (? & H2 & H3). split; [done|]. setoid_rewrite Hp. by split. }
  apply NoDup_Permutation; [by eapply NoDup_fmap_1, Hb|by eapply NoDup_fmap_1, Hb2|].
  intros h. split; by apply Hsub.
Qed.

(** Hits with distinct keys are strictly ranked. *)
Lemma cmp_hits_total : total_on scored cmp_hits.
Proof. apply (rank_cmp_total sh_score icao24_of). Qed.

Lemma cmp_hits_strict l :
  NoDup (icao24_of <$> l) → strict_on (λ h, scored h ∧ h ∈ l) cmp_hits.
Proof.
  intros Hnd x y [_ Hx] [_ Hy] [_ E]%then_with_eq. apply str_cmp_eq in E.
  apply list_elem_of_lookup in Hx as [i Hi], Hy as [j Hj].
  assert (i = j) as ->; [|congruence].
  eapply (NoDup_lookup _ _ _ _ Hnd); rewrite list_lookup_fmap;
    [by rewrite Hi|by rewrite Hj; simpl; rewrite E].
Qed.

Lemma sort_hits_ext l k :
  Forall scored l → NoDup (icao24_of <$> l) → l ≡ₚ k →
  sort_by cmp_hits l = sort_by cmp_hits k.
Proof.
  intros Hsc Hnd Hp.
  apply (sort_by_ext (λ h, scored h ∧ h ∈ l)).
  - eapply total_on_weaken; [|apply cmp_hits_total]. by intros ? [].
  - by apply cmp_hits_strict.
  - rewrite Forall_forall in Hsc |- *. auto.
  - done.
Qed.

Lemma best_of_scored hits out : Forall scored hits → best_of hits out → Forall scored out.
Proof. rewrite !Forall_forall. intros Hsc (_ & Hin & _) h Hh. by apply Hsc, Hin. Qed.

Lemma best_of_length hits out out' :
  best_of hits out → best_of hits out' → length out = length out'.
Proof.
  intros Hb Hb'. rewrite <- (length_fmap icao24_of out), <- (length_fmap icao24_of out').
  apply Permutation_length, NoDup_Permutation; [apply Hb|apply Hb'|].
  intros k. by rewrite (best_of_keys _ _ Hb), (best_of_keys _ _ Hb').
Qed.

Lemma dedup_sorted_ext (HO HO' : HashOrder) hits hits' :
  Forall scored hits → unambiguous hits → hits ≡ₚ hits' →
  sort_by cmp_hits (@dedup_by_aircraft HO hits) =
  sort_by cmp_hits (@dedup_by_aircraft HO' hits').
Proof.
  intros Hsc Hu Hp.
  pose proof (@dedup_best_of HO hits Hsc) as Hb.
  assert (best_of hits' (@dedup_by_aircraft HO' hits')) as Hb'
    by (apply dedup_best_of; by rewrite <- Hp).
  apply sort_hits_ext; [by eapply best_of_scored|apply Hb|by eapply best_of_unique].
Qed.

(** Deduplicating hits of distinct aircraft only shuffles them. *)
Lemma dedup_distinct (HO : HashOrder) hits :
  Forall scored hits → NoDup (icao24_of <$> hits) → dedup_by_aircraft hits ≡ₚ hits.
Proof.
  intros Hsc Hnd. pose proof (dedup_best_of hits Hsc) as Hb.
  apply NoDup_Permutation; [by eapply NoDup_fmap_1, Hb|by eapply NoDup_fmap_1|].
  intros h. split; [apply Hb|]. intros Hh. destruct Hb as (_ & Hin & Hall).
  destruct (list_elem_of_fmap icao24_of (dedup_by_aircraft hits) (icao24_of h)) as [Hf _].
  destruct (Hf (Hall h Hh)) as (h' & E & Hh'). destruct (Hin h' Hh') as [Hh'' _].
  apply list_elem_of_lookup in Hh as [i Hi], Hh'' as [j Hj].
  assert (i = j) as <-; [|congruence].
  eapply (NoDup_lookup _ _ _ _ Hnd); rewrite list_lookup_fmap;
    [by rewrite Hi|by rewrite Hj; simpl; rewrite E].
Qed.

Lemma scatter_fold {A} (attempts : list (string * Attempt A)) f :
  foldl (λ f p, collect f (query_leader p.1 p.2)) f attempts =
  {| fo_responses := fo_responses f ++
       omap (λ p, match p.2 with Answered r => Some r | _ => None end) attempts;
     fo_omitted := fo_omitted f ++
       omap (λ p, match p.2 with
                  | Unreachable => Some (omitted_shard p.1 "unreachable")
                  | TimedOut => Some (omitted_shard p.1 "timeout")
                  | _ => None end) attempts |}.
Proof.
  revert f. induction attempts as [|[addr att] l IH]; intros f.
  { simpl. rewrite !app_nil_r. by destruct f. }
  cbn [foldl]. rewrite IH. destruct att; simpl; by rewrite <- ?app_assoc.
Qed.

Lemma foldl_fmap {A B C} (f : C → B → C) (g : A → B) c l :
  foldl f c (g <$> l) = foldl (λ c a, f c (g a)) c l.
Proof. revert c. induction l; simpl; auto. Qed.

Definition all_hits (rs : list SearchResponse) : list SearchHit := rs ≫= sp_hits.

Lemma wrap_total (rs : list SearchResponse) t :
  u64_in t → foldl (λ acc r, wrap_u64 (acc + sp_total_matched r)) t rs
             = wrap_u64 (t + z_sum (sp_total_matched <$> rs)).
Proof. intros Ht. unfold wrap_u64. apply foldl_wrap_sum; [lia|]. exact Ht. Qed.

Lemma NoDup_fmap_sublist {A B} (f : A → B) (l k : list A) :
  NoDup (f <$> k) → (∃ r, k ≡ₚ l ++ r) → NoDup (f <$> l).
Proof. intros Hn [r Hr]. rewrite Hr, fmap_app in Hn. by apply NoDup_app in Hn as [? _]. Qed.

Lemma truncate_limit_split {A} limit (l : list A) :
  ∃ r, l ≡ₚ truncate_limit limit l ++ r.
Proof. destruct (truncate_limit_prefix limit l) as [r Hr]. exists r. by rewrite <- Hr. Qed.

(** Cutting some hits to the limit before the others join them loses nothing. *)
Lemma truncate_hits_step limit l k :
  Forall scored (l ++ k) → NoDup (icao24_of <$> l ++ k) →
  truncate_limit limit (sort_by cmp_hits (truncate_limit limit (sort_by cmp_hits l) ++ k)) =
  truncate_limit limit (sort_by cmp_hits (l ++ k)).
Proof.
  intros Hsc Hnd. apply (truncate_sort_incremental (λ h, scored h ∧ h ∈ l ++ k)).
  - eapply total_on_weaken; [|apply cmp_hits_total]. by intros ? [].
  - by apply cmp_hits_strict.
  - rewrite Forall_forall in Hsc |- *. auto.
  - by eapply NoDup_fmap_1.
Qed.

(** A limited merge is the unlimited one, cut. *)
Lemma merge_limited (HO : HashOrder) (f : Fanout SearchResponse) limit q pv ms q' pv' ms' :
  sp_hits (merge_search_responses f limit q pv ms) =
  truncate_limit limit (sp_hits (merge_search_responses f 0 q' pv' ms')).
Proof. unfold merge_search_responses. cbn [sp_hits]. by rewrite truncate_limit_zero. Qed.

(** The running top-k after any number of shards with disjoint aircraft. *)
Lemma pm_hits_spec (HO : HashOrder) q limit pv now rs :
  Forall scored (all_hits rs) → NoDup (icao24_of <$> all_hits rs) →
  pm_hits (foldl pm_add (pm_new q limit pv now) rs) =
  truncate_limit limit (sort_by cmp_hits (all_hits rs)).
Proof.
  induction rs as [|r rs IH] using rev_ind.
  { intros _ _. simpl. symmetry. by destruct limit. }
  unfold all_hits. rewrite bind_app, bind_singleton. intros Hsc Hnd.
  rewrite foldl_snoc. set (m := foldl pm_add _ rs) in *.
  assert (pm_limit m = limit) as Hlim.
  { unfold m. clear. induction rs using rev_ind; [done|]. by rewrite foldl_snoc. }
  unfold pm_add. cbn [pm_hits]. rewrite Hlim.
  pose proof Hsc as [Hsc1 Hsc2]%Forall_app.
  rewrite IH; [|done|]; [|rewrite fmap_app in Hnd; by apply NoDup_app in Hnd as [? _]].
  fold (all_hits rs) in *. set (A := all_hits rs) in *. set (B := sp_hits r) in *.
  destruct (truncate_limit_split limit (sort_by cmp_hits A)) as [D HD].
  set (T := truncate_limit limit (sort_by cmp_hits A)) in *.
  assert (NoDup (icao24_of <$> T ++ B)) as HndT.
  { eapply (NoDup_fmap_sublist _ _ _ Hnd). exists D.
    rewrite <- (sort_by_perm cmp_hits A), HD. solve_Permutation. }
  assert (Forall scored (T ++ B)) as HscT.
  { apply Forall_app. split; [|done]. apply (Forall_sort_by cmp_hits) in Hsc1.
    rewrite HD in Hsc1. by apply Forall_app in Hsc1 as [? _]. }
  rewrite (sort_hits_ext _ (T ++ B)).
  - by apply truncate_hits_step.
  - apply (best_of_scored (T ++ B)); [done|by apply dedup_best_of].
  - by apply dedup_best_of.
  - by apply dedup_distinct.
Qed.

Lemma pm_totals (HO : HashOrder) q limit pv now rs :
  let m := foldl pm_add (pm_new q limit pv now) rs in
  pm_total_matched m = wrap_u64 (z_sum (sp_total_matched <$> rs)) ∧
  pm_shards_answered m = len_u32 rs.
Proof.
  induction rs as [|r rs IH] using rev_ind; [done|]. cbv zeta in *. rewrite foldl_snoc.
  set (m := foldl pm_add _ rs) in *. destruct IH as [E1 E2]. unfold pm_add; cbn [pm_total_matched pm_shards_answered].
  rewrite E1, E2, fmap_app, z_sum_app. unfold len_u32, wrap_u64, wrap_u32.
  rewrite length_app, !Z.add_mod_idemp_l by lia. simpl. unfold z_sum. simpl.
  split; f_equal; lia.
Qed.

(** When no aircraft is on two shards, merging is sorting and truncating. *)
Lemma merge_distinct (HO : HashOrder) (f : Fanout SearchResponse) limit q pv ms :
  Forall scored (all_hits (fo_responses f)) →
  NoDup (icao24_of <$> all_hits (fo_responses f)) →
  sp_hits (merge_search_responses f limit q pv ms) =
  truncate_limit limit (sort_by cmp_hits (all_hits (fo_responses f))).
Proof.
  intros Hsc Hnd. unfold merge_search_responses. cbn [sp_hits]. f_equal.
  apply sort_hits_ext; [|by apply dedup_best_of|by apply dedup_distinct].
  by apply (best_of_scored (all_hits (fo_responses f))), dedup_best_of.
Qed.

(** Without a limit, merging keeps a representative of every aircraft, ranked. *)
Lemma merge_full (HO : HashOrder) (f : Fanout SearchResponse) q pv ms :
  Forall scored (all_hits (fo_responses f)) →
  let out := sp_hits (merge_search_responses f 0 q pv ms) in
  ranked cmp_hits out ∧ best_of (all_hits (fo_responses f)) out.
Proof.
  intros Hsc. pose proof (dedup_best_of _ Hsc) as Hb.
  pose proof (best_of_scored _ _ Hsc Hb) as Hsd. destruct Hb as (Hnd & Hin & Hall).
  unfold merge_search_responses, all_hits in *. cbn [sp_hits]. rewrite truncate_limit_zero.
  split; [eauto using sort_by_ranked, cmp_hits_total|]. split; [|split].
  - by rewrite sort_by_perm.
  - intros h Hh. rewrite elem_of_sort_by in Hh. by apply Hin.
  - intros k Hk. rewrite sort_by_perm. by apply Hall.
Qed.

(** Ranked representatives of the same hits are the same list. *)
Lemma ranked_best_unique hits hits' out out' :
  Forall scored hits → unambiguous hits → hits ≡ₚ hits' →
  ranked cmp_hits out → best_of hits out → ranked cmp_hits out' → best_of hits' out' → out = out'.
Proof.
  intros Hsc Hu Hp Hr Hb Hr' Hb'. pose proof (best_of_scored _ _ Hsc Hb) as Hso.
  apply (ranked_unique (λ h, scored h ∧ h ∈ out) cmp_hits);
    [|apply cmp_hits_strict, Hb| |done|done|by eapply best_of_unique].
  - eapply total_on_weaken; [|apply cmp_hits_total]. by intros ? [].
  - rewrite Forall_forall in Hso |- *. auto.
Qed.

(** What supersedes no copy is no staler. *)
Lemma not_supersedes_observed a b : supersedes a b = false → observed_at_of a ≤ observed_at_of b.
Proof. unfold supersedes. rewrite orb_false_iff, Z.ltb_ge. by intros [? _]. Qed.

(** The fan-out loop on the joined calls. *)
Definition joined_responses {A} (joined : list (option (result A OmittedShard))) : list A :=
  omap (λ j, match j with Some (Ok r) => Some r | _ => None end) joined.
Definition joined_omitted {A} (joined : list (option (result A OmittedShard))) : list OmittedShard :=
  omap (λ j, match j with Some (Err o) => Some o | _ => None end) joined.

Lemma collect_joined {A} (f : Fanout A) joined :
  foldl collect f joined =
  {| fo_responses := fo_responses f ++ joined_responses joined;
     fo_omitted := fo_omitted f ++ joined_omitted joined |}.
Proof.
  revert f. induction joined as [|j l IH]; intros f; cbn [foldl].
  { cbn. rewrite !app_nil_r. by destruct f. }
  rewrite IH. unfold joined_responses, joined_omitted. cbn [omap list_omap].
  destruct j as [[r|o]|]; cbn [collect fo_responses fo_omitted]; by rewrite <- ?app_assoc.
Qed.

Lemma scatter_joined {Req A} (rpc : string → Req → Attempt A) order request :
  let joined := (λ a, query_leader a (rpc a request)) <$> order in
  scatter_gather rpc order request =
  {| fo_responses := joined_responses joined; fo_omitted := joined_omitted joined |}.
Proof.
  intros joined. unfold scatter_gather, joined. rewrite <- foldl_fmap, collect_joined. done.
Qed.

Lemma elem_of_joined_responses {Req A} (rpc : string → Req → Attempt A) order request r :
  r ∈ joined_responses ((λ a, query_leader a (rpc a request)) <$> order) ↔
  ∃ a, a ∈ order ∧ rpc a request = Answered r.
Proof.
  unfold joined_responses. rewrite list_elem_of_omap. split.
  - intros (j & (a & -> & Ha)%list_elem_of_fmap & E). exists a. split; [done|].
    by destruct (rpc a request); simplify_eq/=.
  - intros (a & Ha & E). exists (Some (Ok r)). split; [|done].
    apply list_elem_of_fmap. exists a. by rewrite E.
Qed.

(** ** Properties *)

(** Merging is deterministic. Neither the order in which shards answer nor the seed
    of the hash map changes the hits returned, their order, the totals or the manifest's
    coverage and freshness, as long as scores are numbers and copies of an aircraft that
    tie on freshness and score are identical. *)
Theorem merge_order_independent (HO HO' : HashOrder) (f f' : Fanout SearchResponse)
    (limit : nat) (q pv ms : Z)
    (Hp : fo_responses f ≡ₚ fo_responses f') (Ho : fo_omitted f ≡ₚ fo_omitted f')
    (Hsc : Forall scored (all_hits (fo_responses f)))
    (Hu : unambiguous (all_hits (fo_responses f))) :
  let r := @merge_search_responses HO f limit q pv ms in
  let r' := @merge_search_responses HO' f' limit q pv ms in
  sp_hits r = sp_hits r' ∧ sp_total_matched r = sp_total_matched r' ∧
  sp_shards_answered r = sp_shards_answered r' ∧
  ∃ m m', sp_manifest r = Some m ∧ sp_manifest r' = Some m' ∧
    qm_omitted m ≡ₚ qm_omitted m' ∧ qm_deduped m = qm_deduped m' ∧
    qm_freshest_observed_at m = qm_freshest_observed_at m' ∧
    qm_stalest_observed_at m = qm_stalest_observed_at m'.
Proof.
  assert (all_hits (fo_responses f) ≡ₚ all_hits (fo_responses f')) as Hah
    by (unfold all_hits; by rewrite Hp).
  pose proof (dedup_sorted_ext HO HO' _ _ Hsc Hu Hah) as Hs.
  assert (length (fo_responses f) = length (fo_responses f')) as Hl
    by (by apply Permutation_length).
  assert (length (@dedup_by_aircraft HO (all_hits (fo_responses f))) =
          length (@dedup_by_aircraft HO' (all_hits (fo_responses f')))) as Hd.
  { by rewrite <- (sort_by_length cmp_hits), Hs, (sort_by_length cmp_hits). }
  intros r r'. unfold r, r', merge_search_responses, all_hits, len_u32 in *.
  cbn [sp_hits sp_total_matched sp_shards_answered sp_manifest].
  split_and!; [by rewrite Hs| |by rewrite Hl|].
  - rewrite !wrap_total by done. do 2 f_equal. apply z_sum_perm. by rewrite Hp.
  - eexists _, _. split_and!; [done|done|done|..];
      unfold build_manifest; cbn [qm_deduped qm_freshest_observed_at qm_stalest_observed_at];
      [|by rewrite Hs..].
    by rewrite Hd, (Permutation_length Hah).
Qed.

(** C37: what a merged result contains. The hits are ranked, at most [limit] of them
    unless the limit is 0, one per aircraft, each taken from some shard's response and
    superseded by no other copy of that aircraft in any response; without a limit every
    aircraft any shard returned is there; with one, the result is the first [limit] of
    the unlimited result. The accounting is of the responses alone: the shards asked and
    the responses merged, in the reply and its manifest, the omissions as collected, the
    sum of the shards' totals, every duplicate removed, and the bounds of the times at
    which the hits returned were observed. *)
Theorem merge_correct (HO : HashOrder) (f : Fanout SearchResponse) (limit : nat) (q pv ms : Z)
    (Hsc : Forall scored (all_hits (fo_responses f))) :
  let hits := sp_hits (merge_search_responses f limit q pv ms) in
  let full := sp_hits (merge_search_responses f 0 q pv ms) in
  ranked cmp_hits hits ∧ (limit ≠ 0%nat → hits = take limit full) ∧
  NoDup (icao24_of <$> hits) ∧
  (∀ h, h ∈ hits → h ∈ all_hits (fo_responses f) ∧
     ∀ k, k ∈ all_hits (fo_responses f) → icao24_of k = icao24_of h → supersedes k h = false) ∧
  (∀ k, k ∈ all_hits (fo_responses f) → icao24_of k ∈ icao24_of <$> full) ∧
  let r := merge_search_responses f limit q pv ms in
  sp_shards_queried r = q ∧ sp_shards_answered r = wrap_u32 (Z.of_nat (length (fo_responses f))) ∧
  sp_total_matched r = wrap_u64 (z_sum (sp_total_matched <$> fo_responses f)) ∧
  ∃ m, sp_manifest r = Some m ∧
    qm_shards_queried m = q ∧ qm_shards_answered m = sp_shards_answered r ∧
    qm_omitted m = fo_omitted f ∧ qm_placement_version m = pv ∧ qm_elapsed_ms m = ms ∧
    (∀ t, t ∈ observed_times hits → qm_stalest_observed_at m ≤ t ≤ qm_freshest_observed_at m) ∧
    (observed_times hits ≠ [] →
     qm_stalest_observed_at m ∈ observed_times hits ∧ qm_freshest_observed_at m ∈ observed_times hits) ∧
    (Z.of_nat (length (all_hits (fo_responses f))) < 2 ^ 32 →
     qm_deduped m = Z.of_nat (length (all_hits (fo_responses f)) - length full)).
Proof.
  pose proof (dedup_best_of _ Hsc) as Hb.
  pose proof (best_of_scored _ _ Hsc Hb) as Hsd. destruct Hb as (Hnd & Hin & Hall).
  unfold merge_search_responses, all_hits in *. cbn [sp_hits sp_manifest fmap option_fmap option_map].
  rewrite truncate_limit_zero. set (D := dedup_by_aircraft _) in *.
  assert (NoDup (icao24_of <$> sort_by cmp_hits D)) as Hnds by by rewrite sort_by_perm.
  split_and!.
  - eauto using ranked_truncate, sort_by_ranked, cmp_hits_total.
  - intros. by apply truncate_limit_take.
  - eapply NoDup_fmap_sublist; [exact Hnds|]. apply truncate_limit_split.
  - intros h Hh%elem_of_truncate_limit. apply Hin. by apply (elem_of_sort_by cmp_hits).
  - intros k Hk. rewrite sort_by_perm. by apply Hall.
  - done.
  - done.
  - by rewrite wrap_total.
  - eexists. split; [done|]. unfold build_manifest.
    cbn [qm_shards_queried qm_shards_answered qm_omitted qm_placement_version qm_elapsed_ms
         qm_freshest_observed_at qm_stalest_observed_at qm_deduped].
    split_and!; [done..|intros t; apply z_between|intros Hne; by split; [apply z_min_or_elem|apply z_max_or_elem]|].
    intros Hlen. unfold wrap_u32. rewrite sort_by_length. apply Z.mod_small. lia.
Qed.

(** Streaming is incremental batch merging. When shards hold disjoint aircraft, the
    running top-k after any prefix of the answers is the batch merge of that prefix, hit
    for hit, whatever the limit: truncating as it goes loses nothing. *)
Theorem progressive_agrees (HO : HashOrder) (rs : list SearchResponse) (limit : nat)
    (q pv now ms : Z) (omitted : list OmittedShard)
    (Hsc : Forall scored (all_hits rs)) (Hnd : NoDup (icao24_of <$> all_hits rs)) :
  let batch := merge_search_responses {| fo_responses := rs; fo_omitted := omitted |}
                 limit q pv ms in
  let streamed := pm_snapshot (foldl pm_add (pm_new q limit pv now) rs) true (now + ms) in
  su_hits streamed = sp_hits batch ∧ su_total_matched streamed = sp_total_matched batch ∧
  su_shards_answered streamed = sp_shards_answered batch.
Proof.
  cbv zeta. unfold pm_snapshot. cbn [su_hits su_total_matched su_shards_answered].
  destruct (pm_totals HO q limit pv now rs) as [-> ->].
  rewrite (pm_hits_spec HO), merge_distinct by done. unfold merge_search_responses.
  cbn [sp_total_matched sp_shards_answered fo_responses]. split_and!; [done|by rewrite wrap_total|done].
Qed.

Definition copy (id : string) (score t : Z) : SearchHit :=
  {| sh_document := Some {| fd_icao24 := id; fd_callsign := ""; fd_observed_at := t;
       fd_latitude := f64_zero; fd_longitude := f64_zero; fd_altitude := f64_zero;
       fd_origin := ""; fd_destination := ""; fd_aircraft_type := "";
       fd_velocity := f64_zero; fd_heading := f64_zero; fd_vertical_rate := f64_zero;
       fd_on_ground := false; fd_tenant_id := ""; fd_text := ∅; fd_number := ∅ |};
     sh_score := f64_of_Z score; sh_provenance := None |}.

Definition shard_answer (hits : list SearchHit) : SearchResponse :=
  {| sp_hits := hits; sp_total_matched := len_u64 hits; sp_shard_id := "";
     sp_shards_queried := 0; sp_shards_answered := 0; sp_manifest := None |}.

(** While a virtual shard moves and two groups hold copies of an aircraft, streaming
    can miss a hit the batch merge returns: a fresher copy that ranks lower frees a slot
    that an already-truncated hit should take. Here the second shard's newer copy of [x]
    drops below [y], and the batch top-1 is [y] while the stream answers [x]. *)
Theorem progressive_diverges :
  let rs := [shard_answer [copy "x" 5 1; copy "y" 3 1]; shard_answer [copy "x" 1 2]] in
  icao24_of <$> pm_hits (foldl (@pm_add canonical_order) (pm_new 2 1 0 0) rs) = ["x"%string] ∧
  icao24_of <$> sp_hits (@merge_search_responses canonical_order
    {| fo_responses := rs; fo_omitted := [] |} 1 2 0 0) = ["y"%string].
Proof. vm_compute. split; reflexivity. Qed.

(** Availability accounting. Whatever each call came to, every leader is accounted
    for exactly once: its response is collected, or it is named among the omissions with
    the right reason, or its task died; nothing else is reported. *)
Theorem scatter_accounts {Req A} (rpc : string → Req → Attempt A) (order : list string)
    (request : Req) :
  let f := scatter_gather rpc order request in
  (length (fo_responses f) + length (fo_omitted f) +
   length (filter (λ a, panicked (rpc a request) = true) order) = length order)%nat ∧
  (∀ r, r ∈ fo_responses f ↔ ∃ a, a ∈ order ∧ rpc a request = Answered r) ∧
  (∀ a, a ∈ order → rpc a request = TimedOut → omitted_shard a "timeout" ∈ fo_omitted f) ∧
  (∀ a, a ∈ order → rpc a request = Unreachable →
     omitted_shard a "unreachable" ∈ fo_omitted f).
Proof.
  cbv zeta. assert (scatter_gather rpc order request = foldl (λ f p, collect f (query_leader p.1 p.2))
    {| fo_responses := []; fo_omitted := [] |} ((λ a, (a, rpc a request)) <$> order)) as ->
    by (by rewrite foldl_fmap).
  rewrite scatter_fold. cbn [fo_responses fo_omitted app]. split_and!.
  - induction order as [|a order IH]; [done|]. rewrite filter_cons. cbn.
    destruct (rpc a request) eqn:E; simpl; cbn in IH; try case_decide; simpl; lia || congruence.
  - intros r. rewrite list_elem_of_omap. split.
    + intros ([a att] & (a' & [= -> ->] & Ha)%list_elem_of_fmap & E). simpl in E.
      exists a'. by destruct (rpc a' request); simplify_eq.
    + intros (a & Ha & E). exists (a, rpc a request). simpl. rewrite E. split; [|done].
      apply list_elem_of_fmap. exists a. by rewrite E.
  - intros a Ha E. apply list_elem_of_omap. exists (a, TimedOut). split; [|done].
    apply list_elem_of_fmap. exists a. by rewrite E.
  - intros a Ha E. apply list_elem_of_omap. exists (a, Unreachable). split; [|done].
    apply list_elem_of_fmap. exists a. by rewrite E.
Qed.

(** ** Witnesses *)

Definition two_shards : Fanout SearchResponse :=
  {| fo_responses := [shard_answer [copy "a" 3 1; copy "b" 2 1]; shard_answer [copy "a" 1 2]];
     fo_omitted := [] |}.
Definition two_shards_swapped : Fanout SearchResponse :=
  {| fo_responses := [shard_answer [copy "a" 1 2]; shard_answer [copy "a" 3 1; copy "b" 2 1]];
     fo_omitted := [] |}.

Lemma two_shards_scored : Forall scored (all_hits (fo_responses two_shards)).
Proof. repeat constructor. Qed.

Lemma two_shards_unambiguous : unambiguous (all_hits (fo_responses two_shards)).
Proof.
  intros a b.
  change (all_hits (fo_responses two_shards)) with [copy "a" 3 1; copy "b" 2 1; copy "a" 1 2].
  rewrite !elem_of_cons. intros [->|[->|[->|?%elem_of_nil]]]; try done.
  all: intros [->|[->|[->|?%elem_of_nil]]]; try done.
Qed.

Lemma merge_order_independent_witness :
  sp_hits (@merge_search_responses canonical_order two_shards 1 2 0 0) =
  sp_hits (@merge_search_responses canonical_order two_shards_swapped 1 2 0 0).
Proof.
  destruct (merge_order_independent canonical_order canonical_order two_shards
    two_shards_swapped 1 2 0 0 (Permutation_swap _ _ []) (Permutation_refl [])
    two_shards_scored two_shards_unambiguous) as [H _].
  exact H.
Defined.

Lemma merge_correct_witness :
  ranked cmp_hits (sp_hits (@merge_search_responses canonical_order two_shards 1 2 0 0)).
Proof.
  destruct (merge_correct canonical_order two_shards 1 2 0 0 two_shards_scored) as [H _].
  exact H.
Defined.

Lemma progressive_agrees_witness :
  su_hits (pm_snapshot (foldl (@pm_add canonical_order) (pm_new 2 1 0 0)
    [shard_answer [copy "a" 3 1]; shard_answer [copy "b" 4 2]]) true 5) =
  sp_hits (@merge_search_responses canonical_order
    {| fo_responses := [shard_answer [copy "a" 3 1]; shard_answer [copy "b" 4 2]];
       fo_omitted := [] |} 1 2 0 5).
Proof.
  destruct (progressive_agrees canonical_order
    [shard_answer [copy "a" 3 1]; shard_answer [copy "b" 4 2]] 1 2 0 0 5 []) as [H _].
  - repeat constructor.
  - cbn. repeat (apply NoDup_cons; split; [set_solver|]). constructor.
  - exact H.
Defined.
