(* ===== verification/Agg.v ===== *)
(** * Aggregation: [crates/shard-node/src/agg.rs] and [crates/coordinator/src/agg.rs]

    One shard's partial aggregate, and the coordinator's merge of the partials. [None]
    is a panic of the digest's sort on a NaN mean. *)

From S2P Require Export TDigest Fanout.
#[local] Open Scope Z_scope.

Section agg.
Context {HO : HashOrder} {FL : FloatLib}.
#[local] Instance digest_arithmetic : Num := f64_num.

(** ** The shard's partial *)

Definition text_field (doc : FlightDocument) (field : string) : option string :=
  if decide (field = "callsign")%string then Some (fd_callsign doc)
  else if decide (field = "origin")%string then Some (fd_origin doc)
  else if decide (field = "destination")%string then Some (fd_destination doc)
  else if decide (field = "aircraft_type")%string then Some (fd_aircraft_type doc)
  else if decide (field = "tenant_id")%string then Some (fd_tenant_id doc)
  else fd_text doc !! field.

Definition numeric_field (doc : FlightDocument) (field : string) : option f64 :=
  if decide (field = "altitude")%string then Some (fd_altitude doc)
  else if decide (field = "velocity")%string then Some (fd_velocity doc)
  else if decide (field = "heading")%string then Some (fd_heading doc)
  else if decide (field = "vertical_rate")%string then Some (fd_vertical_rate doc)
  else if decide (field = "latitude")%string then Some (fd_latitude doc)
  else if decide (field = "longitude")%string then Some (fd_longitude doc)
  else if decide (field = "observed_at")%string then Some (f64_of_Z (fd_observed_at doc))
  else fd_number doc !! field.

Definition bucket_width (interval : f64) : f64 :=
  if f64_gtb interval f64_zero then interval else f64_one.

Definition bucket_key (value interval : f64) : string :=
  let w := bucket_width interval in
  f64_display (f64_mul (f64_floor (f64_div value w)) w).

(** The bucket one document falls into, under a request. *)
Definition doc_bucket (req : AggregateRequest) (doc : FlightDocument) : option string :=
  match agg_kind_of_i32 (ar_kind req) with
  | AggUnspecified | AggCount | AggPercentiles => None
  | AggValueCounts => text_field doc (ar_field req)
  | AggTimeHistogram => Some (bucket_key (f64_of_Z (fd_observed_at doc)) (ar_interval req))
  | AggNumericHistogram =>
      v ← numeric_field doc (ar_field req); Some (bucket_key v (ar_interval req))
  | AggGeoGrid =>
      let cell := bucket_width (ar_interval req) in
      let lat := f64_mul (f64_floor (f64_div (fd_latitude doc) cell)) cell in
      let lon := f64_mul (f64_floor (f64_div (fd_longitude doc) cell)) cell in
      Some (f64_display lat +:+ "," +:+ f64_display lon)
  end%string.

(** The sample one document contributes to a percentile digest. *)
Definition doc_sample (req : AggregateRequest) (doc : FlightDocument) : option f64 :=
  match agg_kind_of_i32 (ar_kind req) with
  | AggPercentiles => numeric_field doc (ar_field req)
  | _ => None
  end.

Record agg_state := {
  as_count : Z;
  as_buckets : gmap string Z;
  as_digest : TDigest digest_arithmetic;
}.

Definition agg_init : agg_state :=
  {| as_count := 0; as_buckets := ∅; as_digest := td_new |}.

(** The body of the loop over the documents. *)
Definition agg_step (req : AggregateRequest) (st : option agg_state) (doc : FlightDocument)
    : option agg_state :=
  s ← st;
  d ← match doc_sample req doc with
      | Some v => td_add (as_digest s) v
      | None => Some (as_digest s)
      end;
  Some {| as_count := wrap_u64 (as_count s + 1);
          as_buckets := match doc_bucket req doc with
                        | Some k => bump wrap_u64 k 1 (as_buckets s)
                        | None => as_buckets s
                        end;
          as_digest := d |}.

Definition is_percentiles (k : AggKind) : bool := bool_decide (k = AggPercentiles).

Definition partial (docs : list FlightDocument) (req : AggregateRequest)
    : option AggregatePartial :=
  let kind := agg_kind_of_i32 (ar_kind req) in
  s ← foldl (agg_step req) (Some agg_init) docs;
  digest_msg ←
    (if is_percentiles kind
     then p ← td_to_parts (as_digest s);
          Some (Some {| tm_centroid_mean := p.2.1; tm_centroid_weight := p.2.2 |})
     else Some None);
  Some {| ap_kind := agg_kind_to_i32 kind; ap_count := as_count s;
          ap_buckets := as_buckets s; ap_digest := digest_msg |}.

(** ** The coordinator's merge *)

(** [scatter_aggregate]: the search fan-out with an optional partial per answer. *)
Definition scatter_aggregate
    (rpc : string → AggregateRequest → Attempt (option AggregatePartial))
    (order : list string) (request : AggregateRequest)
    : list AggregatePartial * list OmittedShard :=
  let f := scatter_gather rpc order request in
  (omap id (fo_responses f), fo_omitted f).

Definition merge_step (st : option agg_state) (p : AggregatePartial) : option agg_state :=
  s ← st;
  d ← match ap_digest p with
      | Some t => shard ← td_from_parts (tm_centroid_mean t) (tm_centroid_weight t);
                  td_merge (as_digest s) shard
      | None => Some (as_digest s)
      end;
  Some {| as_count := wrap_u64 (as_count s + ap_count p);
          as_buckets := foldl (λ m kv, bump wrap_u64 kv.1 kv.2 m) (as_buckets s)
                          (hm_order (ap_buckets p));
          as_digest := d |}.

Definition merge_partials (kind : AggKind) (partials : list AggregatePartial)
    (requested_percentiles : list f64) : option (AggregatePartial * list Percentile) :=
  s ← foldl merge_step (Some agg_init) partials;
  let digest := as_digest s in
  let percentiles :=
    if is_percentiles kind && negb (td_is_empty digest)
    then (λ p, {| pc_p := p; pc_value := td_quantile digest (f64_div p (f64_of_Z 100)) |})
           <$> requested_percentiles
    else [] in
  parts ← td_to_parts digest;
  let digest_msg :=
    if is_percentiles kind
    then Some {| tm_centroid_mean := parts.2.1; tm_centroid_weight := parts.2.2 |}
    else None in
  Some ({| ap_kind := agg_kind_to_i32 kind; ap_count := as_count s;
           ap_buckets := as_buckets s; ap_digest := digest_msg |}, percentiles).

End agg.

(** ** Bucket arithmetic *)

(** What a sequence of increments adds to one bucket. *)
Definition weight_of (k : string) (l : list (string * Z)) : Z :=
  z_sum (filter (λ kv, kv.1 = k) l).*2.

Definition bump_all (m : gmap string Z) (l : list (string * Z)) : gmap string Z :=
  foldl (λ m kv, bump wrap_u64 kv.1 kv.2 m) m l.

Lemma weight_of_app k l l' : weight_of k (l ++ l') = weight_of k l + weight_of k l'.
Proof. unfold weight_of. by rewrite filter_app, fmap_app, z_sum_app. Qed.

Lemma weight_of_perm k l l' : l ≡ₚ l' → weight_of k l = weight_of k l'.
Proof. intros H. unfold weight_of. apply z_sum_perm. by rewrite H. Qed.

Lemma weight_of_cons k k' v l :
  weight_of k ((k', v) :: l) = (if decide (k' = k) then v else 0) + weight_of k l.
Proof.
  unfold weight_of, z_sum. rewrite filter_cons. simpl. by case_decide.
Qed.

Lemma bump_all_lookup m l k :
  bump_all m l !! k =
  if decide (k ∈ l.*1) then Some (wrap_u64 (default 0 (m !! k) + weight_of k l)) else m !! k.
Proof.
  unfold bump_all. revert m. induction l as [|[k' v] l IH]; intros m.
  { rewrite decide_False; [done|]. apply not_elem_of_nil. }
  cbn [foldl fst snd]. rewrite IH, !bump_lookup, weight_of_cons. cbn [fmap list_fmap fst].
  destruct (decide (k' = k)) as [->|Hne].
  - rewrite (decide_True (P := k ∈ k :: l.*1)) by left. unfold wrap_u64. case_decide.
    + cbn [default from_option id]. rewrite Z.add_mod_idemp_l by lia. do 2 f_equal. lia.
    + assert (weight_of k l = 0) as ->; [|do 2 f_equal; lia].
      unfold weight_of. rewrite filter_none; [done|]. apply Forall_forall.
      intros [k2 v2] Hin E. simpl in E. subst. destruct H. by apply (list_elem_of_fmap_2 fst) in Hin.
  - rewrite Z.add_0_l. destruct (decide (k ∈ l.*1)); [rewrite decide_True by by right|
      rewrite decide_False by (by intros [?|?]%elem_of_cons)]; done.
Qed.

Lemma bump_all_perm m l l' : l ≡ₚ l' → bump_all m l = bump_all m l'.
Proof.
  intros H. apply map_eq. intros k. rewrite !bump_all_lookup, (weight_of_perm _ _ _ H).
  assert (k ∈ l.*1 ↔ k ∈ l'.*1) as Hk by by rewrite H.
  destruct (decide (k ∈ l.*1)), (decide (k ∈ l'.*1)); tauto || done.
Qed.

Lemma bump_all_app m l l' : bump_all m (l ++ l') = bump_all (bump_all m l) l'.
Proof. apply foldl_app. Qed.

(** Shipping a finished bucket map instead of its increments changes nothing. *)
Lemma bump_all_summary {HO : HashOrder} m l :
  bump_all m (hm_order (bump_all ∅ l)) = bump_all m l.
Proof.
  apply map_eq. intros k. rewrite !bump_all_lookup.
  assert (k ∈ (hm_order (bump_all ∅ l)).*1 ↔ k ∈ l.*1) as Hk.
  { change ((hm_order (bump_all ∅ l)).*1) with (hm_keys (bump_all ∅ l)).
    rewrite elem_of_hm_keys, bump_all_lookup. case_decide; [naive_solver|].
    rewrite lookup_empty. split; [by intros []|done]. }
  destruct (decide (k ∈ l.*1)) as [Hin|]; [rewrite decide_True by tauto|by rewrite decide_False by tauto].
  assert (weight_of k (hm_order (bump_all ∅ l)) = wrap_u64 (weight_of k l)) as ->.
  { rewrite (weight_of_perm _ _ (map_to_list (bump_all ∅ l))) by apply hm_order_perm.
    assert (bump_all ∅ l !! k = Some (wrap_u64 (weight_of k l))) as Hl
      by (rewrite bump_all_lookup, decide_True by done; done).
    rewrite <- (insert_delete_id _ _ _ Hl) at 1.
    rewrite (weight_of_perm _ _ _ (map_to_list_insert _ _ _ (lookup_delete_eq _ _))).
    rewrite weight_of_cons, decide_True by done.
    assert (weight_of k (map_to_list (delete k (bump_all ∅ l))) = 0) as ->; [|lia].
    unfold weight_of. rewrite filter_none; [done|]. apply Forall_forall.
    intros [k2 v2] Hin2%elem_of_map_to_list E. simpl in E. subst.
    by rewrite lookup_delete_eq in Hin2. }
  unfold wrap_u64. by rewrite Z.add_mod_idemp_r by lia.
Qed.

(** ** The two folds in closed form *)

Section folds.
Context {HO : HashOrder} {FL : FloatLib}.
#[local] Existing Instance digest_arithmetic.

Definition increments (req : AggregateRequest) (docs : list FlightDocument)
    : list (string * Z) :=
  (λ k, (k, 1)) <$> omap (doc_bucket req) docs.

Lemma doc_sample_none req doc :
  agg_kind_of_i32 (ar_kind req) ≠ AggPercentiles → doc_sample req doc = None.
Proof. unfold doc_sample. by destruct (agg_kind_of_i32 (ar_kind req)). Qed.

Lemma agg_fold_samples req docs s :
  u64_in (as_count s) →
  foldl (agg_step req) (Some s) docs =
  (d ← td_add_all (as_digest s) (omap (doc_sample req) docs);
   Some {| as_count := wrap_u64 (as_count s + Z.of_nat (length docs));
           as_buckets := bump_all (as_buckets s) (increments req docs);
           as_digest := d |}).
Proof.
  revert s. induction docs as [|doc docs IH]; intros s Hs.
  { destruct s as [c b d]. cbn in *. unfold wrap_u64. rewrite Z.add_0_r, Z.mod_small; done. }
  assert (∀ d, foldl (agg_step req) (Some {| as_count := wrap_u64 (as_count s + 1);
      as_buckets := match doc_bucket req doc with
                    | Some k => bump wrap_u64 k 1 (as_buckets s)
                    | None => as_buckets s
                    end; as_digest := d |}) docs =
    (d' ← td_add_all d (omap (doc_sample req) docs);
     Some {| as_count := wrap_u64 (as_count s + Z.of_nat (length (doc :: docs)));
             as_buckets := bump_all (as_buckets s) (increments req (doc :: docs));
             as_digest := d' |})) as Hstep.
  { intros d. rewrite IH by (apply Z.mod_pos_bound; lia). cbn [as_count as_buckets as_digest].
    destruct (td_add_all _ _); [|done]. cbn [mbind option_bind]. f_equal. f_equal.
    - unfold wrap_u64. rewrite Z.add_mod_idemp_l by lia. f_equal. cbn [length]. lia.
    - unfold increments. cbn. by destruct (doc_bucket req doc). }
  cbn [foldl]. unfold agg_step at 2. cbn [mbind option_bind omap list_omap].
  destruct (doc_sample req doc) as [v|]; [|apply Hstep].
  rewrite (@td_add_all_cons digest_arithmetic).
  destruct (td_add (as_digest s) v) as [d|]; [apply Hstep|]. cbn [mbind option_bind]. clear.
  by induction docs.
Qed.

Lemma agg_fold req docs s :
  agg_kind_of_i32 (ar_kind req) ≠ AggPercentiles → u64_in (as_count s) →
  foldl (agg_step req) (Some s) docs =
  Some {| as_count := wrap_u64 (as_count s + Z.of_nat (length docs));
          as_buckets := bump_all (as_buckets s) (increments req docs);
          as_digest := as_digest s |}.
Proof.
  intros Hk Hs. rewrite agg_fold_samples by done.
  replace (omap (doc_sample req) docs) with (@nil f64); [done|].
  induction docs as [|doc docs IH]; [done|]. cbn. by rewrite doc_sample_none.
Qed.

(** The parts of the digest a partial carries. *)
Definition parts_of (p : AggregatePartial) : option (list num * list num) :=
  (λ t, (tm_centroid_mean t, tm_centroid_weight t)) <$> ap_digest p.

Lemma merge_fold ps s :
  u64_in (as_count s) →
  foldl merge_step (Some s) ps =
  (d ← foldl gather_step (Some (as_digest s)) (omap parts_of ps);
   Some {| as_count := wrap_u64 (as_count s + z_sum (ap_count <$> ps));
           as_buckets := bump_all (as_buckets s) (ps ≫= λ p, hm_order (ap_buckets p));
           as_digest := d |}).
Proof.
  revert s. induction ps as [|p ps IH]; intros s Hs.
  { destruct s as [c b d]. cbn in *. unfold wrap_u64, z_sum. cbn.
    rewrite Z.add_0_r, Z.mod_small; done. }
  assert (∀ d, foldl merge_step (Some {| as_count := wrap_u64 (as_count s + ap_count p);
      as_buckets := foldl (λ m kv, bump wrap_u64 kv.1 kv.2 m) (as_buckets s) (hm_order (ap_buckets p));
      as_digest := d |}) ps =
    (d' ← foldl gather_step (Some d) (omap parts_of ps);
     Some {| as_count := wrap_u64 (as_count s + z_sum (ap_count <$> p :: ps));
             as_buckets := bump_all (as_buckets s) ((p :: ps) ≫= λ p, hm_order (ap_buckets p));
             as_digest := d' |})) as Hstep.
  { intros d. rewrite IH by (apply Z.mod_pos_bound; lia). cbn [as_count as_buckets as_digest].
    destruct (foldl gather_step _ _); [|done]. cbn [mbind option_bind]. f_equal. f_equal.
    - unfold wrap_u64, z_sum. cbn. rewrite Z.add_mod_idemp_l by lia. f_equal. lia.
    - cbn [mbind list_bind]. by rewrite bump_all_app. }
  cbn [foldl omap list_omap]. unfold merge_step at 2. cbn [mbind option_bind]. unfold parts_of at 1.
  destruct (ap_digest p) as [t|]; cbn [fmap option_fmap option_map]; [|apply Hstep].
  cbn [foldl]. unfold gather_step at 2. cbn [mbind option_bind fst snd].
  destruct (@td_from_parts digest_arithmetic (tm_centroid_mean t) (tm_centroid_weight t)) as [shard|];
    cbn [mbind option_bind]; [destruct (td_merge (as_digest s) shard) as [d|]; [apply Hstep|]|];
    cbn [mbind option_bind]; rewrite (@gather_none digest_arithmetic); clear; by induction ps.
Qed.

(** A partial that carries no digest, written out. *)
Definition plain_partial (req : AggregateRequest) (docs : list FlightDocument) : AggregatePartial :=
  {| ap_kind := agg_kind_to_i32 (agg_kind_of_i32 (ar_kind req));
     ap_count := len_u64 docs; ap_buckets := bump_all ∅ (increments req docs);
     ap_digest := None |}.

Lemma partial_plain req docs :
  agg_kind_of_i32 (ar_kind req) ≠ AggPercentiles →
  partial docs req = Some (plain_partial req docs).
Proof.
  intros Hk. unfold partial. rewrite agg_fold by done. cbn [mbind option_bind as_count].
  unfold is_percentiles. by rewrite bool_decide_false.
Qed.

(** Only the documents matter, not their order. *)
Lemma plain_partial_perm req docs docs' :
  docs ≡ₚ docs' → plain_partial req docs = plain_partial req docs'.
Proof.
  intros H. unfold plain_partial. f_equal; [unfold len_u64; by rewrite H|].
  apply bump_all_perm. unfold increments. by rewrite H.
Qed.

Lemma len_concat {A} (ls : list (list A)) :
  wrap_u64 (0 + z_sum (len_u64 <$> ls)) = len_u64 (concat ls).
Proof.
  induction ls as [|l ls IH]; [done|]. unfold len_u64, wrap_u64 in *.
  cbn [concat fmap list_fmap]. rewrite length_app, Nat2Z.inj_add.
  unfold z_sum in *. cbn [foldr]. rewrite Z.add_0_l, Z.add_mod_idemp_l by lia.
  rewrite <- (Z.add_mod_idemp_r _ (Z.of_nat (length (concat ls)))), <- IH by lia.
  by rewrite Z.add_0_l, Z.add_mod_idemp_r by lia.
Qed.

Lemma merge_plain req shards pcts :
  agg_kind_of_i32 (ar_kind req) ≠ AggPercentiles →
  merge_partials (agg_kind_of_i32 (ar_kind req)) (plain_partial req <$> shards) pcts =
  Some (plain_partial req (concat shards), []).
Proof.
  intros Hk. unfold merge_partials. rewrite merge_fold by done.
  replace (omap parts_of (plain_partial req <$> shards)) with (@nil (list f64 * list f64))
    by (clear; by induction shards).
  cbn [foldl mbind option_bind as_count as_buckets as_digest agg_init].
  unfold is_percentiles. rewrite bool_decide_false by done. cbn [andb].
  change (td_to_parts td_new) with (Some (@td_new digest_arithmetic, (@nil f64, @nil f64))).
  cbn. f_equal. f_equal. unfold plain_partial. f_equal.
  - rewrite <- list_fmap_compose. apply len_concat.
  - clear. induction shards as [|d shards IH] using rev_ind; [done|].
    rewrite fmap_app, bind_app, concat_app, bump_all_app, IH. cbn. rewrite !app_nil_r.
    rewrite bump_all_summary, <- bump_all_app. unfold increments.
    by rewrite omap_app, fmap_app.
Qed.

(** *** Percentiles *)

(** The partial of a percentile request: the number of documents, and the parts of a digest
    of their samples. *)
Definition digest_partial (req : AggregateRequest) (docs : list FlightDocument)
    (parts : list num * list num) : AggregatePartial :=
  {| ap_kind := agg_kind_to_i32 AggPercentiles; ap_count := len_u64 docs; ap_buckets := ∅;
     ap_digest := Some {| tm_centroid_mean := parts.1; tm_centroid_weight := parts.2 |} |}.

Definition samples (req : AggregateRequest) (docs : list FlightDocument) : list f64 :=
  omap (doc_sample req) docs.

Definition shard_digest (req : AggregateRequest) (docs : list FlightDocument)
    : option (list num * list num) := sample_parts (samples req docs).

Lemma partial_percentiles req docs :
  agg_kind_of_i32 (ar_kind req) = AggPercentiles →
  partial docs req = digest_partial req docs <$> shard_digest req docs.
Proof.
  intros Hk. unfold partial, shard_digest, sample_parts, samples. rewrite agg_fold_samples, Hk by done.
  cbn [as_digest as_count as_buckets agg_init]. destruct (td_add_all _ _) as [d|]; [|done].
  cbn [mbind option_bind is_percentiles as_digest]. unfold is_percentiles.
  rewrite bool_decide_true by done. destruct (td_to_parts d) as [[d' parts]|]; [|done].
  cbn. unfold digest_partial. f_equal. f_equal.
  unfold increments. induction docs as [|doc docs IH]; [done|]. cbn. unfold doc_bucket at 1.
  by rewrite Hk.
Qed.

(** The coordinator answers from the digest it gathers. *)
Lemma merge_percentiles req shards parts pcts :
  length parts = length shards →
  merge_partials AggPercentiles (zip_with (digest_partial req) shards parts) pcts =
  (d ← td_gather parts; q ← td_to_parts d;
   Some (digest_partial req (concat shards) q.2,
         if td_is_empty d then []
         else (λ p, {| pc_p := p; pc_value := td_quantile d (f64_div p (f64_of_Z 100)) |}) <$> pcts)).
Proof.
  intros Hlen. unfold merge_partials. rewrite merge_fold by done.
  replace (omap parts_of (zip_with (digest_partial req) shards parts)) with parts.
  2: { revert parts Hlen. clear. induction shards as [|x shards IH]; intros [|[y z] parts] [=]; [done|].
       cbn. f_equal. by apply IH. }
  cbn [as_count as_buckets as_digest agg_init]. unfold td_gather.
  destruct (foldl gather_step _ _) as [d|]; [|done]. cbn [mbind option_bind as_digest as_count].
  unfold is_percentiles. rewrite bool_decide_true by done. cbn [andb].
  destruct (td_to_parts d) as [[d' q]|]; [|done]. cbn [mbind option_bind fst snd].
  f_equal. f_equal; [|by destruct (td_is_empty d)]. unfold digest_partial. f_equal.
  - rewrite <- len_concat. f_equal. f_equal. f_equal. revert parts Hlen. clear.
    induction shards as [|x shards IH]; intros [|y parts] [=]; [done|]. cbn. f_equal. by apply IH.
  - revert parts Hlen. clear. induction shards as [|x shards IH]; intros [|y parts] [=]; [done|].
    cbn [zip_with mbind list_bind]. rewrite bump_all_app. cbn [ap_buckets digest_partial].
    assert (@hm_order HO string _ _ Z ∅ = []) as ->; [|by apply IH].
    apply Permutation_nil_r. by rewrite hm_order_perm, map_to_list_empty.
Qed.
End folds.

(** ** Properties *)

(** Distributed aggregation is exact. For every kind of aggregate except percentiles
    (which the digest approximates), however the documents are split over shards and in
    whatever order the shards answer, merging their partials gives exactly the partial
    one shard holding all the documents would compute: the same count and, for every
    bucket, the same total, whatever the hash maps' iteration orders. *)
Theorem distributed_aggregation (HO : HashOrder) (FL : FloatLib) (req : AggregateRequest)
    (shards arrival : list (list FlightDocument)) (pcts : list f64)
    (Hk : agg_kind_of_i32 (ar_kind req) ≠ AggPercentiles) (Hp : arrival ≡ₚ shards) :
  ∃ ps p, mapM (λ docs, partial docs req) arrival = Some ps ∧
    partial (concat shards) req = Some p ∧
    merge_partials (agg_kind_of_i32 (ar_kind req)) ps pcts = Some (p, []).
Proof.
  exists (plain_partial req <$> arrival), (plain_partial req (concat shards)). split_and!.
  - apply mapM_Some, Forall2_fmap_r, Forall_Forall2_diag, Forall_forall.
    intros docs _. by apply partial_plain.
  - by apply partial_plain.
  - rewrite merge_plain by done. do 2 f_equal. apply plain_partial_perm. by rewrite Hp.
Qed.

(** ** Witnesses *)

Definition type_counts : AggregateRequest :=
  {| ar_query := ""; ar_kind := agg_kind_to_i32 AggValueCounts; ar_field := "callsign";
     ar_interval := f64_zero; ar_percentiles := []; ar_filter := None |}.

Lemma distributed_aggregation_witness :
  ∃ ps p,
    mapM (λ docs, @partial whole_numbers docs type_counts)
      [[default_doc]; [default_doc; default_doc]] = Some ps ∧
    @partial whole_numbers (concat [[default_doc; default_doc]; [default_doc]]) type_counts = Some p ∧
    @merge_partials canonical_order whole_numbers AggValueCounts ps [] = Some (p, []).
Proof.
  apply (distributed_aggregation canonical_order whole_numbers type_counts
    [[default_doc; default_doc]; [default_doc]] [[default_doc]; [default_doc; default_doc]] []);
    [done|apply Permutation_swap].
Defined.

(** *** Overflow *)

(** A document at the end of the range of f64, on either side. *)
Definition far_out (sign : Z) : FlightDocument :=
  {| fd_icao24 := ""; fd_callsign := ""; fd_observed_at := 0; fd_latitude := f64_zero;
     fd_longitude := f64_zero; fd_altitude := f64_of_Z (sign * 2 ^ 1023);
     fd_origin := ""; fd_destination := ""; fd_aircraft_type := "";
     fd_velocity := f64_zero; fd_heading := f64_zero; fd_vertical_rate := f64_zero;
     fd_on_ground := false; fd_tenant_id := ""; fd_text := ∅; fd_number := ∅ |}.

Definition far_docs (low high : nat) : list FlightDocument :=
  replicate low (far_out (-1)) ++ replicate high (far_out 1).

Definition median_altitude : AggregateRequest :=
  {| ar_query := ""; ar_kind := agg_kind_to_i32 AggPercentiles; ar_field := "altitude";
     ar_interval := f64_zero; ar_percentiles := [f64_of_Z 50]; ar_filter := None |}.

(** Only finite samples enter a digest, but its means do not stay finite: the weighted sum
    of large samples overflows, infinities of both signs average to a NaN, and the next
    sort panics on it. Here with two shards of about a hundred documents each, in the
    coordinator. *)
Theorem huge_samples_panic :
  (parts ← mapM (λ docs, @partial whole_numbers docs median_altitude) [far_docs 42 50; far_docs 56 56];
   Some (@merge_partials canonical_order whole_numbers AggPercentiles parts [f64_of_Z 50])) =
  Some None.
Proof. vm_compute. reflexivity. Qed.
