(* ===== verification/Hybrid.v ===== *)
(** * Reciprocal rank fusion: [crates/coordinator/src/hybrid.rs] *)

From S2P Require Export Fanout.

(** ** Definitions *)

Definition RRF_K : f64 := f64_of_Z 60.

Definition contribution (i : nat) : f64 :=
  f64_div f64_one (f64_add RRF_K (f64_add (f64_of_Z (Z.of_nat i)) f64_one)).

(** One hit of the closure [fold]. *)
Definition rrf_step (prefer : bool) (fused : gmap string (f64 * SearchHit))
    (ih : nat * SearchHit) : gmap string (f64 * SearchHit) :=
  let '(i, hit) := ih in
  let key := icao24_of hit in
  if str_is_empty key then fused
  else match fused !! key with
       | Some (score, existing) =>
           <[key := (f64_add score (contribution i), if prefer then hit else existing)]> fused
       | None => <[key := (contribution i, hit)]> fused
       end.

Definition rrf_fold (prefer : bool) (fused : gmap string (f64 * SearchHit))
    (hits : list SearchHit) : gmap string (f64 * SearchHit) :=
  foldl (rrf_step prefer) fused (enumerate hits).

Definition with_score (score : f64) (hit : SearchHit) : SearchHit :=
  {| sh_document := sh_document hit; sh_score := score; sh_provenance := sh_provenance hit |}.

Definition rrf_fuse {HO : HashOrder} (keyword vector : list SearchHit) (limit : nat)
    : list SearchHit :=
  let fused := rrf_fold false (rrf_fold true ∅ keyword) vector in
  let out := (λ sh, with_score sh.1 sh.2) <$> hm_values fused in
  truncate_limit limit (sort_by cmp_hits out).

(** ** Specification *)

(** The positions at which a list ranks an aircraft. *)
Definition ranks (key : string) (hits : list SearchHit) : list nat :=
  (filter (λ ih, icao24_of ih.2 = key) (enumerate hits)).*1.

(** The sum over a non-empty sequence of contributions, left to right. *)
Definition rrf_sum (cs : list f64) : f64 :=
  match cs with [] => f64_zero | c :: r => foldl f64_add c r end.

Definition copies (key : string) (hits : list SearchHit) : list SearchHit :=
  filter (λ h, icao24_of h = key) hits.

(** The hit a fused entry carries: the keyword side's last copy, or the vector side's
    first one. *)
Definition chosen (key : string) (keyword vector : list SearchHit) : option SearchHit :=
  match last (copies key keyword) with
  | Some h => Some h
  | None => head (copies key vector)
  end.

(** ** Lemmas *)

(** The fold, one aircraft at a time. *)
Definition entry (prefer : bool) (o : option (f64 * SearchHit)) (ih : nat * SearchHit)
    : option (f64 * SearchHit) :=
  match o with
  | Some (score, existing) =>
      Some (f64_add score (contribution ih.1), if prefer then ih.2 else existing)
  | None => Some (contribution ih.1, ih.2)
  end.

Lemma rrf_step_lookup prefer m ih key :
  key ≠ EmptyString →
  rrf_step prefer m ih !! key =
  if decide (icao24_of ih.2 = key) then entry prefer (m !! key) ih else m !! key.
Proof.
  intros Hne. destruct ih as [i hit]. unfold rrf_step, str_is_empty. cbn [snd].
  case_bool_decide as He.
  - rewrite decide_False; [done|]. congruence.
  - case_decide as Hk.
    + subst. destruct (m !! icao24_of hit) as [[score existing]|]; by rewrite lookup_insert_eq.
    + destruct (m !! icao24_of hit) as [[score existing]|]; by rewrite lookup_insert_ne.
Qed.

Lemma rrf_fold_lookup prefer m l key :
  key ≠ EmptyString →
  foldl (rrf_step prefer) m l !! key =
  foldl (entry prefer) (m !! key) (filter (λ ih, icao24_of ih.2 = key) l).
Proof.
  intros Hne. revert m. induction l as [|ih l IH]; intros m; [done|].
  cbn [foldl]. rewrite IH, rrf_step_lookup, filter_cons by done. by case_decide.
Qed.

Lemma rrf_fold_empty_key prefer m l :
  m !! EmptyString = None → foldl (rrf_step prefer) m l !! EmptyString = None.
Proof.
  revert m. induction l as [|[i hit] l IH]; intros m Hm; [done|]. cbn [foldl]. apply IH.
  unfold rrf_step, str_is_empty. case_bool_decide as He; [done|].
  destruct (m !! icao24_of hit) as [[score existing]|]; by rewrite lookup_insert_ne.
Qed.

(** Folding the entries of one list onto an existing one. *)
Lemma entry_fold_Some prefer s h l :
  foldl (entry prefer) (Some (s, h)) l =
  Some (foldl f64_add s (contribution <$> l.*1),
        if prefer then default h (last l.*2) else h).
Proof.
  revert s h. induction l as [|[i k] l IH]; intros s h; [by destruct prefer|].
  cbn [foldl entry fst snd]. rewrite IH. destruct prefer; [|done]. do 2 f_equal.
  cbn [fmap list_fmap snd]. rewrite last_cons. by destruct (last l.*2).
Qed.

Lemma entry_fold_None prefer l :
  foldl (entry prefer) None l =
  match l with
  | [] => None
  | ih :: r => Some (rrf_sum (contribution <$> l.*1),
                     if prefer then default ih.2 (last r.*2) else ih.2)
  end.
Proof. destruct l as [|[i h] l]; [done|]. cbn [foldl entry fst snd]. by rewrite entry_fold_Some. Qed.

Lemma copies_filter key l :
  (filter (λ ih, icao24_of ih.2 = key) (enumerate l)).*2 = copies key l.
Proof.
  unfold copies. rewrite <- (enumerate_snd l) at 2. by rewrite filter_fmap_comm.
Qed.

(** What the fused map holds for one aircraft. *)
Lemma fused_lookup keyword vector key :
  key ≠ EmptyString →
  rrf_fold false (rrf_fold true ∅ keyword) vector !! key =
  h ← chosen key keyword vector;
  Some (rrf_sum (contribution <$> (ranks key keyword ++ ranks key vector)), h).
Proof.
  intros Hne. unfold rrf_fold. rewrite !rrf_fold_lookup, lookup_empty by done.
  unfold chosen, ranks. rewrite <- (copies_filter key keyword), <- (copies_filter key vector).
  set (lk := filter _ (enumerate keyword)). set (lv := filter _ (enumerate vector)).
  rewrite entry_fold_None. destruct lk as [|[i h] lk].
  - rewrite entry_fold_None. destruct lv as [|[j g] lv]; done.
  - rewrite entry_fold_Some. cbn [fmap list_fmap fst snd]. rewrite last_cons.
    rewrite fmap_app. cbn [rrf_sum app fmap list_fmap]. rewrite foldl_app.
    by destruct (last lk.*2).
Qed.

Lemma contribution_nonneg i : f64_nonneg (contribution i).
Proof.
  apply f64_div_one_nonneg, f64_add_nonneg; [by apply f64_of_Z_nonneg|].
  apply f64_add_nonneg; apply f64_of_Z_nonneg; lia.
Qed.

Lemma rrf_sum_nonneg cs : Forall f64_nonneg cs → f64_nonneg (rrf_sum cs).
Proof.
  intros [|c r Hc Hr]; [done|]. simpl. revert c Hc.
  induction Hr as [|d r Hd _ IH]; intros c Hc; [done|]. simpl. apply IH.
  by apply f64_add_nonneg.
Qed.

Lemma chosen_Some key kw vec h :
  chosen key kw vec = Some h → icao24_of h = key ∧ h ∈ kw ++ vec.
Proof.
  unfold chosen. destruct (last _) eqn:E; intros [= <-] || intros Hh.
  - apply last_Some_elem_of in E. apply list_elem_of_filter in E as [? ?]. set_solver.
  - apply head_Some_elem_of in Hh. apply list_elem_of_filter in Hh as [? ?]. set_solver.
Qed.

Lemma chosen_None key kw vec :
  chosen key kw vec = None ↔ key ∉ icao24_of <$> (kw ++ vec).
Proof.
  unfold chosen.
  assert (∀ l, copies key l = [] ↔ key ∉ icao24_of <$> l) as Hc.
  { intros l. split.
    - intros E (h & -> & Hh)%list_elem_of_fmap.
      assert (h ∈ copies (icao24_of h) l) as Hin by (by apply list_elem_of_filter).
      rewrite E in Hin. by apply elem_of_nil in Hin.
    - intros Hn. apply filter_none, Forall_forall. intros h Hh <-. apply Hn.
      by apply list_elem_of_fmap_2. }
  rewrite fmap_app, not_elem_of_app, <- !Hc. destruct (last (copies key kw)) eqn:E.
  - split; [done|]. intros [E' _]. by rewrite E' in E.
  - apply last_None in E. rewrite E, head_None. tauto.
Qed.

(** What the two folds leave in the map. *)
Lemma fused_entry keyword vector key sh :
  rrf_fold false (rrf_fold true ∅ keyword) vector !! key = Some sh →
  key ≠ EmptyString ∧ chosen key keyword vector = Some sh.2 ∧ icao24_of sh.2 = key ∧
  sh.1 = rrf_sum (contribution <$> (ranks key keyword ++ ranks key vector)).
Proof.
  intros Hsh. destruct (decide (key = EmptyString)) as [->|Hne].
  { exfalso. unfold rrf_fold in Hsh. rewrite rrf_fold_empty_key in Hsh; [done|].
    by apply rrf_fold_empty_key. }
  rewrite fused_lookup in Hsh by done.
  destruct (chosen key keyword vector) as [h|] eqn:E; simplify_eq/=.
  pose proof (chosen_Some _ _ _ _ E) as [? _]. naive_solver.
Qed.

Lemma fused_keys {HO : HashOrder} keyword vector :
  let fused := rrf_fold false (rrf_fold true ∅ keyword) vector in
  icao24_of <$> ((λ sh, with_score sh.1 sh.2) <$> hm_values fused) = hm_keys fused.
Proof.
  intros fused. unfold hm_values, hm_keys. rewrite <- !list_fmap_compose. apply fmap_ext_in.
  intros [k sh] Hin%elem_of_hm_order. apply fused_entry in Hin as (_ & _ & E & _). exact E.
Qed.

(** ** Properties *)

(** Reciprocal rank fusion returns exactly the aircraft either ranking names (hits
    without a document key are skipped), once each; each carries the sum of [1/(60+r)]
    over its ranks in both lists, and the keyword side's copy when there is one. *)
Theorem rrf_union (HO : HashOrder) (keyword vector : list SearchHit) :
  let out := rrf_fuse keyword vector 0 in
  NoDup (icao24_of <$> out) ∧
  (∀ key, key ∈ icao24_of <$> out ↔
     key ≠ EmptyString ∧ key ∈ icao24_of <$> (keyword ++ vector)) ∧
  (∀ h, h ∈ out → ∃ orig, chosen (icao24_of h) keyword vector = Some orig ∧
     h = with_score (rrf_sum (contribution <$>
           (ranks (icao24_of h) keyword ++ ranks (icao24_of h) vector))) orig).
Proof.
  cbv zeta. unfold rrf_fuse. rewrite truncate_limit_zero.
  set (fused := rrf_fold false _ _).
  pose proof (fused_entry keyword vector) as Hf. fold fused in Hf.
  pose proof (fused_keys keyword vector) as Hkeys. fold fused in Hkeys. cbv zeta in Hkeys.
  split_and!.
  - rewrite sort_by_perm, Hkeys. apply hm_keys_NoDup.
  - intros key. rewrite sort_by_perm, Hkeys, elem_of_hm_keys. split.
    + intros [sh Hsh]. apply Hf in Hsh as (Hne & Hc & _). split; [done|].
      destruct (decide (key ∈ icao24_of <$> keyword ++ vector)) as [|Hn]; [done|].
      apply chosen_None in Hn. congruence.
    + intros [Hne Hin]. unfold fused. rewrite fused_lookup by done.
      destruct (chosen key keyword vector) eqn:E; [by eauto|]. by apply chosen_None in E.
  - intros h. rewrite elem_of_sort_by, list_elem_of_fmap.
    intros (sh & -> & [k Hk]%elem_of_hm_values).
    apply Hf in Hk as (_ & Hc & Hi & Hs). exists sh.2.
    change (icao24_of (with_score sh.1 sh.2)) with (icao24_of sh.2).
    rewrite Hi. split; [done|]. by rewrite Hs.
Qed.

(** Fusion is deterministic and ranked: for every pair of hash-map orders the same
    list comes out, in descending fused score with ties broken by aircraft, and a limit
    takes its prefix. No assumption on scores is needed, since sums of reciprocal ranks
    are always numbers. *)
Theorem rrf_deterministic (HO HO' : HashOrder) (keyword vector : list SearchHit) (limit : nat) :
  @rrf_fuse HO keyword vector limit = @rrf_fuse HO' keyword vector limit ∧
  ranked cmp_hits (@rrf_fuse HO keyword vector limit) ∧
  (limit ≠ 0%nat → rrf_fuse keyword vector limit = take limit (rrf_fuse keyword vector 0)).
Proof.
  assert (∀ HO, Forall scored ((λ sh, with_score sh.1 sh.2) <$>
    @hm_values HO _ _ _ _ (rrf_fold false (rrf_fold true ∅ keyword) vector))) as Hsc.
  { intros HO2. apply Forall_fmap, Forall_forall. intros sh [k Hk]%elem_of_hm_values.
    unfold scored. simpl. apply nonneg_not_nan.
    apply fused_entry in Hk as (_ & _ & _ & ->). apply rrf_sum_nonneg.
    apply Forall_fmap, Forall_forall. intros. apply contribution_nonneg. }
  assert (NoDup (icao24_of <$> ((λ sh, with_score sh.1 sh.2) <$>
    @hm_values HO _ _ _ _ (rrf_fold false (rrf_fold true ∅ keyword) vector)))) as Hnd.
  { rewrite (@fused_keys HO). apply hm_keys_NoDup. }
  unfold rrf_fuse in *. rewrite truncate_limit_zero in *.
  split_and!.
  - f_equal. apply sort_hits_ext; [done|done|]. apply fmap_Permutation. unfold hm_values.
    by rewrite !hm_order_perm.
  - eauto using ranked_truncate, sort_by_ranked, cmp_hits_total.
  - intros. by apply truncate_limit_take.
Qed.
