(* ===== verification/Index.v ===== *)
(** * The keyword index: [crates/shard-node/src/index.rs]

    An inverted index keyed by aircraft. [None] is a panic: an out-of-range slot or one
    of the [expect]s; the invariant below rules it out. *)

From S2P Require Export Wire.

(** ** State *)

Abbreviation DocId := nat.

Record Posting := { po_doc_id : DocId; po_term_freq : Z }.

Record InvertedIndex := {
  ix_docs : list (option FlightDocument);
  ix_postings : gmap string (list Posting);
  ix_by_key : gmap string DocId;
  ix_free : list DocId;
  ix_doc_len : list Z;
  ix_total_len : Z;
}.

Record ScoredHit := { sc_doc : FlightDocument; sc_score : f64 }.
Record SearchResults := { rs_total_matched : nat; rs_hits : list ScoredHit }.

Definition ix_new : InvertedIndex :=
  {| ix_docs := []; ix_postings := ∅; ix_by_key := ∅; ix_free := []; ix_doc_len := [];
     ix_total_len := 0 |}.

Definition ix_len (ix : InvertedIndex) : nat := size (ix_by_key ix).
Definition ix_is_empty (ix : InvertedIndex) : bool := bool_decide (ix_by_key ix = ∅).

(** [docs.iter().flatten()]. *)
Definition ix_doc_refs (ix : InvertedIndex) : list FlightDocument := omap id (ix_docs ix).
Definition ix_documents (ix : InvertedIndex) : list FlightDocument := ix_doc_refs ix.

(** The slot's document, if the slot exists and is live. *)
Definition slot_doc (docs : list (option FlightDocument)) (i : DocId) : option FlightDocument :=
  docs !! i ≫= id.

Section ops.
Context {HO : HashOrder} {UC : Unicode} {FL : FloatLib} (bm25_params : f64 * f64).

(** ** Writing *)

Definition doc_tokens (doc : FlightDocument) : list string :=
  ([fd_callsign doc; fd_origin doc; fd_destination doc; fd_aircraft_type doc]
     ++ hm_values (fd_text doc)) ≫= tokenize.

Definition term_freqs (doc : FlightDocument) : gmap string Z :=
  foldl (λ freqs token, bump wrap_u32 token 1 freqs) ∅ (doc_tokens doc).

Definition freqs_sum (freqs : gmap string Z) : Z :=
  foldl (λ acc v, wrap_u32 (acc + v)) 0 (hm_values freqs).

(** The posting lists without one document's entries. *)
Definition unpost (doc_id : DocId) (postings : gmap string (list Posting)) (term : string)
    : gmap string (list Posting) :=
  match postings !! term with
  | Some l =>
      let kept := filter (λ p, po_doc_id p ≠ doc_id) l in
      if bool_decide (kept = []) then delete term postings else <[term := kept]> postings
  | None => postings
  end.

Definition remove_postings (postings : gmap string (list Posting)) (doc_id : DocId)
    (doc : FlightDocument) : gmap string (list Posting) :=
  foldl (unpost doc_id) postings (hm_keys (term_freqs doc)).

(** The loop that appends one posting per term. *)
Definition add_postings (postings : gmap string (list Posting)) (doc_id : DocId)
    (freqs : gmap string Z) : gmap string (list Posting) :=
  foldl (λ p tf, <[tf.1 := default [] (p !! tf.1)
                           ++ [{| po_doc_id := doc_id; po_term_freq := tf.2 |}]]> p)
    postings (hm_order freqs).

Definition ix_insert (ix : InvertedIndex) (doc : FlightDocument) : option InvertedIndex :=
  match ix_by_key ix !! fd_icao24 doc with
  | Some doc_id =>
      old ← slot_doc (ix_docs ix) doc_id;
      old_len ← ix_doc_len ix !! doc_id;
      let freqs := term_freqs doc in
      let new_len := freqs_sum freqs in
      Some {| ix_docs := <[doc_id := Some doc]> (ix_docs ix);
              ix_postings :=
                add_postings (remove_postings (ix_postings ix) doc_id old) doc_id freqs;
              ix_by_key := ix_by_key ix; ix_free := ix_free ix;
              ix_doc_len := <[doc_id := new_len]> (ix_doc_len ix);
              ix_total_len := wrap_u64 (wrap_u64 (ix_total_len ix - old_len) + new_len) |}
  | None =>
      let freqs := term_freqs doc in
      let len := freqs_sum freqs in
      '(docs, doc_len, free, doc_id) ←
        match last (ix_free ix) with
        | Some slot =>
            if bool_decide (slot < length (ix_docs ix))%nat
               && bool_decide (slot < length (ix_doc_len ix))%nat
            then Some (<[slot := Some doc]> (ix_docs ix), <[slot := len]> (ix_doc_len ix),
                       take (length (ix_free ix) - 1) (ix_free ix), slot)
            else None
        | None =>
            Some (ix_docs ix ++ [Some doc], ix_doc_len ix ++ [len], ix_free ix,
                  length (ix_docs ix))
        end;
      Some {| ix_docs := docs; ix_postings := add_postings (ix_postings ix) doc_id freqs;
              ix_by_key := <[fd_icao24 doc := doc_id]> (ix_by_key ix); ix_free := free;
              ix_doc_len := doc_len; ix_total_len := wrap_u64 (ix_total_len ix + len) |}
  end.

Definition ix_remove (ix : InvertedIndex) (icao24 : string) : option (InvertedIndex * bool) :=
  match ix_by_key ix !! icao24 with
  | None => Some (ix, false)
  | Some doc_id =>
      doc ← slot_doc (ix_docs ix) doc_id;
      len ← ix_doc_len ix !! doc_id;
      Some ({| ix_docs := <[doc_id := None]> (ix_docs ix);
               ix_postings := remove_postings (ix_postings ix) doc_id doc;
               ix_by_key := delete icao24 (ix_by_key ix); ix_free := ix_free ix ++ [doc_id];
               ix_doc_len := <[doc_id := 0]> (ix_doc_len ix);
               ix_total_len := wrap_u64 (ix_total_len ix - len) |}, true)
  end.

(** ** Searching *)

Definition bm25_idf (n df : f64) : f64 :=
  let half := f64_lit 1 2 in
  f64_ln (f64_add f64_one (f64_div (f64_add (f64_sub n df) half) (f64_add df half))).

Definition bm25_norm (tf dl avgdl : f64) : f64 :=
  let '(k1, b) := bm25_params in
  f64_div (f64_mul tf (f64_add k1 f64_one))
    (f64_add tf (f64_mul k1 (f64_add (f64_sub f64_one b) (f64_div (f64_mul b dl) avgdl)))).

Definition post_step (ix : InvertedIndex) (idf avgdl : f64) (st : option (gmap DocId f64))
    (p : Posting) : option (gmap DocId f64) :=
  scores ← st;
  dl ← ix_doc_len ix !! po_doc_id p;
  let norm := bm25_norm (f64_of_Z (po_term_freq p)) (f64_of_Z dl) avgdl in
  Some (<[po_doc_id p :=
          f64_add (default f64_zero (scores !! po_doc_id p)) (f64_mul idf norm)]> scores).

Definition term_step (ix : InvertedIndex) (n avgdl : f64)
    (st : gset string * option (gmap DocId f64)) (term : string)
    : gset string * option (gmap DocId f64) :=
  let '(seen, scores) := st in
  if decide (term ∈ seen) then st
  else ({[term]} ∪ seen,
        match ix_postings ix !! term with
        | Some postings =>
            let idf := bm25_idf n (f64_of_Z (Z.of_nat (length postings))) in
            foldl (post_step ix idf avgdl) scores postings
        | None => scores
        end).

Definition hit_cmp (a b : ScoredHit) : comparison :=
  rank_cmp (sc_score a) (fd_icao24 (sc_doc a)) (sc_score b) (fd_icao24 (sc_doc b)).

Definition ix_scores (ix : InvertedIndex) (terms : list string) : option (gmap DocId f64) :=
  let n := f64_of_Z (Z.of_nat (size (ix_by_key ix))) in
  let avgdl := if bool_decide (ix_by_key ix = ∅) then f64_one
               else f64_max (f64_div (f64_of_Z (ix_total_len ix)) n) f64_one in
  (foldl (term_step ix n avgdl) (∅, Some ∅) terms).2.

Definition ix_search (ix : InvertedIndex) (query : string) (limit : nat)
    : option SearchResults :=
  let terms := tokenize query in
  if bool_decide (terms = []) then Some {| rs_total_matched := 0; rs_hits := [] |}
  else
    scores ← ix_scores ix terms;
    hits ← mapM (λ ds : DocId * f64,
             doc ← slot_doc (ix_docs ix) ds.1;
             Some {| sc_doc := doc; sc_score := ds.2 |}) (hm_order scores);
    Some {| rs_total_matched := size scores;
            rs_hits := truncate_limit limit (sort_by hit_cmp hits) |}.

(** ** Specification *)

(** The abstract contents: the latest document of each aircraft. *)
Definition contents (ix : InvertedIndex) : gmap string FlightDocument :=
  omap (slot_doc (ix_docs ix)) (ix_by_key ix).

(** A posting list set describes the live slots given by [lv]. *)
Record post_ok (lv : DocId → option FlightDocument) (ps : gmap string (list Posting)) : Prop := {
  post_nonempty : ∀ t, ps !! t ≠ Some [];
  post_NoDup : ∀ t, NoDup (po_doc_id <$> default [] (ps !! t));
  post_iff : ∀ t p, p ∈ default [] (ps !! t) ↔
    ∃ d, lv (po_doc_id p) = Some d ∧ term_freqs d !! t = Some (po_term_freq p);
}.

Record ix_wf (ix : InvertedIndex) : Prop := {
  wf_keys : ∀ k i, ix_by_key ix !! k = Some i ↔
    ∃ d, slot_doc (ix_docs ix) i = Some d ∧ fd_icao24 d = k;
  wf_free : NoDup (ix_free ix) ∧ ∀ i, i ∈ ix_free ix ↔ ix_docs ix !! i = Some None;
  wf_lens : ∀ i, ix_doc_len ix !! i =
    (λ o, match o with Some d => freqs_sum (term_freqs d) | None => 0 end) <$> ix_docs ix !! i;
  wf_total : ix_total_len ix = wrap_u64 (z_sum (ix_doc_len ix));
  wf_post : post_ok (slot_doc (ix_docs ix)) (ix_postings ix);
}.

(** The document contains one of the query's terms. *)
Definition matches (terms : list string) (d : FlightDocument) : Prop :=
  Exists (λ t, t ∈ doc_tokens d) terms.

#[export] Instance matches_dec terms d : Decision (matches terms d).
Proof. unfold matches. apply _. Defined.

(** The mutating operations, and what they mean on the abstract contents. *)
Inductive ix_op :=
| IxInsert (doc : FlightDocument)
| IxRemove (icao24 : string).

Definition ix_exec (st : option InvertedIndex) (op : ix_op) : option InvertedIndex :=
  ix ← st;
  match op with
  | IxInsert doc => ix_insert ix doc
  | IxRemove k => fst <$> ix_remove ix k
  end.

Definition map_exec (m : gmap string FlightDocument) (op : ix_op) : gmap string FlightDocument :=
  match op with
  | IxInsert doc => <[fd_icao24 doc := doc]> m
  | IxRemove k => delete k m
  end.

(** BM25 over a collection of documents, with no index: the score of a document is the
    sum, over the query's distinct terms it contains, of the term's inverse document
    frequency times its normalised frequency. *)
Fixpoint distinct (seen : gset string) (terms : list string) : list string :=
  match terms with
  | [] => []
  | t :: k => if decide (t ∈ seen) then distinct seen k else t :: distinct ({[t]} ∪ seen) k
  end.

Definition corpus_df (docs : list FlightDocument) (t : string) : nat :=
  length (filter (λ d, is_Some (term_freqs d !! t)) docs).

Definition corpus_avgdl (docs : list FlightDocument) : f64 :=
  if bool_decide (docs = []) then f64_one
  else f64_max (f64_div
         (f64_of_Z (wrap_u64 (z_sum ((λ d, freqs_sum (term_freqs d)) <$> docs))))
         (f64_of_Z (Z.of_nat (length docs)))) f64_one.

Definition term_weight (docs : list FlightDocument) (d : FlightDocument) (t : string)
    : option f64 :=
  tf ← term_freqs d !! t;
  Some (f64_mul
          (bm25_idf (f64_of_Z (Z.of_nat (length docs))) (f64_of_Z (Z.of_nat (corpus_df docs t))))
          (bm25_norm (f64_of_Z tf) (f64_of_Z (freqs_sum (term_freqs d))) (corpus_avgdl docs))).

Definition bm25_score (docs : list FlightDocument) (terms : list string) (d : FlightDocument)
    : f64 :=
  foldl f64_add f64_zero (omap (term_weight docs d) (distinct ∅ terms)).

End ops.

(** ** Lemmas *)

Lemma slot_doc_insert docs i j o :
  (i < length docs)%nat →
  slot_doc (<[i := o]> docs) j = if decide (j = i) then o else slot_doc docs j.
Proof.
  intros Hi. unfold slot_doc. case_decide as E; subst.
  - by rewrite list_lookup_insert_eq.
  - by rewrite list_lookup_insert_ne.
Qed.

Lemma slot_doc_lt docs i d : slot_doc docs i = Some d → (i < length docs)%nat.
Proof. unfold slot_doc. destruct (docs !! i) eqn:E; [|done]. by apply lookup_lt_Some in E. Qed.

Lemma slot_doc_Some docs i d : slot_doc docs i = Some d ↔ docs !! i = Some (Some d).
Proof. unfold slot_doc. destruct (docs !! i) as [[|]|]; naive_solver. Qed.

Lemma slot_doc_snoc docs d j :
  slot_doc (docs ++ [Some d]) j = if decide (j = length docs) then Some d else slot_doc docs j.
Proof.
  unfold slot_doc. case_decide as E; subst.
  - by rewrite list_lookup_middle.
  - destruct (decide (j < length docs)%nat).
    + by rewrite lookup_app_l.
    + rewrite !(lookup_ge_None_2); [done|lia|]. rewrite length_app. simpl. lia.
Qed.

Section lemmas.
Context {HO : HashOrder} {UC : Unicode} {FL : FloatLib} (bm25_params : f64 * f64).
#[local] Notation plist ps t := (default [] (ps !! t)).

Lemma unpost_plist i ps t' t :
  plist (unpost i ps t') t =
  if decide (t = t') then filter (λ p, po_doc_id p ≠ i) (plist ps t) else plist ps t.
Proof.
  unfold unpost. destruct (ps !! t') as [l|] eqn:E.
  - case_bool_decide as Hk; case_decide; subst.
    + rewrite lookup_delete_eq, E. simpl. by rewrite Hk.
    + by rewrite lookup_delete_ne.
    + by rewrite lookup_insert_eq, E.
    + by rewrite lookup_insert_ne.
  - case_decide; subst; [|done]. by rewrite E.
Qed.

Lemma unpost_nonempty i ps t' :
  (∀ t, ps !! t ≠ Some []) → ∀ t, unpost i ps t' !! t ≠ Some [].
Proof.
  intros Hne t. unfold unpost. destruct (ps !! t') as [l|] eqn:E; [|done].
  case_bool_decide; [rewrite lookup_delete|rewrite lookup_insert]; case_decide; naive_solver.
Qed.

Lemma unpost_fold i ps keys :
  (∀ t, ps !! t ≠ Some []) →
  let out := foldl (unpost i) ps keys in
  (∀ t, out !! t ≠ Some []) ∧
  (∀ t, plist out t = if decide (t ∈ keys) then filter (λ p, po_doc_id p ≠ i) (plist ps t)
                      else plist ps t).
Proof.
  revert ps. induction keys as [|k keys IH]; intros ps Hne.
  { split; [done|]. intros t. rewrite decide_False; [done|]. apply not_elem_of_nil. }
  cbn [foldl]. destruct (IH (unpost i ps k)) as [H1 H2]; [by apply unpost_nonempty|].
  split; [done|]. intros t. rewrite H2, unpost_plist.
  destruct (decide (t = k)) as [->|Hne'].
  - rewrite (decide_True (P := k ∈ k :: keys)) by left. case_decide; [|done].
    by rewrite list_filter_filter_l.
  - destruct (decide (t ∈ keys)); [rewrite decide_True by by right|rewrite decide_False by set_solver];
      done.
Qed.

(** Taking a document out of the posting lists. *)
Lemma remove_postings_ok lv lv' ps i old :
  post_ok lv ps → lv i = Some old →
  (∀ j, lv' j = if decide (j = i) then None else lv j) →
  post_ok lv' (remove_postings ps i old).
Proof.
  intros [Hne Hnd Hiff] Hi Hlv. unfold remove_postings.
  destruct (unpost_fold i ps (hm_keys (term_freqs old)) Hne) as [F1 F2].
  assert (∀ t, plist (foldl (unpost i) ps (hm_keys (term_freqs old))) t =
               filter (λ p, po_doc_id p ≠ i) (plist ps t)) as F.
  { intros t. rewrite F2. case_decide as Ht; [done|]. symmetry. apply filter_all.
    apply Forall_forall. intros p Hp Hpi. apply Hiff in Hp as (d & Hd & Hf).
    rewrite Hpi, Hi in Hd. simplify_eq. apply Ht, elem_of_hm_keys. eauto. }
  split; [done| |].
  - intros t. rewrite F. specialize (Hnd t). clear -Hnd.
    induction (plist ps t) as [|p l IH]; [done|]. apply NoDup_cons in Hnd as [Hp Hnd].
    rewrite filter_cons. case_decide; [|auto]. cbn. apply NoDup_cons. split; [|auto].
    intros (q & E & [_ Hq]%list_elem_of_filter)%list_elem_of_fmap. apply Hp. rewrite E.
    by apply list_elem_of_fmap_2.
  - intros t p. rewrite F, list_elem_of_filter, Hiff, Hlv. case_decide; naive_solver.
Qed.

Lemma add_fold_plist i (ps : gmap string (list Posting)) (l : list (string * Z)) t :
  NoDup l.*1 →
  plist (foldl (λ p tf, <[tf.1 := plist p tf.1 ++ [{| po_doc_id := i; po_term_freq := tf.2 |}]]> p)
           ps l) t =
  plist ps t ++ ((λ tf, {| po_doc_id := i; po_term_freq := tf.2 |}) <$> filter (λ tf, tf.1 = t) l).
Proof.
  revert ps. induction l as [|[t' v] l IH]; intros ps Hnd; [by rewrite app_nil_r|].
  apply NoDup_cons in Hnd as [Hn Hnd]. cbn [foldl fst snd]. rewrite IH by done.
  rewrite filter_cons. cbn [fst]. case_decide as E; subst.
  - rewrite lookup_insert_eq. cbn. by rewrite <- app_assoc.
  - by rewrite lookup_insert_ne.
Qed.

Lemma add_fold_nonempty i (ps : gmap string (list Posting)) (l : list (string * Z)) :
  (∀ t, ps !! t ≠ Some []) →
  ∀ t, foldl (λ p tf, <[tf.1 := plist p tf.1 ++ [{| po_doc_id := i; po_term_freq := tf.2 |}]]> p)
         ps l !! t ≠ Some [].
Proof.
  revert ps. induction l as [|[t' v] l IH]; intros ps Hne; [done|]. cbn [foldl fst snd].
  apply IH. intros t. rewrite lookup_insert. case_decide; [|done].
  intros [= E]. by apply app_eq_nil in E as [_ ?].
Qed.

(** Putting a document into a slot no posting mentions. *)
Lemma add_postings_ok lv lv' ps i d :
  post_ok lv ps → lv i = None → (∀ j, lv' j = if decide (j = i) then Some d else lv j) →
  post_ok lv' (add_postings ps i (term_freqs d)).
Proof.
  intros [Hne Hnd Hiff] Hi Hlv. unfold add_postings.
  assert (∀ t p, p ∈ ((λ tf : string * Z, {| po_doc_id := i; po_term_freq := tf.2 |}) <$>
            filter (λ tf, tf.1 = t) (hm_order (term_freqs d))) ↔
            po_doc_id p = i ∧ term_freqs d !! t = Some (po_term_freq p)) as Hnew.
  { intros t p. rewrite list_elem_of_fmap. split.
    - intros ([t' v] & -> & [E Hin%elem_of_hm_order]%list_elem_of_filter). simpl in *. by subst.
    - intros [E Hf]. exists (t, po_term_freq p). split; [destruct p; simpl in *; by subst|].
      by rewrite list_elem_of_filter, elem_of_hm_order. }
  assert (∀ t, (filter (λ tf, tf.1 = t) (hm_order (term_freqs d))).*1 ⊆ [t]) as Hsub.
  { intros t x (kv & -> & [E _]%list_elem_of_filter)%list_elem_of_fmap. rewrite E. by left. }
  split.
  - by apply add_fold_nonempty.
  - intros t. rewrite add_fold_plist by apply hm_keys_NoDup. rewrite fmap_app.
    apply NoDup_app. split_and!; [done| |].
    + intros j (p & -> & Hp)%list_elem_of_fmap (q & Eq & [Hq _]%Hnew)%list_elem_of_fmap.
      apply Hiff in Hp as (d' & Hd' & _). congruence.
    + assert (NoDup (filter (λ tf, tf.1 = t) (hm_order (term_freqs d))).*1) as Hn
        by apply NoDup_keys_filter, hm_keys_NoDup.
      rewrite <- list_fmap_compose. specialize (Hsub t).
      destruct (filter (λ tf, tf.1 = t) (hm_order (term_freqs d))) as [|a [|b l]]; cbn;
        [constructor|apply NoDup_singleton|]. exfalso. cbn in *.
      apply NoDup_cons in Hn as [Hn _]. apply Hn.
      assert (a.1 ∈ [t]) as ->%list_elem_of_singleton by (apply Hsub; by left).
      assert (b.1 ∈ [t]) as ->%list_elem_of_singleton by (apply Hsub; by right; left). by left.
  - intros t p. rewrite add_fold_plist by apply hm_keys_NoDup.
    rewrite elem_of_app, Hiff, Hnew, Hlv. case_decide; naive_solver.
Qed.

Lemma term_freqs_dom d t : is_Some (term_freqs d !! t) ↔ t ∈ doc_tokens d.
Proof.
  unfold term_freqs.
  assert (∀ l (m : gmap string Z), is_Some (foldl (λ freqs token, bump wrap_u32 token 1 freqs) m l !! t)
            ↔ is_Some (m !! t) ∨ t ∈ l) as H.
  { induction l as [|x l IH]; intros m; [set_solver|]. cbn [foldl]. rewrite IH, bump_lookup.
    rewrite elem_of_cons. case_decide; subst; naive_solver. }
  rewrite H, lookup_empty. split; [by intros [[]|]|by right].
Qed.

Lemma z_sum_insert l i x y : l !! i = Some x → z_sum (<[i := y]> l) = z_sum l - x + y.
Proof.
  revert i. unfold z_sum. induction l as [|a l IH]; intros [|i] Hi; simplify_eq/=; [lia|].
  rewrite (IH i Hi). lia.
Qed.

Lemma contents_lookup ix k d :
  ix_wf ix → contents ix !! k = Some d ↔ ∃ i, slot_doc (ix_docs ix) i = Some d ∧ fd_icao24 d = k.
Proof.
  intros Hwf. unfold contents. rewrite lookup_omap. split.
  - intros (i & Hi & Hd)%bind_Some. exists i. split; [done|].
    apply (wf_keys _ Hwf) in Hi as (d' & Hd' & E). congruence.
  - intros (i & Hd & <-). apply bind_Some. exists i. split; [|done].
    apply (wf_keys _ Hwf). eauto.
Qed.

Lemma contents_key ix k d : ix_wf ix → contents ix !! k = Some d → fd_icao24 d = k.
Proof. intros Hwf (i & _ & E)%contents_lookup; done. Qed.

(** The slot an aircraft occupies is unique. *)
Lemma slot_unique ix i j d d' :
  ix_wf ix → slot_doc (ix_docs ix) i = Some d → slot_doc (ix_docs ix) j = Some d' →
  fd_icao24 d = fd_icao24 d' → i = j.
Proof.
  intros Hwf Hi Hj E.
  assert (ix_by_key ix !! fd_icao24 d = Some i) as H1 by (apply (wf_keys _ Hwf); eauto).
  assert (ix_by_key ix !! fd_icao24 d = Some j) as H2 by (apply (wf_keys _ Hwf); eauto).
  congruence.
Qed.

(** Re-observing an aircraft. *)
Lemma ix_insert_update ix doc i :
  ix_wf ix → ix_by_key ix !! fd_icao24 doc = Some i →
  ∃ ix', ix_insert ix doc = Some ix' ∧ ix_wf ix' ∧
    (∀ j, slot_doc (ix_docs ix') j =
          if decide (j = i) then Some doc else slot_doc (ix_docs ix) j).
Proof.
  intros Hwf Hk. pose proof Hk as (old & Hold & Eold)%(wf_keys _ Hwf).
  pose proof (slot_doc_lt _ _ _ Hold) as Hlt.
  pose proof Hwf as [Hkeys [Hfnd Hfree] Hlens Htotal Hpost].
  unfold ix_insert. rewrite Hk, Hold. cbn [mbind option_bind].
  assert (ix_doc_len ix !! i = Some (freqs_sum (term_freqs old))) as Hl.
  { rewrite Hlens. apply slot_doc_Some in Hold. by rewrite Hold. }
  rewrite Hl. cbn [mbind option_bind]. eexists. split; [done|].
  assert (∀ j, slot_doc (<[i := Some doc]> (ix_docs ix)) j =
            if decide (j = i) then Some doc else slot_doc (ix_docs ix) j) as Hslot
    by (intros; by apply slot_doc_insert).
  split; [|exact Hslot]. split; cbn [ix_docs ix_by_key ix_free ix_doc_len ix_total_len ix_postings].
  - intros k j. rewrite Hkeys, Hslot. case_decide; subst; [|done].
    rewrite Hold. split; intros (d & [= <-] & <-); eauto.
  - split; [done|]. intros j. rewrite Hfree. destruct (decide (j = i)) as [->|].
    + rewrite list_lookup_insert_eq by done. apply slot_doc_Some in Hold. rewrite Hold. naive_solver.
    + by rewrite list_lookup_insert_ne.
  - intros j. destruct (decide (j = i)) as [->|].
    + rewrite !list_lookup_insert_eq; [done|done|]. by apply lookup_lt_Some in Hl.
    + rewrite !list_lookup_insert_ne by done. apply Hlens.
  - rewrite (z_sum_insert _ _ _ _ Hl), Htotal. unfold wrap_u64.
    rewrite Zminus_mod_idemp_l, Z.add_mod_idemp_l by lia. done.
  - apply (add_postings_ok (λ j, if decide (j = i) then None else slot_doc (ix_docs ix) j)).
    + by eapply remove_postings_ok.
    + by rewrite decide_True.
    + intros j. rewrite Hslot. by case_decide.
Qed.

(** A new aircraft, in a retired slot or a fresh one. *)
Lemma doc_len_length ix : ix_wf ix → length (ix_doc_len ix) = length (ix_docs ix).
Proof.
  intros [_ _ Hlens _ _].
  apply Nat.le_antisymm; apply Nat.nlt_ge; intros Hlt; apply lookup_lt_is_Some in Hlt as [x Hx].
  - rewrite Hlens in Hx. apply fmap_Some in Hx as (o & Ho & _). apply lookup_lt_Some in Ho. lia.
  - pose proof (Hlens (length (ix_doc_len ix))) as Hl. rewrite Hx in Hl. cbn in Hl.
    apply lookup_lt_Some in Hl. lia.
Qed.

(** Filing a document that has no slot yet under an empty one. *)
Lemma keys_filed ix doc i by_key' docs' :
  ix_wf ix → ix_by_key ix !! fd_icao24 doc = None → slot_doc (ix_docs ix) i = None →
  by_key' = <[fd_icao24 doc := i]> (ix_by_key ix) →
  (∀ j, slot_doc docs' j = if decide (j = i) then Some doc else slot_doc (ix_docs ix) j) →
  ∀ k j, by_key' !! k = Some j ↔ ∃ d, slot_doc docs' j = Some d ∧ fd_icao24 d = k.
Proof.
  intros [Hkeys _ _ _ _] Hk Hi -> Hs k j.
  assert (∀ j d, slot_doc (ix_docs ix) j = Some d → fd_icao24 d ≠ fd_icao24 doc) as Hfresh.
  { intros j' d Hd E. assert (ix_by_key ix !! fd_icao24 doc = Some j'); [|congruence].
    apply Hkeys. eauto. }
  rewrite lookup_insert_Some, Hkeys, Hs. case_decide; subst; [|naive_solver]. rewrite Hi. naive_solver.
Qed.

Lemma ix_insert_new ix doc :
  ix_wf ix → ix_by_key ix !! fd_icao24 doc = None →
  ∃ ix' i, ix_insert ix doc = Some ix' ∧ ix_wf ix' ∧ slot_doc (ix_docs ix) i = None ∧
    (∀ j, slot_doc (ix_docs ix') j =
          if decide (j = i) then Some doc else slot_doc (ix_docs ix) j).
Proof.
  intros Hwf Hk. pose proof Hwf as [Hkeys [Hfnd Hfree] Hlens Htotal Hpost].
  pose proof (doc_len_length ix Hwf) as Hll.
  unfold ix_insert. rewrite Hk. destruct (last (ix_free ix)) as [slot|] eqn:El.
  - assert (slot ∈ ix_free ix) as Hin by by apply last_Some_elem_of.
    pose proof Hin as Hnone%Hfree. pose proof (lookup_lt_Some _ _ _ Hnone) as Hlt.
    rewrite !bool_decide_true by lia. cbn [andb mbind option_bind].
    assert (slot_doc (ix_docs ix) slot = None) as Hs by (unfold slot_doc; by rewrite Hnone).
    assert (∀ j, slot_doc (<[slot := Some doc]> (ix_docs ix)) j =
              if decide (j = slot) then Some doc else slot_doc (ix_docs ix) j) as Hslot
      by (intros; by apply slot_doc_insert).
    eexists _, slot. split; [done|]. split; [|by split].
    apply last_Some in El as [fr Efr].
    split; cbn [ix_docs ix_by_key ix_free ix_doc_len ix_total_len ix_postings].
    + by eapply keys_filed.
    + rewrite Efr, length_app, Nat.add_sub, take_app_length in *.
      apply NoDup_app in Hfnd as (Hfnd & Hdis & _). split; [done|]. intros j.
      destruct (decide (j = slot)) as [->|Hne].
      * rewrite list_lookup_insert_eq by done. split; [|done].
        intros Hj. exfalso. apply (Hdis _ Hj). by left.
      * rewrite list_lookup_insert_ne by done. rewrite <- Hfree, elem_of_app. set_solver.
    + intros j. destruct (decide (j = slot)) as [->|].
      * rewrite !list_lookup_insert_eq; [done|done|lia].
      * rewrite !list_lookup_insert_ne by done. apply Hlens.
    + rewrite (z_sum_insert _ _ 0), Htotal by (by rewrite Hlens, Hnone).
      unfold wrap_u64. rewrite Z.add_mod_idemp_l by lia. f_equal. lia.
    + by eapply add_postings_ok.
  - cbn [mbind option_bind]. apply last_None in El.
    pose proof (slot_doc_snoc (ix_docs ix) doc) as Hslot.
    assert (slot_doc (ix_docs ix) (length (ix_docs ix)) = None) as Hs.
    { unfold slot_doc. by rewrite lookup_ge_None_2. }
    eexists _, (length (ix_docs ix)). split; [done|]. split; [|by split].
    split; cbn [ix_docs ix_by_key ix_free ix_doc_len ix_total_len ix_postings].
    + by eapply keys_filed.
    + split; [done|]. intros j. rewrite Hfree, lookup_app.
      destruct (ix_docs ix !! j) as [o|] eqn:Ej; [done|].
      split; [done|]. intros Hj%list_elem_of_lookup_2. by apply list_elem_of_singleton in Hj.
    + intros j. destruct (decide (j < length (ix_docs ix))%nat).
      * rewrite !lookup_app_l by lia. apply Hlens.
      * rewrite !lookup_app_r by lia. rewrite Hll. by destruct (j - _)%nat.
    + rewrite z_sum_app, Htotal. unfold wrap_u64. rewrite Z.add_mod_idemp_l by lia.
      f_equal. unfold z_sum. simpl. lia.
    + by eapply add_postings_ok.
Qed.

Lemma ix_remove_spec ix k :
  ix_wf ix →
  ∃ ix' b, ix_remove ix k = Some (ix', b) ∧ ix_wf ix' ∧
    b = bool_decide (is_Some (contents ix !! k)) ∧ contents ix' = delete k (contents ix).
Proof.
  intros Hwf. unfold ix_remove. destruct (ix_by_key ix !! k) as [i|] eqn:Hk.
  2: { assert (contents ix !! k = None) as Hc by (unfold contents; by rewrite lookup_omap, Hk).
       exists ix, false. split_and!; [done..| |].
       - rewrite Hc. by rewrite bool_decide_false by (by intros []).
       - by rewrite delete_id. }
  pose proof Hk as (old & Hold & Eold)%(wf_keys _ Hwf).
  pose proof (slot_doc_lt _ _ _ Hold) as Hlt.
  pose proof Hwf as [Hkeys [Hfnd Hfree] Hlens Htotal Hpost].
  rewrite Hold. cbn [mbind option_bind].
  assert (ix_doc_len ix !! i = Some (freqs_sum (term_freqs old))) as Hl.
  { rewrite Hlens. apply slot_doc_Some in Hold. by rewrite Hold. }
  rewrite Hl. cbn [mbind option_bind].
  assert (∀ j, slot_doc (<[i := None]> (ix_docs ix)) j =
            if decide (j = i) then None else slot_doc (ix_docs ix) j) as Hslot
    by (intros; by apply slot_doc_insert).
  eexists _, _. split; [done|].
  match goal with |- ix_wf ?x ∧ _ => set (ix' := x) end.
  assert (ix_wf ix') as Hwf'.
  { split; cbn [ix' ix_docs ix_by_key ix_free ix_doc_len ix_total_len ix_postings].
    - intros k' j. rewrite lookup_delete_Some, Hkeys, Hslot. case_decide; subst; [|].
      + split; [|naive_solver]. intros [Hne (d & Hd & <-)]. rewrite Hold in Hd. naive_solver.
      + split; [naive_solver|]. intros (d & Hd & <-). split; [|by eauto]. intros E.
        by apply (slot_unique ix i j old d) in Hold.
    - apply slot_doc_Some in Hold. split.
      + apply NoDup_app. split_and!; [done| |apply NoDup_singleton].
        intros j Hj ->%list_elem_of_singleton. apply Hfree in Hj. congruence.
      + intros j. rewrite elem_of_app, list_elem_of_singleton, Hfree.
        destruct (decide (j = i)) as [->|].
        * rewrite list_lookup_insert_eq by done. naive_solver.
        * rewrite list_lookup_insert_ne by done. naive_solver.
    - intros j. destruct (decide (j = i)) as [->|].
      + rewrite !list_lookup_insert_eq; [done|done|]. by apply lookup_lt_Some in Hl.
      + rewrite !list_lookup_insert_ne by done. apply Hlens.
    - rewrite (z_sum_insert _ _ _ _ Hl), Htotal. unfold wrap_u64.
      rewrite Zminus_mod_idemp_l. f_equal. lia.
    - by eapply remove_postings_ok. }
  split_and!; [done| |].
  - symmetry. apply bool_decide_true. exists old. apply contents_lookup; eauto.
  - apply map_eq. intros k'. apply option_eq. intros d.
    rewrite contents_lookup, lookup_delete_Some, contents_lookup by done.
    change (ix_docs ix') with (<[i := None]> (ix_docs ix)). setoid_rewrite Hslot. split.
    + intros (j & Hj & <-). case_decide; [done|]. split; [|by eauto]. intros ->.
      by apply (slot_unique ix i j old d) in Hold.
    + intros [Hne (j & Hj & <-)]. exists j. split; [|done].
      rewrite decide_False; [done|]. intros ->. rewrite Hold in Hj. naive_solver.
Qed.

Lemma ix_insert_spec ix doc :
  ix_wf ix →
  ∃ ix', ix_insert ix doc = Some ix' ∧ ix_wf ix' ∧
    contents ix' = <[fd_icao24 doc := doc]> (contents ix).
Proof.
  intros Hwf.
  assert (∃ ix' i, ix_insert ix doc = Some ix' ∧ ix_wf ix' ∧
    (∀ d, slot_doc (ix_docs ix) i = Some d → fd_icao24 d = fd_icao24 doc) ∧
    (∀ j d, slot_doc (ix_docs ix) j = Some d → fd_icao24 d = fd_icao24 doc → j = i) ∧
    (∀ j, slot_doc (ix_docs ix') j =
          if decide (j = i) then Some doc else slot_doc (ix_docs ix) j)) as
    (ix' & i & E & Hwf' & Hi & Hu & Hslot).
  { destruct (ix_by_key ix !! fd_icao24 doc) as [i|] eqn:Hk.
    - destruct (ix_insert_update ix doc i Hwf Hk) as (ix' & E & Hwf' & Hs).
      exists ix', i. apply (wf_keys _ Hwf) in Hk as (old & Hold & Eold).
      split_and!; try done; [naive_solver|]. intros j d Hd E'.
      apply (slot_unique ix j i d old); congruence.
    - destruct (ix_insert_new ix doc Hwf Hk) as (ix' & i & E & Hwf' & Hn & Hs).
      exists ix', i. split_and!; try done; [naive_solver|]. intros j d Hd E'.
      assert (ix_by_key ix !! fd_icao24 doc = Some j); [|congruence].
      apply (wf_keys _ Hwf). eauto. }
  exists ix'. split_and!; [done..|]. apply map_eq. intros k. apply option_eq. intros d.
  rewrite contents_lookup, lookup_insert_Some, contents_lookup by done.
  setoid_rewrite Hslot. split.
  - intros (j & Hj & <-). case_decide; [left; naive_solver|].
    destruct (decide (fd_icao24 d = fd_icao24 doc)); [by eapply Hu in Hj|]. right. eauto.
  - intros [[<- <-]|[Hne (j & Hj & <-)]]; [exists i; by rewrite decide_True|].
    exists j. rewrite decide_False; [done|]. intros ->. by apply Hi in Hj.
Qed.

(** *** Scoring *)

Lemma distinct_elem seen terms t : t ∈ distinct seen terms ↔ t ∈ terms ∧ t ∉ seen.
Proof.
  revert seen. induction terms as [|x terms IH]; intros seen; cbn [distinct].
  { split; [|tauto]. intros H%elem_of_nil. done. }
  case_decide; rewrite ?elem_of_cons, IH; [set_solver|].
  destruct (decide (t = x)); set_solver.
Qed.

Lemma post_fold_lookup ix idf avgdl ps scores :
  NoDup (po_doc_id <$> ps) → (∀ p, p ∈ ps → is_Some (ix_doc_len ix !! po_doc_id p)) →
  ∃ out, foldl (post_step bm25_params ix idf avgdl) (Some scores) ps = Some out ∧
    (∀ i, i ∉ po_doc_id <$> ps → out !! i = scores !! i) ∧
    (∀ p dl, p ∈ ps → ix_doc_len ix !! po_doc_id p = Some dl →
       out !! po_doc_id p = Some (f64_add (default f64_zero (scores !! po_doc_id p))
         (f64_mul idf (bm25_norm bm25_params (f64_of_Z (po_term_freq p)) (f64_of_Z dl) avgdl)))).
Proof.
  revert scores. induction ps as [|p ps IH]; intros scores Hnd Hl.
  { exists scores. split_and!; [done..|]. intros p dl Hp%elem_of_nil. done. }
  apply NoDup_cons in Hnd as [Hp Hnd]. destruct (Hl p) as [dl Hdl]; [by left|].
  cbn [foldl]. unfold post_step at 2. cbn [mbind option_bind]. rewrite Hdl. cbn [mbind option_bind].
  destruct (IH (<[po_doc_id p := f64_add (default f64_zero (scores !! po_doc_id p))
    (f64_mul idf (bm25_norm bm25_params (f64_of_Z (po_term_freq p)) (f64_of_Z dl) avgdl))]> scores))
    as (out & E & H1 & H2); [done|intros; apply Hl; by right|].
  exists out. split_and!; [done| |].
  - intros i Hi. apply not_elem_of_cons in Hi as [Hne Hi]. rewrite H1 by done.
    by rewrite lookup_insert_ne.
  - intros q dq [->|Hq]%elem_of_cons Hdq.
    + rewrite H1 by done. rewrite lookup_insert_eq. congruence.
    + rewrite (H2 q dq) by done. rewrite lookup_insert_ne; [done|]. intros E'. apply Hp.
      rewrite E'. by apply list_elem_of_fmap_2.
Qed.

Definition ix_docs_live (ix : InvertedIndex) : list FlightDocument := ix_documents ix.

Lemma documents_omap ix :
  ix_documents ix = omap (slot_doc (ix_docs ix)) (seq 0 (length (ix_docs ix))).
Proof. unfold ix_documents, ix_doc_refs, slot_doc. by rewrite omap_seq_lookup. Qed.

Lemma posting_count ix t :
  ix_wf ix → length (plist (ix_postings ix) t) = corpus_df (ix_documents ix) t.
Proof.
  intros Hwf. pose proof (wf_post _ Hwf) as [_ Hnd Hiff].
  rewrite <- (length_fmap po_doc_id). unfold corpus_df. rewrite documents_omap.
  rewrite <- (length_fmap id (filter _ _)), <- omap_filter_fmap.
  trans (length (filter (λ i, is_Some (slot_doc (ix_docs ix) i ≫= λ d, term_freqs d !! t))
                   (seq 0 (length (ix_docs ix))))).
  - apply Permutation_length, NoDup_Permutation;
      [apply Hnd|apply NoDup_filter, NoDup_seq|].
    intros i. rewrite list_elem_of_filter, elem_of_seq, list_elem_of_fmap. split.
    + intros (p & -> & (d & Hd & Hf)%Hiff). rewrite Hd. cbn. split; [by eauto|].
      apply slot_doc_lt in Hd. lia.
    + intros [[v Hv] _]. apply bind_Some in Hv as (d & Hd & Hv).
      exists {| po_doc_id := i; po_term_freq := v |}. split; [done|]. apply Hiff. eauto.
  - clear. induction (seq 0 _) as [|i l IH]; [done|]. rewrite filter_cons.
    cbn [omap list_omap]. destruct (slot_doc (ix_docs ix) i) as [d|]; cbn [mbind option_bind].
    + destruct (decide (is_Some (term_freqs d !! t))); [apply (f_equal S)|]; exact IH.
    + rewrite decide_False by (by intros []). apply IH.
Qed.

Lemma by_key_size ix : ix_wf ix → size (ix_by_key ix) = length (ix_documents ix).
Proof.
  intros Hwf. rewrite <- length_map_to_list, <- (length_fmap (λ ki : string * nat, ki.2)).
  rewrite documents_omap.
  trans (length (filter (λ i, is_Some (slot_doc (ix_docs ix) i)) (seq 0 (length (ix_docs ix))))).
  - apply Permutation_length, NoDup_Permutation; [|apply NoDup_filter, NoDup_seq|].
    + apply NoDup_fmap_2_strong; [|apply NoDup_map_to_list].
      intros [k i] [k' i'] H1%elem_of_map_to_list H2%elem_of_map_to_list E. simpl in E. subst.
      apply (wf_keys _ Hwf) in H1 as (d & Hd & <-), H2 as (d' & Hd' & <-). congruence.
    + intros i. rewrite list_elem_of_filter, elem_of_seq, list_elem_of_fmap. split.
      * intros ([k i'] & -> & Hin%elem_of_map_to_list). apply (wf_keys _ Hwf) in Hin as (d & Hd & _).
        simpl. split; [by eauto|]. apply slot_doc_lt in Hd. lia.
      * intros [[d Hd] _]. exists (fd_icao24 d, i). split; [done|].
        apply elem_of_map_to_list, (wf_keys _ Hwf). eauto.
  - clear. induction (seq 0 _) as [|i l IH]; [done|]. rewrite filter_cons. cbn [omap list_omap].
    destruct (slot_doc (ix_docs ix) i) as [d|].
    + rewrite decide_True by eauto. cbn. by rewrite IH.
    + rewrite decide_False by (by intros []). done.
Qed.

Lemma total_len_sum ix :
  ix_wf ix →
  ix_total_len ix = wrap_u64 (z_sum ((λ d, freqs_sum (term_freqs d)) <$> ix_documents ix)).
Proof.
  intros Hwf. rewrite (wf_total _ Hwf). f_equal.
  assert (ix_doc_len ix = (λ o, match o with Some d => freqs_sum (term_freqs d) | None => 0 end)
            <$> ix_docs ix) as ->.
  { apply list_eq. intros i. rewrite list_lookup_fmap. apply (wf_lens _ Hwf). }
  unfold ix_documents, ix_doc_refs. induction (ix_docs ix) as [|[d|] l IH]; [done|..];
    cbn in *; unfold z_sum in *; cbn; rewrite IH; done.
Qed.

(** One term's contribution to the score map, slot by slot. *)
Lemma term_post_lookup ix scores t :
  ix_wf ix →
  let docs := ix_documents ix in
  ∃ out,
    match ix_postings ix !! t with
    | Some postings =>
        foldl (post_step bm25_params ix
          (bm25_idf (f64_of_Z (Z.of_nat (length docs))) (f64_of_Z (Z.of_nat (length postings))))
          (corpus_avgdl docs)) (Some scores) postings
    | None => Some scores
    end = Some out ∧
    ∀ i, out !! i =
      match slot_doc (ix_docs ix) i ≫= (λ d, term_weight bm25_params docs d t) with
      | Some w => Some (f64_add (default f64_zero (scores !! i)) w)
      | None => scores !! i
      end.
Proof.
  intros Hwf docs. pose proof (wf_post _ Hwf) as [_ Hnd Hiff].
  pose proof (posting_count ix t Hwf) as Hdf. specialize (Hnd t).
  assert (∀ p, p ∈ plist (ix_postings ix) t → ∃ d, slot_doc (ix_docs ix) (po_doc_id p) = Some d ∧
    term_freqs d !! t = Some (po_term_freq p) ∧
    ix_doc_len ix !! po_doc_id p = Some (freqs_sum (term_freqs d))) as Hp.
  { intros p (d & Hd & Hf)%Hiff. exists d. split_and!; [done..|].
    rewrite (wf_lens _ Hwf). apply slot_doc_Some in Hd. by rewrite Hd. }
  assert (∀ i, i ∉ po_doc_id <$> plist (ix_postings ix) t →
    slot_doc (ix_docs ix) i ≫= (λ d, term_weight bm25_params docs d t) = None) as Hno.
  { intros i Hi. destruct (slot_doc (ix_docs ix) i) as [d|] eqn:Ed; [|done]. cbn.
    unfold term_weight. destruct (term_freqs d !! t) as [v|] eqn:Ev; [|done]. exfalso.
    apply Hi. apply list_elem_of_fmap. exists {| po_doc_id := i; po_term_freq := v |}.
    split; [done|]. apply Hiff. eauto. }
  destruct (ix_postings ix !! t) as [ps|] eqn:Et; cbn [default from_option id] in *.
  2: { exists scores. split; [done|]. intros i. rewrite Hno; [done|]. apply not_elem_of_nil. }
  destruct (post_fold_lookup ix
    (bm25_idf (f64_of_Z (Z.of_nat (length docs))) (f64_of_Z (Z.of_nat (length ps))))
    (corpus_avgdl docs) ps scores Hnd) as (out & E & H1 & H2).
  { intros p Hin. destruct (Hp p Hin) as (d & _ & _ & Hl). eauto. }
  exists out. split; [done|]. intros i.
  destruct (decide (i ∈ po_doc_id <$> ps)) as [Hi|Hi].
  - apply list_elem_of_fmap in Hi as (p & -> & Hin). destruct (Hp p Hin) as (d & Hd & Hf & Hl).
    rewrite (H2 p _ Hin Hl), Hd. cbn. unfold term_weight. rewrite Hf. cbn. by rewrite Hdf.
  - by rewrite H1, Hno.
Qed.

Lemma term_fold_lookup ix terms seen scores :
  ix_wf ix →
  let docs := ix_documents ix in
  ∃ out,
    (foldl (term_step bm25_params ix (f64_of_Z (Z.of_nat (length docs))) (corpus_avgdl docs))
       (seen, Some scores) terms).2 = Some out ∧
    ∀ i, out !! i =
      match omap (λ t, slot_doc (ix_docs ix) i ≫= (λ d, term_weight bm25_params docs d t))
              (distinct seen terms) with
      | [] => scores !! i
      | ws => Some (foldl f64_add (default f64_zero (scores !! i)) ws)
      end.
Proof.
  intros Hwf docs. revert seen scores. induction terms as [|t terms IH]; intros seen scores.
  { by exists scores. }
  cbn [foldl distinct]. unfold term_step at 2. case_decide as Hs; [apply IH|].
  destruct (term_post_lookup ix scores t Hwf) as (mid & Em & Hm).
  replace (match ix_postings ix !! t with
           | Some postings => _ | None => _ end) with (Some mid).
  destruct (IH ({[t]} ∪ seen) mid) as (out & E & Ho). exists out. split; [exact E|].
  intros i. rewrite Ho, Hm. cbn [omap list_omap]. fold docs.
  destruct (slot_doc (ix_docs ix) i ≫= _) as [w|]; [|done]. by destruct (omap _ _).
Qed.

Lemma ix_wf_new : ix_wf ix_new.
Proof.
  split; cbn.
  - intros k i. rewrite lookup_empty. split; [done|]. intros (d & Hd & _). done.
  - split; [constructor|]. intros i. rewrite lookup_nil. split; [intros H%elem_of_nil|]; done.
  - done.
  - done.
  - split; [done|constructor|]. intros t p. rewrite lookup_empty. cbn. split.
    + intros H%elem_of_nil. done.
    + intros (d & Hd & _). done.
Qed.

Lemma documents_spec ix :
  ix_wf ix →
  NoDup (fd_icao24 <$> ix_documents ix) ∧
  ∀ d, d ∈ ix_documents ix ↔ contents ix !! fd_icao24 d = Some d.
Proof.
  intros Hwf. split.
  - rewrite documents_omap.
    assert (∀ l, NoDup l → NoDup (fd_icao24 <$> omap (slot_doc (ix_docs ix)) l)) as H;
      [|apply H, NoDup_seq].
    induction l as [|i l IH]; [constructor|]. intros [Hi Hnd]%NoDup_cons. cbn.
    destruct (slot_doc (ix_docs ix) i) as [d|] eqn:Ed; [|auto]. cbn.
    apply NoDup_cons. split; [|auto].
    intros (d' & E & (j & Hj & Hd')%list_elem_of_omap)%list_elem_of_fmap.
    by rewrite (slot_unique ix i j d d') in Hi.
  - intros d. rewrite documents_omap, contents_lookup by done. rewrite list_elem_of_omap. split.
    + intros (i & _ & Hi). eauto.
    + intros (i & Hi & _). exists i. split; [|done]. apply elem_of_seq.
      apply slot_doc_lt in Hi. lia.
Qed.

Lemma documents_size ix : ix_wf ix → length (ix_documents ix) = size (contents ix).
Proof.
  intros Hwf. destruct (documents_spec ix Hwf) as [Hnd Hin].
  rewrite <- (length_map_to_list (contents ix)), <- (length_fmap fst), <- (length_fmap fd_icao24).
  apply Permutation_length, NoDup_Permutation; [done|apply NoDup_fst_map_to_list|].
  intros k. rewrite !list_elem_of_fmap. split.
  - intros (d & -> & Hd). exists (fd_icao24 d, d). split; [done|].
    apply elem_of_map_to_list. by apply Hin.
  - intros ([k' d] & -> & Hkd%elem_of_map_to_list). exists d. simpl.
    pose proof (contents_key ix k' d Hwf Hkd) as <-. split; [done|]. by apply Hin.
Qed.

Lemma scores_spec ix terms :
  ix_wf ix →
  let docs := ix_documents ix in
  ∃ scores, ix_scores bm25_params ix terms = Some scores ∧
    ∀ i, scores !! i =
      d ← slot_doc (ix_docs ix) i;
      if decide (matches terms d) then Some (bm25_score bm25_params docs terms d) else None.
Proof.
  intros Hwf docs. unfold ix_scores.
  assert ((if bool_decide (ix_by_key ix = ∅) then f64_one
           else f64_max (f64_div (f64_of_Z (ix_total_len ix))
                  (f64_of_Z (Z.of_nat (size (ix_by_key ix))))) f64_one) = corpus_avgdl docs) as ->.
  { unfold corpus_avgdl. rewrite (by_key_size ix), (total_len_sum ix) by done.
    assert (bool_decide (ix_by_key ix = ∅) = bool_decide (docs = [])) as ->; [|done].
    apply bool_decide_ext. rewrite <- length_zero_iff_nil. unfold docs.
    rewrite <- (by_key_size ix), map_size_empty_iff by done. done. }
  rewrite (by_key_size ix) by done.
  destruct (term_fold_lookup ix terms ∅ ∅ Hwf) as (out & E & Ho). exists out. split; [exact E|].
  intros i. rewrite Ho, lookup_empty. cbn [default from_option id].
  destruct (slot_doc (ix_docs ix) i) as [d|]; cbn [mbind option_bind].
  2: { clear Ho. induction (distinct ∅ terms) as [|t l IH]; [done|]. exact IH. }
  fold docs. unfold bm25_score. case_decide as Hm.
  - destruct (omap _ _) as [|w ws] eqn:Ew; [|done]. exfalso.
    unfold matches in Hm. apply Exists_exists in Hm as (t & Ht & Hd).
    apply term_freqs_dom in Hd as [v Hv].
    assert (t ∈ distinct ∅ terms) as Hin by (apply distinct_elem; set_solver).
    assert (∃ w, w ∈ omap (λ t, term_weight bm25_params docs d t) (distinct ∅ terms)) as [w Hw].
    { unfold term_weight. eexists. apply list_elem_of_omap. exists t. split; [done|].
      rewrite Hv. done. }
    rewrite Ew in Hw. by apply elem_of_nil in Hw.
  - destruct (omap _ _) as [|w ws] eqn:Ew; [done|]. exfalso. apply Hm.
    assert (w ∈ w :: ws) as Hin by left. rewrite <- Ew in Hin.
    apply list_elem_of_omap in Hin as (t & Ht & Hw). apply distinct_elem in Ht as [Ht _].
    unfold matches. apply Exists_exists. exists t. split; [done|]. apply term_freqs_dom.
    unfold term_weight in Hw. destruct (term_freqs d !! t); [by eauto|done].
Qed.

(** Resolving the scored slots gives the matching documents, each with its score. *)
Lemma ranked_hits ix terms scores :
  ix_wf ix → ix_scores bm25_params ix terms = Some scores →
  ∃ hits, mapM (λ ds : DocId * f64,
             doc ← slot_doc (ix_docs ix) ds.1;
             Some {| sc_doc := doc; sc_score := ds.2 |}) (hm_order scores) = Some hits ∧
    size scores = length hits ∧
    hits ≡ₚ (λ d, {| sc_doc := d; sc_score := bm25_score bm25_params (ix_documents ix) terms d |})
              <$> filter (matches terms) (ix_documents ix).
Proof.
  intros Hwf E. set (docs := ix_documents ix).
  destruct (scores_spec ix terms Hwf) as (scores' & E' & Hs). fold docs in Hs.
  assert (scores' = scores) as -> by congruence.
  set (mk := λ ds : nat * f64, d ← slot_doc (ix_docs ix) ds.1;
               Some {| sc_doc := d; sc_score := ds.2 |}).
  assert (hm_order scores ≡ₚ omap (λ i, (pair i) <$> scores !! i) (seq 0 (length (ix_docs ix))))
    as Hperm.
  { apply NoDup_Permutation; [apply hm_order_NoDup| |].
    - apply NoDup_omap_pair, NoDup_seq.
    - intros [i sc]. rewrite elem_of_hm_order, list_elem_of_omap. split.
      + intros Hi. exists i. rewrite Hi. split; [|done]. apply elem_of_seq.
        rewrite Hs in Hi. apply bind_Some in Hi as (d & Hd & _). apply slot_doc_lt in Hd. lia.
      + intros (j & _ & (x & Hx & [= <- <-])%fmap_Some). done. }
  assert (∀ ds, ds ∈ hm_order scores → is_Some (mk ds)) as Hmk.
  { intros [i sc] Hin%elem_of_hm_order. rewrite Hs in Hin.
    apply bind_Some in Hin as (d & Hd & _). unfold mk. cbn. rewrite Hd. cbn. eauto. }
  exists (omap mk (hm_order scores)). split_and!; [by apply mapM_omap| |].
  - rewrite <- hm_order_length. symmetry. by apply length_omap_total.
  - rewrite Hperm. unfold docs at 2. rewrite documents_omap, <- omap_filter_fmap.
    match goal with |- ?a ≡ₚ ?b => cut (a = b); [by intros ->|] end.
    clear Hperm. induction (seq 0 (length (ix_docs ix))) as [|i l IH]; [done|].
    cbn [omap list_omap]. rewrite Hs. unfold mk at 1.
    destruct (slot_doc (ix_docs ix) i) as [d|] eqn:Ed; cbn [mbind option_bind fmap option_fmap option_map];
      [|exact IH].
    destruct (decide (matches terms d)); cbn [fmap option_fmap option_map omap list_omap fst snd];
      [|exact IH]. rewrite Ed. cbn [mbind option_bind]. f_equal. exact IH.
Qed.

(** The iteration order does not matter for which documents match. *)
Lemma doc_tokens_order (HO1 HO2 : HashOrder) t d :
  t ∈ doc_tokens (HO := HO1) d ↔ t ∈ doc_tokens (HO := HO2) d.
Proof.
  unfold doc_tokens. rewrite !list_elem_of_bind.
  split; intros (v & Hv & Hin); (exists v; split; [done|]); revert Hin;
    rewrite !elem_of_app, !elem_of_hm_values; done.
Qed.

Lemma matches_order (HO1 HO2 : HashOrder) terms d :
  matches (HO := HO1) terms d ↔ matches (HO := HO2) terms d.
Proof. unfold matches. rewrite !Exists_exists. by setoid_rewrite (doc_tokens_order HO1 HO2). Qed.

Lemma no_terms_match docs : filter (matches []) docs = [].
Proof. apply filter_none, Forall_forall. intros d _ H. unfold matches in H. by inversion H. Qed.

(** Search never panics, and without a limit finds exactly the matching documents. *)
Lemma ix_search_docs ix query :
  ix_wf ix →
  ∃ r, ix_search bm25_params ix query 0 = Some r ∧
    sc_doc <$> rs_hits r ≡ₚ filter (matches (tokenize query)) (ix_documents ix).
Proof.
  intros Hwf. unfold ix_search. case_bool_decide as Ht.
  { rewrite Ht, no_terms_match. by eexists. }
  destruct (scores_spec ix (tokenize query) Hwf) as (scores & E & _).
  destruct (ranked_hits ix (tokenize query) scores Hwf E) as (hits & Eh & _ & Hp).
  rewrite E. cbn [mbind option_bind]. rewrite Eh. cbn [mbind option_bind].
  eexists. split; [done|]. cbn [rs_hits]. rewrite truncate_limit_zero, sort_by_perm, Hp.
  rewrite <- list_fmap_compose. cbn. by rewrite list_fmap_id.
Qed.

Lemma ix_search_total ix query limit :
  ix_wf ix → ∃ r, ix_search bm25_params ix query limit = Some r.
Proof.
  intros Hwf. unfold ix_search. case_bool_decide; [by eexists|].
  destruct (scores_spec ix (tokenize query) Hwf) as (scores & E & _).
  destruct (ranked_hits ix (tokenize query) scores Hwf E) as (hits & Eh & _).
  rewrite E. cbn [mbind option_bind]. rewrite Eh. by eexists.
Qed.
End lemmas.

(** ** Properties *)

Section properties.
Context {HO : HashOrder} {UC : Unicode} {FL : FloatLib} (bm25_params : f64 * f64).

(** C35: the index implements a map from aircraft to their latest document. Whatever
    sequence of inserts (upserts) and removals is applied to an empty index, no [expect]
    or slot access ever panics, every structure stays in lockstep (postings, key map,
    free list, document lengths and their total), the contents are those of the map, and
    the stored documents are exactly its values, one per aircraft. *)
Theorem index_refines_map (ops : list ix_op) :
  ∃ ix, foldl ix_exec (Some ix_new) ops = Some ix ∧ ix_wf ix ∧
    contents ix = foldl map_exec ∅ ops ∧
    NoDup (fd_icao24 <$> ix_documents ix) ∧
    (∀ d, d ∈ ix_documents ix ↔ foldl map_exec ∅ ops !! fd_icao24 d = Some d) ∧
    ix_len ix = size (foldl map_exec ∅ ops).
Proof.
  assert (∃ ix, foldl ix_exec (Some ix_new) ops = Some ix ∧ ix_wf ix ∧
    contents ix = foldl map_exec ∅ ops) as (ix & E & Hwf & Hc).
  { induction ops as [|op ops (ix & E & Hwf & Hc)] using rev_ind.
    { exists ix_new. split_and!; [done|apply ix_wf_new|done]. }
    rewrite !foldl_snoc, E. destruct op as [d|k]; cbn [ix_exec mbind option_bind map_exec].
    - destruct (ix_insert_spec ix d Hwf) as (ix' & E' & Hwf' & Hc').
      exists ix'. by rewrite Hc', Hc.
    - destruct (ix_remove_spec ix k Hwf) as (ix' & b & E' & Hwf' & _ & Hc').
      exists ix'. rewrite E'. cbn. by rewrite Hc', Hc. }
  destruct (documents_spec ix Hwf) as [Hnd Hin]. exists ix.
  split_and!; try done; [by rewrite <- Hc|].
  rewrite <- Hc. unfold ix_len. rewrite by_key_size by done. by apply documents_size.
Qed.

(** C38: keyword search is exact BM25 over the contents. On an index any operations
    built, it never panics; the total is the number of documents containing a query term;
    the hits, before the limit, are those documents once each, scored with the BM25
    formula computed from the documents alone; they are sorted by the ranking comparator
    and truncated to the limit. *)
Theorem search_exact (ix : InvertedIndex) (query : string) (limit : nat) (Hwf : ix_wf ix) :
  let docs := ix_documents ix in
  let terms := tokenize query in
  ∃ r hits, ix_search bm25_params ix query limit = Some r ∧
    rs_total_matched r = length (filter (matches terms) docs) ∧
    hits ≡ₚ (λ d, {| sc_doc := d; sc_score := bm25_score bm25_params docs terms d |})
              <$> filter (matches terms) docs ∧
    rs_hits r = truncate_limit limit (sort_by hit_cmp hits).
Proof.
  intros docs terms. unfold ix_search. fold terms. case_bool_decide as Ht.
  { eexists _, []. split; [done|]. cbn [rs_total_matched rs_hits].
    rewrite Ht, no_terms_match. split_and!; try done. by destruct limit. }
  destruct (scores_spec bm25_params ix terms Hwf) as (scores & E & _).
  destruct (ranked_hits bm25_params ix terms scores Hwf E) as (hits & Eh & Hl & Hp).
  rewrite E. cbn [mbind option_bind]. rewrite Eh. cbn [mbind option_bind].
  exists {| rs_total_matched := size scores;
            rs_hits := truncate_limit limit (sort_by hit_cmp hits) |}, hits.
  split_and!; [done| |exact Hp|done].
  cbn [rs_total_matched]. apply Permutation_length in Hp. by rewrite Hl, Hp, length_fmap.
Qed.
End properties.

(** ** Witnesses *)

Definition doc_of (id callsign : string) : FlightDocument :=
  {| fd_icao24 := id; fd_callsign := callsign; fd_observed_at := 0;
     fd_latitude := f64_zero; fd_longitude := f64_zero; fd_altitude := f64_zero;
     fd_origin := ""; fd_destination := ""; fd_aircraft_type := "";
     fd_velocity := f64_zero; fd_heading := f64_zero; fd_vertical_rate := f64_zero;
     fd_on_ground := false; fd_tenant_id := ""; fd_text := ∅; fd_number := ∅ |}.

Definition one_indexed : InvertedIndex :=
  default ix_new (@ix_insert canonical_order ascii_only ix_new (doc_of "abc123" "UAL1")).

(** The one document of the index carries the word asked for. *)
Lemma search_exact_witness :
  ∃ r, @ix_search canonical_order ascii_only whole_numbers (f64_one, f64_one) one_indexed "ual1" 5
         = Some r ∧ rs_total_matched r = 1%nat.
Proof.
  assert (@ix_wf canonical_order ascii_only one_indexed) as Hwf.
  { unfold one_indexed. destruct (@ix_insert_spec canonical_order ascii_only ix_new (doc_of "abc123" "UAL1"))
      as (ix' & -> & H & _); [apply ix_wf_new|exact H]. }
  destruct (@search_exact canonical_order ascii_only whole_numbers (f64_one, f64_one) one_indexed
    "ual1" 5 Hwf) as (r & hits & E & Ht & _).
  exists r. split; [exact E|]. rewrite Ht. vm_compute. reflexivity.
Defined.
