(* ===== verification/Embed.v ===== *)
(** * Embeddings and quantized vectors: [crates/common/src/embed.rs],
    [crates/shard-node/src/quant.rs] *)

From S2P Require Export Float Shard.

(** ** Embedders *)

Definition EMBED_DIM : nat := 128.

Class Embedder := {
  embed : string → list f32;
  embed_dim : nat;
}.

Definition dot (a b : list f32) : f32 := f32_sum (zip_with f32_mul a b).

Definition l2_normalize (v : list f32) : list f32 :=
  let norm := f32_sqrt (f32_sum ((λ x, f32_mul x x) <$> v)) in
  if f32_gtb norm f32_zero then (λ x, f32_div x norm) <$> v else v.

(** One token: the hash picks the bucket, its top bit the sign. *)
Definition hash_token (v : list f32) (token : string) : list f32 :=
  let h := fnv1a_64 (str_bytes token) in
  let bucket := Z.to_nat (h mod Z.of_nat EMBED_DIM) in
  let sign := if Z.land (Z.shiftr h 63) 1 =? 1 then f32_of_Z 1 else f32_of_Z (-1) in
  alter (λ x, f32_add x sign) bucket v.

Definition hash_embed {UC : Unicode} (text : string) : list f32 :=
  l2_normalize (foldl hash_token (replicate EMBED_DIM f32_zero) (tokenize text)).

Definition HashEmbedder {UC : Unicode} : Embedder :=
  {| embed := hash_embed; embed_dim := EMBED_DIM |}.

(** ** Quantization *)

Definition OVERSAMPLE : nat := 4.

Record QuantizedVector := {
  qv_bits : list Z;
  qv_correction : f32;
  qv_dims : nat;
}.

Definition positive (x : f32) : bool := f32_gtb x f32_zero.

(** [usize::div_ceil]. *)
Definition div_ceil (n d : nat) : nat := ((n + (d - 1)) / d)%nat.

(** [bits[i / 64] |= 1 << (i % 64)]. *)
Definition set_bit (bits : list Z) (ix : nat * f32) : list Z :=
  if positive ix.2
  then alter (λ w, Z.lor w (Z.shiftl 1 (Z.of_nat (ix.1 mod 64)))) (ix.1 / 64)%nat bits
  else bits.

Definition quantize (v : list f32) : QuantizedVector :=
  let bits := foldl set_bit (replicate (div_ceil (length v) 64) 0) (enumerate v) in
  let abs_sum := foldl (λ s x, f32_add s (f32_abs x)) f32_zero v in
  {| qv_bits := bits;
     qv_correction := f32_div abs_sum (f32_of_Z (Z.of_nat (Nat.max (length v) 1)));
     qv_dims := length v |}.

(** [u64::count_ones]. *)
Definition count_ones (w : Z) : nat :=
  length (filter (λ j, Z.testbit w (Z.of_nat j) = true) (seq 0 64)).

Definition hamming (a b : QuantizedVector) : nat :=
  sum_list (zip_with (λ x y, count_ones (Z.lxor x y)) (qv_bits a) (qv_bits b)).

Definition memory_bytes (q : QuantizedVector) : nat := (length (qv_bits q) * 8 + 4)%nat.

(** ** Specification *)

(** The dimensions on which two vectors disagree in sign. *)
Definition disagreements (a b : list f32) : list nat :=
  filter (λ i, positive <$> a !! i ≠ positive <$> b !! i) (seq 0 (length a)).

(** ** Lemmas *)

Lemma hash_token_length v t : length (hash_token v t) = length v.
Proof. apply length_alter. Qed.

Lemma hash_embed_length {UC : Unicode} text : length (hash_embed text) = EMBED_DIM.
Proof.
  unfold hash_embed, l2_normalize.
  assert (∀ l v, length (foldl hash_token v l) = length v) as H.
  { induction l as [|t l IH]; intros v; [done|]. simpl. by rewrite IH, hash_token_length. }
  case_match; rewrite ?length_fmap, H, length_replicate; done.
Qed.

Lemma set_bit_length bits ix : length (set_bit bits ix) = length bits.
Proof. unfold set_bit. case_match; [apply length_alter|done]. Qed.

(** The words of a quantized prefix, bit by bit. *)
Lemma set_bits_testbit v n w j :
  (length v ≤ 64 * n)%nat → (w < n)%nat → (j < 64)%nat →
  ∃ word, foldl set_bit (replicate n 0) (enumerate v) !! w = Some word ∧
    Z.testbit word (Z.of_nat j) = default false (positive <$> v !! (64 * w + j)%nat).
Proof.
  intros Hn Hw Hj. induction v as [|x v IH] using rev_ind.
  { exists 0. split; [by apply lookup_replicate_2|]. by rewrite Z.bits_0. }
  rewrite length_app in Hn. simpl in Hn. destruct IH as (word & Hword & Hbit); [lia|].
  unfold enumerate in *. rewrite length_app. cbn [length].
  rewrite seq_app, zip_with_app by (by rewrite length_seq). rewrite foldl_app.
  cbn [seq zip_with foldl]. rewrite Nat.add_0_l.
  unfold set_bit at 1. cbn [fst snd].
  assert (Hlook : ∀ i, (v ++ [x]) !! i = if decide (i = length v) then Some x else v !! i).
  { intros i. case_decide as E; subst; [by rewrite list_lookup_middle|].
    destruct (decide (i < length v)%nat); [by rewrite lookup_app_l|].
    rewrite !lookup_ge_None_2; [done|lia|rewrite length_app; simpl; lia]. }
  rewrite Hlook. pose proof (Nat.div_mod_eq (length v) 64) as Hdm.
  pose proof (Nat.mod_upper_bound (length v) 64 ltac:(lia)) as Hmod.
  destruct (positive x) eqn:Ex.
  - destruct (decide (w = length v / 64)%nat) as [->|Hne].
    + eexists. rewrite list_lookup_alter_eq, Hword. split; [done|].
      rewrite Z.lor_spec, Z.shiftl_spec, Hbit by lia. case_decide as E.
      * assert (Z.of_nat j - Z.of_nat (length v mod 64) = 0) as -> by lia.
        cbn. by rewrite Ex, orb_true_r.
      * assert (Z.of_nat j - Z.of_nat (length v mod 64) ≠ 0) as Hd by lia.
        destruct (Z.of_nat j - Z.of_nat (length v mod 64)); [done|..];
          cbn [Z.testbit]; by rewrite orb_false_r.
    + exists word. rewrite list_lookup_alter_ne by done. split; [done|].
      rewrite Hbit. rewrite decide_False; [done|]. intros E. apply Hne.
      rewrite <- E, Nat.mul_comm, Nat.div_add_l by lia. rewrite (Nat.div_small j) by lia. lia.
  - exists word. split; [done|]. rewrite Hbit. case_decide as E; [|done].
    rewrite E, lookup_ge_None_2 by lia. cbn. by rewrite Ex.
Qed.

Lemma quantize_words v : length (qv_bits (quantize v)) = div_ceil (length v) 64.
Proof.
  unfold quantize. cbn [qv_bits].
  assert (∀ l bits, length (foldl set_bit bits l) = length bits) as H.
  { induction l as [|x l IH]; intros bits; [done|]. simpl. by rewrite IH, set_bit_length. }
  by rewrite H, length_replicate.
Qed.

Lemma div_ceil_bounds n : (n ≤ 64 * div_ceil n 64)%nat.
Proof.
  unfold div_ceil. pose proof (Nat.div_mod_eq (n + (64 - 1)) 64).
  pose proof (Nat.mod_upper_bound (n + (64 - 1)) 64 ltac:(lia)). lia.
Qed.

Lemma quantize_testbit v w j :
  (w < div_ceil (length v) 64)%nat → (j < 64)%nat →
  ∃ word, qv_bits (quantize v) !! w = Some word ∧
    Z.testbit word (Z.of_nat j) = default false (positive <$> v !! (64 * w + j)%nat).
Proof. intros Hw Hj. apply set_bits_testbit; [apply div_ceil_bounds|done|done]. Qed.

Lemma sum_list_app (l k : list nat) : sum_list (l ++ k) = (sum_list l + sum_list k)%nat.
Proof. induction l as [|x l IH]; simpl; lia. Qed.

Lemma filter_seq_blocks (P : nat → Prop) `{!∀ i, Decision (P i)} n :
  length (filter P (seq 0 (64 * n))) =
  sum_list ((λ w, length (filter (λ j, P (64 * w + j)%nat) (seq 0 64))) <$> seq 0 n).
Proof.
  induction n as [|n IH]; [done|].
  replace (64 * S n)%nat with (64 * n + 64)%nat by lia.
  rewrite seq_app, filter_app, length_app, IH, (seq_S n 0), fmap_app, sum_list_app.
  cbn [fmap list_fmap sum_list sum_list_with]. rewrite Nat.add_0_r, !Nat.add_0_l. f_equal.
  rewrite <- (Nat.add_0_r (64 * n)) at 1.
  by rewrite <- (fmap_add_seq (64 * n) 0 64), filter_fmap_comm, length_fmap.
Qed.

Lemma count_xor_agree (wa wb : Z) (fa fb : nat → bool) :
  (∀ j, (j < 64)%nat → Z.testbit wa (Z.of_nat j) = fa j) →
  (∀ j, (j < 64)%nat → Z.testbit wb (Z.of_nat j) = fb j) →
  count_ones (Z.lxor wa wb) = length (filter (λ j, fa j ≠ fb j) (seq 0 64)).
Proof.
  intros Ha Hb. unfold count_ones. f_equal. apply list_filter_iff_in. intros j Hj.
  apply elem_of_seq in Hj. rewrite Z.lxor_spec, Ha, Hb by lia. by destruct (fa j), (fb j).
Qed.

(** The signs of a vector, [false] beyond its end. *)
Definition sign_at (v : list f32) (i : nat) : bool := default false (positive <$> v !! i).

Lemma hamming_blocks a b n :
  n = div_ceil (length a) 64 → n = div_ceil (length b) 64 →
  hamming (quantize a) (quantize b) =
  length (filter (λ i, sign_at a i ≠ sign_at b i) (seq 0 (64 * n))).
Proof.
  intros Ha Hb. rewrite filter_seq_blocks. unfold hamming. f_equal.
  apply list_eq. intros w. rewrite lookup_zip_with, list_lookup_fmap.
  destruct (decide (w < n)%nat) as [Hw|Hw].
  - rewrite lookup_seq_lt by done. cbn [fmap option_fmap option_map].
    destruct (qv_bits (quantize a) !! w) as [wa|] eqn:Ea.
    2: { apply lookup_ge_None_1 in Ea. rewrite quantize_words in Ea. lia. }
    destruct (qv_bits (quantize b) !! w) as [wb|] eqn:Eb.
    2: { apply lookup_ge_None_1 in Eb. rewrite quantize_words in Eb. lia. }
    cbn [mbind option_bind]. f_equal. apply (count_xor_agree wa wb (λ j, sign_at a (64 * w + j))
      (λ j, sign_at b (64 * w + j))); intros j Hj.
    + destruct (quantize_testbit a w j) as (word & E & Hbit); [lia|done|].
      rewrite Ea in E. injection E as <-. exact Hbit.
    + destruct (quantize_testbit b w j) as (word & E & Hbit); [lia|done|].
      rewrite Eb in E. injection E as <-. exact Hbit.
  - rewrite (lookup_ge_None_2 (qv_bits (quantize a))) by (rewrite quantize_words; lia).
    rewrite (lookup_ge_None_2 (seq 0 n)) by (rewrite length_seq; lia). done.
Qed.

(** ** Properties *)

(** The quantized distance is exactly the number of dimensions on which the two
    vectors disagree in sign: packing into 64-bit words, XOR and population count lose
    and invent nothing, for any dimension, and so the distance is symmetric, zero from a
    vector to itself, and at most the dimension. *)
Theorem hamming_counts_disagreements (a b : list f32) (Hl : length a = length b) :
  hamming (quantize a) (quantize b) = length (disagreements a b) ∧
  hamming (quantize b) (quantize a) = hamming (quantize a) (quantize b) ∧
  hamming (quantize a) (quantize a) = 0%nat ∧
  (hamming (quantize a) (quantize b) ≤ length a)%nat.
Proof.
  assert (∀ a b : list f32, length a = length b →
    hamming (quantize a) (quantize b) = length (disagreements a b)) as H.
  { clear. intros a b Hl. rewrite (hamming_blocks a b (div_ceil (length a) 64)) by congruence.
    pose proof (div_ceil_bounds (length a)) as Hn. unfold disagreements.
    replace (64 * div_ceil (length a) 64)%nat
      with (length a + (64 * div_ceil (length a) 64 - length a))%nat by lia.
    rewrite seq_app, filter_app, length_app, (filter_none _ (seq (0 + length a) _)).
    - rewrite Nat.add_0_r. f_equal. apply list_filter_iff_in. intros i Hi.
      apply elem_of_seq in Hi. unfold sign_at.
      destruct (lookup_lt_is_Some_2 a i) as [x ->]; [lia|].
      destruct (lookup_lt_is_Some_2 b i) as [y ->]; [lia|].
      cbn [fmap option_fmap option_map default from_option id].
      split; intros Hne E; apply Hne; congruence.
    - apply Forall_forall. intros i Hi. apply elem_of_seq in Hi. unfold sign_at.
      rewrite !lookup_ge_None_2 by lia. intros Hne. by apply Hne. }
  assert (disagreements a a = []) as Hself
    by (apply filter_none, Forall_forall; intros i _ ?; done).
  split_and!.
  - by apply H.
  - rewrite !H by congruence. unfold disagreements. rewrite Hl. f_equal.
    apply list_filter_iff_in. intros i _. naive_solver.
  - by rewrite H, Hself.
  - rewrite H by done. unfold disagreements.
    etrans; [apply length_filter|]. by rewrite length_seq.
Qed.

Lemma hamming_counts_disagreements_witness :
  hamming (quantize [f32_of_Z 1; f32_of_Z (-2); f32_of_Z 3])
          (quantize [f32_of_Z 1; f32_of_Z 2; f32_of_Z (-3)]) = 2%nat.
Proof.
  destruct (hamming_counts_disagreements [f32_of_Z 1; f32_of_Z (-2); f32_of_Z 3]
    [f32_of_Z 1; f32_of_Z 2; f32_of_Z (-3)] eq_refl) as [H _].
  rewrite H. reflexivity.
Defined.
