(* ===== verification/Onnx.v ===== *)
(** * The learned embedder: [crates/common/src/embed_onnx.rs]

    The tokenizer and the ONNX Runtime session are parameters: the operations the source
    calls on them, with what it relies on as [OnnxLaws]. [None] is a panic, which poisons
    the lock around the session, so an embedder is a state. *)

From S2P Require Export Embed.

(** ** Parameters *)

Record Encoding := {
  get_ids : list Z;
  get_attention_mask : list Z;
  get_type_ids : list Z;
}.

(** Loading reads files; a path's outcome is fixed, as it is while a node starts. *)
Class OnnxRuntime := {
  Tokenizer : Type;
  SessionBuilder : Type;
  Session : Type;
  Tensor : Type;
  Output : Type;
  tokenizer_from_file : string → result Tokenizer string;
  with_truncation : Tokenizer → nat → result Tokenizer string;
  encode_text : Tokenizer → string → result Encoding string;
  session_builder : result SessionBuilder string;
  with_optimization_level : SessionBuilder → nat → result SessionBuilder string;
  with_intra_threads : SessionBuilder → nat → result SessionBuilder string;
  commit_from_file : SessionBuilder → string → result Session string;
  tensor_from_array : nat * nat → list Z → result Tensor string;
  session_run : Session → list (string * Tensor) → result (list (string * Output)) string;
  try_extract_tensor : Output → result (list f32) string;
}.

(** ** Definitions *)

Definition ONNX_EMBED_DIM : nat := 384.
Definition MAX_TOKENS : nat := 256.

(** [Path::join] with a relative name. *)
Definition join_path (dir name : string) : string :=
  if bool_decide (dir = ""%string) then name
  else if bool_decide (String.get (String.length dir - 1) dir = Some "/"%char)
  then (dir +:+ name)%string else (dir +:+ "/" +:+ name)%string.

Definition zero_vector : list f32 := replicate ONNX_EMBED_DIM f32_zero.

(** One attended token: its row of the hidden state is added to the pooled vector. *)
Definition add_token (hidden : list f32) (token_idx : nat) (pooled : list f32)
    : option (list f32) :=
  let base := (token_idx * ONNX_EMBED_DIM)%nat in
  mapM (λ dv, h ← hidden !! (base + dv.1)%nat; Some (f32_add dv.2 h)) (enumerate pooled).

Definition pool_step (hidden : list f32) (st : option (list f32 * f32)) (im : nat * Z)
    : option (list f32 * f32) :=
  '(pooled, count) ← st;
  if im.2 =? 0 then Some (pooled, count)
  else
    let count := f32_add count (f32_of_Z 1) in
    pooled ← add_token hidden im.1 pooled;
    Some (pooled, count).

(** The sum over the attended tokens, and how many there are. *)
Definition pool_tokens (mask : list Z) (hidden : list f32) : option (list f32 * f32) :=
  foldl (pool_step hidden) (Some (zero_vector, f32_zero)) (enumerate mask).

Definition mean_pool (mask : list Z) (hidden : list f32) : option (list f32) :=
  '(pooled, count) ← pool_tokens mask hidden;
  let pooled := if f32_gtb count f32_zero then (λ v, f32_div v count) <$> pooled else pooled in
  Some (l2_normalize pooled).

Section onnx.
Context {OR : OnnxRuntime}.

Record OnnxEmbedder := {
  oe_tokenizer : Tokenizer;
  oe_session : Session;
  oe_poisoned : bool;
}.

Definition from_dir (dir : string) : result OnnxEmbedder string :=
  tokenizer <-? tokenizer_from_file (join_path dir "tokenizer.json");;
  tokenizer <-? with_truncation tokenizer MAX_TOKENS;;
  builder <-? session_builder;;
  builder <-? with_optimization_level builder 3;;
  builder <-? with_intra_threads builder 1;;
  session <-? commit_from_file builder (join_path dir "model_quantized.onnx");;
  Ok {| oe_tokenizer := tokenizer; oe_session := session; oe_poisoned := false |}.

(** The tensors of one encoded text, in the order the source builds them. *)
Definition model_inputs (encoding : Encoding) : result (list (string * Tensor)) string :=
  let seq := Nat.max (length (get_ids encoding)) 1 in
  input_ids <-? tensor_from_array (1%nat, seq) (get_ids encoding);;
  attention <-? tensor_from_array (1%nat, seq) (get_attention_mask encoding);;
  types <-? tensor_from_array (1%nat, seq) (get_type_ids encoding);;
  Ok [("input_ids"%string, input_ids); ("attention_mask"%string, attention);
      ("token_type_ids"%string, types)].

(** [outputs[name]]: a missing output panics. *)
Definition output_named (name : string) (outputs : list (string * Output)) : option Output :=
  (λ o, o.2.2) <$> list_find (λ o, o.1 = name) outputs.

Definition embed_inner (oe : OnnxEmbedder) (text : string) : option (result (list f32) string) :=
  match (encoding <-? encode_text (oe_tokenizer oe) text;;
         inputs <-? model_inputs encoding;;
         Ok (encoding, inputs)) with
  | Err e => Some (Err e)
  | Ok (encoding, inputs) =>
      if oe_poisoned oe then Some (Err "onnx session lock poisoned"%string)
      else
        match session_run (oe_session oe) inputs with
        | Err e => Some (Err e)
        | Ok outputs =>
            o ← output_named "last_hidden_state" outputs;
            match try_extract_tensor o with
            | Err e => Some (Err e)
            | Ok hidden => Ok <$> mean_pool (get_attention_mask encoding) hidden
            end
        end
  end.

(** One call of [embed]: the embedder after it, and the vector unless it panics. *)
Definition onnx_embed (oe : OnnxEmbedder) (text : string) : OnnxEmbedder * option (list f32) :=
  match embed_inner oe text with
  | None =>
      ({| oe_tokenizer := oe_tokenizer oe; oe_session := oe_session oe; oe_poisoned := true |}, None)
  | Some (Ok v) => (oe, Some v)
  | Some (Err _) => (oe, Some zero_vector)
  end.

(** The embedder a store is built over; a panic, which would unwind through the store,
    is excluded by [onnx_embed_total]. *)
Definition OnnxEmbedding (oe : OnnxEmbedder) : Embedder :=
  {| embed := λ text, default zero_vector (onnx_embed oe text).2; embed_dim := ONNX_EMBED_DIM |}.
End onnx.

(** ** Specification *)

(** The hidden rows of the attended tokens, and their mean, dimension by dimension. *)
Definition attended (mask : list Z) (hidden : list f32) : list (list f32) :=
  (λ im, take ONNX_EMBED_DIM (drop (im.1 * ONNX_EMBED_DIM) hidden))
    <$> filter (λ im, im.2 ≠ 0) (enumerate mask).

Definition column (d : nat) (rows : list (list f32)) : list f32 :=
  (λ row, default f32_zero (row !! d)) <$> rows.

Definition token_mean (rows : list (list f32)) : list f32 :=
  match rows with
  | [] => zero_vector
  | _ => (λ d, f32_div (f32_sum (column d rows)) (f32_of_Z (Z.of_nat (length rows))))
           <$> seq 0 ONNX_EMBED_DIM
  end.

(** What the source relies on: encodings are rectangular and truncated, a tensor's data
    fills its shape, and the model is a MiniLM export, whose last hidden state has a row
    of [ONNX_EMBED_DIM] values per token. *)
Class OnnxLaws {OR : OnnxRuntime} : Prop := {
  encode_rectangular : ∀ t text e, encode_text t text = Ok e →
    length (get_attention_mask e) = length (get_ids e) ∧
    length (get_type_ids e) = length (get_ids e);
  truncation_bounds : ∀ t n t' text e, with_truncation t n = Ok t' → encode_text t' text = Ok e →
    (length (get_ids e) ≤ n)%nat;
  tensor_fills : ∀ rows cols data t, tensor_from_array (rows, cols) data = Ok t →
    length data = (rows * cols)%nat;
}.

Definition minilm {OR : OnnxRuntime} (s : Session) : Prop :=
  ∀ seq a b c ids mask types outputs,
    tensor_from_array (1%nat, seq) ids = Ok a → tensor_from_array (1%nat, seq) mask = Ok b →
    tensor_from_array (1%nat, seq) types = Ok c →
    session_run s [("input_ids"%string, a); ("attention_mask"%string, b);
                   ("token_type_ids"%string, c)] = Ok outputs →
    ∃ o, output_named "last_hidden_state" outputs = Some o ∧
      ∀ hidden, try_extract_tensor o = Ok hidden → length hidden = (seq * ONNX_EMBED_DIM)%nat.

(** What the tokenizer and the model give for a text: the attention mask and the last
    hidden state, or the error of the first call that fails. *)
Definition model_hidden {OR : OnnxRuntime} (oe : OnnxEmbedder) (text : string)
    : result (list Z * list f32) string :=
  encoding <-? encode_text (oe_tokenizer oe) text;;
  inputs <-? model_inputs encoding;;
  outputs <-? session_run (oe_session oe) inputs;;
  o <-? ok_or (output_named "last_hidden_state" outputs) "no last hidden state"%string;;
  hidden <-? try_extract_tensor o;;
  Ok (get_attention_mask encoding, hidden).

Definition onnx_reference {OR : OnnxRuntime} (oe : OnnxEmbedder) (text : string) : list f32 :=
  match model_hidden oe text with
  | Ok (mask, hidden) => l2_normalize (token_mean (attended mask hidden))
  | Err _ => zero_vector
  end.

(** ** Lemmas *)

Lemma enumerate_snoc {A} (l : list A) x : enumerate (l ++ [x]) = enumerate l ++ [(length l, x)].
Proof.
  unfold enumerate. rewrite length_app, seq_app, zip_with_app by (by rewrite length_seq).
  done.
Qed.

Lemma enumerate_tabulate {A} (f : nat → A) n :
  enumerate (f <$> seq 0 n) = (λ d, (d, f d)) <$> seq 0 n.
Proof.
  unfold enumerate. rewrite length_fmap, length_seq, zip_with_fmap_r, zip_with_diag. done.
Qed.

Lemma l2_normalize_length v : length (l2_normalize v) = length v.
Proof. unfold l2_normalize. case_match; [apply length_fmap|done]. Qed.

(** Adding the token at [i] adds its row, wherever the hidden state reaches it. *)
Lemma add_token_row hidden i f :
  ((i + 1) * ONNX_EMBED_DIM ≤ length hidden)%nat →
  add_token hidden i (f <$> seq 0 ONNX_EMBED_DIM) =
  Some ((λ d, f32_add (f d) (default f32_zero
          (take ONNX_EMBED_DIM (drop (i * ONNX_EMBED_DIM) hidden) !! d))) <$> seq 0 ONNX_EMBED_DIM).
Proof.
  intros Hi. unfold add_token. rewrite enumerate_tabulate. apply mapM_Some_2.
  apply Forall2_fmap_2, Forall_Forall2_diag, Forall_forall.
  intros d Hd%elem_of_seq. cbn [fst snd]. rewrite lookup_take_lt, lookup_drop by lia.
  destruct (hidden !! (i * ONNX_EMBED_DIM + d)%nat) as [h|] eqn:E; [done|].
  apply lookup_ge_None_1 in E. lia.
Qed.

(** Counting tokens in [f32] is exact up to the truncation bound. *)
Lemma count_exact n : (n < MAX_TOKENS)%nat →
  f32_add (f32_of_Z (Z.of_nat n)) (f32_of_Z 1) = f32_of_Z (Z.of_nat (S n)).
Proof.
  intros Hn. assert (Forall (λ n, f32_add (f32_of_Z (Z.of_nat n)) (f32_of_Z 1)
    = f32_of_Z (Z.of_nat (S n))) (seq 0 MAX_TOKENS)) as H.
  { apply (bool_decide_unpack _). vm_compute. exact I. }
  rewrite Forall_forall in H. apply H, elem_of_seq. lia.
Qed.

Lemma count_positive n : (0 < n ≤ MAX_TOKENS)%nat → f32_gtb (f32_of_Z (Z.of_nat n)) f32_zero = true.
Proof.
  intros Hn.
  assert (Forall (λ n, f32_gtb (f32_of_Z (Z.of_nat n)) f32_zero = true) (seq 1 MAX_TOKENS)) as H.
  { apply (bool_decide_unpack _). vm_compute. exact I. }
  rewrite Forall_forall in H. apply H, elem_of_seq. lia.
Qed.

Lemma column_snoc d rows row :
  column d (rows ++ [row]) = column d rows ++ [default f32_zero (row !! d)].
Proof. unfold column. by rewrite fmap_app. Qed.

Lemma f32_sum_snoc l x : f32_sum (l ++ [x]) = f32_add (f32_sum l) x.
Proof. unfold f32_sum. by rewrite foldl_app. Qed.

Lemma attended_snoc mask m hidden :
  attended (mask ++ [m]) hidden = attended mask hidden ++
    (if m =? 0 then [] else [take ONNX_EMBED_DIM (drop (length mask * ONNX_EMBED_DIM) hidden)]).
Proof.
  unfold attended. rewrite enumerate_snoc, filter_app, fmap_app. f_equal.
  destruct (Z.eqb_spec m 0); [by rewrite filter_cons_False by naive_solver|].
  by rewrite filter_cons_True.
Qed.

Lemma attended_length mask hidden : (length (attended mask hidden) ≤ length mask)%nat.
Proof.
  unfold attended. rewrite length_fmap. etrans; [apply length_filter|].
  by rewrite enumerate_length.
Qed.

(** The loop computes the column sums of the attended rows and counts them exactly. *)
Lemma pool_tokens_sums mask hidden :
  (length mask ≤ MAX_TOKENS)%nat → (length mask * ONNX_EMBED_DIM ≤ length hidden)%nat →
  pool_tokens mask hidden =
  Some ((λ d, f32_sum (column d (attended mask hidden))) <$> seq 0 ONNX_EMBED_DIM,
        f32_of_Z (Z.of_nat (length (attended mask hidden)))).
Proof.
  induction mask as [|m mask IH] using rev_ind; intros Hm Hh; [reflexivity|].
  rewrite length_app in Hm, Hh. simpl in Hm, Hh.
  unfold pool_tokens in *. rewrite enumerate_snoc, foldl_app, IH by lia. cbn [foldl].
  unfold pool_step at 1. cbn [mbind option_bind fst snd]. rewrite attended_snoc.
  destruct (m =? 0); [by rewrite app_nil_r|].
  rewrite add_token_row by lia. cbn [mbind option_bind]. do 2 f_equal.
  - apply list_fmap_ext. intros _ d _. by rewrite column_snoc, f32_sum_snoc.
  - rewrite length_app. pose proof (attended_length mask hidden). cbn [length].
    rewrite count_exact by lia. do 2 f_equal. lia.
Qed.

Lemma mean_pool_mean mask hidden :
  (length mask ≤ MAX_TOKENS)%nat → (length mask * ONNX_EMBED_DIM ≤ length hidden)%nat →
  mean_pool mask hidden = Some (l2_normalize (token_mean (attended mask hidden))).
Proof.
  intros Hm Hh. unfold mean_pool. rewrite pool_tokens_sums by done.
  cbn [mbind option_bind]. pose proof (attended_length mask hidden) as Hl.
  destruct (attended mask hidden) as [|row rows] eqn:E; [reflexivity|].
  rewrite count_positive by (split; [simpl; lia|lia]).
  unfold token_mean. by rewrite <- list_fmap_compose.
Qed.

Lemma token_mean_length rows : length (token_mean rows) = ONNX_EMBED_DIM.
Proof.
  destruct rows; cbn [token_mean]; [apply length_replicate|].
  by rewrite length_fmap, length_seq.
Qed.

Section laws.
Context {OR : OnnxRuntime} {OL : OnnxLaws}.

(** An embedder that [from_dir] loads truncates and is not poisoned. *)
Lemma from_dir_loaded dir oe : from_dir dir = Ok oe →
  oe_poisoned oe = false ∧ ∃ t, with_truncation t MAX_TOKENS = Ok (oe_tokenizer oe).
Proof. unfold from_dir. intros H. repeat case_match; simplify_eq. eauto. Qed.

Lemma model_inputs_shape e inputs : model_inputs e = Ok inputs →
  ∃ a b c, inputs = [("input_ids"%string, a); ("attention_mask"%string, b);
                     ("token_type_ids"%string, c)] ∧
    tensor_from_array (1%nat, Nat.max (length (get_ids e)) 1) (get_ids e) = Ok a ∧
    tensor_from_array (1%nat, Nat.max (length (get_ids e)) 1) (get_attention_mask e) = Ok b ∧
    tensor_from_array (1%nat, Nat.max (length (get_ids e)) 1) (get_type_ids e) = Ok c.
Proof. unfold model_inputs. intros H. repeat case_match; simplify_eq. naive_solver. Qed.

Lemma embed_inner_reference oe text :
  oe_poisoned oe = false → (∃ t, with_truncation t MAX_TOKENS = Ok (oe_tokenizer oe)) →
  minilm (oe_session oe) →
  onnx_embed oe text = (oe, Some (onnx_reference oe text)).
Proof.
  intros Hp [t Ht] Hm. unfold onnx_embed, embed_inner, onnx_reference, model_hidden. rewrite Hp.
  destruct (encode_text (oe_tokenizer oe) text) as [e|] eqn:Ee; [|done].
  destruct (model_inputs e) as [inputs|] eqn:Ei; [|done].
  destruct (session_run (oe_session oe) inputs) as [outputs|] eqn:Er; [|done].
  destruct (model_inputs_shape e inputs Ei) as (a & b & c & -> & Ha & Hb & Hc).
  destruct (Hm _ _ _ _ _ _ _ _ Ha Hb Hc Er) as (o & Ho & Hh). rewrite Ho.
  cbn [mbind option_bind ok_or].
  destruct (try_extract_tensor o) as [hidden|] eqn:Ex; [|done].
  pose proof (truncation_bounds _ _ _ _ _ Ht Ee).
  pose proof (encode_rectangular _ _ _ Ee) as [? ?].
  specialize (Hh _ eq_refl). rewrite mean_pool_mean; [done|unfold MAX_TOKENS in *; lia|].
  rewrite Hh. apply Nat.mul_le_mono_r. lia.
Qed.

Lemma onnx_reference_length oe text : length (onnx_reference oe text) = ONNX_EMBED_DIM.
Proof.
  unfold onnx_reference. destruct (model_hidden oe text) as [[]|]; [|apply length_replicate].
  by rewrite l2_normalize_length, token_mean_length.
Qed.

(** ** Properties *)

(** An embedder loaded from a model directory never panics and is never poisoned by the
    texts it embeds: every call returns a vector of 384 values, which is the normalized
    mean of the model's rows over exactly the attended tokens (padding never counts, and
    counting in [f32] is exact), or the zero vector when a call to the tokenizer or the
    runtime fails, as it does for a text without tokens. *)
Theorem onnx_embed_total (dir : string) (oe : OnnxEmbedder)
    (Hload : from_dir dir = Ok oe) (Hmodel : minilm (oe_session oe)) :
  (∀ texts, foldl (λ oe text, (onnx_embed oe text).1) oe texts = oe) ∧
  ∀ text, ∃ v, onnx_embed oe text = (oe, Some v) ∧ length v = ONNX_EMBED_DIM ∧
    (∀ mask hidden, model_hidden oe text = Ok (mask, hidden) →
       v = l2_normalize (token_mean (attended mask hidden))) ∧
    (∀ e, model_hidden oe text = Err e → v = zero_vector) ∧
    (∀ encoding, encode_text (oe_tokenizer oe) text = Ok encoding → get_ids encoding = [] →
       v = zero_vector).
Proof.
  apply from_dir_loaded in Hload as [Hp Ht]. split.
  { intros texts. induction texts as [|text texts IH]; [done|]. cbn [foldl].
    by rewrite embed_inner_reference. }
  intros text. exists (onnx_reference oe text).
  split_and!; [by apply embed_inner_reference|apply onnx_reference_length| | |];
    unfold onnx_reference.
  - by intros mask hidden ->.
  - by intros e ->.
  - intros e He Hids. unfold model_hidden. rewrite He.
    destruct (model_inputs e) as [inputs|] eqn:Ei; [|done].
    destruct (model_inputs_shape e inputs Ei) as (a & b & c & _ & Ha & _).
    apply tensor_fills in Ha. rewrite Hids in Ha. done.
Qed.

(** A panic during inference poisons the session's lock: every later call returns the
    zero vector, so the vector side matches nothing until the node restarts. *)
Theorem onnx_panic_poisons (oe oe' : OnnxEmbedder) (text text' : string)
    (Hpanic : onnx_embed oe text = (oe', None)) :
  onnx_embed oe' text' = (oe', Some zero_vector).
Proof.
  assert (oe_poisoned oe' = true) as Hp.
  { unfold onnx_embed in Hpanic. repeat case_match; by simplify_eq. }
  unfold onnx_embed, embed_inner. rewrite Hp. by repeat case_match; simplify_eq.
Qed.
End laws.

(** ** Witnesses *)

(** A runtime whose tokens are the characters of a text, attended unless they are spaces,
    and whose model gives each token a constant row. *)
Definition tensor_of (shape : nat * nat) (data : list Z) : result (list Z) string :=
  if bool_decide (length data = (shape.1 * shape.2)%nat) then Ok data
  else Err "shape mismatch"%string.

Definition tiny_encoding (n : nat) (text : string) : Encoding :=
  let bytes := take n (Z.of_N <$> str_bytes text) in
  {| get_ids := bytes; get_attention_mask := (λ b, if b =? 32 then 0 else 1) <$> bytes;
     get_type_ids := replicate (length bytes) 0 |}.

Definition tiny_hidden (ids : list Z) : list f32 :=
  ids ≫= λ id, replicate ONNX_EMBED_DIM (f32_of_Z id).

Definition tiny_runtime : OnnxRuntime :=
  {| Tokenizer := nat; SessionBuilder := (); Session := (); Tensor := list Z;
     Output := list f32;
     tokenizer_from_file := λ path, Ok 0%nat; with_truncation := λ _ n, Ok n;
     encode_text := λ n text, Ok (tiny_encoding n text);
     session_builder := Ok (); with_optimization_level := λ _ _, Ok ();
     with_intra_threads := λ _ _, Ok (); commit_from_file := λ _ _, Ok ();
     tensor_from_array := tensor_of;
     session_run := λ _ inputs,
       Ok [("last_hidden_state"%string, tiny_hidden (default [] (snd <$> head inputs)))];
     try_extract_tensor := λ o, Ok o |}.

#[local] Instance tiny_runtime_laws : @OnnxLaws tiny_runtime.
Proof.
  split; cbn.
  - intros t text e [= <-]. cbn. by rewrite length_fmap, length_replicate.
  - intros t n t' text e [= <-] [= <-]. cbn. rewrite length_take. lia.
  - unfold tensor_of. intros rows cols data t. case_bool_decide; naive_solver.
Qed.

Lemma tiny_hidden_length ids : length (tiny_hidden ids) = (length ids * ONNX_EMBED_DIM)%nat.
Proof.
  unfold tiny_hidden. induction ids as [|id ids IH]; [done|].
  rewrite bind_cons, length_app, IH, length_replicate. cbn [length]. lia.
Qed.

Lemma tiny_minilm : minilm (OR := tiny_runtime) ().
Proof.
  intros seq a b c ids mask types outputs Ha _ _ [= <-]. cbn in Ha. unfold tensor_of in Ha.
  case_bool_decide as E; [|done]. injection Ha as <-. eexists; split; [done|].
  intros hidden [= <-]. cbn. rewrite tiny_hidden_length, E. cbn. lia.
Qed.

Definition tiny_onnx : OnnxEmbedder (OR := tiny_runtime) :=
  {| oe_tokenizer := MAX_TOKENS : Tokenizer (OnnxRuntime := tiny_runtime);
     oe_session := () : Session (OnnxRuntime := tiny_runtime); oe_poisoned := false |}.

(** The row of a space is not attended: only [B] counts. *)
Lemma onnx_embed_total_witness :
  ∃ v, onnx_embed (OR := tiny_runtime) tiny_onnx "B "%string = (tiny_onnx, Some v) ∧
    v = l2_normalize (replicate ONNX_EMBED_DIM (f32_of_Z 66)).
Proof.
  destruct (onnx_embed_total (OR := tiny_runtime) "models" tiny_onnx eq_refl tiny_minilm)
    as [_ H].
  destruct (H "B "%string) as (v & Hv & _ & Hmean & _). exists v. split; [exact Hv|].
  rewrite (Hmean [1; 0] (tiny_hidden [66; 32])) by reflexivity. vm_compute. reflexivity.
Defined.

(** A runtime whose model has no last hidden state. *)
Definition broken_runtime : OnnxRuntime :=
  {| Tokenizer := nat; SessionBuilder := (); Session := (); Tensor := list Z;
     Output := list f32;
     tokenizer_from_file := λ path, Ok 0%nat; with_truncation := λ _ n, Ok n;
     encode_text := λ n text, Ok (tiny_encoding n text);
     session_builder := Ok (); with_optimization_level := λ _ _, Ok ();
     with_intra_threads := λ _ _, Ok (); commit_from_file := λ _ _, Ok ();
     tensor_from_array := tensor_of; session_run := λ _ inputs, Ok [];
     try_extract_tensor := λ o, Ok o |}.

Lemma onnx_panic_poisons_witness :
  let oe poisoned := {| oe_tokenizer := 256%nat : Tokenizer (OnnxRuntime := broken_runtime);
    oe_session := () : Session (OnnxRuntime := broken_runtime); oe_poisoned := poisoned |} in
  onnx_embed (OR := broken_runtime) (oe true) "B"%string = (oe true, Some zero_vector).
Proof. intros oe. by apply (onnx_panic_poisons (OR := broken_runtime) (oe false) (oe true) "A"%string). Defined.
