(* ===== verification/Vector.v ===== *)
(** * The vector index: [crates/shard-node/src/vector.rs]

    The HNSW graph (crate [hnsw_rs]) is a parameter: insertion, search, and the one fact
    the code relies on, that a search only returns ids that were inserted. The order
    [sort_unstable_by_key] gives to equal keys is a parameter too. [None] is a panic:
    an out-of-range slot. *)

From S2P Require Export Embed Wire.

(** ** Parameters *)

Class Hnsw := {
  graph : Type;
  graph_new : graph;
  graph_insert : graph → list f32 → nat → graph;
  graph_search : graph → list f32 → nat → nat → list (nat * f32);
}.

Definition graph_of `{!Hnsw} (points : list (list f32 * nat)) : graph :=
  foldl (λ g p, graph_insert g p.1 p.2) graph_new points.

Class HnswLaws `{!Hnsw} : Prop :=
  graph_search_inserted : ∀ points q fetch ef n,
    n ∈ (graph_search (graph_of points) q fetch ef).*1 → n ∈ points.*2.

Class UnstableSort := {
  sort_unstable : ∀ {A}, (A → nat) → list A → list A;
  sort_unstable_perm : ∀ {A} (key : A → nat) l, sort_unstable key l ≡ₚ l;
  sort_unstable_sorted : ∀ {A} (key : A → nat) l,
    StronglySorted (λ x y, key x ≤ key y)%nat (sort_unstable key l);
}.

(** ** State *)

Definition EF_SEARCH : nat := 64.
Definition FLAT_SEARCH_THRESHOLD : nat := 256.
Definition REBUILD_TOMBSTONE_RATIO : f64 := f64_lit 1 4.
Definition REBUILD_MIN_TOMBSTONES : nat := 16.

Record VectorHit := { vh_doc : FlightDocument; vh_score : f64 }.

Section index.
Context {HO : HashOrder} {EM : Embedder} {HN : Hnsw} {US : UnstableSort}.

Record VectorIndex := {
  vx_docs : list FlightDocument;
  vx_texts : list string;
  vx_slot_vectors : list (list f32);
  vx_quantized : list QuantizedVector;
  vx_quantized_mode : bool;
  vx_by_key : gmap string nat;
  vx_tombstoned : gset nat;
  vx_vectors_total : nat;
  vx_hnsw : graph;
}.

Definition vx_new : VectorIndex :=
  {| vx_docs := []; vx_texts := []; vx_slot_vectors := []; vx_quantized := [];
     vx_quantized_mode := false; vx_by_key := ∅; vx_tombstoned := ∅; vx_vectors_total := 0;
     vx_hnsw := graph_new |}.

Definition vx_dim (vx : VectorIndex) : nat := embed_dim.
Definition vx_len (vx : VectorIndex) : nat := size (vx_by_key vx).

Definition set_quantized (vx : VectorIndex) (on : bool) : VectorIndex :=
  {| vx_docs := vx_docs vx; vx_texts := vx_texts vx; vx_slot_vectors := vx_slot_vectors vx;
     vx_quantized := vx_quantized vx; vx_quantized_mode := on; vx_by_key := vx_by_key vx;
     vx_tombstoned := vx_tombstoned vx; vx_vectors_total := vx_vectors_total vx;
     vx_hnsw := vx_hnsw vx |}.

(** ** Writing *)

Definition embeddable_text (doc : FlightDocument) : string :=
  foldl (λ text value, text +:+ " " +:+ value)%string
    (fd_callsign doc +:+ " " +:+ fd_origin doc +:+ " " +:+ fd_destination doc +:+ " "
       +:+ fd_aircraft_type doc)%string
    (hm_values (fd_text doc)).

Definition vx_insert (vx : VectorIndex) (doc : FlightDocument) : option VectorIndex :=
  let text := embeddable_text doc in
  match vx_by_key vx !! fd_icao24 doc with
  | Some slot =>
      _ ← vx_docs vx !! slot;
      old ← vx_texts vx !! slot;
      let docs := <[slot := doc]> (vx_docs vx) in
      if decide (old = text) then
        Some {| vx_docs := docs; vx_texts := vx_texts vx;
                vx_slot_vectors := vx_slot_vectors vx; vx_quantized := vx_quantized vx;
                vx_quantized_mode := vx_quantized_mode vx; vx_by_key := vx_by_key vx;
                vx_tombstoned := vx_tombstoned vx; vx_vectors_total := vx_vectors_total vx;
                vx_hnsw := vx_hnsw vx |}
      else
        let vector := embed text in
        _ ← vx_quantized vx !! slot;
        _ ← vx_slot_vectors vx !! slot;
        Some {| vx_docs := docs; vx_texts := <[slot := text]> (vx_texts vx);
                vx_slot_vectors := <[slot := vector]> (vx_slot_vectors vx);
                vx_quantized := <[slot := quantize vector]> (vx_quantized vx);
                vx_quantized_mode := vx_quantized_mode vx; vx_by_key := vx_by_key vx;
                vx_tombstoned := vx_tombstoned vx;
                vx_vectors_total := S (vx_vectors_total vx);
                vx_hnsw := graph_insert (vx_hnsw vx) vector slot |}
  | None =>
      let slot := length (vx_docs vx) in
      let vector := embed text in
      Some {| vx_docs := vx_docs vx ++ [doc]; vx_texts := vx_texts vx ++ [text];
              vx_slot_vectors := vx_slot_vectors vx ++ [vector];
              vx_quantized := vx_quantized vx ++ [quantize vector];
              vx_quantized_mode := vx_quantized_mode vx;
              vx_by_key := <[fd_icao24 doc := slot]> (vx_by_key vx);
              vx_tombstoned := vx_tombstoned vx;
              vx_vectors_total := S (vx_vectors_total vx);
              vx_hnsw := graph_insert (vx_hnsw vx) vector slot |}
  end.

Definition live (vx : VectorIndex) (slot : nat) : bool :=
  bool_decide (slot ∉ vx_tombstoned vx).

Definition live_docs (vx : VectorIndex) : list FlightDocument :=
  (filter (λ sd, live vx sd.1 = true) (enumerate (vx_docs vx))).*2.

Definition vx_rebuild (vx : VectorIndex) : option VectorIndex :=
  foldl (λ st doc, v ← st; vx_insert v doc)
    (Some (set_quantized vx_new (vx_quantized_mode vx))) (live_docs vx).

Definition needs_rebuild (vx : VectorIndex) : bool :=
  let tombs := size (vx_tombstoned vx) in
  bool_decide (REBUILD_MIN_TOMBSTONES ≤ tombs)%nat
  && f64_geb (f64_of_Z (Z.of_nat tombs))
       (f64_mul (f64_of_Z (Z.of_nat (Nat.max (size (vx_by_key vx)) 1))) REBUILD_TOMBSTONE_RATIO).

Definition vx_remove (vx : VectorIndex) (icao24 : string) : option (VectorIndex * bool) :=
  match vx_by_key vx !! icao24 with
  | None => Some (vx, false)
  | Some slot =>
      let vx' :=
        {| vx_docs := vx_docs vx; vx_texts := vx_texts vx;
           vx_slot_vectors := vx_slot_vectors vx; vx_quantized := vx_quantized vx;
           vx_quantized_mode := vx_quantized_mode vx;
           vx_by_key := delete icao24 (vx_by_key vx);
           vx_tombstoned := {[slot]} ∪ vx_tombstoned vx;
           vx_vectors_total := vx_vectors_total vx; vx_hnsw := vx_hnsw vx |} in
      if needs_rebuild vx' then vx'' ← vx_rebuild vx'; Some (vx'', true) else Some (vx', true)
  end.

(** ** Searching *)

Definition vec_cmp (a b : VectorHit) : comparison :=
  rank_cmp (vh_score a) (fd_icao24 (vh_doc a)) (vh_score b) (fd_icao24 (vh_doc b)).

(** The exact score of one slot. *)
Definition slot_hit (vx : VectorIndex) (query : list f32) (slot : nat) : option VectorHit :=
  doc ← vx_docs vx !! slot;
  v ← vx_slot_vectors vx !! slot;
  Some {| vh_doc := doc; vh_score := f64_of_f32 (dot query v) |}.

Definition search_quantized (vx : VectorIndex) (query : list f32) (k : nat)
    : option (list VectorHit) :=
  let q := quantize query in
  let candidates :=
    (λ sd, (hamming q sd.2, sd.1))
      <$> filter (λ sd, live vx sd.1 = true) (enumerate (vx_quantized vx)) in
  let keep := Nat.min (k * OVERSAMPLE) (length candidates) in
  let best := take keep (sort_unstable fst candidates) in
  hits ← mapM (λ hs, slot_hit vx query hs.2) best;
  Some (take k (sort_by vec_cmp hits)).

Definition search_flat (vx : VectorIndex) (query : list f32) (k : nat)
    : option (list VectorHit) :=
  hits ← mapM (λ sv : nat * list f32,
           doc ← vx_docs vx !! sv.1;
           Some {| vh_doc := doc; vh_score := f64_of_f32 (dot query sv.2) |})
         (filter (λ sv, live vx sv.1 = true) (enumerate (vx_slot_vectors vx)));
  Some (take k (sort_by vec_cmp hits)).

(** The loop over the neighbours, best first. *)
Fixpoint hnsw_collect (vx : VectorIndex) (k : nat) (seen : gset nat) (best : list VectorHit)
    (neighbours : list (nat * f32)) : option (list VectorHit) :=
  match neighbours with
  | [] => Some best
  | (d_id, distance) :: rest =>
      if live vx d_id then
        if decide (d_id ∈ seen) then hnsw_collect vx k seen best rest
        else
          doc ← vx_docs vx !! d_id;
          let best' := best ++ [{| vh_doc := doc;
                                   vh_score := f64_sub f64_one (f64_of_f32 distance) |}] in
          if bool_decide (length best' = k) then Some best'
          else hnsw_collect vx k ({[d_id]} ∪ seen) best' rest
      else hnsw_collect vx k seen best rest
  end.

Definition search_hnsw (vx : VectorIndex) (query : list f32) (k : nat)
    : option (list VectorHit) :=
  let fetch := Nat.max (Nat.min (Nat.min (k * 2) (k + 32)) (vx_vectors_total vx))
                 (Nat.min k (vx_vectors_total vx)) in
  hnsw_collect vx k ∅ [] (graph_search (vx_hnsw vx) query fetch (Nat.max EF_SEARCH fetch)).

Definition vx_search (vx : VectorIndex) (query : list f32) (k : nat)
    : option (list VectorHit) :=
  if bool_decide (k = 0%nat) || bool_decide (vx_by_key vx = ∅) then Some []
  else if vx_quantized_mode vx then search_quantized vx query k
  else if bool_decide (length (vx_docs vx) ≤ FLAT_SEARCH_THRESHOLD)%nat
  then search_flat vx query k
  else search_hnsw vx query k.

(** ** Specification *)

Definition vx_contents (vx : VectorIndex) : gmap string FlightDocument :=
  omap (λ i, vx_docs vx !! i) (vx_by_key vx).

(** Every slot's derived columns are those of its document, live slots are exactly the
    ones the key map names, and the graph only holds slots that exist. *)
Record vx_wf (vx : VectorIndex) : Prop := {
  vwf_texts : vx_texts vx = embeddable_text <$> vx_docs vx;
  vwf_vectors : vx_slot_vectors vx = embed <$> vx_texts vx;
  vwf_quantized : vx_quantized vx = quantize <$> vx_slot_vectors vx;
  vwf_keys : ∀ k i, vx_by_key vx !! k = Some i ↔
    i ∉ vx_tombstoned vx ∧ ∃ d, vx_docs vx !! i = Some d ∧ fd_icao24 d = k;
  vwf_tombs : ∀ i, i ∈ vx_tombstoned vx → (i < length (vx_docs vx))%nat;
  vwf_graph : ∃ points, vx_hnsw vx = graph_of points ∧
    length points = vx_vectors_total vx ∧
    Forall (λ p, p.2 < length (vx_docs vx))%nat points;
}.

(** The mutating operations, and what they mean on the abstract contents. *)
Inductive vx_op :=
| VxInsert (doc : FlightDocument)
| VxRemove (icao24 : string)
| VxSetQuantized (on : bool).

Definition vx_exec (st : option VectorIndex) (op : vx_op) : option VectorIndex :=
  vx ← st;
  match op with
  | VxInsert doc => vx_insert vx doc
  | VxRemove k => fst <$> vx_remove vx k
  | VxSetQuantized on => Some (set_quantized vx on)
  end.

Definition vmap_exec (m : gmap string FlightDocument) (op : vx_op) : gmap string FlightDocument :=
  match op with
  | VxInsert doc => <[fd_icao24 doc := doc]> m
  | VxRemove k => delete k m
  | VxSetQuantized _ => m
  end.

(** ** Lemmas *)

Lemma graph_of_snoc points v i :
  graph_insert (graph_of points) v i = graph_of (points ++ [(v, i)]).
Proof. unfold graph_of. by rewrite foldl_snoc. Qed.

Lemma vx_wf_new : vx_wf vx_new.
Proof.
  split; try done; cbn.
  - intros k i. rewrite lookup_empty. split; [done|]. intros (_ & d & Hd & _). done.
  - exists []. split_and!; done.
Qed.

Lemma vx_wf_mode vx on : vx_wf vx → vx_wf (set_quantized vx on).
Proof. intros []. by split. Qed.

Lemma vx_contents_lookup vx k d :
  vx_wf vx → vx_contents vx !! k = Some d ↔
  ∃ i, i ∉ vx_tombstoned vx ∧ vx_docs vx !! i = Some d ∧ fd_icao24 d = k.
Proof.
  intros Hwf. unfold vx_contents. rewrite lookup_omap. split.
  - intros (i & Hi & Hd)%bind_Some. exists i. pose proof Hi as (Ht & d' & Hd' & E)%(vwf_keys _ Hwf).
    split_and!; [done|done|congruence].
  - intros (i & Ht & Hd & <-). apply bind_Some. exists i. split; [|done].
    apply (vwf_keys _ Hwf). eauto.
Qed.

Lemma live_slot_unique vx i j d d' :
  vx_wf vx → i ∉ vx_tombstoned vx → j ∉ vx_tombstoned vx →
  vx_docs vx !! i = Some d → vx_docs vx !! j = Some d' → fd_icao24 d = fd_icao24 d' → i = j.
Proof.
  intros Hwf Hi Hj Hd Hd' E.
  assert (vx_by_key vx !! fd_icao24 d = Some i) as H1 by (apply (vwf_keys _ Hwf); eauto).
  assert (vx_by_key vx !! fd_icao24 d = Some j) as H2 by (apply (vwf_keys _ Hwf); eauto).
  congruence.
Qed.

(** Overwriting the slot of a live document. *)
Lemma slot_overwritten vx doc slot vx' :
  vx_wf vx → vx_by_key vx !! fd_icao24 doc = Some slot →
  vx_docs vx' = <[slot := doc]> (vx_docs vx) → vx_by_key vx' = vx_by_key vx →
  vx_tombstoned vx' = vx_tombstoned vx →
  (∀ k i, vx_by_key vx' !! k = Some i ↔ i ∉ vx_tombstoned vx' ∧
     ∃ d, vx_docs vx' !! i = Some d ∧ fd_icao24 d = k) ∧
  vx_contents vx' = <[fd_icao24 doc := doc]> (vx_contents vx).
Proof.
  intros [_ _ _ Hkeys _ _] Hk Ed Ek Et. pose proof Hk as (Ht & old & Hold & Eold)%Hkeys.
  pose proof (lookup_lt_Some _ _ _ Hold) as Hlt. split.
  - intros k i. rewrite Ek, Et, Hkeys, Ed. destruct (decide (i = slot)) as [->|].
    + rewrite list_lookup_insert_eq, Hold by done. naive_solver.
    + by rewrite list_lookup_insert_ne.
  - unfold vx_contents. rewrite Ek, Ed. apply map_eq. intros k.
    rewrite lookup_omap, lookup_insert. case_decide as E.
    + subst. rewrite Hk. cbn. by rewrite list_lookup_insert_eq.
    + rewrite lookup_omap. destruct (vx_by_key vx !! k) as [i|] eqn:Ei; [|done]. cbn.
      apply list_lookup_insert_ne. intros ->. apply Hkeys in Ei as (_ & d & Hd & Ek').
      rewrite Hold in Hd. naive_solver.
Qed.

(** The lists kept beside the documents are as long. *)
Lemma vx_slots vx slot d :
  vx_wf vx → vx_docs vx !! slot = Some d →
  vx_texts vx !! slot = Some (embeddable_text d) ∧
  is_Some (vx_slot_vectors vx !! slot) ∧ is_Some (vx_quantized vx !! slot).
Proof.
  intros [Htx Hvec Hq _ _ _] Hd. pose proof (lookup_lt_Some _ _ _ Hd) as Hlt.
  split; [by rewrite Htx, list_lookup_fmap, Hd|].
  split; apply lookup_lt_is_Some; rewrite ?Hq, Hvec, Htx, !length_fmap; done.
Qed.

Lemma vx_insert_old vx doc slot :
  vx_wf vx → vx_by_key vx !! fd_icao24 doc = Some slot →
  ∃ vx', vx_insert vx doc = Some vx' ∧ vx_wf vx' ∧
    vx_contents vx' = <[fd_icao24 doc := doc]> (vx_contents vx) ∧
    vx_quantized_mode vx' = vx_quantized_mode vx.
Proof.
  intros Hwf Hk. pose proof Hwf as [Htx Hvec Hq Hkeys Htomb (points & Hg & Hlen & Hpts)].
  pose proof (slot_overwritten vx doc slot) as Hnew.
  pose proof Hk as (Ht & old & Hold & _)%Hkeys. pose proof (lookup_lt_Some _ _ _ Hold) as Hlt.
  destruct (vx_slots vx slot old Hwf Hold) as (Hts & [sv Hsv] & [qv Hqv]).
  unfold vx_insert. rewrite Hk, Hold. cbn [mbind option_bind]. rewrite Hts. cbn [mbind option_bind].
  case_decide as Et; [|rewrite Hqv, Hsv; cbn [mbind option_bind]]; (eexists; split; [done|]);
    match goal with |- vx_wf ?x ∧ _ => destruct (Hnew x Hwf Hk eq_refl eq_refl eq_refl) as [H1 H2] end;
    (split; [|split; [exact H2|done]]); split; cbn; try done.
  - rewrite list_fmap_insert, <- Htx, <- Et. symmetry. by apply list_insert_id.
  - intros i Hi. rewrite length_insert. by apply Htomb.
  - exists points. by rewrite length_insert.
  - by rewrite list_fmap_insert, Htx.
  - by rewrite list_fmap_insert, Hvec.
  - by rewrite list_fmap_insert, Hq.
  - intros i Hi. rewrite length_insert. by apply Htomb.
  - exists (points ++ [(embed (embeddable_text doc), slot)]).
    rewrite Hg, graph_of_snoc, length_app, length_insert. split_and!; [done|simpl; lia|].
    apply Forall_app. split; [done|]. by repeat constructor.
Qed.

(** A new document takes a new slot, live from then on. *)
Lemma lookup_appended {A} (l : list A) x i :
  (l ++ [x]) !! i = if decide (i = length l) then Some x else l !! i.
Proof.
  case_decide as E; subst; [by rewrite list_lookup_middle|].
  destruct (decide (i < length l)%nat); [by rewrite lookup_app_l|].
  rewrite !lookup_ge_None_2; [done|lia|rewrite length_app; simpl; lia].
Qed.

Lemma vx_insert_new vx doc :
  vx_wf vx → vx_by_key vx !! fd_icao24 doc = None →
  ∃ vx', vx_insert vx doc = Some vx' ∧ vx_wf vx' ∧
    vx_docs vx' = vx_docs vx ++ [doc] ∧ vx_tombstoned vx' = vx_tombstoned vx ∧
    vx_quantized_mode vx' = vx_quantized_mode vx.
Proof.
  intros [Htx Hvec Hq Hkeys Htomb (points & Hg & Hlen & Hpts)] Hk. unfold vx_insert. rewrite Hk.
  eexists. split; [done|]. split; [|done].
  split; cbn [vx_docs vx_texts vx_slot_vectors vx_quantized vx_by_key vx_tombstoned
                vx_vectors_total vx_hnsw].
  - by rewrite fmap_app, Htx.
  - by rewrite fmap_app, Hvec.
  - by rewrite fmap_app, Hq.
  - intros k i. rewrite lookup_insert_Some, Hkeys, lookup_appended.
    assert (length (vx_docs vx) ∉ vx_tombstoned vx) as Hnt by (intros H%Htomb; lia).
    case_decide as E; subst.
    + rewrite (lookup_ge_None_2 (vx_docs vx)) by lia. naive_solver.
    + split; [naive_solver|]. intros (Ht & d & Hd & <-). right. split; [|by eauto].
      intros E'. assert (vx_by_key vx !! fd_icao24 doc = Some i); [|congruence].
      apply Hkeys. eauto.
  - intros i Hi. rewrite length_app. simpl. apply Htomb in Hi. lia.
  - exists (points ++ [(embed (embeddable_text doc), length (vx_docs vx))]).
    rewrite Hg, graph_of_snoc, !length_app. split_and!; [done|simpl; lia|].
    apply Forall_app. split; [|repeat constructor; simpl; lia].
    eapply Forall_impl; [exact Hpts|]. simpl. intros. lia.
Qed.

Lemma vx_insert_spec vx doc :
  vx_wf vx →
  ∃ vx', vx_insert vx doc = Some vx' ∧ vx_wf vx' ∧
    vx_contents vx' = <[fd_icao24 doc := doc]> (vx_contents vx) ∧
    vx_quantized_mode vx' = vx_quantized_mode vx.
Proof.
  intros Hwf. destruct (vx_by_key vx !! fd_icao24 doc) as [slot|] eqn:Hk; [by eapply vx_insert_old|].
  pose proof Hwf as [_ _ _ Hkeys Htomb _].
  destruct (vx_insert_new vx doc Hwf Hk) as (vx' & E & Hwf' & Ed & Et & Hm). exists vx'.
  split_and!; [done|done| |done]. apply map_eq. intros k. apply option_eq. intros d.
  rewrite vx_contents_lookup, lookup_insert_Some, vx_contents_lookup by done.
  rewrite Ed, Et. setoid_rewrite lookup_appended. split.
  - intros (i & Ht & Hd & <-). case_decide; [left; naive_solver|]. right. split; [|by eauto].
    intros E'. assert (vx_by_key vx !! fd_icao24 doc = Some i); [|congruence].
    apply Hkeys. eauto.
  - intros [[<- <-]|[Hne (i & Ht & Hd & <-)]].
    + exists (length (vx_docs vx)). rewrite decide_True by done. split; [|done]. intros H%Htomb. lia.
    + exists i. rewrite decide_False; [done|]. apply lookup_lt_Some in Hd. lia.
Qed.

(** *** Removal and rebuild *)

Lemma elem_of_live_docs vx d :
  d ∈ live_docs vx ↔ ∃ i, i ∉ vx_tombstoned vx ∧ vx_docs vx !! i = Some d.
Proof.
  unfold live_docs, live. rewrite list_elem_of_fmap. split.
  - intros ([i d'] & -> & [Hl Hin]%list_elem_of_filter). exists i. simpl in *.
    apply bool_decide_eq_true in Hl. by rewrite <- elem_of_enumerate.
  - intros (i & Ht & Hd). exists (i, d). split; [done|]. apply list_elem_of_filter.
    rewrite elem_of_enumerate. split; [by apply bool_decide_true|done].
Qed.

Lemma NoDup_live_slots {A} vx (l : list A) :
  NoDup (filter (λ sd, live vx sd.1 = true) (enumerate l)).*1.
Proof.
  apply NoDup_keys_filter. unfold enumerate. rewrite fst_zip by (by rewrite length_seq).
  apply NoDup_seq.
Qed.

Lemma live_docs_NoDup vx : vx_wf vx → NoDup (fd_icao24 <$> live_docs vx).
Proof.
  intros Hwf. unfold live_docs.
  assert (∀ l : list (nat * FlightDocument), NoDup l.*1 →
    (∀ p, p ∈ l → p.1 ∉ vx_tombstoned vx ∧ vx_docs vx !! p.1 = Some p.2) →
    NoDup (fd_icao24 <$> l.*2)) as H.
  { induction l as [|[i d] l IH]; intros Hnd Hl; [constructor|].
    apply NoDup_cons in Hnd as [Hi Hnd]. cbn. apply NoDup_cons. split.
    - intros (d' & E & ([j d''] & -> & Hin)%list_elem_of_fmap)%list_elem_of_fmap. apply Hi.
      destruct (Hl (i, d)) as [Ht Hd]; [by left|]. destruct (Hl (j, d'')) as [Ht' Hd']; [by right|].
      simpl in *. rewrite (live_slot_unique vx i j d d'') by done.
      by apply (list_elem_of_fmap_2 fst) in Hin.
    - apply IH; [done|]. intros q Hq. apply Hl. by right. }
  apply H; [apply NoDup_live_slots|].
  intros [i d] [Hl Hin]%list_elem_of_filter. simpl in *.
  by rewrite elem_of_enumerate in Hin; apply bool_decide_eq_true in Hl.
Qed.

Lemma vx_insert_all vx ds :
  vx_wf vx →
  ∃ vx', foldl (λ st doc, v ← st; vx_insert v doc) (Some vx) ds = Some vx' ∧ vx_wf vx' ∧
    vx_contents vx' = foldl (λ m d, <[fd_icao24 d := d]> m) (vx_contents vx) ds ∧
    vx_quantized_mode vx' = vx_quantized_mode vx.
Proof.
  revert vx. induction ds as [|d ds IH]; intros vx Hwf; [by exists vx|].
  cbn [foldl mbind option_bind].
  destruct (vx_insert_spec vx d Hwf) as (vx1 & E1 & Hwf1 & Hc1 & Hm1). rewrite E1.
  destruct (IH vx1 Hwf1) as (vx2 & E2 & Hwf2 & Hc2 & Hm2).
  exists vx2. rewrite Hc2, Hc1, Hm2, Hm1. done.
Qed.

Lemma vx_rebuild_spec vx :
  vx_wf vx →
  ∃ vx', vx_rebuild vx = Some vx' ∧ vx_wf vx' ∧ vx_contents vx' = vx_contents vx ∧
    vx_quantized_mode vx' = vx_quantized_mode vx.
Proof.
  intros Hwf. unfold vx_rebuild.
  destruct (vx_insert_all (set_quantized vx_new (vx_quantized_mode vx)) (live_docs vx))
    as (vx' & E & Hwf' & Hc & Hm); [apply vx_wf_mode, vx_wf_new|].
  exists vx'. split_and!; [done..| |done]. rewrite Hc.
  change (vx_contents (set_quantized vx_new (vx_quantized_mode vx))) with (vx_contents vx_new).
  assert (vx_contents vx_new = ∅) as -> by apply omap_empty.
  apply map_eq. intros k. apply option_eq. intros d.
  rewrite foldl_insert_lookup, lookup_empty, vx_contents_lookup
    by (done || by apply live_docs_NoDup).
  rewrite elem_of_live_docs. naive_solver.
Qed.

Lemma vx_remove_spec vx k :
  vx_wf vx →
  ∃ vx' b, vx_remove vx k = Some (vx', b) ∧ vx_wf vx' ∧
    b = bool_decide (is_Some (vx_contents vx !! k)) ∧
    vx_contents vx' = delete k (vx_contents vx) ∧
    vx_quantized_mode vx' = vx_quantized_mode vx.
Proof.
  intros Hwf. unfold vx_remove. destruct (vx_by_key vx !! k) as [slot|] eqn:Hk.
  2: { assert (vx_contents vx !! k = None) as Hc by (unfold vx_contents; by rewrite lookup_omap, Hk).
       exists vx, false. split_and!; [done..| | |done].
       - rewrite Hc. by rewrite bool_decide_false by (by intros []).
       - by rewrite delete_id. }
  pose proof Hwf as [Htx Hvec Hq Hkeys Htomb Hgraph].
  pose proof Hk as (Ht & old & Hold & Eold)%Hkeys.
  match goal with |- context [needs_rebuild ?x] => set (vx1 := x) end.
  assert (vx_wf vx1) as Hwf1.
  { split; cbn; try done.
    - intros k' i. rewrite lookup_delete_Some, Hkeys, not_elem_of_union, not_elem_of_singleton.
      split.
      + intros (Hne & Hti & d & Hd & <-). split_and!; [|done|by eauto].
        intros ->. rewrite Hold in Hd. naive_solver.
      + intros ([Hne Hti] & d & Hd & <-). split_and!; [|done|by eauto].
        intros ->. apply Hne. by eapply (live_slot_unique vx i slot d old).
    - intros i [->%elem_of_singleton|Hi]%elem_of_union; [by apply lookup_lt_Some in Hold|auto]. }
  assert (vx_contents vx1 = delete k (vx_contents vx)) as Hc1.
  { unfold vx_contents. cbn. apply map_eq. intros k'. rewrite !lookup_omap, !lookup_delete.
    case_decide; [done|]. by rewrite lookup_omap. }
  assert (true = bool_decide (is_Some (vx_contents vx !! k))) as Hb.
  { symmetry. apply bool_decide_true. exists old. apply vx_contents_lookup; [done|].
    exists slot. done. }
  destruct (needs_rebuild vx1).
  - destruct (vx_rebuild_spec vx1 Hwf1) as (vx2 & E & Hwf2 & Hc2 & Hm2). rewrite E.
    exists vx2, true. rewrite Hc2, Hm2. by split_and!.
  - exists vx1, true. by split_and!.
Qed.

(** *** Searching *)

Definition exact_hit (query : list f32) (d : FlightDocument) : VectorHit :=
  {| vh_doc := d; vh_score := f64_of_f32 (dot query (embed (embeddable_text d))) |}.

Lemma slot_hit_spec vx query i d :
  vx_wf vx → vx_docs vx !! i = Some d → slot_hit vx query i = Some (exact_hit query d).
Proof.
  intros [Htx Hvec _ _ _ _] Hd. unfold slot_hit. rewrite Hvec, Htx, !list_lookup_fmap, Hd. done.
Qed.

Lemma live_enumerate {A B} vx (f : A → B) (l : list A) :
  filter (λ sd, live vx sd.1 = true) (enumerate (f <$> l)) =
  (λ sd, (sd.1, f sd.2)) <$> filter (λ sd, live vx sd.1 = true) (enumerate l).
Proof.
  unfold enumerate. rewrite length_fmap.
  assert (zip (seq 0 (length l)) (f <$> l) = (λ sd, (sd.1, f sd.2)) <$> zip (seq 0 (length l)) l)
    as ->; [|by rewrite filter_fmap_comm].
  generalize (seq 0 (length l)). induction l as [|a l IH]; intros [|n k]; [done..|].
  simpl. by rewrite IH.
Qed.

Lemma mapM_slot_hit vx query (l : list (nat * FlightDocument)) :
  vx_wf vx → (∀ p, p ∈ l → vx_docs vx !! p.1 = Some p.2) →
  mapM (λ hs : nat, slot_hit vx query hs) l.*1 = Some (exact_hit query <$> l.*2).
Proof.
  intros Hwf. induction l as [|[i d] l IH]; intros Hl; [done|]. cbn.
  rewrite (slot_hit_spec vx query i d) by (try done; apply (Hl (i, d)); by left). cbn.
  rewrite IH by (intros; apply Hl; by right). done.
Qed.

Lemma live_pairs vx p :
  p ∈ filter (λ sd, live vx sd.1 = true) (enumerate (vx_docs vx)) →
  vx_docs vx !! p.1 = Some p.2 ∧ p.1 ∉ vx_tombstoned vx.
Proof.
  intros [Hl Hin]%list_elem_of_filter. destruct p as [i d]. simpl in *.
  rewrite elem_of_enumerate in Hin. by apply bool_decide_eq_true in Hl.
Qed.

Lemma search_flat_spec vx query k :
  vx_wf vx → search_flat vx query k = Some (take k (sort_by vec_cmp (exact_hit query <$> live_docs vx))).
Proof.
  intros Hwf. pose proof Hwf as [Htx Hvec _ _ _ _]. unfold search_flat.
  rewrite Hvec, Htx, <- list_fmap_compose, live_enumerate.
  set (l := filter _ (enumerate (vx_docs vx))).
  assert (mapM (λ sv : nat * list f32,
            doc ← vx_docs vx !! sv.1;
            Some {| vh_doc := doc; vh_score := f64_of_f32 (dot query sv.2) |})
           ((λ sd : nat * FlightDocument, (sd.1, (embed ∘ embeddable_text) sd.2)) <$> l) =
         Some (exact_hit query <$> l.*2)) as ->; [|done].
  assert (∀ p, p ∈ l → vx_docs vx !! p.1 = Some p.2) as Hl by (intros; by apply live_pairs).
  clearbody l. induction l as [|[i d] l IH]; [done|]. cbn.
  pose proof (Hl (i, d) ltac:(left)) as Hd. cbn in Hd. rewrite Hd. cbn. cbn in IH.
  rewrite IH by (intros; apply Hl; by right). done.
Qed.

(** The quantized tier keeps a prefix of the live slots in Hamming order. *)
Lemma search_quantized_spec vx query k :
  vx_wf vx →
  ∃ ds rest, live_docs vx ≡ₚ ds ++ rest ∧
    length ds = Nat.min (k * OVERSAMPLE) (length (live_docs vx)) ∧
    search_quantized vx query k = Some (take k (sort_by vec_cmp (exact_hit query <$> ds))).
Proof.
  intros Hwf. pose proof Hwf as [Htx Hvec Hq _ _ _]. unfold search_quantized.
  rewrite Hq, Hvec, Htx, <- !list_fmap_compose, live_enumerate, <- list_fmap_compose.
  set (l := filter _ (enumerate (vx_docs vx))).
  set (h := _ ∘ _ : nat * FlightDocument → nat * nat).
  set (sorted := sort_unstable fst (h <$> l)).
  set (keep := Nat.min (k * OVERSAMPLE) (length (h <$> l))).
  assert (sorted ≡ₚ h <$> l) as Hs by apply sort_unstable_perm.
  destruct (fmap_Permutation_inv h sorted l Hs) as (l' & E & Hl'). 
  exists (take keep l').*2, (drop keep l').*2. split_and!.
  - unfold live_docs. fold l. rewrite <- fmap_app, take_drop. by rewrite Hl'.
  - rewrite length_fmap, length_take. unfold keep, live_docs. fold l.
    rewrite !length_fmap, <- (Permutation_length Hl'). lia.
  - rewrite E, <- fmap_take.
    assert (mapM (λ hs : nat * nat, slot_hit vx query hs.2) (h <$> take keep l') =
            Some (exact_hit query <$> (take keep l').*2)) as ->; [|done].
    rewrite mapM_fmap, <- (mapM_slot_hit vx); [|done|].
    + by rewrite mapM_fmap.
    + intros p Hp. apply live_pairs. fold l. rewrite <- Hl'.
      eapply elem_of_prefix; [exact Hp|apply prefix_take].
Qed.

(** Hits drawn from distinct live slots. *)
Definition hits_live (vx : VectorIndex) (slots : list nat) (hits : list VectorHit) : Prop :=
  NoDup slots ∧ Forall2 (λ i h, i ∉ vx_tombstoned vx ∧ vx_docs vx !! i = Some (vh_doc h)) slots hits.

Lemma hnsw_collect_spec vx k seen slots best neighbours :
  (∀ n, n ∈ neighbours.*1 → (n < length (vx_docs vx))%nat) →
  hits_live vx slots best → (∀ i, i ∈ seen ↔ i ∈ slots) → (length best < k)%nat →
  ∃ slots' out, hnsw_collect vx k seen best neighbours = Some out ∧
    hits_live vx slots' out ∧ (length out ≤ k)%nat.
Proof.
  revert seen slots best. induction neighbours as [|[i dist] ns IH];
    intros seen slots best Hlt [Hnd Hf] Hseen Hlen.
  { exists slots, best. split_and!; [done|done|lia]. }
  cbn [hnsw_collect]. assert (∀ n, n ∈ ns.*1 → (n < length (vx_docs vx))%nat) as Hlt'
    by (intros; apply Hlt; by right).
  destruct (live vx i) eqn:El; [|by eapply IH]. unfold live in El.
  apply bool_decide_eq_true in El. case_decide as Hs; [by eapply IH|].
  destruct (lookup_lt_is_Some_2 (vx_docs vx) i) as [d Hd]; [apply Hlt; by left|].
  rewrite Hd. cbn [mbind option_bind].
  set (h := {| vh_doc := d; vh_score := _ |}).
  assert (hits_live vx (slots ++ [i]) (best ++ [h])) as Hl.
  { split.
    - apply NoDup_app. split_and!; [done| |apply NoDup_singleton].
      intros j Hj ->%list_elem_of_singleton. by apply Hs, Hseen.
    - apply Forall2_app; [done|]. by repeat constructor. }
  rewrite length_app. cbn [length]. case_bool_decide as Hk.
  - exists (slots ++ [i]), (best ++ [h]). split_and!; [done|done|].
    rewrite length_app. simpl. lia.
  - apply (IH ({[i]} ∪ seen) (slots ++ [i])); [done|done| |rewrite length_app; simpl; lia].
    intros j. rewrite elem_of_union, elem_of_singleton, elem_of_app, list_elem_of_singleton, Hseen.
    tauto.
Qed.

Lemma hits_live_keys vx slots hits :
  vx_wf vx → hits_live vx slots hits → NoDup ((λ h, fd_icao24 (vh_doc h)) <$> hits).
Proof.
  intros Hwf [Hnd Hf]. induction Hf as [|i h slots hits [Ht Hd] Hf IH]; [constructor|].
  apply NoDup_cons in Hnd as [Hi Hnd]. cbn. apply NoDup_cons. split; [|auto].
  intros (h' & E & Hh')%list_elem_of_fmap. apply list_elem_of_lookup in Hh' as [n Hn].
  destruct (Forall2_lookup_r _ _ _ _ _ Hf Hn) as (j & Hj & Htj & Hdj).
  apply Hi. rewrite (live_slot_unique vx i j (vh_doc h) (vh_doc h')) by done.
  by eapply list_elem_of_lookup_2.
Qed.

Lemma hits_live_contents vx slots hits h :
  vx_wf vx → hits_live vx slots hits → h ∈ hits →
  vx_contents vx !! fd_icao24 (vh_doc h) = Some (vh_doc h).
Proof.
  intros Hwf [_ Hf] [n Hn]%list_elem_of_lookup.
  destruct (Forall2_lookup_r _ _ _ _ _ Hf Hn) as (j & _ & Htj & Hdj).
  apply vx_contents_lookup; [done|]. eauto.
Qed.

(** What every search returns: distinct live documents. *)
Definition sound_hits (vx : VectorIndex) (k : nat) (hits : list VectorHit) : Prop :=
  (length hits ≤ k)%nat ∧ NoDup ((λ h, fd_icao24 (vh_doc h)) <$> hits) ∧
  ∀ h, h ∈ hits → vx_contents vx !! fd_icao24 (vh_doc h) = Some (vh_doc h).

Lemma sound_of_live vx query k ds rest :
  vx_wf vx → live_docs vx ≡ₚ ds ++ rest →
  sound_hits vx k (take k (sort_by vec_cmp (exact_hit query <$> ds))).
Proof.
  intros Hwf Hp. pose proof (live_docs_NoDup vx Hwf) as Hnd.
  rewrite Hp, fmap_app in Hnd. apply NoDup_app in Hnd as [Hnd _].
  assert (NoDup ((λ h, fd_icao24 (vh_doc h)) <$> sort_by vec_cmp (exact_hit query <$> ds))) as Hn.
  { rewrite sort_by_perm, <- list_fmap_compose. exact Hnd. }
  split_and!.
  - rewrite length_take. lia.
  - rewrite fmap_take. rewrite <- (take_drop k (_ <$> _)) in Hn. by apply NoDup_app in Hn as [? _].
  - intros h Hh. assert (h ∈ sort_by vec_cmp (exact_hit query <$> ds)) as Hin
      by (eapply elem_of_prefix; [exact Hh|apply prefix_take]).
    rewrite sort_by_perm in Hin. apply list_elem_of_fmap in Hin as (d & -> & Hd).
    assert (d ∈ live_docs vx) as Hl by (rewrite Hp; set_solver).
    apply elem_of_live_docs in Hl as (i & Ht & Hi). apply vx_contents_lookup; eauto.
Qed.

Lemma empty_live_docs vx : vx_wf vx → vx_by_key vx = ∅ → live_docs vx = [].
Proof.
  intros Hwf He. destruct (live_docs vx) as [|d l] eqn:El; [done|]. exfalso.
  assert (d ∈ live_docs vx) as Hd by (rewrite El; left).
  apply elem_of_live_docs in Hd as (i & Ht & Hi).
  assert (vx_by_key vx !! fd_icao24 d = Some i) as Hx by (apply (vwf_keys _ Hwf); eauto).
  by rewrite He in Hx.
Qed.

Lemma search_hnsw_spec {HL : HnswLaws} vx query k :
  vx_wf vx → k ≠ 0%nat → ∃ hits, search_hnsw vx query k = Some hits ∧ sound_hits vx k hits.
Proof.
  intros Hwf Hk. unfold search_hnsw. destruct (vwf_graph _ Hwf) as (points & Hg & _ & Hpts).
  rewrite Hg. set (fetch := Nat.max _ _).
  destruct (hnsw_collect_spec vx k ∅ [] []
    (graph_search (graph_of points) query fetch (Nat.max EF_SEARCH fetch)))
    as (slots & hits & E & Hl & Hlen).
  - intros n Hn%graph_search_inserted. apply list_elem_of_fmap in Hn as (p & -> & Hp).
    rewrite Forall_forall in Hpts. by apply Hpts.
  - split; [constructor|constructor].
  - set_solver.
  - simpl. lia.
  - exists hits. split; [exact E|]. split_and!; [done|by eapply hits_live_keys|].
    intros. by eapply hits_live_contents.
Qed.

Lemma sound_nil vx k : sound_hits vx k [].
Proof. split_and!; [simpl; lia|constructor|]. intros h Hh%elem_of_nil. done. Qed.

(** Every search mode returns current documents. *)
Lemma vx_search_spec {HL : HnswLaws} vx query k :
  vx_wf vx → ∃ hits, vx_search vx query k = Some hits ∧ sound_hits vx k hits.
Proof.
  intros Hwf. unfold vx_search.
  case_bool_decide as Hk; cbn [orb]; [exists []; split; [done|apply sound_nil]|].
  case_bool_decide as He; [exists []; split; [done|apply sound_nil]|].
  destruct (vx_quantized_mode vx).
  { destruct (search_quantized_spec vx query k Hwf) as (ds & rest & Hp & _ & E).
    eexists. split; [exact E|]. by eapply sound_of_live. }
  case_bool_decide as Hf; [|by apply search_hnsw_spec].
  rewrite search_flat_spec by done. eexists. split; [done|].
  eapply sound_of_live; [done|]. by rewrite app_nil_r.
Qed.

Lemma vec_cmp_strict l :
  NoDup ((λ h, fd_icao24 (vh_doc h)) <$> l) →
  strict_on (λ h, is_nan (vh_score h) = false ∧ h ∈ l) vec_cmp.
Proof.
  intros Hnd x y [_ Hx] [_ Hy] [_ E]%then_with_eq. apply str_cmp_eq in E.
  apply list_elem_of_lookup in Hx as [i Hi], Hy as [j Hj].
  assert (i = j) as ->; [|congruence].
  eapply (NoDup_lookup _ _ _ _ Hnd); rewrite list_lookup_fmap;
    [by rewrite Hi|by rewrite Hj; simpl; rewrite E].
Qed.

(** ** Properties *)

(** The vector index implements the same map. Whatever sequence of upserts,
    removals and mode switches is applied to an empty index, and however often removals
    trigger a rebuild on the way, no slot access panics; texts, embeddings, quantized
    forms and the graph stay in lockstep with the slots; and the live contents are those
    of the map from aircraft to latest document. *)
Theorem vector_refines_map (ops : list vx_op) :
  ∃ vx, foldl vx_exec (Some vx_new) ops = Some vx ∧ vx_wf vx ∧
    vx_contents vx = foldl vmap_exec ∅ ops ∧
    (∀ d, d ∈ live_docs vx ↔ foldl vmap_exec ∅ ops !! fd_icao24 d = Some d).
Proof.
  assert (∃ vx, foldl vx_exec (Some vx_new) ops = Some vx ∧ vx_wf vx ∧
    vx_contents vx = foldl vmap_exec ∅ ops) as (vx & E & Hwf & Hc).
  { induction ops as [|op ops (vx & E & Hwf & Hc)] using rev_ind.
    { exists vx_new. split_and!; [done|apply vx_wf_new|apply omap_empty]. }
    rewrite !foldl_snoc, E. destruct op as [d|k|on]; cbn [vx_exec mbind option_bind vmap_exec].
    - destruct (vx_insert_spec vx d Hwf) as (vx' & E' & Hwf' & Hc' & _).
      exists vx'. by rewrite Hc', Hc.
    - destruct (vx_remove_spec vx k Hwf) as (vx' & b & E' & Hwf' & _ & Hc' & _).
      exists vx'. rewrite E'. cbn. by rewrite Hc', Hc.
    - exists (set_quantized vx on). split_and!; [done|by apply vx_wf_mode|done]. }
  exists vx. split_and!; [done..|]. intros d.
  rewrite <- Hc, elem_of_live_docs, vx_contents_lookup by done. naive_solver.
Qed.

(** Search never panics and never surfaces what was removed or superseded. In all
    three modes (exact scan, graph, quantized) it returns at most [k] hits, one per
    aircraft, each the current document of an aircraft that is in the index, even while
    removed vectors still sit in the graph; and below the flat threshold the result is
    the [k] best of an exact scan. *)
Theorem vector_search_sound {HL : HnswLaws} (vx : VectorIndex) (query : list f32) (k : nat)
    (Hwf : vx_wf vx) :
  ∃ hits, vx_search vx query k = Some hits ∧ sound_hits vx k hits ∧
    (vx_quantized_mode vx = false → (length (vx_docs vx) ≤ FLAT_SEARCH_THRESHOLD)%nat →
     hits = take k (sort_by vec_cmp (exact_hit query <$> live_docs vx))).
Proof.
  destruct (vx_search_spec vx query k Hwf) as (hits & E & Hs). exists hits.
  split_and!; [done|done|]. intros Hm Hf. revert E. unfold vx_search. rewrite Hm.
  rewrite (bool_decide_true _ Hf), search_flat_spec by done.
  case_bool_decide as Hk; [subst; by intros [= <-]|]. cbn [orb].
  case_bool_decide as He; [|by intros [= <-]]. intros [= <-].
  rewrite empty_live_docs by done. by destruct k.
Qed.

(** C39: compression costs no accuracy when the candidate tier covers the index: with at
    least a quarter as many results requested as documents live (and scores that are
    numbers), the two-tier quantized search returns exactly the exact scan's answer. *)
Theorem quantized_matches_exact (vx : VectorIndex) (query : list f32) (k : nat)
    (Hwf : vx_wf vx) (Hcover : (length (live_docs vx) ≤ k * OVERSAMPLE)%nat)
    (Hnum : Forall (λ d, is_nan (vh_score (exact_hit query d)) = false) (live_docs vx)) :
  search_quantized vx query k = search_flat vx query k.
Proof.
  destruct (search_quantized_spec vx query k Hwf) as (ds & rest & Hp & Hlen & ->).
  rewrite search_flat_spec by done. do 2 f_equal.
  assert (rest = []) as ->.
  { apply length_zero_iff_nil. apply Permutation_length in Hp. rewrite length_app in Hp. lia. }
  rewrite app_nil_r in Hp.
  apply (sort_by_ext (λ h, is_nan (vh_score h) = false ∧ h ∈ exact_hit query <$> ds)).
  - eapply total_on_weaken; [|apply (rank_cmp_total vh_score (λ h, fd_icao24 (vh_doc h)))].
    by intros ? [].
  - apply vec_cmp_strict. rewrite <- list_fmap_compose. change (NoDup (fd_icao24 <$> ds)).
    rewrite <- Hp. by apply live_docs_NoDup.
  - rewrite Hp in Hnum. apply Forall_fmap. rewrite Forall_forall in Hnum |- *. intros d Hd.
    split; [by apply Hnum|]. by apply list_elem_of_fmap_2.
  - by rewrite Hp.
Qed.

End index.

(** ** Witnesses *)

(** A brute-force graph: every inserted point, in insertion order. *)
Definition scan_graph : Hnsw :=
  {| graph := list (list f32 * nat); graph_new := [];
     graph_insert := λ g v i, g ++ [(v, i)];
     graph_search := λ g _ fetch _, take fetch ((λ p, (p.2, f32_zero)) <$> g) |}.

Lemma scan_graph_of points : @graph_of scan_graph points = points.
Proof.
  induction points as [|p points IH] using rev_ind; [done|].
  unfold graph_of in *. rewrite foldl_snoc, IH. simpl. by destruct p.
Qed.

Lemma scan_graph_laws : @HnswLaws scan_graph.
Proof.
  intros points q fetch ef n. rewrite scan_graph_of. simpl.
  rewrite <- fmap_take, <- list_fmap_compose. intros (p & -> & Hp)%list_elem_of_fmap.
  apply list_elem_of_fmap. exists p. split; [done|].
  eapply elem_of_prefix; [exact Hp|apply prefix_take].
Qed.

(** A stable sort is one unstable sort. *)
Definition nat_key_cmp {A} (key : A → nat) (x y : A) : comparison :=
  Nat.compare (key x) (key y).

Lemma nat_key_total {A} (key : A → nat) : total_on (λ _, True) (nat_key_cmp key).
Proof.
  split; unfold nat_key_cmp.
  - intros x y _ _. apply Nat.compare_antisym.
  - intros x y z _ _ _. rewrite !Nat.compare_ngt_iff || rewrite <- !Nat.compare_le_iff. lia.
Qed.

Lemma nat_key_sorted {A} (key : A → nat) l :
  StronglySorted (λ x y, key x ≤ key y)%nat (sort_by (nat_key_cmp key) l).
Proof.
  pose proof (sort_by_ranked _ _ (nat_key_total key) l) as Hr.
  assert (Forall (λ _ : A, True) l) as Hl by by apply Forall_true.
  specialize (Hr Hl). unfold ranked in Hr. clear Hl.
  induction Hr as [|x k _ IH Hx]; constructor; [done|]. eapply Forall_impl; [exact Hx|].
  intros y. unfold nat_key_cmp. by rewrite <- Nat.compare_le_iff.
Qed.

Definition stable_sort : UnstableSort :=
  {| sort_unstable := λ A key, sort_by (nat_key_cmp key);
     sort_unstable_perm := λ A key, sort_by_perm (nat_key_cmp key);
     sort_unstable_sorted := λ A key, nat_key_sorted key |}.

(** A one-dimensional embedder. *)
Definition tiny_embedder : Embedder :=
  {| embed := λ s, [f32_of_Z (Z.of_nat (String.length s))]; embed_dim := 1 |}.

#[local] Existing Instances canonical_order tiny_embedder scan_graph stable_sort.

Lemma vector_search_sound_witness :
  ∃ vx hits, vx_insert vx_new default_doc = Some vx ∧
    vx_search vx [f32_of_Z 1] 3 = Some hits ∧ (length hits ≤ 3)%nat.
Proof.
  destruct (vx_insert_spec vx_new default_doc vx_wf_new) as (vx & E & Hwf & _).
  destruct (vector_search_sound (HL := scan_graph_laws) vx [f32_of_Z 1] 3 Hwf)
    as (hits & E' & (Hl & _) & _).
  exists vx, hits. split_and!; assumption.
Defined.

Lemma quantized_matches_exact_witness :
  ∃ vx, vx_insert vx_new default_doc = Some vx ∧
    search_quantized vx [f32_of_Z 1] 3 = search_flat vx [f32_of_Z 1] 3.
Proof.
  eexists. split; [reflexivity|].
  apply quantized_matches_exact.
  - destruct (vx_insert_spec vx_new default_doc vx_wf_new) as (vx & E & Hwf & _).
    injection E as <-. exact Hwf.
  - vm_compute. lia.
  - repeat constructor.
Defined.
