(* ===== verification/Store.v ===== *)
(** * The shard's document store: [crates/shard-node/src/store.rs]

    The keyword and the vector index, updated together. The embedder is the [Embedder]
    instance in scope; [None] is a panic (including the [debug_assert_eq!] of [remove]). *)

From S2P Require Export Shard Index Vector.

(** ** Definitions *)

Section store.
Context {HO : HashOrder} {UC : Unicode} {FL : FloatLib} {EM : Embedder} {HN : Hnsw}
  {US : UnstableSort} (bm25_params : f64 * f64).

Record ShardStore := {
  st_keyword : InvertedIndex;
  st_vector : VectorIndex;
}.

Definition st_new : ShardStore := {| st_keyword := ix_new; st_vector := vx_new |}.

Definition st_documents (s : ShardStore) : list FlightDocument := ix_documents (st_keyword s).
Definition st_embed_dim (s : ShardStore) : nat := vx_dim (st_vector s).

Definition with_quantized (s : ShardStore) (on : bool) : ShardStore :=
  {| st_keyword := st_keyword s; st_vector := set_quantized (st_vector s) on |}.

Definition st_insert (s : ShardStore) (doc : FlightDocument) : option ShardStore :=
  v ← vx_insert (st_vector s) doc;
  k ← ix_insert (st_keyword s) doc;
  Some {| st_keyword := k; st_vector := v |}.

Definition st_insert_all (s : ShardStore) (docs : list FlightDocument) : option ShardStore :=
  foldl (λ st d, s ← st; st_insert s d) (Some s) docs.

(** A fresh vector index: whatever mode the old one was in, the new one is not quantized. *)
Definition replace_all (s : ShardStore) (docs : list FlightDocument) : option ShardStore :=
  st_insert_all st_new docs.

Definition st_remove (s : ShardStore) (icao24 : string) : option (ShardStore * bool) :=
  '(ki, k) ← ix_remove (st_keyword s) icao24;
  '(vi, v) ← vx_remove (st_vector s) icao24;
  if decide (k = v) then Some ({| st_keyword := ki; st_vector := vi |}, k) else None.

Definition doomed (s : ShardStore) (vshard : Z) (v : NonZeroU32) : list string :=
  fd_icao24 <$> filter (λ d, vshard_for (fd_icao24 d) v = vshard) (st_documents s).

Definition st_remove_all (s : ShardStore) (ks : list string) : option ShardStore :=
  foldl (λ st k, s ← st; fst <$> st_remove s k) (Some s) ks.

Definition evict_vshard (s : ShardStore) (vshard v : Z) : option (ShardStore * nat) :=
  match nz_new v with
  | None => Some (s, 0%nat)
  | Some v =>
      let ks := doomed s vshard v in
      s' ← st_remove_all s ks; Some (s', length ks)
  end.

Definition st_search (s : ShardStore) (query : string) (limit : nat) : option SearchResults :=
  ix_search bm25_params (st_keyword s) query limit.

Definition st_matching (s : ShardStore) (query : string) : option (list FlightDocument) :=
  if str_is_empty (str_trim query) then Some (ix_doc_refs (st_keyword s))
  else r ← st_search s query 0; Some (sc_doc <$> rs_hits r).

Definition st_vector_search (s : ShardStore) (query : list f32) (k : nat)
    : option (list VectorHit) :=
  vx_search (st_vector s) query k.

Definition st_len (s : ShardStore) : nat := ix_len (st_keyword s).
Definition st_is_empty (s : ShardStore) : bool := ix_is_empty (st_keyword s).

(** ** Specification *)

(** The abstract shard: a map from aircraft to latest document. *)
Definition st_contents (s : ShardStore) : gmap string FlightDocument := contents (st_keyword s).

Record store_wf (s : ShardStore) : Prop := {
  swf_keyword : ix_wf (st_keyword s);
  swf_vector : vx_wf (st_vector s);
  swf_lockstep : vx_contents (st_vector s) = contents (st_keyword s);
}.

Inductive store_op :=
| OpInsert (doc : FlightDocument)
| OpRemove (icao24 : string)
| OpEvict (vshard v : Z)
| OpReplaceAll (docs : list FlightDocument)
| OpSetQuantized (on : bool).

Definition store_exec (st : option ShardStore) (op : store_op) : option ShardStore :=
  s ← st;
  match op with
  | OpInsert d => st_insert s d
  | OpRemove k => fst <$> st_remove s k
  | OpEvict vs v => fst <$> evict_vshard s vs v
  | OpReplaceAll docs => replace_all s docs
  | OpSetQuantized on => Some (with_quantized s on)
  end.

(** The documents of a map that an eviction keeps. *)
Definition evicted (vshard v : Z) (m : gmap string FlightDocument)
    : gmap string FlightDocument :=
  match nz_new v with
  | None => m
  | Some n => filter (λ kd, vshard_for kd.1 n ≠ vshard) m
  end.

Definition insert_docs (m : gmap string FlightDocument) (docs : list FlightDocument)
    : gmap string FlightDocument :=
  foldl (λ m d, <[fd_icao24 d := d]> m) m docs.

Definition spec_exec (m : gmap string FlightDocument) (op : store_op)
    : gmap string FlightDocument :=
  match op with
  | OpInsert d => <[fd_icao24 d := d]> m
  | OpRemove k => delete k m
  | OpEvict vs v => evicted vs v m
  | OpReplaceAll docs => insert_docs ∅ docs
  | OpSetQuantized _ => m
  end.

(** ** Lemmas *)

Lemma store_wf_new : store_wf st_new.
Proof. split; [apply ix_wf_new|apply vx_wf_new|done]. Qed.

Lemma st_insert_spec s d :
  store_wf s →
  ∃ s', st_insert s d = Some s' ∧ store_wf s' ∧
    st_contents s' = <[fd_icao24 d := d]> (st_contents s) ∧
    vx_quantized_mode (st_vector s') = vx_quantized_mode (st_vector s).
Proof.
  intros [Hk Hv Hl]. unfold st_insert.
  destruct (vx_insert_spec (st_vector s) d Hv) as (v & -> & Hv' & Hvc & Hm).
  destruct (ix_insert_spec (st_keyword s) d Hk) as (k & -> & Hk' & Hkc).
  eexists. split; [done|]. split_and!; [|done|done].
  split; cbn; [done|done|]. by rewrite Hvc, Hkc, Hl.
Qed.

Lemma st_insert_all_spec s ds :
  store_wf s →
  ∃ s', st_insert_all s ds = Some s' ∧ store_wf s' ∧
    st_contents s' = insert_docs (st_contents s) ds ∧
    vx_quantized_mode (st_vector s') = vx_quantized_mode (st_vector s).
Proof.
  unfold st_insert_all, insert_docs. revert s.
  induction ds as [|d ds IH]; intros s Hwf; [by exists s|]. cbn [foldl mbind option_bind].
  destruct (st_insert_spec s d Hwf) as (s1 & E1 & Hwf1 & Hc1 & Hm1). rewrite E1.
  destruct (IH s1 Hwf1) as (s2 & E2 & Hwf2 & Hc2 & Hm2).
  exists s2. rewrite Hc2, Hc1, Hm2, Hm1. done.
Qed.

Lemma st_remove_spec s k :
  store_wf s →
  ∃ s', st_remove s k = Some (s', bool_decide (is_Some (st_contents s !! k))) ∧ store_wf s' ∧
    st_contents s' = delete k (st_contents s).
Proof.
  intros [Hk Hv Hl]. unfold st_remove.
  destruct (ix_remove_spec (st_keyword s) k Hk) as (ki & b & -> & Hk' & -> & Hkc).
  destruct (vx_remove_spec (st_vector s) k Hv) as (vi & b & -> & Hv' & -> & Hvc & _).
  cbn [mbind option_bind]. rewrite Hl, decide_True by done.
  eexists. split; [done|]. split; [|done].
  split; cbn; [done|done|]. by rewrite Hvc, Hkc, Hl.
Qed.

Lemma st_remove_all_spec s ks :
  store_wf s →
  ∃ s', st_remove_all s ks = Some s' ∧ store_wf s' ∧
    st_contents s' = filter (λ kd, kd.1 ∉ ks) (st_contents s).
Proof.
  unfold st_remove_all. revert s. induction ks as [|k ks IH]; intros s Hwf.
  { exists s. split_and!; [done|done|]. symmetry. apply map_filter_id.
    intros ? ? _. apply not_elem_of_nil. }
  cbn [foldl mbind option_bind].
  destruct (st_remove_spec s k Hwf) as (s1 & E1 & Hwf1 & Hc1). rewrite E1.
  destruct (IH s1 Hwf1) as (s2 & E2 & Hwf2 & Hc2).
  exists s2. split_and!; [exact E2|done|]. rewrite Hc2, Hc1. apply map_eq. intros k'.
  apply option_eq. intros d. rewrite !map_lookup_filter_Some, lookup_delete_Some. simpl.
  rewrite not_elem_of_cons. naive_solver.
Qed.

Lemma evict_vshard_spec s vshard v :
  store_wf s →
  ∃ s' n, evict_vshard s vshard v = Some (s', n) ∧ store_wf s' ∧
    st_contents s' = evicted vshard v (st_contents s) ∧
    (n + size (st_contents s') = size (st_contents s))%nat.
Proof.
  intros Hwf. unfold evict_vshard, evicted. destruct (nz_new v) as [n|]; [|by exists s, 0%nat].
  pose proof (documents_spec _ (swf_keyword _ Hwf)) as [Hnd Hin].
  destruct (st_remove_all_spec s (doomed s vshard n) Hwf) as (s' & E & Hwf' & Hc).
  rewrite E. cbn [mbind option_bind]. eexists _, _. split; [done|].
  assert (∀ k, k ∈ doomed s vshard n ↔ is_Some (st_contents s !! k) ∧ vshard_for k n = vshard)
    as Hd.
  { intros k. unfold doomed. rewrite list_elem_of_fmap. split.
    - intros (d & -> & [Hv Hdoc]%list_elem_of_filter). apply Hin in Hdoc. split; [by eexists|done].
    - intros [[d Hk] Hv]. pose proof (contents_key _ _ _ (swf_keyword _ Hwf) Hk) as <-.
      exists d. split; [done|]. apply list_elem_of_filter. split; [done|]. by apply Hin. }
  assert (st_contents s' = filter (λ kd, vshard_for kd.1 n ≠ vshard) (st_contents s)) as Hc'.
  { rewrite Hc. apply map_filter_ext. intros k d Hk. simpl. rewrite Hd. naive_solver. }
  split_and!; [done|done|].
  unfold st_contents in *. rewrite <- !documents_size by apply swf_keyword, Hwf' || apply Hwf.
  rewrite <- (length_fmap fd_icao24 (ix_documents (st_keyword s'))).
  rewrite <- (length_fmap fd_icao24 (ix_documents (st_keyword s))), <- length_app.
  apply Permutation_length, NoDup_Permutation.
  - pose proof (documents_spec _ (swf_keyword _ Hwf')) as [Hnd' Hin'].
    apply NoDup_app. split_and!; [|intros k Hk|done].
    + unfold doomed. eapply NoDup_fmap_sublist_of; [exact Hnd|apply sublist_filter].
    + intros (d & -> & Hdoc%Hin')%list_elem_of_fmap. rewrite Hc' in Hdoc.
      apply map_lookup_filter_Some in Hdoc as [_ Hv]. by apply Hd in Hk as [_ ?].
  - done.
  - pose proof (documents_spec _ (swf_keyword _ Hwf')) as [Hnd' Hin'].
    intros k. rewrite elem_of_app, Hd, !list_elem_of_fmap. split.
    + intros [[[d Hk] _]|(d & -> & Hdoc%Hin')].
      * pose proof (contents_key _ _ _ (swf_keyword _ Hwf) Hk) as <-.
        exists d. split; [done|]. by apply Hin.
      * exists d. split; [done|]. apply Hin. rewrite Hc' in Hdoc.
        by apply map_lookup_filter_Some in Hdoc as [? _].
    + intros (d & -> & Hdoc%Hin). destruct (decide (vshard_for (fd_icao24 d) n = vshard)).
      * left. split; [by eexists|done].
      * right. exists d. split; [done|]. apply Hin'. rewrite Hc'.
        by apply map_lookup_filter_Some.
Qed.

(** ** Properties *)

(** C40: the store implements one map with two synchronized views. Whatever sequence of
    upserts, removals, virtual-shard evictions, snapshot installs and mode switches is
    applied, nothing panics (the lockstep assertion included), the keyword and the vector
    index hold exactly the same documents, and they are those of the abstract map, on
    which an eviction drops exactly the documents of the evicted virtual shard. *)
Theorem store_refines_map (ops : list store_op) :
  ∃ s, foldl store_exec (Some st_new) ops = Some s ∧ store_wf s ∧
    st_contents s = foldl spec_exec ∅ ops ∧
    vx_contents (st_vector s) = foldl spec_exec ∅ ops ∧
    st_len s = size (foldl spec_exec ∅ ops).
Proof.
  assert (∃ s, foldl store_exec (Some st_new) ops = Some s ∧ store_wf s ∧
    st_contents s = foldl spec_exec ∅ ops) as (s & E & Hwf & Hc).
  { induction ops as [|op ops (s & E & Hwf & Hc)] using rev_ind.
    { exists st_new. split_and!; [done|apply store_wf_new|done]. }
    rewrite !foldl_snoc, E. destruct op as [d|k|vs v|ds|on]; cbn [store_exec mbind option_bind spec_exec].
    - destruct (st_insert_spec s d Hwf) as (s' & E' & Hwf' & Hc' & _).
      exists s'. by rewrite Hc', Hc.
    - destruct (st_remove_spec s k Hwf) as (s' & E' & Hwf' & Hc').
      exists s'. rewrite E'. cbn. by rewrite Hc', Hc.
    - destruct (evict_vshard_spec s vs v Hwf) as (s' & n & E' & Hwf' & Hc' & _).
      exists s'. rewrite E'. cbn. by rewrite Hc', Hc.
    - destruct (st_insert_all_spec st_new ds store_wf_new) as (s' & E' & Hwf' & Hc' & _).
      exists s'. by rewrite Hc'.
    - exists (with_quantized s on). split_and!; [done| |done].
      destruct Hwf as [Hk Hv Hl]. split; [done|by apply vx_wf_mode|done]. }
  exists s. split_and!; [done..| |].
  - by rewrite (swf_lockstep _ Hwf).
  - rewrite <- Hc. unfold st_len, ix_len. rewrite by_key_size by apply Hwf.
    apply documents_size, Hwf.
Qed.

(** Installing a snapshot replaces the contents by the snapshot's documents, and
    always leaves vector search in its default mode: a node configured for quantized
    search answers without quantization from then on. *)
Theorem replace_all_resets_mode (s : ShardStore) (docs : list FlightDocument) :
  ∃ s', replace_all (with_quantized s true) docs = Some s' ∧
    st_contents s' = insert_docs ∅ docs ∧ vx_quantized_mode (st_vector s') = false.
Proof.
  destruct (st_insert_all_spec st_new docs store_wf_new) as (s' & E & _ & Hc & Hm).
  exists s'. by split_and!.
Qed.

End store.
