(* ===== verification/Server.v ===== *)
(** * The shard's search service: [crates/shard-node/src/server.rs] and the follower side
    of [crates/shard-node/src/replication.rs]

    Handlers over a lockable store. A handler's result is the gRPC result; [None] is a
    panic. A poisoned lock is a state of the service. *)

From S2P Require Export Store FieldFilter Agg.

(** ** Definitions *)

Definition DEFAULT_KNN : nat := 10.

Section server.
Context {HO : HashOrder} {UC : Unicode} {FL : FloatLib} {EM : Embedder} {HN : Hnsw}
  {US : UnstableSort} (bm25_params : f64 * f64).

(** [sv_assignments] is [None] without virtual shards; its content is [None] when that
    lock is poisoned. *)
Record ShardSearchService := {
  sv_store : ShardStore;
  sv_poisoned : bool;
  sv_shard_id : string;
  sv_assignments : option (option (list Z));
}.

Definition sv_new (store : ShardStore) (shard_id : string) : ShardSearchService :=
  {| sv_store := store; sv_poisoned := false; sv_shard_id := shard_id; sv_assignments := None |}.

Definition with_assignments (sv : ShardSearchService) (table : list Z) : ShardSearchService :=
  {| sv_store := sv_store sv; sv_poisoned := sv_poisoned sv; sv_shard_id := sv_shard_id sv;
     sv_assignments := Some (Some table) |}.

Definition owning_vshard (sv : ShardSearchService) (icao24 : string) : Z :=
  match sv_assignments sv with
  | Some a =>
      let v := Z.of_nat (match a with Some t => length t | None => 0%nat end) in
      if v =? 0 then -1 else wrap_i32 (fnv1a_64 (str_bytes icao24) mod v)
  | None => -1
  end.

Definition make_hit (sv : ShardSearchService) (doc : FlightDocument) (score : f64)
    (index : IndexKind) : SearchHit :=
  {| sh_document := Some doc; sh_score := score;
     sh_provenance := Some
       {| hp_source_group := sv_shard_id sv; hp_observed_at := fd_observed_at doc;
          hp_index := index_kind_to_i32 index; hp_score := score;
          hp_owning_vshard := owning_vshard sv (fd_icao24 doc) |} |}.

(** [if let Some(f) = &req.filter { validate(f)? }]. *)
Definition check_filter (filter : option Filter) : result () Status :=
  match filter with
  | Some f => map_err (status InvalidArgument) (validate f)
  | None => Ok ()
  end.

Definition read_store (sv : ShardSearchService) : result ShardStore Status :=
  if sv_poisoned sv then Err (status Internal "store lock poisoned") else Ok (sv_store sv).

Definition shard_response (sv : ShardSearchService) (hits : list SearchHit) (total : nat)
    : SearchResponse :=
  {| sp_hits := hits; sp_total_matched := wrap_u64 (Z.of_nat total);
     sp_shard_id := sv_shard_id sv; sp_shards_queried := 0; sp_shards_answered := 0;
     sp_manifest := None |}.

Definition sv_search (sv : ShardSearchService) (req : SearchRequest)
    : option (result SearchResponse Status) :=
  let limit := Z.to_nat (sr_limit req) in
  match (_ <-? check_filter (sr_filter req);; read_store sv) with
  | Err e => Some (Err e)
  | Ok store =>
      let filtered := is_some (sr_filter req) in
      let fetch := if filtered then 0%nat else limit in
      results ← st_search bm25_params store (sr_query req) fetch;
      let hits :=
        (λ h, make_hit sv (sc_doc h) (sc_score h) IndexKeyword)
          <$> filter (λ h, passes (sc_doc h) (sr_filter req) = true) (rs_hits results) in
      let total := if filtered then length hits else rs_total_matched results in
      let hits := if filtered then truncate_limit limit hits else hits in
      Some (Ok (shard_response sv hits total))
  end.

Definition sv_vector_search (sv : ShardSearchService) (req : VectorSearchRequest)
    : option (result SearchResponse Status) :=
  let k := if vr_limit req =? 0 then DEFAULT_KNN else Z.to_nat (vr_limit req) in
  match (_ <-? check_filter (vr_filter req);; read_store sv) with
  | Err e => Some (Err e)
  | Ok store =>
      let expected := st_embed_dim store in
      if bool_decide (length (vr_vector req) ≠ expected) then
        Some (Err (status InvalidArgument
          ("query vector has " +:+ show_nat (length (vr_vector req))
             +:+ " dims, this shard embeds at " +:+ show_nat expected)))
      else
        let fetch := if is_some (vr_filter req) then (k * 4)%nat else k in
        found ← st_vector_search store (vr_vector req) fetch;
        let hits := take k
          ((λ h, make_hit sv (vh_doc h) (vh_score h) IndexVector)
            <$> filter (λ h, passes (vh_doc h) (vr_filter req) = true) found) in
        Some (Ok (shard_response sv hits (length hits)))
  end.

Definition sv_aggregate (sv : ShardSearchService) (req : AggregateRequest)
    : option (result AggregateResponse Status) :=
  match (_ <-? check_filter (ar_filter req);; read_store sv) with
  | Err e => Some (Err e)
  | Ok store =>
      docs ← st_matching bm25_params store (ar_query req);
      let matched := filter (λ d, passes d (ar_filter req) = true) docs in
      p ← partial matched req;
      Some (Ok {| ag_partial := Some p; ag_percentiles := []; ag_manifest := None |})
  end.

(** The follower's [Replicate] handler: the store after it, and the count. *)
Definition replicate (sv : ShardSearchService) (req : ReplicateRequest)
    : option (result (ShardStore * Z) Status) :=
  let applied := len_u32 (rr_documents req) in
  match read_store sv with
  | Err e => Some (Err e)
  | Ok store => s ← st_insert_all store (rr_documents req); Some (Ok (s, applied))
  end.

(** ** Specification *)

(** The documents a query asks for: those containing a query term and passing the
    filter, in keyword rank order. *)
Definition ranked_matches (store : ShardStore) (query : string) (filter_ : option Filter)
    : option (list ScoredHit) :=
  r ← st_search bm25_params store query 0;
  Some (filter (λ h, passes (sc_doc h) filter_ = true) (rs_hits r)).

Definition filter_ok (f : option Filter) : Prop :=
  match f with Some f => Forall well_typed (f_conditions f) | None => True end.

(** ** Lemmas *)

Lemma check_filter_ok f : check_filter f = Ok () ↔ filter_ok f.
Proof.
  destruct f as [f|]; [|by split]. simpl. rewrite <- validate_conditions_ok. unfold validate.
  destruct (validate_conditions (f_conditions f)) as [[]|e]; simpl; naive_solver.
Qed.

Lemma check_filter_err f e : check_filter f = Err e → st_code e = InvalidArgument ∧ ¬ filter_ok f.
Proof.
  intros H. split; [|rewrite <- check_filter_ok; congruence].
  destruct f as [f|]; [|done]. simpl in H. by destruct (validate f); simplify_eq/=.
Qed.

Lemma filter_no_filter (l : list ScoredHit) :
  filter (λ h, passes (sc_doc h) None = true) l = l.
Proof. apply filter_all, Forall_forall. done. Qed.

(** Searching with a limit is searching without and truncating. *)
Lemma st_search_limit store query limit r :
  st_search bm25_params store query 0 = Some r →
  st_search bm25_params store query limit =
    Some {| rs_total_matched := rs_total_matched r; rs_hits := truncate_limit limit (rs_hits r) |}.
Proof.
  unfold st_search, ix_search. case_bool_decide; [intros [= <-]; simpl; by destruct limit|].
  destruct (ix_scores _ _ _) as [scores|]; [|done]. cbn [mbind option_bind].
  destruct (mapM _ _) as [hits|]; [|done]. cbn [mbind option_bind]. intros [= <-]. done.
Qed.

Lemma st_search_total store query r :
  store_wf store → st_search bm25_params store query 0 = Some r →
  rs_total_matched r = length (rs_hits r).
Proof.
  intros Hwf. unfold st_search, ix_search. case_bool_decide; [intros [= <-]; done|].
  destruct (ix_scores _ _ _) as [scores|]; [|done]. cbn [mbind option_bind].
  destruct (mapM _ _) as [hits|] eqn:E; [|done]. cbn [mbind option_bind]. intros [= <-].
  cbn [rs_total_matched rs_hits]. rewrite truncate_limit_zero, sort_by_length.
  apply length_mapM in E. by rewrite <- E, hm_order_length.
Qed.

Lemma truncate_limit_fmap {A B} (f : A → B) limit (l : list A) :
  truncate_limit limit (f <$> l) = f <$> truncate_limit limit l.
Proof.
  unfold truncate_limit. rewrite length_fmap. destruct (_ && _); [|done]. by rewrite fmap_take.
Qed.

(** A healthy shard answers with the ranked matches, cut to the limit. *)
Lemma sv_search_ok sv req :
  store_wf (sv_store sv) → filter_ok (sr_filter req) → sv_poisoned sv = false →
  ∃ ranked, ranked_matches (sv_store sv) (sr_query req) (sr_filter req) = Some ranked ∧
    sv_search sv req = Some (Ok (shard_response sv
      ((λ h, make_hit sv (sc_doc h) (sc_score h) IndexKeyword)
         <$> truncate_limit (Z.to_nat (sr_limit req)) ranked) (length ranked))).
Proof.
  intros Hwf Hf Hp.
  destruct (ix_search_total bm25_params (st_keyword (sv_store sv)) (sr_query req) 0)
    as [r Hr]; [apply Hwf|].
  change (st_search bm25_params (sv_store sv) (sr_query req) 0 = Some r) in Hr.
  pose proof (st_search_total _ _ _ Hwf Hr) as Htot.
  unfold ranked_matches, sv_search, read_store. rewrite Hr, Hp. apply check_filter_ok in Hf as ->.
  cbn [mbind option_bind]. rewrite (st_search_limit _ _ _ r Hr).
  cbn [mbind option_bind rs_hits rs_total_matched].
  eexists. split; [done|]. do 3 f_equal.
  - destruct (sr_filter req) as [f|]; cbn [is_some].
    + by rewrite truncate_limit_zero, truncate_limit_fmap.
    + by rewrite !filter_no_filter.
  - destruct (sr_filter req) as [f|]; cbn [is_some].
    + by rewrite truncate_limit_zero, length_fmap.
    + by rewrite filter_no_filter.
Qed.

(** Without a limit, those are exactly the stored documents that match and pass. *)
Lemma sv_search_contents sv req resp :
  store_wf (sv_store sv) → sv_poisoned sv = false → filter_ok (sr_filter req) →
  sr_limit req = 0 → sv_search sv req = Some (Ok resp) →
  ∀ d, st_contents (sv_store sv) !! fd_icao24 d = Some d ∧ matches (tokenize (sr_query req)) d ∧
       passes d (sr_filter req) = true ↔ ∃ hit, hit ∈ sp_hits resp ∧ sh_document hit = Some d.
Proof.
  intros Hwf Hp Hf Hl E d. destruct (sv_search_ok sv req Hwf Hf Hp) as (ranked & Hr & Hs).
  rewrite E, Hl in Hs. injection Hs as ->. cbn [shard_response sp_hits].
  rewrite truncate_limit_zero. unfold ranked_matches in Hr.
  destruct (ix_search_docs bm25_params (st_keyword (sv_store sv)) (sr_query req) (swf_keyword _ Hwf))
    as (r & Er & Hd).
  change (st_search bm25_params (sv_store sv) (sr_query req) 0 = Some r) in Er.
  rewrite Er in Hr. injection Hr as <-.
  destruct (documents_spec _ (swf_keyword _ Hwf)) as [_ Hin]. unfold st_contents.
  rewrite <- Hin. split.
  - intros (Hdoc & Hm & Hpass).
    assert (d ∈ sc_doc <$> rs_hits r) as (h & -> & Hh)%list_elem_of_fmap
      by (rewrite Hd; by apply list_elem_of_filter).
    exists (make_hit sv (sc_doc h) (sc_score h) IndexKeyword). split; [|done].
    apply list_elem_of_fmap. exists h. split; [done|]. by apply list_elem_of_filter.
  - intros (hit & (h & -> & [Hpass Hh]%list_elem_of_filter)%list_elem_of_fmap & [= <-]).
    assert (sc_doc h ∈ sc_doc <$> rs_hits r) as Hdoc by (apply list_elem_of_fmap; by exists h).
    rewrite Hd in Hdoc. by apply list_elem_of_filter in Hdoc as [? ?].
Qed.

(** Every hit of an answer carries its document. *)
Lemma sv_search_documents sv req resp hit :
  store_wf (sv_store sv) → sv_poisoned sv = false → filter_ok (sr_filter req) →
  sv_search sv req = Some (Ok resp) → hit ∈ sp_hits resp → ∃ d, sh_document hit = Some d.
Proof.
  intros Hwf Hp Hf E Hin. destruct (sv_search_ok sv req Hwf Hf Hp) as (ranked & _ & Hs).
  rewrite E in Hs. injection Hs as ->. apply list_elem_of_fmap in Hin as (h & -> & _). by eexists.
Qed.

(** ** Properties *)

(** Keyword search on a shard is filter-then-limit. On a healthy store, a request
    with a well-typed filter is answered with exactly the ranked matches that pass the
    filter, cut to the limit after filtering (so the top-k is the filtered top-k), with
    the total counting every filtered match and each hit carrying its document's
    provenance; an ill-typed filter is an [InvalidArgument], a poisoned store an
    [Internal] error, and nothing panics. *)
Theorem shard_search_correct (sv : ShardSearchService) (req : SearchRequest)
    (Hwf : store_wf (sv_store sv)) :
  ∃ ranked res, ranked_matches (sv_store sv) (sr_query req) (sr_filter req) = Some ranked ∧
    sv_search sv req = Some res ∧
    (filter_ok (sr_filter req) → sv_poisoned sv = false →
     res = Ok (shard_response sv
       ((λ h, make_hit sv (sc_doc h) (sc_score h) IndexKeyword)
          <$> truncate_limit (Z.to_nat (sr_limit req)) ranked) (length ranked))) ∧
    (¬ filter_ok (sr_filter req) → ∃ e, res = Err e ∧ st_code e = InvalidArgument) ∧
    (filter_ok (sr_filter req) → sv_poisoned sv = true →
     res = Err (status Internal "store lock poisoned")).
Proof.
  destruct (check_filter (sr_filter req)) as [[]|e] eqn:Ef.
  - apply check_filter_ok in Ef. destruct (sv_poisoned sv) eqn:Ep.
    + destruct (ix_search_total bm25_params (st_keyword (sv_store sv)) (sr_query req) 0)
        as [r Hr]; [apply Hwf|].
      unfold ranked_matches, st_search, sv_search, read_store. rewrite Hr, Ep.
      pose proof Ef as ->%check_filter_ok. eexists _, _. by split_and!.
    + destruct (sv_search_ok sv req Hwf Ef Ep) as (ranked & Hr & Hs). eexists _, _.
      by split_and!.
  - destruct (ix_search_total bm25_params (st_keyword (sv_store sv)) (sr_query req) 0)
      as [r Hr]; [apply Hwf|].
    unfold ranked_matches, st_search, sv_search. rewrite Hr, Ef.
    apply check_filter_err in Ef as [Hc Hno]. eexists _, _. split_and!; try done. eauto.
Qed.

(** Nearest-neighbour search on a shard returns at most [k] hits ([k] defaulting to
    10), each a current document of the shard that passes the filter, one per aircraft;
    the total says exactly how many are returned. A query vector of another dimension
    is refused instead of scored. *)
Theorem shard_vector_search_correct {HL : HnswLaws} (sv : ShardSearchService)
    (req : VectorSearchRequest) (Hwf : store_wf (sv_store sv)) (Hp : sv_poisoned sv = false)
    (Hf : filter_ok (vr_filter req)) (Hn : 0 ≤ vr_limit req < 2 ^ 32) :
  let k := if vr_limit req =? 0 then 10%nat else Z.to_nat (vr_limit req) in
  ∃ res, sv_vector_search sv req = Some res ∧
    (length (vr_vector req) ≠ embed_dim → ∃ e, res = Err e ∧ st_code e = InvalidArgument) ∧
    (length (vr_vector req) = embed_dim → ∃ resp, res = Ok resp ∧
       (length (sp_hits resp) ≤ k)%nat ∧
       sp_total_matched resp = Z.of_nat (length (sp_hits resp)) ∧
       NoDup (icao24_of <$> sp_hits resp) ∧
       ∀ h, h ∈ sp_hits resp → ∃ d, sh_document h = Some d ∧
         st_contents (sv_store sv) !! fd_icao24 d = Some d ∧ passes d (vr_filter req) = true).
Proof.
  intros k. unfold sv_vector_search. apply check_filter_ok in Hf as ->.
  unfold read_store. rewrite Hp. change DEFAULT_KNN with 10%nat. fold k.
  unfold st_embed_dim, vx_dim. case_bool_decide as Hd.
  { eexists. split; [done|]. split; [|done]. intros _. by eexists. }
  set (fetch := if is_some _ then _ else _).
  destruct (vx_search_spec (st_vector (sv_store sv)) (vr_vector req) fetch)
    as (found & E & Hlen & Hnd & Hin); [apply Hwf|].
  unfold st_vector_search. rewrite E. cbn [mbind option_bind]. eexists. split; [done|].
  split; [done|]. intros _. eexists. split; [done|].
  unfold shard_response. cbn [sp_hits sp_total_matched].
  set (kept := filter _ found).
  assert (NoDup ((λ h, fd_icao24 (vh_doc h)) <$> kept)) as Hndk.
  { eapply NoDup_fmap_sublist_of; [exact Hnd|]. apply sublist_filter. }
  split_and!.
  - rewrite length_take. lia.
  - unfold wrap_u64. apply Z.mod_small. rewrite length_take.
    assert (Z.of_nat k < 2 ^ 33); [|lia].
    unfold k. destruct (vr_limit req =? 0); lia.
  - rewrite fmap_take, <- list_fmap_compose.
    change (icao24_of ∘ _) with (λ h, fd_icao24 (vh_doc h)).
    rewrite <- (take_drop k (_ <$> kept)) in Hndk. by apply NoDup_app in Hndk as [? _].
  - intros h Hh. assert (h ∈ (λ h, make_hit sv (vh_doc h) (vh_score h) IndexVector) <$> kept)
      as Hk by (eapply elem_of_prefix; [exact Hh|apply prefix_take]).
    apply list_elem_of_fmap in Hk as (g & -> & [Hpass Hg]%list_elem_of_filter).
    exists (vh_doc g). split_and!; [done| |done].
    unfold st_contents. rewrite <- (swf_lockstep _ Hwf). by apply Hin.
Qed.
End server.

(** ** Witnesses *)

#[local] Existing Instances canonical_order ascii_only whole_numbers tiny_embedder scan_graph
  stable_sort.

Definition empty_service : ShardSearchService := sv_new st_new "shard-0".

Lemma shard_search_correct_witness :
  ∃ ranked, ranked_matches (f64_one, f64_one) st_new "ual" None = Some ranked.
Proof.
  destruct (shard_search_correct (f64_one, f64_one) empty_service
    {| sr_query := "ual"; sr_limit := 5; sr_filter := None |} store_wf_new)
    as (ranked & _ & E & _).
  exists ranked. exact E.
Defined.

Lemma shard_vector_search_correct_witness :
  ∃ res, sv_vector_search empty_service
    {| vr_vector := []; vr_limit := 0; vr_filter := None |} = Some res ∧
    ∃ e, res = Err e ∧ st_code e = InvalidArgument.
Proof.
  destruct (shard_vector_search_correct (HL := scan_graph_laws) empty_service
    {| vr_vector := []; vr_limit := 0; vr_filter := None |} store_wf_new eq_refl I)
    as (res & E & Hbad & _); [vm_compute; split; [discriminate|reflexivity]|].
  exists res. split; [exact E|]. apply Hbad. discriminate.
Defined.
