(* ===== verification/RaftStorage.v ===== *)
(** * Raft storage: [crates/consensus/src/storage.rs] and the [StateMachineApp] trait of
    [crates/consensus/src/lib.rs]

    The in-memory log, and the snapshotting state machine over an application. openraft
    supplies the types of leader ids, memberships and votes; bincode supplies the codec
    of the snapshot file. [None] is a panic. *)

From S2P Require Export Text.

(** ** Types of the raft library *)

Abbreviation bytes := (list Z).

Class RaftTypes := {
  leader_id : Type;
  membership : Type;
  membership_default : membership;
  vote : Type;
}.

Section types.
Context {RT : RaftTypes}.

Record LogId := { lid_leader : leader_id; lid_index : Z }.

(** [Payload] is the bytes; its serialisation is the codec's. *)
Inductive EntryPayload :=
| Blank
| Normal (payload : bytes)
| Membership (m : membership).

Record Entry := { en_log_id : LogId; en_payload : EntryPayload }.

Record StoredMembership := { sm_log_id : option LogId; sm_config : membership }.
Definition membership_none : StoredMembership :=
  {| sm_log_id := None; sm_config := membership_default |}.

Record SnapshotMeta := {
  me_last_log_id : option LogId;
  me_last_membership : StoredMembership;
  me_snapshot_id : string;
}.
End types.

(** ** Ordered maps: [BTreeMap<u64, V>] *)

Inductive Bound := Included (z : Z) | Excluded (z : Z) | Unbounded.

Definition bt_cmp {V} (a b : Z * V) : comparison := Z.compare a.1 b.1.

(** Iteration is in key order. *)
Definition bt_iter {V} (m : gmap Z V) : list (Z * V) := sort_by bt_cmp (map_to_list m).

Definition above (b : Bound) (k : Z) : bool :=
  match b with Included z => z <=? k | Excluded z => z <? k | Unbounded => true end.
Definition below (b : Bound) (k : Z) : bool :=
  match b with Included z => k <=? z | Excluded z => k <? z | Unbounded => true end.

(** [BTreeMap::range] panics when the start lies after the end, or on an empty
    doubly-excluded range. *)
Definition range_panics (lo hi : Bound) : bool :=
  match lo, hi with
  | Excluded a, Excluded b => b <=? a
  | Included a, Included b | Included a, Excluded b | Excluded a, Included b => b <? a
  | _, _ => false
  end.

Definition bt_range {V} (m : gmap Z V) (lo hi : Bound) : option (list (Z * V)) :=
  if range_panics lo hi then None
  else Some (filter (λ kv, above lo kv.1 && below hi kv.1 = true) (bt_iter m)).

(** ** The in-memory log store *)

Section log.
Context {RT : RaftTypes}.

Record LogStore := {
  ls_log : gmap Z Entry;
  ls_last_purged : option LogId;
  ls_committed : option LogId;
  ls_vote : option vote;
}.

Definition ls_default : LogStore :=
  {| ls_log := ∅; ls_last_purged := None; ls_committed := None; ls_vote := None |}.

Definition try_get_log_entries (l : LogStore) (lo hi : Bound) : option (list Entry) :=
  kvs ← bt_range (ls_log l) lo hi; Some kvs.*2.

(** The last purged and the last log id. *)
Definition get_log_state (l : LogStore) : option LogId * option LogId :=
  (ls_last_purged l,
   match last (bt_iter (ls_log l)) with
   | Some kv => Some (en_log_id kv.2)
   | None => ls_last_purged l
   end).

Definition save_vote (l : LogStore) (v : vote) : LogStore :=
  {| ls_log := ls_log l; ls_last_purged := ls_last_purged l; ls_committed := ls_committed l;
     ls_vote := Some v |}.
Definition read_vote (l : LogStore) : option vote := ls_vote l.

Definition save_committed (l : LogStore) (c : option LogId) : LogStore :=
  {| ls_log := ls_log l; ls_last_purged := ls_last_purged l; ls_committed := c;
     ls_vote := ls_vote l |}.
Definition read_committed (l : LogStore) : option LogId := ls_committed l.

(** Collecting the keys of a range and removing them one by one. *)
Definition remove_keys {V} (p : Z → bool) (m : gmap Z V) : gmap Z V :=
  foldl (λ m k, delete k m) m (filter (λ kv, p kv.1 = true) (bt_iter m)).*1.

Definition ls_append (l : LogStore) (entries : list Entry) : LogStore :=
  {| ls_log := foldl (λ m e, <[lid_index (en_log_id e) := e]> m) (ls_log l) entries;
     ls_last_purged := ls_last_purged l; ls_committed := ls_committed l; ls_vote := ls_vote l |}.

Definition ls_truncate (l : LogStore) (log_id : LogId) : LogStore :=
  {| ls_log := remove_keys (above (Included (lid_index log_id))) (ls_log l);
     ls_last_purged := ls_last_purged l; ls_committed := ls_committed l; ls_vote := ls_vote l |}.

Definition ls_purge (l : LogStore) (log_id : LogId) : LogStore :=
  {| ls_log := remove_keys (below (Included (lid_index log_id))) (ls_log l);
     ls_last_purged := Some log_id; ls_committed := ls_committed l; ls_vote := ls_vote l |}.
End log.

(** ** Applications *)

(** What an application supplies. A [seed] is what varies between processes running the
    same application: the iteration order of its hash maps. [app_local] are the changes a
    process makes to the same state beside the log, like a coordinator's view of which
    nodes are alive. *)
Class StateMachineApp := {
  seed : Type;
  app : Type;
  app_new : app;
  app_apply : seed → app → bytes → option (app * Z);
  app_snapshot_bytes : seed → app → bytes;
  app_restore : seed → app → bytes → option (app * Z);
  app_local : app → app → Prop;
}.

(** What the state machine relies on: commands are deterministic up to an equivalence
    that no seed can tell apart, restoring a dump gives the dumped state, whatever was
    there before, and changes beside the log do not touch what the log determines. *)
Class AppLaws `{!StateMachineApp} := {
  app_ok : seed → app → Prop;
  app_equiv : app → app → Prop;
  app_equivalence :: Equivalence app_equiv;
  app_new_ok : ∀ s, app_ok s app_new;
  app_apply_equiv : ∀ s s' a b p, app_ok s a → app_ok s' b → app_equiv a b →
    ∃ a' b' n, app_apply s a p = Some (a', n) ∧ app_apply s' b p = Some (b', n) ∧
      app_ok s a' ∧ app_ok s' b' ∧ app_equiv a' b';
  app_restore_dump : ∀ s s' a b, app_ok s a → app_ok s' b →
    ∃ c n, app_restore s' b (app_snapshot_bytes s a) = Some (c, n) ∧
      app_ok s' c ∧ app_equiv c a;
  app_local_equiv : ∀ s a b, app_ok s a → app_local a b → app_ok s b ∧ app_equiv b a;
}.

(** ** The state machine *)

Section machine.
Context {RT : RaftTypes} {SA : StateMachineApp} {HO : HashOrder}.

Record StoredSnapshot := { ss_meta : SnapshotMeta; ss_data : bytes }.
Record SnapshotFile := { sf_meta : SnapshotMeta; sf_data : bytes }.

(** bincode on [SnapshotFile]. *)
Class SnapshotCodec := {
  snap_encode : SnapshotFile → bytes;
  snap_decode : bytes → option SnapshotFile;
  snap_roundtrip : ∀ f, snap_decode (snap_encode f) = Some f;
}.

Context {SC : SnapshotCodec}.

(** [sm_dir] is the snapshot directory with its current files, when one is set;
    [sm_s3] says whether the S3 tier is configured. *)
Record StateMachineStore := {
  sm_app : app;
  sm_last_applied : option LogId;
  sm_membership : StoredMembership;
  sm_snapshot_seq : Z;
  sm_snapshot : option StoredSnapshot;
  sm_dir : option (gmap string bytes);
  sm_s3 : bool;
}.

Definition sm_new (a : app) : StateMachineStore :=
  {| sm_app := a; sm_last_applied := None; sm_membership := membership_none;
     sm_snapshot_seq := 0; sm_snapshot := None; sm_dir := None; sm_s3 := false |}.

Definition with_dir (sm : StateMachineStore) (dir : option (gmap string bytes))
    : StateMachineStore :=
  {| sm_app := sm_app sm; sm_last_applied := sm_last_applied sm;
     sm_membership := sm_membership sm; sm_snapshot_seq := sm_snapshot_seq sm;
     sm_snapshot := sm_snapshot sm; sm_dir := dir; sm_s3 := sm_s3 sm |}.

Definition with_app (sm : StateMachineStore) (a : app) : StateMachineStore :=
  {| sm_app := a; sm_last_applied := sm_last_applied sm;
     sm_membership := sm_membership sm; sm_snapshot_seq := sm_snapshot_seq sm;
     sm_snapshot := sm_snapshot sm; sm_dir := sm_dir sm; sm_s3 := sm_s3 sm |}.

Definition with_s3 (sm : StateMachineStore) (on : bool) : StateMachineStore :=
  {| sm_app := sm_app sm; sm_last_applied := sm_last_applied sm;
     sm_membership := sm_membership sm; sm_snapshot_seq := sm_snapshot_seq sm;
     sm_snapshot := sm_snapshot sm; sm_dir := sm_dir sm; sm_s3 := on |}.

(** The state after a restored snapshot. *)
Definition with_snapshot (sm : StateMachineStore) (a : app) (meta : SnapshotMeta) (data : bytes)
    : StateMachineStore :=
  {| sm_app := a; sm_last_applied := me_last_log_id meta;
     sm_membership := me_last_membership meta; sm_snapshot_seq := sm_snapshot_seq sm;
     sm_snapshot := Some {| ss_meta := meta; ss_data := data |}; sm_dir := sm_dir sm;
     sm_s3 := sm_s3 sm |}.

(** *** Files *)

Definition snapshot_name (index : Z) : string :=
  "snap-" +:+ pad_zero 20 (show_Z index) +:+ ".bin".
Definition tmp_name (index : Z) : string :=
  "snap-" +:+ pad_zero 20 (show_Z index) +:+ ".tmp".

Definition meta_index (meta : SnapshotMeta) : Z :=
  match me_last_log_id meta with Some l => lid_index l | None => 0 end.

(** How the write closure of [persist] came out: the rename happened and the clean-up
    removed some of the other files, or a step failed and left a temporary file. *)
Inductive Write :=
| WriteOk (removed : string → bool)
| WriteFailed (tmp : option bytes).

Definition superseded (path name : string) : bool :=
  starts_with "snap-" name && ends_with ".bin" name && bool_decide (name ≠ path).

Definition persist (sm : StateMachineStore) (meta : SnapshotMeta) (data : bytes) (w : Write)
    : StateMachineStore :=
  match sm_dir sm with
  | None => sm
  | Some files =>
      let path := snapshot_name (meta_index meta) in
      let tmp := tmp_name (meta_index meta) in
      let content := snap_encode {| sf_meta := meta; sf_data := data |} in
      match w with
      | WriteOk removed =>
          let files := <[path := content]> (delete tmp files) in
          with_dir sm (Some (filter (λ kv, superseded path kv.1 && removed kv.1 = false) files))
      | WriteFailed None => sm
      | WriteFailed (Some part) => with_dir sm (Some (<[tmp := part]> files))
      end
  end.

Definition file_index (name : string) : option Z :=
  s ← strip_prefix "snap-" name; s ← strip_suffix ".bin" s; parse_u64 s.

Definition newest_step (newest : option (Z * string)) (name : string) : option (Z * string) :=
  match file_index name with
  | Some idx =>
      match newest with
      | Some (n, _) => if n <? idx then Some (idx, name) else newest
      | None => Some (idx, name)
      end
  | None => newest
  end.

(** The directory is listed in an arbitrary order. *)
Definition load_latest (files : gmap string bytes) : option (SnapshotMeta * bytes) :=
  '(_, path) ← foldl newest_step None (hm_keys files);
  content ← files !! path;
  f ← snap_decode content;
  Some (sf_meta f, sf_data f).

(** *** Opening *)

Definition with_snapshot_dir (s : seed) (a : app) (files : gmap string bytes)
    : option StateMachineStore :=
  let sm := with_dir (sm_new a) (Some files) in
  match load_latest files with
  | Some (meta, data) =>
      '(a', _) ← app_restore s (sm_app sm) data; Some (with_snapshot sm a' meta data)
  | None => Some sm
  end.

(** [s3] is the tier, when configured, with what fetching its newest object gives. *)
Definition open_durable (s : seed) (a : app) (files : gmap string bytes)
    (s3 : option (option bytes)) (w : Write) : option StateMachineStore :=
  sm ← with_snapshot_dir s a files;
  let sm := with_s3 sm (bool_decide (is_Some s3)) in
  match sm_snapshot sm, s3 with
  | None, Some (Some content) =>
      match snap_decode content with
      | Some f =>
          '(a', _) ← app_restore s (sm_app sm) (sf_data f);
          Some (persist (with_snapshot sm a' (sf_meta f) (sf_data f)) (sf_meta f) (sf_data f) w)
      | None => Some sm
      end
  | _, _ => Some sm
  end.

(** *** Operations *)

(** [build_snapshot] first dumps the application, then takes the lock for the pointers. *)
Definition build_meta (sm : StateMachineStore) : SnapshotMeta :=
  {| me_last_log_id := sm_last_applied sm; me_last_membership := sm_membership sm;
     me_snapshot_id := "snap-" +:+ show_Z (wrap_u64 (sm_snapshot_seq sm + 1)) |}.

Definition build_finish (sm : StateMachineStore) (data : bytes) (w : Write)
    : StateMachineStore * StoredSnapshot * option (string * bytes) :=
  let meta := build_meta sm in
  let snap := {| ss_meta := meta; ss_data := data |} in
  let sm1 := {| sm_app := sm_app sm; sm_last_applied := sm_last_applied sm;
                sm_membership := sm_membership sm;
                sm_snapshot_seq := wrap_u64 (sm_snapshot_seq sm + 1);
                sm_snapshot := Some snap; sm_dir := sm_dir sm; sm_s3 := sm_s3 sm |} in
  let upload :=
    if sm_s3 sm
    then Some (snapshot_name (meta_index meta), snap_encode {| sf_meta := meta; sf_data := data |})
    else None in
  (persist sm1 meta data w, snap, upload).

Definition build_snapshot (s : seed) (sm : StateMachineStore) (w : Write)
    : StateMachineStore * StoredSnapshot * option (string * bytes) :=
  build_finish sm (app_snapshot_bytes s (sm_app sm)) w.

Definition applied_state (sm : StateMachineStore) : option LogId * StoredMembership :=
  (sm_last_applied sm, sm_membership sm).

Definition apply_entry (s : seed) (sm : StateMachineStore) (e : Entry)
    : option (StateMachineStore * Z) :=
  '(a, m, reply) ←
    match en_payload e with
    | Blank => Some (sm_app sm, sm_membership sm, 0)
    | Normal p => '(a, n) ← app_apply s (sm_app sm) p; Some (a, sm_membership sm, n)
    | Membership m =>
        Some (sm_app sm, {| sm_log_id := Some (en_log_id e); sm_config := m |}, 0)
    end;
  Some ({| sm_app := a; sm_last_applied := Some (en_log_id e); sm_membership := m;
           sm_snapshot_seq := sm_snapshot_seq sm; sm_snapshot := sm_snapshot sm;
           sm_dir := sm_dir sm; sm_s3 := sm_s3 sm |}, reply).

Definition sm_apply (s : seed) (sm : StateMachineStore) (entries : list Entry)
    : option (StateMachineStore * list Z) :=
  foldl (λ st e, '(sm, replies) ← st; '(sm, r) ← apply_entry s sm e; Some (sm, replies ++ [r]))
    (Some (sm, [])) entries.

Definition install_snapshot (s : seed) (sm : StateMachineStore) (meta : SnapshotMeta)
    (data : bytes) (w : Write) : option StateMachineStore :=
  '(a, _) ← app_restore s (sm_app sm) data;
  Some (persist (with_snapshot sm a meta data) meta data w).

Definition get_current_snapshot (sm : StateMachineStore) : option StoredSnapshot := sm_snapshot sm.

(** ** Specification *)

(** The log that the group commits, its ids and what its prefixes determine. *)
Context (L : list Entry).

Definition lid_at (n : nat) : option LogId := en_log_id <$> last (take n L).

Definition mem_step (m : StoredMembership) (e : Entry) : StoredMembership :=
  match en_payload e with
  | Membership c => {| sm_log_id := Some (en_log_id e); sm_config := c |}
  | _ => m
  end.
Definition mem_at (n : nat) : StoredMembership := foldl mem_step membership_none (take n L).

(** Replaying the commands of a prefix on an empty application. *)
Definition replay_step (s : seed) (st : option app) (e : Entry) : option app :=
  a ← st; match en_payload e with Normal p => fst <$> app_apply s a p | _ => Some a end.
Definition replay (s : seed) (n : nat) : option app :=
  foldl (replay_step s) (Some app_new) (take n L).

(** What the commands of a log do to an abstraction of the application. *)
Definition log_effect {T} (effect : T → bytes → T) (t : T) (l : list Entry) : T :=
  foldl (λ t e, match en_payload e with Normal p => effect t p | _ => t end) t l.

(** The states a replica can be in while the group commits [L]: starting empty, applying
    the next entries of the log, changing beside the log, building a snapshot, installing
    the current snapshot of any replica, or restarting from the directory a replica left and
    an object a replica uploaded, with any hash order in each process and any outcome of the
    writes. A build dumps the application in one state and labels the dump in a later one:
    the two are states at the same log position, neither of them in the middle of applying
    an entry. Nothing in the code ensures that ([concurrent_snapshot_stale]). *)
Inductive replica : seed → StateMachineStore → Prop :=
| replica_new s : replica s (sm_new app_new)
| replica_open s files s3 w sm :
    directory files → tier s3 → open_durable s app_new files s3 w = Some sm → replica s sm
| replica_apply s sm n k sm' replies :
    replica s sm → sm_last_applied sm = lid_at n →
    sm_apply s sm (take k (drop n L)) = Some (sm', replies) → replica s sm'
| replica_local s sm a :
    replica s sm → app_local (sm_app sm) a → replica s (with_app sm a)
| replica_build s sm0 sm w :
    replica s sm0 → replica s sm → sm_last_applied sm = sm_last_applied sm0 →
    replica s (build_finish sm (app_snapshot_bytes s (sm_app sm0)) w).1.1
| replica_install s sm s2 sm2 snap w sm' :
    replica s sm → replica s2 sm2 → get_current_snapshot sm2 = Some snap →
    install_snapshot s sm (ss_meta snap) (ss_data snap) w = Some sm' → replica s sm'
with directory : gmap string bytes → Prop :=
| directory_new : directory ∅
| directory_left s sm files : replica s sm → sm_dir sm = Some files → directory files
with tier : option (option bytes) → Prop :=
| tier_off : tier None
| tier_empty : tier (Some None)
| tier_object s sm0 sm w key content :
    replica s sm0 → replica s sm → sm_last_applied sm = sm_last_applied sm0 →
    (build_finish sm (app_snapshot_bytes s (sm_app sm0)) w).2 = Some (key, content) →
    tier (Some (Some content)).

(** [data] was dumped at the position [sm] is labelled with. *)
Definition dumped (s : seed) (sm : StateMachineStore) (data : bytes) : Prop :=
  ∃ sm0, replica s sm0 ∧ sm_last_applied sm = sm_last_applied sm0 ∧
    data = app_snapshot_bytes s (sm_app sm0).
End machine.

Scheme replica_mut := Minimality for replica Sort Prop
with directory_mut := Minimality for directory Sort Prop
with tier_mut := Minimality for tier Sort Prop.
Combined Scheme replica_directory_tier from replica_mut, directory_mut, tier_mut.

(** ** Lemmas *)

Section btree.
Context {V : Type}.
Implicit Types m : gmap Z V.

Lemma bt_cmp_total : total_on (λ _, True) (@bt_cmp V).
Proof.
  split; unfold bt_cmp.
  - intros x y _ _. apply Z.compare_antisym.
  - intros x y z _ _ _. rewrite !Z.compare_ngt_iff || rewrite <- !Z.compare_le_iff.
    unfold Z.le. lia.
Qed.

Lemma elem_of_bt_iter m k v : (k, v) ∈ bt_iter m ↔ m !! k = Some v.
Proof. unfold bt_iter. by rewrite elem_of_sort_by, elem_of_map_to_list. Qed.

(** Removing a range keeps exactly the keys outside it. *)
Lemma remove_keys_filter p m : remove_keys p m = filter (λ kv, p kv.1 = false) m.
Proof.
  apply map_eq. intros k. unfold remove_keys. rewrite (foldl_delete_lookup id), list_fmap_id.
  apply option_eq. intros v. rewrite map_lookup_filter_Some. simpl.
  assert (∀ v, m !! k = Some v →
    (k ∈ (filter (λ kv, p kv.1 = true) (bt_iter m)).*1 ↔ p k = true)) as H.
  { intros v' Hv. rewrite list_elem_of_fmap. split.
    - intros ([k' v''] & -> & [Hp _]%list_elem_of_filter). done.
    - intros Hp. exists (k, v'). split; [done|]. apply list_elem_of_filter.
      split; [done|]. by apply elem_of_bt_iter. }
  case_decide as Hd.
  - split; [done|]. intros [Hv Hp]. apply (H v) in Hd; [congruence|done].
  - split; [|by intros [? _]]. intros Hv. split; [done|].
    apply not_true_is_false. intros E. by apply Hd, (H v Hv).
Qed.
End btree.

Section laws.
Context {RT : RaftTypes} {SA : StateMachineApp} {AL : AppLaws} {HO : HashOrder}
  {SC : SnapshotCodec}.
Context (s0 : seed) (L : list Entry) (Hids : NoDup (en_log_id <$> L)).

(** What a prefix of the log determines of a replica. *)
Record position (pre : list Entry) (s : seed) (a : app) (last_id : option LogId)
    (m : StoredMembership) : Prop := {
  po_last : last_id = en_log_id <$> last pre;
  po_mem : m = foldl mem_step membership_none pre;
  po_ok : app_ok s a;
  po_ref : ∃ r, foldl (replay_step s0) (Some app_new) pre = Some r ∧ app_ok s0 r ∧ app_equiv a r;
}.

Definition snap_ok (meta : SnapshotMeta) (data : bytes) : Prop :=
  ∃ n s a, data = app_snapshot_bytes s a ∧
    position (take n L) s a (me_last_log_id meta) (me_last_membership meta).

Definition files_ok (files : gmap string bytes) : Prop :=
  ∀ name content, files !! name = Some content → is_Some (file_index name) →
    ∃ meta data, content = snap_encode {| sf_meta := meta; sf_data := data |} ∧ snap_ok meta data.

Record sm_ok (s : seed) (sm : StateMachineStore) : Prop := {
  smo_pos : ∃ n, position (take n L) s (sm_app sm) (sm_last_applied sm) (sm_membership sm);
  smo_snap : ∀ snap, sm_snapshot sm = Some snap → snap_ok (ss_meta snap) (ss_data snap);
  smo_files : ∀ files, sm_dir sm = Some files → files_ok files;
}.

Definition tier_ok (s3 : option (option bytes)) : Prop :=
  ∀ content, s3 = Some (Some content) →
    ∃ meta data, content = snap_encode {| sf_meta := meta; sf_data := data |} ∧ snap_ok meta data.

(** Log ids tell prefixes apart. *)
Lemma lid_at_inj n m : lid_at L n = lid_at L m → take n L = take m L.
Proof.
  clear AL SC. unfold lid_at. rewrite !last_lookup, !length_take.
  set (n' := (n `min` length L)%nat). set (m' := (m `min` length L)%nat).
  assert (∀ k, take k L = take (k `min` length L) L) as Hmin.
  { intros k. destruct (decide (k ≤ length L)%nat); [by rewrite Nat.min_l|].
    rewrite Nat.min_r by lia. by rewrite !take_ge by lia. }
  rewrite (Hmin n), (Hmin m). fold n' m'. intros E.
  assert (n' ≤ length L ∧ m' ≤ length L)%nat as [Hn Hm] by (unfold n', m'; lia).
  clearbody n' m'. clear Hmin n m.
  assert (∀ k, (k ≤ length L)%nat → k ≠ 0%nat → ∃ x, take k L !! pred k = Some x ∧
    (en_log_id <$> L) !! pred k = Some (en_log_id x)) as Hat.
  { intros k Hk Hk0. destruct (lookup_lt_is_Some_2 L (pred k)) as [x Hx]; [lia|].
    exists x. rewrite lookup_take_lt by lia. by rewrite list_lookup_fmap, Hx. }
  destruct (decide (n' = 0%nat)) as [->|Hn0], (decide (m' = 0%nat)) as [->|Hm0]; [done| | |].
  - destruct (Hat m') as (x & Hx & _); [done..|]. by rewrite Hx in E.
  - destruct (Hat n') as (x & Hx & _); [done..|]. by rewrite Hx in E.
  - destruct (Hat n') as (x & Hx & Hx'); [done..|]. destruct (Hat m') as (y & Hy & Hy'); [done..|].
    rewrite Hx, Hy in E. injection E as E. rewrite E in Hx'.
    pose proof (NoDup_lookup _ _ _ _ Hids Hx' Hy'). f_equal. lia.
Qed.

Lemma position_new s : position [] s app_new None membership_none.
Proof.
  split; [done|done|apply app_new_ok|]. exists app_new. split; [done|].
  split; [apply app_new_ok|reflexivity].
Qed.

Lemma position_step pre s sm e :
  position pre s (sm_app sm) (sm_last_applied sm) (sm_membership sm) →
  ∃ sm' r, apply_entry s sm e = Some (sm', r) ∧
    position (pre ++ [e]) s (sm_app sm') (sm_last_applied sm') (sm_membership sm') ∧
    sm_snapshot sm' = sm_snapshot sm ∧ sm_dir sm' = sm_dir sm.
Proof.
  intros [Hl Hm Hok (r & Hr & Hrok & Heq)]. unfold apply_entry.
  assert (∀ a m, app_ok s a → m = mem_step (sm_membership sm) e →
    (∃ r', replay_step s0 (Some r) e = Some r' ∧ app_ok s0 r' ∧ app_equiv a r') →
    position (pre ++ [e]) s a (Some (en_log_id e)) m) as Hpos.
  { intros a m Ha -> Hex. split; [by rewrite last_snoc|by rewrite foldl_snoc, <- Hm|done|].
    by rewrite foldl_snoc, Hr. }
  unfold mem_step, replay_step in Hpos. cbn [mbind option_bind] in Hpos.
  destruct (en_payload e) as [|p|m]; cbn [mbind option_bind].
  - eexists _, _. split; [done|]. split_and!; [|done|done]. apply Hpos; eauto.
  - destruct (app_apply_equiv s s0 _ _ p Hok Hrok Heq) as (a' & r' & n & E1 & E2 & ? & ? & ?).
    rewrite E1, E2 in *. cbn [mbind option_bind]. eexists _, _. split; [done|].
    split_and!; [|done|done]. apply Hpos; [done|done|]. by exists r'.
  - eexists _, _. split; [done|]. split_and!; [|done|done]. apply Hpos; eauto.
Qed.

Lemma position_apply pre s sm es :
  position pre s (sm_app sm) (sm_last_applied sm) (sm_membership sm) →
  ∃ sm' rs, sm_apply s sm es = Some (sm', rs) ∧
    position (pre ++ es) s (sm_app sm') (sm_last_applied sm') (sm_membership sm') ∧
    sm_snapshot sm' = sm_snapshot sm ∧ sm_dir sm' = sm_dir sm.
Proof.
  intros Hp. unfold sm_apply. induction es as [|e es (sm1 & rs & E & Hp1 & Hs & Hd)] using rev_ind.
  { exists sm, []. by rewrite app_nil_r. }
  rewrite foldl_snoc, E. cbn [mbind option_bind].
  destruct (position_step _ _ _ e Hp1) as (sm2 & r & E2 & Hp2 & Hs2 & Hd2). rewrite E2.
  cbn [mbind option_bind]. eexists _, _. split; [done|].
  rewrite app_assoc. split_and!; [done|congruence|congruence].
Qed.

(** Restoring a dump made at some position puts any replica there. *)
Lemma position_restore n s a s' b l m :
  position (take n L) s a l m → app_ok s' b →
  ∃ c k, app_restore s' b (app_snapshot_bytes s a) = Some (c, k) ∧ position (take n L) s' c l m.
Proof.
  intros [Hl Hm Hok (r & Hr & Hrok & Heq)] Hb.
  destruct (app_restore_dump s s' a b Hok Hb) as (c & k & E & Hc & Hca).
  exists c, k. split; [done|]. split; [done..|]. exists r. split_and!; [done|done|].
  by rewrite Hca.
Qed.
(** *** Snapshot files *)

Lemma file_index_tmp i : file_index (tmp_name i) = None.
Proof.
  unfold file_index, tmp_name. rewrite strip_prefix_app. cbn [mbind option_bind].
  unfold strip_suffix. by rewrite str_rev_app.
Qed.

Lemma file_index_snapshot i : 0 ≤ i < 2 ^ 64 → file_index (snapshot_name i) = Some i.
Proof.
  intros. unfold file_index, snapshot_name. rewrite strip_prefix_app. cbn [mbind option_bind].
  rewrite strip_suffix_app. cbn [mbind option_bind]. apply parse_padded. lia.
Qed.

Lemma newest_elem names st idx name :
  foldl newest_step st names = Some (idx, name) →
  st = Some (idx, name) ∨ name ∈ names ∧ file_index name = Some idx.
Proof.
  revert st. induction names as [|n names IH]; intros st H; [by left|].
  cbn [foldl] in H. apply IH in H as [H|[Hin Hf]]; [|right; split; [by right|done]].
  unfold newest_step in H. destruct (file_index n) as [i|] eqn:E; [|by left].
  destruct st as [[m p]|]; [case_match|]; simplify_eq; auto; right; (split; [left|done]).
Qed.

Lemma load_latest_ok files meta data :
  files_ok files → load_latest files = Some (meta, data) → snap_ok meta data.
Proof.
  intros Hf. unfold load_latest.
  destruct (foldl newest_step None (hm_keys files)) as [[idx name]|] eqn:E; [|done].
  cbn [mbind option_bind]. destruct (files !! name) as [content|] eqn:Ec; [|done].
  cbn [mbind option_bind]. apply newest_elem in E as [?|[_ Hi]]; [done|].
  destruct (Hf name content Ec) as (meta' & data' & -> & Hok); [by eexists|].
  rewrite snap_roundtrip. cbn. by intros [= <- <-].
Qed.

Lemma persist_ok s sm meta data w :
  sm_ok s sm → snap_ok meta data → sm_ok s (persist sm meta data w).
Proof.
  intros Hok Hsn. unfold persist. destruct (sm_dir sm) as [files|] eqn:Ed; [|done].
  pose proof Hok as [Hp Hs Hf]. specialize (Hf files Ed).
  assert (∀ dir, files_ok dir → sm_ok s (with_dir sm (Some dir))) as Hdir.
  { intros dir Hd. split; [done..|]. by intros ? [= <-]. }
  destruct w as [removed|[part|]].
  3: done.
  all: apply Hdir.
  - intros name content [Hl _]%map_lookup_filter_Some Hi.
    destruct (decide (name = snapshot_name (meta_index meta))) as [->|Hne].
    + rewrite lookup_insert_eq in Hl. simplify_eq. eauto.
    + rewrite lookup_insert_ne in Hl by done. apply lookup_delete_Some in Hl as [_ Hl]. eauto.
  - intros name content Hl Hi.
    destruct (decide (name = tmp_name (meta_index meta))) as [->|Hne].
    + rewrite file_index_tmp in Hi. by destruct Hi.
    + rewrite lookup_insert_ne in Hl by done. eauto.
Qed.

Lemma sm_new_ok s : sm_ok s (sm_new app_new).
Proof. split; cbn; [exists 0%nat; apply position_new|by intros ? [=]..]. Qed.

(** Restoring a snapshot, from any replica state. *)
Lemma restore_ok s sm meta data :
  sm_ok s sm → snap_ok meta data →
  ∃ a k, app_restore s (sm_app sm) data = Some (a, k) ∧ sm_ok s (with_snapshot sm a meta data).
Proof.
  intros [(n0 & Hp) Hs Hf] (n & s' & a & -> & Hpos).
  destruct (position_restore n s' a s (sm_app sm) _ _ Hpos (po_ok _ _ _ _ _ Hp)) as (c & k & E & Hc).
  exists c, k. split; [done|]. split; [by exists n| |done].
  intros snap [= <-]. by exists n, s', a.
Qed.

Lemma with_snapshot_dir_ok s files :
  files_ok files →
  ∃ sm, with_snapshot_dir s app_new files = Some sm ∧ sm_ok s sm.
Proof.
  intros Hf. unfold with_snapshot_dir.
  assert (sm_ok s (with_dir (sm_new app_new) (Some files))) as Hok.
  { destruct (sm_new_ok s) as [Hp _ _]. split; [done|by cbn; intros ? [=]|]. by cbn; intros ? [= <-]. }
  destruct (load_latest files) as [[meta data]|] eqn:E; [|by eexists].
  apply load_latest_ok in E; [|done].
  destruct (restore_ok s _ meta data Hok E) as (a & k & Er & Hok'). rewrite Er.
  cbn [mbind option_bind]. by eexists.
Qed.

Lemma with_s3_ok s sm on : sm_ok s sm → sm_ok s (with_s3 sm on).
Proof. by intros [? ? ?]. Qed.

Lemma open_durable_ok s files s3 w :
  files_ok files → tier_ok s3 →
  ∃ sm, open_durable s app_new files s3 w = Some sm ∧ sm_ok s sm.
Proof.
  intros Hf Ht. unfold open_durable.
  destruct (with_snapshot_dir_ok s files Hf) as (sm & E & Hok). rewrite E.
  cbn [mbind option_bind]. apply with_s3_ok with (on := bool_decide (is_Some s3)) in Hok.
  destruct (sm_snapshot (with_s3 sm _)); [by eexists|].
  destruct s3 as [[content|]|]; [|by eexists..].
  destruct (Ht content eq_refl) as (meta & data & -> & Hsn). rewrite snap_roundtrip.
  destruct (restore_ok s _ meta data Hok Hsn) as (a & k & Er & Hok'). cbn [sf_data sf_meta].
  rewrite Er. cbn [mbind option_bind]. eexists. split; [done|]. by apply persist_ok.
Qed.

Lemma local_ok s sm a : sm_ok s sm → app_local (sm_app sm) a → sm_ok s (with_app sm a).
Proof.
  intros [(n & [Hl Hm Ho (r & Hr & Hro & He)]) Hs Hf] Ha.
  destruct (app_local_equiv s _ _ Ho Ha) as [Ho' He']. split; [|done..].
  exists n. split; [done..|]. exists r. split_and!; [done..|]. by rewrite <- He.
Qed.

Lemma dumped_now s sm : replica L s sm → dumped L s sm (app_snapshot_bytes s (sm_app sm)).
Proof. intros H. by exists sm. Qed.

Lemma same_position s sm0 sm n :
  sm_ok s sm0 → position (take n L) s (sm_app sm) (sm_last_applied sm) (sm_membership sm) →
  sm_last_applied sm = sm_last_applied sm0 →
  position (take n L) s (sm_app sm0) (sm_last_applied sm) (sm_membership sm).
Proof.
  intros [(n0 & Hp0) _ _] [Hl Hm Ho Hr] E.
  assert (take n0 L = take n L) as En.
  { apply lid_at_inj. pose proof (po_last _ _ _ _ _ Hp0) as Hl0. unfold lid_at. congruence. }
  rewrite En in Hp0. destruct Hp0 as [_ _ Ho0 Hr0]. by split.
Qed.

Lemma build_ok s sm0 sm w :
  sm_ok s sm0 → sm_ok s sm → sm_last_applied sm = sm_last_applied sm0 →
  let b := build_finish sm (app_snapshot_bytes s (sm_app sm0)) w in
  sm_ok s b.1.1 ∧ tier_ok (Some (snd <$> b.2)).
Proof.
  intros H0 [(n & Hp) Hs Hf] E. unfold build_finish. cbn [fst snd].
  assert (snap_ok (build_meta sm) (app_snapshot_bytes s (sm_app sm0))) as Hsn.
  { exists n, s, (sm_app sm0). split; [done|]. by apply same_position. }
  split.
  - apply persist_ok; [|done]. split; [by exists n| |done]. by intros ? [= <-].
  - intros content [= H]. destruct (sm_s3 sm); [|done]. injection H as <-. eauto.
Qed.

Lemma install_ok s sm meta data w :
  sm_ok s sm → snap_ok meta data →
  ∃ sm', install_snapshot s sm meta data w = Some sm' ∧ sm_ok s sm'.
Proof.
  intros Hok Hsn. unfold install_snapshot.
  destruct (restore_ok s sm meta data Hok Hsn) as (a & k & E & Hok'). rewrite E.
  cbn [mbind option_bind]. eexists. split; [done|]. by apply persist_ok.
Qed.

Lemma apply_ok s sm n k :
  sm_ok s sm → sm_last_applied sm = lid_at L n →
  ∃ sm' rs, sm_apply s sm (take k (drop n L)) = Some (sm', rs) ∧ sm_ok s sm' ∧
    sm_last_applied sm' = lid_at L (n + k).
Proof.
  intros [(n0 & Hp) Hs Hf] Hn. pose proof (po_last _ _ _ _ _ Hp) as Hl.
  assert (take n0 L = take n L) as E by (apply lid_at_inj; unfold lid_at in *; congruence).
  rewrite E in Hp. destruct (position_apply _ _ _ (take k (drop n L)) Hp)
    as (sm' & rs & E' & Hp' & Hs' & Hd'). rewrite take_take_drop in Hp'.
  exists sm', rs. split_and!; [done| |apply (po_last _ _ _ _ _ Hp')].
  split; [by eexists|by rewrite Hs'|by rewrite Hd'].
Qed.

(** Everything a group of replicas can reach is well formed. *)
Lemma replica_invariant :
  (∀ s sm, replica L s sm → sm_ok s sm) ∧ (∀ files, directory L files → files_ok files) ∧
  (∀ s3, tier L s3 → tier_ok s3).
Proof.
  apply replica_directory_tier.
  - intros s. apply sm_new_ok.
  - intros s files s3 w sm _ Hf _ Ht E.
    destruct (open_durable_ok s files s3 w Hf Ht) as (sm' & E' & Hok). congruence.
  - intros s sm n k sm' replies _ Hok Hn E.
    destruct (apply_ok s sm n k Hok Hn) as (sm1 & rs & E' & Hok' & _). congruence.
  - intros s sm a _ Hok. by apply local_ok.
  - intros s sm0 sm w _ Hok0 _ Hok E. by apply build_ok.
  - intros s sm s2 sm2 snap w sm' _ Hok _ Hok2 Hg E.
    destruct (install_ok s sm (ss_meta snap) (ss_data snap) w Hok) as (sm1 & E' & Hok');
      [by apply (smo_snap _ _ Hok2)|]. congruence.
  - intros name content H. by rewrite lookup_empty in H.
  - intros s sm files _ Hok Hd. by apply (smo_files _ _ Hok).
  - done.
  - done.
  - intros s sm0 sm w key content _ Hok0 _ Hok El E. destruct (build_ok s sm0 sm w Hok0 Hok El) as [_ Ht].
    rewrite E in Ht. exact Ht.
Qed.

(** Where a replica stands is what its last applied id says. *)
Lemma replica_at s sm n :
  replica L s sm → sm_last_applied sm = lid_at L n →
  position (take n L) s (sm_app sm) (sm_last_applied sm) (sm_membership sm).
Proof.
  intros H Hn. destruct replica_invariant as [Hinv _].
  destruct (smo_pos _ _ (Hinv _ _ H)) as (m & Hp).
  assert (take m L = take n L) as E; [|by rewrite <- E].
  apply lid_at_inj. rewrite <- Hn. symmetry. apply (po_last _ _ _ _ _ Hp).
Qed.

(** An abstraction of the application that commands act on determines every replica. *)
Lemma replica_abstract {T} (abs : app → T) (effect : T → bytes → T) s sm n :
  (∀ a b, app_equiv a b → abs a = abs b) →
  (∀ a p, app_ok s0 a → ∃ a' k, app_apply s0 a p = Some (a', k) ∧ app_ok s0 a' ∧
     abs a' = effect (abs a) p) →
  replica L s sm → sm_last_applied sm = lid_at L n →
  abs (sm_app sm) = log_effect effect (abs app_new) (take n L).
Proof.
  intros Hequiv Heff H Hn. destruct (replica_at s sm n H Hn) as [_ _ _ (r & Hr & _ & He)].
  rewrite (Hequiv _ _ He). assert (app_ok s0 app_new) as Hok by apply app_new_ok.
  revert Hr Hok. clear -Heff. generalize (take n L) app_new. intros l. unfold log_effect.
  induction l as [|e l IH]; intros a Hr Hok; [by injection Hr as ->|]. cbn [foldl] in Hr |- *.
  unfold replay_step at 2 in Hr. cbn [mbind option_bind] in Hr.
  destruct (en_payload e) as [|p|c]; [by apply IH| |by apply IH].
  destruct (Heff a p Hok) as (a' & k & E & Hok' & <-). rewrite E in Hr. by apply IH.
Qed.

(** *** The newest snapshot after a clean-up *)

Lemma strip_prefix_snoc p s r y : strip_prefix p s = Some r → strip_prefix p (s +:+ y) = Some (r +:+ y).
Proof.
  revert s. induction p as [|a p IH]; intros s H; [by injection H as <-|].
  destruct s as [|b s]; [done|].
  change (strip_prefix (String a p) (String b (s +:+ y)) = Some (r +:+ y)). simpl in *.
  destruct (bool_decide (a = b)); [by apply IH|done].
Qed.

Lemma strip_prefix_inv p s r : strip_prefix p s = Some r → s = p +:+ r.
Proof.
  revert s. induction p as [|a p IH]; intros s H; [by injection H as <-|].
  destruct s as [|b s]; [done|]. simpl in H. case_bool_decide; [|done]. subst.
  by rewrite (IH s H).
Qed.

Lemma file_index_superseded path name :
  is_Some (file_index name) → name ≠ path → superseded path name = true.
Proof.
  intros [i Hi] Hne. unfold file_index in Hi.
  destruct (strip_prefix "snap-" name) as [r|] eqn:E1; [|done]. cbn [mbind option_bind] in Hi.
  destruct (strip_suffix ".bin" r) as [r'|] eqn:E2; [|done]. clear Hi.
  unfold superseded, starts_with, ends_with. rewrite E1.
  apply strip_prefix_inv in E1 as ->. unfold strip_suffix in *. rewrite str_rev_app.
  destruct (strip_prefix (String.rev ".bin") (String.rev r)) as [q|] eqn:E3; [|done].
  rewrite (strip_prefix_snoc _ _ _ (String.rev "snap-") E3).
  rewrite !bool_decide_true by (done || by eexists). done.
Qed.

Lemma newest_total names st : is_Some st → is_Some (foldl newest_step st names).
Proof.
  revert st. induction names as [|n names IH]; intros st Hst; [done|]. apply IH.
  unfold newest_step. destruct Hst as [[m p] ->]. repeat case_match; eauto.
Qed.

Lemma newest_only names path i :
  path ∈ names → file_index path = Some i →
  (∀ n, n ∈ names → is_Some (file_index n) → n = path) →
  foldl newest_step None names = Some (i, path).
Proof.
  intros Hin Hi Honly.
  assert (is_Some (foldl newest_step None names)) as [[j p] E].
  { apply list_elem_of_split in Hin as (l1 & l2 & ->). rewrite foldl_app. cbn [foldl].
    apply newest_total. unfold newest_step. rewrite Hi. repeat case_match; eauto. }
  rewrite E. apply newest_elem in E as [?|[Hp Hj]]; [done|].
  assert (p = path) as -> by eauto. congruence.
Qed.

Lemma load_after_persist (sm : StateMachineStore) files meta data :
  sm_dir sm = Some files → 0 ≤ meta_index meta < 2 ^ 64 →
  ∃ files', sm_dir (persist sm meta data (WriteOk (λ _, true))) = Some files' ∧
    load_latest files' = Some (meta, data).
Proof.
  intros Hd Hi. unfold persist. rewrite Hd. cbn [sm_dir with_dir]. eexists. split; [done|].
  set (path := snapshot_name (meta_index meta)). set (files' := filter _ _).
  assert (files' !! path = Some (snap_encode {| sf_meta := meta; sf_data := data |})) as Hl.
  { apply map_lookup_filter_Some. split; [apply lookup_insert_eq|]. simpl.
    unfold superseded. rewrite (bool_decide_false (path ≠ path)) by auto.
    by rewrite andb_false_r. }
  unfold load_latest. rewrite (newest_only _ path (meta_index meta)).
  - cbn [mbind option_bind]. rewrite Hl. cbn [mbind option_bind]. by rewrite snap_roundtrip.
  - apply list_elem_of_fmap. exists (path, snap_encode {| sf_meta := meta; sf_data := data |}).
    split; [done|]. by apply elem_of_hm_order.
  - by apply file_index_snapshot.
  - intros name Hin Hs. destruct (decide (name = path)) as [|Hne]; [done|]. exfalso.
    apply list_elem_of_fmap in Hin as ([name' content] & -> & Hin%elem_of_hm_order).
    apply map_lookup_filter_Some in Hin as [_ Hf]. simpl in *.
    by rewrite (file_index_superseded path name') in Hf.
Qed.

End laws.

(** ** Properties *)

Section properties.
Context {RT : RaftTypes} {SA : StateMachineApp} {AL : AppLaws} {HO : HashOrder}
  {SC : SnapshotCodec}.

(** C27: replicas converge, as long as no entry is being applied, and no snapshot
    installed, from the dump to the label of a snapshot build. Whatever mix of log
    application, changes beside the log, snapshots built by dumping the application and
    labelling the dump at the same position, snapshots installed from other replicas,
    failed or torn snapshot writes, restarts from local files and cold boots from the S3
    tier two replicas went through, and whatever the hash order of each process: if they
    have applied the same log position, their applications are equivalent, equivalent to a
    replay of the log from nothing, and they agree on the membership; and applying what
    follows never panics. A build that an apply overtakes is excluded, and
    [concurrent_snapshot_stale] is what it does. *)
Theorem replicas_converge (L : list Entry) (Hids : NoDup (en_log_id <$> L)) (s0 s s' : seed)
    (sm sm' : StateMachineStore) (n : nat) (H : replica L s sm) (H' : replica L s' sm')
    (Hn : sm_last_applied sm = lid_at L n) (Hn' : sm_last_applied sm' = lid_at L n) :
  app_equiv (sm_app sm) (sm_app sm') ∧ sm_membership sm = sm_membership sm' ∧
  (∃ r, replay L s0 n = Some r ∧ app_equiv (sm_app sm) r) ∧
  ∀ k, ∃ sm1 replies, sm_apply s sm (take k (drop n L)) = Some (sm1, replies) ∧
    sm_last_applied sm1 = lid_at L (n + k).
Proof.
  pose proof (replica_at s0 L Hids s sm n H Hn) as Hp.
  pose proof (replica_at s0 L Hids s' sm' n H' Hn') as Hp'.
  pose proof (proj1 (replica_invariant s0 L Hids) _ _ H) as Hok.
  destruct Hp as [_ Hm _ (r & Hr & Hrok & Heq)], Hp' as [_ Hm' _ (r' & Hr' & _ & Heq')].
  assert (r = r') as <- by congruence.
  split_and!; [by rewrite Heq, Heq'|congruence|by exists r|].
  intros k. destruct (apply_ok s0 L Hids s sm n k Hok Hn) as (sm1 & rs & E1 & _ & Hl). eauto.
Qed.

(** Snapshots are durable. A replica that built a snapshot and cleaned up, then lost
    its memory, reopens at exactly the log position it had applied, with the membership
    it had and an equivalent application. *)
Theorem snapshot_survives_restart (L : list Entry) (Hids : NoDup (en_log_id <$> L)) (s s' : seed)
    (sm : StateMachineStore) (files : gmap string bytes) (H : replica L s sm)
    (Hd : sm_dir sm = Some files) (Hi : 0 ≤ meta_index (build_meta sm) < 2 ^ 64) :
  ∃ files' sm', sm_dir (build_snapshot s sm (WriteOk (λ _, true))).1.1 = Some files' ∧
    with_snapshot_dir s' app_new files' = Some sm' ∧
    sm_last_applied sm' = sm_last_applied sm ∧ sm_membership sm' = sm_membership sm ∧
    app_equiv (sm_app sm') (sm_app sm).
Proof.
  destruct (replica_invariant s L Hids) as [Hinv _].
  destruct (smo_pos _ _ _ _ (Hinv _ _ H)) as (n & Hp).
  unfold build_snapshot, build_finish. cbn [fst snd].
  set (data := app_snapshot_bytes s (sm_app sm)).
  match goal with |- context [persist ?x _ _ _] => set (sm1 := x) end.
  destruct (load_after_persist sm1 files (build_meta sm) data Hd Hi) as (files' & Hf & Hl).
  destruct (app_restore_dump s s' _ _ (po_ok _ _ _ _ _ _ Hp) (app_new_ok s'))
    as (c & k & Er & Hc & Hca).
  exists files'. unfold with_snapshot_dir. rewrite Hl. cbn [sm_app with_dir sm_new].
  unfold data. rewrite Er. cbn [mbind option_bind]. eexists. split; [exact Hf|].
  split; [done|]. cbn. done.
Qed.

(** A snapshot built while an entry is applied loses the entry. [build_snapshot] dumps
    the application before it takes the lock that guards the applied position; if the next
    entry is applied in between, the snapshot claims the entry but its data does not
    have it, and whoever installs it believes to have applied what it never saw. *)
Theorem concurrent_snapshot_stale (L : list Entry) (Hids : NoDup (en_log_id <$> L))
    (s s2 : seed) (sm sm1 sm2 : StateMachineStore) (e : Entry) (r : Z) (w w2 : Write)
    (H : replica L s sm) (H2 : replica L s2 sm2) (He : apply_entry s sm e = Some (sm1, r)) :
  let snap := (build_finish sm1 (app_snapshot_bytes s (sm_app sm)) w).1.2 in
  ∃ sm', install_snapshot s2 sm2 (ss_meta snap) (ss_data snap) w2 = Some sm' ∧
    sm_last_applied sm' = Some (en_log_id e) ∧ app_equiv (sm_app sm') (sm_app sm).
Proof.
  destruct (replica_invariant s L Hids) as [Hinv _].
  destruct (smo_pos _ _ _ _ (Hinv _ _ H)) as (n & Hp).
  destruct (smo_pos _ _ _ _ (Hinv _ _ H2)) as (n2 & Hp2).
  destruct (app_restore_dump s s2 _ _ (po_ok _ _ _ _ _ _ Hp) (po_ok _ _ _ _ _ _ Hp2))
    as (c & k & Er & Hc & Hca).
  unfold build_finish, install_snapshot. cbn [fst snd ss_meta ss_data]. rewrite Er.
  cbn [mbind option_bind]. eexists. split; [done|].
  assert (sm_last_applied sm1 = Some (en_log_id e)) as Hl.
  { destruct (position_step s _ _ _ e Hp) as (sm1' & r' & E & Hp1 & _).
    rewrite He in E. injection E as <- <-. rewrite (po_last _ _ _ _ _ _ Hp1). by rewrite last_snoc. }
  unfold persist. cbn [sm_dir with_snapshot]. destruct (sm_dir sm2) as [files|];
    [destruct w2 as [?|[?|]]|]; cbn; rewrite ?Hl; done.
Qed.

End properties.

(** ** Witnesses *)

(** A value as the one number stdpp encodes it by. *)
Definition one_code {T} `{Countable T} (t : T) : bytes := [Zpos (encode t)].
Definition one_decode {T} `{Countable T} (b : bytes) : option T :=
  match b with [Zpos p] => decode p | _ => None end.

Lemma one_decode_code {T} `{Countable T} (t : T) : one_decode (one_code t) = Some t.
Proof. apply decode_encode. Qed.

(** Plain raft types, an application that appends its commands, and a codec made of
    stdpp's encodings. *)
Definition plain_raft : RaftTypes :=
  {| leader_id := Z; membership := list Z; membership_default := []; vote := Z |}.

Definition appender : StateMachineApp :=
  {| seed := unit; app := bytes; app_new := [];
     app_apply := λ _ a p, Some (a ++ p, Z.of_nat (length p));
     app_snapshot_bytes := λ _ a, a;
     app_restore := λ _ _ b, Some (b, Z.of_nat (length b));
     app_local := λ _ _, False |}.

#[local] Existing Instances plain_raft appender canonical_order.

Lemma appender_laws : AppLaws.
Proof.
  refine {| app_ok := λ _ _, True; app_equiv := eq |}; [done| | |done].
  - intros s s' a b p _ _ ->. by eexists _, _, _.
  - intros s s' a b _ _. by eexists _, _.
Qed.

Abbreviation plain_id := (option (Z * Z)).
Abbreviation plain_file := ((plain_id * (plain_id * list Z)) * (string * list Z))%type.
Definition id_tuple (l : option LogId) : plain_id :=
  match l with Some l => Some (lid_leader l, lid_index l) | None => None end.
Definition tuple_id (l : plain_id) : option LogId :=
  match l with
  | Some p => Some {| lid_leader := p.1 : leader_id; lid_index := p.2 |}
  | None => None
  end.

Definition file_tuple (f : SnapshotFile) : plain_file :=
  ((id_tuple (me_last_log_id (sf_meta f)),
    (id_tuple (sm_log_id (me_last_membership (sf_meta f))),
     sm_config (me_last_membership (sf_meta f)))),
   (me_snapshot_id (sf_meta f), sf_data f)).

Definition tuple_file (t : plain_file) : SnapshotFile :=
  {| sf_meta := {| me_last_log_id := tuple_id t.1.1;
                   me_last_membership := {| sm_log_id := tuple_id t.1.2.1;
                                            sm_config := t.1.2.2 : membership |};
                   me_snapshot_id := t.2.1 |};
     sf_data := t.2.2 |}.

Lemma tuple_file_tuple f : tuple_file (file_tuple f) = f.
Proof. by destruct f as [[[[]|] [[[]|] ?] ?] ?]. Qed.

Definition plain_encode (f : SnapshotFile) : bytes := one_code (file_tuple f).
Definition plain_decode (b : bytes) : option SnapshotFile :=
  match one_decode b with Some t => Some (tuple_file t) | None => None end.

Lemma plain_codec_roundtrip f : plain_decode (plain_encode f) = Some f.
Proof. unfold plain_decode, plain_encode. by rewrite one_decode_code, tuple_file_tuple. Qed.

Definition plain_codec : SnapshotCodec :=
  {| snap_encode := plain_encode; snap_decode := plain_decode;
     snap_roundtrip := plain_codec_roundtrip |}.

#[local] Existing Instances plain_codec appender_laws.

Definition nil_seed : seed := tt.

Definition one_entry : Entry :=
  {| en_log_id := {| lid_leader := 1 : leader_id; lid_index := 1 |}; en_payload := Normal [7] |}.

(** A replica that applied the one entry, over an empty directory. *)
Definition one_applied : StateMachineStore :=
  {| sm_app := [7] : app; sm_last_applied := Some (en_log_id one_entry);
     sm_membership := membership_none; sm_snapshot_seq := 0; sm_snapshot := None;
     sm_dir := Some ∅; sm_s3 := false |}.

Lemma one_applied_replica : replica [one_entry] nil_seed one_applied.
Proof.
  apply (replica_apply _ nil_seed (with_dir (sm_new app_new) (Some ∅)) 0 1 one_applied [1]);
    [|done|done].
  apply (replica_open _ nil_seed ∅ None (WriteFailed None)); [constructor|constructor|done].
Qed.

Lemma one_entry_nodup : NoDup (en_log_id <$> [one_entry]).
Proof. apply NoDup_singleton. Qed.

Lemma replicas_converge_witness :
  ∃ r, replay [one_entry] nil_seed 1 = Some r ∧ app_equiv (sm_app one_applied) r.
Proof.
  destruct (replicas_converge [one_entry] one_entry_nodup nil_seed tt nil_seed one_applied one_applied 1
    one_applied_replica one_applied_replica eq_refl eq_refl) as (_ & _ & H & _).
  exact H.
Defined.

Lemma snapshot_survives_restart_witness :
  ∃ files' sm', sm_dir (build_snapshot nil_seed one_applied (WriteOk (λ _, true))).1.1 = Some files' ∧
    with_snapshot_dir nil_seed app_new files' = Some sm' ∧
    sm_last_applied sm' = Some (en_log_id one_entry).
Proof.
  destruct (snapshot_survives_restart [one_entry] one_entry_nodup nil_seed tt one_applied ∅
    one_applied_replica eq_refl) as (files' & sm' & H1 & H2 & H3 & _).
  - split; [discriminate|reflexivity].
  - exists files', sm'. split; [exact H1|]. split; [exact H2|exact H3].
Defined.

Lemma concurrent_snapshot_stale_witness :
  ∃ sm', install_snapshot nil_seed (sm_new app_new)
    {| me_last_log_id := Some (en_log_id one_entry); me_last_membership := membership_none;
       me_snapshot_id := "snap-1" |} ([] : app) (WriteFailed None) = Some sm' ∧
    sm_last_applied sm' = Some (en_log_id one_entry) ∧ app_equiv (sm_app sm') [].
Proof.
  destruct (concurrent_snapshot_stale [one_entry] one_entry_nodup nil_seed tt
    (with_dir (sm_new app_new) (Some ∅)) one_applied (sm_new app_new) one_entry 1
    (WriteFailed None) (WriteFailed None)) as (sm' & E & Hl & Ha).
  - apply (replica_open _ nil_seed ∅ None (WriteFailed None)); [constructor|constructor|reflexivity].
  - apply replica_new.
  - reflexivity.
  - exists sm'. split; [exact E|]. split; [exact Hl|exact Ha].
Defined.
