(* ===== verification/S3.v ===== *)
(** * The S3 snapshot tier: [crates/consensus/src/s3.rs]

    Snapshots are uploaded after they are built and the newest is fetched at a cold boot.
    The object store is an interface with the documented laws of S3: an object is replaced
    whole or not at all, and a listing holds at most a page of keys (a thousand, unless asked
    otherwise), in lexicographic order. Creating the bucket and the connection are left out. *)

From S2P Require Export RaftStorage.

(** ** The object store *)

(** [s3_get] is [get_object] and collecting the body. *)
Class ObjectStore (S : Type) := {
  s3_put : string → bytes → S → S * bool;
  s3_list : string → S → option (list string);
  s3_get : string → S → option bytes;
}.

(** The keys of a prefix, in order. *)
Definition keys_under (p : string) (m : gmap string bytes) : list string :=
  sort_by str_cmp (filter (λ k, starts_with p k = true) (map_to_list m).*1).

Class ObjectStoreLaws (S : Type) `{!ObjectStore S} := {
  objects : S → gmap string bytes;
  page_size : nat;
  page_size_pos : (0 < page_size)%nat;
  put_whole : ∀ k b s, objects (s3_put k b s).1 = <[k := b]> (objects s) ∨
    (s3_put k b s).2 = false ∧ objects (s3_put k b s).1 = objects s;
  list_page : ∀ p s ks, s3_list p s = Some ks → ks = take page_size (keys_under p (objects s));
  get_current : ∀ k s b, s3_get k s = Some b → objects s !! k = Some b;
}.

(** ** The tier *)

(** [from_env], once the bucket variable is set: the prefix. *)
Definition s3_from_env (bucket prefix : option string) : option string :=
  match bucket with
  | None => None
  | Some _ => Some (default "snapshots"%string prefix)
  end.

Definition s3_key (prefix name : string) : string := prefix +:+ "/" +:+ name.

(** [Iterator::max] on strings: the last of the greatest. *)
Definition max_key (l : list string) : option string :=
  match l with
  | [] => None
  | k :: l => Some (foldl (λ m k, match str_cmp m k with Gt => m | _ => k end) k l)
  end.

Section tier.
Context {S : Type} `{!ObjectStore S}.

(** A failed upload is only logged. *)
Definition upload (prefix name : string) (content : bytes) (s : S) : S :=
  (s3_put (s3_key prefix name) content s).1.

Definition latest (prefix : string) (s : S) : option bytes :=
  listing ← s3_list (prefix +:+ "/") s;
  newest ← max_key listing;
  s3_get newest s.
End tier.

(** ** Lemmas *)

Lemma str_cmp_total : total_on (λ _, True) str_cmp.
Proof.
  split; [intros; apply str_cmp_anti|]. intros x y z _ _ _. apply str_cmp_trans.
Qed.

Lemma max_key_spec l :
  match max_key l with
  | None => l = []
  | Some m => m ∈ l ∧ ∀ k, k ∈ l → str_cmp k m ≠ Gt
  end.
Proof.
  destruct l as [|k l]; [done|]. cbn [max_key].
  set (f := λ m k, match str_cmp m k with Gt => m | _ => k end).
  assert (∀ l m, (foldl f m l = m ∨ foldl f m l ∈ l) ∧ str_cmp m (foldl f m l) ≠ Gt ∧
    ∀ x, x ∈ l → str_cmp x (foldl f m l) ≠ Gt) as H.
  { clear. intros l. induction l as [|k l IH]; intros m; cbn [foldl].
    { split_and!; [by left|by rewrite (proj2 (str_cmp_eq m m) eq_refl)|by intros x ?%elem_of_nil]. }
    destruct (IH (f m k)) as (Hin & Hm & Hl).
    assert (str_cmp m (f m k) ≠ Gt ∧ str_cmp k (f m k) ≠ Gt ∧ (f m k = m ∨ f m k = k)) as (H1 & H2 & H3).
    { unfold f. pose proof (str_cmp_anti m k) as Ha. destruct (str_cmp m k) eqn:E; cbn in Ha.
      - rewrite E, (proj2 (str_cmp_eq k k) eq_refl). by auto.
      - rewrite E, (proj2 (str_cmp_eq k k) eq_refl). by auto.
      - rewrite Ha, (proj2 (str_cmp_eq m m) eq_refl). by auto. }
    split_and!.
    - destruct Hin as [->|]; [|right; by right]. destruct H3 as [->| ->]; [by left|right; by left].
    - by apply (str_cmp_trans _ _ _ H1).
    - intros x [->|Hx]%elem_of_cons; [by apply (str_cmp_trans _ _ _ H2)|by apply Hl]. }
  destruct (H l k) as (Hin & Hk & Hl). split.
  - destruct Hin as [->|]; [by left|by right].
  - intros x [->|Hx]%elem_of_cons; [done|by apply Hl].
Qed.

Lemma elem_of_keys_under p m k :
  k ∈ keys_under p m ↔ starts_with p k = true ∧ is_Some (m !! k).
Proof.
  unfold keys_under. rewrite elem_of_sort_by, list_elem_of_filter, list_elem_of_fmap. split.
  - intros [? ([x y] & -> & H%elem_of_map_to_list)]. split; [done|by exists y].
  - intros [? [y H]]. split; [done|]. exists (k, y). split; [done|by apply elem_of_map_to_list].
Qed.

Lemma snapshot_key_cmp prefix i j :
  0 ≤ i < 2 ^ 64 → 0 ≤ j < 2 ^ 64 →
  str_cmp (s3_key prefix (snapshot_name i)) (s3_key prefix (snapshot_name j)) = Z.compare i j.
Proof.
  intros Hi Hj. unfold s3_key, snapshot_name. rewrite !str_cmp_prefix.
  assert (2 ^ 64 ≤ 10 ^ Z.of_nat 20) by (by vm_compute). rewrite str_cmp_suffix.
  - apply padded_cmp; lia.
  - rewrite !padded_length; lia.
Qed.

Lemma starts_with_app p s : starts_with p (p +:+ s) = true.
Proof. apply bool_decide_true. rewrite strip_prefix_app. by eexists. Qed.

Lemma snapshot_key_under prefix i :
  starts_with (prefix +:+ "/") (s3_key prefix (snapshot_name i)) = true.
Proof. unfold s3_key. rewrite str_app_assoc. apply starts_with_app. Qed.

(** ** What replicas upload *)

Section fed.
Context {RT : RaftTypes} {SA : StateMachineApp} {AL : AppLaws} {HO : HashOrder}
  {SC : SnapshotCodec} {S : Type} `{!ObjectStore S, !ObjectStoreLaws S}.
Context (L : list Entry) (prefix : string).

(** The store after replicas of the log [L] uploaded snapshots under a prefix that was
    empty, each upload succeeding or not. *)
Inductive fed : S → Prop :=
| fed_start st : keys_under (prefix +:+ "/") (objects st) = [] → fed st
| fed_upload st s sm data w name content :
    fed st → replica L s sm → dumped L s sm data → 0 ≤ meta_index (build_meta sm) < 2 ^ 64 →
    (build_finish sm data w).2 = Some (name, content) → fed (upload prefix name content st).

(** The snapshot of position [i] is in the store. *)
Definition holds_snapshot (st : S) (i : Z) (content : bytes) : Prop :=
  0 ≤ i < 2 ^ 64 ∧ objects st !! s3_key prefix (snapshot_name i) = Some content.

(** [content] is what a replica at position [i] uploads. *)
Definition built_at (i : Z) (content : bytes) : Prop :=
  ∃ s sm data w, replica L s sm ∧ dumped L s sm data ∧ meta_index (build_meta sm) = i ∧
    (build_finish sm data w).2 = Some (snapshot_name i, content).

Lemma build_name sm data w name content :
  (build_finish sm data w).2 = Some (name, content) →
  name = snapshot_name (meta_index (build_meta sm)) ∧
  content = snap_encode {| sf_meta := build_meta sm; sf_data := data |}.
Proof. unfold build_finish. cbn. case_match; [|done]. by intros [= <- <-]. Qed.

(** Everything under the prefix is a snapshot of its name's position. *)
Lemma fed_objects st key content :
  fed st → starts_with (prefix +:+ "/") key = true → objects st !! key = Some content →
  ∃ i, 0 ≤ i < 2 ^ 64 ∧ key = s3_key prefix (snapshot_name i) ∧ built_at i content.
Proof.
  intros H. revert key content. induction H as [st H|st s sm data w name b _ IH Hr Hd Hi Hb]; intros key content Hp Hk.
  - assert (key ∈ keys_under (prefix +:+ "/") (objects st)) as Hin
      by (apply elem_of_keys_under; by eauto).
    rewrite H in Hin. by apply elem_of_nil in Hin.
  - destruct (build_name _ _ _ _ _ Hb) as [Hn _].
    unfold upload in Hk. pose proof (put_whole (s3_key prefix name) b st) as [Ho|[_ Ho]]; rewrite Ho in Hk.
    + apply lookup_insert_Some in Hk as [[<- <-]|[_ Hk]]; [|by eauto].
      exists (meta_index (build_meta sm)). subst name. split_and!; [lia..|done|]. by exists s, sm, data, w.
    + by eauto.
Qed.

(** The greatest key of the whole prefix is the newest snapshot. *)
Lemma newest_key st key :
  fed st → max_key (keys_under (prefix +:+ "/") (objects st)) = Some key →
  ∃ i content, key = s3_key prefix (snapshot_name i) ∧ holds_snapshot st i content ∧
    built_at i content ∧ ∀ j c, holds_snapshot st j c → j ≤ i.
Proof.
  intros Hf Hm. pose proof (max_key_spec (keys_under (prefix +:+ "/") (objects st))) as Hs.
  rewrite Hm in Hs. destruct Hs as [[Hp [content Hc]]%elem_of_keys_under Hmax].
  destruct (fed_objects st key content Hf Hp Hc) as (i & Hi & -> & Hb).
  exists i, content. split_and!; [done|done|done|].
  intros j c [Hj Hl]. pose proof (Hmax (s3_key prefix (snapshot_name j))) as Hle.
  rewrite snapshot_key_cmp in Hle by done. apply Z.compare_le_iff, Hle, elem_of_keys_under.
  split; [apply snapshot_key_under|by eexists].
Qed.

(** Opening an empty directory over a fetched snapshot. *)
Lemma open_over_tier s s' sm data w name content w' :
  replica L s sm → dumped L s sm data → NoDup (en_log_id <$> L) →
  (build_finish sm data w).2 = Some (name, content) →
  ∃ sm', open_durable s' app_new ∅ (Some (Some content)) w' = Some sm' ∧ replica L s' sm' ∧
    sm_last_applied sm' = sm_last_applied sm ∧ sm_membership sm' = sm_membership sm.
Proof.
  intros Hr (sm0 & Hr0 & Hl0 & ->) Hids Hb. destruct (build_name _ _ _ _ _ Hb) as [_ Hc].
  destruct (proj1 (replica_invariant s L Hids) _ _ Hr0) as [(n & Hp) _ _].
  destruct (app_restore_dump s s' _ _ (po_ok _ _ _ _ _ _ Hp) (app_new_ok s')) as (a & k & Er & _).
  assert (open_durable s' app_new ∅ (Some (Some content)) w' = Some
    (persist (with_snapshot (with_s3 (with_dir (sm_new app_new) (Some ∅)) true) a (build_meta sm)
       (app_snapshot_bytes s (sm_app sm0))) (build_meta sm) (app_snapshot_bytes s (sm_app sm0)) w')) as E.
  { unfold open_durable, with_snapshot_dir, load_latest, hm_keys.
    assert (hm_order (∅ : gmap string bytes) = []) as -> by
      (apply Permutation_nil; rewrite hm_order_perm; by rewrite map_to_list_empty).
    cbn [fmap list_fmap foldl mbind option_bind sm_snapshot with_s3 with_dir sm_new].
    rewrite Hc, snap_roundtrip. cbn [sf_data sf_meta sm_app with_s3 with_dir sm_new].
    by rewrite Er. }
  eexists. split; [exact E|]. split.
  - eapply replica_open; [apply directory_new| |exact E]. by eapply (tier_object _ s sm0 sm w).
  - unfold persist. cbn [sm_dir with_snapshot with_s3 with_dir].
    by destruct w' as [?|[?|]].
Qed.
End fed.

(** ** Properties *)

Section properties.
Context {RT : RaftTypes} {SA : StateMachineApp} {AL : AppLaws} {HO : HashOrder}
  {SC : SnapshotCodec} {S : Type} `{!ObjectStore S, !ObjectStoreLaws S}.

(** C28: a member that lost its disk recovers from the newest snapshot, as long as the prefix
    holds no more than one page of a listing, which nothing keeps it from exceeding
    ([stale_beyond_page]), and no snapshot build was overtaken by an apply
    ([concurrent_snapshot_stale]). Whatever replicas uploaded under the prefix, in whatever
    order and however many uploads failed, when the store answers, fetching gives the
    snapshot with the greatest log index, and opening an empty directory over it gives a
    replica of the log at that index; it gives nothing only when there is none. *)
Theorem cold_boot_newest (L : list Entry) (Hids : NoDup (en_log_id <$> L)) (prefix : string)
    (st : S) (s' : seed) (w' : Write) (ks : list string) (Hfed : fed L prefix st)
    (Hpage : (length (keys_under (prefix +:+ "/") (objects st)) ≤ page_size)%nat)
    (Hlist : s3_list (prefix +:+ "/") st = Some ks)
    (Hget : ∀ k, k ∈ ks → is_Some (s3_get k st)) :
  match latest prefix st with
  | None => ∀ i c, ¬ holds_snapshot prefix st i c
  | Some content => ∃ i sm', holds_snapshot prefix st i content ∧
      (∀ j c, holds_snapshot prefix st j c → j ≤ i) ∧
      open_durable s' app_new ∅ (Some (Some content)) w' = Some sm' ∧
      replica L s' sm' ∧ meta_index (build_meta sm') = i
  end.
Proof.
  unfold latest. rewrite Hlist. cbn [mbind option_bind]. pose proof (list_page _ _ _ Hlist) as Hks.
  rewrite take_ge in Hks by done. pose proof (max_key_spec ks) as Hm.
  destruct (max_key ks) as [key|] eqn:Ek; cbn [mbind option_bind].
  - destruct (Hget key (proj1 Hm)) as [content Hc]. rewrite Hc. rewrite Hks in Ek.
    destruct (newest_key L prefix st key Hfed Ek) as (i & c & -> & Hh & Hb & Hmax).
    apply get_current in Hc as Hc'. destruct Hh as [Hi Hh]. rewrite Hh in Hc'. injection Hc' as ->.
    destruct Hb as (s & sm & data & w & Hr & Hd & Hix & Hb).
    destruct (open_over_tier L s s' sm data w _ content w' Hr Hd Hids Hb) as (sm' & E & Hr' & Hl & _).
    exists i, sm'. do 4 (split; [done|]).
    unfold meta_index, build_meta in *. cbn in *. by rewrite Hl.
  - intros i c [Hi Hh]. subst ks.
    assert (s3_key prefix (snapshot_name i) ∈ keys_under (prefix +:+ "/") (objects st)) as Hin.
    { apply elem_of_keys_under. split; [apply snapshot_key_under|by eexists]. }
    rewrite Hm in Hin. by apply elem_of_nil in Hin.
Qed.

(** Beyond a page the newest snapshot is not found: the listing is not continued, its
    first page holds the smallest keys, and what is fetched is older than another. *)
Theorem stale_beyond_page (L : list Entry) (prefix : string) (st : S) (ks : list string)
    (Hfed : fed L prefix st)
    (Hpage : (page_size < length (keys_under (prefix +:+ "/") (objects st)))%nat)
    (Hlist : s3_list (prefix +:+ "/") st = Some ks)
    (Hget : ∀ k, k ∈ ks → is_Some (s3_get k st)) :
  ∃ i content j newer, latest prefix st = Some content ∧ holds_snapshot prefix st i content ∧
    holds_snapshot prefix st j newer ∧ i < j.
Proof.
  unfold latest. rewrite Hlist. cbn [mbind option_bind]. pose proof (list_page _ _ _ Hlist) as Hks.
  set (all := keys_under (prefix +:+ "/") (objects st)) in *.
  destruct (lookup_lt_is_Some_2 all page_size Hpage) as [next Hnext].
  assert (NoDup all) as Hnd.
  { unfold all, keys_under. rewrite sort_by_perm. apply NoDup_filter, NoDup_fst_map_to_list. }
  assert (ranked str_cmp all) as Hrk.
  { unfold all, keys_under. eapply sort_by_ranked; [apply str_cmp_total|]. by apply Forall_forall. }
  pose proof (max_key_spec ks) as Hm. destruct (max_key ks) as [key|] eqn:Ek.
  2: { rewrite Hm in Hks. pose proof page_size_pos. destruct all; [by cbn in Hpage; lia|].
       destruct page_size; [lia|done]. }
  destruct Hm as [Hin _]. cbn [mbind option_bind]. destruct (Hget key Hin) as [content Hc].
  rewrite Hc. rewrite Hks in Hin.
  assert (key ∈ all) as Hall by (by apply elem_of_take in Hin as (n & ? & _); eapply list_elem_of_lookup_2).
  assert (next ∈ all) as Hnin by (by eapply list_elem_of_lookup_2).
  apply get_current in Hc.
  apply elem_of_keys_under in Hall as [Hp _], Hnin as [Hpn [newer Hn]].
  destruct (fed_objects L prefix st key content Hfed Hp Hc) as (i & Hi & -> & _).
  destruct (fed_objects L prefix st next newer Hfed Hpn Hn) as (j & Hj & -> & _).
  exists i, content, j, newer. do 3 (split; [done|]).
  rewrite <- (take_drop page_size all) in Hrk, Hnd.
  assert (s3_key prefix (snapshot_name j) ∈ drop page_size all) as Hd.
  { apply list_elem_of_lookup_2 with 0%nat. by rewrite lookup_drop, Nat.add_0_r. }
  apply NoDup_app in Hnd as (_ & Hdis & _). specialize (Hdis _ Hin).
  assert (str_cmp (s3_key prefix (snapshot_name i)) (s3_key prefix (snapshot_name j)) ≠ Gt) as Hle.
  { clear -Hrk Hin Hd. revert Hrk Hin. generalize (take page_size all). intros l.
    induction l as [|x l IH]; [by intros _ ?%elem_of_nil|]. cbn [app].
    intros [Hl Hx]%StronglySorted_inv [->|Hin]%elem_of_cons; [|by apply IH].
    rewrite Forall_forall in Hx. apply Hx, elem_of_app. by right. }
  rewrite snapshot_key_cmp in Hle by done.
  change (i ≤ j) in Hle. destruct (decide (i = j)) as [->|]; [done|lia].
Qed.
End properties.

(** ** Witnesses *)

#[local] Existing Instances plain_raft appender appender_laws plain_codec canonical_order.

(** A map as a store that always answers, one key to a page. *)
#[local] Instance map_store : ObjectStore (gmap string bytes) :=
  {| s3_put k b s := (<[k := b]> s, true);
     s3_list p s := Some (take 1 (keys_under p s));
     s3_get k s := s !! k |}.

#[local] Instance map_store_laws : ObjectStoreLaws (gmap string bytes).
Proof.
  refine {| objects := λ s, s; page_size := 1 |}; [lia|by left|by intros ??? [= <-]|done].
Defined.

(** The replica of [one_entry] with the tier switched on, and its upload. *)
Definition tiered : StateMachineStore := with_s3 one_applied true.

Definition one_upload : gmap string bytes :=
  match (build_snapshot nil_seed tiered (WriteOk (λ _, true))).2 with
  | Some (name, content) => upload "g0" name content ∅
  | None => ∅
  end.

Lemma tiered_replica : replica [one_entry] nil_seed tiered.
Proof.
  apply (replica_apply _ nil_seed (with_s3 (with_dir (sm_new app_new) (Some ∅)) true) 0 1 tiered [1]);
    [|done|done].
  apply (replica_open _ nil_seed ∅ (Some None) (WriteFailed None)); [constructor|constructor|done].
Qed.

Lemma one_upload_fed : fed [one_entry] "g0" one_upload.
Proof.
  eapply (fed_upload _ _ ∅ nil_seed tiered _ (WriteOk (λ _, true))).
  - by apply fed_start.
  - apply tiered_replica.
  - apply dumped_now, tiered_replica.
  - split; [discriminate|reflexivity].
  - reflexivity.
Qed.

Lemma cold_boot_newest_witness :
  ∃ content i sm', latest "g0" one_upload = Some content ∧ holds_snapshot "g0" one_upload i content ∧
    open_durable nil_seed app_new ∅ (Some (Some content)) (WriteFailed None) = Some sm' ∧
    meta_index (build_meta sm') = i.
Proof.
  pose proof (cold_boot_newest [one_entry] one_entry_nodup "g0" one_upload nil_seed (WriteFailed None)
    (take 1 (keys_under "g0/" one_upload)) one_upload_fed) as H.
  destruct (latest "g0" one_upload) as [content|] eqn:E; [|exfalso; vm_compute in E; discriminate].
  destruct H as (i & sm' & Hh & _ & Ho & _ & Hi); [vm_compute; lia|reflexivity| |].
  - intros k Hk. apply elem_of_take in Hk as (n & Hn & _). apply list_elem_of_lookup_2 in Hn.
    apply elem_of_keys_under in Hn as [_ Hn]. exact Hn.
  - exists content, i, sm'. split; [reflexivity|]. split; [exact Hh|]. split; [exact Ho|exact Hi].
Defined.

(** A second entry, and a second upload beyond the page. *)
Definition two_entries : list Entry :=
  [one_entry;
   {| en_log_id := {| lid_leader := 1 : leader_id; lid_index := 2 |}; en_payload := Blank |}].

Definition tiered_at (n : nat) : StateMachineStore :=
  match sm_apply nil_seed (with_s3 (with_dir (sm_new app_new) (Some ∅)) true) (take n two_entries) with
  | Some (sm, _) => sm
  | None => sm_new app_new
  end.

Definition two_uploads : gmap string bytes :=
  foldl (λ st n, match (build_snapshot nil_seed (tiered_at n) (WriteOk (λ _, true))).2 with
                 | Some (name, content) => upload "g0" name content st
                 | None => st
                 end) ∅ [1%nat; 2%nat].

Lemma tiered_at_replica n : (n ≤ 2)%nat → replica two_entries nil_seed (tiered_at n).
Proof.
  intros Hn. assert (replica two_entries nil_seed (with_s3 (with_dir (sm_new app_new) (Some ∅)) true)) as H.
  { apply (replica_open _ nil_seed ∅ (Some None) (WriteFailed None)); [constructor|constructor|done]. }
  destruct n as [|[|[|n]]]; [..|lia].
  - exact (replica_apply _ nil_seed _ 0 0 _ _ H eq_refl eq_refl).
  - exact (replica_apply _ nil_seed _ 0 1 _ _ H eq_refl eq_refl).
  - exact (replica_apply _ nil_seed _ 0 2 _ _ H eq_refl eq_refl).
Qed.

Lemma two_uploads_fed : fed two_entries "g0" two_uploads.
Proof.
  eapply (fed_upload _ _ _ nil_seed (tiered_at 2) _ (WriteOk (λ _, true)));
    [|apply tiered_at_replica; lia|apply dumped_now, tiered_at_replica; lia|split; [discriminate|reflexivity]|reflexivity].
  eapply (fed_upload _ _ _ nil_seed (tiered_at 1) _ (WriteOk (λ _, true)));
    [|apply tiered_at_replica; lia|apply dumped_now, tiered_at_replica; lia|split; [discriminate|reflexivity]|reflexivity].
  by apply fed_start.
Qed.

Lemma stale_beyond_page_witness :
  ∃ i content j newer, latest "g0" two_uploads = Some content ∧
    holds_snapshot "g0" two_uploads i content ∧ holds_snapshot "g0" two_uploads j newer ∧ i < j.
Proof.
  apply (stale_beyond_page two_entries "g0" two_uploads (take 1 (keys_under "g0/" two_uploads))
    two_uploads_fed); [vm_compute; lia|reflexivity|].
  intros k Hk. apply elem_of_take in Hk as (n & Hn & _). apply list_elem_of_lookup_2 in Hn.
  apply elem_of_keys_under in Hn as [_ Hn]. exact Hn.
Defined.
