(* ===== verification/Transport.v ===== *)
(** * The raft transport: [crates/consensus/src/network.rs] and [service.rs]

    openraft's messages, serialised, carried over one gRPC call each and answered with the
    remote raft's own result. openraft, [serde_json] and the gRPC call between the two ends
    are interfaces; [WireLaws] is what a gRPC call promises, and [live_wire], which calls the
    services directly, keeps it. *)

From S2P Require Export Wire RaftStorage.

(** ** What the code uses of its libraries *)

(** [serde_json::to_vec] and [from_slice] at one type: what was written reads back. *)
Class Serde (T : Type) := {
  to_vec : T → result bytes string;
  from_slice : bytes → result T string;
  serde_roundtrip : ∀ t b, to_vec t = Ok b → from_slice b = Ok t;
}.

(** openraft: its messages, and what handing one to a raft instance does. *)
Class OpenRaft := {
  raft : Type;
  append_req : Type; append_resp : Type;
  vote_req : Type; vote_resp : Type;
  snapshot_req : Type; snapshot_resp : Type;
  raft_error : Type; snapshot_error : Type;
  raft_append : append_req → raft → raft * result append_resp raft_error;
  raft_vote : vote_req → raft → raft * result vote_resp raft_error;
  raft_snapshot : snapshot_req → raft → raft * result snapshot_resp snapshot_error;
}.

(** ** Dialing *)

Section dial.
Context {UC : Unicode}.

(** [AETHER_RAFT_DIAL_MAP]: real addresses and the ones dialed instead. *)
Definition dial_pair (pair : string) : option (string * string) :=
  '(real, dial) ← split_once "=" (str_trim pair); Some (str_trim real, str_trim dial).

Definition dial_map (raw : option string) : gmap string string :=
  match raw with
  | None => ∅
  | Some raw =>
      foldl (λ m kv, <[kv.1 := kv.2]> m) ∅
        (omap dial_pair (str_split (λ c, c =? comma)%N raw))
  end.
End dial.

Record GrpcRaftClient := { gc_target : Z; gc_addr : string }.

Definition new_client (dials : gmap string string) (target : Z) (node_addr : string) : GrpcRaftClient :=
  {| gc_target := target; gc_addr := default node_addr (dials !! node_addr) |}.

(** ** The client *)

Inductive Rpc := RpcAppend | RpcVote | RpcSnapshot.

(** [rw_call] is the generated client's method. *)
Class RaftWire (W : Type) := {
  rw_connect : string → W → result () string;
  rw_call : Rpc → string → bytes → W → W * result bytes Status;
}.

Inductive NetworkError :=
| SendError (e : string)
| CallError (e : Status)
| ReplyError (e : string).

Inductive RPCError (E : Type) :=
| Unreachable (e : string)
| Network (e : NetworkError)
| RemoteError (target : Z) (e : E).
Arguments Unreachable {E} e.
Arguments Network {E} e.
Arguments RemoteError {E} target e.

Definition which_rpc (which : string) : Rpc :=
  if bool_decide (which = "append"%string) then RpcAppend
  else if bool_decide (which = "vote"%string) then RpcVote else RpcSnapshot.

Section client.
Context {W : Type} {RW : RaftWire W}.

Definition round_trip {Req Resp E} `{!Serde Req, !Serde (result Resp E)} (c : GrpcRaftClient)
    (which : string) (req : Req) (w : W) : W * result Resp (RPCError E) :=
  match rw_connect (gc_addr c) w with
  | Err e => (w, Err (Unreachable e))
  | Ok _ =>
      match to_vec req with
      | Err e => (w, Err (Network (SendError e)))
      | Ok payload =>
          let '(w', response) := rw_call (which_rpc which) (gc_addr c) payload w in
          (w', data <-? map_err (λ e, Network (CallError e)) response;;
               res <-? map_err (λ e, Network (ReplyError e)) (from_slice data);;
               map_err (RemoteError (gc_target c)) res)
      end
  end.

Context {OR : OpenRaft} `{!Serde append_req, !Serde vote_req, !Serde snapshot_req,
  !Serde (result append_resp raft_error), !Serde (result vote_resp raft_error),
  !Serde (result snapshot_resp snapshot_error)}.

Definition rn_append_entries (c : GrpcRaftClient) (rpc : append_req) (w : W)
    : W * result append_resp (RPCError raft_error) := round_trip c "append" rpc w.
Definition rn_install_snapshot (c : GrpcRaftClient) (rpc : snapshot_req) (w : W)
    : W * result snapshot_resp (RPCError snapshot_error) := round_trip c "snapshot" rpc w.
Definition rn_vote (c : GrpcRaftClient) (rpc : vote_req) (w : W)
    : W * result vote_resp (RPCError raft_error) := round_trip c "vote" rpc w.
End client.

(** ** The server *)

Definition encode_reply {T} `{!Serde T} (value : T) : result bytes Status :=
  map_err (status Internal) (to_vec value).
Definition decode_payload {T} `{!Serde T} (payload : bytes) : result T Status :=
  map_err (status InvalidArgument) (from_slice payload).

(** A handler: decode, hand over, encode the raft's result. *)
Definition serve {R Req Resp E} `{!Serde Req, !Serde (result Resp E)}
    (handle : Req → R → R * result Resp E) (payload : bytes) (r : R) : R * result bytes Status :=
  match decode_payload payload with
  | Err e => (r, Err e)
  | Ok rpc => let '(r', res) := handle rpc r in (r', encode_reply res)
  end.

Section server.
Context {OR : OpenRaft} `{!Serde append_req, !Serde vote_req, !Serde snapshot_req,
  !Serde (result append_resp raft_error), !Serde (result vote_resp raft_error),
  !Serde (result snapshot_resp snapshot_error)}.

Definition ts_append_entries (payload : bytes) (r : raft) : raft * result bytes Status :=
  serve raft_append payload r.
Definition ts_vote (payload : bytes) (r : raft) : raft * result bytes Status :=
  serve raft_vote payload r.
Definition ts_install_snapshot (payload : bytes) (r : raft) : raft * result bytes Status :=
  serve raft_snapshot payload r.

(** ** The two ends together *)

Definition handler_of (rpc : Rpc) : bytes → raft → raft * result bytes Status :=
  match rpc with
  | RpcAppend => ts_append_entries
  | RpcVote => ts_vote
  | RpcSnapshot => ts_install_snapshot
  end.

(** A unary gRPC call runs the handler at its address at most once: either nothing heard of
    it and it failed, or one member's handler ran and the caller has its reply, or an error
    in its place. *)
Class WireLaws (W : Type) `{!RaftWire W} := {
  rw_peers : W → gmap string raft;
  rw_call_once : ∀ rpc a payload w, let out := rw_call rpc a payload w in
    (rw_peers out.1 = rw_peers w ∧ is_ok out.2 = false) ∨
    ∃ p, rw_peers w !! a = Some p ∧
      rw_peers out.1 = <[a := (handler_of rpc payload p).1]> (rw_peers w) ∧
      (out.2 = (handler_of rpc payload p).2 ∨ is_ok out.2 = false);
}.

(** A network of members by address, which of them accept connections, and whether a reply
    is lost on its way back. *)
Record RaftWorld := {
  rg_peers : gmap string raft;
  rg_up : string → bool;
  rg_lost : Rpc → string → bool;
}.

Definition set_peer (w : RaftWorld) (a : string) (r : raft) : RaftWorld :=
  {| rg_peers := <[a := r]> (rg_peers w); rg_up := rg_up w; rg_lost := rg_lost w |}.

#[export] Instance live_wire : RaftWire RaftWorld :=
  {| rw_connect a w :=
       if rg_up w a && bool_decide (is_Some (rg_peers w !! a)) then Ok () else Err "connect"%string;
     rw_call rpc a payload w :=
       match rg_peers w !! a with
       | None => (w, Err (status Unavailable "gone"))
       | Some r =>
           let '(r', reply) := handler_of rpc payload r in
           (set_peer w a r', if rg_lost w rpc a then Err (status Unavailable "lost") else reply)
       end |}.
#[export] Instance live_wire_laws : WireLaws RaftWorld.
Proof.
  refine {| rw_peers := rg_peers |}. intros rpc a payload w. cbn [rw_call live_wire].
  destruct (rg_peers w !! a) as [p|]; [|by left]. right. exists p.
  destruct (handler_of rpc payload p) as [p' reply]. split_and!; [done..|].
  destruct (rg_lost w rpc a); [by right|by left].
Defined.

(** ** Specification *)

Context {W : Type} {RW : RaftWire W} {WL : WireLaws W}.

(** What a remote call of [run] at an address may come to: a result is the remote raft's
    own, produced by handing it the request; an error of the transport tells whether the
    request can have arrived; no other member hears of it. *)
Definition faithful {Req Resp E} (run : Req → raft → raft * result Resp E) (c : GrpcRaftClient)
    (req : Req) (w : W) (out : W * result Resp (RPCError E)) : Prop :=
  let arrived p res := rw_peers w !! gc_addr c = Some p ∧
    rw_peers out.1 = <[gc_addr c := (run req p).1]> (rw_peers w) ∧ (run req p).2 = res in
  match out.2 with
  | Ok resp => ∃ p, arrived p (Ok resp)
  | Err (RemoteError target e) => target = gc_target c ∧ ∃ p, arrived p (Err e)
  | Err (Unreachable _) => out.1 = w
  | Err (Network _) => rw_peers out.1 = rw_peers w ∨ ∃ p res, arrived p res
  end.

(** A call whose connection is accepted and whose reply comes back gives the remote raft's
    result. *)
Definition delivered {Req Resp E} `{!Serde Req, !Serde (result Resp E)}
    (run : Req → raft → raft * result Resp E) (rpc : Rpc) (c : GrpcRaftClient)
    (req : Req) (w : W) (out : W * result Resp (RPCError E)) : Prop :=
  ∀ p b reply, rw_connect (gc_addr c) w = Ok () → rw_peers w !! gc_addr c = Some p →
    to_vec req = Ok b → to_vec (run req p).2 = Ok reply →
    (rw_call rpc (gc_addr c) b w).2 = (handler_of rpc b p).2 →
    rw_peers out.1 = <[gc_addr c := (run req p).1]> (rw_peers w) ∧
    out.2 = map_err (RemoteError (gc_target c)) (run req p).2.

(** ** Properties *)

Lemma serve_spec {Req Resp E} `{!Serde Req, !Serde (result Resp E)}
    (run : Req → raft → raft * result Resp E) req b p :
  to_vec req = Ok b →
  (serve run b p).1 = (run req p).1 ∧ (serve run b p).2 = encode_reply (run req p).2.
Proof.
  intros Eb. unfold serve, decode_payload. rewrite (serde_roundtrip _ _ Eb). cbn [map_err].
  by destruct (run req p).
Qed.

Lemma round_trip_faithful {Req Resp E} `{!Serde Req, !Serde (result Resp E)}
    (run : Req → raft → raft * result Resp E) which c req w :
  handler_of (which_rpc which) = serve run → faithful run c req w (round_trip c which req w).
Proof.
  intros Hh. unfold round_trip, faithful. destruct (rw_connect (gc_addr c) w) as [[]|e]; [|done].
  destruct (to_vec req) as [b|e] eqn:Eb; [|by left].
  pose proof (rw_call_once (which_rpc which) (gc_addr c) b w) as Hw. rewrite Hh in Hw.
  destruct (rw_call (which_rpc which) (gc_addr c) b w) as [w' response]. cbn [fst snd] in *.
  destruct Hw as [[Hp Hno]|(p & Hp & Hp' & Hres)].
  { destruct response; [done|]. by left. }
  destruct (serve_spec run req b p Eb) as [E1 E2]. rewrite E1 in Hp'. rewrite E2 in Hres.
  destruct response as [data|e]; [|right; by exists p, (run req p).2].
  destruct Hres as [Hres|]; [|done]. unfold encode_reply in Hres. cbn [map_err].
  destruct (to_vec (run req p).2) as [d|] eqn:Ed; [|done]. injection Hres as ->.
  rewrite (serde_roundtrip _ _ Ed). destruct (run req p) as [p' [resp|e]] eqn:Er; cbn.
  - exists p. by rewrite Er.
  - split; [done|]. exists p. by rewrite Er.
Qed.

Lemma round_trip_delivered {Req Resp E} `{!Serde Req, !Serde (result Resp E)}
    (run : Req → raft → raft * result Resp E) which c req w :
  handler_of (which_rpc which) = serve run →
  delivered run (which_rpc which) c req w (round_trip c which req w).
Proof.
  intros Hh p b reply Hc Hp Eb Ed Ecall. unfold round_trip. rewrite Hc, Eb.
  pose proof (rw_call_once (which_rpc which) (gc_addr c) b w) as Hw. rewrite Hh in Hw, Ecall.
  destruct (rw_call (which_rpc which) (gc_addr c) b w) as [w' response]. cbn [fst snd] in *.
  destruct (serve_spec run req b p Eb) as [E1 E2]. unfold encode_reply in E2. rewrite Ed in E2.
  rewrite E2 in Ecall. subst response. cbn [map_err] in *. rewrite (serde_roundtrip _ _ Ed).
  destruct Hw as [[_ ?]|(q & Hq & Hp' & _)]; [done|]. assert (q = p) as -> by congruence.
  rewrite Hp', E1. by destruct (run req p) as [p' [resp|e]].
Qed.

(** C29: the transport is transparent, over a wire that runs a call's handler at most once
    ([WireLaws], what a unary gRPC call promises) and messages that read back as they were
    written. A result or a remote error of a raft call is what the addressed member's raft
    returned for that very request, and it names that member; after an unreachable error no
    member has seen the request, after a network error the addressed one may have; no other
    member is touched; and a call whose connection is accepted and whose reply comes back,
    with messages that serialise, gives the member's result. *)
Theorem transport_transparent (c : GrpcRaftClient) (w : W)
    (a : append_req) (v : vote_req) (s : snapshot_req) :
  (faithful raft_append c a w (rn_append_entries c a w) ∧
   delivered raft_append RpcAppend c a w (rn_append_entries c a w)) ∧
  (faithful raft_vote c v w (rn_vote c v w) ∧ delivered raft_vote RpcVote c v w (rn_vote c v w)) ∧
  (faithful raft_snapshot c s w (rn_install_snapshot c s w) ∧
   delivered raft_snapshot RpcSnapshot c s w (rn_install_snapshot c s w)).
Proof.
  split_and!.
  - by apply (round_trip_faithful raft_append "append").
  - by apply (round_trip_delivered raft_append "append").
  - by apply (round_trip_faithful raft_vote "vote").
  - by apply (round_trip_delivered raft_vote "vote").
  - by apply (round_trip_faithful raft_snapshot "snapshot").
  - by apply (round_trip_delivered raft_snapshot "snapshot").
Qed.
End server.

Section lost.
Context {OR : OpenRaft} `{!Serde append_req, !Serde vote_req, !Serde snapshot_req,
  !Serde (result append_resp raft_error), !Serde (result vote_resp raft_error),
  !Serde (result snapshot_resp snapshot_error)}.

(** A lost reply is indistinguishable from a lost request only by its kind: the request
    has been handled. *)
Theorem lost_reply_handled (c : GrpcRaftClient) (w : RaftWorld) (v : vote_req) (p : raft) :
  rg_up w (gc_addr c) = true → rg_peers w !! gc_addr c = Some p →
  rg_lost w RpcVote (gc_addr c) = true → is_ok (to_vec v) = true →
  rg_peers (rn_vote c v w).1 !! gc_addr c = Some (raft_vote v p).1 ∧
  ∃ e, (rn_vote c v w).2 = Err (Network e).
Proof.
  intros Hu Hp Hl Hv. unfold rn_vote, round_trip.
  change (rw_connect (gc_addr c) w) with (if rg_up w (gc_addr c) && bool_decide (is_Some (rg_peers w !! gc_addr c))
    then Ok () else @Err () string "connect"%string).
  rewrite Hu, bool_decide_true by by eexists. cbn [andb].
  destruct (to_vec v) as [b|] eqn:Eb; [|done]. change (which_rpc "vote") with RpcVote.
  cbn [rw_call live_wire]. rewrite Hp. cbn [handler_of]. unfold ts_vote, serve, decode_payload.
  rewrite (serde_roundtrip _ _ Eb). cbn [map_err]. destruct (raft_vote v p) as [p' res].
  rewrite Hl. cbn. rewrite lookup_insert_eq. by eauto.
Qed.
End lost.

(** ** Dialing *)

(** Without the variable every member is dialed at its own address. *)
Lemma direct_dial `{!Unicode} target addr : gc_addr (new_client (dial_map None) target addr) = addr.
Proof. unfold new_client, dial_map. cbn. by rewrite lookup_empty. Qed.

Example dial_map_ex :
  gc_addr (new_client (@dial_map ascii_only (Some "a:1=p:9, b:2 = p:8,bad,a:1=p:7"%string)) 1 "a:1") = "p:7"%string.
Proof. reflexivity. Qed.

(** ** A concrete transport *)

(** A raft that logs the numbers it is sent: it accepts appends above zero and the votes of
    members it has not heard, and refuses every snapshot. *)
#[local] Instance log_raft : OpenRaft :=
  {| raft := list Z; append_req := Z; append_resp := Z; vote_req := Z; vote_resp := bool;
     snapshot_req := list Z; snapshot_resp := unit; raft_error := string; snapshot_error := string;
     raft_append := λ q r, if 0 <? q then (r ++ [q], Ok (Z.of_nat (length r))) else (r, Err "refused"%string);
     raft_vote := λ q r, (r ++ [q], Ok (bool_decide (q ∉ r)));
     raft_snapshot := λ _ r, (r, Err "mismatch"%string) |}.

(** Messages as the one number stdpp encodes them by. *)
Definition code_vec {T} `{Countable T} (t : T) : result bytes string := Ok (one_code t).
Definition code_slice {T} `{Countable T} (b : bytes) : result T string :=
  match one_decode b with Some t => Ok t | None => Err "no value"%string end.

Lemma code_roundtrip {T} `{Countable T} (t : T) b : code_vec t = Ok b → code_slice b = Ok t.
Proof. intros [= <-]. unfold code_slice. by rewrite one_decode_code. Qed.

Definition code_serde T `{Countable T} : Serde T :=
  {| to_vec := code_vec; from_slice := code_slice; serde_roundtrip := code_roundtrip |}.

Definition result_sum {A E} (r : result A E) : A + E := match r with Ok a => inl a | Err e => inr e end.
Definition sum_result {A E} (s : A + E) : result A E := match s with inl a => Ok a | inr e => Err e end.

Lemma reply_roundtrip {A E} `{Countable A} `{Countable E} (r : result A E) b :
  code_vec (result_sum r) = Ok b → (s <-? code_slice b;; Ok (sum_result s)) = Ok r.
Proof. intros E1. rewrite (code_roundtrip _ _ E1). by destruct r. Qed.

Definition reply_serde A E `{Countable A} `{Countable E} : Serde (result A E) :=
  {| to_vec := λ r, code_vec (result_sum r); from_slice := λ b, s <-? code_slice b;; Ok (sum_result s);
     serde_roundtrip := reply_roundtrip |}.

#[local] Instance append_serde : Serde append_req := code_serde Z.
#[local] Instance vote_serde : Serde vote_req := code_serde Z.
#[local] Instance snapshot_serde : Serde snapshot_req := code_serde (list Z).
#[local] Instance append_reply_serde : Serde (result append_resp raft_error) := reply_serde Z string.
#[local] Instance vote_reply_serde : Serde (result vote_resp raft_error) := reply_serde bool string.
#[local] Instance snapshot_reply_serde : Serde (result snapshot_resp snapshot_error) :=
  reply_serde unit string.

Definition heard_four : raft := ([4] : @raft log_raft).

Definition two_members : RaftWorld :=
  {| rg_peers := {["a:1" := heard_four; "b:1" := []]}; rg_up := λ a, bool_decide (a ≠ "c:1"%string);
     rg_lost := λ rpc a, bool_decide (a = "b:1"%string) |}.

Definition five : append_req := (5 : @append_req log_raft).
Definition seven_vote : vote_req := (7 : @vote_req log_raft).
Definition small_snapshot : snapshot_req := ([1] : @snapshot_req log_raft).

Definition to_a : GrpcRaftClient := {| gc_target := 1; gc_addr := "a:1" |}.

(** The member votes for seven, and refuses the snapshot; both reach the caller. *)
Lemma transport_transparent_witness :
  (rn_vote to_a seven_vote two_members).2 = Ok (true : @vote_resp log_raft) ∧
  rg_peers (rn_vote to_a seven_vote two_members).1 !! "a:1"%string = Some ([4; 7] : @raft log_raft) ∧
  (rn_install_snapshot to_a small_snapshot two_members).2 =
    Err (RemoteError 1 ("mismatch"%string : @snapshot_error log_raft)).
Proof.
  destruct (transport_transparent to_a two_members five seven_vote small_snapshot)
    as (_ & [_ Hv] & [_ Hs]).
  edestruct (Hv heard_four) as [Hp Hr]; [vm_compute; reflexivity..|].
  edestruct (Hs heard_four) as [_ Hr']; [vm_compute; reflexivity..|].
  split; [rewrite Hr; vm_compute; reflexivity|]. split; [|rewrite Hr'; reflexivity].
  change (rg_peers (rn_vote to_a seven_vote two_members).1) with
    (rw_peers (rn_vote to_a seven_vote two_members).1).
  rewrite Hp. vm_compute. reflexivity.
Defined.
