(* ===== verification/Wal.v ===== *)
(** * The write-ahead log: [crates/consensus/src/wal.rs]

    Segments are files of the [wal/] directory; a file knows how much of it is synced. A
    call that returns an I/O error is fatal to openraft, so errors are not modelled as
    continuing executions: they are crashes, at any of the steps a call goes through
    ([call_steps]). Creating, renaming and removing files are steps of their own, lasting
    once done; the removals whose result the code ignores are taken to succeed. [None] is a
    panic (or, for [wal_append], not enough fuel for the recursion through [rotate]). *)

From S2P Require Export RaftStorage.

(** ** Bytes and files *)

(** [u32::to_le_bytes] and [u32::from_le_bytes]. *)
Definition le_bytes (z : Z) : bytes :=
  [z mod 256; (z / 256) mod 256; (z / 65536) mod 256; (z / 16777216) mod 256].
Definition of_le (b : bytes) : Z :=
  foldr (λ x acc, x + 256 * acc) 0 b.

Record File := { f_data : bytes; f_synced : nat }.

Definition file_len (f : File) : Z := Z.of_nat (length (f_data f)).
Definition file_new : File := {| f_data := []; f_synced := 0 |}.
Definition file_write (f : File) (b : bytes) : File :=
  {| f_data := f_data f ++ b; f_synced := f_synced f |}.
Definition file_sync (f : File) : File := {| f_data := f_data f; f_synced := length (f_data f) |}.

Abbreviation Dir := (gmap string File).

Definition SEGMENT_MAX_BYTES : Z := 8 * 1024 * 1024.
Definition FRAME_HEADER : nat := 8.

Section wal.
Context {RT : RaftTypes} {HO : HashOrder}.

(** ** Records *)

Inductive WalRecord :=
| REntry (e : Entry)
| TruncateFrom (index : Z)
| Purge (log_id : LogId)
| Committed (c : option LogId)
| Checkpoint (last_purged committed : option LogId).

Definition is_entry (r : WalRecord) : bool := match r with REntry _ => true | _ => false end.

(** bincode on [WalRecord], and [crc32fast::hash]: the round trip, the range of the
    checksum, and markers, which are a few integers, smaller than a segment. *)
Class WalCodec := {
  wal_encode : WalRecord → bytes;
  wal_decode : bytes → option WalRecord;
  crc32 : bytes → Z;
  wal_roundtrip : ∀ r, wal_decode (wal_encode r) = Some r;
  crc32_range : ∀ b, 0 ≤ crc32 b < 2 ^ 32;
  marker_small : ∀ r, is_entry r = false →
    Z.of_nat (length (wal_encode r)) + 8 < SEGMENT_MAX_BYTES;
}.
Context {WC : WalCodec}.

Record WalState := {
  ws_entries : gmap Z Entry;
  ws_last_purged : option LogId;
  ws_committed : option LogId;
}.

Definition ws_default : WalState :=
  {| ws_entries := ∅; ws_last_purged := None; ws_committed := None |}.

Definition ws_apply (st : WalState) (record : WalRecord) : WalState :=
  match record with
  | REntry e =>
      {| ws_entries := <[lid_index (en_log_id e) := e]> (ws_entries st);
         ws_last_purged := ws_last_purged st; ws_committed := ws_committed st |}
  | TruncateFrom index =>
      {| ws_entries := remove_keys (above (Included index)) (ws_entries st);
         ws_last_purged := ws_last_purged st; ws_committed := ws_committed st |}
  | Purge log_id =>
      {| ws_entries := remove_keys (below (Included (lid_index log_id))) (ws_entries st);
         ws_last_purged := Some log_id; ws_committed := ws_committed st |}
  | Committed c =>
      {| ws_entries := ws_entries st; ws_last_purged := ws_last_purged st; ws_committed := c |}
  | Checkpoint last_purged committed =>
      {| ws_entries := ws_entries st;
         ws_last_purged :=
           match ws_last_purged st with None => last_purged | Some p => Some p end;
         ws_committed := match ws_committed st with None => committed | Some c => Some c end |}
  end.

(** ** Segments *)

Record Segment := { sg_seq : Z; sg_bytes : Z; sg_max_index : option Z }.

(** A closed segment is its sequence number and the highest entry index in it. *)
Record Wal := {
  w_segment : Segment;
  w_closed : list (Z * option Z);
  w_state : WalState;
}.

Definition segment_path (seq : Z) : string := "seg-" +:+ pad_zero 16 (show_Z seq) +:+ ".wal".

Definition segment_seq (name : string) : option Z :=
  s ← strip_prefix "seg-" name; s ← strip_suffix ".wal" s; parse_u64 s.

Definition frame (payload : bytes) : bytes :=
  le_bytes (Z.of_nat (length payload)) ++ le_bytes (crc32 payload) ++ payload.

Definition bump_max (m : option Z) (r : WalRecord) : option Z :=
  match r with
  | REntry e =>
      Some (match m with
            | Some m => Z.max m (lid_index (en_log_id e))
            | None => lid_index (en_log_id e)
            end)
  | _ => m
  end.

(** *** Opening *)

Record scan_result := {
  sc_state : WalState;
  sc_max : option Z;
  sc_offset : nat;
  sc_corrupt : bool;
}.

(** The scan loop over one segment's bytes: it stops at the end, or at the first frame
    that is torn, fails its checksum or does not decode. Every frame is at least a header
    long, so the length of the segment is enough fuel. *)
Fixpoint scan (fuel : nat) (rest : bytes) (offset : nat) (st : WalState) (max : option Z)
    : scan_result :=
  let stop corrupt := {| sc_state := st; sc_max := max; sc_offset := offset; sc_corrupt := corrupt |} in
  match fuel with
  | O => stop false
  | S fuel =>
      if bool_decide (length rest < FRAME_HEADER)%nat then stop (bool_decide (rest ≠ []))
      else
        let len := Z.to_nat (of_le (take 4 rest)) in
        let crc := of_le (take 4 (drop 4 rest)) in
        let body := drop FRAME_HEADER rest in
        if bool_decide (length body < len)%nat then stop true
        else
          let payload := take len body in
          if negb (crc32 payload =? crc) then stop true
          else match wal_decode payload with
               | None => stop true
               | Some record =>
                   scan fuel (drop len body) (offset + FRAME_HEADER + len)%nat
                     (ws_apply st record) (bump_max max record)
               end
  end.

(** The loop over the segments: the folded state, the segments seen, and the corruption
    that ended it. [None] is the error of a file that cannot be read. *)
Fixpoint scan_segments (dir : Dir) (seqs : list Z) (st : WalState)
    (closed : list (Z * option Z)) : option (WalState * list (Z * option Z) * option (Z * nat)) :=
  match seqs with
  | [] => Some (st, closed, None)
  | seq :: rest =>
      f ← dir !! segment_path seq;
      let r := scan (S (length (f_data f))) (f_data f) 0 st None in
      let closed := closed ++ [(seq, sc_max r)] in
      if sc_corrupt r then Some (sc_state r, closed, Some (seq, sc_offset r))
      else scan_segments dir rest (sc_state r) closed
  end.

Definition seq_cmp (a b : Z) : comparison := Z.compare a b.

Definition segment_seqs (dir : Dir) : list Z := sort_by seq_cmp (omap segment_seq (hm_keys dir)).

(** Truncating the corrupt segment and removing those after it. *)
Definition cut (dir : Dir) (seqs : list Z) (bad_seq : Z) (good_offset : nat) : Dir :=
  foldl (λ d seq, delete (segment_path seq) d)
    (alter (λ f, file_sync {| f_data := take good_offset (f_data f); f_synced := f_synced f |})
       (segment_path bad_seq) dir)
    (filter (λ s, bad_seq < s) seqs).

(** The highest sequence number, unless the corruption lies before it; then segment 0. *)
Definition active_seq (seqs : list Z) (corrupt_at : option (Z * nat)) : Z :=
  match last seqs, corrupt_at with
  | Some s, Some (bad, _) => if s <=? bad then s else 0
  | Some s, None => s
  | None, _ => 0
  end.

Definition find_max (closed : list (Z * option Z)) (seq : Z) : option Z :=
  match head (filter (λ c, c.1 = seq) closed) with Some c => c.2 | None => None end.

Definition wal_open (dir : Dir) : option (Dir * Wal) :=
  let seqs := segment_seqs dir in
  '(st, closed, corrupt_at) ← scan_segments dir seqs ws_default [];
  let '(dir, closed) :=
    match corrupt_at with
    | Some (bad, offset) => (cut dir seqs bad offset, filter (λ c, c.1 ≤ bad) closed)
    | None => (dir, closed)
    end in
  let seq := active_seq seqs corrupt_at in
  let path := segment_path seq in
  let f := default file_new (dir !! path) in
  Some (<[path := f]> dir,
        {| w_segment := {| sg_seq := seq; sg_bytes := file_len f; sg_max_index := find_max closed seq |};
           w_closed := filter (λ c, c.1 ≠ seq) closed;
           w_state := st |}).

(** *** Appending *)

Abbreviation Disk := (Dir * Wal)%type.

Definition on_active (dw : Disk) (g : File → File) : Dir :=
  alter g (segment_path (sg_seq (w_segment dw.2))) dw.1.

Definition wal_sync (dw : Disk) : Disk := (on_active dw file_sync, dw.2).

(** Writing a frame to the active segment. *)
Definition write_record (dw : Disk) (record : WalRecord) : Disk :=
  let framed := frame (wal_encode record) in
  let w := dw.2 in
  (on_active dw (λ f, file_write f framed),
   {| w_segment :=
        {| sg_seq := sg_seq (w_segment w);
           sg_bytes := sg_bytes (w_segment w) + Z.of_nat (length framed);
           sg_max_index := bump_max (sg_max_index (w_segment w)) record |};
      w_closed := w_closed w; w_state := w_state w |}).

(** Closing the active segment and opening the next one, still empty. *)
Definition next_segment (dw : Disk) : Disk :=
  let dw := wal_sync dw in
  let w := dw.2 in
  let seq := sg_seq (w_segment w) + 1 in
  let path := segment_path seq in
  (<[path := default file_new (dw.1 !! path)]> dw.1,
   {| w_segment := {| sg_seq := seq; sg_bytes := 0; sg_max_index := None |};
      w_closed := w_closed w ++ [(sg_seq (w_segment w), sg_max_index (w_segment w))];
      w_state := w_state w |}).

Definition checkpoint_of (w : Wal) : WalRecord :=
  Checkpoint (ws_last_purged (w_state w)) (ws_committed (w_state w)).

(** [append] and [rotate] call each other; one rotation writes one small checkpoint, so
    two levels are enough. *)
Fixpoint append_fuel (fuel : nat) (dw : Disk) (record : WalRecord) : option Disk :=
  match fuel with
  | O => None
  | S fuel =>
      let dw := write_record dw record in
      if SEGMENT_MAX_BYTES <=? sg_bytes (w_segment dw.2)
      then let dw := next_segment dw in append_fuel fuel dw (checkpoint_of dw.2)
      else Some dw
  end.
Definition wal_append (dw : Disk) (record : WalRecord) : option Disk := append_fuel 2 dw record.

Definition fold_record (dw : Disk) (record : WalRecord) : Disk :=
  (dw.1, {| w_segment := w_segment dw.2; w_closed := w_closed dw.2;
            w_state := ws_apply (w_state dw.2) record |}).

(** *** Mutations *)

Definition log_record (dw : Disk) (record : WalRecord) : option Disk :=
  dw ← wal_append dw record; Some (fold_record dw record).

(** The loop of [append_entries], before its sync. *)
Definition write_entries (dw : Disk) (entries : list Entry) : option Disk :=
  foldl (λ st e, dw ← st; log_record dw (REntry e)) (Some dw) entries.

Definition append_entries (dw : Disk) (entries : list Entry) : option Disk :=
  wal_sync <$> write_entries dw entries.

Definition truncate_from (dw : Disk) (index : Z) : option Disk :=
  wal_sync <$> log_record dw (TruncateFrom index).

Definition removable (log_id : LogId) (c : Z * option Z) : bool :=
  match c.2 with None => true | Some m => m <=? lid_index log_id end.

(** Deleting the closed segments with nothing above the purge point. *)
Definition collect_garbage (log_id : LogId) (dw : Disk) : Disk :=
  (foldl (λ d c, delete (segment_path c.1) d) dw.1
     (filter (λ c, removable log_id c = true) (w_closed dw.2)),
   {| w_segment := w_segment dw.2;
      w_closed := filter (λ c, removable log_id c = false) (w_closed dw.2);
      w_state := w_state dw.2 |}).

Definition wal_purge (dw : Disk) (log_id : LogId) : option Disk :=
  dw ← log_record dw (Purge log_id); Some (collect_garbage log_id (wal_sync dw)).

Definition wal_save_committed (dw : Disk) (c : option LogId) : option Disk :=
  wal_sync <$> log_record dw (Committed c).
End wal.

(** ** The vote file and the durable log store *)

(** bincode on votes. *)
Class VoteCodec `{!RaftTypes} := {
  vote_encode : vote → bytes;
  vote_decode : bytes → option vote;
  vote_roundtrip : ∀ v, vote_decode (vote_encode v) = Some v;
}.

Section store.
Context {RT : RaftTypes} {HO : HashOrder} {WC : WalCodec} {VC : VoteCodec}.

Definition vote_file : string := "vote.bin".
Definition vote_tmp : string := "vote.tmp".

(** [save_vote], one file-system step at a time. *)
Definition vote_create (d : Dir) : Dir := <[vote_tmp := file_new]> d.
Definition vote_write (v : vote) (d : Dir) : Dir :=
  alter (λ f, file_write f (vote_encode v)) vote_tmp d.
Definition vote_sync (d : Dir) : Dir := alter file_sync vote_tmp d.
Definition vote_rename (d : Dir) : Dir :=
  match d !! vote_tmp with
  | Some f => <[vote_file := f]> (delete vote_tmp d)
  | None => d
  end.
Definition save_vote_file (d : Dir) (v : vote) : Dir :=
  vote_rename (vote_sync (vote_write v (vote_create d))).

Definition read_vote_file (d : Dir) : option vote :=
  match d !! vote_file with Some f => vote_decode (f_data f) | None => None end.

(** [wl_files] is the data directory, beside [wal/]. *)
Record WalLogStore := {
  wl_wal : Dir * Wal;
  wl_files : Dir;
  wl_vote : option vote;
}.

Definition wl_open (wal_dir files : Dir) : option WalLogStore :=
  dw ← wal_open wal_dir;
  Some {| wl_wal := dw; wl_files := files; wl_vote := read_vote_file files |}.

Definition with_wal (l : WalLogStore) (dw : Dir * Wal) : WalLogStore :=
  {| wl_wal := dw; wl_files := wl_files l; wl_vote := wl_vote l |}.

Definition wl_entries (l : WalLogStore) : gmap Z Entry := ws_entries (w_state (wl_wal l).2).

Definition wl_try_get_log_entries (l : WalLogStore) (lo hi : Bound) : option (list Entry) :=
  kvs ← bt_range (wl_entries l) lo hi; Some kvs.*2.

Definition wl_get_log_state (l : WalLogStore) : option LogId * option LogId :=
  let purged := ws_last_purged (w_state (wl_wal l).2) in
  (purged,
   match last (bt_iter (wl_entries l)) with
   | Some kv => Some (en_log_id kv.2)
   | None => purged
   end).

Definition wl_save_vote (l : WalLogStore) (v : vote) : WalLogStore :=
  {| wl_wal := wl_wal l; wl_files := save_vote_file (wl_files l) v; wl_vote := Some v |}.
Definition wl_read_vote (l : WalLogStore) : option vote := wl_vote l.

Definition wl_save_committed (l : WalLogStore) (c : option LogId) : option WalLogStore :=
  with_wal l <$> wal_save_committed (wl_wal l) c.
Definition wl_read_committed (l : WalLogStore) : option LogId :=
  ws_committed (w_state (wl_wal l).2).

Definition wl_append (l : WalLogStore) (entries : list Entry) : option WalLogStore :=
  with_wal l <$> append_entries (wl_wal l) entries.
Definition wl_truncate (l : WalLogStore) (log_id : LogId) : option WalLogStore :=
  with_wal l <$> truncate_from (wl_wal l) (lid_index log_id).
Definition wl_purge (l : WalLogStore) (log_id : LogId) : option WalLogStore :=
  with_wal l <$> wal_purge (wl_wal l) log_id.

(** ** Specification *)

(** The mutations openraft asks a log store for. *)
Inductive log_op :=
| OpVote (v : vote)
| OpCommitted (c : option LogId)
| OpAppend (entries : list Entry)
| OpTruncate (log_id : LogId)
| OpPurge (log_id : LogId).

Definition wl_exec (l : WalLogStore) (op : log_op) : option WalLogStore :=
  match op with
  | OpVote v => Some (wl_save_vote l v)
  | OpCommitted c => wl_save_committed l c
  | OpAppend es => wl_append l es
  | OpTruncate i => wl_truncate l i
  | OpPurge i => wl_purge l i
  end.

Definition ls_exec (l : LogStore) (op : log_op) : LogStore :=
  match op with
  | OpVote v => save_vote l v
  | OpCommitted c => save_committed l c
  | OpAppend es => ls_append l es
  | OpTruncate i => ls_truncate l i
  | OpPurge i => ls_purge l i
  end.

(** The in-memory store a durable store stands for. *)
Definition view (l : WalLogStore) : LogStore :=
  {| ls_log := wl_entries l; ls_last_purged := ws_last_purged (w_state (wl_wal l).2);
     ls_committed := wl_read_committed l; ls_vote := wl_vote l |}.

(** A crash keeps every file and everything synced in it, and an arbitrary prefix of what
    was not. *)
Definition crash (d d' : Dir) : Prop :=
  ∀ name, match d !! name, d' !! name with
          | Some f, Some f' => ∃ n, (f_synced f ≤ n ≤ length (f_data f))%nat ∧
              f' = file_sync {| f_data := take n (f_data f); f_synced := 0 |}
          | None, None => True
          | _, _ => False
          end.

(** Appending [record] fills the active segment. *)
Definition rotates (dw : Dir * Wal) (record : WalRecord) : Prop :=
  SEGMENT_MAX_BYTES ≤ sg_bytes (w_segment dw.2) + Z.of_nat (length (frame (wal_encode record))).

#[export] Instance rotates_dec dw record : Decision (rotates dw record).
Proof. unfold rotates. apply _. Defined.

(** The record's length fits the four bytes of the frame header. *)
Definition fits (record : WalRecord) : Prop := Z.of_nat (length (wal_encode record)) < 2 ^ 32.

(** The conditions under which nothing is lost: an entry fits a frame, a pointer record
    does not fill a segment, and a purge deletes the oldest closed segments, none in
    between. *)
Definition gc_prefix (log_id : LogId) (closed : list (Z * option Z)) : Prop :=
  ∃ n, filter (λ c, removable log_id c = true) closed = take n closed ∧
       filter (λ c, removable log_id c = false) closed = drop n closed.

Definition op_safe (l : WalLogStore) (op : log_op) : Prop :=
  match op with
  | OpAppend es => Forall fits (REntry <$> es)
  | OpCommitted c => ¬ rotates (wl_wal l) (Committed c)
  | OpPurge i => ¬ rotates (wl_wal l) (Purge i) ∧ gc_prefix i (w_closed (wl_wal l).2)
  | _ => True
  end.

(** The newest segment holds a record, or is the only one: it has not lost the checkpoint
    that heads it. *)
Definition headed (w : Wal) : Prop := w_closed w = [] ∨ sg_bytes (w_segment w) ≠ 0.

(** *** Where a crash can fall *)

(** The states [append] goes through: the frame written, and, when that fills the segment,
    the segment synced, the next one created, and its checkpoint written. *)
Fixpoint append_steps (fuel : nat) (dw : Dir * Wal) (record : WalRecord) : list (Dir * Wal) :=
  match fuel with
  | O => []
  | S fuel =>
      let dw := write_record dw record in
      dw :: if SEGMENT_MAX_BYTES <=? sg_bytes (w_segment dw.2)
            then wal_sync dw :: (let dw := next_segment dw in
                                 dw :: append_steps fuel dw (checkpoint_of dw.2))
            else []
  end.

(** Those of the loop of [append_entries]. *)
Fixpoint entries_steps (dw : Dir * Wal) (entries : list Entry) : list (Dir * Wal) :=
  match entries with
  | [] => []
  | e :: entries =>
      append_steps 2 dw (REntry e) ++
      match log_record dw (REntry e) with Some dw => entries_steps dw entries | None => [] end
  end.

(** Those of a purge's clean-up, which removes one file after the other. *)
Definition garbage_steps (log_id : LogId) (dw : Dir * Wal) : list (Dir * Wal) :=
  let garbage := filter (λ c, removable log_id c = true) (w_closed dw.2) in
  (λ i, (foldl (λ d c, delete (segment_path c.1) d) dw.1 (take i garbage), dw.2))
    <$> seq 0 (S (length garbage)).

(** The states of the log, and of the files beside it, that a call goes through. *)
Definition call_steps (l : WalLogStore) (op : log_op) : list ((Dir * Wal) * Dir) :=
  let dw := wl_wal l in
  let d := wl_files l in
  let in_log := fmap (λ dw, (dw, d)) in
  (dw, d) ::
  match op with
  | OpVote v =>
      (λ d, (dw, d)) <$> [vote_create d; vote_write v (vote_create d);
                          vote_sync (vote_write v (vote_create d)); save_vote_file d v]
  | OpCommitted c => in_log (append_steps 2 dw (Committed c))
  | OpAppend es => in_log (entries_steps dw es)
  | OpTruncate i => in_log (append_steps 2 dw (TruncateFrom (lid_index i)))
  | OpPurge i =>
      in_log (append_steps 2 dw (Purge i)) ++
      match log_record dw (Purge i) with
      | Some dw => in_log (garbage_steps i (wal_sync dw))
      | None => []
      end
  end.

(** A crash in the middle of a safe call: what it leaves of the log and of the other files. *)
Definition crash_during (l : WalLogStore) (op : log_op) (dir files : Dir) : Prop :=
  op_safe l op ∧ ∃ dw d, (dw, d) ∈ call_steps l op ∧ sg_seq (w_segment dw.2) < 2 ^ 64 ∧
    crash dw.1 dir ∧ crash d files.

(** What an interrupted call comes to: nothing, all of it, or the first of the entries. *)
Inductive part_of : log_op → log_op → Prop :=
| part_none op : part_of op (OpAppend [])
| part_all op : part_of op op
| part_entries es k : part_of (OpAppend es) (OpAppend (take k es)).

(** A run of a durable store from an empty data directory: calls, and crashes in the middle
    of calls after which it opens again. An interrupted call counts as the part of it that
    was kept. *)
Inductive durable_run : list log_op → WalLogStore → Prop :=
| run_open l : wl_open ∅ ∅ = Some l → durable_run [] l
| run_op ops l op l' :
    durable_run ops l → op_safe l op → wl_exec l op = Some l' → durable_run (ops ++ [op]) l'
| run_crash ops l op dir files l' op' :
    durable_run ops l → crash_during l op dir files → wl_open dir files = Some l' →
    headed (wl_wal l').2 → part_of op op' → view l' = ls_exec (view l) op' →
    durable_run (ops ++ [op']) l'.
End store.

(** ** Lemmas *)

Lemma le_bytes_length z : length (le_bytes z) = 4%nat.
Proof. done. Qed.

Lemma of_le_bytes z : 0 ≤ z < 2 ^ 32 → of_le (le_bytes z) = z.
Proof.
  intros Hz. unfold of_le, le_bytes. cbn [foldr].
  pose proof (Z.div_mod z 256 ltac:(lia)). pose proof (Z.div_mod (z / 256) 256 ltac:(lia)).
  pose proof (Z.div_mod (z / 65536) 256 ltac:(lia)).
  assert (z / 256 / 256 = z / 65536) by (by rewrite Z.div_div by lia).
  assert (z / 65536 / 256 = z / 16777216) by (by rewrite Z.div_div by lia).
  assert (0 ≤ z / 16777216 < 256) by (split; [apply Z.div_pos|apply Z.div_lt_upper_bound]; lia).
  rewrite (Z.mod_small (z / 16777216) 256) by done. lia.
Qed.

Section records.
Context {RT : RaftTypes} {HO : HashOrder} {WC : WalCodec}.

Lemma marker_fits r : is_entry r = false → fits r.
Proof. intros H. apply marker_small in H. unfold fits, SEGMENT_MAX_BYTES in *. lia. Qed.

Definition frames (rs : list WalRecord) : bytes := rs ≫= λ r, frame (wal_encode r).
Definition max_of (rs : list WalRecord) : option Z := foldl bump_max None rs.
Definition replayed (st : WalState) (rs : list WalRecord) : WalState := foldl ws_apply st rs.

Lemma frame_length b : length (frame b) = (8 + length b)%nat.
Proof. unfold frame. by rewrite !length_app, !le_bytes_length. Qed.

Lemma frames_app r1 r2 : frames (r1 ++ r2) = frames r1 ++ frames r2.
Proof. apply bind_app. Qed.

Lemma frames_cons r rs : frames (r :: rs) = frame (wal_encode r) ++ frames rs.
Proof. done. Qed.

Lemma frames_snoc rs r : frames (rs ++ [r]) = frames rs ++ frame (wal_encode r).
Proof. by rewrite frames_app, (frames_cons r []), app_nil_r. Qed.

Lemma frames_length rs : (length rs ≤ length (frames rs))%nat.
Proof.
  induction rs as [|r rs IH]; [done|]. rewrite frames_cons, length_app, frame_length. simpl. lia.
Qed.

(** One whole frame is one step of the scan. *)
Lemma scan_frame fuel r rest off st mx :
  fits r → scan (S fuel) (frame (wal_encode r) ++ rest) off st mx =
  scan fuel rest (off + length (frame (wal_encode r))) (ws_apply st r) (bump_max mx r).
Proof.
  intros Hlen. unfold fits in Hlen. rewrite frame_length. pose proof (crc32_range (wal_encode r)).
  set (b := wal_encode r) in *. cbn [scan].
  rewrite bool_decide_false by (rewrite length_app, frame_length; unfold FRAME_HEADER; lia).
  assert (frame b ++ rest = le_bytes (Z.of_nat (length b)) ++ le_bytes (crc32 b) ++ b ++ rest) as ->.
  { unfold frame. by rewrite <- !app_assoc. }
  rewrite (take_app_length' _ _ 4), (drop_app_length' _ _ 4) by done.
  rewrite (take_app_length' _ _ 4) by done.
  assert (drop FRAME_HEADER (le_bytes (Z.of_nat (length b)) ++ le_bytes (crc32 b) ++ b ++ rest)
    = b ++ rest) as ->.
  { rewrite app_assoc. by apply drop_app_length'. }
  rewrite !of_le_bytes, Nat2Z.id by lia.
  rewrite bool_decide_false by (rewrite length_app; lia).
  rewrite take_app_length, drop_app_length, Z.eqb_refl. cbn [negb].
  unfold b at 1. rewrite wal_roundtrip. f_equal. unfold FRAME_HEADER. lia.
Qed.

Lemma scan_frames fuel rs rest off st mx :
  Forall fits rs → (length rs ≤ fuel)%nat →
  scan fuel (frames rs ++ rest) off st mx =
  scan (fuel - length rs) rest (off + length (frames rs)) (replayed st rs) (foldl bump_max mx rs).
Proof.
  intros Hfit. revert fuel off st mx. induction Hfit as [|r rs Hr _ IH]; intros fuel off st mx Hf.
  { simpl. by rewrite Nat.sub_0_r, Nat.add_0_r. }
  destruct fuel as [|fuel]; simpl in Hf; [lia|].
  rewrite frames_cons, <- app_assoc, scan_frame, IH by (done || lia). rewrite length_app.
  f_equal; simpl; lia.
Qed.

(** A torn frame stops the scan. *)
Definition torn (b : bytes) : Prop :=
  b ≠ [] → ∃ r n, fits r ∧ b = take n (frame (wal_encode r)) ∧ (n < length (frame (wal_encode r)))%nat.

Lemma scan_torn fuel b off st mx :
  torn b →
  scan (S fuel) b off st mx =
  {| sc_state := st; sc_max := mx; sc_offset := off; sc_corrupt := bool_decide (b ≠ []) |}.
Proof.
  intros Ht. cbn [scan]. case_bool_decide as Hs; [done|]. unfold FRAME_HEADER in *.
  assert (b ≠ []) as Hne by (intros ->; simpl in Hs; lia).
  rewrite (bool_decide_true _ Hne).
  destruct (Ht Hne) as (r & n & Hlen & -> & Hn). unfold fits in Hlen.
  set (p := wal_encode r) in *. rewrite frame_length in Hn. rewrite length_take, frame_length in Hs.
  assert (take n (frame p) = le_bytes (Z.of_nat (length p)) ++ le_bytes (crc32 p) ++ take (n - 8) p)
    as ->.
  { unfold frame. rewrite !take_app_ge by (rewrite ?le_bytes_length; lia).
    rewrite !le_bytes_length. do 3 f_equal. lia. }
  rewrite (take_app_length' _ _ 4) by done. rewrite of_le_bytes, Nat2Z.id by lia.
  rewrite app_assoc, (drop_app_length' _ _ 8) by done.
  rewrite bool_decide_true; [done|]. rewrite length_take. lia.
Qed.

(** A prefix of whole frames is some whole frames and a torn one. *)
Lemma take_frames n rs :
  Forall fits rs → ∃ k b, take n (frames rs) = frames (take k rs) ++ b ∧ torn b ∧ (k ≤ length rs)%nat ∧
    ∀ j, (j ≤ length rs)%nat → (length (frames (take j rs)) ≤ n)%nat → (j ≤ k)%nat.
Proof.
  intros Hfit. revert n. induction Hfit as [|r rs Hr _ IH]; intros n.
  { exists 0%nat, []. split_and!; [by destruct n|by intros ?|done|]. simpl. lia. }
  destruct (decide (length (frame (wal_encode r)) ≤ n)%nat) as [Hle|Hlt].
  - destruct (IH (n - length (frame (wal_encode r)))%nat) as (k & b & E & Ht & Hk & Hj).
    exists (S k), b. cbn [take]. rewrite frames_cons, take_app_ge, E by lia.
    rewrite frames_cons, app_assoc. split_and!; [done|done|simpl; lia|].
    intros [|j] Hl Hlen; [lia|]. cbn [take] in Hlen. rewrite frames_cons, length_app in Hlen.
    simpl in Hl. specialize (Hj j). lia.
  - exists 0%nat, (take n (frame (wal_encode r))). rewrite frames_cons, take_app_le by lia.
    split_and!; [done| |simpl; lia|].
    + intros _. exists r, n. split_and!; [done|done|lia].
    + intros [|j] Hl Hlen; [lia|]. cbn [take] in Hlen. rewrite frames_cons, length_app in Hlen. lia.
Qed.

(** The longest clean prefix of a file that a crash cut short. *)
Lemma scan_prefix n rs st :
  Forall fits rs → ∃ k b, take n (frames rs) = frames (take k rs) ++ b ∧ (k ≤ length rs)%nat ∧
    (∀ j, (j ≤ length rs)%nat → (length (frames (take j rs)) ≤ n)%nat → (j ≤ k)%nat) ∧
    scan (S (length (take n (frames rs)))) (take n (frames rs)) 0 st None =
    {| sc_state := replayed st (take k rs); sc_max := max_of (take k rs);
       sc_offset := length (frames (take k rs)); sc_corrupt := bool_decide (b ≠ []) |}.
Proof.
  intros Hfit. destruct (take_frames n rs Hfit) as (k & b & E & Ht & Hk & Hj). exists k, b.
  split_and!; [done..|]. rewrite E.
  assert (length (take k rs) ≤ length (frames (take k rs) ++ b))%nat as Hl.
  { rewrite length_app. pose proof (frames_length (take k rs)). lia. }
  rewrite scan_frames by (by apply Forall_take || lia).
  replace (S (length (frames (take k rs) ++ b)) - length (take k rs))%nat
    with (S (length (frames (take k rs) ++ b) - length (take k rs))) by lia.
  rewrite scan_torn by done. done.
Qed.
End records.

Lemma segment_seq_path s : 0 ≤ s < 2 ^ 64 → segment_seq (segment_path s) = Some s.
Proof.
  intros. unfold segment_seq, segment_path. rewrite strip_prefix_app. cbn [mbind option_bind].
  rewrite strip_suffix_app. cbn [mbind option_bind]. apply parse_padded. lia.
Qed.

Lemma segment_path_inj s s' : 0 ≤ s → 0 ≤ s' → segment_path s = segment_path s' → s = s'.
Proof.
  intros Hs Hs' E. unfold segment_path in E.
  apply (f_equal (λ n, r ← strip_prefix "seg-" n; r ← strip_suffix ".wal" r;
                       parse_uint (Z.max s s') r)) in E.
  rewrite !strip_prefix_app in E. cbn [mbind option_bind] in E.
  rewrite !strip_suffix_app in E. cbn [mbind option_bind] in E.
  rewrite !parse_padded in E by lia. congruence.
Qed.

Lemma seq_cmp_total : total_on (λ _, True) seq_cmp.
Proof.
  split; unfold seq_cmp.
  - intros x y _ _. apply Z.compare_antisym.
  - intros x y z _ _ _. rewrite !Z.compare_ngt_iff || rewrite <- !Z.compare_le_iff.
    unfold Z.le. lia.
Qed.

Lemma seq_cmp_strict : strict_on (λ _, True) seq_cmp.
Proof. intros x y _ _. apply Z.compare_eq. Qed.

Section layout.
Context {RT : RaftTypes} {HO : HashOrder} {WC : WalCodec}.

Abbreviation Seg := (Z * list WalRecord)%type.

(** The disk holds the records of [pre] in the closed segments and [recs] in the active
    one, of which the first [j] are synced. *)
Record layout (dw : Dir * Wal) (pre : list Seg) (recs : list WalRecord) (j : nat) : Prop := {
  ly_sorted : StronglySorted Z.lt (pre.*1 ++ [sg_seq (w_segment dw.2)]);
  ly_nonneg : Forall (Z.le 0) (pre.*1 ++ [sg_seq (w_segment dw.2)]);
  ly_names : ∀ name, is_Some (dw.1 !! name) →
    ∃ s, s ∈ pre.*1 ++ [sg_seq (w_segment dw.2)] ∧ name = segment_path s;
  ly_closed_data : ∀ s rs, (s, rs) ∈ pre →
    dw.1 !! segment_path s = Some {| f_data := frames rs; f_synced := length (frames rs) |};
  ly_active_data : dw.1 !! segment_path (sg_seq (w_segment dw.2)) =
    Some {| f_data := frames recs; f_synced := length (frames (take j recs)) |};
  ly_bytes : sg_bytes (w_segment dw.2) = Z.of_nat (length (frames recs));
  ly_max : sg_max_index (w_segment dw.2) = max_of recs;
  ly_closed : w_closed dw.2 = (λ s : Seg, (s.1, max_of s.2)) <$> pre;
  ly_sync : (j ≤ length recs)%nat;
  ly_fits : Forall fits recs;
  ly_closed_fits : Forall (λ s : Seg, Forall fits s.2) pre;
}.

Abbreviation active dw := (sg_seq (w_segment dw.2)).

Lemma layout_lt dw pre recs j s : layout dw pre recs j → s ∈ pre.*1 → 0 ≤ s < active dw.
Proof.
  intros Hl Hs. split.
  - pose proof (ly_nonneg _ _ _ _ Hl) as Hn. rewrite Forall_forall in Hn. apply Hn.
    rewrite elem_of_app. by left.
  - eapply StronglySorted_app_1_elem_of; [apply (ly_sorted _ _ _ _ Hl)|done|left].
Qed.

Lemma layout_active dw pre recs j : layout dw pre recs j → 0 ≤ active dw.
Proof.
  intros Hl. pose proof (ly_nonneg _ _ _ _ Hl) as Hn. apply Forall_app in Hn as [_ Hn].
  by apply Forall_cons in Hn as [? _].
Qed.

Lemma layout_path_ne dw pre recs j s :
  layout dw pre recs j → s ∈ pre.*1 → segment_path s ≠ segment_path (active dw).
Proof.
  intros Hl Hs E. pose proof (layout_lt _ _ _ _ _ Hl Hs).
  apply segment_path_inj in E; lia.
Qed.

(** Changing the active file's content and counters, in step. *)
Lemma layout_update dw dw' pre recs recs' j j' :
  layout dw pre recs j → active dw' = active dw → w_closed dw'.2 = w_closed dw.2 →
  dw'.1 = alter (λ _, {| f_data := frames recs'; f_synced := length (frames (take j' recs')) |})
            (segment_path (active dw)) dw.1 →
  sg_bytes (w_segment dw'.2) = Z.of_nat (length (frames recs')) →
  sg_max_index (w_segment dw'.2) = max_of recs' → (j' ≤ length recs')%nat → Forall fits recs' →
  layout dw' pre recs' j'.
Proof.
  intros Hl Ha Hc Hd Hb Hm Hj Hfit. split; rewrite ?Ha; try apply Hl; try done.
  - intros name. rewrite Hd, lookup_alter_is_Some. apply Hl.
  - intros s rs Hs. rewrite Hd, lookup_alter_ne; [by apply Hl|].
    apply not_eq_sym. eapply layout_path_ne; [exact Hl|]. by apply (list_elem_of_fmap_2' fst _ (s, rs)).
  - rewrite Hd, lookup_alter_eq, (ly_active_data _ _ _ _ Hl). done.
  - rewrite Hc. apply Hl.
Qed.

Lemma layout_alter (dw : Dir * Wal) pre recs j g :
  layout dw pre recs j →
  on_active dw g =
  alter (λ _, g {| f_data := frames recs; f_synced := length (frames (take j recs)) |})
    (segment_path (active dw)) dw.1.
Proof.
  intros Hl. unfold on_active. apply alter_ext. intros f Hf.
  rewrite (ly_active_data _ _ _ _ Hl) in Hf. by simplify_eq.
Qed.

Lemma layout_write dw pre recs j r :
  layout dw pre recs j → fits r → layout (write_record dw r) pre (recs ++ [r]) j.
Proof.
  intros Hl Hr. eapply layout_update; try exact Hl;
    cbn [write_record fst snd w_segment w_closed sg_seq sg_bytes sg_max_index]; try done.
  - rewrite (layout_alter _ _ _ _ _ Hl). unfold file_write. cbn [f_data f_synced].
    rewrite frames_snoc, take_app_le by apply Hl. done.
  - rewrite (ly_bytes _ _ _ _ Hl), frames_snoc, length_app. lia.
  - rewrite (ly_max _ _ _ _ Hl). unfold max_of. by rewrite foldl_snoc.
  - pose proof (ly_sync _ _ _ _ Hl). rewrite length_app. lia.
  - apply Forall_app. split; [apply Hl|by constructor].
Qed.

Lemma layout_sync dw pre recs j :
  layout dw pre recs j → layout (wal_sync dw) pre recs (length recs).
Proof.
  intros Hl. eapply layout_update; try exact Hl; cbn [wal_sync fst snd]; try done; try apply Hl.
  rewrite (layout_alter _ _ _ _ _ Hl). by rewrite (take_ge recs (length recs)) by done.
Qed.

Lemma layout_next dw pre recs j :
  layout dw pre recs j → layout (next_segment dw) (pre ++ [(active dw, recs)]) [] 0.
Proof.
  intros Hl0. apply layout_sync in Hl0 as Hl. clear Hl0. unfold next_segment.
  set (dw1 := wal_sync dw) in *. assert (active dw1 = active dw) as Ha by done.
  pose proof (layout_active _ _ _ _ Hl) as Hpos. 
  assert (∀ s, s ∈ pre.*1 ++ [active dw] → 0 ≤ s ≤ active dw) as Hle.
  { intros s Hs. apply elem_of_app in Hs as [Hs|Hs%list_elem_of_singleton].
    - pose proof (layout_lt _ _ _ _ _ Hl Hs). lia.
    - lia. }
  assert (∀ s, s ∈ pre.*1 ++ [active dw] → segment_path s ≠ segment_path (active dw + 1)) as Hne.
  { intros s Hs E. specialize (Hle _ Hs). apply segment_path_inj in E; lia. }
  assert (dw1.1 !! segment_path (active dw + 1) = None) as Hfresh.
  { destruct (dw1.1 !! segment_path (active dw + 1)) eqn:E; [|done]. exfalso.
    destruct (ly_names _ _ _ _ Hl (segment_path (active dw + 1))) as (s & Hs & Es); [by eexists|].
    by apply (Hne s Hs). }
  split; cbn; rewrite ?fmap_app; cbn.
  - apply StronglySorted_app_2; [|apply (ly_sorted _ _ _ _ Hl)|by repeat constructor].
    intros x y Hx Hy%list_elem_of_singleton. specialize (Hle _ Hx). lia.
  - apply Forall_app. split; [apply (ly_nonneg _ _ _ _ Hl)|]. constructor; [lia|constructor].
  - intros name. destruct (decide (name = segment_path (active dw + 1))) as [->|Hn].
    + intros _. eexists. split; [|done]. apply elem_of_app. right. by left.
    + rewrite lookup_insert_ne by done. intros Hs.
      destruct (ly_names _ _ _ _ Hl name Hs) as (s & Hin & ->).
      exists s. split; [|done]. apply elem_of_app. by left.
  - intros s rs Hs. assert (s ∈ pre.*1 ++ [active dw]) as Hin.
    { apply elem_of_app in Hs as [Hs|Hs%list_elem_of_singleton].
      - apply elem_of_app. left. by apply (list_elem_of_fmap_2' fst _ (s, rs)).
      - simplify_eq. apply elem_of_app. right. by left. }
    rewrite lookup_insert_ne by (by apply not_eq_sym, Hne).
    apply elem_of_app in Hs as [Hs|Hs%list_elem_of_singleton].
    + by apply (ly_closed_data _ _ _ _ Hl).
    + simplify_eq. pose proof (ly_active_data _ _ _ _ Hl) as Hd. rewrite Ha, take_ge in Hd by done.
      done.
  - rewrite lookup_insert_eq. change (on_active dw file_sync) with dw1.1. by rewrite Hfresh.
  - done.
  - done.
  - change (w_closed dw1.2 ++ [(active dw, sg_max_index (w_segment dw1.2))] =
      ((λ s : Seg, (s.1, max_of s.2)) <$> pre) ++ [(active dw, max_of recs)]).
    by rewrite (ly_closed _ _ _ _ Hl), (ly_max _ _ _ _ Hl).
  - done.
  - constructor.
  - apply Forall_app. split; [apply Hl|]. constructor; [apply Hl|constructor].
Qed.

Lemma layout_fold dw pre recs j r : layout dw pre recs j → layout (fold_record dw r) pre recs j.
Proof. by intros [? ? ? ? ? ? ? ? ? ? ?]. Qed.

(** One record appended and folded: in the same segment, or closing it. *)
Lemma log_record_spec dw pre recs j r :
  layout dw pre recs j → fits r →
  ∃ dw', log_record dw r = Some dw' ∧ w_state dw'.2 = ws_apply (w_state dw.2) r ∧
    (if decide (rotates dw r)
     then layout dw' (pre ++ [(active dw, recs ++ [r])]) [checkpoint_of dw.2] 0
     else layout dw' pre (recs ++ [r]) j ∧ w_closed dw'.2 = w_closed dw.2).
Proof.
  intros Hl Hr. unfold log_record, wal_append.
  pose proof (layout_write _ _ _ _ r Hl Hr) as Hw.
  cbn [append_fuel]. unfold rotates.
  replace (sg_bytes (w_segment (write_record dw r).2)) with
    (sg_bytes (w_segment dw.2) + Z.of_nat (length (frame (wal_encode r)))) by done.
  destruct (Z.leb_spec SEGMENT_MAX_BYTES
    (sg_bytes (w_segment dw.2) + Z.of_nat (length (frame (wal_encode r))))) as [Hle|Hlt].
  - apply layout_next in Hw. apply (layout_write _ _ _ _ (checkpoint_of dw.2)) in Hw;
      [|by apply marker_fits].
    set (dw1 := next_segment (write_record dw r)) in *.
    assert (checkpoint_of dw1.2 = checkpoint_of dw.2) as -> by done.
    assert (SEGMENT_MAX_BYTES <=? sg_bytes (w_segment (write_record dw1 (checkpoint_of dw.2)).2)
      = false) as ->.
    { apply Z.leb_gt. cbn [write_record w_segment sg_bytes snd].
      pose proof (marker_small (checkpoint_of dw.2) eq_refl).
      change (sg_bytes (w_segment dw1.2)) with 0. rewrite frame_length. lia. }
    cbn [mbind option_bind]. eexists. split; [done|]. split; [done|].
    rewrite decide_True by done. by apply layout_fold.
  - cbn [mbind option_bind]. eexists. split; [done|]. split; [done|].
    rewrite decide_False by lia. split; [by apply layout_fold|done].
Qed.
End layout.

(** *** Pointers across segment boundaries *)

Section chain.
Context {RT : RaftTypes} {HO : HashOrder} {WC : WalCodec}.

Abbreviation Ptrs := (option LogId * option LogId)%type.

Definition ptrs_of (st : WalState) : Ptrs := (ws_last_purged st, ws_committed st).

Definition is_checkpoint (r : WalRecord) : bool :=
  match r with Checkpoint _ _ => true | _ => false end.
Definition is_pointer (r : WalRecord) : bool :=
  match r with Purge _ | Committed _ => true | _ => false end.

Definition ptr_step (p : Ptrs) (r : WalRecord) : Ptrs :=
  match r with
  | Purge l => (Some l, p.2)
  | Committed c => (p.1, c)
  | _ => p
  end.

Definition body_ok (rs : list WalRecord) : Prop := Forall (λ r, is_checkpoint r = false) rs.

(** Every segment but possibly the very first opens with a checkpoint of the pointers
    reached before it. *)
Inductive chained : Ptrs → list (list WalRecord) → Ptrs → Prop :=
| chained_nil p : chained p [] p
| chained_cons p body segs p' :
    body_ok body → chained (foldl ptr_step p body) segs p' →
    chained p ((Checkpoint p.1 p.2 :: body) :: segs) p'
| chained_first body segs p' :
    body_ok body → chained (foldl ptr_step (None, None) body) segs p' →
    chained (None, None) (body :: segs) p'.

Lemma chained_app a l1 l2 b : chained a (l1 ++ l2) b ↔ ∃ m, chained a l1 m ∧ chained m l2 b.
Proof.
  split.
  - revert a. induction l1 as [|x l1 IH]; intros a H; [by exists a; split; [constructor|]|].
    inversion H; subst.
    + destruct (IH _ ltac:(eassumption)) as (m & ? & ?). exists m. split; [by constructor|done].
    + destruct (IH _ ltac:(eassumption)) as (m & ? & ?). exists m. split; [by constructor|done].
  - intros (m & H1 & H2). induction H1; [done|by constructor; auto..].
Qed.

Lemma chained_snoc a l b : chained a l b → chained a (l ++ [[Checkpoint b.1 b.2]]) b.
Proof.
  intros H. apply chained_app. exists b. split; [done|]. apply (chained_cons b []); constructor.
Qed.

Lemma chained_extend a l rs b r :
  is_checkpoint r = false → chained a (l ++ [rs]) b →
  chained a (l ++ [rs ++ [r]]) (ptr_step b r).
Proof.
  intros Hr H. apply chained_app in H as (m & H1 & H2). apply chained_app. exists m.
  split; [done|]. inversion H2 as [|p body segs p' Hb Hn|body segs p' Hb Hn]; subst;
    inversion Hn; subst.
  - change ((Checkpoint m.1 m.2 :: body) ++ [r]) with (Checkpoint m.1 m.2 :: (body ++ [r])).
    constructor; [apply Forall_app; by repeat constructor|]. rewrite foldl_snoc. constructor.
  - constructor; [apply Forall_app; by repeat constructor|]. rewrite foldl_snoc. constructor.
Qed.

Lemma ptrs_apply st r :
  is_checkpoint r = false → ptrs_of (ws_apply st r) = ptr_step (ptrs_of st) r.
Proof. by destruct r. Qed.

Lemma ptrs_replayed st rs :
  body_ok rs → ptrs_of (replayed st rs) = foldl ptr_step (ptrs_of st) rs.
Proof.
  revert st. induction rs as [|r rs IH]; intros st Hb; [done|]. apply Forall_cons in Hb as [Hr Hb].
  cbn [replayed foldl]. unfold replayed in IH. by rewrite IH, ptrs_apply.
Qed.

(** A checkpoint of the pointers already reached changes nothing. *)
Lemma checkpoint_noop st : ws_apply st (Checkpoint (ws_last_purged st) (ws_committed st)) = st.
Proof. destruct st as [es [p|] [c|]]; done. Qed.

Lemma ptrs_checkpoint st p :
  ptrs_of st = p ∨ ptrs_of st = (None, None) → ptrs_of (ws_apply st (Checkpoint p.1 p.2)) = p.
Proof. destruct st as [es q c], p as [q' c']. unfold ptrs_of. simpl. intros [[= -> ->]|[= -> ->]];
  [by destruct q', c'|done]. Qed.

Lemma ptrs_chained a segs b st :
  chained a segs b → ptrs_of st = a → ptrs_of (replayed st (concat segs)) = b.
Proof.
  intros H. revert st. induction H as [p|p body segs p' Hb H IH|body segs p' Hb H IH];
    intros st Hst; [done|..]; cbn [concat]; unfold replayed in *; rewrite foldl_app; apply IH.
  - cbn [foldl]. fold (replayed (ws_apply st (Checkpoint p.1 p.2)) body).
    rewrite ptrs_replayed, ptrs_checkpoint by auto. done.
  - fold (replayed st body). by rewrite ptrs_replayed, Hst.
Qed.

(** Replaying from nothing reaches the same pointers, wherever the chain starts. *)
Lemma ptrs_from_nothing a segs b :
  chained a segs b → segs ≠ [] → ptrs_of (replayed ws_default (concat segs)) = b.
Proof.
  intros H Hne. inversion H as [|p body segs' p' Hb Hn|body segs' p' Hb Hn]; subst; [done|..].
  - cbn [concat]. unfold replayed. rewrite foldl_app. eapply ptrs_chained; [done|].
    cbn [foldl]. fold (replayed (ws_apply ws_default (Checkpoint a.1 a.2)) body).
    rewrite ptrs_replayed, ptrs_checkpoint by auto. done.
  - by eapply ptrs_chained.
Qed.

(** *** Entries at or below the purge point *)

Definition agree_above (p : Z) (st1 st2 : WalState) : Prop :=
  ∀ i, p < i → ws_entries st1 !! i = ws_entries st2 !! i.

Lemma agree_apply p st1 st2 r :
  agree_above p st1 st2 → agree_above p (ws_apply st1 r) (ws_apply st2 r).
Proof.
  intros H i Hi. specialize (H i Hi). destruct r as [e|index|l|c|q c]; cbn [ws_apply ws_entries];
    try done.
  - destruct (decide (i = lid_index (en_log_id e))) as [->|Hne].
    + by rewrite !lookup_insert_eq.
    + by rewrite !lookup_insert_ne by done.
  - rewrite !remove_keys_filter. apply option_eq. intros v.
    rewrite !map_lookup_filter_Some, H. done.
  - rewrite !remove_keys_filter. apply option_eq. intros v.
    rewrite !map_lookup_filter_Some, H. done.
Qed.

Lemma entries_apply_eq st1 st2 r :
  ws_entries st1 = ws_entries st2 → ws_entries (ws_apply st1 r) = ws_entries (ws_apply st2 r).
Proof. intros H. destruct r; cbn [ws_apply ws_entries]; congruence. Qed.

Lemma entries_replayed_eq st1 st2 rs :
  ws_entries st1 = ws_entries st2 → ws_entries (replayed st1 rs) = ws_entries (replayed st2 rs).
Proof.
  revert st1 st2. induction rs as [|r rs IH]; intros st1 st2 H; [done|].
  apply (IH (ws_apply st1 r)). by apply entries_apply_eq.
Qed.

(** A purge forgets everything two replays may disagree on. *)
Lemma entries_after_purge st1 st2 rs l :
  agree_above (lid_index l) st1 st2 → Purge l ∈ rs →
  ws_entries (replayed st1 rs) = ws_entries (replayed st2 rs).
Proof.
  revert st1 st2. induction rs as [|r rs IH]; intros st1 st2 Ha Hin; [by apply elem_of_nil in Hin|].
  apply elem_of_cons in Hin as [<-|Hin].
  - apply (entries_replayed_eq (ws_apply st1 (Purge l)) (ws_apply st2 (Purge l))).
    cbn [ws_apply ws_entries]. rewrite !remove_keys_filter.
    apply map_eq. intros i. apply option_eq. intros v. rewrite !map_lookup_filter_Some. simpl.
    destruct (decide (lid_index l < i)) as [Hlt|Hge]; [by rewrite (Ha i Hlt)|].
    rewrite (proj2 (Z.leb_le i (lid_index l))) by lia. split; by intros [_ ?].
  - apply (IH (ws_apply st1 r) (ws_apply st2 r)); [by apply agree_apply|done].
Qed.

Lemma bump_max_le m r : ∀ x, m = Some x → ∃ y, bump_max m r = Some y ∧ x ≤ y.
Proof. intros x ->. destruct r; cbn; eexists; (split; [done|lia]). Qed.

Lemma max_of_snoc rs r : max_of (rs ++ [r]) = bump_max (max_of rs) r.
Proof. unfold max_of. by rewrite foldl_snoc. Qed.

(** Segments with no entry above [p] leave a replay's entries above [p] alone. *)
Lemma max_of_agree p rs st :
  match max_of rs with Some m => m ≤ p | None => True end →
  (∀ i, p < i → ws_entries st !! i = None) → ∀ i, p < i → ws_entries (replayed st rs) !! i = None.
Proof.
  induction rs as [|r rs IH] using rev_ind; intros Hm Hst i Hi; [by apply Hst|].
  unfold replayed. rewrite foldl_snoc. fold (replayed st rs). rewrite max_of_snoc in Hm.
  assert (ws_entries (replayed st rs) !! i = None) as Hn.
  { apply IH; [|done|done]. destruct (max_of rs) as [m|] eqn:E; [|done].
    destruct (bump_max_le (Some m) r m eq_refl) as (y & Ey & ?). rewrite Ey in Hm. lia. }
  destruct r as [e|index|l|c|q c]; cbn [ws_apply ws_entries]; try done.
  - rewrite lookup_insert_ne; [done|]. cbn in Hm. destruct (max_of rs); lia.
  - rewrite remove_keys_filter. apply map_lookup_filter_None. by left.
  - rewrite remove_keys_filter. apply map_lookup_filter_None. by left.
Qed.

Lemma max_of_agree_all p segs st :
  Forall (λ rs, match max_of rs with Some m => m ≤ p | None => True end) segs →
  (∀ i, p < i → ws_entries st !! i = None) →
  ∀ i, p < i → ws_entries (replayed st (concat segs)) !! i = None.
Proof.
  intros Hs. revert st. induction Hs as [|rs segs Hm _ IH]; intros st Hst; [done|].
  cbn [concat]. unfold replayed. rewrite foldl_app. apply IH. by apply max_of_agree.
Qed.
End chain.

(** *** The invariant of a running log *)

Section invariant.
Context {RT : RaftTypes} {HO : HashOrder} {WC : WalCodec}.

Abbreviation active dw := (sg_seq (w_segment dw.2)).

(** [S] is the set of states a crash may leave: those of the record stream cut anywhere
    after the synced records. *)
Definition wal_inv (dw : Dir * Wal) (S : WalState → Prop) : Prop :=
  ∃ pre recs j, layout dw pre recs j ∧
    w_state dw.2 = replayed ws_default (concat (pre.*2 ++ [recs])) ∧
    (∃ a, chained a (pre.*2 ++ [recs]) (ptrs_of (w_state dw.2))) ∧
    ∀ k, (j ≤ k ≤ length recs)%nat → S (replayed ws_default (concat (pre.*2) ++ take k recs)).

Lemma wal_inv_weaken dw (S S' : WalState → Prop) :
  (∀ st, S st → S' st) → wal_inv dw S → wal_inv dw S'.
Proof. intros Hw (pre & recs & j & ? & ? & ? & HS). exists pre, recs, j. split_and!; auto. Qed.

Lemma concat_snoc_records (pre : list (list WalRecord)) recs :
  concat (pre ++ [recs]) = concat pre ++ recs.
Proof. by rewrite concat_app, concat_cons, app_nil_r. Qed.

Lemma replayed_app st r1 r2 : replayed st (r1 ++ r2) = replayed (replayed st r1) r2.
Proof. apply foldl_app. Qed.

Lemma replayed_snoc st rs r : replayed st (rs ++ [r]) = ws_apply (replayed st rs) r.
Proof. apply foldl_snoc. Qed.

(** A record written, wherever that leaves the segment. *)
Lemma write_inv dw S r :
  wal_inv dw S → fits r → is_checkpoint r = false →
  wal_inv (fold_record (write_record dw r) r) (λ st, S st ∨ st = ws_apply (w_state dw.2) r).
Proof.
  intros (pre & recs & j & Hl & Hst & (a & Hch) & HS) Hfit Hcp.
  assert (ws_apply (w_state dw.2) r = replayed ws_default (concat (pre.*2 ++ [recs ++ [r]]))) as Hst'.
  { by rewrite Hst, !concat_snoc_records, app_assoc, replayed_snoc. }
  exists pre, (recs ++ [r]), j. cbn [fold_record write_record w_state fst snd]. split_and!.
  - by apply layout_fold, layout_write.
  - done.
  - exists a. apply (chained_extend _ _ _ _ r Hcp) in Hch. by rewrite ptrs_apply by done.
  - intros k Hk. rewrite length_app in Hk. cbn [length] in Hk.
    destruct (decide (k ≤ length recs)%nat).
    + left. rewrite take_app_le by done. apply HS. lia.
    + right. rewrite take_ge by (rewrite length_app; cbn; lia). by rewrite Hst', concat_snoc_records.
Qed.

Lemma log_record_inv dw S r :
  wal_inv dw S → fits r → is_checkpoint r = false → (is_pointer r = true → ¬ rotates dw r) →
  ∃ dw', log_record dw r = Some dw' ∧ w_state dw'.2 = ws_apply (w_state dw.2) r ∧
    wal_inv dw' (λ st, S st ∨ st = ws_apply (w_state dw.2) r) ∧
    (¬ rotates dw r → w_closed dw'.2 = w_closed dw.2 ∧ ∀ pre recs j, layout dw pre recs j →
       layout dw' pre (recs ++ [r]) j).
Proof.
  intros (pre & recs & j & Hl & Hst & (a & Hch) & HS) Hfit Hcp Hptr.
  destruct (log_record_spec dw pre recs j r Hl Hfit) as (dw' & E & Hst' & Hlay).
  exists dw'. split_and!; [done|done| |].
  2: { intros Hrot. rewrite decide_False in Hlay by done. destruct Hlay as [_ Hc].
       split; [done|]. intros pre1 recs1 j1 Hl1.
       destruct (log_record_spec dw pre1 recs1 j1 r Hl1 Hfit) as (dw1 & E1 & _ & Hlay1).
       rewrite decide_False in Hlay1 by done. destruct Hlay1. congruence. }
  apply (chained_extend _ _ _ _ r Hcp) in Hch as Hch'.
  rewrite <- ptrs_apply, <- Hst' in Hch' by done.
  assert (w_state dw'.2 = replayed ws_default (concat (pre.*2 ++ [recs ++ [r]]))) as Hst''.
  { rewrite Hst', Hst, !concat_snoc_records, app_assoc, replayed_snoc. done. }
  case_decide as Hrot.
  - assert (checkpoint_of dw.2 = Checkpoint (ws_last_purged (w_state dw'.2))
      (ws_committed (w_state dw'.2))) as Hcpt.
    { rewrite Hst'. unfold checkpoint_of. destruct r; try done; by destruct (Hptr eq_refl). }
    exists (pre ++ [(active dw, recs ++ [r])]), [checkpoint_of dw.2], 0%nat.
    rewrite fmap_app. cbn [fmap list_fmap snd]. rewrite Hcpt.
    assert (replayed ws_default (concat (pre.*2 ++ [recs ++ [r]]) ++
      [Checkpoint (ws_last_purged (w_state dw'.2)) (ws_committed (w_state dw'.2))])
      = w_state dw'.2) as Hnoop.
    { rewrite replayed_snoc, <- Hst''. apply checkpoint_noop. }
    split_and!; [by rewrite <- Hcpt|by rewrite concat_snoc_records, Hnoop| |].
    + exists a. apply chained_snoc in Hch'. exact Hch'.
    + intros [|[|k]] Hk; cbn [take]; right; rewrite <- Hst'.
      * by rewrite app_nil_r.
      * done.
      * cbn in Hk. lia.
  - destruct Hlay as [Hlay _]. exists pre, (recs ++ [r]), j. split_and!; [done|done|by exists a|].
    intros k Hk. rewrite length_app in Hk. cbn [length] in Hk.
    destruct (decide (k ≤ length recs)%nat).
    + left. rewrite take_app_le by done. apply HS. lia.
    + right. rewrite take_ge by (rewrite length_app; cbn; lia).
      by rewrite <- Hst', Hst'', concat_snoc_records.
Qed.

Lemma sync_inv dw S : wal_inv dw S → wal_inv (wal_sync dw) (λ st, st = w_state dw.2).
Proof.
  intros (pre & recs & j & Hl & Hst & Hch & HS). exists pre, recs, (length recs).
  split_and!; [by eapply layout_sync|done|done|]. intros k Hk.
  by rewrite Hst, concat_snoc_records, take_ge by lia.
Qed.

Lemma write_entries_inv dw S es :
  Forall fits (REntry <$> es) → wal_inv dw S → S (w_state dw.2) →
  ∃ dw', write_entries dw es = Some dw' ∧
    w_state dw'.2 = replayed (w_state dw.2) (REntry <$> es) ∧
    wal_inv dw' (λ st, S st ∨ ∃ k, st = replayed (w_state dw.2) (REntry <$> take k es)).
Proof.
  intros Hfit Hi HS. unfold write_entries.
  induction es as [|e es IH] using rev_ind.
  { exists dw. split_and!; [done|done|]. eapply wal_inv_weaken; [|exact Hi]. auto. }
  rewrite fmap_app in Hfit. apply Forall_app in Hfit as [Hfit He].
  apply Forall_cons in He as [He _].
  destruct (IH Hfit) as (dw1 & E1 & Hst1 & Hi1).
  rewrite foldl_snoc, E1. cbn [mbind option_bind].
  destruct (log_record_inv dw1 _ (REntry e) Hi1 He eq_refl) as (dw2 & E2 & Hst2 & Hi2 & _); [done|].
  exists dw2. rewrite fmap_app. cbn [fmap list_fmap].
  assert (w_state dw2.2 = replayed (w_state dw.2) ((REntry <$> es) ++ [REntry e])) as Hst.
  { by rewrite Hst2, Hst1, replayed_snoc. }
  split_and!; [done|done|]. eapply wal_inv_weaken; [|exact Hi2]. cbn beta.
  rewrite <- Hst2, Hst. intros st [[?|[k ->]]| ->]; [by left| |]; right.
  - destruct (decide (k ≤ length es)%nat).
    + exists k. by rewrite take_app_le.
    + exists (length es). rewrite take_app_le, !take_ge by lia. done.
  - exists (length (es ++ [e])). by rewrite take_ge, fmap_app by done.
Qed.

(** *** Deleting the oldest segments *)

Definition drop_oldest (n : nat) (dw : Dir * Wal) : Dir * Wal :=
  (foldl (λ d c, delete (segment_path c.1) d) dw.1 (take n (w_closed dw.2)),
   {| w_segment := w_segment dw.2; w_closed := drop n (w_closed dw.2); w_state := w_state dw.2 |}).

Lemma layout_drop dw pre recs j n :
  layout dw pre recs j → layout (drop_oldest n dw) (drop n pre) recs j.
Proof.
  intros Hl.
  set (key := λ c : Z * option Z, segment_path c.1).
  assert (∀ name, (drop_oldest n dw).1 !! name =
    if decide (name ∈ key <$> take n (w_closed dw.2)) then None else dw.1 !! name) as Hdir.
  { intros name. apply (foldl_delete_lookup key). }
  assert (key <$> take n (w_closed dw.2) = segment_path <$> (take n pre).*1) as Hkeys.
  { rewrite (ly_closed _ _ _ _ Hl), <- fmap_take, <- !list_fmap_compose. done. }
  rewrite Hkeys in Hdir. clear Hkeys.
  pose proof (ly_sorted _ _ _ _ Hl) as Hs. rewrite <- (take_drop n pre), fmap_app, <- app_assoc in Hs.
  assert (∀ s, s ∈ (drop n pre).*1 ++ [active dw] →
    segment_path s ∉ segment_path <$> (take n pre).*1) as Hkeep.
  { intros s Hin Hp. apply list_elem_of_fmap in Hp as (s' & Hp & Hin').
    pose proof (StronglySorted_app_1_elem_of _ _ _ _ _ Hs Hin' Hin) as Hlt.
    assert (s' ∈ pre.*1) as Hpre.
    { rewrite <- (take_drop n pre), fmap_app. apply elem_of_app. by left. }
    pose proof (layout_lt _ _ _ _ _ Hl Hpre). apply segment_path_inj in Hp; lia. }
  split; try apply Hl.
  - by apply StronglySorted_app_1_r in Hs.
  - pose proof (ly_nonneg _ _ _ _ Hl) as Hn. rewrite <- (take_drop n pre), fmap_app, <- app_assoc in Hn.
    by apply Forall_app in Hn as [_ Hn].
  - intros name. rewrite Hdir. case_decide as Hdec; [by intros [? ?]|]. intros Hsome.
    destruct (ly_names _ _ _ _ Hl name Hsome) as (s & Hin & ->). exists s. split; [|done].
    rewrite <- (take_drop n pre), fmap_app, <- app_assoc in Hin.
    apply elem_of_app in Hin as [Hin|Hin]; [|done]. exfalso. apply Hdec. by apply list_elem_of_fmap_2.
  - intros s rs Hin. rewrite Hdir, decide_False.
    + apply (ly_closed_data _ _ _ _ Hl). rewrite <- (take_drop n pre). apply elem_of_app. by right.
    + apply Hkeep, elem_of_app. left. by apply (list_elem_of_fmap_2' fst _ (s, rs)).
  - rewrite Hdir, decide_False; [apply Hl|]. apply Hkeep, elem_of_app. right. by left.
  - cbn [drop_oldest snd w_closed]. by rewrite (ly_closed _ _ _ _ Hl), fmap_drop.
  - apply Forall_drop, Hl.
Qed.

(** A purge recorded and synced, and some of the oldest segments it covers deleted. *)
Lemma purged_inv dw l n :
  wal_inv dw (λ st, st = w_state dw.2) → ¬ rotates dw (Purge l) →
  Forall (λ c, removable l c = true) (take n (w_closed dw.2)) →
  ∃ dw1, log_record dw (Purge l) = Some dw1 ∧ w_closed dw1.2 = w_closed dw.2 ∧
    w_state dw1.2 = ws_apply (w_state dw.2) (Purge l) ∧
    wal_inv (drop_oldest n (wal_sync dw1)) (λ st, st = w_state dw1.2).
Proof.
  intros Hi Hrot Hn. pose proof Hi as (pre & recs & j & Hl & Hst & (a & Hch) & _).
  destruct (log_record_inv dw _ (Purge l) Hi (marker_fits (Purge l) eq_refl) eq_refl) as (dw1 & E1 & Hst1 & _ & Hkeep); [done|].
  destruct (Hkeep Hrot) as [Hc Hlay]. specialize (Hlay _ _ _ Hl). clear Hkeep Hi.
  exists dw1. do 3 (split; [done|]).
  apply (chained_extend _ _ _ _ (Purge l) eq_refl) in Hch.
  rewrite <- ptrs_apply, <- Hst1 in Hch by done.
  assert (w_state dw1.2 = replayed ws_default (concat (pre.*2 ++ [recs ++ [Purge l]]))) as Hst1'.
  { rewrite Hst1, Hst, !concat_snoc_records, app_assoc, replayed_snoc. done. }
  apply layout_sync, (layout_drop _ _ _ _ n) in Hlay as Hls.
  rewrite <- (take_drop n pre), fmap_app, <- app_assoc in Hch.
  apply chained_app in Hch as (m & _ & Hch).
  assert (replayed ws_default (concat ((drop n pre).*2 ++ [recs ++ [Purge l]])) = w_state dw1.2)
    as Hrep.
  { pose proof (ptrs_from_nothing _ _ _ Hch) as Hp.
    assert (ws_entries (replayed ws_default (concat ((drop n pre).*2 ++ [recs ++ [Purge l]])))
      = ws_entries (w_state dw1.2)) as He.
    { rewrite Hst1'.
      assert (concat (pre.*2 ++ [recs ++ [Purge l]]) =
        concat (take n pre).*2 ++ concat ((drop n pre).*2 ++ [recs ++ [Purge l]])) as ->.
      { by rewrite <- concat_app, app_assoc, <- fmap_app, take_drop. }
      rewrite replayed_app. symmetry. apply (entries_after_purge _ _ _ l).
      - intros i Hi. apply (max_of_agree_all (lid_index l)); [|done|done].
        rewrite (ly_closed _ _ _ _ Hl), <- fmap_take in Hn. rewrite Forall_fmap in Hn.
        rewrite Forall_fmap. eapply Forall_impl; [exact Hn|]. intros s Hr. cbn in Hr |- *.
        unfold removable in Hr. cbn [snd] in Hr. destruct (max_of s.2); [|done]. by apply Z.leb_le.
      - rewrite concat_snoc_records, !elem_of_app. right. right. by left. }
    assert (∀ st st', ws_entries st = ws_entries st' → ptrs_of st = ptrs_of st' → st = st') as Heq.
    { intros [? ? ?] [? ? ?] ? [=]. by simplify_eq/=. }
    apply Heq; [done|]. apply Hp. by destruct ((drop n pre).*2). }
  exists (drop n pre), (recs ++ [Purge l]), (length (recs ++ [Purge l])).
  split_and!; [exact Hls|by rewrite Hrep|by exists m|].
  intros k Hk. rewrite take_ge by lia. rewrite concat_snoc_records in Hrep. by rewrite Hrep.
Qed.

Lemma garbage_prefix l dw n :
  filter (λ c, removable l c = true) (w_closed dw.2) = take n (w_closed dw.2) →
  filter (λ c, removable l c = false) (w_closed dw.2) = drop n (w_closed dw.2) →
  collect_garbage l dw = drop_oldest n dw ∧ Forall (λ c, removable l c = true) (take n (w_closed dw.2)).
Proof.
  intros Ht Hd. unfold collect_garbage, drop_oldest. rewrite Ht, Hd. split; [done|].
  rewrite <- Ht. apply Forall_forall. by intros c [? _]%list_elem_of_filter.
Qed.

Lemma purge_inv dw l :
  wal_inv dw (λ st, st = w_state dw.2) → ¬ rotates dw (Purge l) → gc_prefix l (w_closed dw.2) →
  ∃ dw', wal_purge dw l = Some dw' ∧ w_state dw'.2 = ws_apply (w_state dw.2) (Purge l) ∧
    wal_inv dw' (λ st, st = w_state dw'.2).
Proof.
  intros Hi Hrot (n & Ht & Hd). destruct (garbage_prefix l dw n Ht Hd) as [_ Hn].
  destruct (purged_inv dw l n Hi Hrot Hn) as (dw1 & E1 & Hc & Hst & Hinv).
  unfold wal_purge. rewrite E1. cbn [mbind option_bind]. eexists. split; [done|].
  destruct (garbage_prefix l (wal_sync dw1) n) as [-> _]; [by cbn; rewrite Hc..|]. by split.
Qed.
End invariant.

(** *** Recovery *)

Section recovery.
Context {RT : RaftTypes} {HO : HashOrder} {WC : WalCodec}.

Abbreviation active dw := (sg_seq (w_segment dw.2)).

Lemma seqs_ranked (l : list Z) : StronglySorted Z.lt l → ranked seq_cmp l ∧ NoDup l.
Proof.
  induction 1 as [|x l _ [Hr Hn] Hx]; [by split; constructor|]. rewrite Forall_forall in Hx.
  split; constructor; try done.
  - rewrite Forall_forall. intros y Hy. unfold seq_cmp. specialize (Hx y Hy).
    rewrite Z.compare_gt_iff. lia.
  - intros Hin. specialize (Hx x Hin). lia.
Qed.

Lemma omap_segment_seq (l : list Z) :
  Forall (λ s, 0 ≤ s < 2 ^ 64) l → omap segment_seq (segment_path <$> l) = l.
Proof.
  induction 1 as [|s l Hs _ IH]; [done|]. rewrite fmap_cons. cbn [omap list_omap].
  rewrite segment_seq_path by done. by f_equal.
Qed.

Lemma segment_seqs_spec (d : Dir) (l : list Z) :
  StronglySorted Z.lt l → Forall (λ s, 0 ≤ s < 2 ^ 64) l →
  (∀ name, is_Some (d !! name) ↔ name ∈ segment_path <$> l) → segment_seqs d = l.
Proof.
  intros Hs Hr Hd. destruct (seqs_ranked l Hs) as [Hrank Hnd].
  assert (omap segment_seq (hm_keys d) ≡ₚ l) as Hp.
  { rewrite <- (omap_segment_seq l Hr). apply omap_Permutation, NoDup_Permutation.
    - apply hm_keys_NoDup.
    - apply (NoDup_fmap_2_strong segment_path); [|done].
      intros x y Hx Hy. rewrite Forall_forall in Hr. specialize (Hr x Hx) as Hx'.
      specialize (Hr y Hy). apply segment_path_inj; lia.
    - intros name. rewrite <- Hd. unfold hm_keys. rewrite list_elem_of_fmap. split.
      + intros ([n f] & -> & Hin%elem_of_hm_order). by eexists.
      + intros [f Hf]. exists (name, f). split; [done|]. by apply elem_of_hm_order. }
  unfold segment_seqs.
  rewrite (sort_by_ext (λ _, True) _ seq_cmp_total seq_cmp_strict _ l);
    [by apply sort_by_id|by apply Forall_true|done].
Qed.

Lemma scan_full rs st :
  Forall fits rs →
  scan (S (length (frames rs))) (frames rs) 0 st None =
  {| sc_state := replayed st rs; sc_max := max_of rs; sc_offset := length (frames rs);
     sc_corrupt := false |}.
Proof.
  intros Hfit. pose proof (frames_length rs) as Hl.
  pose proof (scan_frames (S (length (frames rs))) rs [] 0 st None) as H.
  rewrite app_nil_r in H. rewrite H by (done || lia). clear H.
  replace (S (length (frames rs)) - length rs)%nat with (S (length (frames rs) - length rs)) by lia.
  rewrite scan_torn by (by intros ?). done.
Qed.

Lemma scan_closed (d : Dir) (pre : list (Z * list WalRecord)) rest st closed :
  Forall (λ s : Z * list WalRecord, Forall fits s.2) pre →
  (∀ s rs, (s, rs) ∈ pre → ∃ f, d !! segment_path s = Some f ∧ f_data f = frames rs) →
  scan_segments d (pre.*1 ++ rest) st closed =
  scan_segments d rest (replayed st (concat pre.*2))
    (closed ++ ((λ s : Z * list WalRecord, (s.1, max_of s.2)) <$> pre)).
Proof.
  intros Hfit. revert st closed. induction Hfit as [|[s rs] pre Hrs _ IH]; intros st closed Hd.
  { cbn [fmap list_fmap Datatypes.app concat]. by rewrite app_nil_r. }
  destruct (Hd s rs) as (f & Hf & Hdata); [left|].
  cbn [fmap list_fmap fst snd Datatypes.app scan_segments]. rewrite Hf. cbn [mbind option_bind].
  rewrite Hdata, scan_full by done. cbn [sc_corrupt sc_state sc_max]. rewrite IH.
  - cbn [concat]. by rewrite replayed_app, <- app_assoc.
  - intros s' rs' Hin. apply Hd. by right.
Qed.

Lemma crash_layout dw pre recs j d' :
  layout dw pre recs j → crash dw.1 d' →
  (∀ name, is_Some (d' !! name) ↔ name ∈ segment_path <$> (pre.*1 ++ [active dw])) ∧
  (∀ s rs, (s, rs) ∈ pre →
     d' !! segment_path s = Some {| f_data := frames rs; f_synced := length (frames rs) |}) ∧
  ∃ n, d' !! segment_path (active dw) =
         Some {| f_data := take n (frames recs); f_synced := length (take n (frames recs)) |} ∧
    (length (frames (take j recs)) ≤ n)%nat.
Proof.
  intros Hl Hc.
  assert (∀ name f, dw.1 !! name = Some f → ∃ n, (f_synced f ≤ n ≤ length (f_data f))%nat ∧
    d' !! name = Some {| f_data := take n (f_data f); f_synced := length (take n (f_data f)) |}) as Hfile.
  { intros name f Hf. specialize (Hc name). rewrite Hf in Hc.
    destruct (d' !! name) as [f'|]; [|done]. destruct Hc as (n & Hn & ->). by exists n. }
  split_and!.
  - intros name. rewrite list_elem_of_fmap.
    transitivity (is_Some (dw.1 !! name)).
    { specialize (Hc name). destruct (dw.1 !! name), (d' !! name); split; intros []; eauto; done. }
    split.
    + intros Hs. destruct (ly_names _ _ _ _ Hl name Hs) as (s & ? & ->). eauto.
    + intros (s & -> & [Hs|Hs%list_elem_of_singleton]%elem_of_app).
      * apply list_elem_of_fmap in Hs as ([s' rs] & -> & Hs).
        cbn [fst]. rewrite (ly_closed_data _ _ _ _ Hl s' rs Hs). by eexists.
      * subst. rewrite (ly_active_data _ _ _ _ Hl). by eexists.
  - intros s rs Hs. destruct (Hfile _ _ (ly_closed_data _ _ _ _ Hl s rs Hs)) as (n & Hn & E).
    cbn [f_synced f_data] in *. by rewrite take_ge in E by lia.
  - destruct (Hfile _ _ (ly_active_data _ _ _ _ Hl)) as (n & Hn & E). exists n.
    cbn [f_synced f_data] in *. split; [done|lia].
Qed.

(** The same directory with the tail of the active segment cut to [recs']. *)
Lemma layout_cut dw dw' pre recs recs' j :
  layout dw pre recs j → Forall fits recs' →
  dw'.2 = {| w_segment := {| sg_seq := active dw; sg_bytes := Z.of_nat (length (frames recs'));
                             sg_max_index := max_of recs' |};
             w_closed := w_closed dw.2; w_state := w_state dw'.2 |} →
  (∀ name, is_Some (dw'.1 !! name) → name ∈ segment_path <$> (pre.*1 ++ [active dw])) →
  (∀ s rs, (s, rs) ∈ pre →
     dw'.1 !! segment_path s = Some {| f_data := frames rs; f_synced := length (frames rs) |}) →
  dw'.1 !! segment_path (active dw) =
    Some {| f_data := frames recs'; f_synced := length (frames recs') |} →
  layout dw' pre recs' (length recs').
Proof.
  intros Hl Hfit Hw Hnames Hclosed Hact.
  assert (active dw' = active dw) as Ha by by rewrite Hw.
  split; rewrite ?Ha; try apply Hl; try done.
  - intros name Hs. apply Hnames in Hs. apply list_elem_of_fmap in Hs as (s & -> & Hs). by exists s.
  - by rewrite take_ge by done.
  - by rewrite Hw.
  - by rewrite Hw.
  - rewrite Hw. apply (ly_closed _ _ _ _ Hl).
Qed.

Lemma chained_take a l rs b k :
  chained a (l ++ [rs]) b → l = [] ∨ take k rs ≠ [] → ∃ a' b', chained a' (l ++ [take k rs]) b'.
Proof.
  intros H Hk. apply chained_app in H as (m & H1 & H2).
  inversion H2 as [|p body segs p' Hb Hn|body segs p' Hb Hn]; subst.
  - destruct k as [|k].
    + destruct Hk as [->|Hk]; [|done]. exists (None, None), (None, None).
      apply chained_first; constructor.
    + exists a. eexists. apply chained_app. exists m. split; [done|]. cbn [take].
      constructor; [by apply Forall_take|constructor].
  - exists a. eexists. apply chained_app. eexists. split; [done|].
    constructor; [by apply Forall_take|constructor].
Qed.

Lemma closed_before dw pre recs j m :
  layout dw pre recs j →
  let closed := ((λ s : Z * list WalRecord, (s.1, max_of s.2)) <$> pre) ++ [(active dw, m)] in
  find_max closed (active dw) = m ∧ filter (λ c, c.1 ≠ active dw) closed = w_closed dw.2 ∧
  filter (λ c, c.1 ≤ active dw) closed = closed ∧
  filter (λ s, active dw < s) (pre.*1 ++ [active dw]) = [] ∧
  last (pre.*1 ++ [active dw]) = Some (active dw).
Proof.
  intros Hl closed. assert (Forall (λ c : Z * option Z, c.1 < active dw)
    ((λ s : Z * list WalRecord, (s.1, max_of s.2)) <$> pre)) as Hlt.
  { apply Forall_fmap, Forall_forall. intros s Hs. cbn.
    by apply (layout_lt dw pre recs j), list_elem_of_fmap_2. }
  unfold closed. rewrite !filter_app, last_snoc. split_and!.
  - unfold find_max. rewrite filter_app, filter_none; [|by eapply Forall_impl; [exact Hlt|]; cbn; lia].
    rewrite filter_cons_True by done. done.
  - rewrite filter_all; [|by eapply Forall_impl; [exact Hlt|]; cbn; lia].
    rewrite filter_cons_False by (intros []; done).
    rewrite (ly_closed _ _ _ _ Hl). apply app_nil_r.
  - rewrite !filter_all; [done|by repeat constructor|]. by eapply Forall_impl; [exact Hlt|]; cbn; lia.
  - rewrite !filter_none; [done|repeat constructor; lia|]. apply Forall_forall.
    intros s Hs. pose proof (layout_lt _ _ _ _ _ Hl Hs). lia.
  - done.
Qed.

(** What opens after a crash: the records of the closed segments and, of the active one,
    some that include those synced. *)
Lemma open_layout dw pre recs j d' :
  layout dw pre recs j → active dw < 2 ^ 64 → crash dw.1 d' →
  ∃ k, (j ≤ k ≤ length recs)%nat ∧
    wal_open d' = Some (<[segment_path (active dw) := {| f_data := frames (take k recs);
                          f_synced := length (frames (take k recs)) |}]> d',
      {| w_segment := {| sg_seq := active dw; sg_bytes := Z.of_nat (length (frames (take k recs)));
                         sg_max_index := max_of (take k recs) |};
         w_closed := w_closed dw.2;
         w_state := replayed (replayed ws_default (concat pre.*2)) (take k recs) |}).
Proof.
  intros Hl Hmax Hc. destruct (crash_layout _ _ _ _ _ Hl Hc) as (Hnames & Hclosed & n & Hf & Hn).
  pose proof (ly_sync _ _ _ _ Hl) as Hj.
  destruct (scan_prefix n recs (replayed ws_default (concat pre.*2)) (ly_fits _ _ _ _ Hl))
    as (k & b & Hb & Hk & Hmono & Hscan). exists k. split; [split; [by apply Hmono|done]|].
  destruct (closed_before dw pre recs j (max_of (take k recs)) Hl) as (Hfm & Hfc & Hfb & Hfs & Hlast).
  unfold wal_open. rewrite (segment_seqs_spec d' (pre.*1 ++ [active dw])); [|apply Hl| |done].
  2: { apply Forall_app. split.
       - rewrite Forall_forall. intros s Hs. pose proof (layout_lt _ _ _ _ _ Hl Hs). lia.
       - pose proof (layout_active _ _ _ _ Hl). by repeat constructor. }
  rewrite scan_closed; [|apply Hl|by eauto]. cbn [scan_segments]. rewrite Hf.
  cbn [mbind option_bind f_data]. rewrite Hscan. cbn [sc_corrupt sc_state sc_max sc_offset].
  unfold active_seq. rewrite Hlast, app_nil_l. case_bool_decide as Hbd; cbn [mbind option_bind].
  - rewrite (proj2 (Z.leb_le _ _) (Z.le_refl (active dw))), Hfb, Hfm, Hfc. unfold cut. rewrite Hfs.
    cbn [foldl]. rewrite lookup_alter_eq, Hf. cbn [fmap option_fmap option_map default f_data].
    unfold file_len. cbn [file_sync f_data].
    assert (take (length (frames (take k recs))) (take n (frames recs)) = frames (take k recs)) as ->.
    { by rewrite Hb, take_app_length. }
    do 2 f_equal. apply map_eq. intros name.
    destruct (decide (name = segment_path (active dw))) as [->|Hne];
      [by rewrite !lookup_insert_eq|by rewrite !lookup_insert_ne, lookup_alter_ne by done].
  - subst b. rewrite app_nil_r in Hb. rewrite Hfm, Hfc, Hf. cbn [default].
    unfold file_len. cbn [f_data]. by rewrite Hb.
Qed.

(** Whatever a crash leaves of the unsynced tail, the log opens in one of the states the
    invariant allows, and goes on from there if its newest segment kept its head. *)
Lemma open_inv dw S d' :
  wal_inv dw S → active dw < 2 ^ 64 → crash dw.1 d' →
  ∃ d2 w2, wal_open d' = Some (d2, w2) ∧ S (w_state w2) ∧
    (headed w2 → wal_inv (d2, w2) (λ st, st = w_state w2)).
Proof.
  intros (pre & recs & j & Hl & _ & (a & Hch) & HS) Hmax Hc.
  destruct (open_layout dw pre recs j d' Hl Hmax Hc) as (k & Hk & Eo).
  destruct (crash_layout _ _ _ _ _ Hl Hc) as (Hnames & Hclosed & _).
  eexists _, _. split; [exact Eo|]. cbn [w_state]. rewrite <- replayed_app.
  split; [by apply HS|]. intros Hh.
  exists pre, (take k recs), (length (take k recs)). cbn [snd w_state]. split_and!.
  - apply (layout_cut dw _ pre recs _ j Hl); cbn [fst snd w_state]; [by apply Forall_take, Hl|done|..].
    + intros name. destruct (decide (name = segment_path (active dw))) as [->|Hne].
      * intros _. apply list_elem_of_fmap_2, elem_of_app. right. by left.
      * rewrite lookup_insert_ne by done. apply Hnames.
    + intros s rs Hs. rewrite lookup_insert_ne; [by apply Hclosed|].
      apply not_eq_sym. eapply layout_path_ne; [exact Hl|]. by apply (list_elem_of_fmap_2' fst _ (s, rs)).
    + by rewrite lookup_insert_eq.
  - by rewrite concat_snoc_records.
  - destruct (chained_take _ _ _ _ k Hch) as (a' & b' & Hch').
    { destruct Hh as [Hh|Hh]; cbn in Hh.
      - rewrite (ly_closed _ _ _ _ Hl) in Hh. left. by apply fmap_nil_inv in Hh as ->.
      - right. intros E. by rewrite E in Hh. }
    exists a'. pose proof (ptrs_from_nothing _ _ _ Hch') as Hp.
    rewrite concat_snoc_records in Hp. rewrite Hp; [done|]. by destruct (pre.*2).
  - intros i Hi. by rewrite take_ge by lia.
Qed.

(** *** Crashes in the middle of a call *)

(** What opening after a crash at a state of the disk gives. *)
Definition opens (dw : Dir * Wal) (S : WalState → Prop) : Prop :=
  ∀ dir, active dw < 2 ^ 64 → crash dw.1 dir →
  ∃ d2 w2, wal_open dir = Some (d2, w2) ∧ S (w_state w2) ∧
    (headed w2 → wal_inv (d2, w2) (λ st, st = w_state w2)).

Lemma opens_inv dw S : wal_inv dw S → opens dw S.
Proof. intros Hi dir Hmax Hc. by eapply open_inv. Qed.

Lemma opens_weaken dw (S S' : WalState → Prop) : (∀ st, S st → S' st) → opens dw S → opens dw S'.
Proof.
  intros HS Ho dir Hmax Hc. destruct (Ho dir Hmax Hc) as (d2 & w2 & ? & ? & ?). exists d2, w2. auto.
Qed.

(** Only the files and the number of the active one matter. *)
Lemma opens_same dw dw' S : dw.1 = dw'.1 → active dw = active dw' → opens dw S → opens dw' S.
Proof. unfold opens. by intros -> ->. Qed.

(** What a crash leaves before a write it may also leave after it. *)
Lemma opens_before_write dw r S : opens (write_record dw r) S → opens dw S.
Proof.
  intros Ho dir Hmax Hc. apply Ho; [done|]. intros name. specialize (Hc name).
  cbn [write_record fst]. unfold on_active.
  destruct (decide (name = segment_path (active dw))) as [->|Hne];
    [|by rewrite lookup_alter_ne by done].
  rewrite lookup_alter_eq. destruct (dw.1 !! _) as [f|], (dir !! _) as [f'|]; try done.
  destruct Hc as (n & Hn & ->). exists n. cbn. rewrite length_app. split; [lia|].
  by rewrite take_app_le by lia.
Qed.

(** A record being appended is there afterwards or not. *)
Lemma append_opens dw S r dw' :
  wal_inv dw S → fits r → is_checkpoint r = false → (is_pointer r = true → ¬ rotates dw r) →
  dw' ∈ append_steps 2 dw r → opens dw' (λ st, S st ∨ st = ws_apply (w_state dw.2) r).
Proof.
  intros Hi Hfit Hcp Hptr Hin. pose proof (write_inv dw S r Hi Hfit Hcp) as Hw.
  destruct (log_record_inv dw S r Hi Hfit Hcp Hptr) as (dw2 & E & _ & Hi2 & _).
  unfold log_record, wal_append in E. cbn [append_fuel append_steps] in E, Hin.
  apply elem_of_cons in Hin as [->|Hin].
  { apply (opens_same (fold_record (write_record dw r) r)); [done..|]. by apply opens_inv. }
  destruct (SEGMENT_MAX_BYTES <=? sg_bytes (w_segment (write_record dw r).2)); [|by apply elem_of_nil in Hin].
  apply elem_of_cons in Hin as [->|Hin].
  { apply sync_inv in Hw. apply (opens_same (wal_sync (fold_record (write_record dw r) r))); [done..|].
    eapply opens_weaken; [|by apply opens_inv]. by intros st ->; right. }
  set (dw1 := next_segment (write_record dw r)) in *.
  assert (opens (write_record dw1 (checkpoint_of dw1.2)) (λ st, S st ∨ st = ws_apply (w_state dw.2) r)) as Ho.
  { destruct (SEGMENT_MAX_BYTES <=? sg_bytes _); [done|]. injection E as <-.
    eapply opens_same; [..|apply opens_inv, Hi2]; done. }
  apply elem_of_cons in Hin as [->|Hin]; [by eapply opens_before_write|].
  destruct (SEGMENT_MAX_BYTES <=? sg_bytes _) eqn:El.
  - exfalso. cbn [mbind option_bind] in E. done.
  - by apply list_elem_of_singleton in Hin as ->.
Qed.

Lemma entries_opens dw S es dw' :
  Forall fits (REntry <$> es) → wal_inv dw S → S (w_state dw.2) → dw' ∈ entries_steps dw es →
  opens dw' (λ st, S st ∨ ∃ k, st = replayed (w_state dw.2) (REntry <$> take k es)).
Proof.
  revert dw S. induction es as [|e es IH]; intros dw S Hfit Hi HS Hin; [by apply elem_of_nil in Hin|].
  apply Forall_cons in Hfit as [He Hfit]. cbn [entries_steps] in Hin.
  apply elem_of_app in Hin as [Hin|Hin].
  { eapply opens_weaken; [|by apply (append_opens dw S (REntry e))].
    intros st [?| ->]; [by left|]. right. by exists 1%nat. }
  destruct (log_record_inv dw S (REntry e) Hi He eq_refl) as (dw1 & E & Hst & Hi1 & _); [done|].
  rewrite E in Hin. eapply opens_weaken; [|apply (IH dw1 _ Hfit Hi1); [by right|exact Hin]].
  intros st [[?| ->]|[k ->]]; [by left|right; by exists 1%nat|].
  right. exists (Datatypes.S k). rewrite Hst. done.
Qed.

Lemma garbage_opens dw l dw1 dw' :
  wal_inv dw (λ st, st = w_state dw.2) → ¬ rotates dw (Purge l) → gc_prefix l (w_closed dw.2) →
  log_record dw (Purge l) = Some dw1 → dw' ∈ garbage_steps l (wal_sync dw1) →
  opens dw' (λ st, st = ws_apply (w_state dw.2) (Purge l)).
Proof.
  intros Hi Hrot (n & Ht & Hd) E Hin. destruct (garbage_prefix l dw n Ht Hd) as [_ Hn].
  apply list_elem_of_fmap in Hin as (i & -> & _).
  destruct (purged_inv dw l (min i n) Hi Hrot) as (dw2 & E2 & Hc & Hst & Hinv).
  { rewrite <- take_take. by apply Forall_take. }
  assert (dw2 = dw1) as -> by congruence. rewrite Hst in Hinv.
  eapply opens_same; [..|apply opens_inv, Hinv]; [|done].
  cbn [drop_oldest fst snd wal_sync]. by rewrite Hc, Ht, <- take_take.
Qed.

(** A log opened in an empty directory. *)
Lemma open_empty : ∃ dw, wal_open ∅ = Some dw ∧ wal_inv dw (λ st, st = w_state dw.2) ∧
  w_state dw.2 = ws_default.
Proof.
  unfold wal_open. rewrite (segment_seqs_spec ∅ []); [|constructor|constructor|].
  2: { intros name. rewrite lookup_empty. split; [by intros []|by intros ?%elem_of_nil]. }
  cbn [scan_segments mbind option_bind]. eexists. split; [done|]. split; [|done].
  exists [], [], 0%nat. split_and!; [|done| |].
  - unfold active_seq, find_max. cbn [last filter list_filter].
    split; cbn [fst snd w_segment w_closed sg_seq sg_bytes sg_max_index fmap list_fmap Datatypes.app].
    + by repeat constructor.
    + by repeat constructor.
    + intros name. destruct (decide (name = segment_path 0)) as [->|Hne].
      * intros _. exists 0. split; [left|done].
      * rewrite lookup_insert_ne, lookup_empty by done. by intros [].
    + by intros s rs ?%elem_of_nil.
    + by rewrite lookup_insert_eq, lookup_empty.
    + by rewrite lookup_empty.
    + done.
    + done.
    + done.
    + constructor.
    + constructor.
  - exists (None, None). cbn. apply chained_first; [constructor|]. cbn. constructor.
  - intros k _. cbn. by rewrite take_nil.
Qed.
End recovery.

(** *** The durable store *)

Section durable.
Context {RT : RaftTypes} {HO : HashOrder} {WC : WalCodec} {VC : VoteCodec}.

Lemma save_vote_file_lookup d v :
  save_vote_file d v !! vote_file =
    Some {| f_data := vote_encode v; f_synced := length (vote_encode v) |}.
Proof.
  unfold save_vote_file, vote_rename, vote_sync, vote_write, vote_create.
  rewrite !lookup_alter_eq, lookup_insert_eq. cbn [fmap option_fmap option_map].
  by rewrite lookup_insert_eq.
Qed.

Lemma insert_entries st es :
  ws_entries (replayed st (REntry <$> es)) =
    foldl (λ m e, <[lid_index (en_log_id e) := e]> m) (ws_entries st) es ∧
  ptrs_of (replayed st (REntry <$> es)) = ptrs_of st.
Proof.
  revert st. induction es as [|e es IH]; intros st; [done|].
  destruct (IH (ws_apply st (REntry e))) as [H1 H2]. split; [exact H1|exact H2].
Qed.

(** What a running store keeps true. *)
Record store_inv (l : WalLogStore) : Prop := {
  si_wal : wal_inv (wl_wal l) (λ st, st = w_state (wl_wal l).2);
  si_vote : read_vote_file (wl_files l) = wl_vote l;
  si_synced : ∀ f, wl_files l !! vote_file = Some f → f_synced f = length (f_data f);
}.

Lemma view_append l es dw :
  w_state dw.2 = replayed (w_state (wl_wal l).2) (REntry <$> es) →
  view (with_wal l dw) = ls_append (view l) es.
Proof.
  intros Hst. destruct (insert_entries (w_state (wl_wal l).2) es) as [He Hp].
  rewrite <- Hst in He, Hp. injection Hp as Hp Hc.
  unfold view, ls_append, wl_entries, wl_read_committed. cbn. by rewrite He, Hp, Hc.
Qed.

(** A safe operation succeeds and does what the in-memory store does. *)
Lemma wl_exec_spec l op :
  store_inv l → op_safe l op →
  ∃ l', wl_exec l op = Some l' ∧ store_inv l' ∧ view l' = ls_exec (view l) op.
Proof.
  intros [Hw Hv Hs] Hsafe.
  assert (∀ dw, wal_inv dw (λ st, st = w_state dw.2) → store_inv (with_wal l dw)) as Hinv.
  { intros dw Hd. split; [exact Hd|exact Hv|exact Hs]. }
  destruct op as [v|c|es|i|i]; cbn [wl_exec ls_exec op_safe] in *.
  - eexists. split; [done|]. split; [|done]. split; [exact Hw| |].
    + unfold read_vote_file. cbn [wl_save_vote wl_files]. rewrite save_vote_file_lookup.
      cbn [f_data]. apply vote_roundtrip.
    + intros f. cbn [wl_save_vote wl_files]. rewrite save_vote_file_lookup. by intros [= <-].
  - destruct (log_record_inv (wl_wal l) _ (Committed c) Hw (marker_fits (Committed c) eq_refl)
      eq_refl) as (dw & E & Hst & Hi & _); [done|].
    unfold wl_save_committed, wal_save_committed. rewrite E. cbn [fmap option_fmap option_map].
    eexists. split; [done|]. split; [exact (Hinv (wal_sync dw) (sync_inv _ _ Hi))|].
    unfold view, save_committed, wl_entries, wl_read_committed. cbn. by rewrite Hst.
  - destruct (write_entries_inv (wl_wal l) _ es Hsafe Hw eq_refl) as (dw & E & Hst & Hi).
    unfold wl_append, append_entries. rewrite E. cbn [fmap option_fmap option_map].
    eexists. split; [done|]. split; [exact (Hinv (wal_sync dw) (sync_inv _ _ Hi))|]. by apply view_append.
  - destruct (log_record_inv (wl_wal l) _ (TruncateFrom (lid_index i)) Hw
      (marker_fits (TruncateFrom (lid_index i)) eq_refl) eq_refl) as (dw & E & Hst & Hi & _); [done|].
    unfold wl_truncate, truncate_from. rewrite E. cbn [fmap option_fmap option_map].
    eexists. split; [done|]. split; [exact (Hinv (wal_sync dw) (sync_inv _ _ Hi))|].
    unfold view, ls_truncate, wl_entries, wl_read_committed. cbn. by rewrite Hst.
  - destruct Hsafe as [Hrot Hgc]. destruct (purge_inv (wl_wal l) i Hw Hrot Hgc) as (dw & E & Hst & Hi).
    unfold wl_purge. rewrite E. cbn [fmap option_fmap option_map].
    eexists. split; [done|]. split; [by apply Hinv|].
    unfold view, ls_purge, wl_entries, wl_read_committed. cbn. by rewrite Hst.
Qed.

(** *** Reopening after a crash *)

(** The vote file before it is replaced. *)
Lemma vote_unreplaced d v step :
  step ∈ [d; vote_create d; vote_write v (vote_create d); vote_sync (vote_write v (vote_create d))] →
  step !! vote_file = d !! vote_file.
Proof.
  rewrite !elem_of_cons. unfold vote_sync, vote_write, vote_create.
  intros [->|[->|[->|[->|Hin%elem_of_nil]]]]; [done| | | |done];
    rewrite ?lookup_alter_ne, ?lookup_insert_ne; done.
Qed.

Definition vote_synced (d : Dir) : Prop :=
  ∀ f, d !! vote_file = Some f → f_synced f = length (f_data f).

(** A synced vote survives a crash, and is synced afterwards. *)
Lemma crash_vote d d' :
  vote_synced d → crash d d' → read_vote_file d' = read_vote_file d ∧ vote_synced d'.
Proof.
  intros Hs Hc. specialize (Hc vote_file). unfold read_vote_file, vote_synced in *.
  destruct (d !! vote_file) as [f|], (d' !! vote_file) as [f'|]; try done.
  destruct Hc as (n & Hn & ->). rewrite (Hs f eq_refl) in Hn. cbn. split; [by rewrite take_ge by lia|].
  by intros ? [= <-].
Qed.

Lemma reopen_at dw S d dir files :
  opens dw S → sg_seq (w_segment dw.2) < 2 ^ 64 → vote_synced d → crash dw.1 dir → crash d files →
  ∃ l', wl_open dir files = Some l' ∧ S (w_state (wl_wal l').2) ∧ wl_vote l' = read_vote_file d ∧
    (headed (wl_wal l').2 → store_inv l').
Proof.
  intros Ho Hmax Hs Hc Hcf. destruct (Ho dir Hmax Hc) as (d2 & w2 & Eo & HS & Hgo).
  destruct (crash_vote d files Hs Hcf) as [Hv Hs'].
  unfold wl_open. rewrite Eo. cbn [mbind option_bind]. eexists. split; [done|].
  split; [exact HS|]. split; [exact Hv|]. intros Hh. split; [by apply Hgo|done|exact Hs'].
Qed.

Lemma ls_append_nil m : ls_append m [] = m.
Proof. by destruct m. Qed.

(** The calls that write one record. *)
Definition op_record (op : log_op) : option WalRecord :=
  match op with
  | OpCommitted c => Some (Committed c)
  | OpTruncate i => Some (TruncateFrom (lid_index i))
  | OpPurge i => Some (Purge i)
  | _ => None
  end.

Lemma view_part l l' op r :
  op_record op = Some r → wl_vote l' = wl_vote l →
  w_state (wl_wal l').2 = w_state (wl_wal l).2 ∨
    w_state (wl_wal l').2 = ws_apply (w_state (wl_wal l).2) r →
  ∃ op', part_of op op' ∧ view l' = ls_exec (view l) op'.
Proof.
  intros Hr Hv [Hst|Hst].
  - exists (OpAppend []). split; [constructor|]. cbn [ls_exec]. rewrite ls_append_nil.
    unfold view, wl_entries, wl_read_committed. by rewrite Hst, Hv.
  - exists op. split; [constructor|]. unfold view, wl_entries, wl_read_committed. rewrite Hst, Hv.
    by destruct op; try done; injection Hr as <-.
Qed.

(** The states of the log a call goes through open at a part of it. *)
Lemma record_reopens l op r dw d dir files :
  store_inv l → op_safe l op → op_record op = Some r → (dw, d) ∈ call_steps l op →
  sg_seq (w_segment dw.2) < 2 ^ 64 → crash dw.1 dir → crash d files →
  ∃ l' op', wl_open dir files = Some l' ∧ part_of op op' ∧ view l' = ls_exec (view l) op' ∧
    (headed (wl_wal l').2 → store_inv l').
Proof.
  intros [Hi Hv Hs] Hsafe Hr Hin Hmax Hc Hcf.
  assert (d = wl_files l ∧ opens dw (λ st, st = w_state (wl_wal l).2 ∨
    st = ws_apply (w_state (wl_wal l).2) r)) as [-> Ho].
  { assert (∀ dw', dw' ∈ append_steps 2 (wl_wal l) r → opens dw' (λ st, st = w_state (wl_wal l).2 ∨
      st = ws_apply (w_state (wl_wal l).2) r)) as Happ.
    { intros dw' Hdw. assert (is_entry r = false ∧ is_checkpoint r = false ∧
        (is_pointer r = true → ¬ rotates (wl_wal l) r)) as (He & Hcp & Hp).
      { destruct op; try done; injection Hr as <-; split_and!; try done. by destruct Hsafe. }
      apply append_opens; [done|by apply marker_fits|done..]. }
    unfold call_steps in Hin. apply elem_of_cons in Hin as [[= -> ->]|Hin].
    { split; [done|]. eapply opens_weaken; [|by apply opens_inv]. auto. }
    destruct op as [v|c|es|i|i]; try done; injection Hr as <-.
    - apply list_elem_of_fmap in Hin as (dw' & [= -> ->] & Hin). auto.
    - apply list_elem_of_fmap in Hin as (dw' & [= -> ->] & Hin). auto.
    - apply elem_of_app in Hin as [Hin|Hin].
      { apply list_elem_of_fmap in Hin as (dw' & [= -> ->] & Hin). auto. }
      destruct Hsafe as [Hrot Hgc]. destruct (log_record _ _) as [dw1|] eqn:E; [|by apply elem_of_nil in Hin].
      apply list_elem_of_fmap in Hin as (dw' & [= -> ->] & Hin). split; [done|].
      eapply opens_weaken; [|by eapply garbage_opens]. auto. }
  destruct (reopen_at dw _ (wl_files l) dir files Ho Hmax Hs Hc Hcf) as (l' & Eo & HS & Hvl & Hgo).
  destruct (view_part l l' op r Hr) as (op' & Hp & E); [congruence|done|]. by exists l', op'.
Qed.

Lemma entries_reopen l es dw d dir files :
  store_inv l → op_safe l (OpAppend es) → (dw, d) ∈ call_steps l (OpAppend es) →
  sg_seq (w_segment dw.2) < 2 ^ 64 → crash dw.1 dir → crash d files →
  ∃ l' op', wl_open dir files = Some l' ∧ part_of (OpAppend es) op' ∧
    view l' = ls_exec (view l) op' ∧ (headed (wl_wal l').2 → store_inv l').
Proof.
  intros [Hi Hv Hs] Hsafe Hin Hmax Hc Hcf.
  assert (d = wl_files l ∧ opens dw (λ st, ∃ k,
    st = replayed (w_state (wl_wal l).2) (REntry <$> take k es))) as [-> Ho].
  { unfold call_steps in Hin. apply elem_of_cons in Hin as [[= -> ->]|Hin].
    - split; [done|]. eapply opens_weaken; [|by apply opens_inv]. intros st ->. by exists 0%nat.
    - apply list_elem_of_fmap in Hin as (dw' & [= -> ->] & Hin). split; [done|].
      eapply opens_weaken; [|by eapply (entries_opens (wl_wal l))]. cbn beta.
      intros st [->|?]; [by exists 0%nat|done]. }
  destruct (reopen_at dw _ (wl_files l) dir files Ho Hmax Hs Hc Hcf) as (l' & Eo & [k HS] & Hvl & Hgo).
  exists l', (OpAppend (take k es)). split_and!; [done|constructor| |done].
  cbn [ls_exec]. rewrite <- (view_append l (take k es) (wl_wal l') HS).
  unfold view. cbn. by rewrite Hvl, Hv.
Qed.

Lemma vote_reopens l v dw d dir files :
  store_inv l → (dw, d) ∈ call_steps l (OpVote v) →
  sg_seq (w_segment dw.2) < 2 ^ 64 → crash dw.1 dir → crash d files →
  ∃ l' op', wl_open dir files = Some l' ∧ part_of (OpVote v) op' ∧
    view l' = ls_exec (view l) op' ∧ (headed (wl_wal l').2 → store_inv l').
Proof.
  intros [Hi Hv Hs] Hin Hmax Hc Hcf.
  assert (dw = wl_wal l ∧ (d !! vote_file = wl_files l !! vote_file ∨ d = save_vote_file (wl_files l) v))
    as [-> Hd].
  { unfold call_steps in Hin. rewrite !fmap_cons, !elem_of_cons in Hin.
    destruct Hin as [[= -> ->]|[[= -> ->]|[[= -> ->]|[[= -> ->]|[[= -> ->]|Hin%elem_of_nil]]]]];
      (split; [done|]);
      first [by right|left; apply (vote_unreplaced _ v); rewrite !elem_of_cons; tauto]. }
  assert (vote_synced d ∧ (read_vote_file d = wl_vote l ∨ read_vote_file d = Some v)) as [Hsd Hrd].
  { unfold vote_synced, read_vote_file in *. destruct Hd as [->| ->]; [by auto|].
    rewrite save_vote_file_lookup. cbn [f_data]. rewrite vote_roundtrip. split; [by intros ? [= <-]|auto]. }
  destruct (reopen_at (wl_wal l) _ d dir files (opens_inv _ _ Hi) Hmax Hsd Hc Hcf)
    as (l' & Eo & HS & Hvl & Hgo).
  exists l'. destruct Hrd as [Hrd|Hrd].
  - exists (OpAppend []). split_and!; [done|constructor| |done]. cbn [ls_exec]. rewrite ls_append_nil.
    unfold view, wl_entries, wl_read_committed. by rewrite HS, Hvl, Hrd.
  - exists (OpVote v). split_and!; [done|constructor| |done].
    unfold view, wl_entries, wl_read_committed. cbn. by rewrite HS, Hvl, Hrd.
Qed.

(** Opening after a crash in the middle of a safe call: the store is what it was, with some
    part of the call done. *)
Lemma reopen_inv l op dir files :
  store_inv l → crash_during l op dir files →
  ∃ l' op', wl_open dir files = Some l' ∧ part_of op op' ∧ view l' = ls_exec (view l) op' ∧
    (headed (wl_wal l').2 → store_inv l').
Proof.
  intros Hi (Hsafe & dw & d & Hin & Hmax & Hc & Hcf). destruct op as [v|c|es|i|i].
  - by eapply vote_reopens.
  - by eapply record_reopens.
  - by eapply entries_reopen.
  - by eapply record_reopens.
  - by eapply record_reopens.
Qed.

Lemma run_inv ops l :
  durable_run ops l → store_inv l ∧ view l = foldl ls_exec ls_default ops.
Proof.
  induction 1 as [l Hl|ops l op l' Hrun [Hi Hv] Hsafe E
                 |ops l op dir files l' op' Hrun [Hi Hv] Hc Eo Hh Hp Hk].
  - destruct open_empty as (dw & Edw & Hi & Hst). unfold wl_open in Hl.
    rewrite Edw in Hl. injection Hl as <-. split; [split; [exact Hi|done|]|].
    + cbn. intros f Hf. by rewrite lookup_empty in Hf.
    + unfold view, wl_entries, wl_read_committed. cbn. by rewrite Hst.
  - destruct (wl_exec_spec l op Hi Hsafe) as (l1 & E1 & Hi1 & Hv1).
    assert (l1 = l') as -> by congruence. by rewrite foldl_snoc, <- Hv.
  - destruct (reopen_inv l op dir files Hi Hc) as (l1 & op1 & E1 & _ & _ & Hi1).
    assert (l1 = l') as -> by congruence. split; [by apply Hi1|]. by rewrite foldl_snoc, <- Hv.
Qed.
End durable.

(** ** Properties *)

Section properties.
Context {RT : RaftTypes} {HO : HashOrder} {WC : WalCodec} {VC : VoteCodec}.

(** C25: the durable log store is the in-memory one, on runs that keep its conditions. Over
    any run of calls, of crashes anywhere in them and of reopenings, in which purges delete
    the oldest segments and none in between, no pointer record fills a segment, and no
    reopening finds a newest segment that lost its checkpoint: no call panics or fails,
    every read (entries, log state, vote, committed pointer) answers as the in-memory store
    would after the same calls, and the next safe call succeeds too. The code does not keep
    the conditions by itself ([gc_resurrects_truncated], [headless_segment_loses_committed]). *)
Theorem durable_refines (ops : list log_op) (l : WalLogStore) (H : durable_run ops l) :
  let m := foldl ls_exec ls_default ops in
  (∀ lo hi, wl_try_get_log_entries l lo hi = try_get_log_entries m lo hi) ∧
  wl_get_log_state l = get_log_state m ∧ wl_read_vote l = read_vote m ∧
  wl_read_committed l = read_committed m ∧
  ∀ op, op_safe l op → ∃ l', wl_exec l op = Some l'.
Proof.
  destruct (run_inv ops l H) as [Hi Hv]. rewrite <- Hv. split_and!; try done.
  intros op Hop. destruct (wl_exec_spec l op Hi Hop) as (l' & E & _). by exists l'.
Qed.

(** C24: what was acknowledged survives a crash. Cut a run as in [durable_refines], itself
    with crashes in it, short at any step of a further call: while the frame of a record is
    written, between the steps of a rotation, between two entries of a batch, before the
    sync, between two deletions of a purge, between the steps of replacing the vote; and let
    the crash keep any prefix of what was not synced, torn anywhere. Reopening succeeds, and
    finds exactly the state of the in-memory store after every acknowledged call and a part
    of the interrupted one: nothing, all of it, or a prefix of the entries it appended.
    (Segment numbers are below 2^64.) *)
Theorem durable_recovers (ops : list log_op) (l : WalLogStore) (op : log_op)
    (dir files : Dir) (H : durable_run ops l) (Hc : crash_during l op dir files) :
  ∃ l' op', wl_open dir files = Some l' ∧ part_of op op' ∧
    view l' = ls_exec (foldl ls_exec ls_default ops) op'.
Proof.
  destruct (run_inv ops l H) as [Hi <-].
  destruct (reopen_inv l op dir files Hi Hc) as (l' & op' & E & Hp & Hv & _). by exists l', op'.
Qed.

(** C26: a vote is never lost or torn. Whatever step of [save_vote] a crash interrupts, the
    vote read back is the old one or the new one, and once the call has returned it is
    the new one. *)
Theorem vote_atomic (d d' : Dir) (v : vote)
    (Hs : ∀ f, d !! vote_file = Some f → f_synced f = length (f_data f)) :
  (∀ step, step ∈ [d; vote_create d; vote_write v (vote_create d);
                   vote_sync (vote_write v (vote_create d))] →
     crash step d' → read_vote_file d' = read_vote_file d) ∧
  (crash (save_vote_file d v) d' → read_vote_file d' = Some v).
Proof.
  split.
  - intros step Hin Hc. pose proof (vote_unreplaced _ _ _ Hin) as E.
    assert (vote_synced step) as Hs' by (intros f; rewrite E; apply Hs).
    destruct (crash_vote step d' Hs' Hc) as [-> _]. unfold read_vote_file. by rewrite E.
  - intros Hc. assert (vote_synced (save_vote_file d v)) as Hs'.
    { intros f. rewrite save_vote_file_lookup. by intros [= <-]. }
    destruct (crash_vote _ d' Hs' Hc) as [-> _]. unfold read_vote_file.
    rewrite save_vote_file_lookup. apply vote_roundtrip.
Qed.

End properties.

(** ** Examples and witnesses *)

#[local] Existing Instances plain_raft canonical_order.

(** A plain codec: a tag, then the fields. *)
Definition id_bytes (l : LogId) : bytes := [(lid_leader l : Z); lid_index l].
Definition opt_bytes (l : option LogId) : bytes :=
  match l with Some l => 1 :: id_bytes l | None => [0; 0; 0] end.

Definition payload_bytes (p : EntryPayload) : bytes :=
  match p with Blank => [0] | Normal b => 1 :: b | Membership m => 2 :: (m : list Z) end.

Definition record_bytes (r : WalRecord) : bytes :=
  match r with
  | REntry e => 0 :: id_bytes (en_log_id e) ++ payload_bytes (en_payload e)
  | TruncateFrom i => [1; i]
  | Purge l => 2 :: id_bytes l
  | Committed c => 3 :: opt_bytes c
  | Checkpoint p c => 4 :: opt_bytes p ++ opt_bytes c
  end.

Definition opt_id (tag leader index : Z) : option LogId :=
  if tag =? 1 then Some {| lid_leader := leader : leader_id; lid_index := index |} else None.

Definition bytes_payload (b : bytes) : option EntryPayload :=
  match b with
  | t :: p => Some (if t =? 1 then Normal p else if t =? 2 then Membership (p : membership) else Blank)
  | [] => None
  end.

Definition bytes_record (b : bytes) : option WalRecord :=
  match b with
  | [] => None
  | t :: b =>
      if t =? 0 then
        match b with
        | l :: i :: p =>
            payload ← bytes_payload p;
            Some (REntry {| en_log_id := {| lid_leader := l : leader_id; lid_index := i |};
                            en_payload := payload |})
        | _ => None
        end
      else if t =? 1 then match b with [i] => Some (TruncateFrom i) | _ => None end
      else if t =? 2 then
        match b with
        | [l; i] => Some (Purge {| lid_leader := l : leader_id; lid_index := i |})
        | _ => None
        end
      else if t =? 3 then match b with [a; l; i] => Some (Committed (opt_id a l i)) | _ => None end
      else match b with
           | [a; l; i; a'; l'; i'] => Some (Checkpoint (opt_id a l i) (opt_id a' l' i'))
           | _ => None
           end
  end.

Lemma bytes_record_bytes r : bytes_record (record_bytes r) = Some r.
Proof.
  destruct r as [[[l i] p]|i|[l i]|[[l i]|]|[[l i]|] [[l' i']|]]; try done. by destruct p.
Qed.

Lemma marker_short r :
  is_entry r = false → Z.of_nat (length (record_bytes r)) + 8 < SEGMENT_MAX_BYTES.
Proof. by destruct r as [e|i|l|[l|]|[l|] [l'|]]. Qed.

Lemma zero_crc_range (b : bytes) : 0 ≤ 0 < 2 ^ 32.
Proof. lia. Qed.

Definition plain_wal_codec : WalCodec :=
  {| wal_encode := record_bytes; wal_decode := bytes_record; crc32 := λ _, 0;
     wal_roundtrip := bytes_record_bytes; crc32_range := zero_crc_range;
     marker_small := marker_short |}.

Definition plain_vote_codec : VoteCodec :=
  {| vote_encode := λ v, [v : Z]; vote_decode := λ b, match b with [v] => Some v | _ => None end;
     vote_roundtrip := λ v, eq_refl |}.

#[local] Existing Instances plain_wal_codec plain_vote_codec.

Definition entry_at (i : Z) : Entry :=
  {| en_log_id := {| lid_leader := 1 : leader_id; lid_index := i |}; en_payload := Blank |}.

Definition segment_file (rs : list WalRecord) (garbage : bytes) : File :=
  file_sync {| f_data := frames rs ++ garbage; f_synced := 0 |}.

Definition keys_of (dw : Dir * Wal) : list Z := (bt_iter (ws_entries (w_state dw.2))).*1.

(** Entries 5 and 6 were truncated by a marker that sits in the next segment. *)
Definition truncated_dir (garbage : bytes) : Dir :=
  <[segment_path 0 := segment_file (REntry <$> (entry_at <$> [1; 2; 3; 4; 5; 6])) []]>
  (<[segment_path 1 := segment_file [Checkpoint None None; TruncateFrom 5] garbage]>
  {[segment_path 2 := segment_file [Checkpoint None None] []]}).

(** Deleting a closed segment that holds only markers, while an older one stays, brings
    truncated entries back: a purge at index 2 deletes the segment with the truncation
    and keeps the one with the entries it truncated. *)
Example gc_resurrects_truncated :
  (dw ← wal_open (truncated_dir []);
   dw' ← wal_purge dw (en_log_id (entry_at 2));
   dw'' ← wal_open dw'.1;
   Some (keys_of dw, keys_of dw', keys_of dw'')) =
  Some ([1; 2; 3; 4], [3; 4], [3; 4; 5; 6]).
Proof. vm_compute. reflexivity. Qed.

(** After corruption before the last segment, the log reopens at segment 0 although older
    records of segment 1 replay after it: the entries acknowledged next do not survive
    the following restart. *)
Example midlog_corruption_loses_acknowledged :
  (dw ← wal_open (truncated_dir [255]);
   dw' ← append_entries dw [entry_at 5];
   dw'' ← wal_open dw'.1;
   Some (sg_seq (w_segment dw.2), keys_of dw', keys_of dw'')) =
  Some (0, [1; 2; 3; 4; 5], [1; 2; 3; 4]).
Proof. vm_compute. reflexivity. Qed.

(** A crash between creating a segment and syncing the checkpoint that heads it leaves the
    newest segment without its head. It is used as it is, so a purge that deletes the older
    segments loses the committed pointer, which no record restates any more. *)
Definition headless_dir : Dir :=
  <[segment_path 0 := segment_file [Committed (Some (en_log_id (entry_at 1))); REntry (entry_at 1)] []]>
  {[segment_path 1 := segment_file [] []]}.

Example headless_segment_loses_committed :
  (dw ← wal_open headless_dir;
   dw' ← wal_purge dw (en_log_id (entry_at 1));
   dw'' ← wal_open dw'.1;
   Some (ws_committed (w_state dw.2), ws_committed (w_state dw'.2), ws_committed (w_state dw''.2))) =
  Some (Some (en_log_id (entry_at 1)), Some (en_log_id (entry_at 1)), None).
Proof. vm_compute. reflexivity. Qed.

(** The run that opens an empty directory and appends one entry. *)
Definition opened : WalLogStore :=
  {| wl_wal := (<[segment_path 0 := file_new]> ∅,
                {| w_segment := {| sg_seq := 0; sg_bytes := 0; sg_max_index := None |};
                   w_closed := []; w_state := ws_default |});
     wl_files := ∅; wl_vote := None |}.

Lemma opened_run : durable_run [] opened.
Proof. apply run_open. reflexivity. Qed.

Lemma durable_refines_witness :
  ∃ l', durable_run [OpAppend [entry_at 1]] l' ∧ wl_read_committed l' = None.
Proof.
  destruct (durable_refines [] opened opened_run) as (_ & _ & _ & _ & Hnext).
  destruct (Hnext (OpAppend [entry_at 1])) as [l' E].
  { repeat constructor. }
  exists l'. split; [exact (run_op [] opened (OpAppend [entry_at 1]) l' opened_run
    ltac:(repeat constructor) E)|].
  injection E as <-. reflexivity.
Defined.

(** A crash in the middle of writing a truncation, after an entry was acknowledged: the entry's
    twelve bytes and nine of the marker reach the disk. *)
Definition one_appended : WalLogStore := default opened (wl_append opened [entry_at 1]).

Definition torn_at (n : nat) (rs : list WalRecord) : Dir :=
  {[segment_path 0 := file_sync {| f_data := take n (frames rs); f_synced := 0 |}]}.

Definition torn_dir : Dir := torn_at 21 [REntry (entry_at 1); TruncateFrom 1].

(** A crash of a directory with one file. *)
Lemma torn_crash p b k n :
  (k ≤ n ≤ length b)%nat →
  crash {[p := {| f_data := b; f_synced := k |}]} {[p := file_sync {| f_data := take n b; f_synced := 0 |}]}.
Proof.
  intros Hn name. destruct (decide (name = p)) as [->|Hne].
  - rewrite !lookup_singleton_eq. by exists n.
  - by rewrite !lookup_singleton_ne by done.
Qed.

Lemma synced_crash p f : crash {[p := file_sync f]} {[p := file_sync f]}.
Proof.
  pose proof (torn_crash p (f_data f) (length (f_data f)) (length (f_data f))) as H.
  rewrite take_ge in H by done. by apply H.
Qed.

Lemma empty_crash : crash ∅ ∅.
Proof. intros name. by rewrite lookup_empty. Qed.

Lemma durable_recovers_witness :
  ∃ l' op', wl_open torn_dir ∅ = Some l' ∧ part_of (OpTruncate (en_log_id (entry_at 1))) op' ∧
    view l' = ls_exec (ls_append ls_default [entry_at 1]) op'.
Proof.
  apply (durable_recovers [OpAppend [entry_at 1]] one_appended (OpTruncate (en_log_id (entry_at 1)))
    torn_dir ∅).
  - exact (run_op [] opened (OpAppend [entry_at 1]) one_appended opened_run
      ltac:(repeat constructor) eq_refl).
  - split; [exact I|]. exists (write_record (wl_wal one_appended) (TruncateFrom 1)), ∅.
    split; [right; left|]. split; [reflexivity|]. split; [|apply empty_crash].
    assert ((write_record (wl_wal one_appended) (TruncateFrom 1)).1 =
      {[segment_path 0 := {| f_data := frames [REntry (entry_at 1); TruncateFrom 1]; f_synced := 12 |}]})
      as -> by (vm_compute; reflexivity).
    apply torn_crash. split; vm_compute; lia.
Defined.

Definition seven : vote := (7 : @vote plain_raft).

Lemma vote_atomic_witness :
  read_vote_file (save_vote_file ∅ seven) = Some seven.
Proof.
  apply (proj2 (vote_atomic ∅ (save_vote_file ∅ seven) seven
    ltac:(intros f H; rewrite lookup_empty in H; discriminate H))).
  intros name. destruct (decide (name = vote_file)) as [->|Hne].
  - rewrite save_vote_file_lookup. exists 1%nat. split; [split; vm_compute; lia|reflexivity].
  - assert (save_vote_file ∅ seven !! name = None) as ->; [|exact I].
    change (save_vote_file ∅ seven) with
      (<[vote_file := {| f_data := [7]; f_synced := 1 |}]> (∅ : Dir)).
    rewrite lookup_insert_ne by (intros E; apply Hne; symmetry; exact E). apply lookup_empty.
Defined.
