(* ===== verification/Member.v ===== *)
(** * A durable raft member

    What a shard node or a coordinator with a data directory opens for its raft node
    ([crates/shard-node/src/main.rs], [crates/coordinator/src/control.rs]): the durable log
    of [Wal] and the snapshotting state machine of [RaftStorage], whose disks a crash
    leaves independently. The calls openraft makes on them, and what it promises of those
    calls, are the rules of [member_run]; the theorem is that log and snapshots together
    always reach everything committed, with or without the snapshot tier of [S3]. *)

From S2P Require Export Wal.

(** ** The member *)

Section member.
Context {RT : RaftTypes} {SA : StateMachineApp} {HO : HashOrder} {SC : SnapshotCodec}
  {WC : WalCodec} {VC : VoteCodec}.

Record Member := { mb_log : WalLogStore; mb_sm : StateMachineStore }.

(** What a process opens before it constructs its raft node: the log and the vote of its
    data directory, and the state machine over its snapshots. *)
Definition member_open (s : seed) (wal_dir files : Dir) (snapshots : gmap string bytes)
    (s3 : option (option bytes)) (w : Write) : option Member :=
  l ← wl_open wal_dir files;
  sm ← open_durable s app_new snapshots s3 w;
  Some {| mb_log := l; mb_sm := sm |}.

Definition with_log (m : Member) (l : WalLogStore) : Member := {| mb_log := l; mb_sm := mb_sm m |}.
Definition with_sm (m : Member) (sm : StateMachineStore) : Member :=
  {| mb_log := mb_log m; mb_sm := sm |}.

(** ** Specification *)

Context (L : list Entry).

(** The log holds the committed entries from position [p] up to position [c]. *)
Definition window (m : LogStore) (p c : nat) : Prop :=
  ∀ i, (p ≤ i < c)%nat → ls_log m !! Z.of_nat i = L !! i.

(** What the consensus library promises of its calls on the log store: entries known to be
    committed are neither overwritten with others nor truncated, and a purge only covers
    what the current snapshot does. *)
Definition promised (c : nat) (m : Member) (op : log_op) : Prop :=
  match op with
  | OpAppend es => ∀ e i, e ∈ es → lid_index (en_log_id e) = Z.of_nat i → (i < c)%nat → L !! i = Some e
  | OpTruncate id => Z.of_nat c ≤ lid_index id
  | OpPurge id => ∃ snap sid, get_current_snapshot (mb_sm m) = Some snap ∧
      me_last_log_id (ss_meta snap) = Some sid ∧ lid_index id ≤ lid_index sid
  | OpVote _ | OpCommitted _ => True
  end.

(** The snapshot files a crash finds: those there were, also when it falls before the rename
    of a snapshot being built or installed, with what its temporary file then holds. A crash
    after the rename, in the clean-up, is one after a build or an install that removed only
    some of the files. *)
Inductive left_behind (s : seed) (m : Member) : gmap string bytes → Prop :=
| left_idle files : sm_dir (mb_sm m) = Some files → left_behind s m files
| left_building data part files :
    dumped L s (mb_sm m) data →
    sm_dir (build_finish (mb_sm m) data (WriteFailed (Some part))).1.1 = Some files →
    left_behind s m files
| left_installing s2 sm2 snap part sm files :
    replica L s2 sm2 → get_current_snapshot sm2 = Some snap →
    install_snapshot s (mb_sm m) (ss_meta snap) (ss_data snap) (WriteFailed (Some part)) = Some sm →
    sm_dir sm = Some files → left_behind s m files.

(** The states of a member that knows the first [c] entries of [L] to be committed: it
    opens an empty data directory, serves the calls of the library on its log, learns of
    further commits once its log holds them, applies committed entries, builds snapshots,
    installs those of other members that are ahead, and reopens after a crash in the middle
    of a call on its log, of a build or of an install. Whenever it opens without a snapshot
    it may take one from the tier. The write of a snapshot does not fail; its clean-up may. *)
Inductive member_run : seed → nat → Member → Prop :=
| mr_start s s3 removed c m :
    tier L s3 → member_open s ∅ ∅ ∅ s3 (WriteOk removed) = Some m →
    sm_last_applied (mb_sm m) = lid_at L c → (c ≤ length L)%nat → member_run s c m
| mr_log s c m op l :
    member_run s c m → op_safe (mb_log m) op → promised c m op → wl_exec (mb_log m) op = Some l →
    member_run s c (with_log m l)
| mr_commit s c c' m :
    member_run s c m → (c' ≤ length L)%nat → window (view (mb_log m)) c c' → (c ≤ c')%nat →
    member_run s c' m
| mr_apply s c m n k sm replies :
    member_run s c m → sm_last_applied (mb_sm m) = lid_at L n → (n ≤ n + k ≤ c)%nat →
    sm_apply s (mb_sm m) (take k (drop n L)) = Some (sm, replies) → member_run s c (with_sm m sm)
| mr_local s c m a :
    member_run s c m → app_local (sm_app (mb_sm m)) a → member_run s c (with_sm m (with_app (mb_sm m) a))
| mr_build s c m data removed :
    member_run s c m → dumped L s (mb_sm m) data →
    member_run s c (with_sm m (build_finish (mb_sm m) data (WriteOk removed)).1.1)
| mr_install s c m s2 sm2 snap n q removed sm :
    member_run s c m → replica L s2 sm2 → get_current_snapshot sm2 = Some snap →
    sm_last_applied (mb_sm m) = lid_at L n → me_last_log_id (ss_meta snap) = lid_at L q →
    (n ≤ q ≤ length L)%nat →
    install_snapshot s (mb_sm m) (ss_meta snap) (ss_data snap) (WriteOk removed) = Some sm →
    member_run s (max c q) (with_sm m sm)
| mr_crash s s' c m op wal_dir files snapshots s3 removed n m' :
    member_run s c m → promised c m op → crash_during (mb_log m) op wal_dir files →
    left_behind s m snapshots →
    tier L s3 → member_open s' wal_dir files snapshots s3 (WriteOk removed) = Some m' →
    sm_last_applied (mb_sm m') = lid_at L n → (n ≤ length L)%nat →
    headed (wl_wal (mb_log m')).2 → member_run s' (max c n) m'.
End member.

(** ** Lemmas *)

Lemma numbered_snd {A} n (l : list A) : (imap (λ i v, (Z.of_nat (n + i), v)) l).*2 = l.
Proof. apply list_eq. intros i. rewrite list_lookup_fmap, list_lookup_imap. by destruct (l !! i). Qed.

Lemma elem_of_numbered {A} n (l : list A) k v :
  (k, v) ∈ imap (λ i v, (Z.of_nat (n + i), v)) l ↔ ∃ i, k = Z.of_nat (n + i) ∧ l !! i = Some v.
Proof.
  rewrite elem_of_lookup_imap. split; [intros (i & y & [= -> ->] & H)|intros (i & -> & H)]; eauto.
Qed.

Lemma numbered_sorted {A} n (l : list A) :
  StronglySorted (λ x y, x.1 < y.1) (imap (λ i v, (Z.of_nat (n + i), v)) l).
Proof.
  revert n. induction l as [|x l IH]; intros n; [constructor|]. rewrite imap_cons.
  assert (imap ((λ i v, (Z.of_nat (n + i), v)) ∘ S) l = imap (λ i v, (Z.of_nat (S n + i), v)) l) as ->.
  { apply imap_ext. intros i y _. cbn. do 2 f_equal. lia. }
  constructor; [apply IH|]. apply Forall_forall. intros [k v] (i & -> & _)%elem_of_numbered. cbn. lia.
Qed.

(** Reading a range in which the map holds a segment of a list. *)
Lemma bt_range_window {V} (m : gmap Z V) (L : list V) (n c : nat) :
  (n ≤ c ≤ length L)%nat → (∀ i, (n ≤ i < c)%nat → m !! Z.of_nat i = L !! i) →
  ∃ kvs, bt_range m (Included (Z.of_nat n)) (Excluded (Z.of_nat c)) = Some kvs ∧
    kvs.*2 = take (c - n) (drop n L).
Proof.
  intros Hn Hw. unfold bt_range, range_panics. rewrite (proj2 (Z.ltb_ge _ _)) by lia.
  eexists. split; [done|]. rewrite <- (numbered_snd n (take (c - n) (drop n L))). f_equal.
  assert (total_on (λ kv, m !! kv.1 = Some kv.2) (@bt_cmp V)) as Htot.
  { destruct (@bt_cmp_total V) as [H1 H2]. split; eauto. }
  assert (strict_on (λ kv, m !! kv.1 = Some kv.2) (@bt_cmp V)) as Hstrict.
  { intros [k v] [k' v'] Hv Hv' E%Z.compare_eq. cbn in *. congruence. }
  assert (Forall (λ kv, m !! kv.1 = Some kv.2) (bt_iter m)) as Hall.
  { apply Forall_forall. by intros [k v] H%elem_of_bt_iter. }
  apply (ranked_unique _ _ Htot Hstrict).
  - apply Forall_forall. intros kv [_ H]%list_elem_of_filter. rewrite Forall_forall in Hall. auto.
  - apply StronglySorted_filter, (sort_by_ranked _ _ Htot). revert Hall. unfold bt_iter.
    by rewrite Forall_sort_by.
  - eapply StronglySorted_weaken; [|apply numbered_sorted]. intros x y Hxy E%Z.compare_gt_iff. cbn in *. lia.
  - apply NoDup_Permutation.
    + apply NoDup_filter. unfold bt_iter. rewrite sort_by_perm. apply NoDup_map_to_list.
    + apply (NoDup_fmap_1 fst). pose proof (numbered_sorted n (take (c - n) (drop n L))) as H.
      induction H as [|x l Hl IH Hx]; [constructor|]. cbn. constructor; [|done].
      intros (y & E & Hy)%list_elem_of_fmap. rewrite Forall_forall in Hx. specialize (Hx y Hy). lia.
    + intros [k v]. rewrite list_elem_of_filter, elem_of_bt_iter, elem_of_numbered. cbn [fst].
      rewrite andb_true_iff. unfold above, below. rewrite Z.leb_le, Z.ltb_lt. split.
      * intros [[H1 H2] Hv]. exists (Z.to_nat k - n)%nat. split; [lia|].
        rewrite lookup_take_lt, lookup_drop by lia.
        assert (n + (Z.to_nat k - n) = Z.to_nat k)%nat as -> by lia.
        by rewrite <- Hw, Z2Nat.id by lia.
      * intros (i & -> & Hi). apply lookup_take_Some in Hi as [Hi Hlt]. rewrite lookup_drop in Hi.
        split; [lia|]. by rewrite Hw by lia.
Qed.

(** *** The newest snapshot on disk *)

Lemma newest_ge names st i p :
  foldl newest_step st names = Some (i, p) →
  (∀ j q, st = Some (j, q) → j ≤ i) ∧
  ∀ name j, name ∈ names → file_index name = Some j → j ≤ i.
Proof.
  revert st. induction names as [|n names IH]; intros st H; cbn [foldl] in H.
  { split; [|by intros name j ?%elem_of_nil]. intros j q ->. by simplify_eq. }
  apply IH in H as [H1 H2].
  assert (∀ j, file_index n = Some j → j ≤ i) as Hn.
  { intros j Hj. unfold newest_step in H1. rewrite Hj in H1. destruct st as [[k q]|]; [|by eapply H1].
    destruct (Z.ltb_spec k j); [by eapply H1|]. specialize (H1 k q eq_refl). lia. }
  split; [|intros name j [->|Hin]%elem_of_cons; eauto].
  intros j q ->. unfold newest_step in H1. destruct (file_index n) as [k|]; [|by eapply H1].
  destruct (Z.ltb_spec j k); [|by eapply H1]. specialize (H1 k n eq_refl). lia.
Qed.

(** Only the names of snapshots count, in any order, when each is named after its index. *)
Lemma newest_determined names names' :
  (∀ name i, file_index name = Some i → (name ∈ names ↔ name ∈ names')) →
  (∀ name i, name ∈ names → file_index name = Some i → name = snapshot_name i) →
  foldl newest_step None names = foldl newest_step None names'.
Proof.
  assert (∀ l, foldl newest_step None l = None → ∀ name i, name ∈ l → file_index name = Some i → False)
    as Hnone.
  { intros l E name i (l1 & l2 & ->)%list_elem_of_split Hi. revert E. rewrite foldl_app. cbn [foldl].
    apply not_eq_None_Some, newest_total. unfold newest_step. rewrite Hi. repeat case_match; eauto. }
  intros Hsame Hname.
  destruct (foldl newest_step None names) as [[i p]|] eqn:E,
    (foldl newest_step None names') as [[i' p']|] eqn:E'; try done.
  - pose proof (newest_ge _ _ _ _ E) as [_ Hge]. pose proof (newest_ge _ _ _ _ E') as [_ Hge'].
    apply newest_elem in E as [?|[Hp Hi]]; [done|]. apply newest_elem in E' as [?|[Hp' Hi']]; [done|].
    apply (Hsame _ _ Hi') in Hp' as Hp2. apply (Hsame _ _ Hi) in Hp as Hp3.
    specialize (Hge _ _ Hp2 Hi'). specialize (Hge' _ _ Hp3 Hi).
    rewrite (Hname p i Hp Hi), (Hname p' i' Hp2 Hi'). by replace i' with i by lia.
  - exfalso. apply newest_elem in E as [?|[Hp Hi]]; [done|]. apply (Hsame _ _ Hi) in Hp. by eapply Hnone.
  - exfalso. apply newest_elem in E' as [?|[Hp Hi]]; [done|]. apply (Hsame _ _ Hi) in Hp. by eapply Hnone.
Qed.

Section disk.
Context {RT : RaftTypes} {SA : StateMachineApp} {HO : HashOrder} {SC : SnapshotCodec}.

(** Every snapshot file is named after its index, none above [top]. *)
Definition named (files : gmap string bytes) (top : Z) : Prop :=
  ∀ name i, is_Some (files !! name) → file_index name = Some i → name = snapshot_name i ∧ i ≤ top.

Lemma named_weaken files top top' : named files top → top ≤ top' → named files top'.
Proof. intros H Ht name i Hs Hi. destruct (H name i Hs Hi). split; [done|lia]. Qed.

(** A temporary file is no snapshot. *)
Lemma load_with_tmp files top i part :
  named files top → load_latest (<[tmp_name i := part]> files) = load_latest files ∧
  named (<[tmp_name i := part]> files) top.
Proof.
  intros Hn. assert (∀ name j, file_index name = Some j → tmp_name i ≠ name) as Htmp.
  { intros name j Hj <-. by rewrite file_index_tmp in Hj. }
  split.
  - unfold load_latest. rewrite (newest_determined (hm_keys (<[tmp_name i := part]> files)) (hm_keys files)).
    + destruct (foldl newest_step None (hm_keys files)) as [[j p]|] eqn:E; [|done].
      apply newest_elem in E as [?|[_ Hj]]; [done|]. cbn [mbind option_bind].
      by rewrite lookup_insert_ne by eauto.
    + intros name j Hj. rewrite !elem_of_hm_keys, lookup_insert_ne by eauto. done.
    + intros name j Hin Hj. apply elem_of_hm_keys in Hin. rewrite lookup_insert_ne in Hin by eauto.
      by apply Hn.
  - intros name j Hs Hj. rewrite lookup_insert_ne in Hs by eauto. by apply Hn.
Qed.

(** After a snapshot at the highest index is written, it is the newest, whether or not the
    clean-up removed the others. *)
Lemma load_after_write (sm : StateMachineStore) files meta data removed :
  sm_dir sm = Some files → 0 ≤ meta_index meta < 2 ^ 64 → named files (meta_index meta) →
  ∃ files', sm_dir (persist sm meta data (WriteOk removed)) = Some files' ∧
    load_latest files' = Some (meta, data) ∧ named files' (meta_index meta).
Proof.
  intros Hd Hi Hn. unfold persist. rewrite Hd. cbn [sm_dir with_dir]. eexists. split; [done|].
  set (path := snapshot_name (meta_index meta)). set (files' := filter _ _).
  assert (files' !! path = Some (snap_encode {| sf_meta := meta; sf_data := data |})) as Hl.
  { apply map_lookup_filter_Some. split; [apply lookup_insert_eq|]. simpl.
    unfold superseded. rewrite (bool_decide_false (path ≠ path)) by auto.
    by rewrite andb_false_r. }
  assert (named files' (meta_index meta)) as Hn'.
  { intros name i [content Hc] Hf. apply map_lookup_filter_Some in Hc as [Hc _].
    destruct (decide (name = path)) as [->|Hne].
    - unfold path in Hf. rewrite file_index_snapshot in Hf by done. by simplify_eq.
    - rewrite lookup_insert_ne in Hc by done. apply lookup_delete_Some in Hc as [_ Hc].
      apply Hn; [by eexists|done]. }
  split; [|exact Hn']. unfold load_latest.
  assert (path ∈ hm_keys files') as Hin by (apply elem_of_hm_keys; by eexists).
  destruct (foldl newest_step None (hm_keys files')) as [[j p]|] eqn:E.
  - apply newest_ge in E as Hge. destruct Hge as [_ Hge].
    specialize (Hge path _ Hin (file_index_snapshot _ Hi)).
    apply newest_elem in E as [?|[Hp Hj]]; [done|]. apply elem_of_hm_keys in Hp.
    destruct (Hn' p j Hp Hj) as [-> Hle]. assert (j = meta_index meta) as -> by lia.
    cbn [mbind option_bind]. fold path. rewrite Hl. cbn [mbind option_bind]. by rewrite snap_roundtrip.
  - exfalso. apply list_elem_of_split in Hin as (l1 & l2 & Hs). rewrite Hs, foldl_app in E.
    cbn [foldl] in E. unfold newest_step at 2, path in E. rewrite file_index_snapshot in E by done.
    revert E. apply not_eq_None_Some, newest_total. repeat case_match; eauto.
Qed.
End disk.

(** *** The invariant of a run *)

Section run.
Context {RT : RaftTypes} {SA : StateMachineApp} {AL : AppLaws} {HO : HashOrder}
  {SC : SnapshotCodec} {WC : WalCodec} {VC : VoteCodec}.
Context (L : list Entry) (Hids : NoDup (en_log_id <$> L))
  (Hidx : ∀ i e, L !! i = Some e → lid_index (en_log_id e) = Z.of_nat i)
  (Hlen : Z.of_nat (length L) < 2 ^ 64).

Lemma lid_at_index n id : (n ≤ length L)%nat → lid_at L n = Some id → lid_index id = Z.of_nat n - 1 ∧ n ≠ 0%nat.
Proof.
  unfold lid_at. intros Hn H. destruct n as [|n]; [by rewrite take_0 in H|].
  destruct (lookup_lt_is_Some_2 L n) as [e He]; [lia|].
  rewrite (take_S_r _ _ _ He), last_snoc in H. injection H as <-. rewrite (Hidx n e He).
  split; [lia|done].
Qed.

Lemma lid_at_none n : (n ≤ length L)%nat → lid_at L n = None → n = 0%nat.
Proof.
  unfold lid_at. intros Hn H. destruct n as [|n]; [done|].
  destruct (lookup_lt_is_Some_2 L n) as [e He]; [lia|].
  by rewrite (take_S_r _ _ _ He), last_snoc in H.
Qed.

Lemma lid_at_eq n m : (n ≤ length L)%nat → (m ≤ length L)%nat → lid_at L n = lid_at L m → n = m.
Proof.
  intros Hn Hm E. apply (lid_at_inj L Hids), (f_equal length) in E. rewrite !length_take in E. lia.
Qed.

Lemma meta_index_at n meta :
  (n ≤ length L)%nat → me_last_log_id meta = lid_at L n → meta_index meta = Z.of_nat (n - 1).
Proof.
  intros Hn E. unfold meta_index. rewrite E. destruct (lid_at L n) as [id|] eqn:El.
  - apply lid_at_index in El as [-> ?]; [lia|done].
  - by apply lid_at_none in El as ->.
Qed.

(** The directory holds the current snapshot, at position [q], as its newest. *)
Record disk_ok (files : gmap string bytes) (snap : option StoredSnapshot) (q : nat) : Prop := {
  dk_named : named files (Z.of_nat (q - 1));
  dk_newest : load_latest files = (λ sn, (ss_meta sn, ss_data sn)) <$> snap;
  dk_at : match snap with
          | Some sn => me_last_log_id (ss_meta sn) = lid_at L q
          | None => q = 0%nat
          end;
}.

(** What the positions of a member's log and state machine are to each other. *)
Definition aligned (c : nat) (log : LogStore) (sm : StateMachineStore) (n : nat) : Prop :=
  ∃ p q files, sm_last_applied sm = lid_at L n ∧ (p ≤ q ≤ n)%nat ∧ (n ≤ c ≤ length L)%nat ∧
    sm_dir sm = Some files ∧ disk_ok files (sm_snapshot sm) q ∧ window L log p c.

Record member_ok (s : seed) (c : nat) (m : Member) : Prop := {
  mo_log : ∃ ops, durable_run ops (mb_log m);
  mo_replica : replica L s (mb_sm m);
  mo_aligned : ∃ n, aligned c (view (mb_log m)) (mb_sm m) n;
}.

Lemma window_append m es p c :
  window L m p c →
  (∀ e i, e ∈ es → lid_index (en_log_id e) = Z.of_nat i → (i < c)%nat → L !! i = Some e) →
  window L (ls_append m es) p c.
Proof.
  unfold window. cbn [ls_append ls_log]. generalize (ls_log m). clear.
  induction es as [|e es IH]; intros lg Hw He; [done|]. cbn [foldl]. apply IH.
  - intros i Hi. destruct (decide (lid_index (en_log_id e) = Z.of_nat i)) as [E|Hne].
    + rewrite E, lookup_insert_eq. symmetry. apply He; [left|done|lia].
    + rewrite lookup_insert_ne by done. by apply Hw.
  - intros e' i Hin. apply He. by right.
Qed.

Lemma persist_fields sm meta data w :
  sm_app (persist sm meta data w) = sm_app sm ∧
  sm_last_applied (persist sm meta data w) = sm_last_applied sm ∧
  sm_snapshot (persist sm meta data w) = sm_snapshot sm.
Proof. unfold persist. by destruct (sm_dir sm), w as [|[]]. Qed.

(** A call on the log. *)
Lemma log_aligned c m n op :
  aligned c (view (mb_log m)) (mb_sm m) n → promised L c m op →
  aligned c (ls_exec (view (mb_log m)) op) (mb_sm m) n.
Proof.
  intros (p & q & files & Hn & Hp & Hc & Hd & Hdisk & Hw) Hk.
  destruct op as [v|cm|es|id|id]; cbn [promised ls_exec] in *.
  - by exists p, q, files.
  - by exists p, q, files.
  - exists p, q, files. split_and!; try done; try lia. by apply window_append.
  - exists p, q, files. split_and!; try done; try lia. intros i Hi. cbn [ls_truncate ls_log].
    rewrite remove_keys_filter, <- Hw by done. cbn [above].
    destruct (ls_log (view (mb_log m)) !! Z.of_nat i) as [e|] eqn:E.
    + apply map_lookup_filter_Some. split; [done|]. apply Z.leb_gt. cbn. lia.
    + by apply map_lookup_filter_None_2; left.
  - destruct Hk as (snap & sid & Hsnap & Hsid & Hle). unfold get_current_snapshot in Hsnap.
    pose proof (dk_at _ _ _ Hdisk) as Hat. rewrite Hsnap, Hsid in Hat.
    symmetry in Hat. apply lid_at_index in Hat as [Hs ?]; [|lia].
    exists (max p (Z.to_nat (lid_index id + 1))), q, files. split_and!; try done; try lia.
    intros i Hi. cbn [ls_purge ls_log]. rewrite remove_keys_filter, <- Hw by lia. cbn [below].
    destruct (ls_log (view (mb_log m)) !! Z.of_nat i) as [e|] eqn:E.
    + apply map_lookup_filter_Some. split; [done|]. apply Z.leb_gt. cbn. lia.
    + by apply map_lookup_filter_None_2; left.
Qed.

(** A snapshot written at a position at or above the one applied. *)
Lemma snapshot_aligned c log sm sm1 n q meta data removed :
  aligned c log sm n → (n ≤ q ≤ length L)%nat → me_last_log_id meta = lid_at L q →
  sm_dir sm1 = sm_dir sm → sm_last_applied sm1 = lid_at L q →
  sm_snapshot sm1 = Some {| ss_meta := meta; ss_data := data |} →
  aligned (max c q) log (persist sm1 meta data (WriteOk removed)) q.
Proof.
  intros (p & q0 & files & Hn & Hp & Hc & Hd & Hdisk & Hw) Hq Hm Hd1 Hl1 Hs1.
  destruct (persist_fields sm1 meta data (WriteOk removed)) as (_ & Hl & Hs).
  pose proof (meta_index_at q meta ltac:(lia) Hm) as Hi.
  destruct (load_after_write sm1 files meta data removed) as (files' & Hf & Hload & Hnamed).
  - by rewrite Hd1.
  - lia.
  - rewrite Hi. eapply named_weaken; [apply Hdisk|lia].
  - exists (if decide (c ≤ q)%nat then q else p), q, files'.
    rewrite Hl, Hs, Hf. split_and!; try done; try (repeat case_decide; lia).
    + split; [by rewrite <- Hi|by rewrite Hload, Hs1|by rewrite Hs1].
    + intros i Hi'. apply Hw. case_decide; lia.
Qed.

Lemma apply_aligned s c m n k sm replies :
  replica L s (mb_sm m) → aligned c (view (mb_log m)) (mb_sm m) n → (n + k ≤ c)%nat →
  sm_apply s (mb_sm m) (take k (drop n L)) = Some (sm, replies) →
  aligned c (view (mb_log m)) sm (n + k).
Proof.
  intros Hr (p & q & files & Hn & Hp & Hc & Hd & Hdisk & Hw) Hk E.
  pose proof (replica_at s L Hids s (mb_sm m) n Hr Hn) as Hpos.
  destruct (position_apply s _ s _ (take k (drop n L)) Hpos) as (sm1 & rs & E1 & Hpos1 & Hs1 & Hd1).
  assert (sm1 = sm) as -> by congruence. rewrite take_take_drop in Hpos1.
  exists p, q, files. rewrite Hs1, Hd1. split_and!; try done; try lia.
  apply (po_last _ _ _ _ _ _ Hpos1).
Qed.

(** *** Opening *)

(** A snapshot of the tier, and where it is. *)
Lemma tier_at (s : seed) s3 content :
  tier L s3 → s3 = Some (Some content) →
  ∃ f n, snap_decode content = Some f ∧ me_last_log_id (sf_meta f) = lid_at L n ∧ (n ≤ length L)%nat.
Proof.
  intros Ht ->. destruct (proj2 (proj2 (replica_invariant s L Hids)) _ Ht content eq_refl)
    as (meta & data & -> & n & s1 & a & _ & Hpos).
  exists {| sf_meta := meta; sf_data := data |}, (min n (length L)). rewrite snap_roundtrip.
  split_and!; [done| |lia]. cbn [sf_meta]. rewrite (po_last _ _ _ _ _ _ Hpos). unfold lid_at.
  destruct (decide (n ≤ length L)%nat); [by rewrite Nat.min_l|]. by rewrite Nat.min_r, !take_ge by lia.
Qed.

(** Opening lands at the snapshot on disk, or else at the one of the tier. *)
Lemma open_at s files snap q s3 removed :
  directory L files → disk_ok files snap q → (q ≤ length L)%nat → tier L s3 →
  ∃ sm n files', open_durable s app_new files s3 (WriteOk removed) = Some sm ∧ replica L s sm ∧
    sm_last_applied sm = lid_at L n ∧ (q ≤ n ≤ length L)%nat ∧ sm_dir sm = Some files' ∧
    disk_ok files' (sm_snapshot sm) n.
Proof.
  intros Hdir [Hn Hload Hat] Hq Ht.
  pose proof (proj1 (proj2 (replica_invariant s L Hids)) _ Hdir) as Hok.
  destruct (open_durable_ok s L s files s3 (WriteOk removed) Hok
    (proj2 (proj2 (replica_invariant s L Hids)) _ Ht)) as (sm & E & _).
  exists sm. assert (replica L s sm) as Hr by (by eapply replica_open). pose proof E as Eo.
  unfold open_durable, with_snapshot_dir in E. rewrite Hload in E. destruct snap as [[meta data]|];
    cbn [fmap option_fmap option_map mbind option_bind ss_meta ss_data sm_snapshot with_s3 with_dir sm_new] in E.
  - destruct (app_restore _ _ _) as [[a k]|]; [|done]. cbn in E. injection E as <-.
    exists q, files. split_and!; try done; try lia.
  - subst q. destruct s3 as [[content|]|]; [|by injection E as <-; exists 0%nat, files; split_and!; try lia..].
    destruct (tier_at s _ content Ht eq_refl) as (f & n & Ef & Hf & Hle). rewrite Ef in E.
    destruct (app_restore _ _ _) as [[a k]|]; [|done]. cbn [mbind option_bind] in E. injection E as <-.
    match goal with |- context [persist ?x _ _ _] => set (sm1 := x) end.
    destruct (persist_fields sm1 (sf_meta f) (sf_data f) (WriteOk removed)) as (_ & Hl & Hs).
    pose proof (meta_index_at n (sf_meta f) Hle Hf) as Hi.
    destruct (load_after_write sm1 files (sf_meta f) (sf_data f) removed) as (files' & Hd & Hload' & Hnamed).
    + done.
    + lia.
    + rewrite Hi. eapply named_weaken; [exact Hn|lia].
    + exists n, files'. rewrite Hl, Hs, Hd. split_and!; try done; try lia.
      split; [by rewrite <- Hi|by rewrite Hload'|done].
Qed.

Lemma empty_disk : disk_ok ∅ None 0.
Proof.
  split; [by intros name i [? ?%lookup_empty_Some]| |done].
  unfold load_latest. destruct (hm_keys ∅) as [|k l] eqn:E; [done|].
  assert (k ∈ hm_keys (∅ : gmap string bytes)) as [? H]%elem_of_hm_keys by (rewrite E; left).
  by rewrite lookup_empty in H.
Qed.

(** What a crash leaves of the snapshots still has the current one as its newest. *)
Lemma left_ok s m files snapshots q :
  replica L s (mb_sm m) → sm_dir (mb_sm m) = Some files → disk_ok files (sm_snapshot (mb_sm m)) q →
  left_behind L s m snapshots → directory L snapshots ∧ disk_ok snapshots (sm_snapshot (mb_sm m)) q.
Proof.
  intros Hr Hd Hdisk Hl.
  assert (∀ i part, disk_ok (<[tmp_name i := part]> files) (sm_snapshot (mb_sm m)) q) as Htmp.
  { intros i part. destruct Hdisk as [Hn Hload Hat].
    destruct (load_with_tmp files _ i part Hn) as [E Hn']. split; [done|by rewrite E|done]. }
  destruct Hl as [fs E|data part fs (sm0 & Hr0 & El & ->) E|s2 sm2 snap part sm fs Hr2 Hg Ei E].
  - assert (fs = files) as -> by congruence. split; [by eapply directory_left|done].
  - split; [exact (directory_left _ s _ fs (replica_build _ s sm0 _ _ Hr0 Hr El) E)|].
    unfold build_finish, persist in E. cbn [sm_dir fst] in E. rewrite Hd in E. injection E as <-. apply Htmp.
  - split; [exact (directory_left _ s _ fs (replica_install _ s _ s2 sm2 snap _ sm Hr Hr2 Hg Ei) E)|].
    unfold install_snapshot in Ei. destruct (app_restore _ _ _) as [[a k]|]; [|done]. injection Ei as <-.
    unfold persist in E. cbn [sm_dir with_snapshot] in E. rewrite Hd in E. injection E as <-. apply Htmp.
Qed.

Lemma promised_part c m op op' : promised L c m op → part_of op op' → promised L c m op'.
Proof.
  intros Hk Hp. destruct Hp as [op1|op1|es k]; [|done|]; cbn.
  - intros e i He. by apply elem_of_nil in He.
  - intros e i (j & He & _)%elem_of_take. apply Hk. by eapply list_elem_of_lookup_2.
Qed.

(** A crash, at any moment of a run: the member opens, at its newest snapshot or the tier's,
    with a log that still reaches from there to what was known to be committed. *)
Lemma crash_opens s s' c m op wal_dir files snapshots s3 removed :
  member_ok s c m → promised L c m op → crash_during (mb_log m) op wal_dir files →
  left_behind L s m snapshots → tier L s3 →
  ∃ m' n, member_open s' wal_dir files snapshots s3 (WriteOk removed) = Some m' ∧
    replica L s' (mb_sm m') ∧ aligned (max c n) (view (mb_log m')) (mb_sm m') n ∧
    (headed (wl_wal (mb_log m')).2 → ∃ ops, durable_run ops (mb_log m')).
Proof.
  intros [[ops Hrun] Hrep (n0 & Ha)] Hk Hcr Hs Ht. destruct (run_inv ops _ Hrun) as [Hi _].
  destruct (reopen_inv (mb_log m) op wal_dir files Hi Hcr) as (l' & op' & El & Hpart & Hv & _).
  pose proof (promised_part _ _ _ _ Hk Hpart) as Hk'.
  apply (log_aligned c m n0 op') in Ha as (p & q & files0 & Hn & Hp & Hc & Hd & Hdisk & Hw); [|done].
  destruct (left_ok s m files0 snapshots q Hrep Hd Hdisk Hs) as [Hdir Hdisk0].
  destruct (open_at s' snapshots (sm_snapshot (mb_sm m)) q s3 removed)
    as (sm & n & files' & Es & Hr & Hl & Hq & Hd' & Hdisk'); [done|done|lia|done|].
  unfold member_open. rewrite El, Es. cbn [mbind option_bind]. eexists _, n. split; [done|].
  split; [exact Hr|]. split.
  - exists (if decide (c ≤ n)%nat then n else p), n, files'. cbn [mb_sm mb_log].
    split_and!; try done; try (repeat case_decide; lia).
    case_decide; [intros i Hi'; lia|]. rewrite Nat.max_l by lia. by rewrite Hv.
  - intros Hh. exists (ops ++ [op']). by eapply run_crash.
Qed.

Lemma run_ok s c m : member_run L s c m → member_ok s c m.
Proof.
  induction 1 as [s s3 removed c m Ht E Hn Hle|s c m op l _ [[ops Hrun] Hrep [n Ha]] Hsafe Hk E
    |s c c' m _ [Hrun Hrep (n & p & q & files & Hn & Hp & Hc & Hd & Hdisk & Hw)] Hc' Hw' Hle
    |s c m n k sm rs _ [Hrun Hrep [n0 Ha]] Hn Hk E|s c m a _ [Hrun Hrep [n Ha]] Hl
    |s c m data removed _ [Hrun Hrep [n Ha]] Hdump|s c m s2 sm2 snap n q removed sm _ [Hrun Hrep [n0 Ha]] Hr2 Hg Hn Hq Hle E
    |s s' c m op wal_dir files snapshots s3 removed n m' _ IH Hk Hcr Hs Ht E Hn Hle Hh].
  - unfold member_open in E. destruct (wl_open ∅ ∅) as [l|] eqn:El; [|done]. cbn in E.
    destruct (open_at s ∅ None 0 s3 removed) as (sm & n & files & Es & Hr & Hl & Hq & Hd & Hdisk);
      [constructor|exact empty_disk|lia|done|].
    rewrite Es in E. injection E as <-. cbn [mb_sm] in Hn.
    assert (n = c) as -> by (apply lid_at_eq; [lia|lia|congruence]).
    split; [exists []; by constructor|exact Hr|].
    exists c, c, c, files. split_and!; try done; try lia. intros i Hi. lia.
  - split; [exists (ops ++ [op]); by eapply run_op|done|]. exists n.
    destruct (run_inv ops _ Hrun) as [Hi _].
    destruct (wl_exec_spec (mb_log m) op Hi Hsafe) as (l1 & E1 & _ & Hv).
    assert (l1 = l) as -> by congruence. cbn [mb_log with_log mb_sm]. rewrite Hv. by apply log_aligned.
  - split; [done..|]. exists n, p, q, files. split_and!; try done; try lia.
    intros i Hi. destruct (decide (i < c)%nat); [apply Hw; lia|apply Hw'; lia].
  - assert (n = n0) as <-.
    { destruct Ha as (p & q & files & Hn0 & _ & Hc & _). apply lid_at_eq; [lia|lia|congruence]. }
    split; [done|by eapply replica_apply|]. exists (n + k)%nat. cbn [mb_log mb_sm with_sm].
    apply (apply_aligned s c m n k sm rs); [done|done|lia|done].
  - split; [done|by apply replica_local|]. by exists n.
  - destruct Hdump as (sm0 & Hr0 & Hl0 & ->).
    split; [done|by apply (replica_build _ s sm0)|]. exists n. pose proof Ha as (p & q & files & Hn & ? & Hc & _).
    replace c with (max c n) by lia. by eapply snapshot_aligned; [exact Ha|lia|..].
  - assert (n = n0) as <-.
    { destruct Ha as (p & q0 & files & Hn0 & _ & Hc & _). apply lid_at_eq; [lia|lia|congruence]. }
    split; [done|by eapply replica_install|]. exists q. unfold install_snapshot in E.
    destruct (app_restore _ _ _) as [[a k]|]; [|done]. cbn in E. injection E as <-. cbn [mb_sm with_sm].
    by eapply snapshot_aligned; [exact Ha|lia|done|..]; [done|exact Hq|destruct snap].
  - destruct (crash_opens s s' c m op wal_dir files snapshots s3 removed IH Hk Hcr Hs Ht)
      as (m1 & n1 & E1 & Hr & Ha & Hrun).
    assert (m1 = m') as -> by congruence.
    assert (n1 = n) as ->.
    { destruct Ha as (p & q & fs & Hn1 & Hp & Hc & _). apply lid_at_eq; [lia|lia|congruence]. }
    split; [by apply Hrun|done|by exists n].
Qed.

(** From any aligned state the log and the state machine together reach what is known to be
    committed. *)
Lemma catches_up s c m n :
  replica L s (mb_sm m) → aligned c (view (mb_log m)) (mb_sm m) n →
  ∃ entries sm replies,
    wl_try_get_log_entries (mb_log m) (Included (Z.of_nat n)) (Excluded (Z.of_nat c)) = Some entries ∧
    entries = take (c - n) (drop n L) ∧ sm_apply s (mb_sm m) entries = Some (sm, replies) ∧ replica L s sm ∧ sm_last_applied sm = lid_at L c.
Proof.
  intros Hr (p & q & files & Hn & Hp & Hc & _ & _ & Hw).
  destruct (bt_range_window (wl_entries (mb_log m)) L n c) as (kvs & E & Hkvs); [lia| |].
  { intros i Hi. apply Hw. lia. }
  unfold wl_try_get_log_entries. rewrite E. cbn [mbind option_bind]. rewrite Hkvs.
  destruct (apply_ok s L Hids s (mb_sm m) n (c - n)
    (proj1 (replica_invariant s L Hids) _ _ Hr) Hn) as (sm & rs & Ea & _ & Hl).
  replace (n + (c - n))%nat with c in Hl by lia. eexists _, sm, rs.
  split; [done|]. split; [done|]. split; [exact Ea|]. split; [by eapply replica_apply|done].
Qed.
End run.

(** ** Properties *)

Section properties.
Context {RT : RaftTypes} {SA : StateMachineApp} {AL : AppLaws} {HO : HashOrder}
  {SC : SnapshotCodec} {WC : WalCodec} {VC : VoteCodec}.

(** C4: nothing committed is lost on a durable member that keeps the conditions of
    [durable_run] and writes its snapshots. However such a member ran, earlier crashes and
    restarts included, and wherever it crashes: at any step of a call on its log, as in
    [durable_recovers], and before or after the rename of a snapshot it was building or
    installing. It opens again, at its newest snapshot or, without one, at that of the tier;
    its log still holds every entry from there to what it knew to be committed, as
    committed; and applying those brings the application to a replay of the committed log
    from nothing, with its membership. The conditions are that purges delete only the oldest
    segments, pointer records fill none, the newest segment kept its checkpoint when the
    member went on after an earlier crash, no snapshot build was overtaken by an apply, and
    the write of a snapshot never failed: the code goes on without them, and can then lose
    entries ([gc_resurrects_truncated], [headless_segment_loses_committed],
    [concurrent_snapshot_stale], [failed_write_loses_log]). *)
Theorem member_recovers (L : list Entry) (Hids : NoDup (en_log_id <$> L))
    (Hidx : ∀ i e, L !! i = Some e → lid_index (en_log_id e) = Z.of_nat i)
    (Hlen : Z.of_nat (length L) < 2 ^ 64) (s0 s s' : seed) (c : nat) (m : Member)
    (op : log_op) (wal_dir files : Dir) (snapshots : gmap string bytes)
    (s3 : option (option bytes)) (removed : string → bool)
    (Hrun : member_run L s c m) (Hkeep : promised L c m op)
    (Hcrash : crash_during (mb_log m) op wal_dir files) (Hdir : left_behind L s m snapshots)
    (Htier : tier L s3) :
  ∃ m' n entries sm replies r, let c' := max c n in
    member_open s' wal_dir files snapshots s3 (WriteOk removed) = Some m' ∧
    sm_last_applied (mb_sm m') = lid_at L n ∧
    wl_try_get_log_entries (mb_log m') (Included (Z.of_nat n)) (Excluded (Z.of_nat c')) = Some entries ∧
    entries = take (c' - n) (drop n L) ∧
    sm_apply s' (mb_sm m') entries = Some (sm, replies) ∧ sm_last_applied sm = lid_at L c' ∧
    sm_membership sm = mem_at L c' ∧ replay L s0 c' = Some r ∧ app_equiv (sm_app sm) r.
Proof.
  pose proof (run_ok L Hids Hidx Hlen s c m Hrun) as Hok.
  destruct (crash_opens L Hids Hidx Hlen s s' c m op wal_dir files snapshots s3 removed Hok Hkeep Hcrash
    Hdir Htier) as (m' & n & Eo & Hr & Ha & _).
  destruct (catches_up L Hids s' _ m' n Hr Ha) as (entries & sm & rs & Eg & Ee & Ea & Hr' & Hl).
  destruct (replica_at s0 L Hids s' sm _ Hr' Hl) as [_ Hm _ (r & Hrep & _ & Heq)].
  destruct Ha as (p & q & fs & Hn & _). exists m', n, entries, sm, rs, r. by split_and!.
Qed.
End properties.

(** ** Witnesses *)

#[local] Existing Instances plain_raft appender canonical_order plain_codec appender_laws
  plain_wal_codec plain_vote_codec.

Definition first_entry : Entry :=
  {| en_log_id := {| lid_leader := 1 : leader_id; lid_index := 0 |}; en_payload := Normal [7] |}.

(** A fresh member, and the same member after appending, committing and applying an entry. *)
Definition fresh : Member :=
  {| mb_log := opened;
     mb_sm := with_dir (sm_new (app_new : @app appender)) (Some ∅) |}.

Definition appended : Member := with_log fresh (default opened (wl_append opened [first_entry])).

Definition one_done : StateMachineStore :=
  {| sm_app := [7] : @app appender; sm_last_applied := Some (en_log_id first_entry);
     sm_membership := membership_none; sm_snapshot_seq := 0; sm_snapshot := None;
     sm_dir := Some ∅; sm_s3 := false |}.

Lemma applied_run : member_run [first_entry] nil_seed 1 (with_sm appended one_done).
Proof.
  eapply (mr_apply _ nil_seed 1 appended 0 1 one_done [1]); [|reflexivity|lia|reflexivity].
  apply (mr_commit _ nil_seed 0 1 appended); [|reflexivity| |lia].
  - apply (mr_log _ nil_seed 0 fresh (OpAppend [first_entry]) (mb_log appended)).
    + apply (mr_start _ nil_seed None (λ _, true)); [constructor|vm_compute; reflexivity|reflexivity|lia].
    + repeat constructor.
    + intros e i _ _ Hi. lia.
    + vm_compute. reflexivity.
  - intros i Hi. assert (i = 0)%nat as -> by lia. vm_compute. reflexivity.
Qed.

(** The member dies while it truncates an entry nobody committed, and while it writes its
    first snapshot: half a frame and half a temporary file are left. It comes back from its
    log alone. *)
Definition appended_torn : Dir := torn_at 22 [REntry first_entry; TruncateFrom 1].

Definition torn_snapshot : gmap string bytes := {[tmp_name 0 := [1]]}.

Lemma member_recovers_witness :
  ∃ m' entries sm replies,
    member_open nil_seed appended_torn ∅ torn_snapshot None (WriteOk (λ _, true)) = Some m' ∧
    sm_apply nil_seed (mb_sm m') entries = Some (sm, replies) ∧ app_equiv (sm_app sm) ([7] : app).
Proof.
  destruct (member_recovers [first_entry] (NoDup_singleton _)) with (s0 := nil_seed) (s := nil_seed)
    (s' := nil_seed) (c := 1%nat) (m := with_sm appended one_done)
    (op := OpTruncate (en_log_id (entry_at 1))) (wal_dir := appended_torn) (files := ∅ : Dir)
    (snapshots := torn_snapshot) (s3 := None : option (option bytes))
    (removed := λ _ : string, true) as (m' & n & entries & sm & rs & r & H1 & _ & _ & _ & H2 & _ & _ & H3 & H4).
  - intros [|i] e He; [by injection He as <-|done].
  - reflexivity.
  - exact applied_run.
  - reflexivity || discriminate.
  - split; [exact I|]. exists (write_record (wl_wal (mb_log appended)) (TruncateFrom 1)), ∅.
    split; [right; left|]. split; [reflexivity|]. split; [|apply empty_crash].
    assert ((write_record (wl_wal (mb_log appended)) (TruncateFrom 1)).1 =
      {[segment_path 0 := {| f_data := frames [REntry first_entry; TruncateFrom 1]; f_synced := 13 |}]})
      as -> by (vm_compute; reflexivity).
    apply torn_crash. split; vm_compute; lia.
  - apply (left_building _ nil_seed (with_sm appended one_done) [7] [1]); [|reflexivity].
    apply (dumped_now _ nil_seed one_done). apply (replica_apply _ nil_seed (mb_sm fresh) 0 1 one_done [1]);
      [|reflexivity|reflexivity].
    apply (replica_open _ nil_seed ∅ None (WriteFailed None)); [constructor|constructor|reflexivity].
  - constructor.
  - exists m', entries, sm, rs. split; [exact H1|]. split; [exact H2|].
    unfold replay in H3. rewrite take_ge in H3 by (cbn [length]; lia).
    injection H3 as <-. exact H4.
Defined.

(** ** A snapshot that was never written *)

(** Building a snapshot reports success also when its file could not be written, and the
    library may then purge the entries it covers: after a restart neither is there. *)
Definition unwritten : Member := with_sm appended (build_snapshot nil_seed one_done (WriteFailed None)).1.1.

Example failed_write_loses_log :
  promised [first_entry] 1 unwritten (OpPurge (en_log_id first_entry)) ∧
  (l ← wl_purge (mb_log unwritten) (en_log_id first_entry);
   snapshots ← sm_dir (mb_sm unwritten);
   m ← member_open nil_seed (wl_wal l).1 (wl_files l) snapshots None (WriteFailed None);
   Some (wl_get_log_state (mb_log m), sm_last_applied (mb_sm m), sm_app (mb_sm m))) =
  Some ((Some (en_log_id first_entry), Some (en_log_id first_entry)), None, []).
Proof.
  split; [|vm_compute; reflexivity]. eexists _, _. split; [reflexivity|]. split; [reflexivity|]. done.
Qed.
