(* ===== verification/Ingest.v ===== *)
(** * Ingestion: [crates/shard-node/src/ingest.rs]

    Ownership, the mapping of JSON feeds and of OpenSky state vectors onto documents, the
    synthetic source, and the producer/consumer loop. [serde_json]'s values are data; its
    numbers and its printer are parameters. *)

From S2P Require Export Json Store.

(** ** Ownership *)

Record ShardAssignment := { sa_index : Z; sa_count : NonZeroU32 }.

Definition sa_owns (a : ShardAssignment) (icao24 : string) : bool :=
  shard_for icao24 (sa_count a) =? sa_index a.

(** [Mapped] carries the table as it is when the question is asked. *)
Inductive Ownership :=
| All
| Modulo (a : ShardAssignment)
| Mapped (group : Z) (assignments : list Z).

Definition ow_assignments (o : Ownership) : option (list Z) :=
  match o with Mapped _ table => Some table | _ => None end.

Definition owns (o : Ownership) (icao24 : string) : bool :=
  match o with
  | All => true
  | Modulo a => sa_owns a icao24
  | Mapped group table =>
      match nz_new (len_u32 table) with
      | None => false
      | Some v =>
          bool_decide (table !! Z.to_nat (vshard_for icao24 v) = Some group)
      end
  end.

(** One tick of [run_vshard_view]: the answer of the first healthy coordinator, if one
    connected and answered, replaces the table. *)
Definition vshard_view_tick (table : list Z) (answer : option (list Z)) : list Z :=
  match answer with Some t => t | None => table end.

(** ** JSON feeds *)

Section json.
Context {JS : Json}.

(** [Value::to_string]. *)
Context (value_display : Value → string).

Definition with_text (doc : FlightDocument) (k v : string) : FlightDocument :=
  {| fd_icao24 := fd_icao24 doc; fd_callsign := fd_callsign doc;
     fd_observed_at := fd_observed_at doc; fd_latitude := fd_latitude doc;
     fd_longitude := fd_longitude doc; fd_altitude := fd_altitude doc;
     fd_origin := fd_origin doc; fd_destination := fd_destination doc;
     fd_aircraft_type := fd_aircraft_type doc; fd_velocity := fd_velocity doc;
     fd_heading := fd_heading doc; fd_vertical_rate := fd_vertical_rate doc;
     fd_on_ground := fd_on_ground doc; fd_tenant_id := fd_tenant_id doc;
     fd_text := <[k := v]> (fd_text doc); fd_number := fd_number doc |}.

Definition with_number (doc : FlightDocument) (k : string) (v : f64) : FlightDocument :=
  {| fd_icao24 := fd_icao24 doc; fd_callsign := fd_callsign doc;
     fd_observed_at := fd_observed_at doc; fd_latitude := fd_latitude doc;
     fd_longitude := fd_longitude doc; fd_altitude := fd_altitude doc;
     fd_origin := fd_origin doc; fd_destination := fd_destination doc;
     fd_aircraft_type := fd_aircraft_type doc; fd_velocity := fd_velocity doc;
     fd_heading := fd_heading doc; fd_vertical_rate := fd_vertical_rate doc;
     fd_on_ground := fd_on_ground doc; fd_tenant_id := fd_tenant_id doc;
     fd_text := fd_text doc; fd_number := <[k := v]> (fd_number doc) |}.

Definition with_geo (doc : FlightDocument) (lon lat : f64) : FlightDocument :=
  {| fd_icao24 := fd_icao24 doc; fd_callsign := fd_callsign doc;
     fd_observed_at := fd_observed_at doc; fd_latitude := lat;
     fd_longitude := lon; fd_altitude := fd_altitude doc;
     fd_origin := fd_origin doc; fd_destination := fd_destination doc;
     fd_aircraft_type := fd_aircraft_type doc; fd_velocity := fd_velocity doc;
     fd_heading := fd_heading doc; fd_vertical_rate := fd_vertical_rate doc;
     fd_on_ground := fd_on_ground doc; fd_tenant_id := fd_tenant_id doc;
     fd_text := fd_text doc; fd_number := fd_number doc |}.

Definition with_icao24 (doc : FlightDocument) (id : string) : FlightDocument :=
  {| fd_icao24 := id; fd_callsign := fd_callsign doc;
     fd_observed_at := fd_observed_at doc; fd_latitude := fd_latitude doc;
     fd_longitude := fd_longitude doc; fd_altitude := fd_altitude doc;
     fd_origin := fd_origin doc; fd_destination := fd_destination doc;
     fd_aircraft_type := fd_aircraft_type doc; fd_velocity := fd_velocity doc;
     fd_heading := fd_heading doc; fd_vertical_rate := fd_vertical_rate doc;
     fd_on_ground := fd_on_ground doc; fd_tenant_id := fd_tenant_id doc;
     fd_text := fd_text doc; fd_number := fd_number doc |}.

Definition bool_display (b : bool) : string := if b then "true" else "false".

Definition join_key (prefix k : string) : string :=
  if str_is_empty prefix then k else prefix +:+ "." +:+ k.

(** One field of [flatten_into]; [rec] flattens a nested object under a prefix. *)
Definition flatten_field (rec : string → FlightDocument → FlightDocument) (prefix k : string)
    (val : Value) (doc : FlightDocument) : FlightDocument :=
  let key := join_key prefix k in
  match val with
  | JString s => with_text doc key s
  | Number n => match number_as_f64 n with Some f => with_number doc key f | None => doc end
  | Bool b => with_text doc key (bool_display b)
  | Object _ => rec key doc
  | Array a =>
      if bool_decide (k = "coordinates") then
        match omap as_f64 a with
        | lon :: lat :: _ => with_geo doc lon lat
        | _ => doc
        end
      else doc
  | Null => doc
  end.

Fixpoint flatten_value (val : Value) (prefix : string) (doc : FlightDocument) : FlightDocument :=
  match val with
  | Object o =>
      (fix fields (o : list (string * Value)) (doc : FlightDocument) : FlightDocument :=
         match o with
         | [] => doc
         | (k, v) :: o => fields o (flatten_field (flatten_value v) prefix k v doc)
         end) o doc
  | _ => doc
  end.

Definition flatten_into (prefix : string) (obj : list (string * Value)) (doc : FlightDocument)
    : FlightDocument := flatten_value (Object obj) prefix doc.

Definition record_to_doc (rec : Value) (id_field id_prefix : string) (idx : nat)
    : FlightDocument :=
  let id := match value_get rec id_field with
            | Some (JString s) => s
            | Some other => value_display other
            | None => show_nat idx
            end in
  let doc := with_icao24 default_doc (id_prefix +:+ "-" +:+ id) in
  match rec with Object obj => flatten_into "" obj doc | _ => doc end.

Fixpoint navigate (v : Value) (records_path : list string) : option Value :=
  match records_path with
  | [] => Some v
  | seg :: rest => next ← value_get v seg; navigate next rest
  end.

Definition json_to_docs (v : Value) (id_field id_prefix : string) (records_path : list string)
    : list FlightDocument :=
  match navigate v records_path with
  | None => []
  | Some cur =>
      let records := match cur with Array a => a | Object o => [Object o] | _ => [] end in
      (λ ir : nat * Value, record_to_doc ir.2 id_field id_prefix ir.1) <$> enumerate records
  end.

(** ** OpenSky state vectors *)

Context {UC : Unicode} {FL : FloatLib}.

Definition str_at (s : list Value) (i : nat) : string :=
  str_trim (default "" (s !! i ≫= as_str)).
Definition f64_at (s : list Value) (i : nat) : f64 := default f64_zero (s !! i ≫= as_f64).

Definition map_state (s : list Value) : option FlightDocument :=
  first ← s !! 0%nat;
  id ← as_str first;
  let icao24 := str_trim id in
  if str_is_empty icao24 then None
  else Some {| fd_icao24 := icao24; fd_callsign := str_at s 1;
               fd_observed_at := wrap_i64 (default 0 (s !! 3%nat ≫= as_i64) * 1000);
               fd_latitude := f64_at s 6; fd_longitude := f64_at s 5; fd_altitude := f64_at s 7;
               fd_origin := str_at s 2; fd_destination := ""; fd_aircraft_type := "";
               fd_velocity := f64_at s 9; fd_heading := f64_at s 10;
               fd_vertical_rate := f64_at s 11;
               fd_on_ground := default false (s !! 8%nat ≫= as_bool);
               fd_tenant_id := ""; fd_text := ∅; fd_number := ∅ |}.

Definition opensky_docs (states : option (list (list Value))) : list FlightDocument :=
  omap map_state (default [] states).
End json.

(** ** Generated feeds *)

(** [u32::to_le_bytes]. *)
Definition u32_le_bytes (z : Z) : list N :=
  Z.to_N <$> [z mod 256; (z / 256) mod 256; (z / 65536) mod 256; (z / 16777216) mod 256].

Definition pick {A} (d : A) (l : list A) (h shift : Z) : A :=
  nth (Z.to_nat (Z.shiftr h shift mod Z.of_nat (length l))) l d.

Definition hex_pad (w : nat) (z : Z) : string := pad_zero w (show_hex z).

Section generated.
Context (seed : Z) (batch_size : nat).

(** The closure [f]: a value spread over an interval. *)
Definition spread (h shift : Z) (span base : Z) : f64 :=
  f64_add (f64_mul (f64_div (f64_of_Z (Z.shiftr h shift mod 1000)) (f64_of_Z 1000))
             (f64_of_Z span)) (f64_of_Z base).

Definition synthetic_doc (s : Z) : FlightDocument :=
  let h := fnv1a_64 (u32_le_bytes s) in
  {| fd_icao24 := hex_pad 4 seed +:+ hex_pad 6 s; fd_callsign := "SYN" +:+ show_Z s;
     fd_observed_at := s; fd_latitude := spread h 16 140 (-60);
     fd_longitude := spread h 26 360 (-180); fd_altitude := spread h 36 12000 0;
     fd_origin := "Synthetica"; fd_destination := "";
     fd_aircraft_type := pick "" ["TestJet"; "MockLiner"; "StubProp"; "FixtureWing"] h 8;
     fd_velocity := spread h 44 300 0; fd_heading := f64_zero; fd_vertical_rate := f64_zero;
     fd_on_ground := false; fd_tenant_id := ""; fd_text := ∅; fd_number := ∅ |}.

Definition security_doc (s : Z) : FlightDocument :=
  let h := fnv1a_64 (u32_le_bytes s) in
  {| fd_icao24 := "evt-" +:+ hex_pad 4 seed +:+ hex_pad 6 s;
     fd_callsign := pick "" ["alice"; "bob"; "carol"; "dave"; "svc-account"] h 12;
     fd_observed_at := s; fd_latitude := f64_zero; fd_longitude := f64_zero;
     fd_altitude := f64_of_Z (Z.land (Z.shiftr h 36) 0x7f);
     fd_origin := pick "" ["10.0.0.5"; "10.0.0.9"; "192.168.1.20"; "172.16.0.4"] h 4;
     fd_destination := "host-" +:+ show_Z (Z.shiftr h 20 mod 8);
     fd_aircraft_type :=
       pick "" ["auth_fail"; "port_scan"; "malware"; "exfil"; "privilege_escalation"] h 28;
     fd_velocity := f64_zero; fd_heading := f64_zero; fd_vertical_rate := f64_zero;
     fd_on_ground := false; fd_tenant_id := ""; fd_text := ∅; fd_number := ∅ |}.

(** One [fetch]: the next [batch_size] numbers of the sequence, and the counter after. *)
Definition next_numbers (seq : Z) : list Z :=
  (λ i, wrap_u32 (seq + Z.of_nat i)) <$> List.seq 0 batch_size.
Definition seq_after (seq : Z) : Z := wrap_u32 (seq + Z.of_nat batch_size).

Definition synthetic_fetch (seq : Z) : list FlightDocument * Z :=
  (synthetic_doc <$> next_numbers seq, seq_after seq).
Definition security_fetch (seq : Z) : list FlightDocument * Z :=
  (security_doc <$> next_numbers seq, seq_after seq).
End generated.

Record SyntheticSource := { sy_seed : Z; sy_batch_size : nat; sy_seq : Z }.
Definition synthetic_new (seed : Z) (batch_size : nat) : SyntheticSource :=
  {| sy_seed := seed; sy_batch_size := batch_size; sy_seq := 0 |}.

Record SecuritySource := { se_seed : Z; se_batch_size : nat; se_seq : Z }.
Definition security_new (seed : Z) (batch_size : nat) : SecuritySource :=
  {| se_seed := seed; se_batch_size := batch_size; se_seq := 0 |}.

Lemma insert_docs_lookup m docs k :
  insert_docs m docs !! k =
  match last (filter (λ d, fd_icao24 d = k) docs) with Some d => Some d | None => m !! k end.
Proof.
  unfold insert_docs. induction docs as [|d docs IH] using rev_ind; [done|].
  rewrite foldl_snoc, filter_app, filter_cons, filter_nil, lookup_insert. rewrite IH.
  destruct (decide (fd_icao24 d = k)); [by rewrite last_snoc|by rewrite app_nil_r].
Qed.

(** Documents under different ids do not replace each other. *)
Lemma insert_docs_distinct docs k d :
  NoDup (fd_icao24 <$> docs) → insert_docs ∅ docs !! k = Some d ↔ d ∈ docs ∧ fd_icao24 d = k.
Proof.
  intros Hnd. rewrite insert_docs_lookup, lookup_empty. split.
  - destruct (last (filter _ docs)) as [d'|] eqn:E; [|done]. intros [= ->].
    by apply last_Some_elem_of, list_elem_of_filter in E as [? ?].
  - intros [Hd <-]. destruct (last (filter (λ x, fd_icao24 x = fd_icao24 d) docs)) as [d'|] eqn:E.
    + apply last_Some_elem_of, list_elem_of_filter in E as [Hid Hd']. f_equal.
      apply list_elem_of_lookup in Hd as [i Hi], Hd' as [j Hj].
      assert (i = j) as ->; [|congruence].
      apply (NoDup_lookup _ i j (fd_icao24 d) Hnd); rewrite list_lookup_fmap; [by rewrite Hi|].
      rewrite Hj. cbn. by f_equal.
    + apply last_None in E. exfalso. apply (not_elem_of_nil d). rewrite <- E.
      by apply list_elem_of_filter.
Qed.

(** ** The ingestion loop *)

Section loop.
Context {HO : HashOrder} {UC : Unicode} {EM : Embedder} {HN : Hnsw}.
Context (ownership : Ownership) (replicate_tx : bool).

Definition owned (batch : list FlightDocument) : list FlightDocument :=
  filter (λ d, owns ownership (fd_icao24 d) = true) batch.

(** What the consumer does with one batch: the store, and the message it then sends. *)
Definition ingest_batch (store : ShardStore) (batch : list FlightDocument)
    : option (ShardStore * option (list FlightDocument)) :=
  s ← st_insert_all store (owned batch);
  Some (s, if replicate_tx then Some (owned batch) else None).

(** The capacities of the producer's channel and of the replication channel. *)
Definition CHANNEL : nat := 4.
Definition REPLICATION_CHANNEL : nat := 8.

(** The replication channel and the task at its end: whether that task still runs, how many
    of the messages sent it has taken, and whether it is in the calls of the last one. *)
Record Link := { lk_open : bool; lk_taken : nat; lk_busy : bool }.

(** The state of the tasks: the polls still to come (their results), the bounded channel,
    whether the producer is done, the store, the message the consumer waits to send, all
    that was sent, and the replication task. *)
Record Pipe := {
  pi_polls : list (result (list FlightDocument) string);
  pi_channel : list (list FlightDocument);
  pi_closed : bool;
  pi_store : ShardStore;
  pi_pending : option (list FlightDocument);
  pi_forwarded : list (list FlightDocument);
  pi_link : Link;
}.

Definition pipe_start (polls : list (result (list FlightDocument) string)) (store : ShardStore)
    : Pipe :=
  {| pi_polls := polls; pi_channel := []; pi_closed := false; pi_store := store;
     pi_pending := None; pi_forwarded := [];
     pi_link := {| lk_open := true; lk_taken := 0; lk_busy := false |} |}.

(** Any task may move. The producer blocks on a full channel, and drops it after its last
    poll. The consumer takes the oldest batch, and blocks on a full replication channel,
    unless the task at its end has gone away. That task takes the oldest message and makes
    its calls, and [calls_end] is their end. *)
Inductive pipe_step : Pipe → Pipe → Prop :=
| produce batch polls chan store pend fwd lk :
    batch ≠ [] → (length chan < CHANNEL)%nat →
    pipe_step
      {| pi_polls := Ok batch :: polls; pi_channel := chan; pi_closed := false; pi_store := store;
         pi_pending := pend; pi_forwarded := fwd; pi_link := lk |}
      {| pi_polls := polls; pi_channel := chan ++ [batch]; pi_closed := false; pi_store := store;
         pi_pending := pend; pi_forwarded := fwd; pi_link := lk |}
| produce_nothing poll polls chan store pend fwd lk :
    poll = Ok [] ∨ (∃ e, poll = Err e) →
    pipe_step
      {| pi_polls := poll :: polls; pi_channel := chan; pi_closed := false; pi_store := store;
         pi_pending := pend; pi_forwarded := fwd; pi_link := lk |}
      {| pi_polls := polls; pi_channel := chan; pi_closed := false; pi_store := store;
         pi_pending := pend; pi_forwarded := fwd; pi_link := lk |}
| close chan store pend fwd lk :
    pipe_step
      {| pi_polls := []; pi_channel := chan; pi_closed := false; pi_store := store;
         pi_pending := pend; pi_forwarded := fwd; pi_link := lk |}
      {| pi_polls := []; pi_channel := chan; pi_closed := true; pi_store := store;
         pi_pending := pend; pi_forwarded := fwd; pi_link := lk |}
| consume polls batch chan closed store store' msg fwd lk :
    ingest_batch store batch = Some (store', msg) →
    pipe_step
      {| pi_polls := polls; pi_channel := batch :: chan; pi_closed := closed; pi_store := store;
         pi_pending := None; pi_forwarded := fwd; pi_link := lk |}
      {| pi_polls := polls; pi_channel := chan; pi_closed := closed; pi_store := store';
         pi_pending := msg; pi_forwarded := fwd; pi_link := lk |}
| forward polls chan closed store msg fwd taken busy :
    (length fwd < taken + REPLICATION_CHANNEL)%nat →
    pipe_step
      {| pi_polls := polls; pi_channel := chan; pi_closed := closed; pi_store := store;
         pi_pending := Some msg; pi_forwarded := fwd;
         pi_link := {| lk_open := true; lk_taken := taken; lk_busy := busy |} |}
      {| pi_polls := polls; pi_channel := chan; pi_closed := closed; pi_store := store;
         pi_pending := None; pi_forwarded := fwd ++ [msg];
         pi_link := {| lk_open := true; lk_taken := taken; lk_busy := busy |} |}
| forward_fails polls chan closed store msg fwd taken busy :
    pipe_step
      {| pi_polls := polls; pi_channel := chan; pi_closed := closed; pi_store := store;
         pi_pending := Some msg; pi_forwarded := fwd;
         pi_link := {| lk_open := false; lk_taken := taken; lk_busy := busy |} |}
      {| pi_polls := polls; pi_channel := chan; pi_closed := closed; pi_store := store;
         pi_pending := None; pi_forwarded := fwd;
         pi_link := {| lk_open := false; lk_taken := taken; lk_busy := busy |} |}
| take_message polls chan closed store pend fwd taken :
    (taken < length fwd)%nat →
    pipe_step
      {| pi_polls := polls; pi_channel := chan; pi_closed := closed; pi_store := store;
         pi_pending := pend; pi_forwarded := fwd;
         pi_link := {| lk_open := true; lk_taken := taken; lk_busy := false |} |}
      {| pi_polls := polls; pi_channel := chan; pi_closed := closed; pi_store := store;
         pi_pending := pend; pi_forwarded := fwd;
         pi_link := {| lk_open := true; lk_taken := S taken; lk_busy := true |} |}
| calls_end polls chan closed store pend fwd taken :
    pipe_step
      {| pi_polls := polls; pi_channel := chan; pi_closed := closed; pi_store := store;
         pi_pending := pend; pi_forwarded := fwd;
         pi_link := {| lk_open := true; lk_taken := taken; lk_busy := true |} |}
      {| pi_polls := polls; pi_channel := chan; pi_closed := closed; pi_store := store;
         pi_pending := pend; pi_forwarded := fwd;
         pi_link := {| lk_open := true; lk_taken := taken; lk_busy := false |} |}
| receiver_gone polls chan closed store pend fwd taken busy :
    pipe_step
      {| pi_polls := polls; pi_channel := chan; pi_closed := closed; pi_store := store;
         pi_pending := pend; pi_forwarded := fwd;
         pi_link := {| lk_open := true; lk_taken := taken; lk_busy := busy |} |}
      {| pi_polls := polls; pi_channel := chan; pi_closed := closed; pi_store := store;
         pi_pending := pend; pi_forwarded := fwd;
         pi_link := {| lk_open := false; lk_taken := taken; lk_busy := false |} |}.

(** [run_ingestion] has returned. *)
Definition pipe_done (p : Pipe) : Prop :=
  pi_closed p = true ∧ pi_channel p = [] ∧ pi_pending p = None.

(** The batches of a list of polls. *)
Definition batches (polls : list (result (list FlightDocument) string))
    : list (list FlightDocument) :=
  omap (λ r, match r with Ok [] => None | Ok b => Some b | Err _ => None end) polls.

(** The order of work still to do, for termination. *)
Definition pipe_work (p : Pipe) : nat :=
  (6 * length (pi_polls p) + 5 * length (pi_channel p) + (if pi_closed p then 0 else 1) +
   (if pi_pending p then 4 else 0) + 3 * (length (pi_forwarded p) - lk_taken (pi_link p)) +
   (if lk_busy (pi_link p) then 1 else 0) + if lk_open (pi_link p) then 1 else 0)%nat.

(** The consumer is stuck behind the followers: it has a message to send, the replication
    channel is full, and the task at its end is in its calls. *)
Definition stuck (p : Pipe) : Prop :=
  is_Some (pi_pending p) ∧
  pi_link p = {| lk_open := true; lk_taken := length (pi_forwarded p) - REPLICATION_CHANNEL; lk_busy := true |}.

(** A step that ends the calls of the replication task. *)
Definition ends_calls (p p' : Pipe) : Prop :=
  lk_busy (pi_link p) = true ∧ lk_busy (pi_link p') = false.

(** ** Lemmas *)

Lemma insert_docs_app m d1 d2 : insert_docs m (d1 ++ d2) = insert_docs (insert_docs m d1) d2.
Proof. apply foldl_app. Qed.

Lemma owned_concat bs : owned (concat bs) = concat (owned <$> bs).
Proof.
  unfold owned. induction bs as [|b bs IH]; [done|]. cbn [concat fmap list_fmap].
  by rewrite filter_app, IH.
Qed.

(** Everything still in flight, added to what is stored, is a constant. *)
Record pipe_inv (all : list (list FlightDocument)) (m : gmap string FlightDocument) (p : Pipe)
    : Prop := {
  pv_wf : store_wf (pi_store p);
  pv_bound : (length (pi_channel p) ≤ CHANNEL)%nat;
  pv_closed : pi_closed p = true → pi_polls p = [];
  pv_taken : (lk_taken (pi_link p) ≤ length (pi_forwarded p) ≤ lk_taken (pi_link p) + REPLICATION_CHANNEL)%nat;
  pv_rest : ∃ past, all = past ++ pi_channel p ++ batches (pi_polls p) ∧
    st_contents (pi_store p) = insert_docs m (owned (concat past)) ∧
    (pi_forwarded p ++ option_list (pi_pending p)) `sublist_of` (if replicate_tx then owned <$> past else []) ∧
    (lk_open (pi_link p) = true →
     pi_forwarded p ++ option_list (pi_pending p) = if replicate_tx then owned <$> past else []);
}.

Lemma pipe_step_work p p' :
  (lk_taken (pi_link p) ≤ length (pi_forwarded p))%nat → pipe_step p p' → (pipe_work p' < pipe_work p)%nat.
Proof.
  intros Ht Hs. unfold pipe_work. destruct Hs as [| | | ? ? ? ? ? ? [msg|]| | | | |]; cbn in *;
    rewrite ?length_app; cbn; repeat case_match; lia.
Qed.

Lemma pipe_step_inv all m p p' : pipe_inv all m p → pipe_step p p' → pipe_inv all m p'.
Proof.
  intros [Hwf Hb Hc Ht (past & Hall & Hst & Hsub & Hf)] Hs. unfold REPLICATION_CHANNEL in *.
  destruct Hs as [batch polls chan store pend fwd lk Hne Hlen|poll polls chan store pend fwd lk Hp
    |chan store pend fwd lk|polls batch chan closed store store' msg fwd lk E| | | | |];
    cbn in *; try (split; unfold REPLICATION_CHANNEL; cbn; [done|done|done|lia|by exists past]).
  - split; cbn; [done|rewrite length_app; cbn; lia|done|done|].
    exists past. split_and!; [|done..]. rewrite Hall. destruct batch; [done|].
    cbn. by rewrite <- app_assoc.
  - split; cbn; [done..|]. exists past. split_and!; [|done..]. rewrite Hall.
    by destruct Hp as [->|[e ->]].
  - unfold ingest_batch in E.
    destruct (st_insert_all_spec store (owned batch) Hwf) as (s & Es & Hwf' & Hc' & _).
    rewrite Es in E. cbn in E. injection E as <- <-. rewrite app_nil_r in *.
    split; cbn; [done|lia|done|done|]. exists (past ++ [batch]). split_and!.
    + by rewrite Hall, <- app_assoc.
    + rewrite Hc', Hst, concat_app. cbn. rewrite app_nil_r. unfold owned.
      by rewrite filter_app, insert_docs_app.
    + destruct replicate_tx; cbn; [|by rewrite app_nil_r]. rewrite fmap_app. by apply sublist_app.
    + intros Ho. destruct replicate_tx; cbn; rewrite ?app_nil_r, ?fmap_app, Hf; done.
  - split; cbn; [done|done|done|rewrite length_app; unfold REPLICATION_CHANNEL in *; cbn; lia|].
    exists past. by rewrite app_nil_r.
  - split; cbn; [done..|]. exists past. rewrite app_nil_r. split_and!; [done|done| |done].
    etrans; [|exact Hsub]. by apply sublist_inserts_r.
Qed.

(** Something can move until all is done, without the replication task going away; and
    unless the consumer is stuck, something else than the end of its calls. *)
Lemma pipe_progress all m p :
  pipe_inv all m p →
  pipe_done p ∨ ∃ p', pipe_step p p' ∧ lk_open (pi_link p') = lk_open (pi_link p) ∧
                      (stuck p ∨ ¬ ends_calls p p').
Proof.
  intros [Hwf Hb Hc Ht _]. destruct p as [polls chan closed store pend fwd [open taken busy]]. cbn in *.
  assert (∀ p p', pi_link p' = pi_link p → ¬ ends_calls p p') as Hsame by (intros p p' E [??]; congruence).
  destruct pend as [msg|].
  { right. destruct open; [|eexists; split_and!; [apply forward_fails|done|right; by apply Hsame]].
    destruct (decide (length fwd < taken + REPLICATION_CHANNEL)%nat) as [Hr|Hr];
      [eexists; split_and!; [by apply forward|done|right; by apply Hsame]|].
    unfold REPLICATION_CHANNEL in *. destruct busy; eexists.
    - split_and!; [apply calls_end|done|left]. split; [by eexists|]. cbn. f_equal. unfold REPLICATION_CHANNEL. lia.
    - split_and!; [apply take_message; lia|done|right]. by intros [??]. }
  destruct chan as [|batch chan].
  - destruct closed; [by left|]. right.
    destruct polls as [|[[|d b]|e] polls]; eexists.
    + split_and!; [apply close|done|right; by apply Hsame].
    + split_and!; [apply produce_nothing; by left|done|right; by apply Hsame].
    + split_and!; [apply produce; [done|cbn; unfold CHANNEL; lia]|done|right; by apply Hsame].
    + split_and!; [apply produce_nothing; right; by exists e|done|right; by apply Hsame].
  - right. destruct (st_insert_all_spec store (owned batch) Hwf) as (s & Es & _).
    assert (ingest_batch store batch = Some (s, if replicate_tx then Some (owned batch) else None)) as E
      by (unfold ingest_batch; by rewrite Es).
    eexists. split_and!; [exact (consume _ _ _ _ _ _ _ _ _ E)|done|right; by apply Hsame].
Qed.

Lemma pipe_steps_inv all m p p' :
  pipe_inv all m p → rtc pipe_step p p' → pipe_inv all m p'.
Proof.
  intros Hi Hs. induction Hs as [p|p p1 p2 Hs _ IH]; [done|]. apply IH.
  by eapply pipe_step_inv.
Qed.

Lemma pipe_start_inv polls store :
  store_wf store → pipe_inv (batches polls) (st_contents store) (pipe_start polls store).
Proof.
  intros Hwf. split; cbn; [done|lia|done|lia|]. exists []. split_and!; [done|done|..];
    by destruct replicate_tx.
Qed.

(** A run that has ended has stored every owned document, and forwarded every one if the
    replication task is there to the end. *)
Lemma pipe_done_contents polls store p :
  store_wf store → rtc pipe_step (pipe_start polls store) p → pipe_done p →
  store_wf (pi_store p) ∧
  st_contents (pi_store p) = insert_docs (st_contents store) (owned (concat (batches polls))) ∧
  pi_forwarded p `sublist_of` (if replicate_tx then owned <$> batches polls else []) ∧
  (lk_open (pi_link p) = true → pi_forwarded p = if replicate_tx then owned <$> batches polls else []).
Proof.
  intros Hwf Hrun (Hc & He & Hp).
  destruct (pipe_steps_inv _ _ _ _ (pipe_start_inv polls store Hwf) Hrun)
    as [Hs _ Hcl _ (past & Hall & Hst & Hsub & Hf)].
  rewrite He, (Hcl Hc) in Hall. cbn in Hall. rewrite app_nil_r in Hall.
  rewrite Hp in Hsub, Hf. cbn in Hsub, Hf. rewrite app_nil_r in Hsub, Hf. by rewrite Hall.
Qed.

End loop.

(** ** Properties *)

Section properties.
Context {HO : HashOrder} {UC : Unicode} {EM : Embedder} {HN : Hnsw}.

(** Who owns a document, under each placement. *)
Lemma modulo_owns i n icao24 :
  owns (Modulo {| sa_index := i; sa_count := n |}) icao24 = true ↔ i = shard_for icao24 n.
Proof. cbn. unfold sa_owns. cbn. rewrite Z.eqb_eq. done. Qed.

Lemma table_owner (table : list Z) icao24 :
  table ≠ [] → Z.of_nat (length table) < 2 ^ 32 →
  ∃ g, g ∈ table ∧ ∀ g', owns (Mapped g' table) icao24 = true ↔ g' = g.
Proof.
  intros Hne Hlen. assert (len_u32 table = Z.of_nat (length table)) as Hl.
  { unfold len_u32, wrap_u32. apply Z.mod_small. lia. }
  destruct (nz_new_Some (Z.of_nat (length table))) as (v & Hv & Hg).
  { destruct table; [done|]. cbn [length] in *. lia. }
  pose proof (shard_for_lt icao24 v) as Hr. fold (vshard_for icao24 v) in Hr.
  destruct (lookup_lt_is_Some_2 table (Z.to_nat (vshard_for icao24 v))) as [g Htab]; [lia|].
  exists g. split; [by apply list_elem_of_lookup_2 in Htab|]. intros g'. cbn [owns].
  rewrite Hl, Hv, bool_decide_eq_true, Htab. split; [by intros [= ->]|by intros ->].
Qed.

(** Exactly one owner. Under fixed placement every document has one owner among the
    [N] nodes; under virtual shards every document has one owning group, the one the
    table names for its virtual shard, and before the first fetch of the table no node
    owns anything. *)
Theorem ownership_partition (icao24 : string) :
  (∀ n, exists! i, 0 ≤ i < nz_get n ∧ owns (Modulo {| sa_index := i; sa_count := n |}) icao24 = true) ∧
  (∀ table, table ≠ [] → (Z.of_nat (length table) < 2 ^ 32) →
     exists! g, owns (Mapped g table) icao24 = true) ∧
  (∀ g, owns (Mapped g []) icao24 = false).
Proof.
  split_and!.
  - intros n. exists (shard_for icao24 n). split.
    + split; [apply shard_for_lt|]. by apply modulo_owns.
    + intros i [_ Hi]. by apply modulo_owns in Hi.
  - intros table Hne Hlen. destruct (table_owner table icao24 Hne Hlen) as (g & _ & Hg).
    exists g. split; [by apply Hg|]. intros g' Hg'. by apply Hg in Hg'.
  - intros g. done.
Qed.


(** Replication can stall the data plane: once the replication channel is full and the
    calls of the replication task do not end, the consumer is stuck, and when the producer's
    channel is full too, nothing moves any more until they do (or their task dies). *)
Theorem stalled_follower_stops_ingestion (ownership : Ownership) (replicate_tx : bool) (p : Pipe)
    (batch : list FlightDocument) (polls : list (result (list FlightDocument) string))
    (Hstuck : stuck p) (Hfull : length (pi_channel p) = CHANNEL) (Hopen : pi_closed p = false)
    (Hpolls : pi_polls p = Ok batch :: polls) (Hb : batch ≠ [])
    (Hf : (REPLICATION_CHANNEL ≤ length (pi_forwarded p))%nat) :
  ∀ p', pipe_step ownership replicate_tx p p' → ends_calls p p'.
Proof.
  intros p' Hs. destruct Hstuck as [[msg Hm] Hl]. destruct Hs; cbn in *; simplify_eq; try done;
    try (exfalso; unfold CHANNEL, REPLICATION_CHANNEL in *; lia).
  naive_solver.
Qed.

End properties.

(** ** Witnesses *)

#[local] Existing Instances canonical_order ascii_only tiny_embedder scan_graph stable_sort.


(** Fourteen snapshots are enough: the followers' calls for the first do not end, eight
    wait in the replication channel, one in the consumer's hands and four before it. *)
Definition stalled : Pipe :=
  {| pi_polls := [Ok [default_doc]]; pi_channel := repeat [default_doc] 4; pi_closed := false;
     pi_store := st_new; pi_pending := Some []; pi_forwarded := repeat [] 9;
     pi_link := {| lk_open := true; lk_taken := 1; lk_busy := true |} |}.

Lemma stalled_reached :
  let own := Mapped 0 [] in
  rtc (pipe_step own true) (pipe_start (repeat (Ok [default_doc]) 15) st_new) stalled ∧
  ∀ p', pipe_step own true stalled p' → ends_calls stalled p'.
Proof.
  intros own. split; [|by eapply stalled_follower_stops_ingestion; [split; [by eexists|]|..|vm_compute; lia]].
  pose proof (λ polls chan store pend fwd lk (H : (length chan < CHANNEL)%nat),
    produce own true [default_doc] polls chan store pend fwd lk ltac:(done) H) as Hp.
  pose proof (λ polls chan fwd lk, consume own true polls [default_doc] chan false st_new st_new (Some []) fwd lk
    ltac:(vm_compute; reflexivity)) as Hc.
  pose proof (forward own true) as Hf. unfold CHANNEL, REPLICATION_CHANNEL in *.
  unfold pipe_start, stalled. cbn [repeat].
  eapply rtc_l; [apply Hp; cbn; lia|]. eapply rtc_l; [apply Hc|]. eapply rtc_l; [apply Hf; cbn; lia|].
  eapply rtc_l; [apply take_message; cbn; lia|].
  do 8 (eapply rtc_l; [apply Hp; cbn; lia|]; eapply rtc_l; [apply Hc|]; eapply rtc_l; [apply Hf; cbn; lia|]).
  eapply rtc_l; [apply Hp; cbn; lia|]. eapply rtc_l; [apply Hc|].
  do 4 (eapply rtc_l; [apply Hp; cbn; lia|]). apply rtc_refl.
Qed.

(** The seed is padded to four hexadecimal digits and takes up to eight, so the ids of two
    producers can meet. *)
Theorem synthetic_ids_collide :
  fd_icao24 (synthetic_doc 0x1234 0x5000001) = fd_icao24 (synthetic_doc 0x12345 0x000001) ∧
  fd_icao24 (security_doc 0x1234 0x5000001) = fd_icao24 (security_doc 0x12345 0x000001).
Proof. split; vm_compute; reflexivity. Qed.
