(* ===== verification/Sources.v ===== *)
(** * Feeds: the HTTP, OpenSky and S3 sources of [crates/shard-node/src/ingest.rs]

    One poll of each source, over what the HTTP client and the object store answer; the
    mapping of records onto documents is in [Ingest]. An error is its message. The trait
    [FlightSource] is a class with an instance for each source and for the boxed one the
    binary chooses at run time; ingestion runs against it, whatever the source. *)

From S2P Require Export Ingest.

Section sources.
Context {JS : Json} {UC : Unicode} {FL : FloatLib} (value_display : Value → string).

(** ** The HTTP connector *)

Record HttpSource := {
  hs_url : string;
  hs_id_field : string;
  hs_id_prefix : string;
  hs_records_path : list string;
}.

Definition dot : N := 46.

(** The values of the variables, when set. *)
Definition http_from_env (path url id_field id_prefix : option string) : HttpSource :=
  {| hs_url := default EmptyString url;
     hs_id_field := default "id"%string id_field;
     hs_id_prefix := default "http"%string id_prefix;
     hs_records_path :=
       filter (λ s, s ≠ EmptyString) (str_split (λ c, c =? dot)%N (default EmptyString path)) |}.

(** [get url] is sending the request, the status check and decoding the body. *)
Definition http_fetch (src : HttpSource) (get : string → result Value string)
    : result (list FlightDocument) string :=
  if str_is_empty (hs_url src) then Err "AETHER_HTTP_URL is not set"%string
  else
    v <-? get (hs_url src);;
    Ok (json_to_docs value_display v (hs_id_field src) (hs_id_prefix src) (hs_records_path src)).

(** ** OpenSky *)

Definition OPENSKY_STATES_URL : string := "https://opensky-network.org/api/states/all".

Record OpenSkySource := { os_url : string; os_auth : option (string * string) }.

Definition opensky_from_env (username password : option string) : OpenSkySource :=
  {| os_url := OPENSKY_STATES_URL;
     os_auth := match username, password with
                | Some u, Some p =>
                    if negb (str_is_empty u) && negb (str_is_empty p) then Some (u, p) else None
                | _, _ => None
                end |}.

(** [get url auth] decodes the body to the states of the response. *)
Definition opensky_fetch (src : OpenSkySource)
    (get : string → option (string * string) → result (option (list (list Value))) string)
    : result (list FlightDocument) string :=
  states <-? get (os_url src) (os_auth src);;
  Ok (opensky_docs states).

(** ** The S3 connector *)

Record S3Source := { ss_bucket : string; ss_prefix : string; ss_id_field : string }.

Definition s3_source_from_env (bucket prefix id_field : option string) : S3Source :=
  {| ss_bucket := default EmptyString bucket; ss_prefix := default EmptyString prefix;
     ss_id_field := default "id"%string id_field |}.

(** [so_list] are the keys listed (an object may come without one), [so_get] an object's
    body, [so_parse] its JSON. The errors are those of the client. *)
Record S3Answers := {
  so_list : result (list (option string)) string;
  so_get : string → result string string;
  so_body : string → result string string;
  so_parse : string → option Value;
}.

Fixpoint s3_objects (src : S3Source) (a : S3Answers) (contents : list (option string))
    (docs : list FlightDocument) : result (list FlightDocument) string :=
  match contents with
  | [] => Ok docs
  | None :: rest => s3_objects src a rest docs
  | Some key :: rest =>
      got <-? map_err (λ e, "s3 get " +:+ key +:+ ": " +:+ e) (so_get a key);;
      bytes <-? map_err (λ e, "s3 body " +:+ key +:+ ": " +:+ e) (so_body a got);;
      match so_parse a bytes with
      | None => s3_objects src a rest docs
      | Some v =>
          s3_objects src a rest
            (docs ++ json_to_docs value_display v (ss_id_field src) ("s3:" +:+ key) [])
      end
  end.

Definition s3_fetch (src : S3Source) (a : S3Answers) : result (list FlightDocument) string :=
  if str_is_empty (ss_bucket src) then Err "AETHER_S3_INGEST_BUCKET is not set"%string
  else
    contents <-? map_err (λ e, "s3 list: " +:+ e) (so_list a);;
    s3_objects src a contents [].

(** ** The trait *)

(** What the outside answers during one poll. *)
Record Answers := {
  an_http : string → result Value string;
  an_opensky : string → option (string * string) → result (option (list (list Value))) string;
  an_s3 : S3Answers;
}.

(** [FlightSource]: one snapshot, and the source after it. *)
Class FlightSource (S : Type) := fetch : S → Answers → S * result (list FlightDocument) string.

#[export] Instance SyntheticFlightSource : FlightSource SyntheticSource := λ src _,
  let '(docs, seq) := synthetic_fetch (sy_seed src) (sy_batch_size src) (sy_seq src) in
  ({| sy_seed := sy_seed src; sy_batch_size := sy_batch_size src; sy_seq := seq |}, Ok docs).

#[export] Instance SecurityFlightSource : FlightSource SecuritySource := λ src _,
  let '(docs, seq) := security_fetch (se_seed src) (se_batch_size src) (se_seq src) in
  ({| se_seed := se_seed src; se_batch_size := se_batch_size src; se_seq := seq |}, Ok docs).

#[export] Instance HttpFlightSource : FlightSource HttpSource :=
  λ src a, (src, http_fetch src (an_http a)).
#[export] Instance OpenSkyFlightSource : FlightSource OpenSkySource :=
  λ src a, (src, opensky_fetch src (an_opensky a)).
#[export] Instance S3FlightSource : FlightSource S3Source := λ src a, (src, s3_fetch src (an_s3 a)).

(** [Box<dyn FlightSource>] over the sources there are: the call goes to the one in it. *)
Inductive FeedSource :=
| SyntheticFeed (src : SyntheticSource)
| SecurityFeed (src : SecuritySource)
| HttpFeed (src : HttpSource)
| S3Feed (src : S3Source)
| OpenSkyFeed (src : OpenSkySource).

#[export] Instance BoxedFlightSource : FlightSource FeedSource := λ feed a,
  match feed with
  | SyntheticFeed src => let '(src, r) := fetch src a in (SyntheticFeed src, r)
  | SecurityFeed src => let '(src, r) := fetch src a in (SecurityFeed src, r)
  | HttpFeed src => let '(src, r) := fetch src a in (HttpFeed src, r)
  | S3Feed src => let '(src, r) := fetch src a in (S3Feed src, r)
  | OpenSkyFeed src => let '(src, r) := fetch src a in (OpenSkyFeed src, r)
  end.

(** The polls of a source, one per entry of [answers]: what [run_ingestion] does with
    [max_polls] set to their number. *)
Fixpoint poll_all {S} `{!FlightSource S} (src : S) (answers : list Answers)
    : S * list (result (list FlightDocument) string) :=
  match answers with
  | [] => (src, [])
  | a :: rest =>
      let '(src, r) := fetch src a in
      let '(src, rs) := poll_all src rest in (src, r :: rs)
  end.

Definition run_ingestion `{!Hnsw} {S} `{!FlightSource S} (src : S) (answers : list Answers)
    (store : ShardStore) : Pipe := pipe_start (poll_all src answers).2 store.

(** ** Specification *)

(** The id a record is given, before its prefix. *)
Definition record_id (rec : Value) (id_field : string) (idx : nat) : string :=
  match value_get rec id_field with
  | Some (JString s) => s
  | Some other => value_display other
  | None => show_nat idx
  end.

(** The records of a response. *)
Definition records_of (v : Value) (records_path : list string) : list Value :=
  match navigate v records_path with
  | Some (Array a) => a
  | Some (Object o) => [Object o]
  | _ => []
  end.

(** What an object contributes. *)
Definition object_docs (src : S3Source) (a : S3Answers) (key : string) : list FlightDocument :=
  match so_get a key with
  | Ok got =>
      match so_body a got with
      | Ok bytes =>
          match so_parse a bytes with
          | Some v => json_to_docs value_display v (ss_id_field src) ("s3:" +:+ key) []
          | None => []
          end
      | Err _ => []
      end
  | Err _ => []
  end.

Definition no_dash (s : string) : Prop := Forall (λ b, b ≠ 45%N) (str_bytes s).

(** ** Lemmas *)

(** Flattening fills fields; it never changes the id. *)
Lemma flatten_value_id : ∀ v prefix doc, fd_icao24 (flatten_value v prefix doc) = fd_icao24 doc.
Proof.
  fix IH 1. intros v. destruct v as [| | | | |o]; intros prefix; [reflexivity..|]. cbn [flatten_value].
  revert o. fix IHo 1. intros o doc. destruct o as [|[k w] o]; [reflexivity|]. rewrite (IHo o).
  pose proof (IH w) as Hw. unfold flatten_field. clear IH IHo.
  destruct w; try done; by repeat case_match.
Qed.

Lemma record_to_doc_id rec id_field id_prefix idx :
  fd_icao24 (record_to_doc value_display rec id_field id_prefix idx) =
  id_prefix +:+ "-" +:+ record_id rec id_field idx.
Proof. unfold record_to_doc. destruct rec; try done. unfold flatten_into. by rewrite flatten_value_id. Qed.

Lemma json_to_docs_ids v id_field id_prefix path :
  fd_icao24 <$> json_to_docs value_display v id_field id_prefix path =
  (λ ir : nat * Value, id_prefix +:+ "-" +:+ record_id ir.2 id_field ir.1) <$> enumerate (records_of v path).
Proof.
  unfold json_to_docs, records_of. destruct (navigate v path) as [cur|]; [|done].
  rewrite <- list_fmap_compose.
  destruct cur; apply list_fmap_ext; intros i [j r] _; apply record_to_doc_id.
Qed.

Lemma no_dash_split a b x y :
  no_dash x → no_dash y → a +:+ "-" +:+ x = b +:+ "-" +:+ y → a = b ∧ x = y.
Proof.
  intros Hx Hy E. apply (f_equal str_bytes) in E. rewrite !str_bytes_app in E. cbn [str_bytes app] in E.
  change (N_of_ascii "-") with 45%N in E.
  assert (∀ (k l p q : list N), Forall (λ b, b ≠ 45%N) p → Forall (λ b, b ≠ 45%N) q →
    k ++ 45%N :: p = l ++ 45%N :: q → k = l ∧ p = q) as H.
  { clear. induction k as [|c k IH]; intros l p q Hp Hq E.
    - destruct l as [|d l]; [by injection E as ->|]. injection E as <- ->.
      apply Forall_app in Hp as [_ Hp]. by apply Forall_cons in Hp as [? _].
    - destruct l as [|d l].
      + injection E as -> <-. apply Forall_app in Hq as [_ Hq]. by apply Forall_cons in Hq as [? _].
      + injection E as -> E. destruct (IH l p q Hp Hq E) as [-> ->]. done. }
  destruct (H _ _ _ _ Hx Hy E) as [E1 E2].
  split; [by rewrite <- (str_of_bytes_bytes a), E1, str_of_bytes_bytes|].
  by rewrite <- (str_of_bytes_bytes x), E2, str_of_bytes_bytes.
Qed.

Lemma s3_objects_spec src a contents docs :
  match s3_objects src a contents docs with
  | Ok out => out = docs ++ (omap (λ k, k) contents ≫= object_docs src a) ∧
      Forall (λ k, ∃ got b, so_get a k = Ok got ∧ so_body a got = Ok b) (omap (λ k, k) contents)
  | Err e => ∃ before key after, contents = before ++ Some key :: after ∧
      Forall (λ k, ∃ got b, so_get a k = Ok got ∧ so_body a got = Ok b) (omap (λ k, k) before) ∧
      ((∃ e', so_get a key = Err e' ∧ e = "s3 get " +:+ key +:+ ": " +:+ e') ∨
       ∃ got e', so_get a key = Ok got ∧ so_body a got = Err e' ∧ e = "s3 body " +:+ key +:+ ": " +:+ e')
  end.
Proof.
  revert docs. induction contents as [|[key|] rest IH]; intros docs; cbn [s3_objects].
  { cbn. by rewrite app_nil_r. }
  - destruct (so_get a key) as [got|e] eqn:Eg; cbn [map_err].
    2: { exists [], key, rest. split_and!; [done|constructor|]. left. by exists e. }
    destruct (so_body a got) as [b|e] eqn:Eb; cbn [map_err].
    2: { exists [], key, rest. split_and!; [done|constructor|]. right. by exists got, e. }
    assert (∀ docs', docs' = docs ++ object_docs src a key →
      match s3_objects src a rest docs' with
      | Ok out => out = docs ++ (omap (λ k, k) (Some key :: rest) ≫= object_docs src a) ∧
          Forall (λ k, ∃ got b, so_get a k = Ok got ∧ so_body a got = Ok b) (omap (λ k, k) (Some key :: rest))
      | Err e => ∃ before key' after, Some key :: rest = before ++ Some key' :: after ∧
          Forall (λ k, ∃ got b, so_get a k = Ok got ∧ so_body a got = Ok b) (omap (λ k, k) before) ∧
          ((∃ e', so_get a key' = Err e' ∧ e = "s3 get " +:+ key' +:+ ": " +:+ e') ∨
           ∃ got e', so_get a key' = Ok got ∧ so_body a got = Err e' ∧ e = "s3 body " +:+ key' +:+ ": " +:+ e')
      end) as Hstep.
    { intros docs' ->. specialize (IH (docs ++ object_docs src a key)).
      destruct (s3_objects src a rest _) as [out|e].
      - destruct IH as [-> Hf]. cbn [omap list_omap mbind list_bind].
        split; [by rewrite <- app_assoc|]. constructor; [by eauto|done].
      - destruct IH as (bf & k & af & -> & Hf & Hk). exists (Some key :: bf), k, af.
        split_and!; [done| |done]. cbn [omap list_omap]. constructor; [by eauto|done]. }
    destruct (so_parse a b) as [v|] eqn:Ep; apply Hstep; unfold object_docs; rewrite Eg, Eb, Ep;
      [done|by rewrite app_nil_r].
  - specialize (IH docs). destruct (s3_objects src a rest docs) as [out|e].
    + destruct IH as [-> Hf]. done.
    + destruct IH as (bf & k & af & -> & Hf & Hk). by exists (None :: bf), k, af.
Qed.

(** *** Generated feeds *)

Lemma synthetic_id_inj seed x y :
  0 ≤ x < 2 ^ 64 → 0 ≤ y < 2 ^ 64 →
  fd_icao24 (synthetic_doc seed x) = fd_icao24 (synthetic_doc seed y) → x = y.
Proof.
  intros Hx Hy E. cbn [fd_icao24 synthetic_doc] in E. apply (f_equal str_bytes) in E.
  rewrite !str_bytes_app in E. apply app_inv_head in E. unfold hex_pad in E.
  by rewrite <- (hex_pad_value 6 x Hx), E, hex_pad_value.
Qed.

Lemma batches_ok docs polls : concat (batches (Ok docs :: polls)) = docs ++ concat (batches polls).
Proof. by destruct docs. Qed.

(** The polls of a synthetic source, put together: consecutive numbers. *)
Lemma synthetic_polls (src : SyntheticSource) answers :
  concat (batches (poll_all src answers).2) =
  synthetic_doc (sy_seed src) <$>
    ((λ i, wrap_u32 (sy_seq src + Z.of_nat i)) <$> List.seq 0 (length answers * sy_batch_size src)).
Proof.
  revert src. induction answers as [|a answers IH]; intros [seed b seq]; [done|].
  cbn [poll_all fetch SyntheticFlightSource synthetic_fetch sy_seed sy_batch_size sy_seq].
  specialize (IH {| sy_seed := seed; sy_batch_size := b; sy_seq := seq_after b seq |}).
  destruct (poll_all _ answers) as [src' rs]. cbn [snd sy_seed sy_batch_size sy_seq length] in *.
  rewrite batches_ok, IH, Nat.mul_succ_l, (Nat.add_comm _ b), seq_app, !fmap_app. f_equal.
  f_equal. cbn [Nat.add]. replace (List.seq b _) with (Nat.add b <$> List.seq 0 (length answers * b))
    by (by rewrite fmap_add_seq, Nat.add_0_r). rewrite <- list_fmap_compose.
  apply list_fmap_ext. intros _ i _. cbn. unfold seq_after, wrap_u32.
  rewrite Z.add_mod_idemp_l by lia. f_equal. lia.
Qed.
End sources.

(** ** Properties *)

Section properties.
Context {JS : Json} {UC : Unicode} {FL : FloatLib} (value_display : Value → string).

(** One poll of the S3 source: all the records of all the objects listed, in order,
    without those that are not JSON; or the first failure, and then nothing. *)
Theorem s3_fetch_spec (src : S3Source) (a : S3Answers) :
  match s3_fetch value_display src a with
  | Ok docs => ss_bucket src ≠ EmptyString ∧ ∃ contents, so_list a = Ok contents ∧
      docs = omap (λ k, k) contents ≫= object_docs value_display src a ∧
      ∀ k, Some k ∈ contents → ∃ got b, so_get a k = Ok got ∧ so_body a got = Ok b
  | Err _ => ss_bucket src = EmptyString ∨ (∃ e, so_list a = Err e) ∨
      ∃ contents k, so_list a = Ok contents ∧ Some k ∈ contents ∧
        ¬ ∃ got b, so_get a k = Ok got ∧ so_body a got = Ok b
  end.
Proof.
  unfold s3_fetch, str_is_empty. case_bool_decide as He; [by left|].
  destruct (so_list a) as [contents|e]; cbn [map_err]; [|right; left; by exists e].
  pose proof (s3_objects_spec value_display src a contents []) as H.
  destruct (s3_objects value_display src a contents []) as [docs|e].
  - destruct H as [-> Hf]. split; [done|]. exists contents. split_and!; [done|done|].
    intros k Hk. rewrite Forall_forall in Hf. apply Hf, list_elem_of_omap. by exists (Some k).
  - destruct H as (b & k & af & -> & _ & Hk). right. right. exists (b ++ Some k :: af), k.
    split_and!; [done|set_solver|]. intros (got & bytes & Hg & Hb).
    destruct Hk as [(e' & ? & _)|(got' & e' & ? & ? & _)]; congruence.
Qed.

(** Ids of different objects are different as long as the records' own ids hold no dash. *)
Theorem object_ids_distinct (src : S3Source) (a : S3Answers) (k1 k2 : string) (d1 d2 : FlightDocument)
    (H1 : d1 ∈ object_docs value_display src a k1) (H2 : d2 ∈ object_docs value_display src a k2)
    (Hids : ∀ v idx rec, (idx, rec) ∈ enumerate (records_of v []) →
              no_dash (record_id value_display rec (ss_id_field src) idx))
    (Heq : fd_icao24 d1 = fd_icao24 d2) :
  k1 = k2.
Proof.
  assert (∀ k d, d ∈ object_docs value_display src a k →
    ∃ x, no_dash x ∧ fd_icao24 d = ("s3:" +:+ k) +:+ "-" +:+ x) as Hd.
  { clear -Hids. intros k d. unfold object_docs.
    destruct (so_get a k) as [got|]; [|by intros ?%elem_of_nil].
    destruct (so_body a got) as [b|]; [|by intros ?%elem_of_nil].
    destruct (so_parse a b) as [v|]; [|by intros ?%elem_of_nil]. intros Hin.
    apply (list_elem_of_fmap_2 fd_icao24) in Hin. rewrite json_to_docs_ids in Hin.
    apply list_elem_of_fmap in Hin as ([i r] & E & Hin). exists (record_id value_display r (ss_id_field src) i).
    split; [by eapply Hids|exact E]. }
  destruct (Hd k1 d1 H1) as (x & Hx & E1), (Hd k2 d2 H2) as (y & Hy & E2).
  rewrite Heq, E2 in E1. apply no_dash_split in E1 as [E1 _]; [|done..]. by injection E1.
Qed.

(** A synthetic source is a feed of its own: whatever the world answers and however the two
    tasks of [run_ingestion] interleave, after [n] polls a fresh node holds exactly the
    documents it owns of the first [n * batch_size] of the sequence, none of which replaced
    another, as long as the sequence does not wrap. *)
Theorem synthetic_ingested {HO : HashOrder} {EM : Embedder} {HN : Hnsw} (seed : Z)
    (batch_size : nat) (answers : list Answers) (ownership : Ownership) (replicate_tx : bool)
    (p : Pipe) (Hn : Z.of_nat (length answers * batch_size) ≤ 2 ^ 32)
    (Hrun : rtc (pipe_step ownership replicate_tx)
       (run_ingestion (synthetic_new seed batch_size) answers st_new) p)
    (Hdone : pipe_done p) :
  ∀ k d, st_contents (pi_store p) !! k = Some d ↔
    owns ownership k = true ∧
    ∃ s, 0 ≤ s < Z.of_nat (length answers * batch_size) ∧ d = synthetic_doc seed s ∧ fd_icao24 d = k.
Proof.
  intros k d. destruct (pipe_done_contents _ _ _ _ _ store_wf_new Hrun Hdone) as (_ & -> & _).
  rewrite synthetic_polls. cbn [sy_seed sy_batch_size sy_seq synthetic_new].
  set (numbers := (λ i, wrap_u32 (0 + Z.of_nat i)) <$> List.seq 0 _).
  assert (∀ i, i ∈ List.seq 0 (length answers * batch_size) → wrap_u32 (0 + Z.of_nat i) = Z.of_nat i) as Hw.
  { intros i Hi%elem_of_seq. unfold wrap_u32. rewrite Z.mod_small; lia. }
  assert (∀ s, s ∈ numbers ↔ 0 ≤ s < Z.of_nat (length answers * batch_size)) as Hnum.
  { intros s. unfold numbers. rewrite list_elem_of_fmap. split.
    - intros (i & -> & Hi). rewrite (Hw i Hi). apply elem_of_seq in Hi. lia.
    - intros Hs. exists (Z.to_nat s). assert (Z.to_nat s ∈ List.seq 0 (length answers * batch_size)) as Hi
        by (apply elem_of_seq; lia). rewrite (Hw _ Hi). split; [lia|done]. }
  rewrite insert_docs_distinct.
  - unfold owned. rewrite list_elem_of_filter, list_elem_of_fmap. split.
    + intros [[Ho (s & -> & Hs%Hnum)] <-]. split; [done|]. by exists s.
    + intros [Ho (s & Hs%Hnum & -> & <-)]. split; [|done]. split; [done|]. by exists s.
  - eapply sublist_NoDup; [|apply fmap_sublist, sublist_filter].
    rewrite <- list_fmap_compose. apply NoDup_fmap_2_strong.
    + intros x y Hx%Hnum Hy%Hnum. apply synthetic_id_inj; lia.
    + unfold numbers. apply NoDup_fmap_2_strong; [|apply NoDup_seq].
      intros i j Hi Hj. rewrite (Hw i Hi), (Hw j Hj). lia.
Qed.
End properties.

(** ** Examples *)

#[local] Existing Instances integers ascii_only whole_numbers.

(** Two objects, ["a"] with a record of id ["b-1"] and ["a-b"] with one of id ["1"]. *)
Definition dashed : S3Answers :=
  {| so_list := Ok [Some "a"; None; Some "a-b"]%string; so_get := Ok; so_body := Ok;
     so_parse := λ body, Some (Object [("id"%string,
       JString (if bool_decide (body = "a"%string) then "b-1" else "1"))]) |}.

(** Records of different objects can collide: both get the same id, and in the store the
    second replaces the first. *)
Theorem object_ids_collide :
  match s3_fetch (λ _, EmptyString) {| ss_bucket := "lake"; ss_prefix := ""; ss_id_field := "id" |} dashed with
  | Ok docs => fd_icao24 <$> docs = ["s3:a-b-1"; "s3:a-b-1"]%string
  | Err _ => False
  end.
Proof. reflexivity. Qed.

Example http_ex :
  http_fetch (λ _, EmptyString) (http_from_env (Some "data..rows"%string) (Some "u"%string) None None)
    (λ _, Ok (Object [("data"%string, Object [("rows"%string,
       Array [Object [("id"%string, JString "x")]; Object []])])])) =
  Ok [with_icao24 (with_text default_doc "id" "x") "http-x"; with_icao24 default_doc "http-1"].
Proof. reflexivity. Qed.

Example http_unset : http_fetch (λ _, EmptyString) (http_from_env None None None None) (λ _, Ok Null) =
  Err "AETHER_HTTP_URL is not set"%string.
Proof. reflexivity. Qed.
