(* ===== verification/Replication.v ===== *)
(** * Primary-backup replication: [crates/shard-node/src/replication.rs]

    The leader's side. The follower's handler is [Server.replicate]; followers are looked
    up by address, and what the network does for one batch is an input. *)

From S2P Require Export Server Registry Ingest.

(** What replicating one batch meets: the coordinator's answer (a failed connection, a
    failed call or the addresses), the order in which the calls complete, and which
    followers can be reached. *)
Record BatchNet := {
  bn_replicas : option (result (list string) Status);
  bn_order : list string → list string;
  bn_reach : string → bool;
}.

Section replication.
Context {HO : HashOrder} {UC : Unicode} {EM : Embedder} {HN : Hnsw}.

Definition discover_followers (answer : option (result (list string) Status)) : list string :=
  match answer with Some (Ok addresses) => addresses | _ => [] end.

Definition sv_with_store (sv : ShardSearchService) (s : ShardStore) : ShardSearchService :=
  {| sv_store := s; sv_poisoned := sv_poisoned sv; sv_shard_id := sv_shard_id sv;
     sv_assignments := sv_assignments sv |}.

(** One follower's task: an unreachable follower and a refused batch are logged. [None] is
    a panic in the follower's handler. *)
Definition push (reach : string → bool) (req : ReplicateRequest)
    (fw : gmap string ShardSearchService) (addr : string) : option (gmap string ShardSearchService) :=
  match fw !! addr with
  | Some sv =>
      if reach addr then
        r ← Server.replicate sv req;
        match r with
        | Ok (s, _) => Some (<[addr := sv_with_store sv s]> fw)
        | Err _ => Some fw
        end
      else Some fw
  | None => Some fw
  end.

Definition replicate_to_followers (net : BatchNet) (addrs : list string) (shard_id : Z)
    (documents : list FlightDocument) (fw : gmap string ShardSearchService)
    : option (gmap string ShardSearchService) :=
  match addrs, documents with
  | [], _ | _, [] => Some fw
  | _, _ =>
      foldl (λ st addr, fw ← st;
               push (bn_reach net) {| rr_documents := documents; rr_shard_id := shard_id |} fw addr)
        (Some fw) (bn_order net addrs)
  end.

(** The loop, over the batches the channel delivers before it closes. *)
Fixpoint run_replication (shard_id : Z) (batches : list (list FlightDocument * BatchNet))
    (fw : gmap string ShardSearchService) : option (gmap string ShardSearchService) :=
  match batches with
  | [] => Some fw
  | (documents, net) :: rest =>
      let addrs := discover_followers (bn_replicas net) in
      fw ← replicate_to_followers net addrs shard_id documents fw;
      run_replication shard_id rest fw
  end.

(** ** Lemmas *)

(** Inserting a batch again changes nothing. *)
Lemma insert_docs_idem m docs : insert_docs (insert_docs m docs) docs = insert_docs m docs.
Proof.
  apply map_eq. intros k. rewrite !insert_docs_lookup.
  by destruct (last (filter _ docs)).
Qed.

Definition all_wf (fw : gmap string ShardSearchService) : Prop :=
  map_Forall (λ _ sv, store_wf (sv_store sv)) fw.

(** The follower at [a] serves and holds [m]. *)
Definition holds (fw : gmap string ShardSearchService) (a : string) (m : gmap string FlightDocument)
    : Prop :=
  ∃ sv, fw !! a = Some sv ∧ sv_poisoned sv = false ∧ st_contents (sv_store sv) = m.

Lemma push_spec reach req fw addr :
  all_wf fw →
  ∃ fw', push reach req fw addr = Some fw' ∧ all_wf fw' ∧
    (∀ a m, holds fw a m → holds fw' a
       (if decide (a = addr ∧ reach a = true) then insert_docs m (rr_documents req) else m)).
Proof.
  intros Hwf. unfold push. destruct (fw !! addr) as [sv|] eqn:E.
  2: { exists fw. split_and!; [done|done|]. intros a m (sv & Ha & ?).
       rewrite decide_False; [by exists sv|]. intros [-> _]. congruence. }
  destruct (reach addr) eqn:Er.
  2: { exists fw. split_and!; [done|done|]. intros a m Ha. rewrite decide_False; [done|].
       intros [-> ?]. congruence. }
  unfold Server.replicate, read_store. destruct (sv_poisoned sv) eqn:Ep.
  - exists fw. split_and!; [done|done|]. intros a m (sv' & Ha & Hp' & Hc).
    rewrite decide_False; [by exists sv'|]. intros [-> _]. congruence.
  - destruct (st_insert_all_spec (sv_store sv) (rr_documents req) (Hwf _ _ E)) as (s & Es & Hs & Hc & _).
    rewrite Es. cbn [mbind option_bind]. eexists. split; [done|]. split.
    + by apply map_Forall_insert_2.
    + intros a m (sv' & Ha & Hp' & Hm). destruct (decide (a = addr)) as [->|Hne].
      * rewrite decide_True by done. exists (sv_with_store sv s).
        rewrite lookup_insert_eq. split_and!; [done|done|]. cbn. simplify_eq. by rewrite Hc.
      * rewrite decide_False by naive_solver. exists sv'. by rewrite lookup_insert_ne.
Qed.

Lemma pushes_spec reach req order fw a m :
  all_wf fw → holds fw a m →
  ∃ fw', foldl (λ st addr, fw ← st; push reach req fw addr) (Some fw) order = Some fw' ∧
    all_wf fw' ∧
    holds fw' a (if decide (a ∈ order ∧ reach a = true) then insert_docs m (rr_documents req) else m).
Proof.
  revert fw m. induction order as [|b order IH]; intros fw m Hwf Hh.
  { exists fw. split_and!; [done|done|]. rewrite decide_False; [done|]. intros [?%elem_of_nil _]. done. }
  cbn [foldl mbind option_bind]. destruct (push_spec reach req fw b Hwf) as (fw1 & -> & Hwf1 & H1).
  apply H1 in Hh. destruct (IH fw1 _ Hwf1 Hh) as (fw2 & -> & Hwf2 & H2). exists fw2.
  split_and!; [done|done|]. destruct (reach a) eqn:Er.
  - destruct (decide (a = b)) as [->|Hne].
    + rewrite (decide_True (P := b ∈ b :: order ∧ true = true)) by (split; [by left|done]).
      rewrite (decide_True (P := b = b ∧ true = true)) in H2 by done.
      case_decide; [|done]. by rewrite insert_docs_idem in H2.
    + rewrite (decide_False (P := a = b ∧ true = true)) in H2 by naive_solver.
      destruct (decide (a ∈ order ∧ true = true)) as [[Hin _]|Hno].
      * rewrite decide_True; [done|]. split; [by right|done].
      * rewrite decide_False; [done|]. intros [Hin _]. apply Hno. split; [|done]. set_solver.
  - rewrite !decide_False in H2 by naive_solver. rewrite decide_False by naive_solver. done.
Qed.

(** A batch that reaches a listed follower is applied there, whatever else happens to it. *)
Lemma batch_spec net addrs shard_id docs fw a m :
  (∀ l, bn_order net l ≡ₚ l) → all_wf fw → holds fw a m →
  ∃ fw', replicate_to_followers net addrs shard_id docs fw = Some fw' ∧ all_wf fw' ∧
    holds fw' a (if decide (a ∈ addrs ∧ bn_reach net a = true) then insert_docs m docs else m).
Proof.
  intros Hord Hwf Hh. unfold replicate_to_followers.
  destruct addrs as [|x addrs].
  { exists fw. split_and!; [done|done|]. rewrite decide_False; [done|]. intros [?%elem_of_nil _]. done. }
  destruct docs as [|d docs]; [exists fw; split_and!; [done..|by case_decide]|].
  destruct (pushes_spec (bn_reach net) {| rr_documents := d :: docs; rr_shard_id := shard_id |}
    (bn_order net (x :: addrs)) fw a m Hwf Hh) as (fw' & -> & Hwf' & H). exists fw'.
  split_and!; [done|done|]. revert H. cbn [rr_documents].
  assert (a ∈ bn_order net (x :: addrs) ↔ a ∈ x :: addrs) as Hin by by rewrite Hord.
  do 2 case_decide; naive_solver.
Qed.
End replication.

(** A coordinator lists the follower, the calls complete in some order, and the follower
    can be reached. *)
Definition delivers (a : string) (net : BatchNet) : Prop :=
  (∃ addrs, bn_replicas net = Some (Ok addrs) ∧ a ∈ addrs) ∧ (∀ l, bn_order net l ≡ₚ l) ∧
  bn_reach net a = true.

(** ** Properties *)

Section properties.
Context {HO : HashOrder} {UC : Unicode} {FL : FloatLib} {EM : Embedder} {HN : Hnsw} {US : UnstableSort}.

(** The batches a run forwarded, delivered one by one. *)
Lemma replicated_batches (a : string) (shard_id : Z) (bs : list (list FlightDocument))
    (nets : list BatchNet) fw m :
  all_wf fw → holds fw a m → length nets = length bs → Forall (delivers a) nets →
  ∃ fw', run_replication shard_id (zip bs nets) fw = Some fw' ∧ all_wf fw' ∧
    holds fw' a (insert_docs m (concat bs)).
Proof.
  revert fw m nets. induction bs as [|docs bs IH]; intros fw m nets Hfw Hm Hlen Hnets.
  { destruct nets; [|done]. by exists fw. }
  destruct nets as [|net nets]; [done|]. apply Forall_cons in Hnets as [Hnet Hnets].
  destruct Hnet as ((addrs & Hr & Hin) & Hord & Hreach). cbn [zip zip_with run_replication].
  rewrite Hr. cbn [discover_followers].
  destruct (batch_spec net addrs shard_id docs fw a m Hord Hfw Hm) as (fw1 & -> & Hfw1 & H1).
  rewrite decide_True in H1 by done. cbn [mbind option_bind concat].
  rewrite insert_docs_app. apply IH; [done|done|by injection Hlen|done].
Qed.

(** A follower that every batch reaches is a copy of its leader. Take any run of the
    leader's ingestion to its end, the replication task there all along, from a store whose
    contents the follower has; if the
    coordinator lists the follower and it is reachable at every batch, then replicating
    the batches the run forwarded, in whatever order the calls of a batch complete and
    whatever becomes of the other followers, leaves the follower with exactly the
    leader's documents, and nothing panics. *)
Theorem follower_matches_leader (ownership : Ownership)
    (polls : list (result (list FlightDocument) string)) (store : ShardStore) (p : Pipe)
    (fw : gmap string ShardSearchService) (a : string) (shard_id : Z) (nets : list BatchNet)
    (Hwf : store_wf store) (Hfw : all_wf fw) (Ha : holds fw a (st_contents store))
    (Hrun : rtc (pipe_step ownership true) (pipe_start polls store) p) (Hdone : pipe_done p)
    (Hopen : lk_open (pi_link p) = true)
    (Hlen : length nets = length (pi_forwarded p)) (Hnets : Forall (delivers a) nets) :
  ∃ fw', run_replication shard_id (zip (pi_forwarded p) nets) fw = Some fw' ∧ all_wf fw' ∧
    holds fw' a (st_contents (pi_store p)).
Proof.
  destruct (pipe_done_contents ownership true polls store p Hwf Hrun Hdone) as (_ & Hst & _ & Hf).
  specialize (Hf Hopen).
  rewrite Hst, Hf, owned_concat in *. by apply replicated_batches.
Qed.
End properties.

(** ** Witnesses and examples *)

#[local] Existing Instances canonical_order ascii_only whole_numbers tiny_embedder scan_graph
  stable_sort.

Definition plane (id : string) : FlightDocument := with_icao24 default_doc id.

Definition follower_up (up : bool) : BatchNet :=
  {| bn_replicas := Some (Ok ["f:1"%string]); bn_order := λ l, l; bn_reach := λ _, up |}.

Definition empty_follower : gmap string ShardSearchService := {["f:1" := sv_new st_new "shard-0"]}.

Definition after_one_poll : Pipe :=
  {| pi_polls := []; pi_channel := []; pi_closed := true;
     pi_store := default st_new (st_insert_all st_new [plane "a"]); pi_pending := None;
     pi_forwarded := [[plane "a"]]; pi_link := {| lk_open := true; lk_taken := 0; lk_busy := false |} |}.

Lemma after_one_poll_reached :
  rtc (pipe_step All true) (pipe_start [Ok [plane "a"]] st_new) after_one_poll.
Proof.
  eapply rtc_l; [by apply produce; [|cbn; unfold CHANNEL; lia]|].
  eapply rtc_l; [apply close|].
  eapply rtc_l; [|eapply rtc_l; [|apply rtc_refl]].
  2: { apply (forward All true [] [] true _ [plane "a"] [] 0 false). cbn. unfold REPLICATION_CHANNEL. lia. }
  refine (consume All true [] [plane "a"] [] true st_new _ (Some [plane "a"]) [] _ _).
  destruct (st_insert_all_spec st_new [plane "a"] store_wf_new) as (s & E & _).
  unfold ingest_batch. change (owned All [plane "a"]) with [plane "a"]. by rewrite E.
Qed.

Lemma follower_matches_leader_witness :
  ∃ fw, run_replication 0 [([plane "a"], follower_up true)] empty_follower = Some fw ∧
    holds fw "f:1" (st_contents (pi_store after_one_poll)).
Proof.
  destruct (follower_matches_leader All [Ok [plane "a"]] st_new after_one_poll empty_follower "f:1" 0
    [follower_up true] store_wf_new) as (fw & E & _ & H).
  - apply map_Forall_singleton. exact store_wf_new.
  - exists (sv_new st_new "shard-0"). repeat split.
  - exact after_one_poll_reached.
  - repeat split.
  - reflexivity.
  - reflexivity.
  - apply Forall_singleton. split; [|split; [intros l; reflexivity|reflexivity]].
    exists ["f:1"%string]. split; [reflexivity|left].
  - exists fw. split; [exact E|exact H].
Defined.

(** A follower that misses a batch does not catch up on the next one: it never holds the
    documents of the missed batch unless a later batch carries them again. *)
Theorem missed_batch_stays_missing :
  ∃ fw sv, run_replication 0
      [([plane "a"], follower_up false); ([plane "b"], follower_up true)] empty_follower = Some fw ∧
    fw !! "f:1"%string = Some sv ∧ fd_icao24 <$> st_documents (sv_store sv) = ["b"%string].
Proof.
  destruct (run_replication 0 [([plane "a"], follower_up false); ([plane "b"], follower_up true)]
    empty_follower) as [fw|] eqn:E; [|vm_compute in E; discriminate E].
  destruct (fw !! "f:1"%string) as [sv|] eqn:El.
  - exists fw, sv. split; [done|]. split; [done|].
    vm_compute in E. injection E as <-. vm_compute in El. injection El as <-. by vm_compute.
  - vm_compute in E. injection E as <-. vm_compute in El. discriminate El.
Qed.
