(* ===== verification/ShardRaft.v ===== *)
(** * A shard's raft group: [crates/shard-node/src/raft/]

    The shard's document store as a raft application, group formation, leadership-gated
    ingestion, the eviction watcher and the membership reconciler. openraft is a
    parameter: who leads, which writes and membership changes it grants. prost's codec is
    a parameter with its round trip. *)

From S2P Require Export Ingest RaftStorage.

(** ** The application *)

(** prost on the log's commands and on snapshots. *)
Class ShardCodec := {
  cmd_encode : ShardCommand → bytes;
  cmd_decode : bytes → option ShardCommand;
  dump_encode : ReplicateRequest → bytes;
  dump_decode : bytes → option ReplicateRequest;
  cmd_roundtrip : ∀ c, cmd_decode (cmd_encode c) = Some c;
  dump_roundtrip : ∀ r, dump_decode (dump_encode r) = Some r;
}.

Definition default_request : ReplicateRequest := {| rr_documents := []; rr_shard_id := 0 |}.
Definition default_command : ShardCommand := {| sc_kind := None |}.

Section shard_app.
Context {UC : Unicode} {EM : Embedder} {HN : Hnsw} {SC : ShardCodec}.

Definition apply_command (HO : HashOrder) (store : ShardStore) (cmd : ShardCommand)
    : option (ShardStore * Z) :=
  match sc_kind cmd with
  | Some (Batch batch) =>
      s ← st_insert_all store (rr_documents batch); Some (s, len_u32 (rr_documents batch))
  | Some (Evict e) =>
      '(s, removed) ← evict_vshard store (ev_vshard e) (ev_v e);
      Some (s, wrap_u32 (Z.of_nat removed))
  | None => Some (store, 0)
  end.

Definition shard_apply (HO : HashOrder) (store : ShardStore) (payload : bytes)
    : option (ShardStore * Z) :=
  apply_command HO store (default default_command (cmd_decode payload)).

Definition shard_snapshot_bytes (HO : HashOrder) (store : ShardStore) : bytes :=
  dump_encode {| rr_documents := st_documents store; rr_shard_id := 0 |}.

Definition shard_restore (HO : HashOrder) (store : ShardStore) (b : bytes)
    : option (ShardStore * Z) :=
  let decoded := default default_request (dump_decode b) in
  s ← replace_all store (rr_documents decoded); Some (s, len_u32 (rr_documents decoded)).

Definition ShardApp : StateMachineApp :=
  {| seed := HashOrder; app := ShardStore; app_new := st_new; app_apply := shard_apply;
     app_snapshot_bytes := shard_snapshot_bytes; app_restore := shard_restore;
     app_local := λ _ _, False |}.

(** What a command does to the shard's documents. *)
Definition command_effect (m : gmap string FlightDocument) (cmd : ShardCommand)
    : gmap string FlightDocument :=
  match sc_kind cmd with
  | Some (Batch batch) => insert_docs m (rr_documents batch)
  | Some (Evict e) => evicted (ev_vshard e) (ev_v e) m
  | None => m
  end.

(** What it answers: how many documents it indexed or removed. *)
Definition command_count (m : gmap string FlightDocument) (cmd : ShardCommand) : Z :=
  match sc_kind cmd with
  | Some (Batch batch) => len_u32 (rr_documents batch)
  | Some (Evict e) => wrap_u32 (Z.of_nat (size m - size (evicted (ev_vshard e) (ev_v e) m)))
  | None => 0
  end.

Lemma apply_command_spec (HO : HashOrder) store cmd :
  store_wf store →
  ∃ s, apply_command HO store cmd = Some (s, command_count (st_contents store) cmd) ∧
    store_wf s ∧ st_contents s = command_effect (st_contents store) cmd.
Proof.
  intros Hwf. unfold apply_command, command_count, command_effect.
  destruct (sc_kind cmd) as [[batch|e]|]; [| |by exists store].
  - destruct (st_insert_all_spec store (rr_documents batch) Hwf) as (s & -> & Hwf' & Hc & _).
    by exists s.
  - destruct (evict_vshard_spec store (ev_vshard e) (ev_v e) Hwf) as (s & n & -> & Hwf' & Hc & Hn).
    exists s. cbn [mbind option_bind]. split_and!; [|done|done]. rewrite <- Hc.
    do 3 f_equal. lia.
Qed.

(** Re-inserting the documents of a store gives its contents. *)
Lemma insert_documents (HO : HashOrder) store :
  store_wf store → insert_docs ∅ (st_documents store) = st_contents store.
Proof.
  intros Hwf. destruct (documents_spec _ (swf_keyword _ Hwf)) as [Hnd Hin].
  apply map_eq. intros k. apply option_eq. intros d. unfold insert_docs.
  rewrite (foldl_insert_lookup fd_icao24) by done. rewrite lookup_empty. split.
  - intros [[Hd <-]|[? _]]; [|done]. by apply Hin.
  - intros Hk. left. pose proof (contents_key _ _ _ (swf_keyword _ Hwf) Hk) as <-.
    split; [by apply Hin|done].
Qed.

#[export] Instance same_contents_equivalence :
  Equivalence (λ a b : ShardStore, st_contents a = st_contents b).
Proof. split; [by intros ?|by intros ? ?|intros ? ? ? ->; done]. Qed.

(** The store keeps the state machine's contract: what a command does depends on the
    contents alone, and a dump restores to them. *)
Lemma shard_app_laws : @AppLaws ShardApp.
Proof.
  refine {| app_ok := λ s : @seed ShardApp, @store_wf s UC EM HN;
            app_equiv := λ a b : @app ShardApp, st_contents a = st_contents b |}.
  - intros s. apply store_wf_new.
  - intros s s' a b p Ha Hb Hab. cbn [app_apply ShardApp]. unfold shard_apply.
    set (cmd := default default_command (cmd_decode p)).
    destruct (apply_command_spec s a cmd Ha) as (a' & Ea & Ha' & Hca).
    destruct (apply_command_spec s' b cmd Hb) as (b' & Eb & Hb' & Hcb).
    rewrite <- Hab in Eb. exists a', b', (command_count (st_contents a) cmd).
    split_and!; [exact Ea|exact Eb|exact Ha'|exact Hb'|congruence].
  - intros s s' a b Ha Hb. cbn [app_restore app_snapshot_bytes ShardApp].
    unfold shard_restore, shard_snapshot_bytes. rewrite dump_roundtrip.
    cbn [default from_option id rr_documents]. unfold replace_all.
    destruct (@st_insert_all_spec s' _ _ _ st_new (st_documents a) store_wf_new)
      as (c & -> & Hc & Hcc & _).
    cbn [mbind option_bind]. eexists _, _. split; [done|]. split; [exact Hc|].
    rewrite Hcc. apply (insert_documents s a Ha).
  - intros s a b _ H. destruct H.
Defined.
End shard_app.

(** ** Group formation *)

Definition raft_node_id (node_id : string) : Z := fnv1a_64 (str_bytes node_id).

(** [collect] into a [BTreeMap]: the last address wins under one id. *)
Definition member_map (members : list NodeState) : gmap Z string :=
  foldl (λ m x, <[raft_node_id (ns_node_id x) := ns_address x]> m) ∅ members.

(** The polling loop of [wait_for_group] over the answers it gets: [None] is a poll that no
    coordinator answered. The result is [None] while the group is still incomplete. *)
Fixpoint wait_for_group (answers : list (option (list NodeState))) (group_size : nat)
    : option (gmap Z string) :=
  match answers with
  | [] => None
  | Some members :: rest =>
      if bool_decide (group_size ≤ length members)%nat then Some (member_map members)
      else wait_for_group rest group_size
  | None :: rest => wait_for_group rest group_size
  end.

(** Whether this member calls [initialize]. *)
Definition bootstrap_group (my_raft_id : Z) (members : gmap Z string) : bool :=
  match head (bt_iter members) with
  | Some (smallest, _) => smallest =? my_raft_id
  | None => false
  end.

(** ** Ingestion under raft *)

Inductive LeaderStep :=
| StandBy
| Proposed (cmd : ShardCommand)
| StoodDown
| NothingToWrite
| FetchFailed.

(** One turn of [run_leader_ingestion]: leadership as the metrics show it, what the source
    gives, and whether the raft group accepts the write. *)
Definition leader_turn (leading : bool) (ownership : Ownership)
    (fetched : result (list FlightDocument) string) (accept : ShardCommand → bool) : LeaderStep :=
  if negb leading then StandBy
  else match fetched with
       | Err _ => FetchFailed
       | Ok batch =>
           let docs := filter (λ d, owns ownership (fd_icao24 d) = true) batch in
           if bool_decide (docs = []) then NothingToWrite
           else let cmd := {| sc_kind := Some (Batch {| rr_documents := docs; rr_shard_id := 0 |}) |} in
                if accept cmd then Proposed cmd else StoodDown
       end.

(** ** The eviction watcher *)

(** Iteration of a [BTreeSet]. *)
Definition bs_iter (x : gset Z) : list Z := sort_by Z.compare (elements x).

Section eviction.
Context {HN : Hnsw}.

Definition held_vshards (store : ShardStore) (v : Z) : gset Z :=
  match nz_new v with
  | Some v => list_to_set ((λ d, vshard_for (fd_icao24 d) v) <$> st_documents store)
  | None => ∅
  end.

Definition eviction_proposals (group : Z) (table : list Z) (store : ShardStore)
    : list EvictVShard :=
  let v := len_u32 table in
  if v =? 0 then []
  else (λ vshard, {| ev_vshard := vshard; ev_v := v |})
         <$> filter (λ vshard, table !! Z.to_nat vshard ≠ Some group)
               (bs_iter (held_vshards store v)).

(** The proposals in order, up to the first that is refused. *)
Fixpoint take_accepted {A} (accept : A → bool) (l : list A) : list A :=
  match l with
  | [] => []
  | x :: k => if accept x then x :: take_accepted accept k else []
  end.

(** One tick: the evictions that enter the log. *)
Definition eviction_tick (leading : bool) (group : Z) (table : list Z) (store : ShardStore)
    (accept : EvictVShard → bool) : list EvictVShard :=
  if negb leading then [] else take_accepted accept (eviction_proposals group table store).
End eviction.

(** ** The membership reconciler *)

Inductive RaftCmd :=
| RemoveVoters (id : Z)
| RemoveNodes (id : Z)
| AddLearner (id : Z) (address : string)
| AddVoter (id : Z).

Definition draining_ids (members : list NodeState) : gset Z :=
  list_to_set ((λ m, raft_node_id (ns_node_id m)) <$> filter (λ m, ns_draining m = true) members).

Definition desired_map (members : list NodeState) : gmap Z string :=
  member_map (filter (λ m, ns_draining m = false) members).

Definition drain_cmds (in_group voters : gset Z) (id : Z) : list RaftCmd :=
  if decide (id ∈ in_group) then
    if decide (id ∈ voters) then
      if bool_decide (size voters ≤ 3)%nat then [] else [RemoveVoters id]
    else [RemoveNodes id]
  else [].

Definition admit_cmds (in_group voters : gset Z) (m : Z * string) : list RaftCmd :=
  (if decide (m.1 ∈ in_group) then [] else [AddLearner m.1 m.2]) ++
  (if decide (m.1 ∈ in_group ∧ m.1 ∉ voters) then [AddVoter m.1] else []).

(** One tick: the requests the leader makes, from the registered members and the
    membership as it was read once at the start. *)
Definition reconcile_tick (leading : bool) (answer : option (list NodeState))
    (in_group voters : gset Z) : list RaftCmd :=
  if negb leading then []
  else match answer with
       | None => []
       | Some members =>
           (bs_iter (draining_ids members) ≫= drain_cmds in_group voters) ++
           (bt_iter (desired_map members) ≫= admit_cmds in_group voters)
       end.

(** What openraft documents of a granted request. *)
Record Group := { gr_nodes : gset Z; gr_voters : gset Z }.

Definition change_made (c : RaftCmd) (g g' : Group) : Prop :=
  match c with
  | RemoveVoters id => gr_voters g' = gr_voters g ∖ {[id]}
  | RemoveNodes id => gr_voters g' = gr_voters g ∧ gr_nodes g' = gr_nodes g ∖ {[id]}
  | AddLearner id _ => gr_voters g' = gr_voters g ∧ gr_nodes g' = {[id]} ∪ gr_nodes g
  | AddVoter id => gr_voters g' = {[id]} ∪ gr_voters g ∧ gr_nodes g' = gr_nodes g
  end.

Class RaftMembership := {
  raft_grant : RaftCmd → Group → option Group;
  raft_grant_law : ∀ c g g', raft_grant c g = Some g' → change_made c g g';
}.

(** The group after a list of requests, each granted or refused. *)
Definition after_requests `{!RaftMembership} (g : Group) (cmds : list RaftCmd) : Group :=
  foldl (λ g c, default g (raft_grant c g)) g cmds.

(** ** Lemmas *)

Lemma bs_iter_perm x : bs_iter x ≡ₚ elements x.
Proof. apply sort_by_perm. Qed.

Lemma elem_of_bs_iter x k : k ∈ bs_iter x ↔ k ∈ x.
Proof. by rewrite bs_iter_perm, elem_of_elements. Qed.

Lemma take_accepted_prefix {A} accept (l : list A) : take_accepted accept l `prefix_of` l.
Proof.
  induction l as [|x l IH]; [done|]. simpl. destruct (accept x); [by apply prefix_cons|apply prefix_nil].
Qed.

Lemma take_accepted_all {A} accept (l : list A) :
  (∀ x, x ∈ l → accept x = true) → take_accepted accept l = l.
Proof.
  induction l as [|x l IH]; intros H; [done|]. simpl. rewrite H by left. f_equal.
  apply IH. intros y Hy. apply H. by right.
Qed.

(** *** Evictions *)

Lemma evicted_filter vs v m n :
  nz_new v = Some n → evicted vs v m = filter (λ kd, vshard_for kd.1 n ≠ vs) m.
Proof. intros H. unfold evicted. by rewrite H. Qed.

(** Evicting a list of virtual shards drops the documents of any of them. *)
Lemma evict_all v n (vs : list Z) m :
  nz_new v = Some n →
  foldl (λ m e, evicted (ev_vshard e) (ev_v e) m) m
    ((λ x, {| ev_vshard := x; ev_v := v |}) <$> vs) =
  filter (λ kd, vshard_for kd.1 n ∉ vs) m.
Proof.
  intros Hv. revert m. induction vs as [|x vs IH]; intros m.
  { cbn. symmetry. apply map_filter_id. intros ? ? _. apply not_elem_of_nil. }
  cbn [fmap list_fmap foldl ev_vshard ev_v]. rewrite IH, (evicted_filter _ _ _ n Hv).
  apply map_eq. intros k. apply option_eq. intros d. rewrite !map_lookup_filter_Some. simpl.
  rewrite not_elem_of_cons. naive_solver.
Qed.

(** *** Requests *)

Section requests.
Context {RM : RaftMembership}.

Lemma after_requests_snoc g cmds c :
  after_requests g (cmds ++ [c]) =
  default (after_requests g cmds) (raft_grant c (after_requests g cmds)).
Proof. unfold after_requests. by rewrite foldl_snoc. Qed.

Definition removed_voters (cmds : list RaftCmd) : list Z :=
  omap (λ c, match c with RemoveVoters id => Some id | _ => None end) cmds.

(** Only removals take voters away, and each takes at most its own. *)
Lemma voters_kept g cmds id :
  id ∈ gr_voters g → id ∉ removed_voters cmds → id ∈ gr_voters (after_requests g cmds).
Proof.
  intros Hid. induction cmds as [|c cmds IH] using rev_ind; [done|].
  unfold removed_voters. rewrite omap_app, not_elem_of_app. intros [Hn Hc].
  specialize (IH Hn). rewrite after_requests_snoc.
  destruct (raft_grant c _) as [g'|] eqn:E; [|done]. cbn [default from_option Datatypes.id].
  apply raft_grant_law in E. destruct c as [x|x|x a|x]; cbn in E.
  - rewrite E. apply elem_of_difference. split; [done|]. intros ->%elem_of_singleton.
    apply Hc. cbn. left.
  - by destruct E as [-> _].
  - by destruct E as [-> _].
  - destruct E as [-> _]. set_solver.
Qed.
End requests.

Lemma removed_voters_tick members in_group voters id :
  id ∈ removed_voters (reconcile_tick true (Some members) in_group voters) →
  id ∈ draining_ids members ∧ id ∈ voters ∧ (3 < size voters)%nat.
Proof.
  unfold removed_voters, reconcile_tick. cbn [negb]. rewrite omap_app, elem_of_app.
  rewrite !list_elem_of_omap. intros [(c & Hc & E)|(c & Hc & E)].
  - apply list_elem_of_bind in Hc as (x & Hc & Hx). unfold drain_cmds in Hc.
    apply elem_of_bs_iter in Hx.
    destruct (decide (x ∈ in_group)); [|by apply elem_of_nil in Hc].
    destruct (decide (x ∈ voters)) as [Hv|].
    + case_bool_decide; [by apply elem_of_nil in Hc|]. apply list_elem_of_singleton in Hc.
      subst. injection E as ->. split_and!; [done|done|lia].
    + apply list_elem_of_singleton in Hc. by subst.
  - apply list_elem_of_bind in Hc as (x & Hc & _). unfold admit_cmds in Hc.
    apply elem_of_app in Hc as [Hc|Hc]; case_decide; rewrite ?elem_of_nil, ?list_elem_of_singleton in Hc;
      by subst.
Qed.

(** ** Properties *)

Section properties.
Context {UC : Unicode} {EM : Embedder} {HN : Hnsw} {SC : ShardCodec}.

(** A member at a position of the log: the documents are what the commands so far made. *)
Lemma member_contents {RT : RaftTypes} {HD : HashOrder} {FC : SnapshotCodec}
    (L : list Entry) (Hids : NoDup (en_log_id <$> L)) (s : HashOrder)
    (sm : @StateMachineStore RT (ShardApp)) (n : nat)
    (H : @replica RT ShardApp HD FC L s sm) (Hn : sm_last_applied sm = lid_at L n) :
  store_wf (HO := s) (sm_app sm) ∧
  st_contents (sm_app sm) =
    log_effect (λ m p, command_effect m (default default_command (cmd_decode p))) ∅ (take n L).
Proof.
  split; [apply (@replica_at RT ShardApp shard_app_laws HD FC s L Hids s sm n H Hn)|].
  apply (@replica_abstract RT ShardApp shard_app_laws HD FC s L Hids _
    (st_contents : @app ShardApp → _)
    (λ m p, command_effect m (default default_command (cmd_decode p))) s sm n);
    [by intros a b Hab| |done|done].
  intros a p Ha. cbn [app_apply ShardApp]. unfold shard_apply.
  destruct (apply_command_spec s a (default default_command (cmd_decode p)) Ha) as (a' & E & Ha' & Hc).
  by exists a', (command_count (st_contents a) (default default_command (cmd_decode p))).
Qed.

(** C32: the members of a shard's raft group converge, as long as documents reach them by
    the log alone and no apply overtakes a snapshot build ([replica]; the two exceptions
    the code leaves open are [replicate_bypasses_log] and [concurrent_snapshot_stale]). At
    one log position any two members hold the same documents, whatever snapshots they
    installed, restarts they went through, or hash orders their processes have: those the
    log's commands produce in order, upserting every batch and dropping every evicted
    virtual shard. *)
Theorem shard_replicas_converge {RT : RaftTypes} {HD : HashOrder} {FC : SnapshotCodec}
    (L : list Entry) (Hids : NoDup (en_log_id <$> L)) (s s' : HashOrder)
    (sm sm' : @StateMachineStore RT (ShardApp)) (n : nat)
    (H : @replica RT ShardApp HD FC L s sm) (H' : @replica RT ShardApp HD FC L s' sm')
    (Hn : sm_last_applied sm = lid_at L n) (Hn' : sm_last_applied sm' = lid_at L n) :
  st_contents (sm_app sm) =
    log_effect (λ m p, command_effect m (default default_command (cmd_decode p))) ∅ (take n L) ∧
  st_contents (sm_app sm') = st_contents (sm_app sm).
Proof.
  rewrite (proj2 (member_contents L Hids s sm n H Hn)).
  by rewrite (proj2 (member_contents L Hids s' sm' n H' Hn')).
Qed.

(** What a tick of the eviction watcher does to the documents. *)
Lemma eviction_tick_effect {HO : HashOrder} (group : Z) (table : list Z) (store : ShardStore)
    (accept : EvictVShard → bool) (Hwf : store_wf store) (Hlen : Z.of_nat (length table) < 2 ^ 32) :
  let evictions := eviction_tick true group table store accept in
  let m := st_contents store in
  let m' := foldl (λ m e, evicted (ev_vshard e) (ev_v e) m) m evictions in
  (∀ k d, m' !! k = Some d → m !! k = Some d) ∧
  (∀ k d, m !! k = Some d → owns (Mapped group table) k = true → m' !! k = Some d) ∧
  (table ≠ [] → (∀ e, e ∈ evictions ++ eviction_proposals group table store → accept e = true) →
     m' = filter (λ kd, owns (Mapped group table) kd.1 = true) m) ∧
  eviction_tick false group table store accept = [] ∧ (table = [] → evictions = []).
Proof.
  intros evictions m m'. unfold m', evictions, eviction_tick. cbn [negb].
  assert (len_u32 table = Z.of_nat (length table)) as Hl.
  { unfold len_u32, wrap_u32. apply Z.mod_small. lia. }
  destruct (decide (table = [])) as [->|Hne]; [by split_and!|].
  destruct (nz_new_Some (Z.of_nat (length table))) as (v & Hv & Hg).
  { destruct table; [done|]. cbn [length] in *. lia. }
  set (vs := filter (λ vshard, table !! Z.to_nat vshard ≠ Some group)
               (bs_iter (held_vshards store (Z.of_nat (length table))))).
  assert (eviction_proposals group table store =
    (λ x, {| ev_vshard := x; ev_v := Z.of_nat (length table) |}) <$> vs) as Hprop.
  { unfold eviction_proposals. rewrite Hl. destruct (Z.eqb_spec (Z.of_nat (length table)) 0); [|done].
    destruct table; [done|]. cbn [length] in *. lia. }
  assert (∃ ks, ks `prefix_of` vs ∧ take_accepted accept (eviction_proposals group table store) =
    (λ x, {| ev_vshard := x; ev_v := Z.of_nat (length table) |}) <$> ks) as (ks & Hks & Hacc).
  { rewrite Hprop. destruct (take_accepted_prefix accept
      ((λ x, {| ev_vshard := x; ev_v := Z.of_nat (length table) |}) <$> vs)) as [l Hpre].
    apply fmap_app_inv in Hpre as (k1 & k2 & E1 & _ & E3).
    exists k1. split; [by exists k2|done]. }
  rewrite Hacc, (evict_all _ v) by done.
  assert (∀ k, owns (Mapped group table) k =
    bool_decide (table !! Z.to_nat (vshard_for k v) = Some group)) as Howns.
  { intros k. cbn [owns]. by rewrite Hl, Hv. }
  assert (∀ k d, m !! k = Some d → owns (Mapped group table) k = false → vshard_for k v ∈ vs) as Hheld.
  { intros k d Hk Ho. rewrite Howns in Ho. apply bool_decide_eq_false_1 in Ho.
    apply list_elem_of_filter. split; [done|]. apply elem_of_bs_iter.
    unfold held_vshards. rewrite Hv. apply elem_of_list_to_set, list_elem_of_fmap. exists d.
    pose proof (contents_key _ _ _ (swf_keyword _ Hwf) Hk) as <-. split; [done|].
    by apply (documents_spec _ (swf_keyword _ Hwf)). }
  split_and!; [| | |done|done].
  - intros k d [Hk _]%map_lookup_filter_Some. done.
  - intros k d Hk Ho. apply map_lookup_filter_Some. split; [done|]. simpl. intros Hin.
    assert (vshard_for k v ∈ vs) as Hvs by (by eapply elem_of_prefix).
    apply list_elem_of_filter in Hvs as [Hnot _].
    rewrite Howns in Ho. by apply bool_decide_eq_true_1 in Ho.
  - intros _ Hall. assert (ks = vs) as ->.
    { rewrite take_accepted_all, Hprop in Hacc.
      - apply (list_fmap_eq_inj _) in Hacc; [done|]. by intros x y [=].
      - intros e He. apply Hall, elem_of_app. by right. }
    apply map_filter_ext. intros k d Hk. cbn [fst]. split.
    + intros Hn. apply not_false_is_true. intros Ho. apply Hn. by eapply Hheld.
    + intros Ho Hin. apply list_elem_of_filter in Hin as [Hnot _].
      rewrite Howns in Ho. by apply bool_decide_eq_true_1 in Ho.
Qed.

(** The eviction watcher only removes what migrated away. Whatever evictions the group
    accepts in a tick, every document the table still assigns to this group stays and
    nothing is added; and when all are accepted, exactly the documents the table assigns
    to this group remain. A member that does not lead, or has no table yet, proposes
    nothing. *)
Theorem eviction_tick_sound {HO : HashOrder} (group : Z) (table : list Z) (store : ShardStore)
    (accept : EvictVShard → bool) (Hwf : store_wf store) (Hlen : Z.of_nat (length table) < 2 ^ 32) :
  let evictions := eviction_tick true group table store accept in
  let m := st_contents store in
  let m' := foldl (λ m e, evicted (ev_vshard e) (ev_v e) m) m evictions in
  (∀ k d, m' !! k = Some d → m !! k = Some d) ∧
  (∀ k d, m !! k = Some d → owns (Mapped group table) k = true → m' !! k = Some d) ∧
  (table ≠ [] → (∀ e, e ∈ evictions ++ eviction_proposals group table store → accept e = true) →
     m' = filter (λ kd, owns (Mapped group table) kd.1 = true) m) ∧
  eviction_tick false group table store accept = [] ∧ (table = [] → evictions = []).
Proof. by apply eviction_tick_effect. Qed.

(** C33: reconciliation keeps the group alive. Whichever of a tick's requests openraft
    grants, no voter is removed that is not draining, and as long as no two voters drain
    at once a group of at least three voters keeps at least three. *)
Theorem reconcile_safe {RM : RaftMembership} (members : list NodeState) (g : Group) :
  let g' := after_requests g (reconcile_tick true (Some members) (gr_nodes g) (gr_voters g)) in
  (∀ id, id ∈ gr_voters g → id ∉ draining_ids members → id ∈ gr_voters g') ∧
  ((3 ≤ size (gr_voters g))%nat → (size (gr_voters g ∩ draining_ids members) ≤ 1)%nat →
   (3 ≤ size (gr_voters g'))%nat).
Proof.
  intros g'. set (cmds := reconcile_tick true (Some members) (gr_nodes g) (gr_voters g)) in g'.
  assert (∀ id, id ∈ gr_voters g → id ∉ gr_voters g' → id ∈ draining_ids members ∧
    (3 < size (gr_voters g))%nat) as Hlost.
  { intros id Hid Hn. destruct (decide (id ∈ removed_voters cmds)) as [Hr|Hr].
    - apply removed_voters_tick in Hr as (? & ? & ?). done.
    - exfalso. apply Hn. by apply voters_kept. }
  split.
  - intros id Hid Hd. apply dec_stable. intros Hn. by destruct (Hlost id Hid Hn).
  - intros H3 Hone. destruct (decide (gr_voters g ⊆ gr_voters g')) as [Hsub|Hsub].
    + apply subseteq_size in Hsub. lia.
    + assert (3 < size (gr_voters g))%nat as Hgt.
      { apply dec_stable. intros Hle. apply Hsub. intros id Hid. apply dec_stable. intros Hn.
        by destruct (Hlost id Hid Hn). }
      assert (gr_voters g ∖ (gr_voters g ∩ draining_ids members) ⊆ gr_voters g') as Hkeep.
      { intros id Hid. apply dec_stable. intros Hn. destruct (Hlost id) as [Hd _]; set_solver. }
      apply subseteq_size in Hkeep.
      rewrite size_difference in Hkeep by set_solver. lia.
Qed.

(** One bootstrapper. Members that see the same non-empty group all compute the same
    map, and exactly one raft id initializes the group: the smallest one in it. *)
Theorem bootstrap_unique (members : gmap Z string) (Hne : members ≠ ∅) :
  ∃ id, bootstrap_group id members = true ∧ is_Some (members !! id) ∧
    (∀ id', is_Some (members !! id') → id ≤ id') ∧
    (∀ id', bootstrap_group id' members = true → id' = id).
Proof.
  unfold bootstrap_group. destruct (bt_iter members) as [|[id a] l] eqn:E.
  { exfalso. apply Hne. apply map_empty. intros k. destruct (members !! k) eqn:Hk; [|done].
    apply elem_of_bt_iter in Hk. rewrite E in Hk. by apply elem_of_nil in Hk. }
  exists id. cbn [head]. split_and!.
  - apply Z.eqb_refl.
  - exists a. apply elem_of_bt_iter. rewrite E. left.
  - intros id' [a' Ha']. apply elem_of_bt_iter in Ha'. rewrite E in Ha'.
    apply elem_of_cons in Ha' as [[= -> ->]|Hin]; [lia|].
    pose proof (sort_by_ranked (λ _, True) _ bt_cmp_total (map_to_list members)) as Hr.
    assert (Forall (λ _ : Z * string, True) (map_to_list members)) as HT by by apply Forall_true.
    specialize (Hr HT). fold (bt_iter members) in Hr. rewrite E in Hr.
    apply StronglySorted_inv in Hr as [_ Hr]. rewrite Forall_forall in Hr.
    specialize (Hr _ Hin). unfold bt_cmp in Hr. cbn [fst] in Hr.
    apply Z.compare_le_iff. done.
  - intros id' H%Z.eqb_eq. done.
Qed.
End properties.

(** ** Examples and witnesses *)

#[local] Existing Instances canonical_order ascii_only tiny_embedder scan_graph stable_sort
  plain_raft plain_codec.

(** openraft granting every request. *)
Definition grant (c : RaftCmd) (g : Group) : option Group :=
  Some match c with
       | RemoveVoters x => {| gr_nodes := gr_nodes g; gr_voters := gr_voters g ∖ {[x]} |}
       | RemoveNodes x => {| gr_nodes := gr_nodes g ∖ {[x]}; gr_voters := gr_voters g |}
       | AddLearner x _ => {| gr_nodes := {[x]} ∪ gr_nodes g; gr_voters := gr_voters g |}
       | AddVoter x => {| gr_nodes := gr_nodes g; gr_voters := {[x]} ∪ gr_voters g |}
       end.

Lemma grant_law c g g' : grant c g = Some g' → change_made c g g'.
Proof. intros [= <-]. by destruct c. Qed.

Definition grants_all : RaftMembership := {| raft_grant := grant; raft_grant_law := grant_law |}.

Definition member (id : string) (draining : bool) : NodeState :=
  {| ns_node_id := id; ns_address := id; ns_role := 2; ns_shard_id := 0;
     ns_millis_since_seen := 0; ns_draining := draining |}.

Definition four_members : list NodeState :=
  [member "a" false; member "b" false; member "c" true; member "d" true].
Definition four_voters : gset Z :=
  list_to_set ((λ m, raft_node_id (ns_node_id m)) <$> four_members).

(** The floor of three voters is checked against the voters read at the start of the
    tick: with four voters and two of them draining, both are removed. *)
Example reconcile_breaches_floor :
  size four_voters = 4%nat ∧
  size (gr_voters (@after_requests grants_all {| gr_nodes := four_voters; gr_voters := four_voters |}
    (reconcile_tick true (Some four_members) four_voters four_voters))) = 2%nat.
Proof. split; vm_compute; reflexivity. Qed.

(** Concrete codecs: a document is a tuple of countable fields. *)
Definition float_sum : Type := (bool + bool) + (unit + (bool * (positive * Z))).

Definition float_to_sum (x : f64) : float_sum :=
  match x with
  | S754_zero s => inl (inl s)
  | S754_infinity s => inl (inr s)
  | S754_nan => inr (inl tt)
  | S754_finite s m e => inr (inr (s, (m, e)))
  end.
Definition sum_to_float (x : float_sum) : f64 :=
  match x with
  | inl (inl s) => S754_zero s
  | inl (inr s) => S754_infinity s
  | inr (inl _) => S754_nan
  | inr (inr (s, (m, e))) => S754_finite s m e
  end.

#[local] Instance float_sum_eq_dec : EqDecision float_sum.
Proof. solve_decision. Defined.
#[local] Instance float_sum_countable : Countable float_sum.
Proof. unfold float_sum. apply _. Defined.
#[local] Instance f64_eq_decision : EqDecision f64.
Proof. solve_decision. Defined.
#[local] Instance f64_countable : Countable f64.
Proof. by apply (inj_countable' float_to_sum sum_to_float); intros []. Defined.

Abbreviation doc_strings := (string * string * (string * string) * (string * string))%type.
Abbreviation doc_floats := (f64 * f64 * (f64 * f64) * (f64 * f64))%type.
Abbreviation doc_tuple :=
  (doc_strings * doc_floats * (Z * bool) * (gmap string string * gmap string f64))%type.

Definition doc_to_tuple (d : FlightDocument) : doc_tuple :=
  ((fd_icao24 d, fd_callsign d, (fd_origin d, fd_destination d),
    (fd_aircraft_type d, fd_tenant_id d)),
   (fd_latitude d, fd_longitude d, (fd_altitude d, fd_velocity d),
    (fd_heading d, fd_vertical_rate d)),
   (fd_observed_at d, fd_on_ground d), (fd_text d, fd_number d)).

Definition tuple_to_doc (t : doc_tuple) : FlightDocument :=
  let '((i, c, (o, d), (a, te)), (la, lo, (al, ve), (he, vr)), (ob, gr), (tx, nu)) := t in
  {| fd_icao24 := i; fd_callsign := c; fd_observed_at := ob; fd_latitude := la;
     fd_longitude := lo; fd_altitude := al; fd_origin := o; fd_destination := d;
     fd_aircraft_type := a; fd_velocity := ve; fd_heading := he; fd_vertical_rate := vr;
     fd_on_ground := gr; fd_tenant_id := te; fd_text := tx; fd_number := nu |}.

Lemma tuple_to_doc_to_tuple d : tuple_to_doc (doc_to_tuple d) = d.
Proof. by destruct d. Qed.

Abbreviation request_tuple := (list doc_tuple * Z)%type.
Abbreviation command_tuple := (unit + (request_tuple + (Z * Z)))%type.

Definition request_to_tuple (r : ReplicateRequest) : request_tuple :=
  (doc_to_tuple <$> rr_documents r, rr_shard_id r).
Definition tuple_to_request (t : request_tuple) : ReplicateRequest :=
  {| rr_documents := tuple_to_doc <$> t.1; rr_shard_id := t.2 |}.

Lemma tuple_to_request_to_tuple r : tuple_to_request (request_to_tuple r) = r.
Proof.
  destruct r as [ds i]. unfold tuple_to_request, request_to_tuple. cbn. f_equal.
  rewrite <- list_fmap_compose. rewrite <- (list_fmap_id ds) at 2. apply list_fmap_ext.
  intros _ d _. apply tuple_to_doc_to_tuple.
Qed.

Definition command_to_tuple (c : ShardCommand) : command_tuple :=
  match sc_kind c with
  | None => inl tt
  | Some (Batch b) => inr (inl (request_to_tuple b))
  | Some (Evict e) => inr (inr (ev_vshard e, ev_v e))
  end.
Definition tuple_to_command (t : command_tuple) : ShardCommand :=
  {| sc_kind := match t with
                | inl _ => None
                | inr (inl b) => Some (Batch (tuple_to_request b))
                | inr (inr (vs, v)) => Some (Evict {| ev_vshard := vs; ev_v := v |})
                end |}.

Lemma tuple_to_command_to_tuple c : tuple_to_command (command_to_tuple c) = c.
Proof.
  destruct c as [[[b|[vs v]]|]]; try done. unfold tuple_to_command, command_to_tuple. cbn.
  by rewrite tuple_to_request_to_tuple.
Qed.

Lemma command_code_roundtrip c :
  (match one_decode (one_code (command_to_tuple c)) with
   | Some t => Some (tuple_to_command t) | None => None end) = Some c.
Proof. by rewrite one_decode_code, tuple_to_command_to_tuple. Qed.

Lemma request_code_roundtrip r :
  (match one_decode (one_code (request_to_tuple r)) with
   | Some t => Some (tuple_to_request t) | None => None end) = Some r.
Proof. by rewrite one_decode_code, tuple_to_request_to_tuple. Qed.

Definition tuple_codec : ShardCodec :=
  {| cmd_encode := λ c, one_code (command_to_tuple c);
     cmd_decode := λ b, match one_decode b with Some t => Some (tuple_to_command t) | None => None end;
     dump_encode := λ r, one_code (request_to_tuple r);
     dump_decode := λ b, match one_decode b with Some t => Some (tuple_to_request t) | None => None end;
     cmd_roundtrip := command_code_roundtrip; dump_roundtrip := request_code_roundtrip |}.

#[local] Existing Instance tuple_codec.

(** The log that indexes one document. *)
Definition index_one : Entry :=
  {| en_log_id := {| lid_leader := 1 : leader_id; lid_index := 1 |};
     en_payload := Normal (cmd_encode {| sc_kind :=
       Some (Batch {| rr_documents := [default_doc]; rr_shard_id := 0 |}) |}) |}.

Definition fresh_member : @StateMachineStore plain_raft ShardApp :=
  sm_new (st_new : @app ShardApp).

Lemma shard_replicas_converge_witness :
  ∃ sm replies, @sm_apply plain_raft ShardApp canonical_order fresh_member [index_one] =
    Some (sm, replies) ∧ st_contents (sm_app sm) =
    command_effect ∅ (default default_command (cmd_decode (cmd_encode {| sc_kind :=
       Some (Batch {| rr_documents := [default_doc]; rr_shard_id := 0 |}) |}))).
Proof.
  assert (NoDup (en_log_id <$> [index_one])) as Hids by apply NoDup_singleton.
  assert (@replica plain_raft ShardApp canonical_order plain_codec [index_one] canonical_order
    fresh_member) as H0
    by exact (@replica_new plain_raft ShardApp canonical_order plain_codec [index_one] canonical_order).
  destruct (@apply_ok plain_raft ShardApp shard_app_laws plain_codec canonical_order
    [index_one] Hids canonical_order fresh_member 0 1) as (sm & replies & E & _ & Hl).
  { exact (@sm_new_ok plain_raft ShardApp shard_app_laws plain_codec canonical_order [index_one]
      canonical_order). }
  { reflexivity. }
  exists sm, replies. split; [exact E|].
  assert (@replica plain_raft ShardApp canonical_order plain_codec [index_one] canonical_order sm)
    as H1 by exact (@replica_apply plain_raft ShardApp canonical_order plain_codec [index_one]
      canonical_order fresh_member 0 1 sm replies H0 eq_refl E).
  destruct (shard_replicas_converge [index_one] Hids canonical_order canonical_order sm sm 1
    H1 H1 Hl Hl) as [H _]. exact H.
Defined.

Lemma eviction_tick_sound_witness :
  eviction_tick false 0 [0; 1] st_new (λ _, true) = [].
Proof.
  destruct (eviction_tick_sound 0 [0; 1] st_new (λ _, true) store_wf_new) as (_ & _ & _ & H & _);
    [reflexivity|exact H].
Defined.

Lemma bootstrap_unique_witness :
  ∃ id, bootstrap_group id (member_map four_members) = true.
Proof.
  destruct (bootstrap_unique (member_map four_members)) as (id & H & _);
    [intros E; apply (f_equal map_to_list) in E; vm_compute in E; discriminate E|].
  exists id. exact H.
Defined.
