(* ===== verification/Auth.v ===== *)
(** * Scoped bearer tokens: [crates/coordinator/src/auth.rs]

    The token file's contents and a request's [authorization] header are inputs; a header
    that is absent or not visible ASCII is [None]. *)

From S2P Require Export Wire.

(** ** Scopes *)

Inductive Scope := Read | Operator.

#[export] Instance scope_eq_dec : EqDecision Scope.
Proof. solve_decision. Defined.

Definition scope_rank (s : Scope) : Z := match s with Read => 1 | Operator => 2 end.

Definition satisfies (s needed : Scope) : bool := scope_rank needed <=? scope_rank s.

Definition scope_parse (s : string) : option Scope :=
  if bool_decide (s = "read"%string) then Some Read
  else if bool_decide (s = "operator"%string) then Some Operator else None.

Definition show_scope (s : Scope) : string := match s with Read => "Read" | Operator => "Operator" end.

(** ** The token table *)

Record Auth := { tokens : gmap string Scope; au_enabled : bool }.

Definition auth_default : Auth := {| tokens := ∅; au_enabled := false |}.

(** Why a configured token file is refused. *)
Inductive LoadError :=
| Unreadable (e : string)
| BadTokenLine (line : string)
| UnknownScope (scope : string)
| NoTokens (path : string).

Section auth.
Context {UC : Unicode}.

(** One line: [Ok None] is an empty line or a comment. *)
Definition token_line (line : string) : result (option (string * Scope)) LoadError :=
  let line := str_trim line in
  if str_is_empty line || starts_with "#" line then Ok None
  else match split_whitespace line with
       | tok :: scope :: _ =>
           match scope_parse scope with
           | Some s => Ok (Some (tok, s))
           | None => Err (UnknownScope scope)
           end
       | _ => Err (BadTokenLine line)
       end.

Fixpoint load_lines (lines : list string) (m : gmap string Scope)
    : result (gmap string Scope) LoadError :=
  match lines with
  | [] => Ok m
  | line :: rest =>
      entry <-? token_line line;;
      load_lines rest (match entry with Some (tok, s) => <[tok := s]> m | None => m end)
  end.

(** [file] is [None] when [AETHER_TOKENS_FILE] is unset, else its path and what reading
    it gave. *)
Definition from_env (file : option (string * result string string)) : result Auth LoadError :=
  match file with
  | None => Ok auth_default
  | Some (path, contents) =>
      contents <-? map_err Unreadable contents;;
      m <-? load_lines (str_lines contents) ∅;;
      if bool_decide (m = ∅) then Err (NoTokens path)
      else Ok {| tokens := m; au_enabled := true |}
  end.

Definition require (a : Auth) (header : option string) (needed : Scope) : result () Status :=
  if negb (au_enabled a) then Ok ()
  else
    token <-? ok_or (header ≫= strip_prefix "Bearer ")
                (status Unauthenticated "missing bearer token");;
    scope <-? ok_or (tokens a !! token) (status Unauthenticated "unknown token");;
    if satisfies scope needed then Ok ()
    else Err (status PermissionDenied (show_scope needed +:+ " scope required")).

(** ** Specification *)

(** What a well-formed file grants: its entries in order. *)
Definition grants (lines : list string) : list (string * Scope) :=
  omap (λ l, match token_line l with Ok e => e | Err _ => None end) lines.

Definition grant_all (m : gmap string Scope) (es : list (string * Scope)) : gmap string Scope :=
  foldl (λ m e, <[e.1 := e.2]> m) m es.

(** The scope a request proves. *)
Definition presented (a : Auth) (header : option string) : option Scope :=
  token ← header ≫= strip_prefix "Bearer "; tokens a !! token.

(** ** Lemmas *)

Lemma load_lines_spec lines m :
  match load_lines lines m with
  | Ok m' => Forall (λ l, is_ok (token_line l) = true) lines ∧
             m' = grant_all m (grants lines)
  | Err e => ∃ before line after, lines = before ++ line :: after ∧
               Forall (λ l, is_ok (token_line l) = true) before ∧ token_line line = Err e
  end.
Proof.
  revert m. induction lines as [|l lines IH]; intros m; [by split|]. cbn [load_lines].
  destruct (token_line l) as [o|e] eqn:E; [|by exists [], l, lines].
  match goal with |- context [load_lines lines ?m'] => specialize (IH m') end.
  unfold grants in *. cbn [omap list_omap]. rewrite E.
  destruct (load_lines lines _) as [m'|e].
  - destruct IH as [H1 ->]. split; [constructor; [by rewrite E|done]|]. by destruct o as [[t s]|].
  - destruct IH as (b & x & c & -> & Hb & Hx). exists (l :: b), x, c.
    split_and!; [done| |done]. constructor; [by rewrite E|done].
Qed.

Lemma satisfies_spec s needed : satisfies s needed = true ↔ (needed = Operator → s = Operator).
Proof. destruct s, needed; cbn; naive_solver. Qed.

(** The last entry for a token decides. *)
Lemma grant_all_lookup es m tok s :
  grant_all m es !! tok = Some s ↔
  (∃ before after, es = before ++ (tok, s) :: after ∧ tok ∉ after.*1) ∨
  (tok ∉ es.*1 ∧ m !! tok = Some s).
Proof.
  revert m. induction es as [|[t' s'] es IH] using rev_ind; intros m.
  { cbn. split.
    - intros H. right. split; [apply not_elem_of_nil|done].
    - intros [(b & a & E & _)|[_ ?]]; [by destruct b|done]. }
  unfold grant_all in *. rewrite foldl_app, fmap_app. cbn [foldl fst snd fmap list_fmap].
  destruct (decide (t' = tok)) as [->|Hne].
  - rewrite lookup_insert_eq. split.
    + intros [= ->]. left. exists es, []. split; [done|]. apply not_elem_of_nil.
    + intros [(b & a & E & Hn)|[Hn _]]; [|set_solver].
      destruct a as [|x a _] using rev_ind.
      * apply app_inj_tail in E as [_ [= ->]]. done.
      * rewrite app_comm_cons, app_assoc in E. apply app_inj_tail in E as [_ <-].
        rewrite fmap_app in Hn. cbn in Hn. set_solver.
  - rewrite lookup_insert_ne by done. rewrite IH. split.
    + intros [(b & a & -> & Hn)|[Hn Hm]]; [left|right; set_solver].
      exists b, (a ++ [(t', s')]). split; [by rewrite <- app_assoc|]. rewrite fmap_app. cbn. set_solver.
    + intros [(b & a & E & Hn)|[Hn Hm]]; [left|right; set_solver].
      destruct a as [|x a _] using rev_ind.
      * apply app_inj_tail in E as [_ [=]]. congruence.
      * rewrite app_comm_cons, app_assoc in E. apply app_inj_tail in E as [-> _].
        exists b, a. rewrite fmap_app in Hn. cbn in Hn. split; [done|set_solver].
Qed.

End auth.

(** ** Properties *)

Section properties.
Context {UC : Unicode}.

(** Authentication fails closed. Without a token file every check passes; with one,
    loading succeeds only if every line is a comment or a well-formed entry and at least
    one entry exists, the first malformed line is what is reported, authentication is then
    on, and a token has exactly the scope of its last entry in the file. *)
Theorem tokens_fail_closed (path contents : string) :
  from_env None = Ok auth_default ∧
  match from_env (Some (path, Ok contents)) with
  | Ok a => au_enabled a = true ∧ grants (str_lines contents) ≠ [] ∧
      Forall (λ l, is_ok (token_line l) = true) (str_lines contents) ∧
      ∀ tok s, tokens a !! tok = Some s ↔
        ∃ before after, grants (str_lines contents) = before ++ (tok, s) :: after ∧
          tok ∉ after.*1
  | Err e =>
      (e = NoTokens path ∧ grants (str_lines contents) = []) ∨
      ∃ before line after, str_lines contents = before ++ line :: after ∧
        Forall (λ l, is_ok (token_line l) = true) before ∧ token_line line = Err e
  end.
Proof.
  split; [done|]. unfold from_env. cbn [map_err].
  pose proof (load_lines_spec (str_lines contents) ∅) as H.
  destruct (load_lines (str_lines contents) ∅) as [m|e]; [|by right].
  destruct H as [Hall ->]. generalize (grants (str_lines contents)) as es. intros es.
  assert (∀ tok s, grant_all ∅ es !! tok = Some s ↔
    ∃ before after, es = before ++ (tok, s) :: after ∧ tok ∉ after.*1) as Hl.
  { intros tok s. rewrite grant_all_lookup, lookup_empty. naive_solver. }
  destruct es as [|[t s] es]; [by left|].
  rewrite bool_decide_false; [by split_and!|]. intros E.
  destruct es as [|[t' s'] es' _] using rev_ind.
  - assert (∃ before after, [(t, s)] = before ++ (t, s) :: after ∧ t ∉ after.*1) as Hin.
    { exists [], []. split; [done|]. apply not_elem_of_nil. }
    apply Hl in Hin. by rewrite E, lookup_empty in Hin.
  - assert (∃ before after, (t, s) :: es' ++ [(t', s')] = before ++ (t', s') :: after ∧
      t' ∉ after.*1) as Hin.
    { exists ((t, s) :: es'), []. split; [done|]. apply not_elem_of_nil. }
    apply Hl in Hin. by rewrite E, lookup_empty in Hin.
Qed.

(** C23: what a request may do. With authentication on, a request passes exactly when it
    presents a known token whose scope covers what is needed (an operator token covers
    everything, a read token only reading); a missing or unknown token is
    [Unauthenticated], a read token on a mutation is [PermissionDenied], and these are
    the only refusals. *)
Theorem require_spec (a : Auth) (header : option string) (needed : Scope) :
  match require a header needed with
  | Ok _ => au_enabled a = false ∨
      ∃ s, presented a header = Some s ∧ (needed = Operator → s = Operator)
  | Err e => au_enabled a = true ∧
      ((st_code e = Unauthenticated ∧ presented a header = None) ∨
       (st_code e = PermissionDenied ∧ presented a header = Some Read ∧ needed = Operator))
  end.
Proof.
  unfold require, presented. destruct (au_enabled a); [|by left].
  destruct (header ≫= strip_prefix "Bearer ") as [tok|]; cbn; [|by split; [|left]].
  destruct (tokens a !! tok) as [s|]; cbn; [|by split; [|left]].
  destruct (satisfies s needed) eqn:E.
  - right. exists s. split; [done|]. by apply satisfies_spec.
  - split; [done|]. right. by destruct s, needed.
Qed.

End properties.

(** ** Examples *)

#[local] Existing Instance ascii_only.

Definition two_tokens : Auth :=
  {| tokens := <["o-tok" := Operator]> {["r-tok" := Read]}; au_enabled := true |}.

Example load_ex :
  from_env (Some ("tokens", Ok ("# team" +:+ newline +:+ "  r-tok   read" +:+ newline
                                +:+ newline +:+ "o-tok operator # ops"))) = Ok two_tokens.
Proof. vm_compute. reflexivity. Qed.

Example require_ex :
  require two_tokens (Some "Bearer o-tok") Read = Ok () ∧
  require two_tokens (Some "Bearer r-tok") Operator =
    Err (status PermissionDenied "Operator scope required") ∧
  require two_tokens (Some "bearer r-tok") Read =
    Err (status Unauthenticated "missing bearer token").
Proof. split_and!; vm_compute; reflexivity. Qed.
