(* ===== verification/Net.v ===== *)
(** * Transport security and client tokens: [crates/common/src/net.rs]

    The TLS material loaded once per process, the channels and servers built with it, and
    the token a client attaches. tonic's endpoints and metadata are interfaces; the
    environment and the file system are inputs of each call; [None] is a panic. Installing
    the crypto provider is left out. *)

From S2P Require Export Auth.

(** ** What the code uses of tonic *)

Record ClientTlsConfig := {
  ct_ca : string; ct_identity : string * string; ct_domain : string;
}.
Record ServerTlsConfig := { st_identity : string * string; st_client_ca_root : string }.

Class Tonic := {
  endpoint : Type;
  channel_t : Type;
  from_shared : string → result endpoint string;
  tls_config : ClientTlsConfig → endpoint → result endpoint string;
  ep_connect : endpoint → result channel_t string;
  (** Whether a string parses as a metadata value, which then reads back as that string. *)
  metadata_ok : string → bool;
}.

(** ** The environment of a call *)

(** [ne_read dir name] is what reading a file of the directory gives. *)
Record NetEnv := {
  ne_tls_dir : option string;
  ne_tls_role : option string;
  ne_read : string → string → option string;
}.

(** ** Material *)

Record TlsMaterial := { tm_ca : string; tm_identity : string * string }.

Definition load_material (env : NetEnv) : option (option TlsMaterial) :=
  match ne_tls_dir env with
  | None => Some None
  | Some dir =>
      let role := default "operator"%string (ne_tls_role env) in
      ca ← ne_read env dir "ca.crt";
      crt ← ne_read env dir (role +:+ ".crt");
      key ← ne_read env dir (role +:+ ".key");
      Some (Some {| tm_ca := ca; tm_identity := (crt, key) |})
  end.

(** The [OnceLock]: a load that panics leaves it empty. *)
Abbreviation Cell := (option (option TlsMaterial)).

Definition material (cell : Cell) (env : NetEnv) : Cell * option (option TlsMaterial) :=
  match cell with
  | Some m => (cell, Some m)
  | None => match load_material env with
            | Some m => (Some m, Some m)
            | None => (None, None)
            end
  end.

Definition tls_enabled (cell : Cell) (env : NetEnv) : Cell * option bool :=
  let '(cell, m) := material cell env in (cell, is_some <$> m).

Section net.
Context {TN : Tonic}.

Definition channel (cell : Cell) (env : NetEnv) (addr : string)
    : Cell * option (result channel_t string) :=
  let '(cell, m) := material cell env in
  (cell,
   match m with
   | None => None
   | Some (Some m) =>
       let tls := {| ct_ca := tm_ca m; ct_identity := tm_identity m; ct_domain := "localhost" |} in
       Some (ep <-? from_shared ("https://" +:+ addr);;
             ep <-? tls_config tls ep;;
             ep_connect ep)
   | Some None => Some (ep <-? from_shared ("http://" +:+ addr);; ep_connect ep)
   end).

Definition server_config (m : TlsMaterial) : ServerTlsConfig :=
  {| st_identity := tm_identity m; st_client_ca_root := tm_ca m |}.

Definition server_tls (cell : Cell) (env : NetEnv) : Cell * option (option ServerTlsConfig) :=
  let '(cell, m) := material cell env in
  (cell, (λ p : option TlsMaterial, server_config <$> p) <$> m).

(** The [authorization] metadata of a request. *)
Definition with_token (token : option string) : option string :=
  match token with
  | None => None
  | Some token =>
      let v := "Bearer " +:+ token in
      if metadata_ok v then Some v else None
  end.

(** ** Specification *)

(** How a process talks once its policy is settled. *)
Definition dial (m : option TlsMaterial) (addr : string) : result channel_t string :=
  match m with
  | None => ep <-? from_shared ("http://" +:+ addr);; ep_connect ep
  | Some m =>
      ep <-? from_shared ("https://" +:+ addr);;
      ep <-? tls_config {| ct_ca := tm_ca m; ct_identity := tm_identity m;
                           ct_domain := "localhost" |} ep;;
      ep_connect ep
  end.

(** The calls of a process, each with the environment it finds. *)
Inductive NetCall :=
| CallChannel (addr : string)
| CallServer
| CallEnabled.

Definition after_calls (calls : list (NetCall * NetEnv)) : Cell :=
  foldl (λ cell c, match c.1 with
                   | CallChannel addr => (channel cell c.2 addr).1
                   | CallServer => (server_tls cell c.2).1
                   | CallEnabled => (tls_enabled cell c.2).1
                   end) None calls.

Lemma after_calls_cell calls :
  after_calls calls = None ∨
  ∃ env m, env ∈ calls.*2 ∧ load_material env = Some m ∧ after_calls calls = Some m.
Proof.
  induction calls as [|[c env] calls IH] using rev_ind; [by left|].
  unfold after_calls in *. rewrite foldl_app, fmap_app. cbn [foldl fst snd fmap list_fmap].
  set (cell := foldl _ None calls) in *.
  assert (material cell env = (cell, None) ∧ cell = None ∨
          ∃ m, material cell env = (Some m, Some m) ∧ (cell = Some m ∨ load_material env = Some m)) as Hm.
  { unfold material. destruct cell as [m|]; [by right; eexists; split; [|left]|].
    destruct (load_material env) as [m|] eqn:E; [by right; eexists; split; [|right]|by left]. }
  assert ((match c with
           | CallChannel addr => (channel cell env addr).1
           | CallServer => (server_tls cell env).1
           | CallEnabled => (tls_enabled cell env).1
           end) = (material cell env).1) as ->.
  { unfold channel, server_tls, tls_enabled. by destruct c, (material cell env). }
  destruct Hm as [[-> ->]|(m & -> & [E|E])]; [by left| |]; right; cbn.
  - destruct IH as [?|(env' & m' & Hin & Hl & E')]; [congruence|].
    exists env', m'. split_and!; [set_solver|done|congruence].
  - exists env, m. split_and!; [set_solver|done|done].
Qed.

(** ** Properties *)

(** C30: TLS is all or nothing, for the life of a process. With the directory configured,
    whatever calls came before and whatever happened to the files, every call panics, or
    uses TLS with material that was read whole (certificate authority, certificate and
    key), and every later call uses the same: no channel is dialed and no server is
    started in plaintext. Without it everything is plaintext. *)
Theorem tls_never_degrades (dir : option string) (calls : list (NetCall * NetEnv)) (env : NetEnv)
    (addr : string) (Hdir : Forall (λ e, ne_tls_dir e = dir) (env :: calls.*2)) :
  let cell := after_calls calls in
  let '(cell', m) := material cell env in
  (channel cell env addr).2 = (λ m, dial m addr) <$> m ∧
  (server_tls cell env).2 = (λ p : option TlsMaterial, server_config <$> p) <$> m ∧
  (tls_enabled cell env).2 = is_some <$> m ∧
  match dir with
  | None => m = Some None
  | Some d => m = None ∨ ∃ e ca crt key, e ∈ env :: calls.*2 ∧
      let role := default "operator"%string (ne_tls_role e) in
      ne_read e d "ca.crt" = Some ca ∧ ne_read e d (role +:+ ".crt") = Some crt ∧
      ne_read e d (role +:+ ".key") = Some key ∧
      m = Some (Some {| tm_ca := ca; tm_identity := (crt, key) |})
  end ∧
  ∀ policy, m = Some policy → ∀ env', material cell' env' = (cell', Some policy).
Proof.
  cbn zeta. pose proof (after_calls_cell calls) as Hc. rewrite Forall_forall in Hdir.
  set (cell := after_calls calls) in *.
  assert (∀ e m, e ∈ env :: calls.*2 → load_material e = Some m →
    match dir with
    | None => m = None
    | Some d => ∃ ca crt key,
        let role := default "operator"%string (ne_tls_role e) in
        ne_read e d "ca.crt" = Some ca ∧ ne_read e d (role +:+ ".crt") = Some crt ∧
        ne_read e d (role +:+ ".key") = Some key ∧
        m = Some {| tm_ca := ca; tm_identity := (crt, key) |}
    end) as Hload.
  { intros e m He. unfold load_material. rewrite (Hdir e He). destruct dir as [d|]; [|congruence].
    destruct (ne_read e d "ca.crt") as [ca|]; [|done].
    destruct (ne_read e d (_ +:+ ".crt")) as [crt|]; [|done].
    destruct (ne_read e d (_ +:+ ".key")) as [key|]; [|done]. intros [= <-]. by exists ca, crt, key. }
  unfold channel, server_tls, tls_enabled.
  assert (∃ cell' m, material cell env = (cell', m) ∧
    (m = None ∧ load_material env = None ∨ ∃ p e, m = Some p ∧ cell' = Some p ∧ e ∈ env :: calls.*2 ∧ load_material e = Some p))
    as (cell' & m & -> & Hm).
  { unfold material. destruct Hc as [->|(e & p & He & Hp & ->)].
    - destruct (load_material env) as [p|] eqn:E; [|by eexists _, _; split; [|left]].
      eexists _, _. split; [done|]. right. exists p, env. split_and!; [done..| |done]. by left.
    - eexists _, _. split; [done|]. right. exists p, e. split_and!; [done..| |done]. by right. }
  cbn [snd]. split_and!; [|done|done| |].
  - by destruct m as [[]|].
  - destruct Hm as [[-> E]|(p & e & -> & -> & He & Hp)]; [|specialize (Hload e p He Hp)]; destruct dir as [d|].
    + by left.
    + unfold load_material in E. by rewrite (Hdir env) in E by left.
    + right. destruct Hload as (ca & crt & key & H1 & H2 & H3 & ->). by exists e, ca, crt, key.
    + by rewrite Hload.
  - intros policy ->. destruct Hm as [[? _]|(p & e & [= <-] & -> & _)]; [done|]. by intros.
Qed.

(** A client's token does what the server's token file says: a call carrying it passes
    exactly when the token's last entry in the file has the scope the call needs; without
    a token, or with one that is no metadata value, every call is refused. *)
Theorem client_token_checked `{!Unicode} (path contents : string) (a : Auth) (token : option string)
    (needed : Scope) (Hload : from_env (Some (path, Ok contents)) = Ok a) :
  require a (with_token token) needed = Ok () ↔
  ∃ t s before after, token = Some t ∧ metadata_ok ("Bearer " +:+ t) = true ∧
    grants (str_lines contents) = before ++ (t, s) :: after ∧ t ∉ after.*1 ∧
    (needed = Operator → s = Operator).
Proof.
  destruct (tokens_fail_closed path contents) as [_ Hspec]. rewrite Hload in Hspec.
  destruct Hspec as (He & _ & _ & Hg). unfold require, with_token. rewrite He. cbn [negb].
  destruct token as [t|]; [|split; [done|by intros (t & s & b & c & [=] & _)]].
  destruct (metadata_ok _) eqn:Em; [|split; [done|intros (t' & s & b & c & [= <-] & Hm & _); congruence]].
  cbn [mbind option_bind]. rewrite strip_prefix_app. cbn [ok_or].
  destruct (tokens a !! t) as [s|] eqn:Et; cbn [ok_or].
  - destruct (satisfies s needed) eqn:Es.
    + split; [|done]. intros _. apply Hg in Et as (b & c & Hgr & Hn). pose proof (proj1 (satisfies_spec _ _) Es).
      by exists t, s, b, c.
    + split; [done|]. intros (t' & s' & b & c & [= <-] & _ & Hgr & Hn & Hs).
      assert (tokens a !! t = Some s') as E by (apply Hg; by exists b, c).
      assert (s = s') as -> by congruence. apply (proj2 (satisfies_spec s' needed)) in Hs. congruence.
  - split; [done|]. intros (t' & s' & b & c & [= <-] & _ & Hgr & Hn & _).
    assert (tokens a !! t = Some s') as E by (apply Hg; by exists b, c). congruence.
Qed.
End net.

(** ** Witnesses *)

(** Endpoints as what was asked for. *)
#[local] Instance plain_tonic : Tonic :=
  {| endpoint := string * option ClientTlsConfig; channel_t := string * option ClientTlsConfig;
     from_shared u := Ok (u, None); tls_config t e := Ok (e.1, Some t); ep_connect := Ok;
     metadata_ok := λ _, true |}.

Definition cert_dir : NetEnv :=
  {| ne_tls_dir := Some "certs"%string; ne_tls_role := Some "node"%string;
     ne_read := λ dir name, Some (dir +:+ "/" +:+ name) |}.
Definition no_key : NetEnv :=
  {| ne_tls_dir := Some "certs"%string; ne_tls_role := Some "node"%string;
     ne_read := λ dir name, if bool_decide (name = "node.key"%string) then None else Some name |}.

(** The first call panics for want of the key; the next, once it is there, is secured. *)
Lemma tls_never_degrades_witness :
  (channel None no_key "c:1").2 = None ∧
  (channel (after_calls [(CallChannel "c:1", no_key)]) cert_dir "c:1").2 =
    Some (Ok ("https://c:1"%string, Some {| ct_ca := "certs/ca.crt";
      ct_identity := ("certs/node.crt"%string, "certs/node.key"%string); ct_domain := "localhost" |})).
Proof.
  split; [reflexivity|].
  destruct (tls_never_degrades (Some "certs"%string) [(CallChannel "c:1", no_key)] cert_dir "c:1")
    as (H & _); [by repeat constructor|]. exact H.
Defined.
