(* ===== verification/Metrics.v ===== *)
(** * Operational metrics: [crates/coordinator/src/metrics.rs]

    The counters, the latency histogram and their Prometheus text. The HTTP responder
    around [render] is left out. *)

From S2P Require Export Registry.

(** ** State *)

Definition LATENCY_BUCKETS_MS : list Z := [1; 5; 10; 50; 100; 500].

Record Metrics := {
  queries_total : Z;
  query_errors_total : Z;
  aggregates_total : Z;
  aggregate_errors_total : Z;
  query_latency_ms_sum : Z;
  latency_buckets : list Z;
}.

Definition metrics_default : Metrics :=
  {| queries_total := 0; query_errors_total := 0; aggregates_total := 0;
     aggregate_errors_total := 0; query_latency_ms_sum := 0;
     latency_buckets := [0; 0; 0; 0; 0; 0] |}.

(** [AtomicU64::fetch_add] wraps. *)
Definition fetch_add (counter n : Z) : Z := wrap_u64 (counter + n).

(** ** Operations *)

Definition record_query (m : Metrics) (elapsed_ms : Z) (ok : bool) : Metrics :=
  let ms := wrap_u64 elapsed_ms in
  {| queries_total := fetch_add (queries_total m) 1;
     query_errors_total :=
       if ok then query_errors_total m else fetch_add (query_errors_total m) 1;
     aggregates_total := aggregates_total m;
     aggregate_errors_total := aggregate_errors_total m;
     query_latency_ms_sum := fetch_add (query_latency_ms_sum m) ms;
     latency_buckets :=
       zip_with (λ bound b, if ms <=? bound then fetch_add b 1 else b)
         LATENCY_BUCKETS_MS (latency_buckets m) |}.

Definition record_aggregate (m : Metrics) (ok : bool) : Metrics :=
  {| queries_total := queries_total m; query_errors_total := query_errors_total m;
     aggregates_total := fetch_add (aggregates_total m) 1;
     aggregate_errors_total :=
       if ok then aggregate_errors_total m else fetch_add (aggregate_errors_total m) 1;
     query_latency_ms_sum := query_latency_ms_sum m;
     latency_buckets := latency_buckets m |}.

Definition counter_text (name help : string) (v : Z) : string :=
  "# HELP " +:+ name +:+ " " +:+ help +:+ newline +:+
  "# TYPE " +:+ name +:+ " counter" +:+ newline +:+
  name +:+ " " +:+ show_Z v +:+ newline.

Definition bucket_text (le : string) (v : Z) : string :=
  "aether_query_latency_ms_bucket{le=" +:+ dquote +:+ le +:+ dquote +:+ "} "
    +:+ show_Z v +:+ newline.

Definition gauge_text (name help : string) (v : Z) : string :=
  "# HELP " +:+ name +:+ " " +:+ help +:+ newline +:+
  "# TYPE " +:+ name +:+ " gauge" +:+ newline +:+
  name +:+ " " +:+ show_Z v +:+ newline.

Definition concat_text (l : list string) : string := foldr String.append EmptyString l.

(** [registry] is [None] when its lock is poisoned. *)
Definition render (m : Metrics) (registry : option Registry) : string :=
  let '(leaders, shards) :=
    match registry with
    | Some r => (Z.of_nat (leaders_registered r), shard_count r)
    | None => (0, 0)
    end in
  counter_text "aether_queries_total" "Search queries handled by the coordinator."
    (queries_total m) +:+
  counter_text "aether_query_errors_total" "Search queries that returned an error."
    (query_errors_total m) +:+
  counter_text "aether_aggregates_total" "Aggregate queries handled." (aggregates_total m) +:+
  counter_text "aether_aggregate_errors_total" "Aggregate queries that returned an error."
    (aggregate_errors_total m) +:+
  "# HELP aether_query_latency_ms Search latency in milliseconds." +:+ newline +:+
  "# TYPE aether_query_latency_ms histogram" +:+ newline +:+
  concat_text (zip_with (λ bound c, bucket_text (show_Z bound) c)
                 LATENCY_BUCKETS_MS (latency_buckets m)) +:+
  bucket_text "+Inf" (queries_total m) +:+
  "aether_query_latency_ms_sum " +:+ show_Z (query_latency_ms_sum m) +:+ newline +:+
  "aether_query_latency_ms_count " +:+ show_Z (queries_total m) +:+ newline +:+
  gauge_text "aether_cluster_leaders" "Shard leaders currently registered." leaders +:+
  gauge_text "aether_cluster_shards" "Configured shard count." shards.

(** ** Specification *)

Inductive event := Query (ms : Z) (ok : bool) | Aggregate (ok : bool).

Definition record (m : Metrics) (e : event) : Metrics :=
  match e with
  | Query ms ok => record_query m ms ok
  | Aggregate ok => record_aggregate m ok
  end.

(** How many of the recorded events satisfy a test. *)
Definition tally (p : event → bool) (es : list event) : Z :=
  Z.of_nat (length (filter (λ e, p e = true) es)).

Definition is_query (e : event) : bool := match e with Query _ _ => true | _ => false end.
Definition failed_query (e : event) : bool := match e with Query _ ok => negb ok | _ => false end.
Definition failed_aggregate (e : event) : bool :=
  match e with Aggregate ok => negb ok | _ => false end.
Definition within (bound : Z) (e : event) : bool :=
  match e with Query ms _ => wrap_u64 ms <=? bound | _ => false end.
Definition latency (e : event) : Z := match e with Query ms _ => wrap_u64 ms | _ => 0 end.

(** ** Lemmas *)

Lemma tally_snoc p es e : tally p (es ++ [e]) = tally p es + if p e then 1 else 0.
Proof.
  unfold tally. rewrite filter_app, length_app, filter_cons. destruct (p e); simpl; lia.
Qed.

Lemma fetch_add_wrap z n : fetch_add (wrap_u64 z) n = wrap_u64 (z + n).
Proof. unfold fetch_add, wrap_u64. by rewrite Zplus_mod_idemp_l. Qed.

Lemma fetch_tally p es e :
  wrap_u64 (tally p (es ++ [e])) =
  if p e then fetch_add (wrap_u64 (tally p es)) 1 else wrap_u64 (tally p es).
Proof. rewrite tally_snoc. destruct (p e); by rewrite ?fetch_add_wrap, ?Z.add_0_r. Qed.

(** Every counter counts what it says, modulo its width. *)
Lemma record_all es :
  foldl record metrics_default es =
  {| queries_total := wrap_u64 (tally is_query es);
     query_errors_total := wrap_u64 (tally failed_query es);
     aggregates_total := wrap_u64 (tally (negb ∘ is_query) es);
     aggregate_errors_total := wrap_u64 (tally failed_aggregate es);
     query_latency_ms_sum := wrap_u64 (z_sum (latency <$> es));
     latency_buckets := (λ b, wrap_u64 (tally (within b) es)) <$> LATENCY_BUCKETS_MS |}.
Proof.
  induction es as [|e es IH] using rev_ind; [done|]. rewrite foldl_app. cbn [foldl]. rewrite IH.
  rewrite fmap_app, z_sum_app. cbn [fmap list_fmap]. unfold record, record_query, record_aggregate.
  destruct e as [ms ok|ok]; cbn [queries_total query_errors_total aggregates_total
    aggregate_errors_total query_latency_ms_sum latency_buckets LATENCY_BUCKETS_MS zip_with fmap list_fmap];
    rewrite !fetch_tally; cbn [is_query failed_query failed_aggregate within latency negb compose z_sum foldr];
    rewrite ?Z.add_0_r, ?fetch_add_wrap; by destruct ok.
Qed.

Lemma tally_mono p q es : (∀ e, p e = true → q e = true) → tally p es ≤ tally q es.
Proof.
  intros H. unfold tally. apply inj_le, sublist_length.
  induction es as [|e es IH]; [done|]. specialize (H e). rewrite !filter_cons.
  repeat case_decide; [by constructor|naive_solver|by constructor|done].
Qed.

(** ** Properties *)

(** The histogram is a histogram. After any events, fewer than 2^64, every counter
    holds exactly the number of events it is named for, the latency sum is the sum of the
    recorded latencies modulo 2^64, and the buckets are cumulative: bucket [b] counts the
    queries answered within [b] milliseconds, no bucket exceeds a later one, and none the
    total that closes the exposition. *)
Theorem metrics_exact (es : list event) (Hn : Z.of_nat (length es) < 2 ^ 64) :
  let m := foldl record metrics_default es in
  queries_total m = tally is_query es ∧ query_errors_total m = tally failed_query es ∧
  aggregates_total m = tally (negb ∘ is_query) es ∧
  aggregate_errors_total m = tally failed_aggregate es ∧
  query_latency_ms_sum m = wrap_u64 (z_sum (latency <$> es)) ∧
  latency_buckets m = (λ b, tally (within b) es) <$> LATENCY_BUCKETS_MS ∧
  StronglySorted Z.le (latency_buckets m ++ [queries_total m]).
Proof.
  intros m. assert (∀ p, wrap_u64 (tally p es) = tally p es) as Hw.
  { intros p. unfold wrap_u64. apply Z.mod_small. unfold tally.
    pose proof (length_filter (λ e, p e = true) es). lia. }
  assert (latency_buckets m = (λ b, tally (within b) es) <$> LATENCY_BUCKETS_MS) as Hb.
  { unfold m. rewrite record_all. cbn [latency_buckets]. apply list_fmap_ext. intros. apply Hw. }
  assert (queries_total m = tally is_query es) as Hq.
  { unfold m. rewrite record_all. apply Hw. }
  rewrite Hb, Hq. unfold m. rewrite record_all. cbn [query_errors_total aggregates_total
    aggregate_errors_total query_latency_ms_sum]. split_and!; try apply Hw; [done..|].
  cbn [fmap list_fmap LATENCY_BUCKETS_MS app].
  repeat constructor; apply tally_mono; intros [ms ok|ok]; cbn; rewrite ?Z.leb_le; try done; lia.
Qed.

(** ** Witnesses *)

Lemma metrics_exact_witness :
  let es := [Query 3 true; Aggregate false; Query 700 true] in
  latency_buckets (foldl record metrics_default es) = [0; 1; 1; 1; 1; 1] ∧
  StronglySorted Z.le ([0; 1; 1; 1; 1; 1] ++ [2]).
Proof.
  intros es. split; [reflexivity|].
  destruct (metrics_exact es ltac:(reflexivity)) as (_ & _ & _ & _ & _ & _ & H). exact H.
Defined.

Example render_ex :
  String.index 0 ("aether_query_latency_ms_bucket{le=" +:+ dquote +:+ "5" +:+ dquote +:+ "} 1")
    (render (record_query metrics_default 3 true) None) ≠ None.
Proof. vm_compute. done. Qed.
