(* ===== verification/Control.v ===== *)
(** * The coordinator state group: [crates/coordinator/src/control.rs] and the registry
      wiring of [crates/coordinator/src/main.rs]

    Operator intent (the virtual-shard table and the drain set) is the application of a
    raft group of coordinators; the rest of the registry is each replica's own view. The
    group's answer to a write is an input. *)

From S2P Require Export Registry RaftStorage.

(** ** Commands *)

Inductive Command :=
| ReassignVShard (vshard group : Z)
| DrainNode (node_id : string).

(** The snapshot form of the authoritative state: the table and the drain set. *)
Abbreviation Authority := (list Z * list string)%type.

(** bincode on commands, whose numbers are [u32], and on the snapshot form. *)
Class ControlCodec := {
  command_encode : Command → bytes;
  command_decode : bytes → option Command;
  command_roundtrip : ∀ vshard group, 0 ≤ vshard < 2 ^ 32 → 0 ≤ group < 2 ^ 32 →
    command_decode (command_encode (ReassignVShard vshard group)) = Some (ReassignVShard vshard group);
  drain_roundtrip : ∀ node, command_decode (command_encode (DrainNode node)) = Some (DrainNode node);
  command_u32 : ∀ b vshard group, command_decode b = Some (ReassignVShard vshard group) →
    0 ≤ vshard < 2 ^ 32 ∧ 0 ≤ group < 2 ^ 32;
  authority_encode : Authority → bytes;
  authority_decode : bytes → option Authority;
  authority_roundtrip : ∀ a, authority_decode (authority_encode a) = Some a;
}.

(** ** The configured registry *)

(** [main]: the registry a coordinator starts with. *)
Definition configured (n liveness_timeout : Z) (v : nat) (control_mode : bool) : Registry :=
  let r := with_liveness_timeout (reg_new n) liveness_timeout in
  let r := if decide (0 < v)%nat then with_vshards r v else r in
  if control_mode then with_replicated_authority r else r.

(** One tick of the reaper task. *)
Definition reaper_tick {HO : HashOrder} (r : Registry) (now : Z)
    : Registry * list NodeInfo * list (Z * string) :=
  let '(r, removed) := reap_dead r now (liveness_timeout r) in
  let '(r, promotions) := promote_orphaned_shards r in
  (r, removed, promotions).

(** ** The application *)

Section control.
Context {CC : ControlCodec} (n timeout : Z) (v : nat).

Definition control_apply (r : Registry) (payload : bytes) : Registry * Z :=
  match command_decode payload with
  | Some (ReassignVShard vshard group) => ((reassign_vshard r vshard group).1, 1)
  | Some (DrainNode node_id) => (apply_drain_marker r node_id, 1)
  | None => (r, 0)
  end.

Definition control_snapshot_bytes (r : Registry) : bytes := authority_encode (authority r).

Definition control_restore (r : Registry) (b : bytes) : Registry * Z :=
  let auth := default ([], []) (authority_decode b) in
  (set_authority r auth.1 auth.2, wrap_u32 (Z.of_nat (length auth.1 + length auth.2))).

(** Everything else that happens to the registry of a replica: registrations, heartbeats,
    leader reports, the reaper and promotions. *)
Definition view_op (op : reg_op) : bool :=
  match op with
  | OpRegister _ _ | OpHeartbeat _ _ | OpReap _ _ | OpPromote | OpReport _ _ => true
  | _ => false
  end.

Definition view_step (r r' : Registry) : Prop :=
  ∃ (HO : HashOrder) op, view_op op = true ∧ r' = reg_exec r op.

Definition ControlApp : StateMachineApp :=
  {| seed := (); app := Registry; app_new := configured n timeout v true;
     app_apply := λ _ r p, Some (control_apply r p);
     app_snapshot_bytes := λ _ r, control_snapshot_bytes r;
     app_restore := λ _ r b, Some (control_restore r b);
     app_local := view_step |}.

(** ** Specification *)

(** Operator intent: the table and the drain set. *)
Definition intent (r : Registry) : list Z * gset string := (vshards r, draining r).

(** What a command does to it: in-range assignments change the table. *)
Definition intent_effect (i : list Z * gset string) (payload : bytes) : list Z * gset string :=
  match command_decode payload with
  | Some (ReassignVShard vshard group) =>
      if decide (0 ≤ vshard < Z.of_nat (length i.1) ∧ group < n)
      then (<[Z.to_nat vshard := group]> i.1, i.2) else i
  | Some (DrainNode node_id) => (i.1, {[node_id]} ∪ i.2)
  | None => i
  end.
End control.

(** ** Joining the group *)

(** Why the configuration of the group is refused. *)
Inductive ControlError :=
| BadId (raw : string)
| BadEntry (part : string)
| BadPeerId (raw : string)
| NotAPeer (my_id : Z).

Section joining.
Context {UC : Unicode}.

Fixpoint parse_peers (parts : list string) (peers : gmap Z string)
    : result (gmap Z string) ControlError :=
  match parts with
  | [] => Ok peers
  | part :: rest =>
      kv <-? ok_or (split_once "=" part) (BadEntry part);;
      peer <-? ok_or (parse_u64 (str_trim kv.1)) (BadPeerId kv.1);;
      parse_peers rest (<[peer := str_trim kv.2]> peers)
  end.

(** [ControlPlane::from_env] up to the construction of the raft node: this replica's id
    and the peers, or [None] without a group. *)
Definition control_from_env (id peers_raw : option string)
    : result (option (Z * gmap Z string)) ControlError :=
  match id, peers_raw with
  | Some id, Some raw =>
      my_id <-? ok_or (parse_u64 id) (BadId id);;
      let parts := filter (λ p, p ≠ EmptyString)
                     (str_trim <$> str_split (λ c, c =? comma)%N raw) in
      peers <-? parse_peers parts ∅;;
      if decide (is_Some (peers !! my_id)) then Ok (Some (my_id, peers))
      else Err (NotAPeer my_id)
  | _, _ => Ok None
  end.
End joining.

(** [peers.keys().min() == Some(&my_id)]. *)
Definition bootstraps (my_id : Z) (peers : gmap Z string) : bool :=
  bool_decide (fst <$> head (bt_iter peers) = Some my_id).

(** ** Proposing *)

(** What [client_write] came to. A committed write has been applied here, after whatever
    else was committed before it; a forward names the leader if one is known. *)
Inductive WriteOutcome :=
| Committed (before : list bytes)
| ForwardToLeader (leader_id : option Z) (leader_node : option string) (e : string)
| WriteFailed (e : string).

Inductive ProposeError :=
| ToLeader (address : string)
| Unavailable_ (message : string).

Section propose.
Context {CC : ControlCodec}.

Definition apply_all (r : Registry) (payloads : list bytes) : Registry :=
  foldl (λ r p, (control_apply r p).1) r payloads.

Definition propose (my_id : Z) (r : Registry) (cmd : Command) (outcome : WriteOutcome)
    : Registry * result () ProposeError :=
  let unavailable e := Err (Unavailable_ ("control group cannot commit: " +:+ e)) in
  match outcome with
  | Committed before => (apply_all r (before ++ [command_encode cmd]), Ok ())
  | ForwardToLeader leader_id (Some addr) e =>
      (r, if bool_decide (leader_id = Some my_id) then unavailable e else Err (ToLeader addr))
  | ForwardToLeader _ None e => (r, unavailable e)
  | WriteFailed e => (r, unavailable e)
  end.
End propose.

(** ** Lemmas *)

Lemma promote_shard_intent st s :
  intent (promote_shard st s).1 = intent st.1 ∧
  shard_count (promote_shard st s).1 = shard_count st.1 ∧
  authority_replicated (promote_shard st s).1 = authority_replicated st.1.
Proof. destruct st as [r ps]. unfold promote_shard. by repeat case_match. Qed.

Lemma promote_intent {HO : HashOrder} r :
  intent (promote_orphaned_shards r).1 = intent r ∧
  shard_count (promote_orphaned_shards r).1 = shard_count r ∧
  authority_replicated (promote_orphaned_shards r).1 = authority_replicated r.
Proof.
  assert (∀ l st, intent (foldl promote_shard st l).1 = intent st.1 ∧
    shard_count (foldl promote_shard st l).1 = shard_count st.1 ∧
    authority_replicated (foldl promote_shard st l).1 = authority_replicated st.1) as H.
  { induction l as [|s l IH]; intros st; [done|]. cbn [foldl].
    destruct (IH (promote_shard st s)) as (-> & -> & ->). apply promote_shard_intent. }
  apply (H (hm_keys (followers r)) (r, [])).
Qed.

(** With replicated authority, a replica's view of the cluster never touches intent. *)
Lemma view_op_intent {HO : HashOrder} r op :
  view_op op = true → authority_replicated r = true →
  intent (reg_exec r op) = intent r ∧ shard_count (reg_exec r op) = shard_count r ∧
  authority_replicated (reg_exec r op) = true.
Proof.
  intros Hop Ha. destruct op; try done; cbn [reg_exec].
  - unfold register_at. by repeat case_match.
  - unfold heartbeat. by repeat case_match.
  - unfold reap_dead. destruct (foldl _ _ _) as [ls rs]. by rewrite Ha.
  - destruct (promote_intent r) as (-> & -> & ->). done.
  - unfold report_raft_leader. by repeat case_match.
Qed.

Section laws.
Context {CC : ControlCodec} (n timeout : Z) (v : nat).

Lemma reassign_intent r vshard group :
  0 ≤ vshard →
  intent (reassign_vshard r vshard group).1 =
    (if decide (0 ≤ vshard < Z.of_nat (length (vshards r)) ∧ group < shard_count r)
     then (<[Z.to_nat vshard := group]> (vshards r), draining r) else intent r) ∧
  shard_count (reassign_vshard r vshard group).1 = shard_count r ∧
  authority_replicated (reassign_vshard r vshard group).1 = authority_replicated r.
Proof.
  intros H0. unfold reassign_vshard. case_bool_decide as He.
  { rewrite decide_False; [done|]. rewrite He. cbn. lia. }
  destruct (Z.leb_spec (Z.of_nat (length (vshards r))) vshard); [rewrite decide_False; [done|lia]|].
  destruct (Z.leb_spec (shard_count r) group); [rewrite decide_False; [done|lia]|].
  rewrite decide_True; [done|lia].
Qed.

Lemma control_apply_intent r p :
  shard_count r = n →
  intent (control_apply r p).1 = intent_effect n (intent r) p ∧
  shard_count (control_apply r p).1 = n ∧
  authority_replicated (control_apply r p).1 = authority_replicated r.
Proof.
  intros Hn. unfold control_apply, intent_effect.
  destruct (command_decode p) as [[vs g|node]|] eqn:E; [|done|done].
  apply command_u32 in E as [Hv _]. cbn [fst]. destruct (reassign_intent r vs g (proj1 Hv)) as (-> & -> & ->).
  rewrite Hn. by cbn [fst snd intent].
Qed.

Lemma control_restore_intent r a :
  intent (control_restore r (control_snapshot_bytes a)).1 = intent a.
Proof.
  unfold control_restore, control_snapshot_bytes. rewrite authority_roundtrip.
  cbn [default from_option authority fst snd]. unfold intent, set_authority. cbn. f_equal.
  apply set_eq. intros x. by rewrite elem_of_list_to_set, elem_of_sort_by, elem_of_elements.
Qed.

(** The registry keeps the state machine's contract: commands act on intent alone, a dump
    restores it, and the view never touches it. *)
Lemma control_app_laws : @AppLaws (ControlApp n timeout v).
Proof.
  refine {| app_ok := λ (_ : @seed (ControlApp n timeout v)) (r : @app (ControlApp n timeout v)),
              authority_replicated r = true ∧ shard_count r = n;
            app_equiv := λ a b : @app (ControlApp n timeout v), intent a = intent b |}.
  - split; [by intros ?|by intros ? ?|intros ? ? ? ->; done].
  - intros s. cbn. unfold configured. by case_decide.
  - intros s s' a b p [Ha Hna] [Hb Hnb] Hab. cbn [app_apply ControlApp].
    destruct (control_apply_intent a p Hna) as (Ea & Ca & Aa).
    destruct (control_apply_intent b p Hnb) as (Eb & Cb & Ab).
    exists (control_apply a p).1, (control_apply b p).1, (control_apply a p).2.
    split_and!; [by destruct (control_apply a p)| |congruence..].
    assert ((control_apply a p).2 = (control_apply b p).2) as ->; [|by destruct (control_apply b p)].
    unfold control_apply. by destruct (command_decode p) as [[]|].
  - intros s s' a b [Ha Hna] [Hb Hnb]. cbn [app_restore app_snapshot_bytes ControlApp].
    eexists _, _. split; [by rewrite <- surjective_pairing|]. split; [done|].
    apply control_restore_intent.
  - intros s a b [Ha Hna] (HO & op & Hop & ->).
    destruct (view_op_intent a op Hop Ha) as (E & Hc & Hau). by rewrite E, Hc, Hau, Hna.
Defined.

(** Committed commands in a row. *)
Lemma apply_all_intent r ps :
  shard_count r = n →
  intent (apply_all r ps) = foldl (intent_effect n) (intent r) ps ∧
  shard_count (apply_all r ps) = n.
Proof.
  unfold apply_all. revert r. induction ps as [|p ps IH]; intros r Hn; [done|]. cbn [foldl].
  destruct (control_apply_intent r p Hn) as (<- & Hc & _). by apply IH.
Qed.

Lemma intent_effect_length i p : length (intent_effect n i p).1 = length i.1.
Proof.
  unfold intent_effect. destruct (command_decode p) as [[vs g|node]|]; [|done..].
  case_decide; [|done]. apply length_insert.
Qed.

Lemma intent_effects_length i ps : length (foldl (intent_effect n) i ps).1 = length i.1.
Proof.
  revert i. induction ps as [|p ps IH]; intros i; [done|]. cbn [foldl].
  by rewrite IH, intent_effect_length.
Qed.
End laws.

(** ** Properties *)

Section properties.
Context {RT : RaftTypes} {HD : HashOrder} {CC : ControlCodec}.

(** C13: operator intent survives any coordinator whose snapshot builds no apply overtakes
    ([replica]). Two coordinators that have applied the same log position route by the same
    virtual-shard table and drain the same nodes, whatever registrations, heartbeats,
    leader reports, reaping and promotions each saw on its own, and whatever such snapshots
    and restarts they went through: the initial table with the log's commands applied in
    order, out-of-range reassignments ignored. *)
Theorem control_replicas_converge {FC : SnapshotCodec} (n timeout : Z) (v : nat) (L : list Entry)
    (Hids : NoDup (en_log_id <$> L)) (sm sm' : @StateMachineStore RT (ControlApp n timeout v))
    (k : nat) (H : @replica RT (ControlApp n timeout v) HD FC L () sm)
    (H' : @replica RT (ControlApp n timeout v) HD FC L () sm')
    (Hk : sm_last_applied sm = lid_at L k) (Hk' : sm_last_applied sm' = lid_at L k) :
  intent (sm_app sm) =
    log_effect (intent_effect n) (intent (configured n timeout v true)) (take k L) ∧
  intent (sm_app sm') = intent (sm_app sm).
Proof.
  pose proof (λ sm1, @replica_abstract RT _ (control_app_laws n timeout v) HD FC () L Hids _
    (intent : @app (ControlApp n timeout v) → _) (intent_effect n) () sm1 k (λ a b H, H)) as Habs.
  assert (∀ (a : @app (ControlApp n timeout v)) p, authority_replicated a = true ∧ shard_count a = n →
    ∃ a' r, @app_apply (ControlApp n timeout v) () a p = Some (a', r) ∧
      (authority_replicated a' = true ∧ shard_count a' = n) ∧
      intent a' = intent_effect n (intent a) p) as Heff.
  { intros a p [Ha Hn]. destruct (control_apply_intent n a p Hn) as (E & Hc & Hau).
    exists (control_apply a p).1, (control_apply a p).2.
    split; [cbn; by destruct (control_apply a p)|]. split; [by rewrite Hc, Hau|exact E]. }
  rewrite (Habs sm Heff H Hk), (Habs sm' Heff H' Hk'). done.
Qed.

End properties.

(** ** Witnesses and examples *)

#[local] Existing Instances plain_raft plain_codec canonical_order ascii_only.

Abbreviation command_tuple := ((Z * Z) + string)%type.

Definition command_to_sum (c : Command) : command_tuple :=
  match c with ReassignVShard v g => inl (v, g) | DrainNode node => inr node end.

(** Numbers outside [u32] do not decode. *)
Definition sum_to_command (t : command_tuple) : option Command :=
  match t with
  | inl (v, g) =>
      if decide (0 ≤ v < 2 ^ 32 ∧ 0 ≤ g < 2 ^ 32) then Some (ReassignVShard v g) else None
  | inr node => Some (DrainNode node)
  end.

Definition decode_command (b : bytes) : option Command :=
  match one_decode b with Some t => sum_to_command t | None => None end.

Lemma decode_reassign v g :
  0 ≤ v < 2 ^ 32 → 0 ≤ g < 2 ^ 32 →
  decode_command (one_code (command_to_sum (ReassignVShard v g))) = Some (ReassignVShard v g).
Proof. intros. unfold decode_command. rewrite one_decode_code. cbn. by rewrite decide_True. Qed.

Lemma decode_drain node :
  decode_command (one_code (command_to_sum (DrainNode node))) = Some (DrainNode node).
Proof. unfold decode_command. by rewrite one_decode_code. Qed.

Lemma decode_command_u32 b v g :
  decode_command b = Some (ReassignVShard v g) → 0 ≤ v < 2 ^ 32 ∧ 0 ≤ g < 2 ^ 32.
Proof.
  unfold decode_command. destruct (one_decode b) as [[[v' g']|node]|]; [|done|done].
  cbn. case_decide; [|done]. by intros [= <- <-].
Qed.

Definition plain_control : ControlCodec :=
  {| command_encode := λ c, one_code (command_to_sum c); command_decode := decode_command;
     command_roundtrip := decode_reassign; drain_roundtrip := decode_drain;
     command_u32 := decode_command_u32;
     authority_encode := λ a : Authority, one_code a;
     authority_decode := λ b, (one_decode b : option Authority);
     authority_roundtrip := λ a, one_decode_code a |}.

#[local] Existing Instance plain_control.

(** The log that moves virtual shard 2 to group 1. *)
Definition move_entry : Entry :=
  {| en_log_id := {| lid_leader := 1 : leader_id; lid_index := 1 |};
     en_payload := Normal (command_encode (ReassignVShard 2 1)) |}.

Lemma control_replicas_converge_witness :
  ∃ sm : @StateMachineStore plain_raft (ControlApp 2 15000 4), vshards (sm_app sm) = [0; 1; 1; 1].
Proof.
  assert (NoDup (en_log_id <$> [move_entry])) as Hids by apply NoDup_singleton.
  set (sm0 := sm_new (configured 2 15000 4 true : @app (ControlApp 2 15000 4))).
  assert (@replica plain_raft (ControlApp 2 15000 4) canonical_order plain_codec [move_entry] () sm0)
    as H0 by exact (@replica_new plain_raft (ControlApp 2 15000 4) canonical_order plain_codec [move_entry] ()).
  destruct (@apply_ok plain_raft (ControlApp 2 15000 4) (control_app_laws 2 15000 4) plain_codec ()
    [move_entry] Hids () sm0 0 1) as (sm & rs & E & _ & Hl).
  { exact (@sm_new_ok plain_raft (ControlApp 2 15000 4) (control_app_laws 2 15000 4) plain_codec ()
      [move_entry] ()). }
  { reflexivity. }
  assert (@replica plain_raft (ControlApp 2 15000 4) canonical_order plain_codec [move_entry] () sm)
    as H1 by exact (@replica_apply plain_raft (ControlApp 2 15000 4) canonical_order plain_codec
      [move_entry] () sm0 0 1 sm rs H0 eq_refl E).
  destruct (control_replicas_converge 2 15000 4 [move_entry] Hids sm sm 1 H1 H1 Hl Hl) as [H _].
  exists sm. refine (eq_trans (f_equal fst H) _). vm_compute. reflexivity.
Defined.

(** The placement version is not part of what replicates: a coordinator restored from a
    snapshot stamps another version on the same table. *)
Example version_not_replicated :
  let r := configured 2 15000 4 true in
  let a := apply_all r [command_encode (ReassignVShard 2 1); command_encode (ReassignVShard 3 0)] in
  let b := (control_restore r (control_snapshot_bytes a)).1 in
  vshards a = vshards b ∧ placement_version a = 2 ∧ placement_version b = 1.
Proof. split_and!; vm_compute; reflexivity. Qed.

Example control_from_env_ex :
  control_from_env (Some "2") (Some "1=a:50050, 2 = b:50050 ,") =
    Ok (Some (2, <[1 := "a:50050"%string]> {[2 := "b:50050"%string]})) ∧
  control_from_env (Some "3") (Some "1=a:50050") = Err (NotAPeer 3) ∧
  control_from_env (Some "1") None = Ok None.
Proof. split_and!; vm_compute; reflexivity. Qed.
