(* ===== verification/Service.v ===== *)
(** * The coordinator's gRPC service: [crates/coordinator/src/service.rs]

    Every handler, from the caller's credentials to the reply and the service after it.
    What the network does is an input: what each leader's call came to and in which order
    the calls completed, the control group's answer to a write, the answer of a control
    leader a call is forwarded to, and the clock. *)

From S2P Require Export Server Hybrid Auth Metrics Control.

(** ** The service *)

(** [co_control] is this replica's id in the state group, if there is one; a poisoned
    registry lock is a state of the service. *)
Record CoordinatorService := {
  co_registry : Registry;
  co_poisoned : bool;
  co_control : option Z;
  co_auth : Auth;
  co_metrics : Metrics;
}.

Definition co_new (r : Registry) : CoordinatorService :=
  {| co_registry := r; co_poisoned := false; co_control := None; co_auth := auth_default;
     co_metrics := metrics_default |}.

Definition with_control (r : Registry) (my_id : Z) : CoordinatorService :=
  {| co_registry := r; co_poisoned := false; co_control := Some my_id; co_auth := auth_default;
     co_metrics := metrics_default |}.

Definition with_auth (co : CoordinatorService) (a : Auth) : CoordinatorService :=
  {| co_registry := co_registry co; co_poisoned := co_poisoned co; co_control := co_control co;
     co_auth := a; co_metrics := co_metrics co |}.

Definition with_metrics (co : CoordinatorService) (m : Metrics) : CoordinatorService :=
  {| co_registry := co_registry co; co_poisoned := co_poisoned co; co_control := co_control co;
     co_auth := co_auth co; co_metrics := m |}.

Definition with_registry (co : CoordinatorService) (r : Registry) : CoordinatorService :=
  {| co_registry := r; co_poisoned := co_poisoned co; co_control := co_control co;
     co_auth := co_auth co; co_metrics := co_metrics co |}.

(** [self.registry.read()] and [write()]. *)
Definition lock (co : CoordinatorService) : result Registry Status :=
  if co_poisoned co then Err (status Internal "registry lock poisoned") else Ok (co_registry co).

(** What a query's fan-out meets: the calls, the order in which they complete (a
    permutation of the leaders), and the clock. *)
Record Net := {
  net_search : string → SearchRequest → Attempt SearchResponse;
  net_vector : string → VectorSearchRequest → Attempt SearchResponse;
  net_aggregate : string → AggregateRequest → Attempt (option AggregatePartial);
  net_order : list string → list string;
  net_vector_order : list string → list string;
  net_fanout_ms : Z;
  net_total_ms : Z;
}.

(** A forwarded call: the control leader's answer, unless it cannot be reached. *)
Inductive Forwarded (A : Type) :=
| LeaderUnreachable (e : string)
| LeaderAnswered (r : result A Status).
Arguments LeaderUnreachable {A} e.
Arguments LeaderAnswered {A} r.

Section service.
Context {HO : HashOrder} {UC : Unicode} {FL : FloatLib} {CC : ControlCodec}.

(** ** Node-facing calls *)

Definition register_node (co : CoordinatorService) (req : RegisterNodeRequest) (now : Z)
    : CoordinatorService * result RegisterNodeResponse Status :=
  match lock co with
  | Err e => (co, Err e)
  | Ok r => let '(r, resp) := register_at r req now in (with_registry co r, Ok resp)
  end.

Definition co_heartbeat (co : CoordinatorService) (req : HeartbeatRequest) (now : Z)
    : CoordinatorService * result HeartbeatResponse Status :=
  match lock co with
  | Err e => (co, Err e)
  | Ok r =>
      let '(r, role) := heartbeat r (hb_node_id req) now in
      let '(r, role) :=
        if hb_raft_leader req && is_some role
        then ((report_raft_leader r (hb_node_id req) now).1, Some Leader)
        else (r, role) in
      (with_registry co r,
       Ok {| hr_known := is_some role;
             hr_current_role := role_to_i32 (default RoleUnspecified role) |})
  end.

Definition list_replicas (co : CoordinatorService) (shard_id : Z) : result (list string) Status :=
  r <-? lock co;; Ok (follower_addresses r shard_id).

Definition node_state (n : NodeSnapshot) : NodeState :=
  {| ns_node_id := sn_node_id n; ns_address := sn_address n; ns_role := role_to_i32 (sn_role n);
     ns_shard_id := sn_shard_id n; ns_millis_since_seen := wrap_u64 (sn_since_seen n);
     ns_draining := sn_draining n |}.

Definition list_shard_members (co : CoordinatorService) (shard_id now : Z)
    : result (list NodeState) Status :=
  r <-? lock co;; Ok (node_state <$> members_of r shard_id now).

Definition get_v_shard_assignments (co : CoordinatorService) : result (list Z) Status :=
  r <-? lock co;; Ok (vshard_assignments r).

(** ** Queries *)

(** The checks every query starts with; [search_stream] passes no filter to check. *)
Definition vet (co : CoordinatorService) (header : option string) (filter : option Wire.Filter)
    : result Registry Status :=
  _ <-? require (co_auth co) header Read;; _ <-? check_filter filter;; lock co.

Definition search (co : CoordinatorService) (header : option string) (req : SearchRequest)
    (net : Net) : CoordinatorService * result SearchResponse Status :=
  match vet co header (sr_filter req) with
  | Err e => (co, Err e)
  | Ok r =>
      let leaders := leader_addresses r in
      let fanout := scatter_gather (net_search net) (net_order net leaders) req in
      let merged := merge_search_responses fanout (Z.to_nat (sr_limit req)) (len_u32 leaders)
                      (placement_version r) (wrap_u64 (net_fanout_ms net)) in
      (with_metrics co (record_query (co_metrics co) (net_total_ms net) true), Ok merged)
  end.

Definition vector_search (co : CoordinatorService) (header : option string)
    (req : VectorSearchRequest) (net : Net) : result SearchResponse Status :=
  r <-? vet co header (vr_filter req);;
  let leaders := leader_addresses r in
  let fanout := scatter_gather_vector (net_vector net) (net_order net leaders) req in
  Ok (merge_search_responses fanout (Z.to_nat (vr_limit req)) (len_u32 leaders)
        (placement_version r) (wrap_u64 (net_fanout_ms net))).

(** [None] is a panic inside the digest merge. *)
Definition aggregate (co : CoordinatorService) (header : option string) (req : AggregateRequest)
    (net : Net) : option (CoordinatorService * result AggregateResponse Status) :=
  match vet co header (ar_filter req) with
  | Err e => Some (co, Err e)
  | Ok r =>
      let leaders := leader_addresses r in
      let '(partials, omitted) :=
        scatter_aggregate (net_aggregate net) (net_order net leaders) req in
      '(merged, percentiles) ←
        merge_partials (agg_kind_of_i32 (ar_kind req)) partials (ar_percentiles req);
      let manifest := build_manifest [] (len_u32 leaders) (len_u32 partials) omitted 0
                        (placement_version r) (wrap_u64 (net_fanout_ms net)) in
      Some (with_metrics co (record_aggregate (co_metrics co) true),
            Ok {| ag_partial := Some merged; ag_percentiles := percentiles;
                  ag_manifest := Some manifest |})
  end.

(** The shards that answered both modalities: those asked less the distinct addresses
    among the omissions, saturating. *)
Definition answered_both (queried : Z) (omitted : list OmittedShard) : Z :=
  Z.max 0 (queried - wrap_u32 (Z.of_nat (size (list_to_set (os_address <$> omitted) : gset string)))).

Definition hybrid_search (co : CoordinatorService) (header : option string) (req : SearchRequest)
    (net : Net) : result SearchResponse Status :=
  r <-? vet co header (sr_filter req);;
  let leaders := leader_addresses r in
  let queried := len_u32 leaders in
  let vreq := {| vr_vector := hash_embed (sr_query req); vr_limit := sr_limit req;
                 vr_filter := sr_filter req |} in
  let kw := scatter_gather (net_search net) (net_order net leaders) req in
  let vec := scatter_gather_vector (net_vector net) (net_vector_order net leaders) vreq in
  let omitted := fo_omitted kw ++ fo_omitted vec in
  let kw_merged := merge_search_responses kw 0 queried (placement_version r) 0 in
  let vec_merged := merge_search_responses vec 0 queried (placement_version r) 0 in
  let fused := rrf_fuse (sp_hits kw_merged) (sp_hits vec_merged) (Z.to_nat (sr_limit req)) in
  let answered := answered_both queried omitted in
  Ok {| sp_hits := fused; sp_total_matched := len_u64 fused; sp_shard_id := "coordinator";
        sp_shards_queried := queried; sp_shards_answered := answered;
        sp_manifest := Some (build_manifest fused queried answered omitted 0
                               (placement_version r) (wrap_u64 (net_fanout_ms net))) |}.

(** The task behind a stream: the updates it emits as the calls complete. *)
Fixpoint stream_updates (m : ProgressiveMerge) (joined : list (option (result SearchResponse OmittedShard)))
    (finished : Z) : list SearchUpdate :=
  match joined with
  | [] => [pm_snapshot m true finished]
  | Some (Ok resp) :: rest =>
      let m := pm_add m resp in pm_snapshot m false finished :: stream_updates m rest finished
  | Some (Err o) :: rest => stream_updates (pm_omit m o) rest finished
  | None :: rest => stream_updates m rest finished
  end.

(** [hung_up] is how many updates the client takes before it closes the stream, if it
    does: the first send after that ends the task. *)
Definition search_stream (co : CoordinatorService) (header : option string) (req : SearchRequest)
    (net : Net) (started finished : Z) (hung_up : option nat) : result (list SearchUpdate) Status :=
  r <-? vet co header None;;
  let leaders := leader_addresses r in
  let merge := pm_new (len_u32 leaders) (Z.to_nat (sr_limit req)) (placement_version r) started in
  let joined := (λ addr, query_leader addr (net_search net addr req)) <$> net_order net leaders in
  let updates := stream_updates merge joined finished in
  Ok (match hung_up with Some k => take k updates | None => updates end).

Definition get_cluster_state (co : CoordinatorService) (header : option string) (now : Z)
    : result ClusterStateResponse Status :=
  _ <-? require (co_auth co) header Read;;
  r <-? lock co;;
  Ok {| cs_shard_count := shard_count r; cs_nodes := node_state <$> snapshot r now;
        cs_vshard_group := vshard_assignments r |}.

(** ** Operator calls *)

Definition forwarded {A} (addr : string) (f : Forwarded A) : result A Status :=
  match f with
  | LeaderUnreachable e =>
      Err (status Unavailable ("control leader at " +:+ addr +:+ " unreachable: " +:+ e))
  | LeaderAnswered r => r
  end.

Definition drain_ok (node_id : string) : DrainResponse :=
  {| dp_ok := true;
     dp_message := "'" +:+ node_id +:+ "' marked draining; its group leader will remove it" |}.
Definition drain_unknown (node_id : string) : DrainResponse :=
  {| dp_ok := false; dp_message := "unknown node '" +:+ node_id +:+ "'" |}.

(** [remote addr bearer req] is what forwarding the call to the leader gives. *)
Definition drain_node (co : CoordinatorService) (header : option string) (req : DrainRequest)
    (outcome : WriteOutcome) (remote : string → option string → DrainRequest → Forwarded DrainResponse)
    : CoordinatorService * result DrainResponse Status :=
  let node_id := dr_node_id req in
  match (_ <-? require (co_auth co) header Operator;; lock co) with
  | Err e => (co, Err e)
  | Ok r =>
      match co_control co with
      | Some my_id =>
          if negb (knows_node r node_id) then (co, Ok (drain_unknown node_id))
          else
            let '(r, proposed) := propose my_id r (DrainNode node_id) outcome in
            (with_registry co r,
             match proposed with
             | Ok _ => Ok (drain_ok node_id)
             | Err (ToLeader addr) =>
                 forwarded addr (remote addr header {| dr_node_id := node_id |})
             | Err (Unavailable_ msg) => Err (status Unavailable msg)
             end)
      | None =>
          let '(r, ok) := mark_draining r node_id in
          (with_registry co r, Ok (if ok then drain_ok node_id else drain_unknown node_id))
      end
  end.

Definition reassign_ok (vshard group : Z) : ReassignVShardResponse :=
  {| rvp_ok := true; rvp_message := "vshard " +:+ show_Z vshard +:+ " -> group " +:+ show_Z group |}.
Definition reassign_refused (message : string) : ReassignVShardResponse :=
  {| rvp_ok := false; rvp_message := message |}.

Definition reassign_v_shard (co : CoordinatorService) (header : option string)
    (req : ReassignVShardRequest) (outcome : WriteOutcome)
    (remote : string → option string → ReassignVShardRequest → Forwarded ReassignVShardResponse)
    : CoordinatorService * result ReassignVShardResponse Status :=
  match (_ <-? require (co_auth co) header Operator;; lock co) with
  | Err e => (co, Err e)
  | Ok r =>
      match co_control co with
      | Some my_id =>
          match validate_reassign r (rv_vshard req) (rv_group req) with
          | Err message => (co, Ok (reassign_refused message))
          | Ok _ =>
              let '(r, proposed) :=
                propose my_id r (ReassignVShard (rv_vshard req) (rv_group req)) outcome in
              (with_registry co r,
               match proposed with
               | Ok _ => Ok (reassign_ok (rv_vshard req) (rv_group req))
               | Err (ToLeader addr) => forwarded addr (remote addr header req)
               | Err (Unavailable_ msg) => Err (status Unavailable msg)
               end)
          end
      | None =>
          let '(r, done_) := reassign_vshard r (rv_vshard req) (rv_group req) in
          (with_registry co r,
           Ok (match done_ with
               | Ok _ => reassign_ok (rv_vshard req) (rv_group req)
               | Err message => reassign_refused message
               end))
      end
  end.
End service.

(** ** Specification *)

(** Every call the service takes, with what its environment gives. *)
Inductive call :=
| CRegister (req : RegisterNodeRequest) (now : Z)
| CHeartbeat (req : HeartbeatRequest) (now : Z)
| CListReplicas (shard_id : Z)
| CListMembers (shard_id now : Z)
| CAssignments
| CSearch (header : option string) (req : SearchRequest) (net : Net)
| CVectorSearch (header : option string) (req : VectorSearchRequest) (net : Net)
| CAggregate (header : option string) (req : AggregateRequest) (net : Net)
| CHybrid (header : option string) (req : SearchRequest) (net : Net)
| CStream (header : option string) (req : SearchRequest) (net : Net) (started finished : Z)
    (hung_up : option nat)
| CState (header : option string) (now : Z)
| CDrain (header : option string) (req : DrainRequest) (outcome : WriteOutcome)
    (remote : string → option string → DrainRequest → Forwarded DrainResponse)
| CReassign (header : option string) (req : ReassignVShardRequest) (outcome : WriteOutcome)
    (remote : string → option string → ReassignVShardRequest → Forwarded ReassignVShardResponse).

Definition refusal {A} (r : result A Status) : option Status :=
  match r with Ok _ => None | Err e => Some e end.

(** The credentials a call presents and the scope it needs; node-facing calls need none. *)
Definition credentials (c : call) : option (option string * Scope) :=
  match c with
  | CSearch h _ _ | CVectorSearch h _ _ | CAggregate h _ _ | CHybrid h _ _
  | CStream h _ _ _ _ _ | CState h _ => Some (h, Read)
  | CDrain h _ _ _ | CReassign h _ _ _ => Some (h, Operator)
  | _ => None
  end.

Section exec.
Context {HO : HashOrder} {UC : Unicode} {FL : FloatLib} {CC : ControlCodec}.

(** The service after a call and the error it answers with, if it does. *)
Definition exec (co : CoordinatorService) (c : call) : option (CoordinatorService * option Status) :=
  match c with
  | CRegister req now => let '(co, r) := register_node co req now in Some (co, refusal r)
  | CHeartbeat req now => let '(co, r) := co_heartbeat co req now in Some (co, refusal r)
  | CListReplicas s => Some (co, refusal (list_replicas co s))
  | CListMembers s now => Some (co, refusal (list_shard_members co s now))
  | CAssignments => Some (co, refusal (get_v_shard_assignments co))
  | CSearch h req net => let '(co, r) := search co h req net in Some (co, refusal r)
  | CVectorSearch h req net => Some (co, refusal (vector_search co h req net))
  | CAggregate h req net => '(co, r) ← aggregate co h req net; Some (co, refusal r)
  | CHybrid h req net => Some (co, refusal (hybrid_search co h req net))
  | CStream h req net t0 t1 k => Some (co, refusal (search_stream co h req net t0 t1 k))
  | CState h now => Some (co, refusal (get_cluster_state co h now))
  | CDrain h req w remote => let '(co, r) := drain_node co h req w remote in Some (co, refusal r)
  | CReassign h req w remote =>
      let '(co, r) := reassign_v_shard co h req w remote in Some (co, refusal r)
  end.

(** ** Lemmas *)

Lemma register_intent r req now : intent (register_at r req now).1 = intent r.
Proof. unfold register_at. by repeat case_match. Qed.

Lemma heartbeat_intent r i now : intent (heartbeat r i now).1 = intent r.
Proof. unfold heartbeat. by repeat case_match. Qed.

Lemma report_intent r i now : intent (report_raft_leader r i now).1 = intent r.
Proof. unfold report_raft_leader. by repeat case_match. Qed.

Lemma vet_refused co h f e : require (co_auth co) h Read = Err e → vet co h f = Err e.
Proof. intros H. unfold vet. by rewrite H. Qed.

Lemma vet_ok co h f r :
  vet co h f = Ok r ↔
  require (co_auth co) h Read = Ok () ∧ filter_ok f ∧ co_poisoned co = false ∧ r = co_registry co.
Proof.
  unfold vet, lock. rewrite <- check_filter_ok.
  destruct (require (co_auth co) h Read) as [[]|]; [|naive_solver].
  destruct (check_filter f) as [[]|]; [|naive_solver]. destruct (co_poisoned co); naive_solver.
Qed.

(** A stream ends with the snapshot of everything that was joined. *)
Definition pm_joined (m : ProgressiveMerge) (j : option (result SearchResponse OmittedShard))
    : ProgressiveMerge :=
  match j with Some (Ok r) => pm_add m r | Some (Err o) => pm_omit m o | None => m end.

Lemma stream_last m joined finished :
  last (stream_updates m joined finished) = Some (pm_snapshot (foldl pm_joined m joined) true finished).
Proof.
  revert m. induction joined as [|[[r|o]|] l IH]; intros m; cbn [stream_updates foldl pm_joined];
    [done| |apply IH..].
  rewrite last_cons, IH. done.
Qed.

Definition pm_with_omitted (m : ProgressiveMerge) (os : list OmittedShard) : ProgressiveMerge :=
  {| pm_limit := pm_limit m; pm_hits := pm_hits m; pm_total_matched := pm_total_matched m;
     pm_shards_answered := pm_shards_answered m; pm_shards_queried := pm_shards_queried m;
     pm_omitted := os; pm_deduped := pm_deduped m;
     pm_placement_version := pm_placement_version m; pm_started := pm_started m |}.

(** Answers and omissions commute. *)
Lemma pm_joined_split m joined :
  foldl pm_joined m joined =
  pm_with_omitted (foldl pm_add m (joined_responses joined)) (pm_omitted m ++ joined_omitted joined).
Proof.
  assert (∀ m os r, pm_add (pm_with_omitted m os) r = pm_with_omitted (pm_add m r) os) as Hadd by done.
  assert (∀ rs m os, foldl pm_add (pm_with_omitted m os) rs = pm_with_omitted (foldl pm_add m rs) os) as Hadds.
  { induction rs as [|r rs IH]; intros m' os; [done|]. cbn [foldl]. by rewrite Hadd, IH. }
  revert m. induction joined as [|j l IH]; intros m; cbn [foldl].
  { cbn. rewrite app_nil_r. by destruct m. }
  rewrite IH. unfold joined_responses, joined_omitted. cbn [omap list_omap].
  destruct j as [[r|o]|]; cbn [pm_joined]; [done| |done].
  change (pm_omit m o) with (pm_with_omitted m (pm_omitted m ++ [o])).
  rewrite Hadds. cbn [pm_with_omitted pm_omitted]. by rewrite <- app_assoc.
Qed.

Lemma stream_incomplete m joined finished k u :
  stream_updates m joined finished !! k = Some u →
  (S k < length (stream_updates m joined finished))%nat → su_complete u = false.
Proof.
  revert m k. induction joined as [|[[r|o]|] l IH]; intros m k; cbn [stream_updates].
  - intros _ H. cbn in H. lia.
  - destruct k as [|k]; [by intros [= <-]|]. cbn. intros Hk Hl. eapply IH; [exact Hk|lia].
  - apply IH.
  - apply IH.
Qed.

Lemma stream_length m joined finished :
  length (stream_updates m joined finished) = S (length (joined_responses joined)).
Proof.
  revert m. induction joined as [|[[r|o]|] l IH]; intros m; cbn [stream_updates length]; [done| |apply IH..].
  rewrite IH. done.
Qed.
(** *** Calls, by the credentials they need *)

Lemma exec_refused co c h needed e :
  credentials c = Some (h, needed) → require (co_auth co) h needed = Err e →
  exec co c = Some (co, Some e).
Proof.
  intros Hc He. destruct c; cbn [credentials] in Hc; simplify_eq; cbn [exec];
    unfold search, vector_search, aggregate, hybrid_search, search_stream, get_cluster_state,
      drain_node, reassign_v_shard;
    by rewrite ?(vet_refused _ _ _ _ He), ?He.
Qed.

Definition same_setup (co co' : CoordinatorService) : Prop :=
  co_auth co' = co_auth co ∧ co_control co' = co_control co ∧ co_poisoned co' = co_poisoned co.

Lemma exec_setup co c co' st : exec co c = Some (co', st) → same_setup co co'.
Proof.
  intros H. destruct c; cbn [exec] in H;
    try (injection H as <- <-; done).
  - unfold register_node in H. destruct (lock co); [|by simplify_eq].
    destruct (register_at _ _ _). by simplify_eq.
  - unfold co_heartbeat in H. destruct (lock co); [|by simplify_eq].
    destruct (heartbeat _ _ _). destruct (_ && _); by simplify_eq.
  - unfold search in H. destruct (vet _ _ _); by simplify_eq.
  - unfold aggregate in H. destruct (vet _ _ _); [|by simplify_eq/=].
    destruct (scatter_aggregate _ _ _). destruct (merge_partials _ _ _) as [[]|]; by simplify_eq/=.
  - unfold drain_node in H. destruct (require _ _ _), (lock co); try by simplify_eq.
    repeat case_match; by simplify_eq.
  - unfold reassign_v_shard in H. destruct (require _ _ _), (lock co); try by simplify_eq.
    repeat case_match; by simplify_eq.
Qed.

Lemma exec_query co c co' st h :
  credentials c = Some (h, Read) → exec co c = Some (co', st) → co_registry co' = co_registry co.
Proof.
  intros Hc H. destruct c; cbn [credentials] in Hc; simplify_eq; cbn [exec] in H;
    try (injection H as <- <-; done).
  - unfold search in H. destruct (vet _ _ _); by simplify_eq.
  - unfold aggregate in H. destruct (vet _ _ _); [|by simplify_eq/=].
    destruct (scatter_aggregate _ _ _). destruct (merge_partials _ _ _) as [[]|]; by simplify_eq/=.
Qed.

Lemma exec_node co c co' st :
  credentials c = None → exec co c = Some (co', st) →
  intent (co_registry co') = intent (co_registry co).
Proof.
  intros Hc H. destruct c; cbn [credentials] in Hc; simplify_eq; cbn [exec] in H;
    try (injection H as <- <-; done).
  - unfold register_node, lock in H. destruct (co_poisoned co); [by simplify_eq/=|].
    pose proof (register_intent (co_registry co) req now) as Hr.
    destruct (register_at _ _ _). injection H as <- <-. exact Hr.
  - unfold co_heartbeat, lock in H. destruct (co_poisoned co); [by simplify_eq/=|].
    pose proof (heartbeat_intent (co_registry co) (hb_node_id req) now) as Hr.
    destruct (heartbeat _ _ _) as [r role].
    pose proof (report_intent r (hb_node_id req) now) as Hr2.
    destruct (_ && _); injection H as <- <-; [exact (eq_trans Hr2 Hr)|exact Hr].
Qed.

End exec.

(** ** Properties *)

Section properties.
Context {HO : HashOrder} {UC : Unicode} {FL : FloatLib} {CC : ControlCodec}.

(** C10: access control. A client call whose credentials are refused is answered with that
    refusal and changes nothing, whatever the network would do; queries and state reads
    never touch the registry; and operator intent (the virtual-shard table and the drain
    set) only ever changes in a call that passed the check for the operator scope. *)
Theorem access_control (co co' : CoordinatorService) (c : call) (st : option Status)
    (H : exec co c = Some (co', st)) :
  (∀ h needed e, credentials c = Some (h, needed) → require (co_auth co) h needed = Err e →
     co' = co ∧ st = Some e) ∧
  (∀ h, credentials c = Some (h, Read) → co_registry co' = co_registry co) ∧
  (intent (co_registry co') ≠ intent (co_registry co) →
     ∃ h, credentials c = Some (h, Operator) ∧ require (co_auth co) h Operator = Ok ()) ∧
  co_auth co' = co_auth co ∧ co_control co' = co_control co.
Proof.
  destruct (exec_setup _ _ _ _ H) as (Ha & Hc & _). split_and!; [| | |done|done].
  - intros h needed e Hcr He. rewrite (exec_refused _ _ _ _ _ Hcr He) in H. by simplify_eq.
  - intros h Hcr. by eapply exec_query.
  - intros Hne. destruct (credentials c) as [[h []]|] eqn:Hcr.
    + exfalso. apply Hne. by rewrite (exec_query _ _ _ _ _ Hcr H).
    + exists h. split; [done|]. destruct (require (co_auth co) h Operator) as [[]|e] eqn:He; [done|].
      exfalso. apply Hne. rewrite (exec_refused _ _ _ _ _ Hcr He) in H. by simplify_eq.
    + exfalso. apply Hne. by eapply exec_node.
Qed.

(** C12: operator intent goes through the group or nowhere. On a replica of a state group a
    permitted reassignment that does not validate, and a drain of an unknown node, are
    refused without a write, whatever the group would do. A valid one that the group
    commits is answered [ok], and this replica then has the assignment (or the drain
    marker) on top of everything committed before it. If another replica leads, the call
    is forwarded once, with the caller's credentials, and its answer is the reply; in
    every other case the reply is [Unavailable] and nothing changed. *)
Theorem intent_through_group (co : CoordinatorService) (my_id : Z) (h : option string)
    (vshard group : Z) (node : string) (w : WriteOutcome)
    (fwd_r : string → option string → ReassignVShardRequest → Forwarded ReassignVShardResponse)
    (fwd_d : string → option string → DrainRequest → Forwarded DrainResponse)
    (Hc : co_control co = Some my_id) (Hh : require (co_auth co) h Operator = Ok ())
    (Hp : co_poisoned co = false) (Hv : 0 ≤ vshard < 2 ^ 32) (Hg : 0 ≤ group < 2 ^ 32) :
  let r := co_registry co in
  let req := {| rv_vshard := vshard; rv_group := group |} in
  let moved := reassign_v_shard co h req w fwd_r in
  let drained := drain_node co h {| dr_node_id := node |} w fwd_d in
  (∀ m, validate_reassign r vshard group = Err m → moved = (co, Ok (reassign_refused m))) ∧
  (knows_node r node = false → drained = (co, Ok (drain_unknown node))) ∧
  (validate_reassign r vshard group = Ok () → knows_node r node = true →
   match w with
   | Committed before =>
       moved.2 = Ok (reassign_ok vshard group) ∧
       vshards (co_registry moved.1) !! Z.to_nat vshard = Some group ∧
       intent (co_registry moved.1) =
         intent_effect (shard_count r) (foldl (intent_effect (shard_count r)) (intent r) before)
           (command_encode (ReassignVShard vshard group)) ∧
       drained.2 = Ok (drain_ok node) ∧ node ∈ draining (co_registry drained.1)
   | ForwardToLeader leader (Some addr) _ =>
       moved.1 = co ∧ drained.1 = co ∧
       (leader ≠ Some my_id → moved.2 = forwarded addr (fwd_r addr h req) ∧
          drained.2 = forwarded addr (fwd_d addr h {| dr_node_id := node |})) ∧
       (leader = Some my_id → ∃ e e', moved.2 = Err e ∧ drained.2 = Err e' ∧
          st_code e = Unavailable ∧ st_code e' = Unavailable)
   | _ => moved.1 = co ∧ drained.1 = co ∧ ∃ e e', moved.2 = Err e ∧ drained.2 = Err e' ∧
            st_code e = Unavailable ∧ st_code e' = Unavailable
   end).
Proof.
  intros r req moved drained. unfold moved, drained, reassign_v_shard, drain_node, lock.
  rewrite Hh, Hc, Hp. fold r. cbn [rv_vshard rv_group dr_node_id req].
  split_and!; [by intros m ->|by intros ->|]. intros Hval Hk. rewrite Hval, Hk. cbn [negb].
  assert (with_registry co r = co) as Hco by by destruct co.
  destruct w as [before|leader [addr|] e|e]; cbn [propose fst snd];
    try (rewrite Hco; split_and!; try done; by eexists _, _).
  - cbn [co_registry with_registry].
    destruct (apply_all_intent (shard_count r) r (before ++ [command_encode (ReassignVShard vshard group)])
      eq_refl) as [Er _].
    destruct (apply_all_intent (shard_count r) r (before ++ [command_encode (DrainNode node)]) eq_refl) as [Ed _].
    rewrite foldl_app in Er, Ed. cbn [foldl] in Er, Ed.
    set (i := foldl (intent_effect (shard_count r)) (intent r) before) in *.
    assert (length i.1 = length (vshards r)) as Hl by apply intent_effects_length.
    assert (vshard < Z.of_nat (length i.1) ∧ group < shard_count r) as Hin.
    { rewrite Hl. revert Hval. unfold validate_reassign. case_bool_decide; [done|].
      destruct (Z.leb_spec (Z.of_nat (length (vshards r))) vshard); [done|].
      destruct (Z.leb_spec (shard_count r) group); [done|]. done. }
    split_and!; [done| |exact Er|done|].
    + change (vshards ?x) with (intent x).1. rewrite Er. unfold intent_effect.
      rewrite command_roundtrip, decide_True by (done || lia). cbn [fst].
      apply list_lookup_insert_eq. lia.
    + change (draining ?x) with (intent x).2. rewrite Ed. unfold intent_effect.
      rewrite drain_roundtrip. cbn [snd]. set_solver.
  - rewrite Hco. split_and!; [done|done|..].
    + intros Hne. by rewrite bool_decide_false.
    + intros ->. rewrite bool_decide_true by done. by eexists _, _.
Qed.

(** C14: streaming and one-shot search agree. When shards hold disjoint aircraft, the last
    update of a stream is complete and has the hits, total and coverage of the reply that
    a one-shot search gets from the same answers, in whatever orders the calls of the two
    complete; one update precedes it for every shard that answered, none of them marked
    complete. *)
Theorem stream_matches_search (co : CoordinatorService) (h : option string) (req : SearchRequest)
    (net net' : Net) (started finished : Z)
    (Hh : require (co_auth co) h Read = Ok ()) (Hf : filter_ok (sr_filter req))
    (Hp : co_poisoned co = false) (Hsame : net_search net' = net_search net)
    (Hord : ∀ l, net_order net l ≡ₚ l) (Hord' : ∀ l, net_order net' l ≡ₚ l) :
  let answers := joined_responses ((λ a, query_leader a (net_search net a req))
                   <$> net_order net (leader_addresses (co_registry co))) in
  Forall scored (all_hits answers) → NoDup (icao24_of <$> all_hits answers) →
  ∃ updates final reply,
    search_stream co h req net started finished None = Ok (updates ++ [final]) ∧
    (search co h req net').2 = Ok reply ∧
    length updates = length answers ∧ Forall (λ u, su_complete u = false) updates ∧
    su_complete final = true ∧ su_hits final = sp_hits reply ∧
    su_total_matched final = sp_total_matched reply ∧
    su_shards_answered final = sp_shards_answered reply ∧
    su_shards_queried final = sp_shards_queried reply.
Proof.
  intros answers Hsc Hnd. unfold search_stream, search.
  rewrite (proj2 (vet_ok co h None _) (conj Hh (conj I (conj Hp eq_refl)))).
  rewrite (proj2 (vet_ok co h (sr_filter req) _) (conj Hh (conj Hf (conj Hp eq_refl)))).
  set (r := co_registry co) in *. set (leaders := leader_addresses r) in *.
  set (joined := (λ a, query_leader a (net_search net a req)) <$> net_order net leaders) in *.
  set (m0 := pm_new _ _ _ _). set (us := stream_updates m0 joined finished).
  pose proof (stream_last m0 joined finished) as Hlast. fold us in Hlast.
  pose proof (stream_length m0 joined finished) as Hlen. fold us answers in Hlen.
  apply last_Some in Hlast as [us' Hus]. rewrite Hus, length_app in Hlen. cbn [length] in Hlen.
  rewrite scatter_joined, Hsame.
  set (joined' := (λ a, query_leader a (net_search net a req)) <$> net_order net' leaders).
  assert (joined ≡ₚ joined') as Hperm by (unfold joined, joined'; by rewrite Hord, Hord').
  set (final := pm_snapshot (foldl pm_joined m0 joined) true finished) in *.
  eexists us', final, _. split; [by rewrite <- Hus|]. split; [done|]. split; [lia|].
  assert (answers ≡ₚ joined_responses joined') as Hans by (unfold answers, joined_responses; by rewrite Hperm).
  assert (all_hits answers ≡ₚ all_hits (joined_responses joined')) as Hall
    by (unfold all_hits; by rewrite Hans).
  split.
  { apply Forall_lookup. intros k u Hk. apply (stream_incomplete m0 joined finished k).
    - fold us. rewrite Hus. by apply lookup_app_l_Some.
    - fold us. rewrite Hus, length_app. apply lookup_lt_Some in Hk. cbn. lia. }
  unfold final. rewrite pm_joined_split. unfold pm_snapshot, pm_with_omitted.
  cbn [su_complete su_hits su_total_matched su_shards_answered su_shards_queried
       pm_hits pm_total_matched pm_shards_answered pm_shards_queried].
  fold answers. unfold m0. rewrite (pm_hits_spec HO) by done.
  match goal with |- context [foldl pm_add (pm_new ?q ?l ?v ?t) answers] =>
    destruct (pm_totals HO q l v t answers) as [-> ->] end.
  rewrite merge_distinct; cbn [fo_responses]; [|by rewrite <- Hall..].
  split_and!; [done| | | |].
  - f_equal. by apply sort_hits_ext.
  - unfold merge_search_responses. cbn [sp_total_matched fo_responses].
    rewrite wrap_total by done. do 2 f_equal. apply z_sum_perm. by rewrite Hans.
  - unfold merge_search_responses, len_u32. cbn [sp_shards_answered fo_responses]. by rewrite Hans.
  - unfold merge_search_responses. cbn [sp_shards_queried]. clear.
    induction answers as [|x l IH] using rev_ind; [done|]. by rewrite foldl_snoc.
Qed.

(** What the answering shards store that matches: the specification of a query. *)
Definition found {HN : Hnsw} (shards : string → ShardSearchService) (co : CoordinatorService)
    (req : SearchRequest) (net : Net) (d : FlightDocument) : Prop :=
  ∃ a, a ∈ leader_addresses (co_registry co) ∧
    (∃ resp, net_search net a req = Answered resp) ∧
    st_contents (sv_store (shards a)) !! fd_icao24 d = Some d ∧
    matches (tokenize (sr_query req)) d ∧ passes d (sr_filter req) = true.

(** An unlimited search over shards that answer from their own stores. *)
Lemma search_found {EM : Embedder} {HN : Hnsw} (bm25_params : f64 * f64)
    (order : string → HashOrder) (shards : string → ShardSearchService)
    (co : CoordinatorService) (h : option string) (req : SearchRequest) (net : Net)
    (Hh : require (co_auth co) h Read = Ok ()) (Hf : filter_ok (sr_filter req))
    (Hp : co_poisoned co = false) (Hlim : sr_limit req = 0)
    (Hord : ∀ l, net_order net l ≡ₚ l)
    (Hshards : ∀ a, a ∈ leader_addresses (co_registry co) →
       store_wf (HO := order a) (sv_store (shards a)) ∧ sv_poisoned (shards a) = false)
    (Hnet : ∀ a resp, a ∈ leader_addresses (co_registry co) → net_search net a req = Answered resp →
       sv_search (HO := order a) bm25_params (shards a) req = Some (Ok resp) ∧
       Forall scored (sp_hits resp)) :
  ∃ reply, (search co h req net).2 = Ok reply ∧ ranked cmp_hits (sp_hits reply) ∧
    NoDup (icao24_of <$> sp_hits reply) ∧
    (∀ hit, hit ∈ sp_hits reply → ∃ d, sh_document hit = Some d ∧ found shards co req net d ∧
       ∀ d', found shards co req net d' → fd_icao24 d' = fd_icao24 d →
         fd_observed_at d' ≤ fd_observed_at d) ∧
    (∀ d, found shards co req net d → fd_icao24 d ∈ icao24_of <$> sp_hits reply).
Proof.
  unfold search.
  rewrite (proj2 (vet_ok co h (sr_filter req) _) (conj Hh (conj Hf (conj Hp eq_refl)))).
  set (leaders := leader_addresses (co_registry co)) in *.
  rewrite scatter_joined, Hlim. set (answers := joined_responses _).
  assert (∀ resp, resp ∈ answers ↔ ∃ a, a ∈ leaders ∧ net_search net a req = Answered resp) as Hans.
  { intros resp. unfold answers. rewrite elem_of_joined_responses. by setoid_rewrite Hord. }
  assert (∀ d, found shards co req net d ↔ ∃ hit, hit ∈ all_hits answers ∧ sh_document hit = Some d) as Hfound.
  { intros d. unfold all_hits. setoid_rewrite list_elem_of_bind. split.
    - intros (a & Ha & (resp & E) & Hd). destruct (Hshards a Ha) as [Hwf Hps].
      rewrite (matches_order HO (order a)) in Hd.
      apply (sv_search_contents (HO := order a) bm25_params _ _ _ Hwf Hps Hf Hlim
        (proj1 (Hnet a resp Ha E))) in Hd as (hit & Hhit & Hdoc). exists hit. split; [|done]. exists resp. rewrite Hans. eauto.
    - intros (hit & (resp & Hhit & (a & Ha & E)%Hans) & Hdoc). destruct (Hshards a Ha) as [Hwf Hps].
      exists a. rewrite (matches_order HO (order a)). split_and!; [done|by exists resp|..];
        apply (sv_search_contents (HO := order a) bm25_params _ _ _ Hwf Hps Hf Hlim (proj1 (Hnet a resp Ha E))); eauto. }
  assert (Forall scored (all_hits answers)) as Hsc.
  { apply Forall_forall. intros hit (resp & Hhit & (a & Ha & E)%Hans)%list_elem_of_bind.
    destruct (Hnet a resp Ha E) as [_ Hall]. rewrite Forall_forall in Hall. auto. }
  assert (∀ hit, hit ∈ all_hits answers → ∃ d, sh_document hit = Some d) as Hdocs.
  { intros hit (resp & Hhit & (a & Ha & E)%Hans)%list_elem_of_bind.
    destruct (Hshards a Ha) as [Hwf Hps].
    exact (sv_search_documents (HO := order a) bm25_params _ _ _ _ Hwf Hps Hf (proj1 (Hnet a resp Ha E)) Hhit). }
  eexists. split; [done|]. set (f := {| fo_responses := answers; fo_omitted := _ |}).
  destruct (merge_full HO f (len_u32 leaders) (placement_version (co_registry co))
    (wrap_u64 (net_fanout_ms net)) Hsc) as (Hr & Hnd & Hin & Hall).
  split; [exact Hr|]. split; [exact Hnd|]. split.
  - intros hit (Hhit & Hbest)%Hin. destruct (Hdocs hit Hhit) as [d Hd]. exists d.
    split; [done|]. split; [apply Hfound; eauto|]. intros d' (hit' & Hhit' & Hd')%Hfound Hsame.
    specialize (Hbest hit' Hhit'). unfold icao24_of in Hbest. rewrite Hd, Hd' in Hbest.
    apply Hbest, not_supersedes_observed in Hsame. unfold observed_at_of in Hsame.
    by rewrite Hd, Hd' in Hsame.
  - intros d (hit & Hhit & Hd)%Hfound. apply Hall in Hhit. unfold icao24_of at 1 in Hhit.
    by rewrite Hd in Hhit.
Qed.

(** C11: a query finds what the cluster stores. Let every answer come from the leader's own
    store, with whatever hash order its process has. Then an unlimited search that is permitted and well typed replies with exactly
    the aircraft for which some answering shard stores a document that contains a query
    term and passes the filter, once each, ranked, and each with the freshest such
    document; shards that do not answer cost coverage, never correctness. *)
Theorem cluster_search {EM : Embedder} {HN : Hnsw} (bm25_params : f64 * f64)
    (order : string → HashOrder) (shards : string → ShardSearchService)
    (co : CoordinatorService) (h : option string) (req : SearchRequest) (net : Net)
    (Hh : require (co_auth co) h Read = Ok ()) (Hf : filter_ok (sr_filter req))
    (Hp : co_poisoned co = false) (Hlim : sr_limit req = 0)
    (Hord : ∀ l, net_order net l ≡ₚ l)
    (Hshards : ∀ a, a ∈ leader_addresses (co_registry co) →
       store_wf (HO := order a) (sv_store (shards a)) ∧ sv_poisoned (shards a) = false)
    (Hnet : ∀ a resp, a ∈ leader_addresses (co_registry co) → net_search net a req = Answered resp →
       sv_search (HO := order a) bm25_params (shards a) req = Some (Ok resp) ∧
       Forall scored (sp_hits resp)) :
  ∃ reply, (search co h req net).2 = Ok reply ∧ ranked cmp_hits (sp_hits reply) ∧
    NoDup (icao24_of <$> sp_hits reply) ∧
    (∀ hit, hit ∈ sp_hits reply → ∃ d, sh_document hit = Some d ∧ found shards co req net d ∧
       ∀ d', found shards co req net d' → fd_icao24 d' = fd_icao24 d →
         fd_observed_at d' ≤ fd_observed_at d) ∧
    (∀ d, found shards co req net d → fd_icao24 d ∈ icao24_of <$> sp_hits reply).
Proof. by eapply search_found. Qed.

End properties.

(** ** Clusters over another embedder *)

Section foreign.
Context {HO : HashOrder} {UC : Unicode} {FL : FloatLib} {CC : ControlCodec} {EM : Embedder}
  {HN : Hnsw} {US : UnstableSort}.

(** Every vector call that is answered is answered by the leader's own store; the others
    fail or time out. *)
Definition vectors_from (shards : string → ShardSearchService)
    (co : CoordinatorService) (net : Net) : Prop :=
  ∀ a req, a ∈ leader_addresses (co_registry co) →
    net_vector net a req = Unreachable ∨ net_vector net a req = TimedOut ∨
    ∃ resp, net_vector net a req = Answered resp ∧
      sv_vector_search (shards a) req = Some (Ok resp).

Lemma foreign_vector_refused (sv : ShardSearchService) req resp :
  length (vr_vector req) ≠ embed_dim → sv_vector_search sv req ≠ Some (Ok resp).
Proof.
  intros Hl. unfold sv_vector_search. destruct (_ <-? _;; _) as [store|e]; [|done].
  by rewrite bool_decide_true.
Qed.

(** A fan-out every call of which fails omits every shard asked and gets no answer. *)
Lemma all_refused {Req A} (rpc : string → Req → Attempt A) (asked : list string) req :
  (∀ a, a ∈ asked → rpc a req = Unreachable ∨ rpc a req = TimedOut) →
  fo_responses (scatter_gather rpc asked req) = [] ∧
  os_address <$> fo_omitted (scatter_gather rpc asked req) = asked.
Proof.
  intros H. rewrite scatter_joined. cbn [fo_responses fo_omitted].
  induction asked as [|a asked IH]; [done|].
  destruct IH as [IHr IHo]; [intros b Hb; apply H; by right|].
  unfold joined_responses, joined_omitted in *. cbn [fmap list_fmap omap list_omap].
  destruct (H a ltac:(left)) as [-> | ->]; cbn [query_leader]; split;
    [exact IHr|by rewrite fmap_cons, IHo|exact IHr|by rewrite fmap_cons, IHo].
Qed.

Lemma foreign_fanout shards co net asked req :
  vectors_from shards co net → length (vr_vector req) ≠ embed_dim →
  asked ≡ₚ leader_addresses (co_registry co) →
  fo_responses (scatter_gather_vector (net_vector net) asked req) = [] ∧
  os_address <$> fo_omitted (scatter_gather_vector (net_vector net) asked req) = asked.
Proof.
  intros Hnet Hl Hasked. apply all_refused. intros a Ha. rewrite Hasked in Ha.
  destruct (Hnet a req Ha) as [?|[?|(resp & _ & E)]]; [auto..|].
  by apply (foreign_vector_refused) in E.
Qed.

Lemma merge_none (f : Fanout SearchResponse) limit q pv ms :
  fo_responses f = [] →
  sp_hits (merge_search_responses f limit q pv ms) = [] ∧
  sp_shards_answered (merge_search_responses f limit q pv ms) = 0.
Proof.
  intros Hr. unfold merge_search_responses. rewrite Hr. cbn [sp_hits sp_shards_answered].
  split; [|done]. cbn [mbind list_bind].
  assert (sort_by cmp_hits (dedup_by_aircraft []) = []) as ->; [|by destruct limit].
  apply Permutation_nil_r. by rewrite sort_by_perm, (dedup_distinct HO []) by constructor.
Qed.

Lemma omitted_asked {Req A} (rpc : string → Req → Attempt A) asked req a :
  a ∈ os_address <$> fo_omitted (scatter_gather rpc asked req) → a ∈ asked.
Proof.
  rewrite scatter_joined. cbn [fo_omitted]. intros (o & -> & Ho)%list_elem_of_fmap.
  unfold joined_omitted in Ho. apply list_elem_of_omap in Ho as (j & Hj & E).
  apply list_elem_of_fmap in Hj as (b & -> & Hb). destruct (rpc b req); by simplify_eq/=.
Qed.

(** No shard answered both modalities when every shard asked is missing from one. *)
Lemma answered_none leaders (kw vec : list OmittedShard) :
  Z.of_nat (length leaders) < 2 ^ 32 → NoDup leaders →
  (∀ a, a ∈ os_address <$> kw → a ∈ leaders) → os_address <$> vec ≡ₚ leaders →
  answered_both (len_u32 leaders) (kw ++ vec) = 0.
Proof.
  intros Hlen Hnd Hkw Hvec. unfold answered_both, len_u32.
  assert (list_to_set (os_address <$> kw ++ vec) = (list_to_set leaders : gset string)) as ->.
  { rewrite fmap_app, list_to_set_app_L, Hvec. apply subseteq_union_1_L.
    intros a. rewrite !elem_of_list_to_set. apply Hkw. }
  rewrite size_list_to_set by done. lia.
Qed.

(** Query vectors are made by the hash embedder, whatever the shards embed with. Over
    shards whose embedder has another dimension no vector search is refused aloud: it
    replies without hits from no shard; and a hybrid search, whenever its filter is well
    typed, is the keyword search alone fused with nothing, and reports that no shard
    answered. *)
Theorem foreign_embedder_silent (shards : string → ShardSearchService)
    (co : CoordinatorService) (h : option string) (req : SearchRequest)
    (vreq : VectorSearchRequest) (net : Net)
    (Hdim : embed_dim ≠ EMBED_DIM)
    (Hh : require (co_auth co) h Read = Ok ()) (Hp : co_poisoned co = false)
    (Hf : filter_ok (sr_filter req)) (Hvf : filter_ok (vr_filter vreq))
    (Hv : length (vr_vector vreq) = EMBED_DIM)
    (Hleaders : Z.of_nat (length (leader_addresses (co_registry co))) < 2 ^ 32)
    (Hnd : NoDup (leader_addresses (co_registry co)))
    (Hord : ∀ l, net_order net l ≡ₚ l) (Hvord : ∀ l, net_vector_order net l ≡ₚ l)
    (Hnet : vectors_from shards co net) :
  (∃ reply, vector_search co h vreq net = Ok reply ∧
     sp_hits reply = [] ∧ sp_shards_answered reply = 0) ∧
  ∃ reply, hybrid_search co h req net = Ok reply ∧ sp_shards_answered reply = 0 ∧
    sp_hits reply = rrf_fuse (sp_hits (merge_search_responses
      (scatter_gather (net_search net) (net_order net (leader_addresses (co_registry co))) req) 0
      (len_u32 (leader_addresses (co_registry co))) (placement_version (co_registry co)) 0)) []
      (Z.to_nat (sr_limit req)).
Proof.
  unfold vector_search, hybrid_search.
  rewrite (proj2 (vet_ok co h (vr_filter vreq) _) (conj Hh (conj Hvf (conj Hp eq_refl)))).
  rewrite (proj2 (vet_ok co h (sr_filter req) _) (conj Hh (conj Hf (conj Hp eq_refl)))).
  set (leaders := leader_addresses (co_registry co)) in *. split.
  - destruct (foreign_fanout shards co net (net_order net leaders) vreq Hnet) as [Hr Ho];
      [by rewrite Hv|apply Hord|].
    eexists. split; [done|]. by apply merge_none.
  - set (q := {| vr_vector := _ |}).
    destruct (foreign_fanout shards co net (net_vector_order net leaders) q Hnet) as [Hr Ho];
      [by cbn; rewrite hash_embed_length|apply Hvord|].
    eexists. split; [done|]. cbn [sp_shards_answered sp_hits].
    split; [|by rewrite (proj1 (merge_none _ 0 _ _ _ Hr))].
    apply answered_none; [done|done| |by rewrite Ho].
    intros a Ha. rewrite <- (Hord leaders). by eapply omitted_asked.
Qed.
End foreign.

(** ** What the counters miss *)

Section counters.
Context {HO : HashOrder} {UC : Unicode} {FL : FloatLib} {CC : ControlCodec}.

(** The error counters never move: a query records its success after its last failure
    point and returns early from every failure, and only [search] and [aggregate] record
    anything. *)
Theorem errors_never_counted (co co' : CoordinatorService) (c : call) (st : option Status)
    (H : exec co c = Some (co', st)) :
  query_errors_total (co_metrics co') = query_errors_total (co_metrics co) ∧
  aggregate_errors_total (co_metrics co') = aggregate_errors_total (co_metrics co) ∧
  (st ≠ None → co_metrics co' = co_metrics co).
Proof.
  destruct c; cbn [exec] in H; try (injection H as <- <-; done).
  - unfold register_node in H. destruct (lock co); [|by simplify_eq].
    destruct (register_at _ _ _). by simplify_eq.
  - unfold co_heartbeat in H. destruct (lock co); [|by simplify_eq].
    destruct (heartbeat _ _ _). destruct (_ && _); by simplify_eq.
  - unfold search in H. destruct (vet _ _ _); by simplify_eq.
  - unfold aggregate in H. destruct (vet _ _ _); [|by simplify_eq/=].
    destruct (scatter_aggregate _ _ _). destruct (merge_partials _ _ _) as [[]|]; by simplify_eq/=.
  - unfold drain_node in H. destruct (require _ _ _), (lock co); try by simplify_eq.
    repeat case_match; by simplify_eq.
  - unfold reassign_v_shard in H. destruct (require _ _ _), (lock co); try by simplify_eq.
    repeat case_match; by simplify_eq.
Qed.
End counters.

(** ** Witnesses *)

#[local] Existing Instances canonical_order ascii_only whole_numbers tiny_embedder scan_graph
  stable_sort plain_control.

(** A coordinator of two leaders: the first stores one aircraft, the second does not
    answer. *)
Definition node_request (node addr : string) (shard : Z) : RegisterNodeRequest :=
  {| rn_node_id := node; rn_address := addr; rn_shard_id := shard; rn_role := role_to_i32 Leader |}.

Definition two_leaders : Registry :=
  (register_at (register_at (configured 2 15000 4 true) (node_request "n0" "a:1" 0) 0).1
     (node_request "n1" "b:1" 1) 0).1.

Definition grouped : CoordinatorService := with_control two_leaders 1.

Definition guarded : CoordinatorService := with_auth grouped two_tokens.

Definition ual1 : FlightDocument :=
  {| fd_icao24 := "abc123"; fd_callsign := "UAL1"; fd_observed_at := 7;
     fd_latitude := f64_zero; fd_longitude := f64_zero; fd_altitude := f64_zero;
     fd_origin := "SFO"; fd_destination := "EWR"; fd_aircraft_type := "B738";
     fd_velocity := f64_zero; fd_heading := f64_zero; fd_vertical_rate := f64_zero;
     fd_on_ground := false; fd_tenant_id := ""; fd_text := ∅; fd_number := ∅ |}.

Definition ual1_store : ShardStore := default st_new (st_insert st_new ual1).

Lemma ual1_store_wf : store_wf ual1_store.
Proof. unfold ual1_store. by destruct (st_insert_spec st_new ual1 store_wf_new) as (s & -> & H & _). Qed.

Definition shard_at (addr : string) : ShardSearchService :=
  sv_new (if bool_decide (addr = "a:1"%string) then ual1_store else st_new) addr.

Definition one_answers : Net :=
  {| net_search addr req :=
       if bool_decide (addr = "a:1"%string)
       then match sv_search (f64_one, f64_one) (shard_at addr) req with
            | Some (Ok resp) => Answered resp
            | _ => Unreachable
            end
       else TimedOut;
     net_vector _ _ := Unreachable; net_aggregate _ _ := Unreachable;
     net_order l := l; net_vector_order l := l; net_fanout_ms := 5; net_total_ms := 6 |}.

(** The same calls, completing in the opposite order. *)
Definition one_answers_reversed : Net :=
  {| net_search := net_search one_answers; net_vector := net_vector one_answers;
     net_aggregate := net_aggregate one_answers; net_order l := rev l; net_vector_order l := rev l;
     net_fanout_ms := 5; net_total_ms := 6 |}.

Definition united : SearchRequest := {| sr_query := "ual1"; sr_limit := 0; sr_filter := None |}.

(** Keyword and vector calls both go to the shards, whose embedder has another dimension. *)
Definition vectors_asked : Net :=
  {| net_search := net_search one_answers;
     net_vector addr req :=
       match sv_vector_search (shard_at addr) req with
       | Some (Ok resp) => Answered resp
       | _ => Unreachable
       end;
     net_aggregate _ _ := Unreachable;
     net_order l := l; net_vector_order l := l; net_fanout_ms := 5; net_total_ms := 6 |}.

Lemma vectors_asked_from : vectors_from shard_at (co_new two_leaders) vectors_asked.
Proof.
  intros a req _. cbn [net_vector vectors_asked].
  destruct (sv_vector_search (shard_at a) req) as [[resp|]|]; [|by left..]. right. right. eauto.
Qed.

Lemma foreign_embedder_silent_witness :
  ∃ reply, hybrid_search (co_new two_leaders) None united vectors_asked = Ok reply ∧
    sp_shards_queried reply = 2 ∧ sp_shards_answered reply = 0 ∧ length (sp_hits reply) = 1%nat.
Proof.
  destruct (foreign_embedder_silent shard_at (co_new two_leaders) None united
    {| vr_vector := replicate 128 f32_zero; vr_limit := 5; vr_filter := None |} vectors_asked)
    as (_ & reply & E & Ha & Hh).
  - vm_compute. discriminate.
  - reflexivity.
  - reflexivity.
  - exact I.
  - exact I.
  - reflexivity.
  - vm_compute. reflexivity.
  - apply (bool_decide_unpack _). vm_compute. exact I.
  - by intros l.
  - by intros l.
  - exact vectors_asked_from.
  - exists reply. split; [exact E|]. split; [|split; [exact Ha|]].
    + unfold hybrid_search in E. vm_compute in E. injection E as <-. reflexivity.
    + rewrite Hh. vm_compute. reflexivity.
Defined.

Lemma access_control_witness :
  exec guarded (CDrain (Some "Bearer r-tok") {| dr_node_id := "n0" |} (Committed [])
    (λ _ _ _, LeaderUnreachable "down")) =
  Some (guarded, Some (status PermissionDenied "Operator scope required")).
Proof.
  destruct (exec guarded (CDrain (Some "Bearer r-tok") {| dr_node_id := "n0" |} (Committed [])
    (λ _ _ _, LeaderUnreachable "down"))) as [[co st]|] eqn:E; [|vm_compute in E; discriminate E].
  destruct (access_control guarded co _ st E) as [H _].
  destruct (H (Some "Bearer r-tok") Operator (status PermissionDenied "Operator scope required")
    eq_refl eq_refl) as [-> ->]. reflexivity.
Defined.

Lemma intent_through_group_witness :
  let moved := reassign_v_shard grouped None {| rv_vshard := 2; rv_group := 1 |} (Committed [])
                 (λ _ _ _, LeaderUnreachable "down") in
  moved.2 = Ok (reassign_ok 2 1) ∧ vshards (co_registry moved.1) !! 2%nat = Some 1.
Proof.
  assert (0 ≤ 2 < 2 ^ 32) as H2 by lia. assert (0 ≤ 1 < 2 ^ 32) as H1 by lia.
  destruct (intent_through_group grouped 1 None 2 1 "n0" (Committed [])
    (λ _ _ _, LeaderUnreachable "down") (λ _ _ _, LeaderUnreachable "down")
    eq_refl eq_refl eq_refl H2 H1) as (_ & _ & H).
  destruct (H eq_refl eq_refl) as (Hr & Hv & _). split; [exact Hr|exact Hv].
Defined.

Lemma stream_matches_search_witness :
  ∃ updates final reply,
    search_stream grouped None united one_answers 0 9 None = Ok (updates ++ [final]) ∧
    (search grouped None united one_answers_reversed).2 = Ok reply ∧
    su_hits final = sp_hits reply.
Proof.
  destruct (stream_matches_search grouped None united one_answers one_answers_reversed 0 9
    eq_refl I eq_refl eq_refl (λ l, Permutation_refl l) (λ l, Permutation_sym (Permutation_rev l)))
    as (us & final & reply & E1 & E2 & _ & _ & _ & E3 & _).
  - vm_compute. repeat constructor.
  - vm_compute. repeat constructor. apply not_elem_of_nil.
  - exists us, final, reply. split; [exact E1|]. split; [exact E2|exact E3].
Defined.

Lemma cluster_search_witness :
  ∃ reply, (search grouped None united one_answers).2 = Ok reply ∧
    "abc123"%string ∈ icao24_of <$> sp_hits reply.
Proof.
  destruct (cluster_search (f64_one, f64_one) (λ _, canonical_order) shard_at grouped None united one_answers
    eq_refl I eq_refl eq_refl (λ l, Permutation_refl l)) as (reply & E & _ & _ & _ & H).
  - intros a _. unfold shard_at. split; [|reflexivity].
    destruct (bool_decide _); [exact ual1_store_wf|exact store_wf_new].
  - intros a resp _. unfold net_search, one_answers.
    destruct (bool_decide (a = "a:1"%string)) eqn:Ea; [|discriminate].
    apply bool_decide_eq_true in Ea as ->.
    destruct (sv_search (f64_one, f64_one) (shard_at "a:1") united) as [[r|]|] eqn:Es;
      [|discriminate..].
    intros [= <-]. split; [reflexivity|]. vm_compute in Es. injection Es as <-. repeat constructor.
  - exists reply. split; [exact E|]. apply (H ual1). exists "a:1"%string.
    split; [by vm_compute; right; left|]. split; [eexists; vm_compute; reflexivity|].
    split_and!; [vm_compute; reflexivity| |reflexivity].
    apply (bool_decide_unpack _). vm_compute. exact I.
Defined.
