(* ===== verification/Memory.v ===== *)
(** * Agent memory: [memory/src/lib.rs]

    The governed store: namespaces, attribution, quotas and expiry. The clock is an
    argument of every call, as in the source. *)

From S2P Require Export Text.

(** ** State *)

Record MemoryEntry := {
  me_id : Z;
  me_namespace : string;
  me_text : string;
  me_writer : string;
  me_created_ms : Z;
  me_ttl_secs : Z;
}.

(** [created_ms + ttl_secs * 1000] wraps in a release build. *)
Definition expired_at (e : MemoryEntry) (now_ms : Z) : bool :=
  negb (me_ttl_secs e =? 0) &&
  (wrap_u64 (me_created_ms e + wrap_u64 (me_ttl_secs e * 1000)) <=? now_ms).

Inductive WriteError :=
| QuotaExceeded (writer : string) (quota : nat)
| Malformed (what : string).

Record MemoryStore := {
  by_ns : gmap string (list MemoryEntry);
  next_id : Z;
  quota_per_writer : nat;
}.

Definition mem_new (quota : nat) : MemoryStore :=
  {| by_ns := ∅; next_id := 0; quota_per_writer := quota |}.

Definition set_by_ns (m : MemoryStore) (f : gmap string (list MemoryEntry)) : MemoryStore :=
  {| by_ns := f; next_id := next_id m; quota_per_writer := quota_per_writer m |}.

(** ** Operations *)

Section memory.
Context {HO : HashOrder} {UC : Unicode}.

(** [Vec::retain] of what has not expired. *)
Definition retain_live (es : list MemoryEntry) (now_ms : Z) : list MemoryEntry :=
  filter (λ e, expired_at e now_ms = false) es.

Definition sweep_namespace (m : MemoryStore) (ns : string) (now_ms : Z) : MemoryStore * nat :=
  match by_ns m !! ns with
  | Some es =>
      (set_by_ns m (<[ns := retain_live es now_ms]> (by_ns m)),
       (length es - length (retain_live es now_ms))%nat)
  | None => (m, 0%nat)
  end.

Definition sweep (m : MemoryStore) (now_ms : Z) : MemoryStore * nat :=
  foldl (λ '(m, n) ns, let '(m, k) := sweep_namespace m ns now_ms in (m, (n + k)%nat))
    (m, 0%nat) (hm_keys (by_ns m)).

Definition by_writer (es : list MemoryEntry) (writer : string) : list MemoryEntry :=
  filter (λ e, me_writer e = writer) es.

Definition remember (m : MemoryStore) (ns text writer : string) (ttl_secs now_ms : Z)
    : MemoryStore * result Z WriteError :=
  if str_is_empty (str_trim ns) then (m, Err (Malformed "namespace is required"))
  else if str_is_empty (str_trim text) then (m, Err (Malformed "text is required"))
  else if str_is_empty (str_trim writer) then (m, Err (Malformed "writer attribution is required"))
  else
    let m := (sweep_namespace m ns now_ms).1 in
    let live_by_writer := length (by_writer (default [] (by_ns m !! ns)) writer) in
    if bool_decide (quota_per_writer m ≤ live_by_writer)%nat
    then (m, Err (QuotaExceeded writer (quota_per_writer m)))
    else
      let id := next_id m in
      let e := {| me_id := id; me_namespace := ns; me_text := text; me_writer := writer;
                  me_created_ms := now_ms; me_ttl_secs := ttl_secs |} in
      ({| by_ns := <[ns := default [] (by_ns m !! ns) ++ [e]]> (by_ns m);
          next_id := wrap_u64 (id + 1); quota_per_writer := quota_per_writer m |}, Ok id).

Definition overlap (terms : list string) (e : MemoryEntry) : nat :=
  length (filter (λ t, t ∈ tokenize (me_text e)) terms).

(** More overlap first, then freshest first. *)
Definition cmp_recall (a b : nat * MemoryEntry) : comparison :=
  then_with (Nat.compare b.1 a.1) (Z.compare (me_created_ms b.2) (me_created_ms a.2)).

Definition scored_hits (m : MemoryStore) (ns query : string) (now_ms : Z) : list (nat * MemoryEntry) :=
  let terms := tokenize query in
  omap (λ e, let n := overlap terms e in
             if bool_decide (terms = []) || bool_decide (0 < n)%nat then Some (n, e) else None)
    (retain_live (default [] (by_ns m !! ns)) now_ms).

Definition recall (m : MemoryStore) (ns query : string) (limit : nat) (now_ms : Z)
    : list MemoryEntry :=
  truncate_limit limit (snd <$> sort_by cmp_recall (scored_hits m ns query now_ms)).

Definition mem_len (m : MemoryStore) (ns : string) (now_ms : Z) : nat :=
  length (retain_live (default [] (by_ns m !! ns)) now_ms).

(** ** Specification *)

Inductive mem_op :=
| OpRemember (ns text writer : string) (ttl_secs now_ms : Z)
| OpSweep (now_ms : Z).

Definition mem_exec (m : MemoryStore) (op : mem_op) : MemoryStore :=
  match op with
  | OpRemember ns text writer ttl now => (remember m ns text writer ttl now).1
  | OpSweep now => (sweep m now).1
  end.

Definition attributed (e : MemoryEntry) : Prop :=
  str_trim (me_namespace e) ≠ EmptyString ∧ str_trim (me_text e) ≠ EmptyString ∧
  str_trim (me_writer e) ≠ EmptyString.

Definition stored (m : MemoryStore) (ns : string) : list MemoryEntry := default [] (by_ns m !! ns).

(** What governance means: entries are filed under their own namespace, attributed and
    numbered; no two share a number; no writer holds more than its quota in a namespace. *)
Record mem_wf (m : MemoryStore) : Prop := {
  mw_entry : ∀ ns e, e ∈ stored m ns → me_namespace e = ns ∧ attributed e ∧ me_id e < next_id m;
  mw_ids : ∀ ns, NoDup (me_id <$> stored m ns);
  mw_apart : ∀ ns ns' e e', e ∈ stored m ns → e' ∈ stored m ns' → me_id e = me_id e' → ns = ns';
  mw_quota : ∀ ns w, (length (by_writer (stored m ns) w) ≤ quota_per_writer m)%nat;
}.

(** ** Lemmas *)

Lemma str_is_empty_spec s : str_is_empty s = true ↔ s = EmptyString.
Proof. apply bool_decide_eq_true. Qed.

Lemma sweep_ns_stored m ns now ns' :
  stored (sweep_namespace m ns now).1 ns' =
    (if decide (ns' = ns) then retain_live (stored m ns) now else stored m ns').
Proof.
  unfold sweep_namespace, stored. destruct (by_ns m !! ns) as [es|] eqn:E; cbn [fst set_by_ns by_ns].
  - rewrite lookup_insert. repeat case_decide; naive_solver.
  - case_decide; subst; [by rewrite E|done].
Qed.

Lemma sweep_ns_same m ns now :
  next_id (sweep_namespace m ns now).1 = next_id m ∧
  quota_per_writer (sweep_namespace m ns now).1 = quota_per_writer m.
Proof. unfold sweep_namespace. by destruct (by_ns m !! ns). Qed.

Lemma sublist_filter_mono {A} (P : A → Prop) `{!∀ x, Decision (P x)} (l k : list A) :
  sublist l k → sublist (filter P l) (filter P k).
Proof.
  induction 1 as [|x l k _ IH|x l k _ IH]; [constructor|..].
  - rewrite !filter_cons. case_decide; [by constructor|done].
  - rewrite filter_cons. case_decide; [by constructor|done].
Qed.

Lemma stored_new quota ns : stored (mem_new quota) ns = [].
Proof. unfold stored. cbn [mem_new by_ns]. by rewrite lookup_empty. Qed.

Lemma mem_wf_new quota : mem_wf (mem_new quota).
Proof.
  split; intros *; rewrite ?stored_new; [by rewrite elem_of_nil|apply NoDup_nil_2|by rewrite elem_of_nil|].
  cbn. lia.
Qed.

(** Dropping entries keeps the store governed. *)
Lemma mem_wf_shrink m m' :
  (∀ ns, sublist (stored m' ns) (stored m ns)) → next_id m' = next_id m →
  quota_per_writer m' = quota_per_writer m → mem_wf m → mem_wf m'.
Proof.
  intros Hsub Hn Hq [H1 H2 H3 H4].
  assert (∀ ns e, e ∈ stored m' ns → e ∈ stored m ns) as Hin.
  { intros ns e He. by eapply elem_of_sublist. }
  split.
  - intros ns e He. rewrite Hn. auto.
  - intros ns. by eapply NoDup_fmap_sublist_of.
  - eauto.
  - intros ns w. rewrite Hq. etrans; [|apply (H4 ns w)].
    by apply sublist_length, sublist_filter_mono.
Qed.

Lemma sweep_ns_wf m ns now : mem_wf m → mem_wf (sweep_namespace m ns now).1.
Proof.
  destruct (sweep_ns_same m ns now) as [Hn Hq]. apply mem_wf_shrink; [|done|done].
  intros ns'. rewrite sweep_ns_stored. case_decide as E; [|done]. rewrite E. apply sublist_filter.
Qed.

(** Sweeping namespace after namespace. *)
Lemma sweep_fold nss now m n :
  NoDup nss →
  let r := foldl (λ '(m, n) ns, let '(m, k) := sweep_namespace m ns now in (m, (n + k)%nat)) (m, n) nss in
  (∀ ns, stored r.1 ns = if decide (ns ∈ nss) then retain_live (stored m ns) now else stored m ns) ∧
  next_id r.1 = next_id m ∧ quota_per_writer r.1 = quota_per_writer m ∧
  r.2 = (n + sum_list ((λ ns, length (stored m ns) - length (retain_live (stored m ns) now))%nat <$> nss))%nat.
Proof.
  revert m n. induction nss as [|x nss IH]; intros m n Hnd; cbn [foldl].
  { split_and!; [|done|done|cbn; lia]. intros ns. by rewrite decide_False by apply not_elem_of_nil. }
  apply NoDup_cons in Hnd as [Hx Hnd].
  destruct (sweep_namespace m x now) as [m1 k] eqn:E.
  destruct (IH m1 (n + k)%nat Hnd) as (Hs & Hn & Hq & Hk).
  pose proof (sweep_ns_same m x now) as [Hn1 Hq1]. pose proof (sweep_ns_stored m x now) as Hs1.
  rewrite E in Hn1, Hq1, Hs1. cbn [fst] in *.
  split_and!; [|congruence|congruence|].
  - intros ns. rewrite Hs, Hs1. destruct (decide (ns = x)) as [->|Hne].
    + rewrite decide_False by done. by rewrite decide_True by left.
    + destruct (decide (ns ∈ nss)); [rewrite decide_True by (by right)|rewrite decide_False by set_solver];
        done.
  - rewrite Hk. cbn. assert (k = length (stored m x) - length (retain_live (stored m x) now))%nat as ->.
    { unfold sweep_namespace, stored in *. destruct (by_ns m !! x); by simplify_eq/=. }
    rewrite <- Nat.add_assoc. do 3 f_equal. apply list_fmap_ext.
    intros i ns Hi%list_elem_of_lookup_2. rewrite Hs1. by rewrite decide_False by congruence.
Qed.

Lemma sweep_stored m now ns : stored (sweep m now).1 ns = retain_live (stored m ns) now.
Proof.
  unfold sweep. destruct (sweep_fold (hm_keys (by_ns m)) now m 0 (hm_keys_NoDup _)) as (-> & _).
  case_decide as Hns; [done|]. rewrite elem_of_hm_keys in Hns.
  unfold stored. destruct (by_ns m !! ns) eqn:E; [by destruct Hns; eexists|done].
Qed.

Lemma cmp_recall_total : total_on (λ _, True) cmp_recall.
Proof.
  split.
  - intros [a e] [b f] _ _. unfold cmp_recall. cbn [fst snd].
    by rewrite then_with_opp, <- Nat.compare_antisym, <- Z.compare_antisym.
  - intros [a e] [b f] [c g] _ _ _. unfold cmp_recall, then_with. cbn [fst snd].
    destruct (Nat.compare_spec b a), (Nat.compare_spec c b), (Nat.compare_spec c a);
      rewrite ?Z.compare_le_iff; try done; lia.
Qed.

(** What the only write path does. *)
Definition new_entry (m : MemoryStore) (ns text writer : string) (ttl now : Z) : MemoryEntry :=
  {| me_id := next_id m; me_namespace := ns; me_text := text; me_writer := writer;
     me_created_ms := now; me_ttl_secs := ttl |}.

Definition well_formed (ns text writer : string) : Prop :=
  str_trim ns ≠ EmptyString ∧ str_trim text ≠ EmptyString ∧ str_trim writer ≠ EmptyString.

Lemma remember_cases m ns text writer ttl now :
  let '(m', r) := remember m ns text writer ttl now in
  let live := retain_live (stored m ns) now in
  quota_per_writer m' = quota_per_writer m ∧
  ((¬ well_formed ns text writer ∧ m' = m ∧ ∃ what, r = Err (Malformed what)) ∨
   (well_formed ns text writer ∧ (quota_per_writer m ≤ length (by_writer live writer))%nat ∧
    r = Err (QuotaExceeded writer (quota_per_writer m)) ∧ next_id m' = next_id m ∧
    ∀ ns', stored m' ns' = if decide (ns' = ns) then live else stored m ns') ∨
   (well_formed ns text writer ∧ (length (by_writer live writer) < quota_per_writer m)%nat ∧
    r = Ok (next_id m) ∧ next_id m' = wrap_u64 (next_id m + 1) ∧
    ∀ ns', stored m' ns' =
      if decide (ns' = ns) then live ++ [new_entry m ns text writer ttl now] else stored m ns')).
Proof.
  unfold remember, well_formed.
  destruct (str_is_empty (str_trim ns)) eqn:E1;
    [apply str_is_empty_spec in E1; split; [done|left; naive_solver]|].
  destruct (str_is_empty (str_trim text)) eqn:E2;
    [apply str_is_empty_spec in E2; split; [done|left; naive_solver]|].
  destruct (str_is_empty (str_trim writer)) eqn:E3;
    [apply str_is_empty_spec in E3; split; [done|left; naive_solver]|].
  rewrite <- not_true_iff_false, str_is_empty_spec in E1, E2, E3.
  pose proof (sweep_ns_stored m ns now) as Hs. destruct (sweep_ns_same m ns now) as [Hn Hq].
  set (m1 := (sweep_namespace m ns now).1) in *.
  assert (default [] (by_ns m1 !! ns) = retain_live (stored m ns) now) as ->
    by (specialize (Hs ns); rewrite decide_True in Hs by done; exact Hs).
  rewrite Hq. case_bool_decide as Hb.
  - split; [done|]. right. left. by split_and!.
  - split; [done|]. right. right. split_and!; try done; [lia|by rewrite Hn| |].
    + cbn. by rewrite Hn.
    + intros ns'. specialize (Hs ns'). unfold stored, new_entry in *. cbn [by_ns].
      rewrite lookup_insert, <- Hn. repeat case_decide; naive_solver.
Qed.

Lemma remember_wf m ns text writer ttl now :
  next_id m + 1 < 2 ^ 64 → (∀ ns e, e ∈ stored m ns → 0 ≤ me_id e) → 0 ≤ next_id m →
  mem_wf m → mem_wf (remember m ns text writer ttl now).1.
Proof.
  intros Hb Hpos Hn0 Hwf. pose proof (remember_cases m ns text writer ttl now) as H.
  destruct (remember m ns text writer ttl now) as [m' r]. cbn [fst].
  destruct H as [Hq [(_ & -> & _)|[(_ & _ & _ & Hn & Hs)|(Hw & Hlt & _ & Hn & Hs)]]]; [done|..].
  { apply (mem_wf_shrink m); [|done..]. intros ns'. rewrite Hs. case_decide as E; [|done].
    rewrite E. apply sublist_filter. }
  unfold wrap_u64 in Hn. rewrite Z.mod_small in Hn by lia. destruct Hwf as [H1 H2 H3 H4].
  set (e0 := new_entry m ns text writer ttl now) in *.
  assert (∀ x e, e ∈ stored m' x → e ∈ stored m x ∨ (x = ns ∧ e = e0)) as Hin.
  { intros x e. rewrite Hs. case_decide as E; [|by left]. rewrite E, elem_of_app, list_elem_of_singleton.
    intros [[_ ?]%list_elem_of_filter|?]; [by left|by right]. }
  split.
  - intros x e [He|[-> ->]]%Hin; [apply H1 in He as (? & ? & ?); split_and!; [done..|lia]|].
    split_and!; [done|exact Hw|cbn; lia].
  - intros x. rewrite Hs. case_decide as E; [|done]. rewrite fmap_app. apply NoDup_app. split_and!.
    + eapply NoDup_fmap_sublist_of; [apply (H2 ns)|apply sublist_filter].
    + intros i (e & -> & [_ He]%list_elem_of_filter)%list_elem_of_fmap Hi.
      apply list_elem_of_singleton in Hi. apply H1 in He as (_ & _ & He). cbn in Hi. lia.
    + apply NoDup_singleton.
  - intros x y e e' [He|[-> ->]]%Hin [He'|[-> ->]]%Hin Hid; [eauto| | |done].
    + apply H1 in He as (_ & _ & He). cbn in Hid. lia.
    + apply H1 in He' as (_ & _ & He'). cbn in Hid. lia.
  - intros x w. rewrite Hs, Hq. case_decide as E; [|apply H4]. unfold by_writer in *.
    rewrite filter_app, length_app, filter_cons, filter_nil. cbn [me_writer e0 new_entry].
    case_decide as Ew; cbn.
    + rewrite <- Ew. lia.
    + rewrite Nat.add_0_r. etrans; [|apply (H4 ns w)].
      apply sublist_length, sublist_filter_mono, sublist_filter.
Qed.
End memory.

(** ** Properties *)

Section properties.
Context {HO : HashOrder} {UC : Unicode}.

(** C18: the store stays governed. After any writes and sweeps, at any clock readings, every
    entry is filed under the namespace it was written to, carries a namespace, a text and a
    writer, and has an id that no other entry has; and no writer holds more entries in a
    namespace than its quota, expired ones included. *)
Theorem memory_invariant (quota : nat) (ops : list mem_op) (Hn : Z.of_nat (length ops) < 2 ^ 64) :
  let m := foldl mem_exec (mem_new quota) ops in
  mem_wf m ∧ quota_per_writer m = quota.
Proof.
  assert (let m := foldl mem_exec (mem_new quota) ops in
    mem_wf m ∧ quota_per_writer m = quota ∧ 0 ≤ next_id m ≤ Z.of_nat (length ops) ∧
    ∀ ns e, e ∈ stored m ns → 0 ≤ me_id e) as H; [|cbv zeta in *; naive_solver].
  induction ops as [|op ops IH] using rev_ind.
  { cbv zeta. cbn [foldl]. split_and!; [apply mem_wf_new|done|done|done|].
    intros ns e. by rewrite stored_new, elem_of_nil. }
  cbv zeta in *. rewrite foldl_snoc. set (m := foldl mem_exec _ ops) in *.
  rewrite length_app in *. cbn [length] in *.
  destruct IH as (Hwf & Hq & Hid & Hpos); [lia|]. destruct op as [ns text writer ttl now|now]; cbn [mem_exec].
  - pose proof (remember_wf m ns text writer ttl now ltac:(lia) Hpos ltac:(lia) Hwf) as Hwf'.
    pose proof (remember_cases m ns text writer ttl now) as H.
    destruct (remember m ns text writer ttl now) as [m' r]. cbn [fst] in *.
    destruct H as [Hq' [(_ & -> & _)|[(_ & _ & _ & Hn' & Hs)|(_ & _ & _ & Hn' & Hs)]]].
    + split_and!; try done; lia.
    + split_and!; try done; [congruence|lia..|]. intros x e. rewrite Hs.
      case_decide; [intros [_ ?]%list_elem_of_filter|]; eauto.
    + unfold wrap_u64 in Hn'. rewrite Z.mod_small in Hn' by lia.
      split_and!; try done; [congruence|lia..|]. intros x e. rewrite Hs.
      case_decide; [|eauto]. rewrite elem_of_app, list_elem_of_singleton.
      intros [[_ ?]%list_elem_of_filter| ->]; [eauto|cbn; lia].
  - unfold sweep. destruct (sweep_fold (hm_keys (by_ns m)) now m 0 (hm_keys_NoDup _)) as (Hs & Hn' & Hq' & _).
    split_and!; [|congruence|lia..|].
    + apply (mem_wf_shrink m); [|done..]. intros x. rewrite Hs. case_decide; [|done]. apply sublist_filter.
    + intros x e. rewrite Hs. case_decide; [intros [_ ?]%list_elem_of_filter|]; eauto.
Qed.

(** C36: recall is exact. It returns the entries of the namespace asked for that have not
    expired and share a word with the query (all of them when the query has no words), by
    more shared words first, then freshest first, cut to the limit; so it never reads
    another namespace's entries, and [mem_len] counts what an unlimited listing returns. *)
Theorem recall_exact (m : MemoryStore) (ns query : string) (limit : nat) (now : Z) :
  let terms := tokenize query in
  let full := recall m ns query 0 now in
  (∀ e, e ∈ full ↔ e ∈ stored m ns ∧ expired_at e now = false ∧
     (terms = [] ∨ ∃ t, t ∈ terms ∧ t ∈ tokenize (me_text e))) ∧
  ranked cmp_recall ((λ e, (overlap terms e, e)) <$> full) ∧
  recall m ns query limit now = truncate_limit limit full ∧
  (terms = [] → length full = mem_len m ns now).
Proof.
  intros terms full. unfold full, recall. rewrite truncate_limit_zero.
  set (hits := scored_hits m ns query now).
  assert (∀ p, p ∈ hits → p = (overlap terms p.2, p.2)) as Hshape.
  { intros p (e & _ & E)%list_elem_of_omap. cbv zeta in E. destruct (_ || _); by simplify_eq. }
  assert (∀ e, e ∈ snd <$> hits ↔ e ∈ stored m ns ∧ expired_at e now = false ∧
     (terms = [] ∨ (0 < overlap terms e)%nat)) as Hmem.
  { intros e. rewrite list_elem_of_fmap. unfold hits, scored_hits. setoid_rewrite list_elem_of_omap.
    fold terms. split.
    - intros (p & -> & (e' & He & E)). cbv zeta in E. apply list_elem_of_filter in He as [Hx He].
      destruct (_ || _) eqn:Eb; [|done]. injection E as <-. cbn. split_and!; [done|done|].
      apply orb_true_iff in Eb as [?%bool_decide_eq_true|?%bool_decide_eq_true]; auto.
    - intros (He & Hx & Ho). exists (overlap terms e, e). split; [done|]. exists e.
      split; [by apply list_elem_of_filter|]. cbv zeta.
      destruct Ho; [rewrite (bool_decide_true (terms = []))|rewrite (bool_decide_true (0 < _)%nat), orb_true_r];
        done. }
  split_and!.
  - intros e. rewrite (sort_by_perm cmp_recall), Hmem. unfold overlap.
    assert ((0 < length (filter (λ t, t ∈ tokenize (me_text e)) terms))%nat ↔
            ∃ t, t ∈ terms ∧ t ∈ tokenize (me_text e)) as ->; [|done].
    pose proof (λ t, list_elem_of_filter (λ t, t ∈ tokenize (me_text e)) terms t) as Hf.
    destruct (filter _ terms) as [|t l]; cbn; split; try lia.
    + intros (t & Ht & Hin). pose proof (proj2 (Hf t) (conj Hin Ht)) as Hn. by apply elem_of_nil in Hn.
    + intros _. exists t. apply and_comm, Hf. by left.
  - rewrite <- list_fmap_compose.
    assert ((λ e, (overlap terms e, e)) ∘ snd <$> sort_by cmp_recall hits = sort_by cmp_recall hits) as ->.
    { rewrite <- (list_fmap_id (sort_by cmp_recall hits)) at 2. apply list_fmap_ext.
      intros i p Hp%list_elem_of_lookup_2. rewrite elem_of_sort_by in Hp. by rewrite (Hshape p Hp) at 2. }
    apply (sort_by_ranked (λ _, True)); [apply cmp_recall_total|by apply Forall_true].
  - done.
  - intros Ht. rewrite length_fmap, sort_by_length. unfold hits, scored_hits, mem_len. fold terms.
    rewrite Ht, bool_decide_true by done. cbn. unfold stored.
    induction (retain_live _ now) as [|e l IH]; [done|]. cbn. by rewrite IH.
Qed.
End properties.

(** ** Witnesses and examples *)

#[local] Existing Instances canonical_order ascii_only.

Definition two_writes : list mem_op :=
  [OpRemember "ns" "user is in Berlin" "agent" 1 0; OpRemember "ns" "two" "agent" 1 0; OpSweep 500].

Lemma memory_invariant_witness :
  let m := foldl mem_exec (mem_new 1) two_writes in
  mem_wf m ∧ me_text <$> stored m "ns" = ["user is in Berlin"%string].
Proof.
  destruct (memory_invariant 1 two_writes) as [H _]; [vm_compute; reflexivity|].
  split; [exact H|vm_compute; reflexivity].
Defined.

(** Expiry frees the quota. *)
Example ttl_frees_quota :
  (remember (foldl mem_exec (mem_new 1) two_writes) "ns" "later" "agent" 1 2000).2 = Ok 1 ∧
  (remember (foldl mem_exec (mem_new 1) two_writes) "ns" "soon" "agent" 1 999).2 =
    Err (QuotaExceeded "agent" 1).
Proof. split; vm_compute; reflexivity. Qed.

(** A time to live of more than half a billion years wraps around: the entry is gone at
    once, although a longer life was asked for. *)
Theorem huge_ttl_expires_at_once :
  let '(m, r) := remember (mem_new 1) "ns" "keep" "agent" (2 ^ 64 / 1000 + 1) 0 in
  r = Ok 0 ∧ recall m "ns" "keep" 0 1000 = [].
Proof. vm_compute. split; reflexivity. Qed.
