(* ===== verification/Client.v ===== *)
(** * What clients share: [common/src/client.rs]

    The coordinator list, failover on connecting, the one-line summary of a manifest and
    the filters of a command line. *)

From S2P Require Export Wire.

(** ** Endpoints *)

Section endpoints.
Context {UC : Unicode}.

(** [raw.split(',').map(str::trim).filter(nonempty)], as [cluster.rs] has it too. *)
Definition comma_list (raw : string) : list string :=
  filter (λ s, s ≠ EmptyString) (str_trim <$> str_split (λ c, c =? comma)%N raw).

Definition parse_addr_list (raw dflt : string) : list string :=
  match comma_list raw with [] => [dflt] | l => l end.

(** [plural] and [singular] are the two environment variables. *)
Definition coordinator_addrs (plural singular : option string) (dflt : string) : list string :=
  parse_addr_list (default (default dflt singular) plural) dflt.
End endpoints.

(** [connect addr] is whether the address accepts a connection. *)
Definition connect_first_healthy (connect : string → bool) (addrs : list string)
    : result string string :=
  match filter (λ a, connect a = true) addrs with
  | a :: _ => Ok a
  | [] => Err ("no coordinator reachable (tried: " +:+ join ", " addrs +:+ ")")
  end.

(** ** The summary of a manifest *)

(** [i64::saturating_sub]. *)
Definition saturating_sub (a b : Z) : Z := Z.max (- 2 ^ 63) (Z.min (2 ^ 63 - 1) (a - b)).

Definition manifest_summary (m : QueryManifest) (now_ms : Z) : string :=
  let parts :=
    ["answered " +:+ show_Z (qm_shards_answered m) +:+ "/" +:+ show_Z (qm_shards_queried m)
       +:+ " shards"]
    ++ match qm_omitted m with
       | [] => []
       | l => ["omitted: " +:+ join ", " ((λ o, os_address o +:+ " (" +:+ os_reason o +:+ ")") <$> l)]
       end
    ++ (if 0 <? qm_deduped m
        then [show_Z (qm_deduped m) +:+ " cross-shard duplicates dropped"] else [])
    ++ (if 0 <? qm_freshest_observed_at m
        then ["freshest " +:+ show_Z (saturating_sub now_ms (qm_freshest_observed_at m) `quot` 1000)
                +:+ "s old"] else [])
    ++ ["placement v" +:+ show_Z (qm_placement_version m); show_Z (qm_elapsed_ms m) +:+ "ms"]
  in join " · " parts.

(** ** Filters of a command line *)

Section filters.
Context {FL : FloatLib}.

Definition parse_bound (arg s : string) : result (option f64) string :=
  if str_is_empty s then Ok None
  else match f64_parse s with
       | Some x => Ok (Some x)
       | None => Err ("'" +:+ s +:+ "' is not a number in '" +:+ arg +:+ "'")
       end.

Definition parse_filter_arg (arg : string) : result FilterCondition string :=
  fv <-? ok_or (split_once "=" arg)
           ("filter '" +:+ arg +:+ "' must look like field=value or field=min..max");;
  test <-? match split_once ".." fv.2 with
           | Some (lo, hi) =>
               min <-? parse_bound arg lo;; max <-? parse_bound arg hi;;
               Ok (Range {| nr_min := min; nr_max := max |})
           | None =>
               if bool_decide (fv.2 = "true"%string) || bool_decide (fv.2 = "false"%string)
               then Ok (Is (bool_decide (fv.2 = "true"%string)))
               else Ok (Equals fv.2)
           end;;
  Ok {| fc_field := fv.1; fc_test := Some test |}.

Fixpoint parse_conditions (args : list string) (conditions : list FilterCondition)
    : result (list FilterCondition) string :=
  match args with
  | [] => Ok conditions
  | arg :: rest => c <-? parse_filter_arg arg;; parse_conditions rest (conditions ++ [c])
  end.

Definition parse_filter_args (args : list string) : result (option Filter) string :=
  conditions <-? parse_conditions args [];;
  Ok (match conditions with [] => None | _ => Some {| f_conditions := conditions |} end).

(** ** Specification *)

(** How a user writes a condition. *)
Definition show_bound (b : option f64) : string := match b with Some x => f64_display x | None => EmptyString end.

Definition show_condition (c : FilterCondition) : string :=
  fc_field c +:+ "=" +:+
  match fc_test c with
  | Some (Equals want) => want
  | Some (Range r) => show_bound (nr_min r) +:+ ".." +:+ show_bound (nr_max r)
  | Some (Is want) => if want then "true" else "false"
  | None => EmptyString
  end.

(** A bound that prints as a number again, without dots in a row. *)
Definition bound_ok (b : option f64) : Prop :=
  match b with
  | Some x => f64_display x ≠ EmptyString ∧ f64_parse (f64_display x) = Some x ∧
      split_once ".." (f64_display x +:+ "..") = Some (f64_display x, EmptyString)
  | None => True
  end.

(** What the notation can say. *)
Definition writable (c : FilterCondition) : Prop :=
  split_once "=" (fc_field c +:+ "=") = Some (fc_field c, EmptyString) ∧
  match fc_test c with
  | Some (Equals want) =>
      split_once ".." want = None ∧ want ≠ "true"%string ∧ want ≠ "false"%string
  | Some (Range r) => bound_ok (nr_min r) ∧ bound_ok (nr_max r)
  | Some (Is _) => True
  | None => False
  end.

(** ** Lemmas *)

Lemma strip_prefix_more p a b r : strip_prefix p a = Some r → strip_prefix p (a +:+ b) = Some (r +:+ b).
Proof.
  revert a. induction p as [|x p IH]; intros a H; [by injection H as <-|].
  destruct a as [|y a]; [done|]. change (String y a +:+ b) with (String y (a +:+ b)).
  cbn [strip_prefix] in *. case_bool_decide; [by apply IH|done].
Qed.

Lemma strip_prefix_short p a b :
  strip_prefix p a = None → (String.length p ≤ String.length a)%nat → strip_prefix p (a +:+ b) = None.
Proof.
  revert a. induction p as [|x p IH]; intros a H Hl; [done|].
  destruct a as [|y a]; [cbn in Hl; lia|]. change (String y a +:+ b) with (String y (a +:+ b)).
  cbn [strip_prefix String.length] in *. case_bool_decide; [apply IH; [done|lia]|done].
Qed.

Lemma split_once_length sep s l r :
  split_once sep s = Some (l, r) → (String.length sep ≤ String.length s)%nat.
Proof.
  assert (∀ p a q, strip_prefix p a = Some q → (String.length p ≤ String.length a)%nat) as Hp.
  { induction p as [|x p IH]; intros a q H; cbn; [lia|]. destruct a as [|y a]; [done|].
    cbn in *. case_bool_decide; [|done]. apply IH in H. lia. }
  revert l. induction s as [|c s IH]; intros l H; cbn [split_once] in H.
  - destruct (strip_prefix sep _) eqn:E; [by apply Hp in E|done].
  - destruct (strip_prefix sep _) eqn:E; [by apply Hp in E|].
    destruct (split_once sep s) as [[l' r']|]; [|done]. specialize (IH l'). injection H as <- <-.
    cbn. etrans; [by apply IH|lia].
Qed.

(** Text after the separator does not move its first occurrence. *)
Lemma split_once_app sep s b l r :
  split_once sep s = Some (l, r) → split_once sep (s +:+ b) = Some (l, r +:+ b).
Proof.
  revert l. induction s as [|c s IH]; intros l H.
  - destruct sep as [|x sep]; cbn in *; [|done]. injection H as <- <-. by destruct b.
  - pose proof (split_once_length _ _ _ _ H) as Hl. cbn [split_once] in H.
    change (String c s +:+ b) with (String c (s +:+ b)). cbn [split_once].
    change (String c (s +:+ b)) with (String c s +:+ b).
    destruct (strip_prefix sep (String c s)) as [q|] eqn:E.
    + injection H as <- <-. by rewrite (strip_prefix_more _ _ b _ E).
    + rewrite (strip_prefix_short _ _ b E Hl).
      destruct (split_once sep s) as [[l' r']|] eqn:Es; [|done]. cbn in H. injection H as <- <-.
      by rewrite (IH l' eq_refl).
Qed.

Lemma parse_show_bound arg b : bound_ok b → parse_bound arg (show_bound b) = Ok b.
Proof.
  destruct b as [x|]; [|done]. intros (Hne & Hp & _). unfold parse_bound, str_is_empty. cbn [show_bound].
  by rewrite bool_decide_false, Hp by done.
Qed.

Lemma split_range lo hi :
  bound_ok lo → split_once ".." (show_bound lo +:+ ".." +:+ show_bound hi) = Some (show_bound lo, show_bound hi).
Proof.
  intros H. rewrite str_app_assoc. apply (split_once_app _ _ _ _ EmptyString).
  destruct lo as [x|]; [apply H|done].
Qed.

Lemma parse_show_condition c : writable c → parse_filter_arg (show_condition c) = Ok c.
Proof.
  intros [Hf Ht]. unfold parse_filter_arg, show_condition. destruct c as [field test]. cbn [fc_field fc_test] in *.
  set (v := match test with Some _ => _ | None => _ end).
  rewrite (str_app_assoc field "=" v), (split_once_app _ _ v _ _ Hf).
  change (EmptyString +:+ v) with v. cbn [ok_or fst snd].
  destruct test as [[want|[lo hi]|want]|]; [| | |done]; subst v; cbn [nr_min nr_max].
  - destruct Ht as (-> & Ht & Hf'). by rewrite !bool_decide_false.
  - destruct Ht as [Hlo Hhi]. rewrite (split_range lo hi Hlo). cbn [fst snd].
    rewrite (parse_show_bound _ lo Hlo), (parse_show_bound _ hi Hhi). done.
  - by destruct want.
Qed.

Lemma parse_conditions_spec args acc :
  match parse_conditions args acc with
  | Ok cs => ∃ new, cs = acc ++ new ∧ Forall2 (λ a c, parse_filter_arg a = Ok c) args new
  | Err e => ∃ before arg after, args = before ++ arg :: after ∧ parse_filter_arg arg = Err e ∧
      Forall (λ a, is_ok (parse_filter_arg a) = true) before
  end.
Proof.
  revert acc. induction args as [|a args IH]; intros acc; cbn [parse_conditions].
  { exists []. by rewrite app_nil_r. }
  destruct (parse_filter_arg a) as [c|e] eqn:E; [|by exists [], a, args].
  specialize (IH (acc ++ [c])). destruct (parse_conditions args (acc ++ [c])) as [cs|e].
  - destruct IH as (new & -> & H). exists (c :: new). rewrite <- app_assoc. split; [done|by constructor].
  - destruct IH as (b & x & aft & -> & Hx & Hb). exists (a :: b), x, aft.
    split_and!; [done|done|]. constructor; [by rewrite E|done].
Qed.
End filters.

(** ** Properties *)

Section properties.
Context {FL : FloatLib}.

(** Command-line filters round-trip. Every condition the notation can express is read
    back exactly as written, in order; no arguments mean no filter; and when parsing fails
    it is at the first argument that is not a condition, with that argument's error. *)
Theorem filter_args_roundtrip (cs : list FilterCondition) (args : list string)
    (Hw : Forall writable cs) :
  parse_filter_args (show_condition <$> cs) =
    Ok (match cs with [] => None | _ => Some {| f_conditions := cs |} end) ∧
  match parse_filter_args args with
  | Ok None => args = []
  | Ok (Some f) => Forall2 (λ a c, parse_filter_arg a = Ok c) args (f_conditions f) ∧
      Forall (λ c, is_Some (fc_test c)) (f_conditions f)
  | Err e => ∃ before arg after, args = before ++ arg :: after ∧ parse_filter_arg arg = Err e ∧
      Forall (λ a, is_ok (parse_filter_arg a) = true) before
  end.
Proof.
  unfold parse_filter_args. split.
  - pose proof (parse_conditions_spec (show_condition <$> cs) []) as H.
    destruct (parse_conditions (show_condition <$> cs) []) as [new|e].
    + destruct H as (new' & -> & H). cbn [app]. assert (new' = cs) as ->; [|by destruct cs].
      rewrite Forall2_fmap_l in H. revert Hw. induction H as [|c c' l l' Hc _ IH]; intros Hw; [done|].
      apply Forall_cons in Hw as [Hw1 Hw2]. pose proof (parse_show_condition c Hw1) as Hc'.
      assert (c' = c) as -> by congruence. by rewrite IH.
    + destruct H as (b & a & aft & E & Ha & _).
      assert (a ∈ show_condition <$> cs) as (c & -> & Hc)%list_elem_of_fmap by (rewrite E; set_solver).
      rewrite Forall_forall in Hw. pose proof (parse_show_condition c (Hw c Hc)). congruence.
  - pose proof (parse_conditions_spec args []) as H. destruct (parse_conditions args []) as [cs'|e]; [|done].
    destruct H as (new & -> & H). cbn [app]. destruct new as [|c new].
    { by inversion H. }
    split; [done|]. cbn [f_conditions]. clear - H. induction H as [|a c' l l' Ha _ IH]; constructor; [|done].
    revert Ha. unfold parse_filter_arg. by repeat case_match; intros; simplify_eq/=.
Qed.
End properties.

(** ** Witnesses and examples *)

#[local] Existing Instances whole_numbers ascii_only.

Definition three_conditions : list FilterCondition :=
  [{| fc_field := "origin"; fc_test := Some (Equals "Germany") |};
   {| fc_field := "altitude"; fc_test := Some (Range {| nr_min := Some (f64_of_Z 900); nr_max := None |}) |};
   {| fc_field := "on_ground"; fc_test := Some (Is false) |}].

Lemma filter_args_roundtrip_witness :
  parse_filter_args ["origin=Germany"; "altitude=900.."; "on_ground=false"] =
    Ok (Some {| f_conditions := three_conditions |}).
Proof.
  destruct (filter_args_roundtrip three_conditions []) as [H _]; [|exact H].
  repeat constructor; discriminate.
Defined.

Example summary_ex :
  manifest_summary {| qm_shards_queried := 3; qm_shards_answered := 2;
    qm_omitted := [{| os_address := "b:1"; os_reason := "timeout" |}]; qm_deduped := 1;
    qm_freshest_observed_at := 1000; qm_stalest_observed_at := 500; qm_elapsed_ms := 12;
    qm_placement_version := 4 |} 8999 =
  "answered 2/3 shards · omitted: b:1 (timeout) · 1 cross-shard duplicates dropped · freshest 7s old · placement v4 · 12ms"%string.
Proof. vm_compute. reflexivity. Qed.

Example addrs_ex :
  coordinator_addrs (Some " a:1, ,b:2") (Some "c:3") "d:4" = ["a:1"; "b:2"]%string ∧
  coordinator_addrs None (Some " ") "d:4" = ["d:4"%string].
Proof. split; vm_compute; reflexivity. Qed.
