(* ===== verification/Federation.v ===== *)
(** * Federation: [federation/src/lib.rs]

    One query fanned out to several clusters. A cluster is asked through its coordinator;
    what each call came to within the deadline, and the order in which the calls complete,
    are inputs. *)

From S2P Require Export Fanout.

(** ** The federated search *)

Section federation.
Context {HO : HashOrder}.

(** [rpc cluster request] is what the call to a cluster came to: no connection and a
    refused call are both [Unreachable]. [order] lists the clusters as they complete. *)
Definition federate_search (rpc : string → SearchRequest → Attempt SearchResponse)
    (order clusters : list string) (request : SearchRequest) (elapsed_ms : Z) : SearchResponse :=
  let limit := Z.to_nat (sr_limit request) in
  let clusters_queried := len_u32 clusters in
  let gathered :=
    foldl (λ f cluster, collect f (query_leader cluster (rpc cluster request)))
      {| fo_responses := []; fo_omitted := [] |} order in
  let clusters_answered := len_u32 (fo_responses gathered) in
  let merged := merge_search_responses gathered limit clusters_queried 0 0 in
  let '(freshest, stalest) :=
    match sp_manifest merged with
    | Some m => (qm_freshest_observed_at m, qm_stalest_observed_at m)
    | None => (0, 0)
    end in
  {| sp_hits := sp_hits merged; sp_total_matched := sp_total_matched merged;
     sp_shard_id := "federation"; sp_shards_queried := clusters_queried;
     sp_shards_answered := clusters_answered;
     sp_manifest := Some {|
       qm_shards_queried := clusters_queried; qm_shards_answered := clusters_answered;
       qm_omitted := fo_omitted gathered;
       qm_deduped := match sp_manifest merged with Some m => qm_deduped m | None => 0 end;
       qm_freshest_observed_at := freshest; qm_stalest_observed_at := stalest;
       qm_elapsed_ms := wrap_u64 elapsed_ms; qm_placement_version := 0 |} |}.

(** ** Specification *)

(** The clusters that answer. *)
Definition answers {A} (a : Attempt A) : bool := match a with Answered _ => true | _ => false end.

Definition answering (rpc : string → SearchRequest → Attempt SearchResponse)
    (request : SearchRequest) (order : list string) : list string :=
  filter (λ c, answers (rpc c request) = true) order.

(** ** Lemmas *)

(** Keeping the best of each group and then the best of those is keeping the best of all. *)
Lemma best_of_nested {A} (l : list A) (g o : A → list SearchHit) (out : list SearchHit) :
  (∀ x, x ∈ l → best_of (g x) (o x)) → Forall scored (l ≫= g) → best_of (l ≫= o) out →
  best_of (l ≫= g) out.
Proof.
  intros Hg Hsc (Hnd & Hin & Hall). rewrite Forall_forall in Hsc.
  assert (∀ h, h ∈ l ≫= o → h ∈ l ≫= g) as Hsub.
  { intros h (x & Hh & Hx)%list_elem_of_bind. apply list_elem_of_bind. exists x.
    split; [by apply (Hg x Hx)|done]. }
  assert (∀ k, k ∈ l ≫= g → ∃ k', k' ∈ l ≫= o ∧ icao24_of k' = icao24_of k ∧
    supersedes k k' = false) as Hcov.
  { intros k (x & Hk & Hx)%list_elem_of_bind. destruct (Hg x Hx) as (_ & Hbest & Hcover).
    apply Hcover in Hk as Hk'. apply list_elem_of_fmap in Hk' as (k' & E & Hk').
    exists k'. split_and!; [apply list_elem_of_bind; eauto|done|]. by apply Hbest. }
  split_and!; [done| |].
  - intros h Hh. destruct (Hin h Hh) as [Hho Hmax]. split; [by apply Hsub|].
    intros k Hk E. destruct (Hcov k Hk) as (k' & Hk' & E' & Hsup).
    apply (not_supersedes_trans k k' h); auto. apply Hmax; [done|congruence].
  - intros k Hk. destruct (Hcov k Hk) as (k' & Hk' & E' & _). rewrite <- E'. by apply Hall.
Qed.

Lemma all_hits_bind {A} (l : list A) (g : A → list SearchResponse) :
  all_hits (l ≫= g) = l ≫= all_hits ∘ g.
Proof.
  unfold all_hits. induction l as [|x l IH]; [done|]. rewrite !bind_cons, bind_app. by f_equal.
Qed.

Lemma joined_answering rpc req order (hits : string → list SearchHit) :
  (∀ c resp, rpc c req = Answered resp → sp_hits resp = hits c) →
  all_hits (joined_responses ((λ c, query_leader c (rpc c req)) <$> order)) =
  answering rpc req order ≫= hits.
Proof.
  intros Hh. unfold all_hits, joined_responses, answering.
  induction order as [|c order IH]; [done|]. cbn [fmap list_fmap omap list_omap]. rewrite filter_cons.
  destruct (rpc c req) as [resp| | |] eqn:E; cbn [query_leader answers]; [|exact IH..].
  rewrite decide_True by done. cbn. f_equal; [by apply Hh|exact IH].
Qed.

Lemma joined_answering_length rpc req order :
  length (joined_responses ((λ c, query_leader c (rpc c req)) <$> order)) =
  length (answering rpc req order).
Proof.
  unfold joined_responses, answering. induction order as [|c order IH]; [done|].
  cbn [fmap list_fmap omap list_omap]. rewrite filter_cons.
  destruct (rpc c req); cbn; rewrite IH; done.
Qed.
(** The reply is the coordinator's merge, restamped. *)
Lemma federate_fields rpc order clusters req ms :
  let joined := (λ c, query_leader c (rpc c req)) <$> order in
  let r := federate_search rpc order clusters req ms in
  sp_hits r = sp_hits (merge_search_responses
    {| fo_responses := joined_responses joined; fo_omitted := joined_omitted joined |}
    (Z.to_nat (sr_limit req)) (len_u32 clusters) 0 0) ∧
  sp_shards_queried r = len_u32 clusters ∧
  sp_shards_answered r = len_u32 (joined_responses joined).
Proof.
  intros joined r. unfold r, federate_search. rewrite <- foldl_fmap, collect_joined. by case_match.
Qed.

Lemma truncate_limit_sublist {A} limit (l : list A) : truncate_limit limit l `sublist_of` l.
Proof. destruct (truncate_limit_prefix limit l) as [k E]. rewrite E at 2. by apply sublist_inserts_r. Qed.

Lemma Forall_sub {A} (P : A → Prop) l k : l `sublist_of` k → Forall P k → Forall P l.
Proof. intros [r Hr]%sublist_submseteq%submseteq_Permutation. rewrite Hr. by intros [? _]%Forall_app. Qed.

(** The best of several ranked lists without a common aircraft can be picked from what each
    was cut to. *)
Lemma truncate_hits_bind {A} limit (l : list A) (full : A → list SearchHit) acc :
  (∀ x, x ∈ l → ranked cmp_hits (full x)) → Forall scored (acc ++ (l ≫= full)) →
  NoDup (icao24_of <$> acc ++ (l ≫= full)) →
  truncate_limit limit (sort_by cmp_hits (acc ++ (l ≫= λ x, truncate_limit limit (full x)))) =
  truncate_limit limit (sort_by cmp_hits (acc ++ (l ≫= full))).
Proof.
  revert acc. induction l as [|x l IH]; intros acc Hr Hsc Hnd; [done|].
  rewrite !bind_cons in *. set (rest := l ≫= full) in *.
  set (cut := l ≫= λ x, truncate_limit limit (full x)).
  assert (cut `sublist_of` rest) as Hcut.
  { unfold cut, rest. clear. induction l as [|y l IH]; [done|]. rewrite !bind_cons.
    apply sublist_app; [|done]. apply truncate_limit_sublist. }
  assert (acc ++ full x ++ cut `sublist_of` acc ++ full x ++ rest) as Hsub by by repeat apply sublist_app.
  assert (acc ++ truncate_limit limit (full x) ++ cut `sublist_of` acc ++ full x ++ cut) as Hsub'.
  { apply sublist_app; [done|]. apply sublist_app; [|done]. apply truncate_limit_sublist. }
  assert (∀ k, k `sublist_of` acc ++ full x ++ rest → Forall scored k ∧ NoDup (icao24_of <$> k)) as Hk.
  { intros k Hk. split; [by eapply Forall_sub|]. eapply sublist_NoDup; [exact Hnd|]. by apply fmap_sublist. }
  destruct (Hk _ Hsub) as [Hsc1 Hnd1], (Hk _ (transitivity Hsub' Hsub)) as [Hsc2 Hnd2].
  assert (full x = sort_by cmp_hits (full x)) as Es.
  { symmetry. apply sort_by_id, Hr. left. }
  rewrite (sort_hits_ext _ (truncate_limit limit (full x) ++ (acc ++ cut)) Hsc2 Hnd2) by solve_Permutation.
  rewrite Es at 1. rewrite truncate_hits_step; [|by rewrite app_assoc, (Permutation_app_comm _ acc), <- app_assoc..].
  rewrite (sort_hits_ext _ ((acc ++ full x) ++ cut));
    [|by rewrite app_assoc, (Permutation_app_comm _ acc), <- app_assoc..|solve_Permutation].
  rewrite app_assoc in Hsc, Hnd |- *. apply IH; [|done|done]. intros y Hy. apply Hr. by right.
Qed.
End federation.

(** Merging the unlimited answers of some clusters is merging all their shards. *)
Lemma merge_flat (HO HO' : HashOrder) (HOc : string → HashOrder) (f : string → Fanout SearchResponse)
    (cs cs' : list string) (rs : list SearchResponse) om q pv ms om' q' pv' ms' :
  cs ≡ₚ cs' →
  Forall scored (cs ≫= all_hits ∘ fo_responses ∘ f) → unambiguous (cs ≫= all_hits ∘ fo_responses ∘ f) →
  all_hits rs = cs ≫= (λ c, sp_hits (@merge_search_responses (HOc c) (f c) 0 0 0 0)) →
  Forall scored (all_hits rs) ∧
  sp_hits (@merge_search_responses HO {| fo_responses := rs; fo_omitted := om |} 0 q pv ms) =
  sp_hits (@merge_search_responses HO' {| fo_responses := cs' ≫= fo_responses ∘ f; fo_omitted := om' |}
    0 q' pv' ms').
Proof.
  intros Hp Hsc Hu Hrs. set (full := λ c, _) in Hrs.
  assert (∀ c, c ∈ cs → Forall scored (all_hits (fo_responses (f c)))) as Hscc.
  { intros c Hc. rewrite Forall_forall in Hsc |- *. intros h Hh'. apply Hsc, list_elem_of_bind. eauto. }
  assert (∀ c, c ∈ cs → best_of (all_hits (fo_responses (f c))) (full c)) as Hbest
    by (intros c Hc; by apply (merge_full (HOc c) (f c) 0 0 0 (Hscc c Hc))).
  assert (Forall scored (all_hits rs)) as Hsch.
  { rewrite Hrs. apply Forall_forall. intros h (c & Hh' & Hc)%list_elem_of_bind.
    pose proof (best_of_scored _ _ (Hscc c Hc) (Hbest c Hc)) as Hs. rewrite Forall_forall in Hs. auto. }
  split; [done|].
  assert (all_hits (cs' ≫= fo_responses ∘ f) = cs' ≫= all_hits ∘ fo_responses ∘ f) as Hflat by apply all_hits_bind.
  assert (Forall scored (cs' ≫= all_hits ∘ fo_responses ∘ f)) as Hsc' by by rewrite <- Hp.
  destruct (merge_full HO {| fo_responses := rs; fo_omitted := om |} q pv ms) as [Hr Hb]; [done|].
  destruct (merge_full HO' {| fo_responses := cs' ≫= fo_responses ∘ f; fo_omitted := om' |} q' pv' ms')
    as [Hr' Hb']; [cbn [fo_responses]; by rewrite Hflat|].
  cbn [fo_responses] in Hb, Hb'. rewrite Hrs in Hb. rewrite Hflat in Hb'.
  apply (best_of_nested _ _ _ _ Hbest Hsc) in Hb.
  eapply ranked_best_unique; [exact Hsc|exact Hu|by rewrite Hp|exact Hr|exact Hb|exact Hr'|exact Hb'].
Qed.

(** ** Properties *)

(** C15: federation is flat. When every cluster answers with its own merge under the
    request's limit, the federated search returns the hits of one fan-out over the shards
    of all the clusters that answered, under that limit, whatever the hash seeds and
    completion orders of the clusters and of the federation: for a search without a limit,
    and for a limited one if no aircraft is known to two of those clusters. Coverage counts
    clusters, and exactly the clusters that did not answer are missing from it. *)
Theorem federation_flat (HO HO' : HashOrder) (HOc : string → HashOrder)
    (f : string → Fanout SearchResponse) (rpc : string → SearchRequest → Attempt SearchResponse)
    (order clusters : list string) (req : SearchRequest) (ms q pv ms' : Z)
    (omitted : list OmittedShard)
    (Hord : order ≡ₚ clusters)
    (Hlim : sr_limit req = 0 ∨
       NoDup (icao24_of <$> (answering rpc req clusters ≫=
                 λ c, sp_hits (@merge_search_responses (HOc c) (f c) 0 0 0 0))))
    (Hnet : ∀ c resp, rpc c req = Answered resp → ∃ q' pv' ms'',
       resp = @merge_search_responses (HOc c) (f c) (Z.to_nat (sr_limit req)) q' pv' ms'')
    (Hsc : Forall scored (answering rpc req clusters ≫= all_hits ∘ fo_responses ∘ f))
    (Hu : unambiguous (answering rpc req clusters ≫= all_hits ∘ fo_responses ∘ f)) :
  let r := @federate_search HO rpc order clusters req ms in
  sp_hits r = sp_hits (@merge_search_responses HO'
    {| fo_responses := answering rpc req clusters ≫= fo_responses ∘ f; fo_omitted := omitted |}
    (Z.to_nat (sr_limit req)) q pv ms') ∧
  sp_shards_queried r = len_u32 clusters ∧
  sp_shards_answered r = len_u32 (answering rpc req clusters).
Proof.
  intros r. destruct (@federate_fields HO rpc order clusters req ms) as (Eh & Eq & Ea).
  fold r in Eh, Eq, Ea. rewrite Eh, Eq, Ea. clear Eh Eq Ea. set (limit := Z.to_nat (sr_limit req)) in *.
  assert (answering rpc req order ≡ₚ answering rpc req clusters) as Hans
    by (unfold answering; by rewrite Hord).
  set (cs := answering rpc req order) in *. rewrite <- Hans in Hsc.
  assert (unambiguous (cs ≫= all_hits ∘ fo_responses ∘ f)) as Huo
    by (unfold unambiguous in *; by setoid_rewrite Hans).
  set (full := λ c, sp_hits (@merge_search_responses (HOc c) (f c) 0 0 0 0)) in *.
  assert (∀ c resp, rpc c req = Answered resp → sp_hits resp = truncate_limit limit (full c)) as Hh
    by (intros c resp (q' & pv' & ms'' & ->)%Hnet; apply merge_limited).
  split_and!; [|done|unfold len_u32; rewrite joined_answering_length; fold cs; by rewrite (Permutation_length Hans)].
  pose proof (joined_answering rpc req order _ Hh) as Hj. fold cs in Hj.
  rewrite (merge_limited HO' _ limit q pv ms' 0 0 0). destruct Hlim as [Hz|Hnd].
  - unfold limit in *. rewrite Hz in *. change (Z.to_nat 0) with 0%nat in *. rewrite truncate_limit_zero.
    eapply merge_flat; [exact Hans|done..|]. rewrite Hj. apply list_bind_ext; [|done].
    intros c. apply truncate_limit_zero.
  - assert (NoDup (icao24_of <$> (cs ≫= full))) as Hndo by by rewrite Hans.
    destruct (merge_flat HO HO' HOc f cs (answering rpc req clusters) [shard_answer (cs ≫= full)] [] 0 0 0
      omitted 0 0 0 Hans Hsc Huo) as [Hsc1 E]; [cbn; by rewrite app_nil_r|].
    assert (all_hits [shard_answer (cs ≫= full)] = cs ≫= full) as E1 by (cbn; by rewrite app_nil_r).
    rewrite E1 in Hsc1.
    assert ((cs ≫= λ c, truncate_limit limit (full c)) `sublist_of` cs ≫= full) as Hsub.
    { clear. induction cs as [|y l IH]; [done|]. rewrite !bind_cons.
      apply sublist_app; [apply truncate_limit_sublist|done]. }
    rewrite merge_distinct; cbn [fo_responses]; rewrite Hj.
    + rewrite <- E, merge_distinct; cbn [fo_responses]; rewrite E1; [|done|done].
      rewrite truncate_limit_zero. apply (truncate_hits_bind limit cs full []); [|done..].
      intros c Hc. apply merge_full.
      rewrite Forall_forall in Hsc |- *. intros h Hh'. apply Hsc, list_elem_of_bind. eauto.
    + by eapply Forall_sub.
    + eapply sublist_NoDup; [exact Hndo|]. by apply fmap_sublist.
Qed.

(** ** Witness *)

(** Two clusters, of which one holds a fresher copy of the other's aircraft. *)
Definition cluster_fanout (c : string) : Fanout SearchResponse :=
  {| fo_responses := if bool_decide (c = "east"%string) then [shard_answer [copy "a" 3 1; copy "b" 2 1]]
                     else [shard_answer [copy "a" 1 2]];
     fo_omitted := [] |}.

Definition cluster_rpc (c : string) (_ : SearchRequest) : Attempt SearchResponse :=
  if bool_decide (c = "down"%string) then TimedOut
  else Answered (@merge_search_responses canonical_order (cluster_fanout c) 0 1 0 0).

Lemma federation_flat_witness :
  icao24_of <$> sp_hits (@federate_search canonical_order cluster_rpc ["west"; "down"; "east"]%string
    ["east"; "west"; "down"]%string {| sr_query := "x"; sr_limit := 0; sr_filter := None |} 9)
  = ["b"; "a"]%string.
Proof.
  destruct (federation_flat canonical_order canonical_order (λ _, canonical_order) cluster_fanout
    cluster_rpc ["west"; "down"; "east"]%string ["east"; "west"; "down"]%string
    {| sr_query := "x"; sr_limit := 0; sr_filter := None |} 9 0 0 0 []) as [H _].
  - solve_Permutation.
  - left. reflexivity.
  - intros c resp. unfold cluster_rpc. destruct (bool_decide (c = "down"%string)); [discriminate|].
    intros [= <-]. by exists 1, 0, 0.
  - vm_compute. repeat constructor.
  - intros x y.
    change (answering _ _ _ ≫= _) with [copy "a" 3 1; copy "b" 2 1; copy "a" 1 2].
    rewrite !elem_of_cons. intros [->|[->|[->|?%elem_of_nil]]]; try done.
    all: intros [->|[->|[->|?%elem_of_nil]]]; try done.
  - refine (eq_trans (f_equal _ H) _). vm_compute. reflexivity.
Defined.

(** With a limit, an aircraft known to two clusters can be answered by its stale copy: [east]
    ranks a stale copy of [a] first, [west] cuts its fresh one behind [b], and the federation
    never sees that it was superseded. One fan-out over both would answer [b]. *)
Theorem federation_limit_diverges :
  let f c := {| fo_responses := if bool_decide (c = "east"%string) then [shard_answer [copy "a" 9 1]]
                                else [shard_answer [copy "a" 1 2; copy "b" 5 2]]; fo_omitted := [] |} in
  let req := {| sr_query := "x"; sr_limit := 1; sr_filter := None |} in
  let rpc c req := Answered (@merge_search_responses canonical_order (f c) (Z.to_nat (sr_limit req)) 1 0 0) in
  icao24_of <$> sp_hits (@federate_search canonical_order rpc ["east"; "west"]%string
    ["east"; "west"]%string req 0) = ["a"]%string ∧
  icao24_of <$> sp_hits (@merge_search_responses canonical_order
    {| fo_responses := ["east"; "west"]%string ≫= fo_responses ∘ f; fo_omitted := [] |} 1 2 0 0) = ["b"]%string.
Proof. vm_compute. split; reflexivity. Qed.
