(* ===== verification/Cluster.v ===== *)
(** * A node and its coordinators: [crates/shard-node/src/cluster.rs] and the choice of
      ownership in [crates/shard-node/src/main.rs]

    Writes fan out, reads fail over. The calls go through an interface, [ControlNet], whose
    state is everything outside the node; [live_net] implements it with the coordinator
    services themselves. Logging is left out. *)

From S2P Require Export Service Ingest Client.

(** ** The interface *)

(** [cn_connect a w] is whether one attempt to connect succeeds, [cn_sleep ms w] the world
    [ms] milliseconds later. *)
Class ControlNet (W : Type) := {
  cn_connect : string → W → bool;
  cn_sleep : Z → W → W;
  cn_register : string → RegisterNodeRequest → W → W * result RegisterNodeResponse Status;
  cn_heartbeat : string → HeartbeatRequest → W → W * result HeartbeatResponse Status;
  cn_assignments : string → W → result (list Z) Status;
}.

Inductive ClusterError :=
| ConnectFailed
| CallFailed (e : Status)
| Rejected (message : string)
| NoneAccepted.

(** ** The coordinators of a node *)

Definition coordinators_new (addrs : list string) : option (list string) :=
  match addrs with [] => None | _ => Some addrs end.

Definition coordinators_from_env `{!Unicode} (plural singular : option string) : option (list string) :=
  raw ← (match plural with Some p => Some p | None => singular end);
  coordinators_new (comma_list raw).

Section node.
Context {W : Type} {CN : ControlNet W}.

Definition first_healthy (addrs : list string) (w : W) : option string :=
  head (filter (λ a, cn_connect a w = true) addrs).

(** ** Registration *)

(** Up to [n] attempts, a quarter of a second after each failure. *)
Fixpoint connect_retry (n : nat) (addr : string) (w : W) : W * bool :=
  match n with
  | O => (w, false)
  | S n => if cn_connect addr w then (w, true) else connect_retry n addr (cn_sleep 250 w)
  end.

Definition CONNECT_ATTEMPTS : nat := 20.

Definition register_with_coordinator (addr node_id address : string) (shard_id : Z)
    (role : NodeRole) (w : W) : W * result Z ClusterError :=
  let '(w, connected) := connect_retry CONNECT_ATTEMPTS addr w in
  if connected then
    let '(w, resp) := cn_register addr
      {| rn_node_id := node_id; rn_address := address; rn_shard_id := shard_id;
         rn_role := role_to_i32 role |} w in
    (w, match resp with
        | Err e => Err (CallFailed e)
        | Ok resp =>
            if negb (rp_accepted resp) then Err (Rejected (rp_message resp))
            else Ok (rp_cluster_size resp)
        end)
  else (w, Err ConnectFailed).

Definition register_step (node_id address : string) (shard_id : Z) (role : NodeRole)
    (st : W * option Z) (addr : string) : W * option Z :=
  let '(w, cluster_size) := st in
  let '(w, r) := register_with_coordinator addr node_id address shard_id role w in
  (w, match r with Ok n => Some n | Err _ => cluster_size end).

Definition register_all (addrs : list string) (node_id address : string) (shard_id : Z)
    (role : NodeRole) (w : W) : W * result Z ClusterError :=
  let '(w, cluster_size) :=
    foldl (register_step node_id address shard_id role) (w, None) addrs in
  (w, ok_or cluster_size NoneAccepted).

(** ** Heartbeats *)

(** One coordinator's slot of a tick. [raft] is [None] in the legacy mode, else whether
    this node leads its group; the state is the world and the tracked role. *)
Definition beat (node_id address : string) (shard_id : Z) (raft : option bool)
    (st : W * NodeRole) (addr : string) : W * NodeRole :=
  let '(w, current_role) := st in
  if cn_connect addr w then
    let '(w, resp) := cn_heartbeat addr
      {| hb_node_id := node_id; hb_raft_leader := default false raft |} w in
    match resp with
    | Err _ => (w, current_role)
    | Ok resp =>
        if hr_known resp then
          (w, match raft with
              | Some _ => current_role
              | None => match role_of_i32 (hr_current_role resp) with
                        | RoleUnspecified => current_role
                        | role => role
                        end
              end)
        else
          let role := match raft with Some _ => Follower | None => current_role end in
          ((register_with_coordinator addr node_id address shard_id role w).1, current_role)
    end
  else st.

Definition heartbeat_tick (addrs : list string) (node_id address : string) (shard_id : Z)
    (raft : option bool) (st : W * NodeRole) : W * NodeRole :=
  foldl (beat node_id address shard_id raft) st addrs.

(** The loop, over its ticks: what the wait before each comes to, and the leader the group's
    metrics name then. [raft] is the node's id in its group. *)
Definition run_heartbeat (addrs : list string) (node_id address : string) (shard_id : Z)
    (initial_role : NodeRole) (raft : option Z) (ticks : list ((W → W) * option Z)) (w : W)
    : W * NodeRole :=
  foldl (λ st t, heartbeat_tick addrs node_id address shard_id
                   ((λ my_id, bool_decide (t.2 = Some my_id)) <$> raft) (t.1 st.1, st.2))
    (w, initial_role) ticks.

(** ** Ownership at startup *)

(** Up to [n] rounds of asking the first coordinator that connects. *)
Fixpoint ask_assignments (n : nat) (addrs : list string) (w : W) : W * option (list Z) :=
  match n with
  | O => (w, None)
  | S n =>
      match first_healthy addrs w with
      | Some a =>
          match cn_assignments a w with
          | Ok table => (w, match table with [] => None | _ => Some table end)
          | Err _ => ask_assignments n addrs (cn_sleep 300 w)
          end
      | None => ask_assignments n addrs (cn_sleep 300 w)
      end
  end.

Definition ASSIGNMENT_ATTEMPTS : nat := 10.

Definition startup_ownership (coordinators : option (list string)) (shard_index shard_count : Z)
    (w : W) : W * Ownership :=
  let '(w, mapped) :=
    match coordinators with
    | Some addrs => ask_assignments ASSIGNMENT_ATTEMPTS addrs w
    | None => (w, None)
    end in
  (w, match mapped with
      | Some table => Mapped shard_index table
      | None =>
          match nz_new shard_count with
          | Some count => if 1 <? shard_count
                          then Modulo {| sa_index := shard_index; sa_count := count |} else All
          | None => All
          end
      end).
End node.

(** ** The coordinators themselves *)

(** [wd_up a t] is whether the address accepts connections at time [t]. *)
Record World := {
  wd_coords : gmap string CoordinatorService;
  wd_up : string → Z → bool;
  wd_now : Z;
}.

Definition set_coord (w : World) (a : string) (co : CoordinatorService) : World :=
  {| wd_coords := <[a := co]> (wd_coords w); wd_up := wd_up w; wd_now := wd_now w |}.

Definition later (ms : Z) (w : World) : World :=
  {| wd_coords := wd_coords w; wd_up := wd_up w; wd_now := wd_now w + ms |}.

Definition gone {A} : result A Status := Err (status Unavailable "transport error").

#[export] Instance live_net {HO : HashOrder} : ControlNet World :=
  {| cn_connect a w := wd_up w a (wd_now w) && is_some (wd_coords w !! a);
     cn_sleep := later;
     cn_register a req w :=
       match wd_coords w !! a with
       | Some co => let '(co, r) := register_node co req (wd_now w) in (set_coord w a co, r)
       | None => (w, gone)
       end;
     cn_heartbeat a req w :=
       match wd_coords w !! a with
       | Some co => let '(co, r) := co_heartbeat co req (wd_now w) in (set_coord w a co, r)
       | None => (w, gone)
       end;
     cn_assignments a w :=
       match wd_coords w !! a with
       | Some co => get_v_shard_assignments co
       | None => gone
       end |}.

(** ** Specification *)

(** The node is filed, as a follower of its shard at its address, and nowhere else. *)
Record waits (r : Registry) (i : string) (shard : Z) (address : string) : Prop := {
  wt_leader : map_Forall (λ _ n, ni_node_id n ≠ i) (leaders r);
  wt_there : ∃ l n, followers r !! shard = Some l ∧ n ∈ l ∧ ni_node_id n = i;
  wt_only : ∀ s l n, followers r !! s = Some l → n ∈ l → ni_node_id n = i →
    s = shard ∧ ni_address n = address;
}.

(** The shard is routed to the node. *)
Definition routed (r : Registry) (i : string) (shard : Z) (address : string) : Prop :=
  ∃ n, leaders r !! shard = Some n ∧ ni_node_id n = i ∧ ni_address n = address.

(** The coordinator at [a] serves, and its registry satisfies [P]. *)
Definition coord_at (w : World) (a : string) (P : Registry → Prop) : Prop :=
  ∃ co, wd_coords w !! a = Some co ∧ co_poisoned co = false ∧ P (co_registry co).

(** ** Lemmas *)

Section lemmas.
Context {HO : HashOrder}.

Lemma upsert_in info l n :
  n ∈ upsert info l → n = info ∨ (n ∈ l).
Proof.
  induction l as [|m l IH]; cbn [upsert]; [rewrite list_elem_of_singleton; by left|].
  case_bool_decide; rewrite !elem_of_cons; naive_solver.
Qed.

Lemma upsert_self info l : info ∈ upsert info l.
Proof. induction l as [|m l IH]; cbn [upsert]; [by left|]. case_bool_decide; [by left|by right]. Qed.

(** A newcomer that registers as a follower waits in its shard. *)
Lemma register_waits r i shard address now :
  knows_node r i = false → shard < shard_count r →
  let r' := (register_at r {| rn_node_id := i; rn_address := address; rn_shard_id := shard;
                              rn_role := role_to_i32 Follower |} now).1 in
  waits r' i shard address.
Proof.
  intros Hk Hs. rewrite <- not_true_iff_false, knows_node_spec in Hk.
  unfold register_at. cbn [rn_shard_id rn_role rn_node_id rn_address].
  destruct (Z.leb_spec (shard_count r) shard); [lia|].
  change (role_of_i32 (role_to_i32 Follower)) with Follower. cbn [decide_rel decide fst].
  set (info := {| ni_node_id := i |}).
  match goal with |- waits ?r' _ _ _ => change r' with
    (Registry.set_map r (leaders r) (<[shard := upsert info (default [] (followers r !! shard))]> (followers r))) end.
  split; cbn [leaders followers Registry.set_map].
  - intros s n Hn E. apply Hk. left. eauto.
  - exists (upsert info (default [] (followers r !! shard))), info.
    rewrite lookup_insert_eq. split_and!; [done|apply upsert_self|done].
  - intros s l n. rewrite lookup_insert_Some. intros [[<- <-]|[Hne Hl]] Hin Hi.
    + apply upsert_in in Hin as [->|Hin]; [done|]. exfalso. apply Hk. right.
      destruct (followers r !! shard) as [l0|] eqn:E; [by eauto 6|by apply elem_of_nil in Hin].
    + exfalso. apply Hk. right. eauto 6.
Qed.

(** Where a waiting node is found. *)
Lemma waits_find r i shard address :
  waits r i shard address →
  find_leader r i = None ∧ ∃ idx l n, find_follower r i = Some (shard, idx) ∧
    followers r !! shard = Some l ∧ l !! idx = Some n ∧ ni_node_id n = i ∧ ni_address n = address.
Proof.
  intros [H1 (l0 & n0 & Hl0 & Hin0 & Hi0) H3]. split; [by apply find_leader_None|].
  destruct (find_follower r i) as [[s idx]|] eqn:E.
  - apply find_follower_Some in E as (l & n & Hl & Hn & Hi).
    assert (n ∈ l) as Hin by by eapply list_elem_of_lookup_2.
    destruct (H3 s l n Hl Hin Hi) as [-> Ha]. by exists idx, l, n.
  - apply find_follower_None in E. specialize (E _ _ Hl0). rewrite Forall_forall in E.
    by destruct (E n0 Hin0).
Qed.

Lemma heartbeat_waits r i shard address now :
  waits r i shard address →
  waits (heartbeat r i now).1 i shard address ∧ (heartbeat r i now).2 = Some Follower.
Proof.
  intros Hw. destruct (waits_find _ _ _ _ Hw) as (El & idx & l & n & Ef & Hl & Hn & Hi & Ha).
  destruct Hw as [H1 H2 H3]. unfold heartbeat. rewrite El, Ef. split; [|done]. cbn.
  assert (alter (touch now) idx l !! idx = Some (touch now n)) as Hn'
    by (rewrite list_lookup_alter_eq, Hn; done).
  split; [done|..]; cbn.
  - exists (alter (touch now) idx l), (touch now n).
    rewrite lookup_alter_eq, Hl. split_and!; [done|by eapply list_elem_of_lookup_2|done].
  - intros s l' m. rewrite lookup_alter_Some. intros [(-> & l1 & Hl1 & ->)|[Hne Hl']]; [|by apply H3].
    simplify_eq. intros (j & Hj)%list_elem_of_lookup Hm.
    destruct (decide (j = idx)) as [->|Hne]; [by simplify_eq|].
    rewrite list_lookup_alter_ne in Hj by done. eapply H3; [done|by eapply list_elem_of_lookup_2|done].
Qed.

Lemma report_routed r i shard address now :
  waits r i shard address → routed (report_raft_leader r i now).1 i shard address.
Proof.
  intros Hw. destruct (waits_find _ _ _ _ Hw) as (El & idx & l & n & Ef & Hl & Hn & Hi & Ha).
  unfold report_raft_leader. rewrite El, Ef, Hl.
  change (default [] (Some l) !! idx) with (l !! idx). rewrite Hn.
  exists (touch now (with_role Leader n)). split_and!; [apply lookup_insert_eq|done|done].
Qed.

Lemma heartbeat_unknown r i now : knows_node r i = false → heartbeat r i now = (r, None).
Proof.
  rewrite <- not_true_iff_false, knows_node_spec. intros Hk. unfold heartbeat.
  destruct (find_leader r i) as [[s n]|] eqn:E1.
  { apply find_leader_Some in E1. exfalso. apply Hk. left. eauto. }
  destruct (find_follower r i) as [[s k]|] eqn:E2; [|done].
  apply find_follower_Some in E2 as (l & n & Hl & Hn & Hi). exfalso. apply Hk. right.
  exists s, l, n. split_and!; [done|by eapply list_elem_of_lookup_2|done].
Qed.

(** *** What a slot leaves alone, and how long it takes *)

Record frame (a : string) (w w' : World) : Prop := {
  fr_coord : wd_coords w' !! a = wd_coords w !! a;
  fr_up : wd_up w' = wd_up w;
}.

#[local] Instance frame_trans a : Transitive (frame a).
Proof. intros ??? [] []. split; congruence. Qed.
#[local] Instance frame_refl a : Reflexive (frame a).
Proof. by split. Qed.

Lemma retry_frame n a b w : frame a w (connect_retry n b w).1.
Proof.
  revert w. induction n as [|n IH]; intros w; [done|]. cbn [connect_retry].
  destruct (cn_connect b w); [done|]. by etrans; [|apply IH].
Qed.

Lemma retry_time n b w : wd_now w ≤ wd_now (connect_retry n b w).1 ≤ wd_now w + 250 * Z.of_nat n.
Proof.
  revert w. induction n as [|n IH]; intros w; [cbn; lia|]. cbn [connect_retry].
  destruct (cn_connect b w); [cbn; lia|]. specialize (IH (later 250 w)). cbn in IH |- *. lia.
Qed.

Lemma register_frame a b i address shard role w :
  a ≠ b → frame a w (register_with_coordinator b i address shard role w).1.
Proof.
  intros Hne. unfold register_with_coordinator.
  pose proof (retry_frame CONNECT_ATTEMPTS a b w) as H.
  destruct (connect_retry _ _ _) as [w1 []]; [|done]. cbn [fst] in H. cbn [cn_register live_net].
  destruct (wd_coords w1 !! b) as [co|]; [|done]. destruct (register_node _ _ _) as [co' r].
  etrans; [exact H|]. split; [|done]. cbn. by rewrite lookup_insert_ne.
Qed.

Lemma register_time b i address shard role w :
  wd_now w ≤ wd_now (register_with_coordinator b i address shard role w).1 ≤ wd_now w + 5000.
Proof.
  unfold register_with_coordinator. pose proof (retry_time CONNECT_ATTEMPTS b w) as H.
  destruct (connect_retry _ _ _) as [w1 []]; [|exact H]. cbn [fst] in H. cbn [cn_register live_net].
  destruct (wd_coords w1 !! b) as [co|]; [|exact H]. by destruct (register_node _ _ _).
Qed.

Lemma beat_frame a b i address shard raft w role :
  a ≠ b → frame a w (beat i address shard raft (w, role) b).1.
Proof.
  intros Hne. cbn [beat]. destruct (cn_connect b w); [|done]. cbn [cn_heartbeat live_net].
  assert (∀ co, frame a w (set_coord w b co)) as Hset
    by (intros co; split; [cbn; by rewrite lookup_insert_ne|done]).
  destruct (wd_coords w !! b) as [co|]; [|done]. destruct (co_heartbeat _ _ _) as [co' [r|e]]; [|apply Hset].
  destruct (hr_known r); [apply Hset|]. cbn [fst].
  etrans; [apply (Hset co')|by apply register_frame].
Qed.

Lemma beat_time b i address shard raft w role :
  wd_now w ≤ wd_now (beat i address shard raft (w, role) b).1 ≤ wd_now w + 5000.
Proof.
  cbn [beat]. destruct (cn_connect b w); [|cbn; lia]. cbn [cn_heartbeat live_net].
  destruct (wd_coords w !! b) as [co|]; [|cbn; lia].
  destruct (co_heartbeat _ _ _) as [co' [r|e]]; [|cbn; lia].
  destruct (hr_known r); [cbn; lia|]. apply (register_time b i address shard _ (set_coord w b co')).
Qed.

Lemma ticks_frame a addrs i address shard raft w role :
  a ∉ addrs → frame a w (foldl (beat i address shard raft) (w, role) addrs).1.
Proof.
  revert w role. induction addrs as [|b addrs IH]; intros w role Ha; [done|]. cbn [foldl].
  apply not_elem_of_cons in Ha as [Hab Ha].
  pose proof (beat_frame a b i address shard raft w role Hab) as H.
  destruct (beat _ _ _ _ _ b) as [w1 role1]. etrans; [exact H|]. by apply IH.
Qed.

Lemma frame_coord_at a w w' P : frame a w w' → coord_at w a P → coord_at w' a P.
Proof. intros [E _] (co & H & ?). exists co. by rewrite E. Qed.

(** *** One slot *)

Lemma beat_unknown a i address shard b w role :
  (∀ t, wd_up w a t = true) →
  coord_at w a (λ r, knows_node r i = false ∧ shard < shard_count r) →
  coord_at (beat i address shard (Some b) (w, role) a).1 a (λ r, waits r i shard address).
Proof.
  intros Hup (co & Hco & Hp & Hk & Hs). cbn [beat cn_connect cn_heartbeat live_net].
  rewrite Hup, Hco. cbn [is_some andb]. unfold co_heartbeat, lock. rewrite Hp. cbn [hb_node_id].
  rewrite heartbeat_unknown by done. rewrite andb_false_r. cbn [is_some default from_option hr_known].
  assert (with_registry co (co_registry co) = co) as -> by by destruct co.
  unfold register_with_coordinator, CONNECT_ATTEMPTS. cbn [connect_retry cn_connect live_net].
  change (wd_up (set_coord w a co)) with (wd_up w). rewrite Hup.
  assert (wd_coords (set_coord w a co) !! a = Some co) as Hco' by apply lookup_insert_eq.
  rewrite Hco'. cbn [is_some andb cn_register live_net]. rewrite Hco'.
  unfold register_node, lock. rewrite Hp.
  pose proof (register_waits (co_registry co) i shard address (wd_now w) Hk Hs) as Hw.
  change (wd_now (set_coord w a co)) with (wd_now w).
  destruct (register_at _ _ _) as [r' resp].
  exists (with_registry co r'). split; [apply lookup_insert_eq|]. by split.
Qed.

Lemma beat_leads a i address shard w role :
  (∀ t, wd_up w a t = true) → coord_at w a (λ r, waits r i shard address) →
  coord_at (beat i address shard (Some true) (w, role) a).1 a (λ r, routed r i shard address).
Proof.
  intros Hup (co & Hco & Hp & Hw). cbn [beat cn_connect cn_heartbeat live_net].
  rewrite Hup, Hco. cbn [is_some andb default from_option].
  unfold co_heartbeat, lock. rewrite Hp. cbn [hb_node_id hb_raft_leader].
  destruct (heartbeat_waits _ _ _ _ (wd_now w) Hw) as [Hw' Hr].
  destruct (heartbeat (co_registry co) i (wd_now w)) as [r1 role1]. cbn [fst snd] in *. rewrite Hr.
  cbn [is_some andb]. pose proof (report_routed _ _ _ _ (wd_now w) Hw') as Hrt.
  exists (with_registry co (report_raft_leader r1 i (wd_now w)).1).
  split; [apply lookup_insert_eq|]. by split.
Qed.

(** A slot's effect on its coordinator is the tick's. *)
Lemma tick_at a addrs i address shard raft w role (P Q : Registry → Prop) :
  NoDup addrs → a ∈ addrs → (∀ t, wd_up w a t = true) →
  (∀ w role, (∀ t, wd_up w a t = true) → coord_at w a P →
     coord_at (beat i address shard raft (w, role) a).1 a Q) →
  coord_at w a P →
  coord_at (heartbeat_tick addrs i address shard raft (w, role)).1 a Q ∧
  (∀ t, wd_up (heartbeat_tick addrs i address shard raft (w, role)).1 a t = true).
Proof.
  intros Hnd (l1 & l2 & ->)%list_elem_of_split Hup Hbeat HP. apply NoDup_app in Hnd as (_ & H1 & Hnd).
  apply NoDup_cons in Hnd as [H2 _]. unfold heartbeat_tick. rewrite foldl_app. cbn [foldl].
  assert (a ∉ l1) as Ha1 by (intros Ha; apply (H1 a Ha); by left).
  pose proof (ticks_frame a l1 i address shard raft w role Ha1) as F1.
  destruct (foldl _ (w, role) l1) as [w1 role1]. cbn [fst] in F1.
  assert (∀ t, wd_up w1 a t = true) as Hup1 by (intros t; by rewrite (fr_up _ _ _ F1)).
  pose proof (Hbeat w1 role1 Hup1 (frame_coord_at _ _ _ _ F1 HP)) as HQ.
  assert (wd_up (beat i address shard raft (w1, role1) a).1 = wd_up w1) as Hupb.
  { set (c := fresh ({[a]} : gset string)).
    assert (c ≠ a) as Hc by (pose proof (is_fresh ({[a]} : gset string)); set_solver).
    exact (fr_up _ _ _ (beat_frame c a i address shard raft w1 role1 Hc)). }
  destruct (beat _ _ _ _ _ a) as [w2 role2]. cbn [fst] in *.
  pose proof (ticks_frame a l2 i address shard raft w2 role2 H2) as F2.
  split; [by eapply frame_coord_at|]. intros t. by rewrite (fr_up _ _ _ F2), Hupb.
Qed.
End lemmas.

(** ** Properties *)

(** The role a node has of itself. Under raft no coordinator's opinion moves it; in the
    legacy mode it follows them, but never back to no role at all. Over any coordinators,
    whatever they answer, and any run of the loop. *)
Theorem heartbeat_role {W : Type} {CN : ControlNet W} (addrs : list string) (node address : string)
    (shard : Z) (initial : NodeRole) (raft : option Z) (ticks : list ((W → W) * option Z)) (w : W) :
  let role := (run_heartbeat addrs node address shard initial raft ticks w).2 in
  (is_Some raft → role = initial) ∧ (initial ≠ RoleUnspecified → role ≠ RoleUnspecified).
Proof.
  assert (∀ r (st : W * NodeRole) a,
    (is_Some r → (beat node address shard r st a).2 = st.2) ∧
    (st.2 ≠ RoleUnspecified → (beat node address shard r st a).2 ≠ RoleUnspecified)) as Hbeat.
  { intros r [w1 role] a. unfold beat. destruct (cn_connect a w1); [|done].
    destruct (cn_heartbeat _ _ _) as [w2 [resp|e]]; [|done].
    destruct (hr_known resp); [|done]. cbn [snd].
    destruct r as [b|]; [done|]. split; [by intros [? ?]|]. by destruct (role_of_i32 _). }
  assert (∀ r (st : W * NodeRole),
    (is_Some r → (heartbeat_tick addrs node address shard r st).2 = st.2) ∧
    (st.2 ≠ RoleUnspecified → (heartbeat_tick addrs node address shard r st).2 ≠ RoleUnspecified)) as Htick.
  { intros r. unfold heartbeat_tick. clear - Hbeat. induction addrs as [|a l IH]; intros st; [done|]. cbn [foldl].
    destruct (Hbeat r st a) as [H1 H2], (IH (beat node address shard r st a)) as [H3 H4].
    split; [intros Hr; rewrite H3 by done; auto|auto]. }
  cbv zeta. unfold run_heartbeat. generalize w as w'. revert initial.
  induction ticks as [|t ticks IH]; intros initial w'; [done|]. cbn [foldl fst snd].
  match goal with |- context [heartbeat_tick addrs node address shard ?r ?st] =>
    destruct (Htick r st) as [H1 H2]; destruct (heartbeat_tick addrs node address shard r st) as [w2 role2] end.
  destruct (IH role2 w2) as [H3 H4]. cbn [snd] in *.
  split; [|auto]. intros Hr. rewrite H3 by done. apply H1. by apply fmap_is_Some.
Qed.

Section properties.
Context {HO : HashOrder}.

(** C16: a restarted coordinator relearns routing from heartbeats. If a reachable, healthy
    coordinator has forgotten a raft member (whatever the others in the list do), the
    member's next tick files it there as a follower of its shard, and the first tick after
    that at which the member leads its group makes that coordinator route the shard to the
    member's address; no call of an operator is needed. *)
Theorem coordinator_relearns (addrs : list string) (node address : string) (shard : Z) (a : string)
    (b : bool) (w : World) (role : NodeRole) (pause : Z)
    (Hnd : NoDup addrs) (Ha : a ∈ addrs) (Hup : ∀ t, wd_up w a t = true)
    (Hco : coord_at w a (λ r, knows_node r node = false ∧ shard < shard_count r)) :
  let '(w1, role1) := heartbeat_tick addrs node address shard (Some b) (w, role) in
  let '(w2, role2) := heartbeat_tick addrs node address shard (Some true) (later pause w1, role1) in
  coord_at w1 a (λ r, waits r node shard address) ∧
  coord_at w2 a (λ r, routed r node shard address ∧ address ∈ leader_addresses r).
Proof.
  destruct (tick_at a addrs node address shard (Some b) w role _ _ Hnd Ha Hup
    (λ w role, beat_unknown a node address shard b w role) Hco) as [H1 Hup1].
  destruct (heartbeat_tick addrs node address shard (Some b) (w, role)) as [w1 role1]. cbn [fst] in *.
  destruct (tick_at a addrs node address shard (Some true) (later pause w1) role1 _ _ Hnd Ha Hup1
    (λ w role, beat_leads a node address shard w role) H1) as [(co & Hc & Hp & Hr) _].
  destruct (heartbeat_tick addrs node address shard (Some true) (later pause w1, role1)) as [w2 role2].
  split; [exact H1|]. exists co. split_and!; [done|done|done|]. destruct Hr as (n & Hn & _ & <-).
  unfold leader_addresses. apply list_elem_of_fmap_2, elem_of_hm_values. eauto.
Qed.

(** A tick blocks for at most five seconds per coordinator: the twenty attempts to connect
    of a registration. *)
Theorem tick_bounded (addrs : list string) (node address : string) (shard : Z) (raft : option bool)
    (w : World) (role : NodeRole) :
  wd_now w ≤ wd_now (heartbeat_tick addrs node address shard raft (w, role)).1
    ≤ wd_now w + 5000 * Z.of_nat (length addrs).
Proof.
  revert w role. induction addrs as [|b addrs IH]; intros w role; [cbn; lia|].
  unfold heartbeat_tick in *. cbn [foldl length].
  pose proof (beat_time b node address shard raft w role) as Hb.
  destruct (beat _ _ _ _ _ b) as [w1 role1]. cbn [fst] in Hb. specialize (IH w1 role1). lia.
Qed.
End properties.

(** ** Witnesses *)

#[local] Existing Instances canonical_order ascii_only.

(** A coordinator that just restarted, next to one that is down. *)
Definition after_restart : World :=
  {| wd_coords := {["a:1" := co_new (configured 2 15000 4 false)]};
     wd_up := λ a _, bool_decide (a = "a:1"%string); wd_now := 0 |}.

Lemma coordinator_relearns_witness :
  let '(w1, r1) := heartbeat_tick ["b:1"; "a:1"]%string "n0" "x:9" 1 (Some true) (after_restart, Follower) in
  let '(w2, _) := heartbeat_tick ["b:1"; "a:1"]%string "n0" "x:9" 1 (Some true) (later 5000 w1, r1) in
  coord_at w2 "a:1" (λ r, routed r "n0" 1 "x:9" ∧ "x:9"%string ∈ leader_addresses r).
Proof.
  assert (NoDup ["b:1"; "a:1"]%string) as Hnd by (apply NoDup_cons; split; [set_solver|apply NoDup_singleton]).
  assert ("a:1"%string ∈ ["b:1"; "a:1"]%string) as Ha by (right; left).
  assert (coord_at after_restart "a:1" (λ r, knows_node r "n0" = false ∧ 1 < shard_count r)) as Hco.
  { exists (co_new (configured 2 15000 4 false)). repeat split. }
  pose proof (coordinator_relearns ["b:1"; "a:1"]%string "n0" "x:9" 1 "a:1" true after_restart
    Follower 5000 Hnd Ha (λ _, eq_refl) Hco) as H.
  destruct (heartbeat_tick _ _ _ _ _ (after_restart, Follower)) as [w1 r1].
  destruct (heartbeat_tick _ _ _ _ _ (later 5000 w1, r1)) as [w2 r2]. exact (proj2 H).
Defined.

Example startup_ex :
  (startup_ownership (Some ["b:1"; "a:1"]%string) 1 2 after_restart).2 = Mapped 1 [0; 1; 0; 1] ∧
  (startup_ownership None 0 1 after_restart).2 = All.
Proof. split; vm_compute; reflexivity. Qed.
