(* ===== verification/EndToEnd.v ===== *)
(** * End to end: from the feeds to the answers

    The components composed. A shard's documents reach the process that serves them by its
    own ingestion, by replication from a leader, or through the log of its raft group; a
    coordinator routes a query to the processes its registry names. Whichever way, and
    across a failover, a query answers with the latest report of every aircraft. *)

From S2P Require Export Cluster Replication ShardRaft.

(** ** Specification *)

(** How a cluster of [n] shards places documents. *)
Inductive Placement :=
| ByHash (n : NonZeroU32)
| ByTable (table : list Z).

Definition ownership_at (p : Placement) (shard : Z) : Ownership :=
  match p with
  | ByHash n => Modulo {| sa_index := shard; sa_count := n |}
  | ByTable table => Mapped shard table
  end.

Definition placement_ok (n : Z) (p : Placement) : Prop :=
  match p with
  | ByHash m => nz_get m = n
  | ByTable table => table ≠ [] ∧ Z.of_nat (length table) < 2 ^ 32 ∧ Forall (λ g, 0 ≤ g < n) table
  end.

(** The last report of an aircraft in a feed. *)
Definition latest (feed : list FlightDocument) (icao24 : string) : option FlightDocument :=
  last (filter (λ d, fd_icao24 d = icao24) feed).

(** The document is the last report of its aircraft in the feed of the shard that owns it. *)
Definition observed (n : Z) (p : Placement) (feed : Z → list FlightDocument) (d : FlightDocument)
    : Prop :=
  ∃ shard, 0 ≤ shard < n ∧ owns (ownership_at p shard) (fd_icao24 d) = true ∧
    latest (feed shard) (fd_icao24 d) = Some d.

(** The node a shard falls to: its leader while it is alive, otherwise the last live
    follower, which is promoted. *)
Definition successor (r : Registry) (now shard : Z) : option (NodeInfo * bool) :=
  let alive x := stale now (liveness_timeout r) x = false in
  match leaders r !! shard with
  | Some l => if stale now (liveness_timeout r) l
              then (λ f, (f, true)) <$> last (filter alive (default [] (followers r !! shard)))
              else Some (l, false)
  | None => (λ f, (f, true)) <$> last (filter alive (default [] (followers r !! shard)))
  end.

(** *** Ingestion through the log *)

(** The turns of a group's members in the order the group settled them. *)
Record Turn := {
  tn_leading : bool;
  tn_fetched : result (list FlightDocument) string;
  tn_accept : ShardCommand → bool;
}.

Definition turn_step (own : Ownership) (t : Turn) : LeaderStep :=
  leader_turn (tn_leading t) own (tn_fetched t) (tn_accept t).

Definition proposals (own : Ownership) (turns : list Turn) : list ShardCommand :=
  omap (λ t, match turn_step own t with Proposed cmd => Some cmd | _ => None end) turns.

(** The batches the group took over: the others are not acknowledged to anybody. *)
Definition taken (own : Ownership) (turns : list Turn) : list (list FlightDocument) :=
  omap (λ t, match turn_step own t, tn_fetched t with
             | Proposed _, Ok batch | NothingToWrite, Ok batch => Some batch
             | _, _ => None
             end) turns.

Section payloads.
Context {RT : RaftTypes}.

(** The commands of a log. *)
Definition payloads (l : list Entry) : list bytes :=
  omap (λ e, match en_payload e with Normal p => Some p | _ => None end) l.

Lemma log_effect_payloads {T} (effect : T → bytes → T) t l :
  log_effect effect t l = foldl effect t (payloads l).
Proof.
  unfold log_effect. revert t. induction l as [|e l IH]; intros t; [done|]. cbn [foldl].
  rewrite IH. unfold payloads. cbn [omap list_omap]. by destruct (en_payload e).
Qed.
End payloads.

(** *** Who keeps a feed *)

Section keeps.
Context {UC : Unicode} {FL : FloatLib} {EM : Embedder} {HN : Hnsw} {SC : ShardCodec}
  {RT : RaftTypes} {HD : HashOrder} {FC : SnapshotCodec}.

(** The process, with the hash order [HO], is up to date with what the shard owns of its
    feed: as a leader whose ingestion drained the feed, as a follower that every batch of
    such a leader reached, or as a member of a raft group that has applied the log in
    which its leaders' proposals were committed. *)
Inductive keeps (HO : HashOrder) (own : Ownership) (feed : list FlightDocument)
    (sv : ShardSearchService) : Prop :=
| keeps_leader replicate_tx polls p :
    rtc (pipe_step own replicate_tx) (pipe_start polls st_new) p → pipe_done p →
    feed = concat (batches polls) → sv_store sv = pi_store p → keeps HO own feed sv
| keeps_follower polls p fw shard_id nets fw' a :
    rtc (pipe_step own true) (pipe_start polls st_new) p → pipe_done p → lk_open (pi_link p) = true →
    feed = concat (batches polls) → all_wf fw → holds fw a ∅ →
    length nets = length (pi_forwarded p) → Forall (delivers a) nets →
    run_replication shard_id (zip (pi_forwarded p) nets) fw = Some fw' → fw' !! a = Some sv →
    keeps HO own feed sv
| keeps_member turns (L : list Entry) (sm : @StateMachineStore RT ShardApp) m :
    feed = concat (taken own turns) → NoDup (en_log_id <$> L) →
    payloads (take m L) = cmd_encode <$> proposals own turns →
    @replica RT ShardApp HD FC L HO sm → sm_last_applied sm = lid_at L m →
    sv_store sv = sm_app sm → keeps HO own feed sv.

(** What a query needs of the node a shard is routed to: it keeps the shard's feed, it is
    healthy, and it answers. *)
Definition serves (bm25_params : f64 * f64) (order : string → HashOrder)
    (shards : string → ShardSearchService) (p : Placement) (feed : Z → list FlightDocument)
    (net : Net) (req : SearchRequest) (shard : Z) (node : NodeInfo) : Prop :=
  let a := ni_address node in
  keeps (order a) (ownership_at p shard) (feed shard) (shards a) ∧
  sv_poisoned (shards a) = false ∧
  ∃ resp, net_search net a req = Answered resp ∧
    sv_search (HO := order a) bm25_params (shards a) req = Some (Ok resp) ∧
    Forall scored (sp_hits resp).

(** The node answers a query from a store that holds exactly these documents. *)
Definition holds_shard (bm25_params : f64 * f64) (order : string → HashOrder)
    (shards : string → ShardSearchService) (net : Net) (req : SearchRequest)
    (held : gmap string FlightDocument) (node : NodeInfo) : Prop :=
  let a := ni_address node in
  store_wf (HO := order a) (sv_store (shards a)) ∧ st_contents (sv_store (shards a)) = held ∧
  sv_poisoned (shards a) = false ∧
  ∃ resp, net_search net a req = Answered resp ∧
    sv_search (HO := order a) bm25_params (shards a) req = Some (Ok resp) ∧
    Forall scored (sp_hits resp).

(** ** Lemmas *)

Lemma one_owner n p k :
  placement_ok n p →
  ∃ shard, 0 ≤ shard < n ∧ ∀ j, owns (ownership_at p j) k = true ↔ j = shard.
Proof.
  destruct p as [m|table]; cbn [placement_ok ownership_at].
  - intros <-. exists (shard_for k m). split; [apply shard_for_lt|]. intros j. apply modulo_owns.
  - intros (Hne & Hlen & Hall). destruct (table_owner table k Hne Hlen) as (g & Hg & Howns).
    exists g. rewrite Forall_forall in Hall. by split; [apply Hall|].
Qed.

Lemma kept_lookup own feed k :
  insert_docs ∅ (owned own feed) !! k = if owns own k then latest feed k else None.
Proof.
  rewrite insert_docs_lookup, lookup_empty. unfold owned, latest. rewrite list_filter_filter.
  destruct (owns own k) eqn:Ho.
  - rewrite (list_filter_iff _ (λ d, fd_icao24 d = k)); [by destruct (last _)|].
    intros d. split; [tauto|]. by intros <-.
  - rewrite filter_none; [done|]. apply Forall_forall. intros d _ [Hk H]. congruence.
Qed.

Lemma proposed_effect own turns m :
  foldl command_effect m (proposals own turns) = insert_docs m (owned own (concat (taken own turns))).
Proof.
  revert m. induction turns as [|t turns IH]; intros m; [done|].
  unfold proposals, taken. cbn [omap list_omap]. fold (proposals own turns) (taken own turns).
  unfold turn_step, leader_turn. destruct (tn_leading t); cbn [negb]; [|apply IH].
  destruct (tn_fetched t) as [batch|e]; [|apply IH].
  fold (owned own batch). case_bool_decide as He.
  - cbn [concat]. unfold owned in *. rewrite filter_app, He. apply IH.
  - destruct (tn_accept t _); [|apply IH]. cbn [foldl concat]. rewrite IH. unfold owned.
    rewrite filter_app, insert_docs_app. done.
Qed.

Lemma keeps_contents HO own feed sv :
  keeps HO own feed sv →
  store_wf (HO := HO) (sv_store sv) ∧ st_contents (sv_store sv) = insert_docs ∅ (owned own feed).
Proof.
  intros [rt polls p Hrun Hd -> ->|polls p fw sid nets fw' a Hrun Hd Ho -> Hfw Ha Hlen Hnets Hr Hsv
    |turns L sm m -> Hids HL Hrep Hm ->].
  - destruct (pipe_done_contents own rt polls st_new p store_wf_new Hrun Hd) as (Hwf & Hc & _).
    by split.
  - destruct (pipe_done_contents own true polls st_new p store_wf_new Hrun Hd) as (_ & _ & _ & Hf).
    specialize (Hf Ho).
    destruct (replicated_batches a sid (pi_forwarded p) nets fw ∅ Hfw Ha Hlen Hnets)
      as (fw1 & E & Hwf & sv1 & Hsv1 & _ & Hc).
    rewrite Hr in E. injection E as <-. rewrite Hsv in Hsv1. injection Hsv1 as <-.
    split; [by apply (Hwf a)|]. by rewrite Hc, Hf, owned_concat.
  - destruct (member_contents L Hids HO sm m Hrep Hm) as [Hwf Hc]. split; [done|].
    rewrite Hc, log_effect_payloads, HL, <- proposed_effect.
    generalize (∅ : gmap string FlightDocument) (proposals own turns). clear. intros x l. revert x.
    induction l as [|cmd l IH]; intros x; [done|]. cbn [fmap list_fmap foldl].
    by rewrite cmd_roundtrip, IH.
Qed.
End keeps.

(** ** Properties *)

Section properties.
Context {UC : Unicode} {FL : FloatLib} {EM : Embedder} {HN : Hnsw} {CC : ControlCodec}
  {SC : ShardCodec} {RT : RaftTypes} {HD : HashOrder} {FC : SnapshotCodec} {HO : HashOrder}.

(** A query over leaders that each answer from what they hold for their shard, when no
    aircraft is held for two shards. *)
Lemma routed_reply (n : Z) (held : Z → gmap string FlightDocument) (bm25_params : f64 * f64)
    (order : string → HashOrder) (shards : string → ShardSearchService) (co : CoordinatorService)
    (h : option string) (req : SearchRequest) (net : Net) :
  require (co_auth co) h Read = Ok () → filter_ok (sr_filter req) → co_poisoned co = false →
  sr_limit req = 0 → (∀ l, net_order net l ≡ₚ l) →
  (∀ s, 0 ≤ s < n → is_Some (leaders (co_registry co) !! s)) →
  (∀ s l, leaders (co_registry co) !! s = Some l →
     0 ≤ s < n ∧ holds_shard bm25_params order shards net req (held s) l) →
  (∀ s s' k, 0 ≤ s < n → 0 ≤ s' < n → is_Some (held s !! k) → is_Some (held s' !! k) → s = s') →
  ∃ reply, (search co h req net).2 = Ok reply ∧ ranked cmp_hits (sp_hits reply) ∧
    NoDup (icao24_of <$> sp_hits reply) ∧
    (∀ d, (∃ hit, hit ∈ sp_hits reply ∧ sh_document hit = Some d) ↔
       (∃ s, 0 ≤ s < n ∧ held s !! fd_icao24 d = Some d) ∧
       matches (tokenize (sr_query req)) d ∧ passes d (sr_filter req) = true).
Proof.
  intros Hh Hf Hp Hlim Hord Hall Hserve Hdisj.
  assert (∀ a, a ∈ leader_addresses (co_registry co) ↔
    ∃ s l, leaders (co_registry co) !! s = Some l ∧ ni_address l = a) as Haddr.
  { intros a. unfold leader_addresses. rewrite list_elem_of_fmap. setoid_rewrite elem_of_hm_values.
    naive_solver. }
  assert (∀ d, found shards co req net d ↔ (∃ s, 0 ≤ s < n ∧ held s !! fd_icao24 d = Some d) ∧
    matches (tokenize (sr_query req)) d ∧ passes d (sr_filter req) = true) as Hfound.
  { intros d. unfold found. setoid_rewrite Haddr. split.
    - intros (a & (s & l & Hl & <-) & _ & Hd & Hm & Hpass).
      destruct (Hserve s l Hl) as (Hs & _ & Hc & _). rewrite Hc in Hd. eauto.
    - intros ((s & Hs & Hd) & Hm & Hpass). destruct (Hall s Hs) as [l Hl].
      destruct (Hserve s l Hl) as (_ & _ & Hc & _ & resp & Hresp & _).
      exists (ni_address l). split_and!; [by eexists _, _|by eexists|by rewrite Hc|done|done]. }
  destruct (search_found bm25_params order shards co h req net Hh Hf Hp Hlim Hord)
    as (reply & E & Hr & Hnd & Hin & Hcomplete).
  { intros a (s & l & Hl & <-)%Haddr. destruct (Hserve s l Hl) as (_ & Hwf & _ & Hpo & _). done. }
  { intros a resp (s & l & Hl & <-)%Haddr Hresp.
    destruct (Hserve s l Hl) as (_ & _ & _ & _ & resp' & Hresp' & Hs & Hsc).
    rewrite Hresp in Hresp'. injection Hresp' as <-. by split. }
  exists reply. split_and!; [done..|]. intros d. rewrite <- Hfound. split.
  - intros (hit & Hhit & Hd). destruct (Hin hit Hhit) as (d' & Hd' & Hfd & _). by simplify_eq.
  - intros Hfd. pose proof (Hcomplete d Hfd) as (hit & Hid & Hhit)%list_elem_of_fmap.
    destruct (Hin hit Hhit) as (d' & Hd' & Hfd' & _). exists hit. split; [done|]. rewrite Hd'. f_equal.
    unfold icao24_of in Hid. rewrite Hd' in Hid.
    apply Hfound in Hfd as ((s & Hs & Hl) & _). apply Hfound in Hfd' as ((s' & Hs' & Hl') & _).
    rewrite <- Hid in Hl'. rewrite (Hdisj s' s (fd_icao24 d)) in Hl' by eauto. congruence.
Qed.

(** A query over leaders that each serve their shard. *)
Lemma served_reply (n : Z) (p : Placement) (feed : Z → list FlightDocument) (bm25_params : f64 * f64)
    (order : string → HashOrder) (shards : string → ShardSearchService) (co : CoordinatorService)
    (h : option string) (req : SearchRequest) (net : Net) :
  require (co_auth co) h Read = Ok () → filter_ok (sr_filter req) → co_poisoned co = false →
  sr_limit req = 0 → (∀ l, net_order net l ≡ₚ l) → placement_ok n p →
  (∀ s, 0 ≤ s < n → is_Some (leaders (co_registry co) !! s)) →
  (∀ s l, leaders (co_registry co) !! s = Some l →
     0 ≤ s < n ∧ serves (HD := HD) bm25_params order shards p feed net req s l) →
  ∃ reply, (search co h req net).2 = Ok reply ∧ ranked cmp_hits (sp_hits reply) ∧
    NoDup (icao24_of <$> sp_hits reply) ∧
    (∀ d, (∃ hit, hit ∈ sp_hits reply ∧ sh_document hit = Some d) ↔
       observed n p feed d ∧ matches (tokenize (sr_query req)) d ∧ passes d (sr_filter req) = true).
Proof.
  intros Hh Hf Hp Hlim Hord Hpl Hall Hserve.
  destruct (routed_reply n (λ s, insert_docs ∅ (owned (ownership_at p s) (feed s))) bm25_params order
    shards co h req net Hh Hf Hp Hlim Hord Hall) as (reply & E & Hr & Hnd & Hin).
  - intros s l Hl. destruct (Hserve s l Hl) as (Hs & Hk & Hpo & Hans).
    destruct (keeps_contents _ _ _ _ Hk) as [Hwf Hc]. by split.
  - intros s s' k _ _ Hk Hk'. rewrite kept_lookup in Hk, Hk'.
    destruct (one_owner n p k Hpl) as (o & _ & Hone).
    destruct (owns (ownership_at p s) k) eqn:Ho; [|by destruct Hk].
    destruct (owns (ownership_at p s') k) eqn:Ho'; [|by destruct Hk'].
    apply Hone in Ho as ->. by apply Hone in Ho' as ->.
  - exists reply. split_and!; [done..|]. intros d. rewrite Hin. apply and_iff_compat_r.
    unfold observed. split; intros (s & Hs & Hd); exists s.
    + rewrite kept_lookup in Hd. by destruct (owns _ _).
    + rewrite kept_lookup. by destruct Hd as [-> Hd].
Qed.

Lemma wf_tick n v (r : Registry) now :
  registry_wf n v r → registry_wf n v (reaper_tick r now).1.1.
Proof.
  intros H. unfold reaper_tick. apply (wf_reap n v r now (liveness_timeout r)) in H.
  destruct (reap_dead r now (liveness_timeout r)) as [r1 removed].
  apply (wf_promote n v r1) in H. by destruct (promote_orphaned_shards r1).
Qed.

(** Who a shard is routed to after a tick of the reaper. *)
Lemma tick_leader (r : Registry) (now s : Z) :
  leaders (reaper_tick r now).1.1 !! s =
    match successor r now s with
    | Some (x, promoted) => Some (if promoted : bool then with_role Leader x else x)
    | None => None
    end.
Proof.
  unfold reaper_tick, successor.
  destruct (reap_dead_spec r now (liveness_timeout r)) as (Fl & Ff & _).
  destruct (reap_dead r now (liveness_timeout r)) as [r1 removed]. cbn [fst snd] in Fl, Ff.
  destruct (promote_spec r1) as (_ & _ & _ & Fp & _).
  destruct (promote_orphaned_shards r1) as [r2 promotions]. cbn [fst snd] in Fp |- *.
  rewrite Fp. unfold promotee. rewrite Fl, Ff, lookup_fmap, map_lookup_filter.
  destruct (leaders r !! s) as [l|]; cbn [mbind option_bind].
  - destruct (stale now (liveness_timeout r) l) eqn:E; cbn.
    + rewrite option_guard_False by (cbn; congruence).
      destruct (followers r !! s); cbn; [|done]. by destruct (last _).
    + by rewrite option_guard_True.
  - destruct (followers r !! s); cbn; [|done]. by destruct (last _).
Qed.

(** C1: what is ingested is found. Let every shard be routed to a node that keeps its feed,
    by ingesting it, by replication from a leader, or through its group's log, and let
    these nodes answer. Then an unlimited search that is permitted and well typed replies
    with exactly the latest reports, in the feeds of the shards that own them, of the
    aircraft whose latest report contains a query term and passes the filter: each once,
    ranked. *)
Theorem ingested_is_found (n : Z) (p : Placement) (feed : Z → list FlightDocument)
    (bm25_params : f64 * f64) (order : string → HashOrder) (shards : string → ShardSearchService)
    (co : CoordinatorService) (h : option string) (req : SearchRequest) (net : Net)
    (Hh : require (co_auth co) h Read = Ok ()) (Hf : filter_ok (sr_filter req))
    (Hp : co_poisoned co = false) (Hlim : sr_limit req = 0)
    (Hord : ∀ l, net_order net l ≡ₚ l) (Hplace : placement_ok n p)
    (Hall : ∀ s, 0 ≤ s < n → is_Some (leaders (co_registry co) !! s))
    (Hserve : ∀ s l, leaders (co_registry co) !! s = Some l →
       0 ≤ s < n ∧ serves (HD := HD) bm25_params order shards p feed net req s l) :
  ∃ reply, (search co h req net).2 = Ok reply ∧ ranked cmp_hits (sp_hits reply) ∧
    NoDup (icao24_of <$> sp_hits reply) ∧
    (∀ d, (∃ hit, hit ∈ sp_hits reply ∧ sh_document hit = Some d) ↔
       observed n p feed d ∧ matches (tokenize (sr_query req)) d ∧ passes d (sr_filter req) = true).
Proof. by eapply served_reply. Qed.

(** C2: a failover onto live copies loses nothing. Suppose every shard still has, among the
    nodes heard from within the timeout, its leader or a follower, and that the leader, or
    else the last of those followers, keeps the whole feed of the shard and answers. Then,
    whatever other nodes went silent, one tick of the reaper routes every shard to that
    node, and the very next search replies with exactly the latest report of every aircraft
    that matches. A follower that missed a batch does not keep the feed
    ([missed_batch_stays_missing]), and a shard with no live node is lost. *)
Theorem failover_loses_nothing (n : Z) (v : nat) (p : Placement) (feed : Z → list FlightDocument)
    (bm25_params : f64 * f64) (order : string → HashOrder) (shards : string → ShardSearchService)
    (co : CoordinatorService) (now : Z) (h : option string) (req : SearchRequest) (net : Net)
    (Hwf : registry_wf n v (co_registry co))
    (Hh : require (co_auth co) h Read = Ok ()) (Hf : filter_ok (sr_filter req))
    (Hp : co_poisoned co = false) (Hlim : sr_limit req = 0)
    (Hord : ∀ l, net_order net l ≡ₚ l) (Hplace : placement_ok n p)
    (Hserve : ∀ s, 0 ≤ s < n → ∃ x promoted, successor (co_registry co) now s = Some (x, promoted) ∧
       serves (HD := HD) bm25_params order shards p feed net req s x) :
  let co' := with_registry co (reaper_tick (co_registry co) now).1.1 in
  ∃ reply, (search co' h req net).2 = Ok reply ∧ ranked cmp_hits (sp_hits reply) ∧
    NoDup (icao24_of <$> sp_hits reply) ∧
    (∀ d, (∃ hit, hit ∈ sp_hits reply ∧ sh_document hit = Some d) ↔
       observed n p feed d ∧ matches (tokenize (sr_query req)) d ∧ passes d (sr_filter req) = true).
Proof.
  intros co'. apply (served_reply n p feed bm25_params order shards co'); try done.
  - intros s Hs. unfold co', with_registry. cbn [co_registry]. rewrite tick_leader.
    destruct (Hserve s Hs) as (x & b & -> & _). by eexists.
  - intros s l. unfold co', with_registry. cbn [co_registry]. intros Hl.
    assert (0 ≤ s < n) as Hs.
    { apply (wf_leaders n v _ (wf_tick n v (co_registry co) now Hwf) s l Hl). }
    split; [done|]. rewrite tick_leader in Hl. destruct (Hserve s Hs) as (x & b & E & Hx).
    rewrite E in Hl. injection Hl as <-. by destruct b.
Qed.
End properties.

(** ** Witnesses *)

#[local] Existing Instances canonical_order ascii_only whole_numbers tiny_embedder scan_graph
  stable_sort plain_control tuple_codec plain_raft plain_codec.

(** A group whose log indexes one document, and a member that applied it. *)
Definition ual1_command : ShardCommand :=
  {| sc_kind := Some (Batch {| rr_documents := [ual1]; rr_shard_id := 0 |}) |}.
Definition ual1_log : list Entry :=
  [{| en_log_id := {| lid_leader := 1 : leader_id; lid_index := 1 |};
      en_payload := Normal (cmd_encode ual1_command) |}].
Definition ual1_turn : Turn :=
  {| tn_leading := true; tn_fetched := Ok [ual1]; tn_accept := λ _, true |}.

Lemma ual1_applied :
  ∃ sm replies, @sm_apply plain_raft ShardApp canonical_order fresh_member ual1_log =
    Some (sm, replies) ∧ sm_app sm = ual1_store ∧ sm_last_applied sm = lid_at ual1_log 1.
Proof.
  eexists _, _. split.
  - unfold sm_apply, ual1_log. cbn [foldl mbind option_bind]. unfold apply_entry.
    cbn [en_payload app_apply ShardApp]. unfold shard_apply. rewrite cmd_roundtrip. reflexivity.
  - split; reflexivity.
Qed.

Definition ual1_shard (_ : string) : ShardSearchService := sv_new ual1_store "shard-0".

Definition all_answer : Net :=
  {| net_search addr req :=
       match sv_search (f64_one, f64_one) (ual1_shard addr) req with
       | Some (Ok resp) => Answered resp
       | _ => Unreachable
       end;
     net_vector _ _ := Unreachable; net_aggregate _ _ := Unreachable;
     net_order l := l; net_vector_order l := l; net_fanout_ms := 5; net_total_ms := 6 |}.

Lemma all_answer_scored a :
  ∃ resp, net_search all_answer a united = Answered resp ∧
    sv_search (f64_one, f64_one) (ual1_shard a) united = Some (Ok resp) ∧ Forall scored (sp_hits resp).
Proof.
  cbn [net_search all_answer].
  destruct (sv_search (f64_one, f64_one) (ual1_shard a) united) as [[resp|]|] eqn:E;
    [|vm_compute in E; discriminate E..].
  exists resp. split; [done|]. split; [done|]. vm_compute in E. injection E as <-. repeat constructor.
Qed.

Lemma ual1_member_keeps a : keeps canonical_order (Mapped 0 [0]) [ual1] (ual1_shard a).
Proof.
  destruct ual1_applied as (sm & replies & E & Happ & Hl).
  apply (keeps_member _ _ _ _ [ual1_turn] ual1_log sm 1).
  - reflexivity.
  - apply NoDup_singleton.
  - reflexivity.
  - eapply (@replica_apply plain_raft ShardApp canonical_order plain_codec ual1_log canonical_order
      fresh_member 0 1); [|reflexivity|exact E].
    exact (@replica_new plain_raft ShardApp canonical_order plain_codec ual1_log canonical_order).
  - exact Hl.
  - symmetry. exact Happ.
Qed.

Definition one_leader : CoordinatorService :=
  co_new (register_at (configured 1 15000 1 false) (node_request "n0" "a:1" 0) 0).1.

Lemma ual1_observed p feed :
  placement_ok 1 p → owns (ownership_at p 0) "abc123" = true → feed 0 = [ual1] → observed 1 p feed ual1.
Proof. intros Hp Ho Hf. exists 0. split; [lia|]. by rewrite Hf. Qed.

Lemma ual1_matches : matches (tokenize (sr_query united)) ual1.
Proof. apply (bool_decide_unpack _). vm_compute. exact I. Qed.

Lemma ingested_is_found_witness :
  ∃ reply hit, (search one_leader None united all_answer).2 = Ok reply ∧ hit ∈ sp_hits reply ∧
    sh_document hit = Some ual1.
Proof.
  destruct (ingested_is_found 1 (ByTable [0]) (λ _, [ual1]) (f64_one, f64_one) (λ _, canonical_order)
    ual1_shard one_leader None united all_answer eq_refl I eq_refl eq_refl (λ l, Permutation_refl l))
    as (reply & E & _ & _ & H).
  - repeat split; [discriminate|repeat constructor; discriminate].
  - intros s Hs. replace s with 0 by lia. by eexists.
  - intros s l Hl. change (({[0 := {| ni_node_id := "n0"; ni_address := "a:1"; ni_role := Leader;
      ni_last_seen := 0 |}]} : gmap Z NodeInfo) !! s = Some l) in Hl.
    apply lookup_singleton_Some in Hl as [<- <-]. split; [lia|]. split; [apply ual1_member_keeps|]. split; [reflexivity|apply all_answer_scored].
  - destruct (proj2 (H ual1)) as (hit & Hhit & Hd); [|by exists reply, hit].
    split; [by apply ual1_observed; [repeat split; [discriminate|repeat constructor; discriminate]|..]|].
    split; [apply ual1_matches|reflexivity].
Defined.

(** *** A failover *)

Definition one_shard : NonZeroU32 := exist _ 1 I.

(** The leader was last heard from at 0, its follower at 20000. *)
Definition before_failover : CoordinatorService :=
  co_new (register_at (co_registry one_leader)
    {| rn_node_id := "n1"; rn_address := "f:1"; rn_shard_id := 0; rn_role := role_to_i32 Follower |}
    20000).1.

Lemma ual1_follower_keeps a :
  keeps canonical_order (ownership_at (ByHash one_shard) 0) [ual1] (ual1_shard a).
Proof.
  set (p := {| pi_polls := []; pi_channel := []; pi_closed := true; pi_store := ual1_store;
               pi_pending := None; pi_forwarded := [[ual1]];
               pi_link := {| lk_open := true; lk_taken := 0; lk_busy := false |} |}).
  apply (keeps_follower _ _ _ _ [Ok [ual1]] p empty_follower 0 [follower_up true]
    {["f:1"%string := ual1_shard a]} "f:1").
  - eapply rtc_l; [by apply produce; [|cbn; unfold CHANNEL; lia]|].
    eapply rtc_l; [apply close|].
    eapply rtc_l; [refine (consume _ true [] [ual1] [] true st_new ual1_store (Some [ual1]) [] _ _);
                   vm_compute; reflexivity|].
    eapply rtc_l; [apply (forward _ true [] [] true _ [ual1] [] 0 false); cbn; unfold REPLICATION_CHANNEL; lia|].
    apply rtc_refl.
  - by split_and!.
  - reflexivity.
  - reflexivity.
  - apply map_Forall_singleton. exact store_wf_new.
  - exists (sv_new st_new "shard-0"). by repeat split.
  - reflexivity.
  - apply Forall_singleton. split; [|split; [by intros l|reflexivity]].
    exists ["f:1"%string]. split; [reflexivity|left].
  - vm_compute. reflexivity.
  - reflexivity.
Qed.

Lemma failover_loses_nothing_witness :
  let co := with_registry before_failover (reaper_tick (co_registry before_failover) 20001).1.1 in
  leader_addresses (co_registry co) = ["f:1"%string] ∧
  ∃ reply hit, (search co None united all_answer).2 = Ok reply ∧ hit ∈ sp_hits reply ∧
    sh_document hit = Some ual1.
Proof.
  split; [vm_compute; reflexivity|].
  assert (placement_ok 1 (ByHash one_shard)) as Hpl by reflexivity.
  destruct (failover_loses_nothing 1 1 (ByHash one_shard) (λ _, [ual1]) (f64_one, f64_one)
    (λ _, canonical_order) ual1_shard before_failover 20001 None united all_answer)
    as (reply & E & _ & _ & H).
  - apply wf_register; [apply wf_register; [|cbn; lia]|cbn; lia].
    split; [reflexivity|apply map_Forall_empty|apply map_Forall_empty|
      apply (Forall_singleton (λ g, 0 ≤ g < 1) 0); lia|reflexivity].
  - reflexivity.
  - exact I.
  - reflexivity.
  - reflexivity.
  - intros l. apply Permutation_refl.
  - exact Hpl.
  - intros s Hs. replace s with 0 by lia. eexists _, true. split; [vm_compute; reflexivity|].
    split; [apply ual1_follower_keeps|]. split; [reflexivity|apply all_answer_scored].
  - destruct (proj2 (H ual1)) as (hit & Hhit & Hd); [|by exists reply, hit].
    split; [by apply ual1_observed|]. split; [apply ual1_matches|reflexivity].
Defined.

(** *** Starting before the coordinator *)

(** Coordinators that accept connections from five seconds on, with three virtual shards
    over two groups. *)
Definition booting (now : Z) : World :=
  {| wd_coords := {["a:1" := co_new (configured 2 15000 3 false)]};
     wd_up := λ _ t, 5000 <=? t; wd_now := now |}.

(** A node that asks before the coordinators are up gives up after ten rounds and keeps the
    fixed placement for good, next to nodes that follow the table: some aircraft are then
    nobody's. *)
Theorem late_coordinator_splits_placement :
  let own shard now := (startup_ownership (Some ["a:1"%string]) shard 2 (booting now)).2 in
  own 0 10000 = Mapped 0 [0; 1; 0] ∧ own 1 10000 = Mapped 1 [0; 1; 0] ∧
  own 1 0 = Modulo {| sa_index := 1; sa_count := exist _ 2 I |} ∧
  owns (own 1 10000) "a" = true ∧ owns (own 0 10000) "a" = false ∧ owns (own 1 0) "a" = false.
Proof. split_and!; vm_compute; reflexivity. Qed.
