(* ===== verification/Restart.v ===== *)
(** * Restarts end to end

    A shard's member that crashed, opened what its disks kept ([Member]) and applied what its
    log still held serves its shard again: the recovery of [crates/consensus/src/wal.rs] and
    [storage.rs] composed with the application of [crates/shard-node/src/raft/mod.rs] and the
    coordinator's search. *)

From S2P Require Export EndToEnd Member.

Section restart.
Context {UC : Unicode} {FL : FloatLib} {EM : Embedder} {HN : Hnsw} {CC : ControlCodec}
  {SC : ShardCodec} {RT : RaftTypes} {HD : HashOrder} {FC : SnapshotCodec} {WC : WalCodec}
  {VC : VoteCodec}.

#[local] Existing Instance shard_app_laws.
#[local] Existing Instance ShardApp.

(** The log of a group in which the proposals of its leaders' turns were committed. *)
Record group_log (own : Ownership) (feed : list FlightDocument) (L : list Entry) : Prop := {
  gl_ids : NoDup (en_log_id <$> L);
  gl_index : ∀ i e, L !! i = Some e → lid_index (en_log_id e) = Z.of_nat i;
  gl_length : Z.of_nat (length L) < 2 ^ 64;
  gl_feed : ∃ turns, feed = concat (taken own turns) ∧ payloads L = cmd_encode <$> proposals own turns;
}.

(** A crash of a member that knew all of the log to be committed, after a run of [Member]'s,
    at any step of a further call on its log and of a build or an install: what it leaves on
    its disks, and what the snapshot tier holds. *)
Inductive crashed (L : list Entry) : Dir → Dir → gmap string bytes → option (option bytes) → Prop :=
| crash_at s m op wal_dir files snapshots s3 :
    member_run L s (length L) m → promised L (length L) m op →
    crash_during (mb_log m) op wal_dir files → left_behind L s m snapshots → tier L s3 →
    crashed L wal_dir files snapshots s3.

(** The process with hash order [s'] that opens those disks, reads what its log holds beyond
    its snapshot, and applies it. *)
Definition restarted (s' : seed) (L : list Entry) (wal_dir files : Dir)
    (snapshots : gmap string bytes) (s3 : option (option bytes)) (sv : ShardSearchService) : Prop :=
  ∃ removed m n entries sm replies,
    member_open s' wal_dir files snapshots s3 (WriteOk removed) = Some m ∧
    sm_last_applied (mb_sm m) = lid_at L n ∧ (n ≤ length L)%nat ∧
    wl_try_get_log_entries (mb_log m) (Included (Z.of_nat n)) (Excluded (Z.of_nat (length L)))
      = Some entries ∧
    sm_apply s' (mb_sm m) entries = Some (sm, replies) ∧ sv_store sv = sm_app sm.

(** ** Lemmas *)

Lemma reopened own feed L wal_dir files snapshots s3 (s' : seed) removed :
  group_log own feed L → crashed L wal_dir files snapshots s3 →
  ∃ m n entries sm replies,
    member_open s' wal_dir files snapshots s3 (WriteOk removed) = Some m ∧
    sm_last_applied (mb_sm m) = lid_at L n ∧ (n ≤ length L)%nat ∧
    wl_try_get_log_entries (mb_log m) (Included (Z.of_nat n)) (Excluded (Z.of_nat (length L)))
      = Some entries ∧
    sm_apply s' (mb_sm m) entries = Some (sm, replies) ∧
    replica L s' sm ∧ sm_last_applied sm = lid_at L (length L).
Proof.
  intros [Hids Hidx Hlen _] [s m op wd fs sn s3' Hrun Hk Hc Hd Ht].
  pose proof (run_ok L Hids Hidx Hlen s (length L) m Hrun) as Hok.
  destruct (crash_opens L Hids Hidx Hlen s s' (length L) m op wd fs sn s3' removed Hok Hk Hc Hd Ht)
    as (m' & n & Eo & Hr & Ha & _).
  pose proof Ha as (p & q & fl & Hn & Hp & Hle & _). rewrite Nat.max_l in Ha by lia.
  destruct (catches_up L Hids s' _ m' n Hr Ha) as (entries & sm & rs & Eg & _ & Ea & Hr' & Hl).
  exists m', n, entries, sm, rs. split_and!; try done. lia.
Qed.

Lemma restarted_keeps own feed L wal_dir files snapshots s3 (s' : seed) sv :
  group_log own feed L → crashed L wal_dir files snapshots s3 →
  restarted s' L wal_dir files snapshots s3 sv → keeps s' own feed sv.
Proof.
  intros Hg Hc (removed & m & n & entries & sm & rs & Eo & Hn & Hle & Eg & Ea & Hsv).
  pose proof Hg as [Hids _ _ (turns & Hfeed & Hpay)].
  destruct (reopened own feed L wal_dir files snapshots s3 s' removed Hg Hc)
    as (m1 & n1 & entries1 & sm1 & rs1 & Eo1 & Hn1 & Hle1 & Eg1 & Ea1 & Hr1 & Hl1).
  assert (m1 = m) as -> by congruence.
  assert (n1 = n) as -> by (apply (lid_at_eq L Hids); [lia|lia|congruence]).
  assert (entries1 = entries) as -> by congruence. assert (sm1 = sm) as -> by congruence.
  apply (keeps_member _ _ _ _ turns L sm (length L)); try done. by rewrite take_ge.
Qed.
End restart.

(** ** Properties *)

Section properties.
Context {UC : Unicode} {FL : FloatLib} {EM : Embedder} {HN : Hnsw} {CC : ControlCodec}
  {SC : ShardCodec} {RT : RaftTypes} {HD : HashOrder} {FC : SnapshotCodec} {WC : WalCodec}
  {VC : VoteCodec} {HO : HashOrder}.

(** C3: a restart of the whole cluster loses nothing, when the members' runs kept the
    conditions of [member_recovers]: purges of the oldest segments only, no pointer record
    that fills a segment, no going on from a newest segment without its checkpoint, no
    snapshot build overtaken by an apply, no failed snapshot write. Let the member that
    leads each shard's group have crashed after it knew all of its group's log to be
    committed, at any step of a call on its log and before or after the rename of a
    snapshot. Then it opens again from what its disks kept, whatever the hash order of the
    new process, and catches up from its own log; and when the leaders did, and answer, an
    unlimited search that is permitted and well typed replies with exactly the latest
    report of every matching aircraft, as before the crash. *)
Theorem restart_loses_nothing (n : Z) (p : Placement) (feed : Z → list FlightDocument)
    (L : Z → list Entry) (bm25_params : f64 * f64) (order : string → HashOrder)
    (shards : string → ShardSearchService) (co : CoordinatorService) (h : option string)
    (req : SearchRequest) (net : Net)
    (Hplace : placement_ok n p)
    (Hlog : ∀ s, 0 ≤ s < n → group_log (ownership_at p s) (feed s) (L s)) :
  (∀ s wal_dir files snapshots s3 (HO' : HashOrder) name, 0 ≤ s < n →
     crashed (HD := HD) (L s) wal_dir files snapshots s3 →
     ∃ store, restarted (HD := HD) HO' (L s) wal_dir files snapshots s3 (sv_new store name)) ∧
  (require (co_auth co) h Read = Ok () → filter_ok (sr_filter req) →
   co_poisoned co = false → sr_limit req = 0 → (∀ l, net_order net l ≡ₚ l) →
   (∀ s, 0 ≤ s < n → is_Some (leaders (co_registry co) !! s)) →
   (∀ s l, leaders (co_registry co) !! s = Some l → 0 ≤ s < n ∧
      let a := ni_address l in
      (∃ wal_dir files snapshots s3, crashed (HD := HD) (L s) wal_dir files snapshots s3 ∧
         restarted (HD := HD) (order a) (L s) wal_dir files snapshots s3 (shards a)) ∧
      sv_poisoned (shards a) = false ∧
      ∃ resp, net_search net a req = Answered resp ∧
        sv_search (HO := order a) bm25_params (shards a) req = Some (Ok resp) ∧
        Forall scored (sp_hits resp)) →
   ∃ reply, (search co h req net).2 = Ok reply ∧ ranked cmp_hits (sp_hits reply) ∧
     NoDup (icao24_of <$> sp_hits reply) ∧
     (∀ d, (∃ hit, hit ∈ sp_hits reply ∧ sh_document hit = Some d) ↔
        observed n p feed d ∧ matches (tokenize (sr_query req)) d ∧ passes d (sr_filter req) = true)).
Proof.
  split.
  - intros s wal_dir files snapshots s3 HO' name Hs Hc.
    destruct (reopened _ _ (L s) wal_dir files snapshots s3 HO' (λ _, true) (Hlog s Hs) Hc)
      as (m & k & entries & sm & rs & H1 & H2 & H3 & H4 & H5 & _).
    exists (sm_app sm), (λ _, true), m, k, entries, sm, rs. by split_and!.
  - intros Hh Hf Hp Hlim Hord Hall Hserve.
    apply (served_reply (HD := HD) n p feed bm25_params order shards); try done.
    intros s l Hl. destruct (Hserve s l Hl) as (Hs & (wd & fl & sn & s3 & Hc & Hr) & Hpo & Hans).
    split; [done|]. split; [|by split]. by apply (restarted_keeps _ _ (L s) wd fl sn s3); auto.
Qed.
End properties.

(** ** Witnesses *)

#[local] Existing Instances canonical_order ascii_only whole_numbers tiny_embedder scan_graph
  stable_sort plain_control tuple_codec plain_raft plain_codec plain_wal_codec plain_vote_codec
  shard_app_laws ShardApp.

Definition here : @seed ShardApp := canonical_order.

(** A log of one entry, whatever its payload, as a member writes and reads it. *)
Definition written (z : Z) : Entry :=
  {| en_log_id := {| lid_leader := 1 : leader_id; lid_index := 0 |}; en_payload := Normal [z] |}.

Definition written_log (z : Z) : WalLogStore := default opened (wl_append opened [written z]).

Definition empty_shard : StateMachineStore := with_dir (sm_new app_new) (Some ∅).

(** The one number the command is encoded by. *)
Definition ual1_code : Z := match cmd_encode ual1_command with [z] => z | _ => 0 end.
Definition ual1_first : Entry := written ual1_code.

Lemma first_applied :
  ∃ sm replies, sm_apply here empty_shard [ual1_first] = Some (sm, replies) ∧
    sm_app sm = ual1_store ∧ sm_last_applied sm = lid_at [ual1_first] 1 ∧ sm_dir sm = Some ∅.
Proof.
  eexists _, _. split.
  - unfold sm_apply. cbn [foldl mbind option_bind]. unfold apply_entry.
    cbn [en_payload ual1_first written app_apply ShardApp]. unfold shard_apply.
    change [ual1_code] with (cmd_encode ual1_command). rewrite cmd_roundtrip. reflexivity.
  - split; [reflexivity|split; reflexivity].
Qed.

Lemma ual1_log_of : group_log (Mapped 0 [0]) [ual1] [ual1_first].
Proof.
  split.
  - apply NoDup_singleton.
  - intros [|i] e He; [by injection He as <-|done].
  - reflexivity.
  - exists [ual1_turn]. by split.
Qed.

Lemma written_run z :
  member_run (SA := ShardApp) [written z] here 1 {| mb_log := written_log z; mb_sm := empty_shard |}.
Proof.
  apply (mr_commit (SA := ShardApp) _ here 0 1); [|reflexivity| |lia].
  - apply (mr_log (SA := ShardApp) _ here 0 {| mb_log := opened; mb_sm := empty_shard |}
      (OpAppend [written z]) (written_log z)).
    + apply (mr_start (SA := ShardApp) _ here None (λ _, true));
        [constructor|reflexivity|reflexivity|lia].
    + repeat constructor.
    + intros e i _ _ Hi. lia.
    + vm_compute. reflexivity.
  - intros i Hi. assert (i = 0)%nat as -> by lia. vm_compute. reflexivity.
Qed.

(** It died before it wrote anything of its vote: the disks are as they were. *)
Lemma written_crash z :
  crash_during (written_log z) (OpVote (1 : @vote plain_raft)) (wl_wal (written_log z)).1 ∅.
Proof.
  split; [exact I|]. exists (wl_wal (written_log z)), ∅. split; [left|].
  split; [vm_compute; reflexivity|]. split; [|apply empty_crash].
  assert ((wl_wal (written_log z)).1 = {[segment_path 0 := segment_file [REntry (written z)] []]}) as ->
    by (vm_compute; reflexivity).
  apply synced_crash.
Qed.

Lemma written_opens z :
  member_open here (wl_wal (written_log z)).1 ∅ ∅ None (WriteOk (λ _, true)) =
    Some {| mb_log := written_log z; mb_sm := empty_shard |} ∧
  wl_try_get_log_entries (written_log z) (Included 0) (Excluded 1) = Some [written z].
Proof. split; reflexivity. Qed.

Lemma ual1_crashed : crashed [ual1_first] (wl_wal (written_log ual1_code)).1 ∅ ∅ None.
Proof.
  destruct first_applied as (sm & replies & E & Happ & Hl & Hd).
  apply (crash_at _ here (with_sm {| mb_log := written_log ual1_code; mb_sm := empty_shard |} sm)
    (OpVote (1 : @vote plain_raft))).
  - eapply (mr_apply (SA := ShardApp) _ here 1 _ 0 1 sm replies); [apply written_run|reflexivity|lia|exact E].
  - exact I.
  - apply written_crash.
  - by apply left_idle.
  - constructor.
Qed.

Lemma ual1_restarted a :
  restarted here [ual1_first] (wl_wal (written_log ual1_code)).1 ∅ ∅ None (ual1_shard a).
Proof.
  destruct first_applied as (sm & replies & E & Happ & Hl & _).
  destruct (written_opens ual1_code) as [Ho Hg].
  exists (λ _, true), {| mb_log := written_log ual1_code; mb_sm := empty_shard |}, 0%nat, [ual1_first], sm, replies.
  split; [exact Ho|]. split; [reflexivity|]. split; [apply Nat.le_0_l|]. split; [exact Hg|].
  split; [exact E|]. symmetry. exact Happ.
Qed.

Lemma restart_loses_nothing_witness :
  ∃ reply hit, (search one_leader None united all_answer).2 = Ok reply ∧ hit ∈ sp_hits reply ∧
    sh_document hit = Some ual1.
Proof.
  destruct (restart_loses_nothing 1 (ByTable [0]) (λ _, [ual1]) (λ _, [ual1_first]) (f64_one, f64_one)
    (λ _, canonical_order) ual1_shard one_leader None united all_answer) as [_ H].
  - repeat split; [discriminate|repeat constructor; discriminate].
  - intros s Hs. replace s with 0 by lia. exact ual1_log_of.
  - destruct (H eq_refl I eq_refl eq_refl (λ l, Permutation_refl l)) as (reply & E & _ & _ & Hd).
    + intros s Hs. replace s with 0 by lia. by eexists.
    + intros s l Hl. change (({[0 := {| ni_node_id := "n0"; ni_address := "a:1"; ni_role := Leader;
        ni_last_seen := 0 |}]} : gmap Z NodeInfo) !! s = Some l) in Hl.
      apply lookup_singleton_Some in Hl as [<- <-]. split; [lia|]. split.
      * exists (wl_wal (written_log ual1_code)).1, ∅, ∅, None. split; [exact ual1_crashed|apply ual1_restarted].
      * split; [reflexivity|apply all_answer_scored].
    + destruct (proj2 (Hd ual1)) as (hit & Hhit & Hdoc); [|by exists reply, hit].
      split; [by apply ual1_observed; [repeat split; [discriminate|repeat constructor; discriminate]|..]|].
      split; [apply ual1_matches|reflexivity].
Defined.
