(* ===== verification/Analytics.v ===== *)
(** * Aggregates end to end

    The [Aggregate] call from the coordinator's handler
    ([crates/coordinator/src/service.rs], [agg.rs]) down to the shards' handlers
    ([crates/shard-node/src/server.rs], [agg.rs]) and the feeds they keep: the answer is that
    of one node holding the latest report of every aircraft, except while two groups hold
    the same aircraft. *)

From S2P Require Export EndToEnd.

(** ** Specification *)

Section analytics.
Context {UC : Unicode} {FL : FloatLib} {EM : Embedder} {HN : Hnsw} {CC : ControlCodec}
  {SC : ShardCodec} {RT : RaftTypes} {HD : HashOrder} {FC : SnapshotCodec} {HO : HashOrder}.

(** The documents an aggregate is about: all of them for a blank query, those with a query
    term otherwise, as far as they pass the filter. *)
Definition asked (req : AggregateRequest) (d : FlightDocument) : Prop :=
  (str_is_empty (str_trim (ar_query req)) = true ∨ matches (tokenize (ar_query req)) d) ∧
  passes d (ar_filter req) = true.

#[export] Instance asked_dec req d : Decision (asked req d).
Proof. unfold asked. apply _. Defined.

(** What a query needs of the node a shard is routed to, as for a search. *)
Definition tallies (bm25_params : f64 * f64) (order : string → HashOrder)
    (shards : string → ShardSearchService) (p : Placement) (feed : Z → list FlightDocument)
    (net : Net) (req : AggregateRequest) (shard : Z) (node : NodeInfo) : Prop :=
  let a := ni_address node in
  keeps (HD := HD) (order a) (ownership_at p shard) (feed shard) (shards a) ∧
  sv_poisoned (shards a) = false ∧
  ∃ resp, sv_aggregate (HO := order a) bm25_params (shards a) req = Some (Ok resp) ∧
    net_aggregate net a req = Answered (ag_partial resp).

(** ** Lemmas *)

(** What the shard's handler aggregates: the stored documents that are asked for. *)
Definition matched (order : HashOrder) (bm25_params : f64 * f64) (sv : ShardSearchService)
    (req : AggregateRequest) : list FlightDocument :=
  filter (λ d, passes d (ar_filter req) = true)
    (default [] (st_matching (HO := order) bm25_params (sv_store sv) (ar_query req))).

Lemma matched_asked (order : HashOrder) bm25_params sv req :
  store_wf (HO := order) (sv_store sv) →
  matched order bm25_params sv req ≡ₚ filter (asked req) (st_documents (sv_store sv)).
Proof.
  intros Hwf.
  assert (∃ docs, st_matching (HO := order) bm25_params (sv_store sv) (ar_query req) = Some docs ∧
    docs ≡ₚ filter (λ d, str_is_empty (str_trim (ar_query req)) = true ∨
                         matches (HO := order) (tokenize (ar_query req)) d) (st_documents (sv_store sv)))
    as (docs & Ed & Hd).
  { unfold st_matching. destruct (str_is_empty _).
    - eexists. split; [done|]. rewrite filter_all; [done|]. apply Forall_true. by left.
    - destruct (ix_search_docs (HO := order) bm25_params (st_keyword (sv_store sv)) (ar_query req)
        (swf_keyword _ Hwf)) as (r & E & Hp). unfold st_search. rewrite E. cbn [mbind option_bind].
      eexists. split; [done|]. rewrite Hp. apply Permutation_refl', list_filter_iff. naive_solver. }
  unfold matched. rewrite Ed. cbn [from_option id]. rewrite Hd, list_filter_filter.
  apply Permutation_refl', list_filter_iff. intros d. unfold asked. rewrite (matches_order order HO). tauto.
Qed.

Lemma sv_aggregate_matched (order : HashOrder) bm25_params sv req resp :
  sv_aggregate (HO := order) bm25_params sv req = Some (Ok resp) →
  ag_partial resp = partial (matched order bm25_params sv req) req ∧ is_Some (ag_partial resp).
Proof.
  intros H. unfold sv_aggregate in H.
  destruct (check_filter (ar_filter req)) as [[]|]; [|done].
  destruct (read_store sv) as [store|] eqn:Es; [|done].
  assert (store = sv_store sv) as -> by (unfold read_store in Es; by destruct (sv_poisoned sv); simplify_eq).
  unfold matched. destruct (st_matching _ _ _) as [docs|]; [|done]. cbn [mbind option_bind] in H.
  cbn [from_option id]. destruct (partial _ req); [|done]. by injection H as <-.
Qed.

Lemma sv_aggregate_asked (order : HashOrder) bm25_params sv req resp :
  store_wf (HO := order) (sv_store sv) → agg_kind_of_i32 (ar_kind req) ≠ AggPercentiles →
  sv_aggregate (HO := order) bm25_params sv req = Some (Ok resp) →
  ag_partial resp = Some (plain_partial req (filter (asked req) (st_documents (sv_store sv)))).
Proof.
  intros Hwf Hk H. destruct (sv_aggregate_matched _ _ _ _ _ H) as [-> _].
  rewrite partial_plain by done. f_equal. by apply plain_partial_perm, matched_asked.
Qed.

(** The fan-out when every leader answers with a partial. *)
Lemma scatter_aggregate_all rpc (partial_at : string → AggregatePartial) addrs req :
  (∀ a, a ∈ addrs → rpc a req = Answered (Some (partial_at a))) →
  scatter_aggregate rpc addrs req = (partial_at <$> addrs, []).
Proof.
  intros H. unfold scatter_aggregate. rewrite scatter_joined. cbn [fo_responses fo_omitted].
  assert (((λ a, query_leader a (rpc a req)) <$> addrs) = (λ a, Some (Ok (Some (partial_at a)))) <$> addrs)
    as ->.
  { apply list_fmap_ext. intros i a Ha. by rewrite (H a) by (by eapply list_elem_of_lookup_2). }
  unfold joined_responses, joined_omitted. clear H. f_equal; induction addrs as [|a addrs IH]; [done| |done|].
  - cbn in *. by f_equal.
  - exact IH.
Qed.

Lemma concat_fmap {A B} (f : A → list B) l : concat (f <$> l) = l ≫= f.
Proof. induction l as [|x l IH]; [done|]. cbn. by rewrite <- IH. Qed.

(** The documents the shards hold, put together: each once. *)
Lemma gathered_docs (n : Z) (p : Placement) (feed : Z → list FlightDocument) (req : AggregateRequest)
    (r : Registry) (docs_at : string → list FlightDocument) :
  placement_ok n p → (∀ s, 0 ≤ s < n → is_Some (leaders r !! s)) →
  (∀ s l, leaders r !! s = Some l → 0 ≤ s < n ∧ NoDup (docs_at (ni_address l)) ∧
     ∀ d, d ∈ docs_at (ni_address l) ↔
       insert_docs ∅ (owned (ownership_at p s) (feed s)) !! fd_icao24 d = Some d ∧ asked req d) →
  NoDup (leader_addresses r ≫= docs_at) ∧
  ∀ d, d ∈ leader_addresses r ≫= docs_at ↔ observed n p feed d ∧ asked req d.
Proof.
  intros Hpl Hall Hat. unfold leader_addresses, hm_values. rewrite !list_fmap_bind.
  assert (∀ s l d, leaders r !! s = Some l → d ∈ docs_at (ni_address l) →
    owns (ownership_at p s) (fd_icao24 d) = true) as Howned.
  { intros s l d Hl Hd. destruct (Hat s l Hl) as (_ & _ & Hin). apply Hin in Hd as [Hd _].
    rewrite kept_lookup in Hd. by destruct (owns _ _). }
  split.
  - apply NoDup_bind; [|intros [s l] Hin%elem_of_hm_order; by apply (Hat s l)|apply hm_order_NoDup].
    intros [s1 l1] [s2 l2] d H1%elem_of_hm_order H2%elem_of_hm_order Hd1 Hd2. cbn in *.
    destruct (one_owner n p (fd_icao24 d) Hpl) as (o & _ & Hone).
    pose proof (Howned s1 l1 d H1 Hd1) as ->%Hone. pose proof (Howned s2 l2 d H2 Hd2) as ->%Hone.
    congruence.
  - intros d. rewrite list_elem_of_bind. unfold observed. split.
    + intros ([s l] & Hd & Hin%elem_of_hm_order). cbn in Hd. pose proof (Howned s l d Hin Hd) as Ho.
      destruct (Hat s l Hin) as (Hs & _ & Hiff). apply Hiff in Hd as [Hd Hask].
      rewrite kept_lookup, Ho in Hd. split; [by exists s|done].
    + intros [(s & Hs & Ho & Hd) Hask]. destruct (Hall s Hs) as [l Hl]. exists (s, l).
      split; [|by apply elem_of_hm_order]. cbn. apply (Hat s l Hl). by rewrite kept_lookup, Ho.
Qed.

(** What the handler of a leader aggregates: each document of its shard that is asked for,
    once. *)
Lemma tallied_docs (p : Placement) (feed : Z → list FlightDocument)
    (bm25_params : f64 * f64) (order : HashOrder) (sv : ShardSearchService) (req : AggregateRequest)
    (s : Z) :
  keeps (HD := HD) order (ownership_at p s) (feed s) sv →
  NoDup (matched order bm25_params sv req) ∧
  ∀ d, d ∈ matched order bm25_params sv req ↔
    insert_docs ∅ (owned (ownership_at p s) (feed s)) !! fd_icao24 d = Some d ∧ asked req d.
Proof.
  intros Hkeep. destruct (keeps_contents _ _ _ _ Hkeep) as [Hwf Hc].
  destruct (documents_spec _ (swf_keyword _ Hwf)) as [Hdn Hin]. split.
  - rewrite (matched_asked _ _ _ _ Hwf). apply NoDup_filter. by apply NoDup_fmap_1 in Hdn.
  - intros d. rewrite (matched_asked _ _ _ _ Hwf), list_elem_of_filter. unfold st_documents.
    rewrite Hin, <- Hc. unfold st_contents. tauto.
Qed.
End analytics.

(** ** Properties *)

Section properties.
Context {UC : Unicode} {FL : FloatLib} {EM : Embedder} {HN : Hnsw} {CC : ControlCodec}
  {SC : ShardCodec} {RT : RaftTypes} {HD : HashOrder} {FC : SnapshotCodec} {HO : HashOrder}.

(** C6: analytics over the cluster are exact. Let every shard be routed to a node that keeps
    its feed, in whichever way, and let these nodes answer. Then every aggregate but
    percentiles, permitted and well typed, replies with exactly what one node would compute
    over the latest report of every aircraft that the query and the filter ask for, each
    counted once: the same count and the same total in every bucket, in whatever order the
    shards answered; and the manifest says that nothing is missing. *)
Theorem analytics_exact (n : Z) (p : Placement) (feed : Z → list FlightDocument)
    (bm25_params : f64 * f64) (order : string → HashOrder) (shards : string → ShardSearchService)
    (co : CoordinatorService) (h : option string) (req : AggregateRequest) (net : Net)
    (docs : list FlightDocument)
    (Hh : require (co_auth co) h Read = Ok ()) (Hf : filter_ok (ar_filter req))
    (Hp : co_poisoned co = false) (Hk : agg_kind_of_i32 (ar_kind req) ≠ AggPercentiles)
    (Hord : ∀ l, net_order net l ≡ₚ l) (Hplace : placement_ok n p)
    (Hall : ∀ s, 0 ≤ s < n → is_Some (leaders (co_registry co) !! s))
    (Hserve : ∀ s l, leaders (co_registry co) !! s = Some l →
       0 ≤ s < n ∧ tallies (HD := HD) bm25_params order shards p feed net req s l)
    (Hnd : NoDup docs) (Hdocs : ∀ d, d ∈ docs ↔ observed n p feed d ∧ asked req d) :
  ∃ merged co' reply manifest, partial docs req = Some merged ∧
    aggregate co h req net = Some (co', Ok reply) ∧ ag_partial reply = Some merged ∧
    ag_manifest reply = Some manifest ∧ qm_omitted manifest = [] ∧
    qm_shards_answered manifest = qm_shards_queried manifest.
Proof.
  set (docs_at a := filter (asked req) (st_documents (sv_store (shards a)))).
  assert (∀ s l, leaders (co_registry co) !! s = Some l →
    net_aggregate net (ni_address l) req = Answered (Some (plain_partial req (docs_at (ni_address l)))))
    as Hnet.
  { intros s l Hl. destruct (Hserve s l Hl) as (_ & Hkeep & _ & resp & Hresp & ->).
    destruct (keeps_contents _ _ _ _ Hkeep) as [Hwf _]. f_equal.
    exact (sv_aggregate_asked (order (ni_address l)) _ _ _ _ Hwf Hk Hresp). }
  destruct (gathered_docs n p feed req (co_registry co) docs_at Hplace Hall) as [Hgnd Hgin].
  { intros s l Hl. destruct (Hserve s l Hl) as (Hs & Hkeep & _).
    destruct (keeps_contents _ _ _ _ Hkeep) as [Hwf Hc].
    destruct (documents_spec _ (swf_keyword _ Hwf)) as [Hdn Hin]. split; [done|]. split.
    - apply NoDup_filter. by apply NoDup_fmap_1 in Hdn.
    - intros d. unfold docs_at. rewrite list_elem_of_filter. unfold st_documents. rewrite Hin, <- Hc.
      unfold st_contents. tauto. }
  exists (plain_partial req docs). unfold aggregate.
  rewrite (proj2 (vet_ok co h (ar_filter req) _) (conj Hh (conj Hf (conj Hp eq_refl)))).
  rewrite (scatter_aggregate_all _ (plain_partial req ∘ docs_at)).
  - rewrite list_fmap_compose, merge_plain by done. cbn [mbind option_bind].
    eexists _, _, _. split; [by apply partial_plain|]. split; [reflexivity|]. cbn [ag_partial ag_manifest].
    split; [|split; [reflexivity|]]; cbn.
    + f_equal. apply plain_partial_perm. rewrite concat_fmap, (Hord _).
      apply NoDup_Permutation; [done|done|]. intros d. by rewrite Hgin, Hdocs.
    + split; [done|]. unfold len_u32. by rewrite !length_fmap, (Hord _).
  - intros a Ha. rewrite (Hord _) in Ha. unfold leader_addresses in Ha.
    apply list_elem_of_fmap in Ha as (l & -> & (s & Hl)%elem_of_hm_values). by eapply Hnet.
Qed.

(** C7: percentiles over the cluster. Under the same conditions, a percentile request that is
    answered counts every aircraft asked for once, and its percentiles are the quantiles of
    the digest gathered from the parts of one digest per shard, where the shards' samples
    together are those of the latest reports, each once. *)
Theorem percentiles_gathered (n : Z) (p : Placement) (feed : Z → list FlightDocument)
    (bm25_params : f64 * f64) (order : string → HashOrder) (shards : string → ShardSearchService)
    (co co' : CoordinatorService) (h : option string) (req : AggregateRequest) (net : Net)
    (docs : list FlightDocument) (reply : AggregateResponse)
    (Hh : require (co_auth co) h Read = Ok ()) (Hf : filter_ok (ar_filter req))
    (Hp : co_poisoned co = false) (Hk : agg_kind_of_i32 (ar_kind req) = AggPercentiles)
    (Hord : ∀ l, net_order net l ≡ₚ l) (Hplace : placement_ok n p)
    (Hall : ∀ s, 0 ≤ s < n → is_Some (leaders (co_registry co) !! s))
    (Hserve : ∀ s l, leaders (co_registry co) !! s = Some l →
       0 ≤ s < n ∧ tallies (HD := HD) bm25_params order shards p feed net req s l)
    (Hnd : NoDup docs) (Hdocs : ∀ d, d ∈ docs ↔ observed n p feed d ∧ asked req d)
    (Hrun : aggregate co h req net = Some (co', Ok reply)) :
  ∃ held parts d, concat held ≡ₚ docs ∧
    mapM (shard_digest req) held = Some parts ∧
    td_gather parts = Some d ∧ ap_count <$> ag_partial reply = Some (len_u64 docs) ∧
    ag_percentiles reply =
      (if td_is_empty d then []
       else (λ q, {| pc_p := q; pc_value := td_quantile d (f64_div q (f64_of_Z 100)) |}) <$>
              ar_percentiles req) ∧
    qm_omitted <$> ag_manifest reply = Some [].
Proof.
  set (docs_at a := matched (order a) bm25_params (shards a) req).
  set (parts_at a := default ([], []) (shard_digest req (docs_at a))).
  set (addrs := net_order net (leader_addresses (co_registry co))).
  destruct (gathered_docs n p feed req (co_registry co) docs_at Hplace Hall) as [Hgnd Hgin].
  { intros s l Hl. destruct (Hserve s l Hl) as (Hs & Hkeep & _). split; [done|].
    unfold docs_at. exact (tallied_docs p feed bm25_params _ _ req s Hkeep). }
  assert (∀ a, a ∈ addrs → shard_digest req (docs_at a) = Some (parts_at a) ∧
    net_aggregate net a req = Answered (Some (digest_partial req (docs_at a) (parts_at a)))) as Haddr.
  { intros a Ha. unfold addrs in Ha. rewrite (Hord _) in Ha. unfold leader_addresses in Ha.
    apply list_elem_of_fmap in Ha as (l & -> & (s & Hl)%elem_of_hm_values).
    destruct (Hserve s l Hl) as (_ & _ & _ & resp & Hresp & Hn).
    destruct (sv_aggregate_matched _ _ _ _ _ Hresp) as [E [part Epart]]. rewrite Hn, Epart.
    rewrite E in Epart. fold (docs_at (ni_address l)) in Epart.
    rewrite (partial_percentiles _ _ Hk) in Epart. unfold parts_at.
    destruct (shard_digest req _) as [parts|]; [|done]. by injection Epart as <-. }
  unfold aggregate in Hrun.
  rewrite (proj2 (vet_ok co h (ar_filter req) _) (conj Hh (conj Hf (conj Hp eq_refl)))) in Hrun.
  fold addrs in Hrun.
  rewrite (scatter_aggregate_all _ (λ a, digest_partial req (docs_at a) (parts_at a))) in Hrun
    by (intros a Ha; by apply Haddr).
  assert (((λ a, digest_partial req (docs_at a) (parts_at a)) <$> addrs) =
    zip_with (digest_partial req) (docs_at <$> addrs) (parts_at <$> addrs)) as Hzip.
  { clear. induction addrs as [|a l IH]; [done|]. cbn. by f_equal. }
  rewrite Hzip, Hk, merge_percentiles in Hrun by (by rewrite !length_fmap).
  destruct (td_gather _) as [d|] eqn:Ed; [|done]. cbn [mbind option_bind] in Hrun.
  destruct (td_to_parts d) as [q|]; [|done]. cbn [mbind option_bind] in Hrun.
  injection Hrun as <- <-.
  assert (concat (docs_at <$> addrs) ≡ₚ docs) as Hperm.
  { rewrite concat_fmap. unfold addrs. rewrite (Hord _). apply NoDup_Permutation; [done|done|].
    intros x. by rewrite Hgin, Hdocs. }
  exists (docs_at <$> addrs), (parts_at <$> addrs), d. split_and!; [done| |done| |done|done].
  - apply mapM_Some, Forall2_fmap_l, Forall2_fmap_r, Forall_Forall2_diag, Forall_forall.
    intros a Ha. by apply Haddr.
  - cbn. f_equal. unfold len_u64. by rewrite Hperm.
Qed.
End properties.

(** ** Witnesses *)

#[local] Existing Instances canonical_order ascii_only whole_numbers tiny_embedder scan_graph
  stable_sort plain_control tuple_codec plain_raft plain_codec.

(** A network over which the shards' handlers answer. *)
Definition tallying (shards : string → ShardSearchService) : Net :=
  {| net_search _ _ := Unreachable; net_vector _ _ := Unreachable;
     net_aggregate addr req :=
       match sv_aggregate (f64_one, f64_one) (shards addr) req with
       | Some (Ok resp) => Answered (ag_partial resp)
       | _ => Unreachable
       end;
     net_order l := l; net_vector_order l := l; net_fanout_ms := 5; net_total_ms := 6 |}.

Lemma ual1_only req d :
  str_is_empty (str_trim (ar_query req)) = true → ar_filter req = None →
  d ∈ [ual1] ↔ observed 1 (ByTable [0]) (λ _, [ual1]) d ∧ asked req d.
Proof.
  intros Hq Hf. rewrite list_elem_of_singleton. split.
  - intros ->. split; [|split; [by left|by rewrite Hf]].
    apply ual1_observed; [repeat split; [discriminate|repeat constructor; discriminate]|reflexivity..].
  - intros [(s & _ & _ & H) _]. unfold latest in H. rewrite filter_cons in H.
    case_decide; [|done]. by injection H as <-.
Qed.

Lemma ual1_tallied req :
  (∃ resp, sv_aggregate (HO := canonical_order) (f64_one, f64_one) (ual1_shard "a:1") req = Some (Ok resp)) →
  ∀ s l, leaders (co_registry one_leader) !! s = Some l →
    0 ≤ s < 1 ∧ tallies (f64_one, f64_one) (λ _, canonical_order) ual1_shard (ByTable [0])
      (λ _, [ual1]) (tallying ual1_shard) req s l.
Proof.
  intros [resp E] s l Hl. change (({[0 := {| ni_node_id := "n0"; ni_address := "a:1"; ni_role := Leader;
    ni_last_seen := 0 |}]} : gmap Z NodeInfo) !! s = Some l) in Hl.
  apply lookup_singleton_Some in Hl as [<- <-]. split; [lia|]. split; [apply ual1_member_keeps|].
  split; [reflexivity|]. exists resp. split; [exact E|]. cbn [net_aggregate tallying].
  cbn [ni_address]. by rewrite E.
Qed.

Lemma analytics_exact_witness :
  ∃ merged co' reply, partial [ual1] type_counts = Some merged ∧
    aggregate one_leader None type_counts (tallying ual1_shard) = Some (co', Ok reply) ∧
    ag_partial reply = Some merged.
Proof.
  destruct (analytics_exact 1 (ByTable [0]) (λ _, [ual1]) (f64_one, f64_one) (λ _, canonical_order)
    ual1_shard one_leader None type_counts (tallying ual1_shard) [ual1] eq_refl I eq_refl
    ltac:(discriminate) (λ l, Permutation_refl l)) as (merged & co' & reply & mf & H1 & H2 & H3 & _).
  - repeat split; [discriminate|repeat constructor; discriminate].
  - intros s Hs. replace s with 0 by lia. by eexists.
  - apply ual1_tallied. eexists. vm_compute. reflexivity.
  - apply NoDup_singleton.
  - intros d. by apply ual1_only.
  - exists merged, co', reply. by split_and!.
Defined.

(** The median altitude of the one aircraft. *)
Lemma percentiles_gathered_witness :
  ∃ co' reply held parts d, aggregate one_leader None median_altitude (tallying ual1_shard) =
      Some (co', Ok reply) ∧
    concat held ≡ₚ [ual1] ∧ mapM (shard_digest median_altitude) held = Some parts ∧
    td_gather parts = Some d ∧
    ag_percentiles reply = [{| pc_p := f64_of_Z 50; pc_value := fd_altitude ual1 |}].
Proof.
  destruct (aggregate one_leader None median_altitude (tallying ual1_shard)) as [[co' [reply|]]|] eqn:E;
    [|vm_compute in E; discriminate E..].
  destruct (percentiles_gathered 1 (ByTable [0]) (λ _, [ual1]) (f64_one, f64_one) (λ _, canonical_order)
    ual1_shard one_leader co' None median_altitude (tallying ual1_shard) [ual1] reply eq_refl I eq_refl
    eq_refl (λ l, Permutation_refl l)) as (held & parts & d & H1 & H2 & H3 & _).
  - repeat split; [discriminate|repeat constructor; discriminate].
  - intros s Hs. replace s with 0 by lia. by eexists.
  - apply ual1_tallied. eexists. vm_compute. reflexivity.
  - apply NoDup_singleton.
  - intros x. by apply ual1_only.
  - exact E.
  - exists co', reply, held, parts, d. split_and!; try done. vm_compute in E.
    injection E as _ <-. vm_compute. reflexivity.
Defined.
