(* ===== verification/Migration.v ===== *)
(** * Moving virtual shards between groups

    [crates/coordinator/src/registry.rs] (reassignment), [crates/shard-node/src/ingest.rs]
    (ownership over a live table), [crates/shard-node/src/raft/bootstrap.rs] (leader
    ingestion) and [crates/shard-node/src/raft/eviction.rs], composed: an operator reassigns
    virtual shards while the members of every group keep ingesting and evicting, each under
    its own view of the table. A group is its log of commands; its members hold the
    documents of the log ([ShardRaft.member_contents]). *)

From stdpp Require Import functions.
From S2P Require Export Analytics.

(** ** State *)

(** What the tasks of one process have in hand: its view of the table, the batch that
    [run_leader_ingestion] filtered and waits to have written (none if empty), and what is
    left to propose of the tick its eviction watcher is in. *)
Record MemberState := {
  ms_view : list Z;
  ms_batch : list FlightDocument;
  ms_tick : list EvictVShard;
}.

(** The coordinator's registry; the processes, each a group with an id; and per group the
    commands its log committed. *)
Record Groups := {
  gs_registry : Registry;
  gs_members : gset (Z * Z);
  gs_member : Z * Z → MemberState;
  gs_log : Z → list ShardCommand;
}.

Definition docs_of (st : Groups) (g : Z) : gmap string FlightDocument :=
  foldl command_effect ∅ (gs_log st g).

Definition commit (st : Groups) (g : Z) (cmd : ShardCommand) : Groups :=
  {| gs_registry := gs_registry st; gs_members := gs_members st; gs_member := gs_member st;
     gs_log := <[g := gs_log st g ++ [cmd]]> (gs_log st) |}.

Definition set_member (st : Groups) (m : Z * Z) (s : MemberState) : Groups :=
  {| gs_registry := gs_registry st; gs_members := gs_members st;
     gs_member := <[m := s]> (gs_member st); gs_log := gs_log st |}.

Definition with_view (s : MemberState) (view : list Z) : MemberState :=
  {| ms_view := view; ms_batch := ms_batch s; ms_tick := ms_tick s |}.
Definition with_batch (s : MemberState) (batch : list FlightDocument) : MemberState :=
  {| ms_view := ms_view s; ms_batch := batch; ms_tick := ms_tick s |}.
Definition with_tick (s : MemberState) (tick : list EvictVShard) : MemberState :=
  {| ms_view := ms_view s; ms_batch := ms_batch s; ms_tick := tick |}.

(** ** Steps *)

Definition evict_command (e : EvictVShard) : ShardCommand := {| sc_kind := Some (Evict e) |}.
Definition batch_command (docs : list FlightDocument) : ShardCommand :=
  {| sc_kind := Some (Batch {| rr_documents := docs; rr_shard_id := 0 |}) |}.

(** What came of a [client_write]: the entry was committed and the caller told so; it was
    not committed; or it was, but the caller was given an error, as its leadership was lost
    while it waited. *)
Inductive outcome := Accepted | Refused | Unheard.

Definition committed (o : outcome) : bool := match o with Refused => false | _ => true end.

Definition propose (st : Groups) (g : Z) (cmd : ShardCommand) (o : outcome) : Groups :=
  if committed o then commit st g cmd else st.

(** The first half of a turn of [run_leader_ingestion]: the batch it proposes. *)
Definition turn_batch (leading : bool) (own : Ownership)
    (fetched : result (list FlightDocument) string) : list FlightDocument :=
  match leader_turn leading own fetched (λ _, true) with
  | Proposed {| sc_kind := Some (Batch b) |} => rr_documents b
  | _ => []
  end.

Section steps.
Context {HN : Hnsw}.

Inductive event :=
| Move (vshard group : Z)
| See (m : Z * Z) (answered : bool)
| Fetches (m : Z * Z) (leading : bool) (fetched : result (list FlightDocument) string)
| Writes (m : Z * Z) (o : outcome)
| Ticks (m : Z * Z) (leading : bool) (store : ShardStore)
| Evicts (m : Z * Z) (o : outcome)
| Restarts (m : Z * Z).

(** An operator moves a virtual shard. A process polls for the table; polls its source and
    filters, if it leads; has the write of that batch settled; its eviction watcher wakes
    up and decides, from the table and the store at that moment, what to evict; it has the
    next of these evictions settled, and stands down unless told that it was accepted. A
    process that starts again has nothing in hand, and the coordinator's table. *)
Definition step (st : Groups) (e : event) : Groups :=
  match e with
  | Move vshard group =>
      {| gs_registry := (reassign_vshard (gs_registry st) vshard group).1;
         gs_members := gs_members st; gs_member := gs_member st; gs_log := gs_log st |}
  | See m answered =>
      let s := gs_member st m in
      set_member st m (with_view s (Ingest.vshard_view_tick (ms_view s)
        (if answered then Some (vshard_assignments (gs_registry st)) else None)))
  | Fetches m leading fetched =>
      let s := gs_member st m in
      set_member st m (with_batch s (turn_batch leading (Mapped m.1 (ms_view s)) fetched))
  | Writes m o =>
      let s := gs_member st m in
      match ms_batch s with
      | [] => st
      | docs => set_member (propose st m.1 (batch_command docs) o) m (with_batch s [])
      end
  | Ticks m leading store =>
      let s := gs_member st m in
      set_member st m
        (with_tick s (if leading then eviction_proposals m.1 (ms_view s) store else []))
  | Evicts m o =>
      let s := gs_member st m in
      match ms_tick s with
      | [] => st
      | e :: rest => set_member (propose st m.1 (evict_command e) o) m
                       (with_tick s (match o with Accepted => rest | _ => [] end))
      end
  | Restarts m =>
      set_member st m
        {| ms_view := vshard_assignments (gs_registry st); ms_batch := []; ms_tick := [] |}
  end.

(** The process an event concerns. *)
Definition member_of (e : event) : option (Z * Z) :=
  match e with
  | Move _ _ => None
  | See m _ | Fetches m _ _ | Writes m _ | Ticks m _ _ | Evicts m _ | Restarts m => Some m
  end.

Context {UC : Unicode} {EM : Embedder}.

(** The tasks of a process are sequential: it polls its source again once the last write
    is settled, and its watcher ticks again once its last tick is over. *)
Definition event_ok (st : Groups) (e : event) : Prop :=
  match member_of e with Some m => m ∈ gs_members st | None => True end ∧
  match e with
  | Fetches m _ _ => ms_batch (gs_member st m) = []
  | Ticks m _ store =>
      (∃ HO : HashOrder, store_wf (HO := HO) store) ∧ ms_tick (gs_member st m) = []
  | _ => True
  end.

Fixpoint run_ok (st : Groups) (es : list event) : Prop :=
  match es with
  | [] => True
  | e :: es => event_ok st e ∧ run_ok (step st e) es
  end.

Definition run_events (st : Groups) (es : list event) : Groups := foldl step st es.

(** ** Specification *)

Definition moves (e : event) : bool := match e with Move _ _ => true | _ => false end.

(** What each process last got from its source and has not settled yet, as the events tell
    it, and what an event adds to what a group took over. *)
Definition in_flight (raw : Z * Z → list FlightDocument) (e : event) : Z * Z → list FlightDocument :=
  match e with
  | Fetches m leading fetched =>
      <[m := match fetched with Ok batch => if leading then batch else [] | Err _ => [] end]> raw
  | Writes m _ | Restarts m => <[m := []]> raw
  | _ => raw
  end.

Definition report (g : Z) (raw : Z * Z → list FlightDocument) (e : event) : list FlightDocument :=
  match e with
  | Writes m o => if bool_decide (m.1 = g) && committed o then raw m else []
  | _ => []
  end.

(** The reports a group took over during a run, in the order of its log. *)
Fixpoint reported (g : Z) (raw : Z * Z → list FlightDocument) (es : list event)
    : list FlightDocument :=
  match es with
  | [] => []
  | e :: es => report g raw e ++ reported g (in_flight raw e) es
  end.

Definition batches_under_way (st : Groups) (m : Z * Z) : list FlightDocument :=
  ms_batch (gs_member st m).

(** The watcher of the process is neither told of a failure nor killed. *)
Definition undisturbed (m : Z * Z) (e : event) : Prop :=
  match e with
  | Evicts m' o => m' = m → o = Accepted
  | Restarts m' => m' ≠ m
  | _ => True
  end.

(** The run has a full tick of a watcher of the group: one that leads, by a member that has
    applied all of the log, which nothing disturbs and of which nothing is left. *)
Definition evicts_fully (g : Z) (st : Groups) (es : list event) : Prop :=
  ∃ r es1 store es2 es3, es = es1 ++ Ticks (g, r) true store :: es2 ++ es3 ∧
    st_contents store = docs_of (run_events st es1) g ∧
    Forall (undisturbed (g, r)) es2 ∧
    ms_tick (gs_member (run_events st (es1 ++ Ticks (g, r) true store :: es2)) (g, r)) = [].

(** What a group holds once a table has settled: of what the table gives it, the latest
    report since, or else what it already held; and nothing else. *)
Definition settled (g : Z) (table : list Z) (before : gmap string FlightDocument)
    (feed : list FlightDocument) (k : string) : option FlightDocument :=
  if owns (Mapped g table) k
  then match latest feed k with Some d => Some d | None => before !! k end
  else None.

(** ** Lemmas *)

Lemma docs_commit st g cmd g' :
  docs_of (commit st g cmd) g' =
    if decide (g = g') then command_effect (docs_of st g) cmd else docs_of st g'.
Proof.
  unfold docs_of, commit. cbn [gs_log]. case_decide as E; [subst|].
  - by rewrite fn_lookup_insert, foldl_app.
  - by rewrite fn_lookup_insert_ne.
Qed.

Lemma docs_propose st m cmd o s g :
  docs_of (set_member (propose st m.1 cmd o) m s) g =
    if bool_decide (m.1 = g) && committed o then command_effect (docs_of st g) cmd else docs_of st g.
Proof.
  change (docs_of (propose st m.1 cmd o) g = if bool_decide (m.1 = g) && committed o
    then command_effect (docs_of st g) cmd else docs_of st g).
  unfold propose. destruct (committed o); [|by rewrite andb_false_r].
  rewrite docs_commit, andb_true_r. case_decide as E; case_bool_decide; congruence.
Qed.

Lemma turn_batch_owned leading own fetched :
  turn_batch leading own fetched =
    owned own (match fetched with Ok batch => if leading then batch else [] | Err _ => [] end).
Proof.
  unfold turn_batch, leader_turn. destruct leading; [|by destruct fetched]. cbn [negb].
  destruct fetched as [batch|]; [|done]. fold (owned own batch). by case_bool_decide.
Qed.

(** A turn whose write follows its fetch is [leader_turn]. *)
Lemma turn_uninterrupted st g r leading fetched (accept : ShardCommand → bool) :
  let own := Mapped g (ms_view (gs_member st (g, r))) in
  let docs := turn_batch leading own fetched in
  gs_log (run_events st [Fetches (g, r) leading fetched;
    Writes (g, r) (if accept (batch_command docs) then Accepted else Refused)]) g =
  gs_log st g ++
    proposals own [{| tn_leading := leading; tn_fetched := fetched; tn_accept := accept |}].
Proof.
  cbn zeta. cbn [run_events foldl step gs_member set_member]. rewrite fn_lookup_insert.
  cbn [ms_batch with_batch fst]. unfold proposals. cbn [omap list_omap]. unfold turn_step.
  cbn [tn_leading tn_fetched tn_accept]. unfold turn_batch, leader_turn.
  destruct leading; cbn [negb]; [|by rewrite app_nil_r].
  destruct fetched as [batch|]; [|by rewrite app_nil_r]. set (docs := filter _ batch).
  fold (batch_command docs). case_bool_decide as E; [by rewrite app_nil_r|].
  cbn [batch_command sc_kind rr_documents]. fold (batch_command docs).
  destruct docs as [|d docs]; [done|]. destruct (accept _); cbn.
  - by rewrite fn_lookup_insert.
  - by rewrite app_nil_r.
Qed.

(** The evictions a tick decides on are of virtual shards the table gives to others, and
    cover whatever of those the store holds. *)
Definition foreign (g : Z) (table : list Z) (e : EvictVShard) : Prop :=
  ev_v e = len_u32 table ∧ table !! Z.to_nat (ev_vshard e) ≠ Some g.

Definition covered (tick : list EvictVShard) (k : string) : Prop :=
  ∃ e n, e ∈ tick ∧ nz_new (ev_v e) = Some n ∧ vshard_for k n = ev_vshard e.

Lemma proposals_foreign g table store : Forall (foreign g table) (eviction_proposals g table store).
Proof.
  unfold eviction_proposals. destruct (_ =? 0); [constructor|]. apply Forall_fmap, Forall_forall.
  by intros x [Hx _]%list_elem_of_filter.
Qed.

Lemma proposals_cover {HO : HashOrder} g table store k :
  store_wf store → table ≠ [] → Z.of_nat (length table) < 2 ^ 32 →
  is_Some (st_contents store !! k) → owns (Mapped g table) k = false →
  covered (eviction_proposals g table store) k.
Proof.
  intros Hwf Hne Hlen [d Hd] Ho.
  assert (len_u32 table = Z.of_nat (length table)) as Hl.
  { unfold len_u32, wrap_u32. apply Z.mod_small. lia. }
  assert (1 ≤ len_u32 table < 2 ^ 32) as Hr by (destruct table; [done|]; cbn [length] in *; lia).
  destruct (nz_new_Some (len_u32 table) Hr) as (v & Hv & _).
  exists {| ev_vshard := vshard_for k v; ev_v := len_u32 table |}, v. split_and!; [|done|done].
  unfold eviction_proposals. destruct (Z.eqb_spec (len_u32 table) 0); [lia|].
  apply (list_elem_of_fmap_2 (λ vshard, {| ev_vshard := vshard; ev_v := len_u32 table |})).
  apply list_elem_of_filter. cbn [owns] in Ho. rewrite Hv in Ho.
  split; [by apply bool_decide_eq_false_1 in Ho|]. apply elem_of_bs_iter. unfold held_vshards.
  rewrite Hv. apply elem_of_list_to_set, list_elem_of_fmap. exists d.
  pose proof (contents_key _ _ _ (swf_keyword _ Hwf) Hd) as <-. split; [done|].
  by apply (documents_spec _ (swf_keyword _ Hwf)).
Qed.

(** What a foreign eviction does. *)
Lemma evicted_foreign g table e (m : gmap string FlightDocument) k :
  foreign g table e →
  (owns (Mapped g table) k = true → evicted (ev_vshard e) (ev_v e) m !! k = m !! k) ∧
  (∀ d, evicted (ev_vshard e) (ev_v e) m !! k = Some d → m !! k = Some d) ∧
  (covered [e] k → evicted (ev_vshard e) (ev_v e) m !! k = None).
Proof.
  intros [Hv Hn]. unfold evicted. destruct (nz_new (ev_v e)) as [n|] eqn:En; [split_and!|split_and!; try done].
  - cbn [owns]. rewrite <- Hv, En. intros Ho%bool_decide_eq_true_1. apply option_eq. intros d.
    rewrite map_lookup_filter_Some. split; [tauto|]. intros Hd. split; [done|]. cbn. intros E.
    rewrite E in Ho. done.
  - intros d [Hd _]%map_lookup_filter_Some. done.
  - intros (e' & n' & ->%list_elem_of_singleton & En' & Hk). rewrite En in En'. injection En' as <-.
    apply map_lookup_filter_None. right. intros d _. cbn. by intros [].
  - intros (e' & n' & ->%list_elem_of_singleton & En' & _). congruence.
Qed.

(** A tick that nothing interrupts is [eviction_tick]. *)
Lemma evict_run g r (accept : EvictVShard → bool) l st :
  ms_tick (gs_member st (g, r)) = l →
  let st' := run_events st
    ((λ e, Evicts (g, r) (if accept e then Accepted else Refused)) <$> l) in
  gs_log st' g = gs_log st g ++ (evict_command <$> take_accepted accept l) ∧
  ms_tick (gs_member st' (g, r)) = [].
Proof.
  revert st. induction l as [|e l IH]; intros st E; [by cbn; rewrite app_nil_r|]. cbn zeta.
  rewrite fmap_cons. cbn [run_events foldl step take_accepted]. rewrite E.
  set (st1 := set_member _ _ _). fold (run_events st1
    ((λ e, Evicts (g, r) (if accept e then Accepted else Refused)) <$> l)).
  destruct (accept e) eqn:Ea.
  - destruct (IH st1) as [H1 H2]; [unfold st1; cbn; by rewrite fn_lookup_insert|].
    split; [|exact H2]. rewrite H1. unfold st1. cbn. by rewrite fn_lookup_insert, <- app_assoc.
  - assert (∀ l st', ms_tick (gs_member st' (g, r)) = [] → run_events st'
      ((λ e, Evicts (g, r) (if accept e then Accepted else Refused)) <$> l) = st') as Hidle.
    { clear. intros l. induction l as [|e l IH]; intros st' E; [done|]. cbn. rewrite E. by apply IH. }
    rewrite Hidle by (unfold st1; cbn; by rewrite fn_lookup_insert). unfold st1. cbn.
    by rewrite app_nil_r, fn_lookup_insert.
Qed.

Lemma tick_uninterrupted st g r leading store (accept : EvictVShard → bool) :
  let table := ms_view (gs_member st (g, r)) in
  let es := Ticks (g, r) leading store ::
    ((λ e, Evicts (g, r) (if accept e then Accepted else Refused)) <$>
       (if leading then eviction_proposals g table store else [])) in
  gs_log (run_events st es) g =
    gs_log st g ++ (evict_command <$> eviction_tick leading g table store accept) ∧
  ms_tick (gs_member (run_events st es) (g, r)) = [].
Proof.
  cbn zeta. change (run_events st (?e :: ?es)) with (run_events (step st e) es).
  set (tick := if leading then _ else _).
  destruct (evict_run g r accept tick (step st (Ticks (g, r) leading store))) as [H1 H2].
  { cbn. by rewrite fn_lookup_insert. }
  split; [|exact H2]. rewrite H1. unfold tick, eviction_tick. by destruct leading.
Qed.

Lemma step_other st e m : member_of e ≠ Some m → gs_member (step st e) m = gs_member st m.
Proof.
  intros Hm. destruct e as [vs h|h b|h l f|h o|h l s|h o|h]; cbn [member_of step] in *;
    try done; try (cbn; by rewrite fn_lookup_insert_ne by congruence).
  - destruct (ms_batch _); [done|]. cbn. rewrite fn_lookup_insert_ne by congruence.
    unfold propose. by destruct (committed o).
  - destruct (ms_tick _); [done|]. cbn. rewrite fn_lookup_insert_ne by congruence.
    unfold propose. by destruct (committed o).
Qed.

Lemma step_members st e : gs_members (step st e) = gs_members st.
Proof.
  destruct e as [| | |h o| |h o|]; try done; cbn [step].
  - destruct (ms_batch _); [done|]. cbn. unfold propose. by destruct (committed o).
  - destruct (ms_tick _); [done|]. cbn. unfold propose. by destruct (committed o).
Qed.

(** Only moves change the registry. *)
Lemma step_registry st e : moves e = false → gs_registry (step st e) = gs_registry st.
Proof.
  intros Hm. destruct e as [| | |h o| |h o|]; try done; cbn [step].
  - destruct (ms_batch _); [done|]. cbn. unfold propose. by destruct (committed o).
  - destruct (ms_tick _); [done|]. cbn. unfold propose. by destruct (committed o).
Qed.

Lemma latest_app l k key :
  latest (l ++ k) key = match latest k key with Some d => Some d | None => latest l key end.
Proof. unfold latest. rewrite filter_app, last_app. by destruct (last (filter _ k)). Qed.

Lemma owned_lookup m own feed k :
  insert_docs m (owned own feed) !! k =
    if owns own k then match latest feed k with Some d => Some d | None => m !! k end else m !! k.
Proof.
  rewrite insert_docs_lookup. unfold owned, latest. rewrite list_filter_filter.
  destruct (owns own k) eqn:Ho.
  - rewrite (list_filter_iff _ (λ d, fd_icao24 d = k)); [done|].
    intros d. split; [tauto|]. by intros <-.
  - rewrite filter_none; [done|]. apply Forall_forall. intros d _ [Hk H]. congruence.
Qed.

Lemma batch_effect m docs : command_effect m (batch_command docs) = insert_docs m docs.
Proof. done. Qed.

(** *** A settled table *)

Section settled.
Context (table : list Z) (Hne : table ≠ []) (Hlen : Z.of_nat (length table) < 2 ^ 32).

(** What a process has in hand agrees with the table. *)
Record agrees (g : Z) (s : MemberState) : Prop := {
  ag_view : ms_view s = table;
  ag_batch : owned (Mapped g table) (ms_batch s) = ms_batch s;
  ag_tick : Forall (foreign g table) (ms_tick s);
}.

(** The registry and all processes of the group agree with the table. *)
Record tidy (g : Z) (st : Groups) : Prop := {
  ti_table : vshards (gs_registry st) = table;
  ti_member : ∀ r, (g, r) ∈ gs_members st → agrees g (gs_member st (g, r));
}.

Lemma owned_twice own docs : owned own (owned own docs) = owned own docs.
Proof. apply filter_all, Forall_forall. by intros d [Hd _]%list_elem_of_filter. Qed.

Lemma tidy_step g st e : tidy g st → event_ok st e → moves e = false → tidy g (step st e).
Proof.
  intros [Ht Hs] [Hin _] Hm. split; [by rewrite step_registry|]. intros r Hr.
  rewrite step_members in Hr. specialize (Hs r Hr).
  destruct (decide (member_of e = Some (g, r))) as [Hg|Hg]; [|by rewrite step_other].
  destruct Hs as [Hv Hb Hk].
  destruct e as [|h b|h l f|h o|h l s|h o|h]; try done; injection Hg as ->; cbn [step].
  - cbn. rewrite fn_lookup_insert. split; [|done|done]. cbn. rewrite Hv.
    unfold Ingest.vshard_view_tick, vshard_assignments. by destruct b.
  - cbn [set_member gs_member]. rewrite fn_lookup_insert. split; [done| |done].
    cbn [ms_batch with_batch fst]. by rewrite turn_batch_owned, Hv, owned_twice.
  - destruct (ms_batch _) as [|d docs] eqn:E; [split; [done|by rewrite E|done]|].
    cbn. rewrite fn_lookup_insert. by split.
  - cbn. rewrite fn_lookup_insert. split; [done|done|]. cbn. rewrite Hv.
    destruct l; [apply proposals_foreign|constructor].
  - destruct (ms_tick _) as [|e rest] eqn:E; [split; [done|done|by rewrite E]|].
    cbn. rewrite fn_lookup_insert. apply Forall_cons in Hk as [_ Hk]. split; [done|done|].
    cbn. by destruct o.
  - cbn. rewrite fn_lookup_insert. by split.
Qed.

(** What one event does to the documents of a group under a settled table. *)
Lemma tidy_owned g st raw e k :
  tidy g st → event_ok st e →
  (∀ r, (g, r) ∈ gs_members st → owned (Mapped g table) (raw (g, r)) = batches_under_way st (g, r)) →
  owns (Mapped g table) k = true →
  docs_of (step st e) g !! k = match latest (report g raw e) k with
                               | Some d => Some d | None => docs_of st g !! k end.
Proof.
  intros [_ Hs] [Hin _] Hraw Ho. destruct e as [|h b|h l f|h o|h l s|h o|h]; try done; cbn [step report].
  - destruct (bool_decide_reflect (h.1 = g)) as [Hg|Hg]; cbn [andb].
    2: { destruct (ms_batch _); [done|]. by rewrite docs_propose, bool_decide_eq_false_2. }
    destruct h as [g' r]. cbn [fst member_of] in Hg, Hin. subst g'. specialize (Hraw r Hin). unfold batches_under_way in Hraw.
    destruct (committed o) eqn:Eo.
    2: { destruct (ms_batch _); [done|]. by rewrite docs_propose, Eo, andb_false_r. }
    pose proof (owned_lookup (docs_of st g) (Mapped g table) (raw (g, r)) k) as H.
    rewrite Ho, Hraw in H. rewrite <- H. destruct (ms_batch _); [done|].
    by rewrite docs_propose, bool_decide_eq_true_2, Eo.
  - destruct (ms_tick _) as [|e rest] eqn:E; [done|]. rewrite docs_propose.
    case_bool_decide as Hg; [|done]. destruct (committed o); [|done]. cbn [andb].
    destruct h as [g' r]. cbn [fst member_of] in Hg, Hin. subst g'. destruct (Hs r Hin) as [_ _ Hk].
    rewrite E in Hk. apply Forall_cons in Hk as [He _].
    by apply (evicted_foreign g table e (docs_of st g) k He).
Qed.

Lemma tidy_foreign g st e k :
  tidy g st → event_ok st e → owns (Mapped g table) k = false →
  (∀ d, docs_of (step st e) g !! k = Some d → docs_of st g !! k = Some d) ∧
  (∀ r o x rest, e = Evicts (g, r) o → committed o = true →
     ms_tick (gs_member st (g, r)) = x :: rest → covered [x] k → docs_of (step st e) g !! k = None).
Proof.
  intros [_ Hs] [Hin _] Ho. destruct e as [|h b|h l f|h o|h l s|h o|h]; try done; cbn [step].
  - split; [|done]. intros d. destruct (ms_batch _) eqn:E; [done|]. rewrite docs_propose.
    case_bool_decide as Hg; [|done]. destruct (committed o); [|done]. cbn [andb].
    destruct h as [g' r]. cbn [fst member_of] in Hg, Hin. subst g'. destruct (Hs r Hin) as [_ Hb _].
    rewrite E in Hb. rewrite <- Hb, batch_effect, owned_lookup, Ho. done.
  - destruct (ms_tick _) as [|e rest] eqn:E.
    { split; [done|]. intros r o' x rest [= -> ->] _ E'. congruence. }
    rewrite docs_propose. case_bool_decide as Hg.
    2: { split; [done|]. by intros r o' x rest' [= -> ->]. }
    destruct h as [g' r]. cbn [fst member_of] in Hg, Hin. subst g'. destruct (Hs r Hin) as [_ _ Hk].
    rewrite E in Hk. apply Forall_cons in Hk as [He _].
    destruct (evicted_foreign g table e (docs_of st g) k He) as (_ & H2 & H3). split.
    + destruct (committed o); [exact H2|done].
    + intros r' o' x rest' [= <- <-] -> E' Hc. rewrite E in E'. injection E' as <- <-.
      cbn [andb]. by apply H3.
Qed.

(** No foreign document is left but those the tick still covers. *)
Definition clearing (g r : Z) (st : Groups) : Prop :=
  ∀ k, owns (Mapped g table) k = false → is_Some (docs_of st g !! k) →
  covered (ms_tick (gs_member st (g, r))) k.

Lemma clearing_step g r st e :
  tidy g st → event_ok st e → undisturbed (g, r) e → clearing g r st → clearing g r (step st e).
Proof.
  intros Hti Hok He Hc k Ho [d Hd]. destruct (tidy_foreign g st e k Hti Hok Ho) as [Hold Hgone].
  specialize (Hc k Ho (mk_is_Some _ _ (Hold d Hd))).
  destruct (decide (member_of e = Some (g, r))) as [Hg|Hg]; [|by rewrite step_other].
  destruct e as [|h b|h l f|h o|h l s|h o|h]; try done; injection Hg as ->; cbn [step] in *.
  - cbn. by rewrite fn_lookup_insert.
  - cbn. by rewrite fn_lookup_insert.
  - destruct (ms_batch _); [done|]. cbn. by rewrite fn_lookup_insert.
  - destruct Hok as (_ & _ & E). rewrite E in Hc. destruct Hc as (x & n & Hx & _).
    by apply elem_of_nil in Hx.
  - rewrite (He eq_refl) in *. destruct (ms_tick _) as [|x rest] eqn:E; [by rewrite E|].
    cbn. rewrite fn_lookup_insert. destruct Hc as (y & n & [->|Hy]%elem_of_cons & En & Hk).
    + exfalso. rewrite (Hgone r Accepted x rest) in Hd; try done.
      exists x, n. split; [left|done].
    + by exists y, n.
  - by destruct (He eq_refl).
Qed.

Lemma run_ok_app st es es' : run_ok st (es ++ es') ↔ run_ok st es ∧ run_ok (run_events st es) es'.
Proof.
  revert st. induction es as [|e es IH]; intros st; cbn; [tauto|]. rewrite IH. tauto.
Qed.

Lemma run_app st es es' : run_events st (es ++ es') = run_events (run_events st es) es'.
Proof. apply foldl_app. Qed.

(** Induction over a run under a settled table. *)
Lemma tidy_ind g (P : Groups → Prop) (Q : event → Prop) st es :
  tidy g st → run_ok st es → Forall (λ e, moves e = false) es → Forall Q es →
  (∀ st' e, tidy g st' → event_ok st' e → Q e → P st' → P (step st' e)) →
  P st → tidy g (run_events st es) ∧ P (run_events st es).
Proof.
  intros Hti Hok Hes HQ Hstep. revert st Hti Hok. induction es as [|e es IH]; intros st Hti Hok HP; [done|].
  apply Forall_cons in Hes as [He Hes]. apply Forall_cons in HQ as [Hq HQ]. destruct Hok as [Hok1 Hok].
  apply (IH Hes HQ (step st e)); auto using tidy_step.
Qed.

Lemma tidy_run g st es :
  tidy g st → run_ok st es → Forall (λ e, moves e = false) es → tidy g (run_events st es).
Proof.
  intros Hti Hok Hes. apply (tidy_ind g (λ _, True) (λ _, True)); auto. by apply Forall_true.
Qed.

(** Foreign documents never come back. *)
Lemma foreign_gone g st es k :
  tidy g st → run_ok st es → Forall (λ e, moves e = false) es → owns (Mapped g table) k = false →
  docs_of st g !! k = None → docs_of (run_events st es) g !! k = None.
Proof.
  intros Hti Hok Hes Ho Hk.
  apply (tidy_ind g (λ st, docs_of st g !! k = None) (λ _, True)); auto; [by apply Forall_true|].
  intros st' e Hti' Hok' _ IH. destruct (docs_of (step st' e) g !! k) as [d|] eqn:E; [|done].
  apply (tidy_foreign g st' e k Hti' Hok' Ho) in E. congruence.
Qed.

Lemma evicts_fully_clears g st es k :
  tidy g st → Forall (λ e, moves e = false) es → run_ok st es → evicts_fully g st es →
  owns (Mapped g table) k = false → docs_of (run_events st es) g !! k = None.
Proof.
  intros Hti Hes Hok (r & es1 & store & es2 & es3 & -> & Hc & Hev & Htick) Ho.
  rewrite cons_middle, !app_assoc in *. apply Forall_app in Hes as [Hes Hes3].
  apply Forall_app in Hes as [Hes Hes2]. pose proof Hes as [Hes1 _]%Forall_app.
  apply run_ok_app in Hok as [Hok Hok3]. apply run_ok_app in Hok as [Hok Hok2].
  pose proof Hok as [Hok1 [[Hin [[HO Hwf] _]] _]]%run_ok_app.
  pose proof (tidy_run g st es1 Hti Hok1 Hes1) as Hti1.
  pose proof (tidy_run g st _ Hti Hok Hes) as Hti2. rewrite run_app in Htick |- *.
  set (st1 := run_events st es1) in *. set (st2 := run_events st (es1 ++ _)) in *.
  destruct (tidy_ind g (clearing g r) (undisturbed (g, r)) st2 es2 Hti2 Hok2 Hes2 Hev) as [Hti3 Hcl].
  - intros st' e. apply clearing_step.
  - intros k' Ho' Hk'. unfold st2 in *. rewrite run_app in *. fold st1 in Hk' |- *. cbn.
    rewrite fn_lookup_insert. cbn. rewrite (ag_view _ _ (ti_member _ _ Hti1 r Hin)).
    apply (proposals_cover (HO := HO)); try done. by rewrite Hc.
  - rewrite run_app in Hok3 |- *. fold st2 in Hok3 |- *.
    apply foreign_gone; try done. destruct (docs_of (run_events st2 es2) g !! k) as [d|] eqn:E; [|done]. exfalso.
    destruct (Hcl k Ho) as (x & n & Hx & _); [by eexists|]. rewrite Htick in Hx.
    by apply elem_of_nil in Hx.
Qed.

(** The batches under way stay those the events tell of. *)
Lemma in_flight_step g st raw e :
  tidy g st → event_ok st e →
  (∀ r, (g, r) ∈ gs_members st → owned (Mapped g table) (raw (g, r)) = batches_under_way st (g, r)) →
  ∀ r, (g, r) ∈ gs_members (step st e) →
    owned (Mapped g table) (in_flight raw e (g, r)) = batches_under_way (step st e) (g, r).
Proof.
  intros Hti Hok Hraw r Hr. rewrite step_members in Hr. specialize (Hraw r Hr).
  unfold batches_under_way in *. destruct (ti_member _ _ Hti r Hr) as [Hv _ _].
  destruct (decide (member_of e = Some (g, r))) as [Hg|Hg].
  2: { rewrite step_other by done. rewrite <- Hraw. f_equal.
       destruct e; try done; cbn in *; by rewrite fn_lookup_insert_ne by congruence. }
  destruct e as [|h b|h l f|h o|h l s|h o|h]; try done; injection Hg as ->;
    cbn [step in_flight] in *; rewrite ?fn_lookup_insert.
  - cbn. by rewrite fn_lookup_insert.
  - cbn [set_member gs_member]. rewrite fn_lookup_insert. cbn [ms_batch with_batch fst].
    by rewrite turn_batch_owned, Hv.
  - destruct (ms_batch (gs_member st (g, r))) eqn:E; [by rewrite E|]. cbn. by rewrite fn_lookup_insert.
  - cbn. by rewrite fn_lookup_insert.
  - destruct (ms_tick _); [done|]. cbn. by rewrite fn_lookup_insert.
  - cbn. by rewrite fn_lookup_insert.
Qed.

Lemma settled_owned g st raw es k :
  tidy g st → Forall (λ e, moves e = false) es → run_ok st es → owns (Mapped g table) k = true →
  (∀ r, (g, r) ∈ gs_members st → owned (Mapped g table) (raw (g, r)) = batches_under_way st (g, r)) →
  docs_of (run_events st es) g !! k =
    match latest (reported g raw es) k with Some d => Some d | None => docs_of st g !! k end.
Proof.
  intros Hti Hes Hok Ho. revert st raw Hti Hok.
  induction Hes as [|e es He Hes IH]; intros st raw Hti Hok Hraw; [done|].
  destruct Hok as [Hok1 Hok]. change (run_events st (e :: es)) with (run_events (step st e) es).
  cbn [reported]. rewrite (IH _ (in_flight raw e)), latest_app; auto using tidy_step, in_flight_step.
  destruct (latest (reported _ _ es) k); [done|]. by apply tidy_owned.
Qed.

Lemma settled_docs g st es :
  tidy g st → Forall (λ e, moves e = false) es → run_ok st es → evicts_fully g st es →
  ∀ k, docs_of (run_events st es) g !! k =
    settled g table (docs_of st g) (reported g (batches_under_way st) es) k.
Proof.
  intros Hti Hes Hok Hev k. unfold settled. destruct (owns (Mapped g table) k) eqn:Ho;
    [|by apply evicts_fully_clears].
  apply settled_owned; auto. intros r Hr. apply (ti_member _ _ Hti r Hr).
Qed.
End settled.
End steps.

(** ** Properties *)

Section properties.
Context {UC : Unicode} {FL : FloatLib} {EM : Embedder} {HN : Hnsw} {CC : ControlCodec}
  {SC : ShardCodec} {RT : RaftTypes} {HD : HashOrder} {FC : SnapshotCodec} {HO : HashOrder}.

(** A process that applied the whole log of a group. *)
Definition applied_log (order : HashOrder) (st : Groups) (g : Z) (sv : ShardSearchService) : Prop :=
  ∃ (L : list Entry) (sm : @StateMachineStore RT ShardApp) m,
    NoDup (en_log_id <$> L) ∧ payloads (take m L) = cmd_encode <$> gs_log st g ∧
    @replica RT ShardApp HD FC L order sm ∧ sm_last_applied sm = lid_at L m ∧
    sv_store sv = sm_app sm.

Lemma applied_log_docs order st g sv :
  applied_log order st g sv →
  store_wf (HO := order) (sv_store sv) ∧ st_contents (sv_store sv) = docs_of st g.
Proof.
  intros (L & sm & m & Hids & HL & Hrep & Hm & ->).
  destruct (member_contents L Hids order sm m Hrep Hm) as [Hwf Hc]. split; [done|].
  rewrite Hc, log_effect_payloads, HL. unfold docs_of.
  generalize (∅ : gmap string FlightDocument) (gs_log st g). clear. intros x l. revert x.
  induction l as [|cmd l IH]; intros x; [done|]. cbn [fmap list_fmap foldl].
  by rewrite cmd_roundtrip, IH.
Qed.

(** A node that answers from the log of its group. *)
Definition answers_from_log (bm25_params : f64 * f64) (order : string → HashOrder)
    (shards : string → ShardSearchService) (net : Net) (req : SearchRequest) (st : Groups) (g : Z)
    (node : NodeInfo) : Prop :=
  let a := ni_address node in
  applied_log (order a) st g (shards a) ∧ sv_poisoned (shards a) = false ∧
  ∃ resp, net_search net a req = Answered resp ∧
    sv_search (HO := order a) bm25_params (shards a) req = Some (Ok resp) ∧
    Forall scored (sp_hits resp).

(** C5: a migration settles. Let a reassignment have reached the members of every group,
    with no batch and no tick under way that was decided by another table (one that was may
    still evict what the group now owns, or land what it no longer owns:
    [stale_tick_evicts], [late_batch_lands]), and let a watcher of every group then tick in
    full. However polling, fetches, writes, single evictions, changes of leader and
    restarts of all members interleave meanwhile: no document is left outside the group the
    table names, and a search over the groups' leaders replies with exactly the matching
    documents among, for every aircraft, the latest report its owner committed since, or
    else the one its owner held, each aircraft at most once. So an aircraft that moved and
    that its new owner has not reported since is not found: its old copy is evicted, and
    nothing hands it over. *)
Theorem migration_settles (n : Z) (table : list Z) (st : Groups) (es : list event)
    (bm25_params : f64 * f64) (order : string → HashOrder) (shards : string → ShardSearchService)
    (co : CoordinatorService) (h : option string) (req : SearchRequest) (net : Net)
    (Hplace : placement_ok n (ByTable table))
    (Htidy : ∀ g, 0 ≤ g < n → tidy table g st)
    (Hmoves : Forall (λ e, moves e = false) es) (Hrun : run_ok st es)
    (Hevict : ∀ g, 0 ≤ g < n → evicts_fully g st es)
    (Hh : require (co_auth co) h Read = Ok ()) (Hf : filter_ok (sr_filter req))
    (Hp : co_poisoned co = false) (Hlim : sr_limit req = 0)
    (Hord : ∀ l, net_order net l ≡ₚ l)
    (Hall : ∀ g, 0 ≤ g < n → is_Some (leaders (co_registry co) !! g))
    (Hserve : ∀ g l, leaders (co_registry co) !! g = Some l →
       0 ≤ g < n ∧ answers_from_log bm25_params order shards net req (run_events st es) g l) :
  (∀ g k, 0 ≤ g < n → docs_of (run_events st es) g !! k =
     settled g table (docs_of st g) (reported g (batches_under_way st) es) k) ∧
  ∃ reply, (search co h req net).2 = Ok reply ∧ ranked cmp_hits (sp_hits reply) ∧
    NoDup (icao24_of <$> sp_hits reply) ∧
    (∀ d, (∃ hit, hit ∈ sp_hits reply ∧ sh_document hit = Some d) ↔
       (∃ g, 0 ≤ g < n ∧
          settled g table (docs_of st g) (reported g (batches_under_way st) es) (fd_icao24 d) = Some d) ∧
       matches (tokenize (sr_query req)) d ∧ passes d (sr_filter req) = true).
Proof.
  pose proof Hplace as (Hne & Hlen & _).
  assert (∀ g k, 0 ≤ g < n → docs_of (run_events st es) g !! k =
     settled g table (docs_of st g) (reported g (batches_under_way st) es) k) as Hdocs.
  { intros g k Hg. apply (settled_docs table Hne Hlen); auto. }
  split; [exact Hdocs|].
  destruct (routed_reply n (docs_of (run_events st es)) bm25_params order shards co h req net
    Hh Hf Hp Hlim Hord Hall) as (reply & E & Hr & Hnd & Hin).
  - intros g l Hl. destruct (Hserve g l Hl) as (Hg & Ha & Hpo & Hans). split; [done|].
    destruct (applied_log_docs _ _ _ _ Ha) as [Hwf Hc]. by split.
  - intros g g' k Hg Hg' Hk Hk'. rewrite Hdocs in Hk, Hk' by done. unfold settled in Hk, Hk'.
    destruct (one_owner n (ByTable table) k Hplace) as (o & _ & Hone). cbn in Hone.
    destruct (owns (Mapped g table) k) eqn:Ho; [|by destruct Hk].
    destruct (owns (Mapped g' table) k) eqn:Ho'; [|by destruct Hk'].
    apply Hone in Ho as ->. by apply Hone in Ho' as ->.
  - exists reply. split_and!; [done..|]. intros d. rewrite Hin. apply and_iff_compat_r.
    split; intros (g & Hg & Hd); exists g; (split; [done|]); by rewrite Hdocs in * by done.
Qed.
End properties.

(** ** Witnesses *)

#[local] Existing Instances canonical_order ascii_only whole_numbers tiny_embedder scan_graph
  stable_sort plain_control tuple_codec plain_raft plain_codec.

(** A process that has nothing in hand. *)
Definition idle (view : list Z) : MemberState :=
  {| ms_view := view; ms_batch := []; ms_tick := [] |}.

(** One virtual shard, held by group 0 of two members with one aircraft, is moved to
    group 1. *)
Definition before_move : Groups :=
  {| gs_registry := configured 2 15000 1 false;
     gs_members := {[(0, 1); (0, 2); (1, 1)]}; gs_member := λ _, idle [0];
     gs_log := λ g, if decide (g = 0) then [ual1_command] else [] |}.

Definition moved : Groups :=
  run_events before_move [Move 0 1; See (0, 1) true; See (0, 2) true; See (1, 1) true].

(** Group 1 has nothing to evict; the watcher of member 1 of group 0 decides, its member 2
    restarts, and the eviction is accepted while group 1 fetches and writes the next
    report. *)
Definition settling_run : list event :=
  [Ticks (0, 1) true ual1_store; Fetches (1, 1) true (Ok [ual1]); Restarts (0, 2);
   Evicts (0, 1) Accepted; Writes (1, 1) Unheard; Ticks (1, 1) true ual1_store].

Definition evict_log : list Entry :=
  [{| en_log_id := {| lid_leader := 1 : leader_id; lid_index := 1 |};
      en_payload := Normal (cmd_encode ual1_command) |};
   {| en_log_id := {| lid_leader := 1 : leader_id; lid_index := 2 |};
      en_payload := Normal (cmd_encode (evict_command {| ev_vshard := 0; ev_v := 1 |})) |}].

Definition evicted_store : ShardStore := default st_new (fst <$> evict_vshard ual1_store 0 1).

Definition moved_shard (addr : string) : ShardSearchService :=
  sv_new (if bool_decide (addr = "a:1"%string) then evicted_store else ual1_store) addr.

Definition both_answer : Net :=
  {| net_search addr req :=
       match sv_search (f64_one, f64_one) (moved_shard addr) req with
       | Some (Ok resp) => Answered resp
       | _ => Unreachable
       end;
     net_vector _ _ := Unreachable; net_aggregate _ _ := Unreachable;
     net_order l := l; net_vector_order l := l; net_fanout_ms := 5; net_total_ms := 6 |}.

Example settled_logs :
  gs_log (run_events moved settling_run) 0 = [ual1_command; evict_command {| ev_vshard := 0; ev_v := 1 |}] ∧
  gs_log (run_events moved settling_run) 1 = [ual1_command].
Proof. split; vm_compute; reflexivity. Qed.

Lemma evict_applied :
  ∃ sm replies, @sm_apply plain_raft ShardApp canonical_order fresh_member evict_log =
    Some (sm, replies) ∧ sm_app sm = evicted_store ∧ sm_last_applied sm = lid_at evict_log 2.
Proof.
  eexists _, _. split.
  - unfold sm_apply, evict_log. cbn [foldl mbind option_bind]. unfold apply_entry.
    cbn [en_payload app_apply ShardApp]. unfold shard_apply. rewrite !cmd_roundtrip. reflexivity.
  - split; reflexivity.
Qed.

Lemma moved_shard_applied g addr :
  (g = 0 ∧ addr = "a:1" ∨ g = 1 ∧ addr = "b:1")%string →
  applied_log canonical_order (run_events moved settling_run) g (moved_shard addr).
Proof.
  intros [[-> ->]|[-> ->]].
  - destruct evict_applied as (sm & replies & E & Happ & Hl). exists evict_log, sm, 2%nat.
    split_and!.
    + constructor; [|apply NoDup_singleton]. intros H%list_elem_of_singleton. discriminate H.
    + rewrite (proj1 settled_logs). reflexivity.
    + eapply (@replica_apply plain_raft ShardApp canonical_order plain_codec evict_log canonical_order
        fresh_member 0 2); [|reflexivity|exact E].
      exact (@replica_new plain_raft ShardApp canonical_order plain_codec evict_log canonical_order).
    + exact Hl.
    + symmetry. exact Happ.
  - destruct ual1_applied as (sm & replies & E & Happ & Hl). exists ual1_log, sm, 1%nat.
    split_and!.
    + apply NoDup_singleton.
    + rewrite (proj2 settled_logs). reflexivity.
    + eapply (@replica_apply plain_raft ShardApp canonical_order plain_codec ual1_log canonical_order
        fresh_member 0 1); [|reflexivity|exact E].
      exact (@replica_new plain_raft ShardApp canonical_order plain_codec ual1_log canonical_order).
    + exact Hl.
    + symmetry. exact Happ.
Qed.

Lemma both_answer_scored a :
  ∃ resp, net_search both_answer a united = Answered resp ∧
    sv_search (f64_one, f64_one) (moved_shard a) united = Some (Ok resp) ∧ Forall scored (sp_hits resp).
Proof.
  cbn [net_search both_answer].
  destruct (sv_search (f64_one, f64_one) (moved_shard a) united) as [[resp|]|] eqn:E;
    [|unfold moved_shard in E; destruct (bool_decide (a = "a:1"%string)); vm_compute in E; discriminate E..].
  exists resp. split; [done|]. split; [done|].
  unfold moved_shard in E; destruct (bool_decide (a = "a:1"%string)); vm_compute in E;
    injection E as <-; repeat constructor.
Qed.

Lemma ual1_store_contents : st_contents ual1_store = docs_of moved 0.
Proof. vm_compute. reflexivity. Qed.

Lemma settling_run_ok : run_ok moved settling_run.
Proof.
  assert (∃ HO : HashOrder, store_wf (HO := HO) ual1_store) as Hwf
    by (exists canonical_order; exact ual1_store_wf).
  repeat (apply conj; [apply conj; [vm_compute; reflexivity|first [exact I|reflexivity|exact (conj Hwf eq_refl)]]|]).
  exact I.
Qed.

Lemma settling_run_evicts g : 0 ≤ g < 2 → evicts_fully g moved settling_run.
Proof.
  intros Hg. assert (g = 0 ∨ g = 1) as [-> | ->] by lia.
  - exists 1, [], ual1_store, [Fetches (1, 1) true (Ok [ual1]); Restarts (0, 2); Evicts (0, 1) Accepted],
      [Writes (1, 1) Unheard; Ticks (1, 1) true ual1_store].
    split; [reflexivity|]. split; [exact ual1_store_contents|].
    split; [repeat constructor; discriminate|vm_compute; reflexivity].
  - exists 1, (take 5 settling_run), ual1_store, [], []. split; [reflexivity|].
    split; [vm_compute; reflexivity|]. split; [constructor|vm_compute; reflexivity].
Qed.

Lemma moved_tidy g : 0 ≤ g < 2 → tidy [1] g moved.
Proof.
  intros Hg. split; [vm_compute; reflexivity|]. intros r Hr.
  assert (gs_members moved = {[(0, 1); (0, 2); (1, 1)]}) as E by (vm_compute; reflexivity).
  rewrite E in Hr.
  assert ((g, r) = (0, 1) ∨ (g, r) = (0, 2) ∨ (g, r) = (1, 1)) as [Em|[Em|Em]] by set_solver;
    injection Em as -> ->; (split; [vm_compute; reflexivity|vm_compute; reflexivity|constructor]).
Qed.

(** After the move the aircraft is found once, where the table says. *)
Lemma migration_settles_witness :
  docs_of (run_events moved settling_run) 0 !! "abc123"%string = None ∧
  ∃ reply hit, (search (co_new two_leaders) None united both_answer).2 = Ok reply ∧
    hit ∈ sp_hits reply ∧ sh_document hit = Some ual1.
Proof.
  destruct (migration_settles 2 [1] moved settling_run (f64_one, f64_one) (λ _, canonical_order)
    moved_shard (co_new two_leaders) None united both_answer) as (Hdocs & reply & E & _ & _ & H).
  - repeat split; [discriminate|repeat constructor; discriminate].
  - exact moved_tidy.
  - repeat constructor.
  - exact settling_run_ok.
  - exact settling_run_evicts.
  - reflexivity.
  - exact I.
  - reflexivity.
  - reflexivity.
  - by intros l.
  - intros g Hg. assert (g = 0 ∨ g = 1) as [-> | ->] by lia; by eexists.
  - intros g l Hl.
    assert ((g = 0 ∧ ni_address l = "a:1" ∨ g = 1 ∧ ni_address l = "b:1")%string) as Hg.
    { cbn [co_registry co_new] in Hl. change (leaders two_leaders) with
        ({[1 := {| ni_node_id := "n1"; ni_address := "b:1"; ni_role := Leader; ni_last_seen := 0 |};
           0 := {| ni_node_id := "n0"; ni_address := "a:1"; ni_role := Leader; ni_last_seen := 0 |}]}
         : gmap Z NodeInfo)%string in Hl.
      apply lookup_insert_Some in Hl as [[<- <-]|[_ Hl]]; [by right|].
      apply lookup_singleton_Some in Hl as [<- <-]. by left. }
    split; [destruct Hg as [[-> _]|[-> _]]; lia|].
    split; [by apply moved_shard_applied|]. split; [reflexivity|apply both_answer_scored].
  - split; [rewrite Hdocs by lia; vm_compute; reflexivity|].
    destruct (proj2 (H ual1)) as (hit & Hhit & Hd); [|by exists reply, hit].
    split; [exists 1; split; [lia|vm_compute; reflexivity]|]. split; [apply ual1_matches|reflexivity].
Defined.

(** *** The overlap *)

(** During the overlap both groups hold the aircraft: the old one its last report before
    the move, the new one a later report. *)
Definition flying (t altitude : Z) : FlightDocument :=
  {| fd_icao24 := "abc123"; fd_callsign := "UAL1"; fd_observed_at := t;
     fd_latitude := f64_zero; fd_longitude := f64_zero; fd_altitude := f64_of_Z altitude;
     fd_origin := "SFO"; fd_destination := "EWR"; fd_aircraft_type := "B738";
     fd_velocity := f64_zero; fd_heading := f64_zero; fd_vertical_rate := f64_zero;
     fd_on_ground := false; fd_tenant_id := ""; fd_text := ∅; fd_number := ∅ |}.

Definition overlap_shard (addr : string) : ShardSearchService :=
  sv_new (default st_new (st_insert st_new
    (if bool_decide (addr = "a:1"%string) then flying 1 100 else flying 2 9000))) addr.

Definition overlap : Net :=
  {| net_search addr req :=
       match sv_search (f64_one, f64_one) (overlap_shard addr) req with
       | Some (Ok resp) => Answered resp
       | _ => Unreachable
       end;
     net_vector _ _ := Unreachable; net_aggregate _ _ := Unreachable;
     net_order l := l; net_vector_order l := l; net_fanout_ms := 5; net_total_ms := 6 |}.

Definition below_500 : SearchRequest :=
  {| sr_query := "ual1"; sr_limit := 0;
     sr_filter := Some {| f_conditions := [{| fc_field := "altitude";
       fc_test := Some (Range {| nr_min := None; nr_max := Some (f64_of_Z 500) |}) |}] |} |}.

Definition found_docs (req : SearchRequest) : option (list FlightDocument) :=
  match (search (co_new two_leaders) None req overlap).2 with
  | Ok reply => Some (omap sh_document (sp_hits reply))
  | Err _ => None
  end.

(** Deduplication keeps the freshest of the copies that match, so a superseded report that
    is still held elsewhere is found by a query its successor does not match: an aircraft
    at 9000 is returned as flying below 500, as it was before the move. *)
Theorem overlap_serves_superseded :
  found_docs united = Some [flying 2 9000] ∧ found_docs below_500 = Some [flying 1 100] ∧
  passes (flying 2 9000) (sr_filter below_500) = false.
Proof. split_and!; vm_compute; reflexivity. Qed.

(** Aggregates are not deduplicated at all: an aircraft that both groups hold is counted
    twice. *)
Theorem overlap_counts_twice :
  (λ r : CoordinatorService * result AggregateResponse Status,
     match r.2 with
     | Ok reply => (λ p, (ap_count p, map_to_list (ap_buckets p))) <$> ag_partial reply
     | Err _ => None
     end) <$> aggregate (co_new two_leaders) None type_counts (tallying overlap_shard) =
  Some (Some (2, [("UAL1"%string, 2)])).
Proof. vm_compute. reflexivity. Qed.

(** *** Decisions under way *)

(** A watcher reads the table once per tick. If the virtual shard moves back while the tick
    waits for its proposals, they still evict it: nobody holds the aircraft any more,
    until it is reported again. *)
Definition moved_back : Groups :=
  run_events before_move
    [Move 0 1; See (0, 1) true; Ticks (0, 1) true ual1_store; Move 0 0; See (0, 1) true;
     See (0, 2) true; See (1, 1) true].

Theorem stale_tick_evicts :
  vshards (gs_registry moved_back) = [0] ∧ ms_view (gs_member moved_back (0, 1)) = [0] ∧
  docs_of moved_back 0 !! "abc123"%string = Some ual1 ∧
  docs_of (run_events moved_back [Evicts (0, 1) Accepted]) 0 = ∅ ∧
  docs_of (run_events moved_back [Evicts (0, 1) Accepted]) 1 = ∅.
Proof. split_and!; vm_compute; reflexivity. Qed.

(** A batch is filtered when it is fetched. If the virtual shard moves away and is evicted
    while the batch waits to be written, the old group has the aircraft again, until its
    watcher's next tick. *)
Definition late_run : list event :=
  [Fetches (0, 1) true (Ok [flying 2 9000]); Move 0 1; See (0, 1) true; See (0, 2) true;
   See (1, 1) true; Ticks (0, 1) true ual1_store; Evicts (0, 1) Accepted].

Theorem late_batch_lands :
  docs_of (run_events before_move late_run) 0 = ∅ ∧
  docs_of (run_events before_move (late_run ++ [Writes (0, 1) Accepted])) 0 !! "abc123"%string =
    Some (flying 2 9000) ∧
  docs_of (run_events before_move (late_run ++ [Writes (0, 1) Accepted;
    Ticks (0, 1) true ual1_store; Evicts (0, 1) Accepted])) 0 = ∅.
Proof. split_and!; vm_compute; reflexivity. Qed.
