(* ===== verification/CoordinatorMain.v ===== *)
(** * The coordinator's binary: [crates/coordinator/src/main.rs]

    What a coordinator starts, from its environment: the registry, the reaper, its
    membership in the state group, the token table, the metrics endpoint and the services
    it offers. The raft node itself is a parameter: opening it either works or not.
    Instants are milliseconds, as in the registry. *)

From S2P Require Export EndToEnd Net.

(** ** Raft's configuration: [crates/consensus/src/lib.rs] *)

Record RaftConfig := {
  heartbeat_interval : Z;
  election_timeout_min : Z;
  election_timeout_max : Z;
  snapshot_logs : option Z;
}.

(** [snapshot_logs] is [None] for the library's own snapshot policy. *)
Definition raft_config (snapshot_logs_var : option string) : RaftConfig :=
  {| heartbeat_interval := 100; election_timeout_min := 300; election_timeout_max := 600;
     snapshot_logs :=
       match snapshot_logs_var ≫= parse_u64 with
       | Some n => if 0 <? n then Some n else None
       | None => None
       end |}.

(** ** The metrics endpoint: [crates/coordinator/src/metrics.rs] *)

Definition crlf : string := String "013"%char newline.

(** The one response of a connection; the length counts bytes. *)
Definition metrics_response (m : Metrics) (registry : option Registry) : string :=
  let body := render m registry in
  "HTTP/1.1 200 OK" +:+ crlf +:+ "Content-Type: text/plain; version=0.0.4" +:+ crlf
    +:+ "Content-Length: " +:+ show_nat (String.length body) +:+ crlf
    +:+ "Connection: close" +:+ crlf +:+ crlf +:+ body.

(** ** Configuration *)

Inductive CoordinatorTask :=
| Reaper (timeout : Z)
| MetricsEndpoint (addr : string)
| InitializeGroup (members : gmap Z string).

Inductive CoordinatorServed := CoordinatorOffered | GroupTransportOffered.

(** Why a coordinator does not start. *)
Inductive StartError :=
| BadAddress (addr : string)
| BadGroup (e : ControlError)
| GroupNotOpened (e : string)
| BadTokens (e : LoadError)
| BadTls.

(** The instant of the reaper's tick [k] after a start: every third of the timeout, but at
    least a second apart. *)
Definition reap_instant (timeout start : Z) (k : nat) : Z :=
  start + Z.of_nat k * Z.max timeout 3000 / 3.

Section main.
Context {UC : Unicode} (env : string → option string).

(** [None]: distributing virtual shards over no group divides by zero. *)
Definition registry_from_env : option Registry :=
  let shard_count := env_or env parse_u32 "AETHER_SHARD_COUNT" 3 in
  let liveness_timeout := 1000 * env_or env parse_u64 "AETHER_LIVENESS_TIMEOUT_SECS" 15 in
  let vshards := env_or env parse_u32 "AETHER_VSHARDS" 0 in
  let control_mode := is_some (env "AETHER_CONTROL_ID") in
  if (0 <? vshards) && (shard_count =? 0) then None
  else Some (configured shard_count liveness_timeout (Z.to_nat vshards) control_mode).

Definition metrics_tasks (parses : string → bool) : list CoordinatorTask :=
  let addr := default "127.0.0.1:9090"%string (env "AETHER_METRICS_ADDR") in
  if bool_decide (addr = "off"%string) then []
  else if parses addr then [MetricsEndpoint addr] else [].

(** [ControlPlane::from_env]: the id, and the task that initializes the group. *)
Definition join_group (open_raft : RaftConfig → option string → result () string)
    : result (option (Z * list CoordinatorTask)) StartError :=
  group <-? map_err BadGroup (control_from_env (env "AETHER_CONTROL_ID") (env "AETHER_CONTROL_PEERS"));;
  match group with
  | None => Ok None
  | Some (my_id, peers) =>
      _ <-? map_err GroupNotOpened
              (open_raft (raft_config (env "AETHER_SNAPSHOT_LOGS")) (env "AETHER_DATA_DIR"));;
      Ok (Some (my_id, if bootstraps my_id peers then [InitializeGroup peers] else []))
  end.

(** [parses] is whether an address is one, [token_file] what reading a token file gives,
    [tls] the material of the process ([None]: loading it panics) and [tls_ok] whether the
    server accepts it. The result is the service, its tasks and what is served, or why the
    process ends; [None] is a panic. *)
Definition coordinator_main (parses : string → bool)
    (open_raft : RaftConfig → option string → result () string)
    (token_file : string → result string string) (tls : option (option ServerTlsConfig))
    (tls_ok : ServerTlsConfig → bool)
    : option (result (CoordinatorService * list CoordinatorTask * list CoordinatorServed) StartError) :=
  let addr := default "127.0.0.1:50050"%string (env "AETHER_COORDINATOR_ADDR") in
  if negb (parses addr) then Some (Err (BadAddress addr))
  else
    registry ← registry_from_env;
    let reaper := Reaper (liveness_timeout registry) in
    match (control <-? join_group open_raft;;
           auth <-? map_err BadTokens
                      (from_env ((λ path, (path, token_file path)) <$> env "AETHER_TOKENS_FILE"));;
           Ok (control, auth)) with
    | Err e => Some (Err e)
    | Ok (control, auth) =>
        config ← tls;
        if match config with Some c => negb (tls_ok c) | None => false end then Some (Err BadTls)
        else
          let metrics := metrics_tasks parses in
          Some (Ok match control with
                | Some (my_id, boot) =>
                    (with_auth (with_control registry my_id) auth, reaper :: boot ++ metrics,
                     [CoordinatorOffered; GroupTransportOffered])
                | None => (with_auth (co_new registry) auth, reaper :: metrics, [CoordinatorOffered])
                end)
    end.

(** ** Lemmas *)

Lemma parse_uint_nonneg max s n : parse_uint max s = Some n → 0 ≤ n ≤ max.
Proof.
  unfold parse_uint. set (ds := match str_bytes s with 43%N :: r => r | l => l end). clearbody ds.
  assert (∀ l acc m, 0 ≤ acc → parse_digits acc l = Some m → 0 ≤ m) as Hd.
  { induction l as [|c l IH]; intros acc m Hacc; [by intros [= <-]|]. cbn [parse_digits].
    destruct (is_digit c); [|done]. apply IH. lia. }
  destruct ds as [|b ds]; [done|]. destruct (parse_digits 0 (b :: ds)) as [m|] eqn:E; [|done].
  apply Hd in E; [|lia]. cbn [mbind option_bind].
  destruct (Z.leb_spec m max); [|done]. intros [= <-]. lia.
Qed.

Lemma env_uint_nonneg max key d : 0 ≤ d → 0 ≤ env_or env (parse_uint max) key d.
Proof.
  intros Hd. unfold env_or. destruct (env key) as [s|]; [|done]. cbn.
  destruct (parse_uint max s) eqn:E; [|done]. by apply parse_uint_nonneg in E as [? _].
Qed.

(** The registry a coordinator starts with is well formed and empty. *)
Lemma registry_from_env_fresh r :
  registry_from_env = Some r →
  leaders r = ∅ ∧ followers r = ∅ ∧ draining r = ∅ ∧
  liveness_timeout r = 1000 * env_or env parse_u64 "AETHER_LIVENESS_TIMEOUT_SECS" 15 ∧
  authority_replicated r = is_some (env "AETHER_CONTROL_ID") ∧
  (shard_count r ≠ 0 → 0 < shard_count r) ∧
  (shard_count r = 0 → vshards r = []) ∧
  registry_wf (env_or env parse_u32 "AETHER_SHARD_COUNT" 3)
    (Z.to_nat (env_or env parse_u32 "AETHER_VSHARDS" 0)) r.
Proof.
  unfold registry_from_env. set (n := env_or env parse_u32 "AETHER_SHARD_COUNT" 3).
  set (v := env_or env parse_u32 "AETHER_VSHARDS" 0).
  assert (0 ≤ n) as Hn by (unfold n, parse_u32; by apply env_uint_nonneg).
  destruct (Z.ltb_spec 0 v) as [Hv|Hv], (Z.eqb_spec n 0) as [Hz|Hz]; cbn [andb]; try done;
    intros [= <-]; unfold configured; case_decide; try lia; destruct (is_some _);
    (split_and!; [done..|cbn; lia|cbn; done || (intros; lia)|split; try done; cbn]);
    try (by replace (Z.to_nat v) with 0%nat by lia).
  all: try (rewrite length_fmap, length_seq; done).
  all: apply Forall_fmap, Forall_forall; intros i _; cbn; apply Z.mod_pos_bound; lia.
Qed.
End main.

(** ** Properties *)

Section properties.
Context {UC : Unicode}.

Lemma coordinator_main_ok env parses open_raft token_file tls tls_ok co tasks served :
  coordinator_main env parses open_raft token_file tls tls_ok = Some (Ok (co, tasks, served)) →
  ∃ r control auth,
    registry_from_env env = Some r ∧ join_group env open_raft = Ok control ∧
    from_env ((λ path, (path, token_file path)) <$> env "AETHER_TOKENS_FILE"%string) = Ok auth ∧
    co_registry co = r ∧ co_auth co = auth ∧ co_control co = fst <$> control ∧
    co_poisoned co = false ∧
    tasks = Reaper (liveness_timeout r) ::
              default [] (snd <$> control) ++ metrics_tasks env parses ∧
    served = CoordinatorOffered :: match control with Some _ => [GroupTransportOffered] | None => [] end.
Proof.
  unfold coordinator_main. destruct (negb _); [done|].
  destruct (registry_from_env env) as [r|]; [|done]. cbn [mbind option_bind].
  destruct (join_group env open_raft) as [control|]; [|done].
  destruct (from_env _) as [auth|]; [|done]. cbn [map_err].
  destruct tls as [config|]; [|done]. cbn [mbind option_bind].
  destruct (match config with Some c => negb (tls_ok c) | None => false end); [done|].
  intros H. exists r, control, auth. destruct control as [[my_id boot]|]; by simplify_eq/=.
Qed.

(** What a coordinator that starts has: a registry that satisfies the invariant and knows
    no node yet, one reaper with the timeout the registration guard uses, membership in
    the state group exactly when the environment names an id and peers (which then
    include it, each under one address), the group's transport offered with it, and
    authentication exactly when a token file is named. *)
Theorem coordinator_starts {HO : HashOrder} (env : string → option string) (parses : string → bool)
    (open_raft : RaftConfig → option string → result () string)
    (token_file : string → result string string) (tls : option (option ServerTlsConfig))
    (tls_ok : ServerTlsConfig → bool) co tasks served
    (H : coordinator_main env parses open_raft token_file tls tls_ok = Some (Ok (co, tasks, served))) :
  registry_wf (env_or env parse_u32 "AETHER_SHARD_COUNT" 3)
    (Z.to_nat (env_or env parse_u32 "AETHER_VSHARDS" 0)) (co_registry co) ∧
  (∀ node, knows_node (co_registry co) node = false) ∧
  (∃ rest, tasks = Reaper (liveness_timeout (co_registry co)) :: rest ∧
     ∀ t, Reaper t ∉ rest) ∧
  (is_Some (co_control co) ↔
     is_Some (env "AETHER_CONTROL_ID"%string) ∧ is_Some (env "AETHER_CONTROL_PEERS"%string)) ∧
  (GroupTransportOffered ∈ served ↔ is_Some (co_control co)) ∧
  (au_enabled (co_auth co) = true ↔ is_Some (env "AETHER_TOKENS_FILE"%string)).
Proof.
  apply coordinator_main_ok in H as (r & control & auth & Hr & Hj & Ha & -> & -> & -> & _ & -> & ->).
  destruct (registry_from_env_fresh env r Hr) as (Hl & Hf & _ & _ & _ & _ & _ & Hwf).
  split_and!; [done| | | | |].
  - intros node. apply not_true_iff_false. rewrite knows_node_spec. unfold is_node.
    rewrite Hl, Hf. naive_solver.
  - eexists. split; [done|]. intros t Ht. apply elem_of_app in Ht as [Ht|Ht].
    + unfold join_group in Hj. destruct (map_err _ _) as [[[my_id peers]|]|];
        [|injection Hj as <-; by apply elem_of_nil in Ht|done].
      destruct (map_err _ _); [|done]. injection Hj as <-. cbn in Ht.
      destruct (bootstraps my_id peers); set_solver.
    + unfold metrics_tasks in Ht. case_bool_decide; [set_solver|]. destruct (parses _); set_solver.
  - unfold join_group, control_from_env in Hj.
    destruct (env "AETHER_CONTROL_ID"%string) as [id|], (env "AETHER_CONTROL_PEERS"%string) as [raw|];
      cbn [map_err] in Hj; try (injection Hj as <-; cbn; split; [by intros []|intros [H1 H2]; by destruct H1, H2]).
    split; [eauto|]. intros _. destruct (ok_or _ _); [|done].
    destruct (parse_peers _ _); [|done]. case_decide; [|done].
    cbn [map_err] in Hj. destruct (map_err _ _); [|done]. injection Hj as <-. by eexists.
  - destruct control; cbn; [|split; [set_solver|by intros []]]. split; [eauto|set_solver].
  - unfold from_env in Ha. destruct (env "AETHER_TOKENS_FILE"%string) as [path|]; cbn in Ha.
    + split; [eauto|]. intros _. destruct (token_file path); [|done]. cbn in Ha.
      destruct (load_lines _ _); [|done]. case_bool_decide; [done|]. by injection Ha as <-.
    + injection Ha as <-. split; [done|by intros []].
Qed.

(** An id without peers turns the registry into a view of a group that does not exist: the
    coordinator starts, proposes nothing to anybody, and the reaper keeps the drain marks
    of the nodes it removes. *)
Theorem control_id_alone (env : string → option string) (parses : string → bool)
    (open_raft : RaftConfig → option string → result () string)
    (token_file : string → result string string) (tls : option (option ServerTlsConfig))
    (tls_ok : ServerTlsConfig → bool) co tasks served {HO : HashOrder}
    (H : coordinator_main env parses open_raft token_file tls tls_ok = Some (Ok (co, tasks, served)))
    (Hid : is_Some (env "AETHER_CONTROL_ID"%string))
    (Hpeers : env "AETHER_CONTROL_PEERS"%string = None) :
  co_control co = None ∧ authority_replicated (co_registry co) = true ∧
  ∀ r now timeout, authority_replicated r = true →
    draining (reap_dead r now timeout).1 = draining r.
Proof.
  apply coordinator_main_ok in H as (r & control & auth & Hr & Hj & _ & -> & _ & -> & _).
  destruct (registry_from_env_fresh env r Hr) as (_ & _ & _ & _ & Hau & _).
  destruct Hid as [id Hid]. split_and!.
  - unfold join_group, control_from_env in Hj. rewrite Hid, Hpeers in Hj. cbn in Hj.
    by injection Hj as <-.
  - by rewrite Hau, Hid.
  - intros r1 now timeout Ha. unfold reap_dead. destruct (foldl _ _ _). by rewrite Ha.
Qed.

(** The reaper's ticks are at most a third of the timeout, or a second, apart. *)
Lemma reap_instant_step timeout start k :
  reap_instant timeout start k ≤ reap_instant timeout start (S k) ∧
  3 * (reap_instant timeout start (S k) - reap_instant timeout start k) ≤ Z.max timeout 3000 + 2.
Proof.
  unfold reap_instant. rewrite Nat2Z.inj_succ.
  replace (Z.succ (Z.of_nat k) * Z.max timeout 3000)
    with (Z.of_nat k * Z.max timeout 3000 + Z.max timeout 3000) by lia.
  split; Z.to_euclidean_division_equations; lia.
Qed.

Lemma reap_instant_reaches timeout start t :
  start ≤ t → ∃ k, t < reap_instant timeout start k ∧
    3 * (reap_instant timeout start k - t) ≤ Z.max timeout 3000 + 2.
Proof.
  intros Ht.
  assert (∃ k, t < reap_instant timeout start k) as [k Hk].
  { exists (S (Z.to_nat (t - start))). unfold reap_instant. rewrite Nat2Z.inj_succ, Z2Nat.id by lia.
    assert (3000 * Z.succ (t - start) ≤ Z.succ (t - start) * Z.max timeout 3000) by nia.
    generalize dependent (Z.succ (t - start) * Z.max timeout 3000). intros z Hz.
    Z.to_euclidean_division_equations. lia. }
  induction k as [|k IH].
  - unfold reap_instant in Hk. rewrite Z.mul_0_l, Z.add_0_r in Hk. lia.
  - destruct (Z.lt_ge_cases t (reap_instant timeout start k)); [by apply IH|].
    exists (S k). split; [done|]. destruct (reap_instant_step timeout start k). lia.
Qed.

(** C17: a dead node is not routed to for long. Let a node not be heard from after [t], a time
    at which the reaper already runs. Then there is a tick within the timeout and a third
    of it (or a second) of [t] after which, whatever else the registry holds, no search is
    routed to the node, and its shard to a live follower if there is one; nodes heard from
    within the timeout are still known. *)
Theorem dead_node_dropped (HO : HashOrder) (timeout start t : Z) (node : string)
    (Hstart : start ≤ t) (Htimeout : 0 ≤ timeout) :
  ∃ k, let now := reap_instant timeout start k in
    t + timeout < now ∧ 3 * (now - (t + timeout)) ≤ Z.max timeout 3000 + 2 ∧
    ∀ r, liveness_timeout r = timeout →
      (∀ s n, leaders r !! s = Some n → ni_node_id n = node → ni_last_seen n ≤ t) →
      (∀ s l n, followers r !! s = Some l → n ∈ l → ni_node_id n = node → ni_last_seen n ≤ t) →
      let r' := (reaper_tick r now).1.1 in
      (∀ s n, leaders r' !! s = Some n → ni_node_id n ≠ node) ∧
      (∀ s n, leaders r !! s = Some n → now - ni_last_seen n ≤ timeout → leaders r' !! s = Some n) ∧
      (∀ s f, (∀ n, leaders r !! s = Some n → ni_node_id n = node) →
         last (filter (λ x, stale now timeout x = false) (default [] (followers r !! s))) = Some f →
         leaders r' !! s = Some (with_role Leader f)).
Proof.
  destruct (reap_instant_reaches timeout start (t + timeout)) as (k & Hk & Hstep); [lia|].
  exists k. intros now. split_and!; [done|done|]. intros r HT Hleads Hfols. cbv zeta.
  assert (∀ n, ni_last_seen n ≤ t → stale now timeout n = true) as Hstale.
  { intros n Hn. unfold stale, since. rewrite Z.ltb_lt. fold now in Hk. lia. }
  split_and!.
  - intros s n. rewrite tick_leader. unfold successor. rewrite HT.
    assert (∀ f, last (filter (λ x, stale now timeout x = false) (default [] (followers r !! s)))
      = Some f → ni_node_id f ≠ node) as Hlast.
    { intros f Hf Hid. apply last_Some_elem_of in Hf.
      apply list_elem_of_filter in Hf as [Hst Hf].
      destruct (followers r !! s) as [l|] eqn:El; cbn in Hf; [|by apply elem_of_nil in Hf].
      rewrite Hstale in Hst; [done|]. by eapply Hfols. }
    destruct (leaders r !! s) as [l|] eqn:El; [destruct (stale now timeout l) eqn:Es|];
      try (destruct (last _) as [f|] eqn:Ef; [|done]; cbn; intros [= <-]; exact (Hlast f eq_refl)).
    cbn. intros [= <-] Hid. rewrite (Hstale l) in Es; [done|]. by eapply Hleads.
  - intros s n Hn Hlive. rewrite tick_leader. unfold successor. rewrite HT, Hn.
    assert (stale now timeout n = false) as ->; [|done].
    unfold stale, since. apply Z.ltb_ge. lia.
  - intros s f Hdead Hf. rewrite tick_leader. unfold successor. rewrite HT, Hf.
    destruct (leaders r !! s) as [n|] eqn:En; [|done].
    rewrite (Hstale n); [done|]. by apply (Hleads s n), Hdead.
Qed.
End properties.

(** ** Witnesses *)

#[local] Existing Instances canonical_order ascii_only.

Definition vars (l : list (string * string)) (key : string) : option string := (list_to_map l : gmap string string) !! key.

Definition two_peers : string → option string :=
  vars [("AETHER_CONTROL_ID", "1"); ("AETHER_CONTROL_PEERS", "1=a:1, 2=b:1");
        ("AETHER_VSHARDS", "4"); ("AETHER_METRICS_ADDR", "off")]%string.
Definition id_only : string → option string :=
  vars [("AETHER_CONTROL_ID", "1")]%string.

(** A start on a host where everything works and nothing is encrypted. *)
Definition started (env : string → option string) :=
  coordinator_main env (λ _, true) (λ _ _, Ok ()) (λ _, Err "no file"%string) (Some None) (λ _, true).

Lemma coordinator_starts_witness :
  ∃ co, started two_peers = Some (Ok (co, [Reaper 15000;
      InitializeGroup (<[2 := "b:1"%string]> {[1 := "a:1"%string]})],
      [CoordinatorOffered; GroupTransportOffered])) ∧
    vshards (co_registry co) = [0; 1; 2; 0] ∧ is_Some (co_control co).
Proof.
  eexists. split; [vm_compute; reflexivity|]. split; [reflexivity|].
  destruct (coordinator_starts two_peers (λ _, true) (λ _ _, Ok ()) (λ _, Err "no file"%string)
    (Some None) (λ _, true) _ _ _ ltac:(vm_compute; reflexivity)) as (_ & _ & _ & Hc & _).
  apply Hc. split; by eexists.
Defined.

Lemma control_id_alone_witness :
  ∃ co tasks, started id_only = Some (Ok (co, tasks, [CoordinatorOffered])) ∧
    co_control co = None ∧ authority_replicated (co_registry co) = true.
Proof.
  eexists _, _. split; [vm_compute; reflexivity|].
  destruct (control_id_alone id_only (λ _, true) (λ _ _, Ok ()) (λ _, Err "no file"%string)
    (Some None) (λ _, true) _ _ _ ltac:(vm_compute; reflexivity) ltac:(by eexists) eq_refl)
    as (H1 & H2 & _). split; [exact H1|exact H2].
Defined.

Lemma dead_node_dropped_witness :
  ∃ k, 7 + 15000 < reap_instant 15000 0 k ≤ 7 + 20007 ∧
    ∀ s n, leaders (reaper_tick (co_registry one_leader) (reap_instant 15000 0 k)).1.1 !! s = Some n →
      ni_node_id n ≠ "n0"%string.
Proof.
  destruct (dead_node_dropped canonical_order 15000 0 7 "n0") as (k & Hlo & Hhi & H); [lia|lia|].
  exists k. split; [lia|]. apply (H (co_registry one_leader) eq_refl).
  - intros s n Hn _. change (({[0 := {| ni_node_id := "n0"; ni_address := "a:1"; ni_role := Leader;
      ni_last_seen := 0 |}]} : gmap Z NodeInfo) !! s = Some n) in Hn.
    apply lookup_singleton_Some in Hn as [_ <-]. cbn. lia.
  - intros s l n Hl. change ((∅ : gmap Z (list NodeInfo)) !! s = Some l) in Hl.
    by rewrite lookup_empty in Hl.
Defined.

(** Virtual shards over no group: the process panics before it serves anything. *)
Example no_groups :
  started (vars [("AETHER_SHARD_COUNT", "0"); ("AETHER_VSHARDS", "4")]%string) = None.
Proof. vm_compute. reflexivity. Qed.
