(* ===== verification/Node.v ===== *)
(** * The shard node's binary: [crates/shard-node/src/main.rs]

    What a node starts, from its environment: the store, the feed, the background tasks of
    its mode and the services it offers. Coordinators are reached through the interface of
    [Cluster], the learned embedder's model through that of [Onnx]; [env] is the
    environment, and parsing a socket address and opening the raft storage are inputs.
    Binding and logging are left out. *)

From S2P Require Export EndToEnd Sources Onnx.

Section node.
Context {UC : Unicode} {OR : OnnxRuntime} {EM : Embedder} {HN : Hnsw} {W : Type} {CN : ControlNet W}.
Context (env : string → option string).

(** ** Configuration *)

Definition build_source (node_id : string) : FeedSource :=
  let seed := wrap_u32 (fnv1a_64 (str_bytes node_id)) in
  let opensky := OpenSkyFeed (opensky_from_env (env "OPENSKY_USERNAME") (env "OPENSKY_PASSWORD")) in
  match env "AETHER_SOURCE" with
  | None => opensky
  | Some s =>
      if bool_decide (s = "synthetic"%string) then SyntheticFeed (synthetic_new seed 5)
      else if bool_decide (s = "security"%string) then SecurityFeed (security_new seed 5)
      else if bool_decide (s = "http"%string) then
        HttpFeed (http_from_env (env "AETHER_HTTP_RECORDS_PATH") (env "AETHER_HTTP_URL")
                    (env "AETHER_HTTP_ID_FIELD") (env "AETHER_HTTP_ID_PREFIX"))
      else if bool_decide (s = "s3"%string) then
        S3Feed (s3_source_from_env (env "AETHER_S3_INGEST_BUCKET") (env "AETHER_S3_INGEST_PREFIX")
                  (env "AETHER_HTTP_ID_FIELD"))
      else opensky
  end.

(** Which embedder the store is built with; the store's theorems hold for any. *)
Inductive EmbedderChoice := HashChoice | OnnxChoice (oe : OnnxEmbedder).

Definition chosen_embedder (c : EmbedderChoice) : Embedder :=
  match c with HashChoice => HashEmbedder | OnnxChoice oe => OnnxEmbedding oe end.

(** [onnx] is whether the binary has the feature. *)
Definition build_store (onnx : bool)
    : result (EmbedderChoice * ShardStore) string :=
  let quantized := bool_decide (env "AETHER_VECTOR" = Some "quantized"%string) in
  if bool_decide (env "AETHER_EMBEDDER" = Some "onnx"%string) then
    if onnx then
      dir <-? ok_or (env "AETHER_ONNX_MODEL_DIR")
                "AETHER_EMBEDDER=onnx requires AETHER_ONNX_MODEL_DIR"%string;;
      embedder <-? from_dir dir;;
      Ok (OnnxChoice embedder, with_quantized st_new quantized)
    else Err "AETHER_EMBEDDER=onnx, but this binary was built without --features onnx"%string
  else Ok (HashChoice, with_quantized st_new quantized).

Record NodeConfig := {
  nc_addr : string;
  nc_advertise : string;
  nc_shard_index : Z;
  nc_shard_count : Z;
  nc_node_id : string;
  nc_poll_secs : Z;
  nc_raft_mode : bool;
  nc_role : NodeRole;
  nc_group_size : Z;
  nc_ingest_on : bool;
  nc_coordinators : option (list string);
}.

(** Under raft every member registers as a follower. *)
Definition node_config : NodeConfig :=
  let addr_str := default "127.0.0.1:50051"%string (env "AETHER_SHARD_ADDR") in
  let shard_index := env_or env parse_u32 "AETHER_SHARD_INDEX" 0 in
  let is_follower := env_is env "AETHER_ROLE" "follower" in
  let raft_mode := env_is env "AETHER_CONSENSUS" "raft" in
  {| nc_addr := addr_str;
     nc_advertise := default addr_str (env "AETHER_ADVERTISE_ADDR");
     nc_shard_index := shard_index;
     nc_shard_count := env_or env parse_u32 "AETHER_SHARD_COUNT" 1;
     nc_node_id := default ("node-" +:+ show_Z shard_index) (env "AETHER_NODE_ID");
     nc_poll_secs := env_or env parse_u64 "AETHER_POLL_SECS" 10;
     nc_raft_mode := raft_mode;
     nc_role := if raft_mode || is_follower then Follower else Leader;
     nc_group_size := env_or env parse_u64 "AETHER_GROUP_SIZE" 3;
     nc_ingest_on := negb (env_is env "AETHER_INGEST" "off");
     nc_coordinators := coordinators_from_env (env "AETHER_COORDINATOR_ADDRS") (env "AETHER_COORDINATOR_ADDR") |}.

(** ** Tasks and services *)

Inductive Task :=
| Heartbeats (coords : list string) (node_id advertise : string) (shard : Z) (role : NodeRole)
    (secs : Z) (raft : option Z)
| VshardView (coords : list string)
| Bootstrap (my_id shard group_size : Z)
| Reconciler (my_id shard : Z)
| EvictionWatcher (my_id shard : Z)
| LeaderIngestion (source : FeedSource) (my_id poll_secs : Z) (ownership : Ownership)
| ReplicationLoop (coordinator : string) (shard : Z)
| IngestionLoop (source : FeedSource) (poll_secs : Z) (ownership : Ownership) (replicate_tx : bool).

Inductive Served :=
| SearchServed (label : string) (assigned : bool)
| ReplicationServed
| RaftTransportServed.

(** One tick of [run_vshard_view]: a failed fetch keeps the last known table. *)
Definition vshard_view_tick (coords : list string) (w : W) (table : list Z) : list Z :=
  match first_healthy coords w with
  | None => table
  | Some a => match cn_assignments a w with Ok t => t | Err _ => table end
  end.

(** Registration, heartbeats and the placement, in this order. *)
Definition join_cluster (c : NodeConfig) (raft : option Z) (w : W) : W * list Task * Ownership :=
  let '(w, beats) :=
    match nc_coordinators c with
    | Some coords =>
        ((register_all coords (nc_node_id c) (nc_advertise c) (nc_shard_index c) (nc_role c) w).1,
         [Heartbeats coords (nc_node_id c) (nc_advertise c) (nc_shard_index c) (nc_role c)
            (env_or env parse_u64 "AETHER_HEARTBEAT_SECS" 5) raft])
    | None => (w, [])
    end in
  let '(w, ownership) := startup_ownership (nc_coordinators c) (nc_shard_index c) (nc_shard_count c) w in
  (w, beats ++ match nc_coordinators c, ownership with
               | Some coords, Mapped _ _ => [VshardView coords]
               | _, _ => []
               end, ownership).

(** What a member of a raft group runs. *)
Definition raft_tasks (c : NodeConfig) (my_id : Z) (ownership : Ownership) : list Task :=
  let joining := bool_decide (env "AETHER_RAFT_JOIN" = Some "1"%string) in
  (if joining then [] else [Bootstrap my_id (nc_shard_index c) (nc_group_size c)])
  ++ [Reconciler my_id (nc_shard_index c)]
  ++ (if is_some (ow_assignments ownership) then [EvictionWatcher my_id (nc_shard_index c)] else [])
  ++ (if nc_ingest_on c
      then [LeaderIngestion (build_source (nc_node_id c)) my_id (nc_poll_secs c) ownership] else []).

(** What a configured leader runs without raft. *)
Definition legacy_tasks (c : NodeConfig) (ownership : Ownership) : list Task :=
  match nc_role c, nc_ingest_on c with
  | Leader, true =>
      match nc_coordinators c with
      | Some coords =>
          [ReplicationLoop (default EmptyString (head coords)) (nc_shard_index c);
           IngestionLoop (build_source (nc_node_id c)) (nc_poll_secs c) ownership true]
      | None => [IngestionLoop (build_source (nc_node_id c)) (nc_poll_secs c) ownership false]
      end
  | _, _ => []
  end.

(** [parses] is whether the listen address is one, [open_raft] what opening the raft
    storage and starting raft come to. *)
Definition node_main (parses : string → bool) (onnx : bool)
    (open_raft : result () string) (w : W)
    : W * result (NodeConfig * ShardStore * list Task * list Served) string :=
  let c := node_config in
  if negb (parses (nc_addr c)) then (w, Err "invalid socket address syntax"%string)
  else
    match build_store onnx, (if nc_raft_mode c then open_raft else Ok ()) with
    | Err e, _ => (w, Err e)
    | Ok _, Err e => (w, Err e)
    | Ok (_, store), Ok _ =>
        let raft := if nc_raft_mode c then Some (raft_node_id (nc_node_id c)) else None in
        let '(w, joined, ownership) := join_cluster c raft w in
        let served := [SearchServed ("shard-" +:+ show_Z (nc_shard_index c))
                         (is_some (ow_assignments ownership)); ReplicationServed] in
        (w, match raft, nc_coordinators c with
            | Some my_id, Some _ =>
                Ok (c, store, joined ++ raft_tasks c my_id ownership, served ++ [RaftTransportServed])
            | Some _, None => Err "AETHER_CONSENSUS=raft requires AETHER_COORDINATOR_ADDR(S)"%string
            | None, _ => Ok (c, store, joined ++ legacy_tasks c ownership, served)
            end)
    end.

(** ** Specification *)

Definition ingests (t : Task) : bool :=
  match t with LeaderIngestion _ _ _ _ | IngestionLoop _ _ _ _ => true | _ => false end.
Definition raft_task (t : Task) : bool :=
  match t with
  | Bootstrap _ _ _ | Reconciler _ _ | EvictionWatcher _ _ | LeaderIngestion _ _ _ _ => true
  | _ => false
  end.
Definition legacy_task (t : Task) : bool :=
  match t with ReplicationLoop _ _ | IngestionLoop _ _ _ _ => true | _ => false end.

(** The ownership a task keeps documents by. *)
Definition task_ownership (t : Task) : option Ownership :=
  match t with LeaderIngestion _ _ _ o | IngestionLoop _ _ o _ => Some o | _ => None end.

(** ** Lemmas *)

Lemma node_main_ok parses onnx open_raft (w w' : W) c store tasks served :
  node_main parses onnx open_raft w = (w', Ok (c, store, tasks, served)) →
  c = node_config ∧ ∃ beats own view,
    tasks = (beats ++ view) ++ (if nc_raft_mode c then raft_tasks c (raft_node_id (nc_node_id c)) own
                                else legacy_tasks c own) ∧
    (beats = [] ∨ ∃ a b d e f g h, beats = [Heartbeats a b d e f g h]) ∧
    (view = [] ∧ ow_assignments own = None ∨
     ∃ coords, view = [VshardView coords] ∧ is_Some (ow_assignments own)) ∧
    (nc_raft_mode c = true → is_Some (nc_coordinators c)).
Proof.
  unfold node_main. intros H. destruct (negb _); [discriminate|].
  destruct (build_store onnx) as [[ch st]|e]; [|discriminate].
  destruct (if nc_raft_mode node_config then open_raft else Ok ()) as [u|e]; [|discriminate].
  set (raft := if nc_raft_mode node_config then _ else _) in H.
  destruct (join_cluster node_config raft w) as [[w1 joined] own] eqn:Ej.
  assert (c = node_config ∧ tasks = joined ++ (if nc_raft_mode node_config
      then raft_tasks node_config (raft_node_id (nc_node_id node_config)) own
      else legacy_tasks node_config own) ∧
    (nc_raft_mode node_config = true → is_Some (nc_coordinators node_config))) as (-> & -> & Hc).
  { unfold raft in H. destruct (nc_raft_mode node_config).
    - destruct (nc_coordinators node_config) eqn:En; [|discriminate]. injection H as <- <- <- <- <-.
      split_and!; [done|done|by eexists].
    - by injection H as <- <- <- <- <-. }
  split; [done|]. unfold join_cluster, startup_ownership in Ej. clear H.
  destruct (nc_coordinators node_config) as [coords|].
  - destruct (ask_assignments _ _ _) as [w2 [table|]].
    + injection Ej as <- <- <-. eexists [_], _, [_].
      split_and!; [done|right; by eexists _, _, _, _, _, _, _| |done].
      right. eexists. split; [done|]. by eexists.
    + destruct (nz_new _) as [count|]; [destruct (1 <? _)|]; injection Ej as <- <- <-;
        (eexists [_], _, []; split_and!; [done|right; by eexists _, _, _, _, _, _, _|by left|done]).
  - destruct (nz_new _) as [count|]; [destruct (1 <? _)|]; injection Ej as <- <- <-;
      (eexists [], _, []; split_and!; [done|by left|by left|done]).
Qed.

(** What the modes add to the tasks of a joined node. *)
Lemma raft_tasks_spec c my_id own :
  Forall (λ t, legacy_task t = false) (raft_tasks c my_id own) ∧
  length (filter (λ t, ingests t = true) (raft_tasks c my_id own)) = (if nc_ingest_on c then 1 else 0)%nat ∧
  (∀ t o, t ∈ raft_tasks c my_id own → task_ownership t = Some o → o = own) ∧
  (is_Some (ow_assignments own) → EvictionWatcher my_id (nc_shard_index c) ∈ raft_tasks c my_id own).
Proof.
  unfold raft_tasks.
  destruct (bool_decide _), (ow_assignments own), (nc_ingest_on c); cbn [app is_some];
    (split_and!; [by repeat constructor|done| |]).
  all: try (intros t o Ht; repeat (apply elem_of_cons in Ht as [->|Ht]; [by intros [= <-]|]);
            by apply elem_of_nil in Ht).
  all: intros [x Hx]; first [done|set_solver].
Qed.

Lemma legacy_tasks_spec c own :
  Forall (λ t, raft_task t = false) (legacy_tasks c own) ∧
  length (filter (λ t, ingests t = true) (legacy_tasks c own)) =
    (if nc_ingest_on c && bool_decide (nc_role c = Leader) then 1 else 0)%nat ∧
  (∀ t o, t ∈ legacy_tasks c own → task_ownership t = Some o → o = own) ∧
  ((∃ a s, ReplicationLoop a s ∈ legacy_tasks c own) ↔
   ∃ src p o, IngestionLoop src p o true ∈ legacy_tasks c own).
Proof.
  unfold legacy_tasks. destruct (nc_role c), (nc_ingest_on c); try destruct (nc_coordinators c);
    (split_and!; [by repeat constructor|done| |]).
  all: try (intros t o Ht; repeat (apply elem_of_cons in Ht as [->|Ht]; [by intros [= <-]|]);
            by apply elem_of_nil in Ht).
  all: set_solver.
Qed.

(** ** Properties *)

(** One way in. A node that starts runs the tasks of one mode only; it ingests by exactly
    one task, or by none when ingestion is off or it is a configured follower; it pushes
    batches exactly when its ingestion forwards them; and whenever it keeps documents by
    the table of virtual shards, it keeps the table fresh and, as a member of a group,
    watches for evictions. *)
Theorem one_way_in parses onnx open_raft (w w' : W) c store tasks served
    (H : node_main parses onnx open_raft w = (w', Ok (c, store, tasks, served))) :
  Forall (λ t, (if nc_raft_mode c then legacy_task t else raft_task t) = false) tasks ∧
  length (filter (λ t, ingests t = true) tasks) =
    (if nc_ingest_on c && (nc_raft_mode c || bool_decide (nc_role c = Leader)) then 1 else 0)%nat ∧
  ((∃ a s, ReplicationLoop a s ∈ tasks) ↔ ∃ src p o, IngestionLoop src p o true ∈ tasks) ∧
  (∀ t o, t ∈ tasks → task_ownership t = Some o → is_Some (ow_assignments o) →
     (∃ coords, VshardView coords ∈ tasks) ∧
     (nc_raft_mode c = true → ∃ id s, EvictionWatcher id s ∈ tasks)).
Proof.
  destruct (node_main_ok _ _ _ _ _ _ _ _ _ H) as (-> & beats & own & view & -> & Hb & Hv & Hc). clear H.
  set (joined := beats ++ view).
  assert (∀ t, t ∈ joined → legacy_task t = false ∧ raft_task t = false ∧ ingests t = false ∧
    task_ownership t = None) as Hj.
  { unfold joined. destruct Hb as [->|(?&?&?&?&?&?&?&->)], Hv as [[-> _]|(? & -> & _)]; set_solver. }
  assert (filter (λ t, ingests t = true) joined = []) as Hn.
  { apply filter_none, Forall_forall. intros t Ht. destruct (Hj t Ht) as (_ & _ & -> & _). done. }
  assert (is_Some (ow_assignments own) → ∃ coords, VshardView coords ∈ joined) as Hview.
  { intros [table Ho]. destruct Hv as [[_ Hv]|(coords & -> & _)]; [congruence|]. exists coords.
    unfold joined. set_solver. }
  assert (nc_raft_mode node_config = true → nc_role node_config = Follower) as Hrole.
  { unfold node_config. cbn [nc_raft_mode nc_role]. by intros ->. }
  assert (∀ t o rest, t ∈ joined ++ rest → task_ownership t = Some o → t ∈ rest) as Hown.
  { intros t o rest [Ht|Ht]%elem_of_app Ho; [|done]. destruct (Hj t Ht) as (_ & _ & _ & ?). congruence. }
  rewrite filter_app, Hn. cbn [app]. destruct (nc_raft_mode node_config).
  - destruct (raft_tasks_spec node_config (raft_node_id (nc_node_id node_config)) own)
      as (H1 & H2 & H3 & H4). rewrite H2. rewrite Forall_forall in H1. split_and!.
    + apply Forall_forall. intros t [Ht|Ht]%elem_of_app; [apply Hj, Ht|apply H1, Ht].
    + by rewrite andb_true_r.
    + split; [intros (a & s & [Ht|Ht]%elem_of_app)|intros (src & p & o & [Ht|Ht]%elem_of_app)];
        first [apply Hj in Ht as (? & _)|apply H1 in Ht]; done.
    + intros t o Ht Ho Hs. pose proof (H3 t o (Hown _ _ _ Ht Ho) Ho) as ->. split.
      * destruct (Hview Hs) as [coords ?]. exists coords. apply elem_of_app. by left.
      * intros _. eexists _, _. apply elem_of_app. right. by apply H4.
  - destruct (legacy_tasks_spec node_config own) as (H1 & H2 & H3 & H4). rewrite H2.
    rewrite Forall_forall in H1. split_and!.
    + apply Forall_forall. intros t [Ht|Ht]%elem_of_app; [apply Hj, Ht|apply H1, Ht].
    + done.
    + setoid_rewrite elem_of_app. split; [intros (a & s & [Ht|Ht])|intros (src & p & o & [Ht|Ht])];
        try (apply Hj in Ht as (? & _); done).
      * destruct (proj1 H4) as (src & p & o & Hin); [by exists a, s|]. exists src, p, o. by right.
      * destruct (proj2 H4) as (a & s & Hin); [by exists src, p, o|]. exists a, s. by right.
    + intros t o Ht Ho Hs. pose proof (H3 t o (Hown _ _ _ Ht Ho) Ho) as ->. split; [|done].
      destruct (Hview Hs) as [coords ?]. exists coords. apply elem_of_app. by left.
Qed.
End node.

(** ** Witnesses and examples *)

#[local] Existing Instances canonical_order ascii_only whole_numbers tiny_embedder scan_graph
  stable_sort plain_control tuple_codec tiny_runtime plain_raft plain_codec.

(** A member of a group, next to a coordinator that places by virtual shards. *)
Definition member_env (key : string) : option string :=
  (list_to_map [("AETHER_CONSENSUS", "RAFT"); ("AETHER_COORDINATOR_ADDR", "a:1");
                ("AETHER_SHARD_INDEX", "1"); ("AETHER_SHARD_COUNT", "2"); ("AETHER_NODE_ID", "m1");
                ("AETHER_SOURCE", "synthetic")] : gmap string string)%string !! key.

Definition member_main : World * result (NodeConfig * ShardStore * list Task * list Served) string :=
  node_main member_env (λ _, true) false (Ok ()) after_restart.

Definition member_tasks : list Task :=
  match member_main.2 with Ok (_, _, tasks, _) => tasks | Err _ => [] end.

Example member_tasks_ex :
  (λ t, match t with
        | Heartbeats _ _ _ _ _ _ _ => 0 | VshardView _ => 1 | Bootstrap _ _ _ => 2
        | Reconciler _ _ => 3 | EvictionWatcher _ _ => 4 | LeaderIngestion _ _ _ _ => 5
        | ReplicationLoop _ _ => 6 | IngestionLoop _ _ _ _ => 7
        end) <$> member_tasks = [0; 1; 2; 3; 4; 5].
Proof. vm_compute. reflexivity. Qed.

Lemma one_way_in_witness :
  length (filter (λ t, ingests t = true) member_tasks) = 1%nat ∧
  Forall (λ t, legacy_task t = false) member_tasks.
Proof.
  unfold member_tasks. destruct member_main as [w' [[[[c store] tasks] served]|e]] eqn:E;
    [|vm_compute in E; discriminate E].
  assert (nc_raft_mode c = true ∧ nc_ingest_on c = true) as [Hr Hi].
  { destruct (node_main_ok _ _ _ _ _ _ _ _ _ _ E) as [-> _]. by split; vm_compute. }
  destruct (one_way_in member_env (λ _, true) false (Ok ()) after_restart w' c store tasks
    served E) as (H1 & H2 & _).
  rewrite Hr in H1. rewrite Hr, Hi in H2. split; [exact H2|exact H1].
Defined.

(** The replication service is offered in every mode, and it writes to the store beside the
    log: after one call a member of a group holds a document that is in none of the log's
    commands. *)
Theorem replicate_bypasses_log :
  (∀ w' c store tasks served, member_main = (w', Ok (c, store, tasks, served)) →
     nc_raft_mode c = true ∧ ReplicationServed ∈ served) ∧
  keeps canonical_order (Mapped 0 [0]) [ual1] (ual1_shard "m:1") ∧
  ∃ s n, Server.replicate (ual1_shard "m:1") {| rr_documents := [plane "x"]; rr_shard_id := 0 |} =
      Some (Ok (s, n)) ∧
    st_contents s !! "x"%string = Some (plane "x") ∧
    insert_docs ∅ (owned (Mapped 0 [0]) [ual1]) !! "x"%string = None.
Proof.
  split; [|split; [apply ual1_member_keeps|]].
  - intros w' c store tasks served E. destruct (node_main_ok _ _ _ _ _ _ _ _ _ _ E) as [-> _].
    split; [by vm_compute|]. vm_compute in E. injection E as _ _ _ <-. right. left.
  - destruct (st_insert_all_spec ual1_store [plane "x"] ual1_store_wf) as (s & E & _ & Hc & _).
    exists s, 1. split; [|split; [|reflexivity]].
    + unfold Server.replicate. cbn [read_store ual1_shard sv_new sv_poisoned sv_store rr_documents].
      by rewrite E.
    + rewrite Hc. apply lookup_insert_eq.
Qed.
