(* ===== verification/AgentTools.v ===== *)
(** * The read-only tool surface: [agent-tools/src/lib.rs]

    The tools' definitions, their arguments, dispatch and the text they answer with. The
    coordinator is reached through an interface, [AgentNet]; [live_agent] implements it
    with the coordinator's own handlers. *)

From S2P Require Export Json Client Service.

(** ** The tools *)

Section tools.
Context {JS : Json}.

Definition definitions : Value :=
  Array [
    Object [
      ("name", JString "search_flights");
      ("description", JString "Find SPECIFIC flight records matching keywords (callsign, origin, destination, aircraft type) — use it to retrieve individual flights, e.g. 'the flight with callsign SYN0' or 'flights from France'. NOT for summaries: to count, list distinct values, or get a breakdown/distribution, use aggregate_flights instead. Fans out across every shard and returns a merged, ranked result.");
      ("inputSchema", Object [
        ("type", JString "object");
        ("properties", Object [
          ("query", Object [
            ("type", JString "string");
            ("description", JString "keywords, e.g. a callsign or a country")]);
          ("limit", Object [
            ("type", JString "integer");
            ("minimum", Number (number_of_Z 1));
            ("maximum", Number (number_of_Z 50));
            ("description", JString "max results (default 5)")]);
          ("filters", Object [
            ("type", JString "array");
            ("description", JString "structured conditions, ANDed. Each: {field, equals} for text (origin, aircraft_type, callsign...), {field, min?, max?} for numeric (altitude, velocity, observed_at...), {field, is} for on_ground.");
            ("items", Object [
              ("type", JString "object")])])]);
        ("required", Array [JString "query"])])];
    Object [
      ("name", JString "semantic_search_flights");
      ("description", JString "Semantic (vector) search: the query text is embedded and matched by meaning against flight documents, fanned across every shard.");
      ("inputSchema", Object [
        ("type", JString "object");
        ("properties", Object [
          ("query", Object [
            ("type", JString "string");
            ("description", JString "free-text description of what to find")]);
          ("limit", Object [
            ("type", JString "integer");
            ("minimum", Number (number_of_Z 1));
            ("maximum", Number (number_of_Z 50));
            ("description", JString "max results (default 5)")])]);
        ("required", Array [JString "query"])])];
    Object [
      ("name", JString "hybrid_search_flights");
      ("description", JString "Hybrid search: runs BOTH keyword and semantic search and fuses the rankings (Reciprocal Rank Fusion). Best when a query mixes an exact term with a fuzzy intent. Each hit's provenance says which index found it.");
      ("inputSchema", Object [
        ("type", JString "object");
        ("properties", Object [
          ("query", Object [
            ("type", JString "string");
            ("description", JString "keywords and/or free-text intent")]);
          ("limit", Object [
            ("type", JString "integer");
            ("minimum", Number (number_of_Z 1));
            ("maximum", Number (number_of_Z 50));
            ("description", JString "max results (default 5)")])]);
        ("required", Array [JString "query"])])];
    Object [
      ("name", JString "cluster_state");
      ("description", JString "Current cluster topology as the coordinator sees it: shards, leaders and followers, liveness, and virtual-shard placement. Read-only telemetry.");
      ("inputSchema", Object [
        ("type", JString "object");
        ("properties", Object [])])];
    Object [
      ("name", JString "aggregate_flights");
      ("description", JString "Summarize flights across the whole cluster — use this for ANY question about how many, which/what distinct values exist, a breakdown or distribution, or top-N. kind=count answers 'how many'; kind=value_counts answers 'which/what X are flying' or 'breakdown by X' (field=origin, aircraft_type, ...); time/numeric_histogram, geo_grid, and percentiles cover distributions of a field. Prefer this over search whenever the answer is a summary rather than specific records. Each shard computes a partial; the coordinator merges them and reports coverage.");
      ("inputSchema", Object [
        ("type", JString "object");
        ("properties", Object [
          ("kind", Object [
            ("type", JString "string");
            ("enum", Array [JString "count"; JString "value_counts"; JString "time_histogram"; JString "numeric_histogram"; JString "geo_grid"; JString "percentiles"]);
            ("description", JString "which aggregation")]);
          ("query", Object [
            ("type", JString "string");
            ("description", JString "optional keyword filter (empty = all flights)")]);
          ("field", Object [
            ("type", JString "string");
            ("description", JString "field for value_counts (origin, aircraft_type, ...) or numeric_histogram/percentiles (altitude, velocity, ...)")]);
          ("interval", Object [
            ("type", JString "number");
            ("description", JString "bucket width: ms for time, units for numeric, degrees for geo_grid")]);
          ("percentiles", Object [
            ("type", JString "array");
            ("items", Object [
              ("type", JString "number")]);
            ("description", JString "for percentiles, e.g. [50, 95, 99]")]);
          ("filters", Object [
            ("type", JString "array");
            ("description", JString "structured conditions, ANDed. Each: {field, equals} for text, {field, min?, max?} for numeric, {field, is} for on_ground.");
            ("items", Object [
              ("type", JString "object")])])]);
        ("required", Array [JString "kind"])])]].

(** The names the definitions give, in order. *)
Definition defined_names : list string :=
  omap (λ d, value_get d "name" ≫= as_str) (default [] (as_array definitions)).
End tools.

(** ** Arguments *)

Section arguments.
Context {JS : Json}.

Definition tool_limit (args : Value) : Z :=
  wrap_u32 (default 5 (value_get args "limit" ≫= as_u64)).

Definition parse_filter (c : Value) : result FilterCondition string :=
  field <-? ok_or (value_get c "field" ≫= as_str) "each filter needs a 'field'";;
  test <-? match value_get c "equals" ≫= as_str with
           | Some eq => Ok (Equals eq)
           | None =>
               if is_some (value_get c "min") || is_some (value_get c "max") then
                 Ok (Range {| nr_min := value_get c "min" ≫= as_f64;
                              nr_max := value_get c "max" ≫= as_f64 |})
               else match value_get c "is" ≫= as_bool with
                    | Some b => Ok (Is b)
                    | None => Err ("filter on '" +:+ field +:+ "' needs 'equals', 'min'/'max', or 'is'")
                    end
           end;;
  Ok {| fc_field := field; fc_test := Some test |}.

Fixpoint parse_filter_list (l : list Value) (conditions : list FilterCondition)
    : result (list FilterCondition) string :=
  match l with
  | [] => Ok conditions
  | c :: rest => cond <-? parse_filter c;; parse_filter_list rest (conditions ++ [cond])
  end.

Definition parse_filters (args : Value) : result (option Wire.Filter) string :=
  match value_get args "filters" ≫= as_array with
  | None => Ok None
  | Some l =>
      conditions <-? parse_filter_list l [];;
      Ok (match conditions with [] => None | _ => Some {| f_conditions := conditions |} end)
  end.

Definition required_query (args : Value) : result string string :=
  ok_or (value_get args "query" ≫= as_str) "missing required argument: query".

Definition aggregation_kind (args : Value) : result AggKind string :=
  let kind := default "count"%string (value_get args "kind" ≫= as_str) in
  if bool_decide (kind = "count"%string) then Ok AggCount
  else if bool_decide (kind = "value_counts"%string) then Ok AggValueCounts
  else if bool_decide (kind = "time_histogram"%string) then Ok AggTimeHistogram
  else if bool_decide (kind = "numeric_histogram"%string) then Ok AggNumericHistogram
  else if bool_decide (kind = "geo_grid"%string) then Ok AggGeoGrid
  else if bool_decide (kind = "percentiles"%string) then Ok AggPercentiles
  else Err ("unknown aggregation kind: " +:+ kind).

Definition aggregate_request (args : Value) (kind : AggKind) : result AggregateRequest string :=
  filter <-? parse_filters args;;
  Ok {| ar_query := default EmptyString (value_get args "query" ≫= as_str);
        ar_kind := agg_kind_to_i32 kind;
        ar_field := default EmptyString (value_get args "field" ≫= as_str);
        ar_interval := default f64_zero (value_get args "interval" ≫= as_f64);
        ar_percentiles :=
          match value_get args "percentiles" ≫= as_array with
          | Some a => omap as_f64 a
          | None => []
          end;
        ar_filter := filter |}.
End arguments.

(** ** Answers *)

Section answers.
Context {HO : HashOrder} {FL : FloatLib}.

Definition provenance_line (m : option QueryManifest) (now_ms : Z) : string :=
  match m with
  | Some m => newline +:+ "provenance: " +:+ manifest_summary m now_ms +:+ newline
  | None => EmptyString
  end.

Definition hit_line (hit : SearchHit) : string :=
  let d := default default_doc (sh_document hit) in
  let via := match sh_provenance hit with Some p => hp_source_group p | None => "?"%string end in
  let how := match (λ p, index_kind_of_i32 (hp_index p)) <$> sh_provenance hit with
             | Some IndexKeyword => " keyword"%string
             | Some IndexVector => " vector"%string
             | _ => EmptyString
             end in
  "- " +:+ fd_icao24 d +:+ " " +:+ fd_callsign d +:+ " (" +:+ fd_origin d +:+ " -> "
    +:+ fd_destination d +:+ ") " +:+ fd_aircraft_type d +:+ " score="
    +:+ f64_fixed 3 (sh_score hit) +:+ " [via " +:+ via +:+ how +:+ "]" +:+ newline.

Definition format_hits (resp : SearchResponse) (now_ms : Z) : string :=
  show_Z (sp_total_matched resp) +:+ " matched across " +:+ show_Z (sp_shards_answered resp)
    +:+ "/" +:+ show_Z (sp_shards_queried resp) +:+ " shards" +:+ newline
    +:+ concat_text (hit_line <$> sp_hits resp)
    +:+ provenance_line (sp_manifest resp) now_ms.

Definition node_line (node : NodeState) : string :=
  "- shard " +:+ show_Z (ns_shard_id node) +:+ " · " +:+ ns_node_id node +:+ " · "
    +:+ show_role (role_of_i32 (ns_role node)) +:+ " · seen "
    +:+ f64_fixed 1 (f64_div (f64_of_Z (ns_millis_since_seen node)) (f64_of_Z 1000)) +:+ "s ago"
    +:+ (if ns_draining node then " · draining" else EmptyString) +:+ newline.

Definition format_state (state : ClusterStateResponse) : string :=
  show_Z (cs_shard_count state) +:+ " shard group(s)" +:+ newline
    +:+ concat_text (node_line <$> cs_nodes state)
    +:+ match cs_vshard_group state with
        | [] => EmptyString
        | l => "virtual shards -> groups: [" +:+ join ", " (show_Z <$> l) +:+ "]" +:+ newline
        end.

(** Biggest first, then by key. *)
Definition bucket_cmp (a b : string * Z) : comparison :=
  then_with (Z.compare b.2 a.2) (str_cmp a.1 b.1).

Definition format_aggregate (kind : AggKind) (resp : AggregateResponse) (now_ms : Z) : string :=
  match ag_partial resp with
  | None => EmptyString
  | Some p =>
      match kind with
      | AggCount => "count: " +:+ show_Z (ap_count p) +:+ newline
      | AggPercentiles =>
          concat_text ((λ pc, "p" +:+ f64_display (pc_p pc) +:+ ": " +:+ f64_fixed 2 (pc_value pc)
                                +:+ newline) <$> ag_percentiles resp)
      | _ =>
          concat_text ((λ kv : string * Z, kv.1 +:+ ": " +:+ show_Z kv.2 +:+ newline)
                         <$> take 25 (sort_by bucket_cmp (hm_order (ap_buckets p))))
            +:+ "(" +:+ show_Z (ap_count p) +:+ " matched)" +:+ newline
      end
  end +:+ provenance_line (ag_manifest resp) now_ms.
End answers.

(** ** The interface to a coordinator *)

(** [an_connect] is [connect_first_healthy] over the configured addresses; every call
    carries the process's token. *)
Class AgentNet (W : Type) := {
  an_connect : W → result () string;
  an_now : W → Z;
  an_search : SearchRequest → W → W * result SearchResponse Status;
  an_vector_search : VectorSearchRequest → W → W * result SearchResponse Status;
  an_hybrid_search : SearchRequest → W → W * result SearchResponse Status;
  an_cluster_state : W → W * result ClusterStateResponse Status;
  an_aggregate : AggregateRequest → W → W * result AggregateResponse Status;
}.

(** ** Dispatch *)

(** [show_status] is [Status::to_string]. *)
Section dispatch.
Context {W : Type} {AN : AgentNet W} {JS : Json} {HO : HashOrder} {UC : Unicode} {FL : FloatLib}
  (show_status : Status → string).

Definition reply {A} (f : A → W → string) (r : W * result A Status) : W * result string string :=
  (r.1, match r.2 with Ok a => Ok (f a r.1) | Err e => Err (show_status e) end).

Definition tool_search (args : Value) (w : W) : W * result string string :=
  match (query <-? required_query args;; _ <-? an_connect w;;
         filter <-? parse_filters args;;
         Ok {| sr_query := query; sr_limit := tool_limit args; sr_filter := filter |}) with
  | Err e => (w, Err e)
  | Ok req => reply (λ resp w, format_hits resp (an_now w)) (an_search req w)
  end.

Definition tool_semantic (args : Value) (w : W) : W * result string string :=
  match (query <-? required_query args;; _ <-? an_connect w;;
         Ok {| vr_vector := hash_embed query; vr_limit := tool_limit args; vr_filter := None |}) with
  | Err e => (w, Err e)
  | Ok req => reply (λ resp w, format_hits resp (an_now w)) (an_vector_search req w)
  end.

Definition tool_hybrid (args : Value) (w : W) : W * result string string :=
  match (query <-? required_query args;; _ <-? an_connect w;;
         filter <-? parse_filters args;;
         Ok {| sr_query := query; sr_limit := tool_limit args; sr_filter := filter |}) with
  | Err e => (w, Err e)
  | Ok req => reply (λ resp w, format_hits resp (an_now w)) (an_hybrid_search req w)
  end.

Definition tool_state (_ : Value) (w : W) : W * result string string :=
  match an_connect w with
  | Err e => (w, Err e)
  | Ok _ => reply (λ state _, format_state state) (an_cluster_state w)
  end.

Definition tool_aggregate (args : Value) (w : W) : W * result string string :=
  match (kind <-? aggregation_kind args;; req <-? aggregate_request args kind;;
         _ <-? an_connect w;; Ok (kind, req)) with
  | Err e => (w, Err e)
  | Ok (kind, req) => reply (λ resp w, format_aggregate kind resp (an_now w)) (an_aggregate req w)
  end.

(** The arms of [call]. *)
Definition dispatch (name : string) : option (Value → W → W * result string string) :=
  if bool_decide (name = "search_flights"%string) then Some tool_search
  else if bool_decide (name = "semantic_search_flights"%string) then Some tool_semantic
  else if bool_decide (name = "hybrid_search_flights"%string) then Some tool_hybrid
  else if bool_decide (name = "cluster_state"%string) then Some tool_state
  else if bool_decide (name = "aggregate_flights"%string) then Some tool_aggregate
  else None.

Definition call_tool (name : string) (args : Value) (w : W) : W * result string string :=
  match dispatch name with
  | Some tool => tool args w
  | None => (w, Err ("unknown tool: " +:+ name))
  end.
End dispatch.

(** ** The coordinator itself *)

(** A coordinator, the addresses and which of them answer, the token, and what the
    network does to a query. *)
Record AgentWorld := {
  aw_co : CoordinatorService;
  aw_addrs : list string;
  aw_up : string → bool;
  aw_header : option string;
  aw_net : Net;
  aw_now : Z;
}.

Definition set_co (w : AgentWorld) (co : CoordinatorService) : AgentWorld :=
  {| aw_co := co; aw_addrs := aw_addrs w; aw_up := aw_up w; aw_header := aw_header w;
     aw_net := aw_net w; aw_now := aw_now w |}.

(** A handler that panics ends the call. *)
#[export] Instance live_agent {HO : HashOrder} {UC : Unicode} {FL : FloatLib} : AgentNet AgentWorld :=
  {| an_connect w := _ <-? connect_first_healthy (aw_up w) (aw_addrs w);; Ok ();
     an_now := aw_now;
     an_search req w :=
       let '(co, r) := search (aw_co w) (aw_header w) req (aw_net w) in (set_co w co, r);
     an_vector_search req w := (w, vector_search (aw_co w) (aw_header w) req (aw_net w));
     an_hybrid_search req w := (w, hybrid_search (aw_co w) (aw_header w) req (aw_net w));
     an_cluster_state w := (w, get_cluster_state (aw_co w) (aw_header w) (aw_now w));
     an_aggregate req w :=
       match aggregate (aw_co w) (aw_header w) req (aw_net w) with
       | Some (co, r) => (set_co w co, r)
       | None => (w, Err (status Internal "panicked"))
       end |}.

(** ** Lemmas *)

(** What no tool changes. *)
Definition untouched (w w' : AgentWorld) : Prop :=
  co_registry (aw_co w') = co_registry (aw_co w) ∧ co_auth (aw_co w') = co_auth (aw_co w) ∧
  co_control (aw_co w') = co_control (aw_co w).

Section lemmas.
Context {HO : HashOrder} {UC : Unicode} {FL : FloatLib}.

Lemma untouched_refl w : untouched w w.
Proof. done. Qed.

Lemma live_search req w : untouched w (an_search req w).1.
Proof. cbn. unfold search. by destruct (vet _ _ _). Qed.

Lemma live_aggregate req w : untouched w (an_aggregate req w).1.
Proof.
  cbn. unfold aggregate. destruct (vet _ _ _) as [r|e]; [|done].
  destruct (scatter_aggregate _ _ _) as [ps os].
  by destruct (merge_partials _ _ _) as [[]|].
Qed.

Lemma tool_untouched {JS : Json} show_status name tool args w :
  dispatch show_status name = Some tool → untouched w (tool args w).1.
Proof.
  unfold dispatch. intros H.
  repeat (case_bool_decide; [injection H as <-|]); [..|done];
    unfold tool_search, tool_semantic, tool_hybrid, tool_state, tool_aggregate, reply;
    repeat case_match; simplify_eq/=; try done;
    first [apply live_search|apply live_aggregate|idtac].
Qed.

Lemma call_untouched {JS : Json} show_status name args w w1 :
  untouched w w1 → untouched w (call_tool show_status name args w1).1.
Proof.
  intros Hu. unfold call_tool. destruct (dispatch show_status name) as [tool|] eqn:Ed; [|exact Hu].
  pose proof (tool_untouched show_status name tool args w1 Ed) as Hu'.
  destruct Hu as (? & ? & ?), Hu' as (? & ? & ?). split_and!; congruence.
Qed.

(** Without the read scope a tool only fails. *)
Lemma tool_denied {JS : Json} show_status name tool args w e :
  require (co_auth (aw_co w)) (aw_header w) Read = Err e → dispatch show_status name = Some tool →
  ∃ m, tool args w = (w, Err m).
Proof.
  intros He H. assert (set_co w (aw_co w) = w) as Hw by by destruct w.
  unfold dispatch in H. repeat (case_bool_decide; [injection H as <-|]); [..|done];
    unfold tool_search, tool_semantic, tool_hybrid, tool_state, tool_aggregate, reply;
    (case_match; [|by eexists]); cbn [an_search an_vector_search an_hybrid_search an_cluster_state
      an_aggregate live_agent]; unfold search, vector_search, hybrid_search, get_cluster_state, aggregate;
    try (destruct a as [kind req]);
    rewrite ?(vet_refused _ _ _ _ He), ?He; cbn [fst snd]; rewrite ?Hw; by eexists.
Qed.
End lemmas.

Section filter_lemmas.
Context {JS : Json}.

Lemma parse_filter_list_spec l acc :
  match parse_filter_list l acc with
  | Ok cs => ∃ new, cs = acc ++ new ∧ Forall2 (λ c cond, parse_filter c = Ok cond) l new
  | Err e => ∃ before c after, l = before ++ c :: after ∧ parse_filter c = Err e ∧
      Forall (λ c, is_ok (parse_filter c) = true) before
  end.
Proof.
  revert acc. induction l as [|c l IH]; intros acc; cbn [parse_filter_list].
  { exists []. by rewrite app_nil_r. }
  destruct (parse_filter c) as [cond|e] eqn:E; [|by exists [], c, l].
  specialize (IH (acc ++ [cond])). destruct (parse_filter_list l (acc ++ [cond])) as [cs|e].
  - destruct IH as (new & -> & H). exists (cond :: new). rewrite <- app_assoc. split; [done|by constructor].
  - destruct IH as (b & x & aft & -> & Hx & Hb). exists (c :: b), x, aft.
    split_and!; [done|done|]. constructor; [by rewrite E|done].
Qed.

(** What the schema says an element stands for: [equals] goes before the bounds, these
    before [is]; a bound that is not a number is no bound. *)
Inductive reads_as (c : Value) (field : string) : Test → Prop :=
| reads_equals t :
    value_get c "field" ≫= as_str = Some field → value_get c "equals" ≫= as_str = Some t →
    reads_as c field (Equals t)
| reads_range lo hi :
    value_get c "field" ≫= as_str = Some field → value_get c "equals" ≫= as_str = None →
    value_get c "min" ≠ None ∨ value_get c "max" ≠ None →
    lo = value_get c "min" ≫= as_f64 → hi = value_get c "max" ≫= as_f64 →
    reads_as c field (Range {| nr_min := lo; nr_max := hi |})
| reads_is b :
    value_get c "field" ≫= as_str = Some field → value_get c "equals" ≫= as_str = None →
    value_get c "min" = None → value_get c "max" = None → value_get c "is" ≫= as_bool = Some b →
    reads_as c field (Is b).

(** An element without a field, or with a field and none of the tests. *)
Inductive misshapen (c : Value) : string → Prop :=
| no_field :
    value_get c "field" ≫= as_str = None → misshapen c "each filter needs a 'field'"
| no_test field :
    value_get c "field" ≫= as_str = Some field → value_get c "equals" ≫= as_str = None →
    value_get c "min" = None → value_get c "max" = None → value_get c "is" ≫= as_bool = None →
    misshapen c ("filter on '" +:+ field +:+ "' needs 'equals', 'min'/'max', or 'is'").

Lemma parse_filter_reads c :
  match parse_filter c with
  | Ok cond => ∃ t, fc_test cond = Some t ∧ reads_as c (fc_field cond) t
  | Err e => misshapen c e
  end.
Proof.
  unfold parse_filter. destruct (value_get c "field" ≫= as_str) as [f|] eqn:Ef; [|by constructor].
  cbn [ok_or]. destruct (value_get c "equals" ≫= as_str) as [t|] eqn:Ee.
  { eexists. split; [done|]. by constructor. }
  destruct (value_get c "min") as [lo|] eqn:El, (value_get c "max") as [hi|] eqn:Eh; cbn [is_some orb].
  1-3: eexists; (split; [done|]); constructor; rewrite ?El, ?Eh; auto.
  destruct (value_get c "is" ≫= as_bool) as [b|] eqn:Eb; [|by constructor].
  eexists. split; [done|]. by constructor.
Qed.

Lemma reads_not_misshapen c field t e : reads_as c field t → ¬ misshapen c e.
Proof. intros Hr Hm. destruct Hr, Hm; try congruence; naive_solver. Qed.
End filter_lemmas.

(** ** Properties *)

Section properties.
Context {HO : HashOrder} {UC : Unicode} {FL : FloatLib} {JS : Json} (show_status : Status → string).

(** Agents can only read. Whatever tool is named, whatever its arguments, and whatever
    the network does, a call through the coordinator's handlers leaves the coordinator's
    registry, its token table and its group membership as they were; without a token of
    the read scope every tool fails and nothing at all has changed, not even a counter. *)
Theorem tools_read_only (name : string) (args : Value) (w : AgentWorld) :
  let '(w', r) := call_tool show_status name args w in
  untouched w w' ∧
  (∀ e, require (co_auth (aw_co w)) (aw_header w) Read = Err e → w' = w ∧ ∃ m, r = Err m).
Proof.
  unfold call_tool. destruct (dispatch show_status name) as [tool|] eqn:E.
  - pose proof (tool_untouched show_status name tool args w E) as Hu.
    destruct (tool args w) as [w' r] eqn:Et. split; [exact Hu|]. intros e He.
    destruct (tool_denied show_status name tool args w e He E) as [m Hm]. rewrite Hm in Et.
    injection Et as <- <-. by split; [|eexists].
  - split; [apply untouched_refl|]. intros e _. by split; [|eexists].
Qed.

(** The surface does not drift: the tools that are defined are the tools that are
    dispatched, each once. *)
Theorem surface_agrees (name : string) :
  (is_Some (dispatch show_status (W := AgentWorld) name) ↔ name ∈ defined_names) ∧
  NoDup defined_names.
Proof.
  assert (defined_names = ["search_flights"; "semantic_search_flights"; "hybrid_search_flights";
    "cluster_state"; "aggregate_flights"]%string) as -> by reflexivity.
  split; [|repeat (apply NoDup_cons; split; [set_solver|]); apply NoDup_nil_2].
  unfold dispatch. rewrite !elem_of_cons, elem_of_nil.
  split; [|intros Hn; repeat case_bool_decide; try done; naive_solver].
  intros [t H]. repeat case_bool_decide; try done; naive_solver.
Qed.

(** C22: what a tool makes of its filters. An argument [filters] that is not a list, or is
    empty, is no filter. Otherwise either every element reads as a test by the schema, and
    the filter has exactly those conditions, in their order; or some element is misshapen
    (it names no field, or has none of the tests), and the first such one is the error. A
    bound of the wrong type is no error: it bounds nothing. *)
Theorem parse_filters_shape (args : Value) :
  match value_get args "filters" ≫= as_array with
  | None | Some [] => parse_filters args = Ok None
  | Some l =>
      match parse_filters args with
      | Ok None => False
      | Ok (Some f) =>
          Forall2 (λ c cond, ∃ t, fc_test cond = Some t ∧ reads_as c (fc_field cond) t) l (f_conditions f)
      | Err e => ∃ before c after, l = before ++ c :: after ∧ misshapen c e ∧
          Forall (λ c, ∃ field t, reads_as c field t) before
      end
  end.
Proof.
  unfold parse_filters. destruct (value_get args "filters" ≫= as_array) as [[|x l]|]; [done| |done].
  pose proof (parse_filter_list_spec (x :: l) []) as H. destruct (parse_filter_list (x :: l) []) as [cs|e].
  - destruct H as (new & -> & H). cbn [app]. destruct new as [|c new]; [by inversion H|].
    cbn [f_conditions]. eapply Forall2_impl; [exact H|]. intros a b E.
    pose proof (parse_filter_reads a) as Hr. by rewrite E in Hr.
  - destruct H as (b & c & a & El & Hc & Hb). exists b, c, a. split_and!; [exact El| |].
    + pose proof (parse_filter_reads c) as Hr. by rewrite Hc in Hr.
    + eapply Forall_impl; [exact Hb|]. intros y Hy. cbv beta in Hy. pose proof (parse_filter_reads y) as Hr.
      destruct (parse_filter y) as [cond|]; [|done]. destruct Hr as (t & _ & Hr). by exists (fc_field cond), t.
Qed.
End properties.

(** ** Examples *)

#[local] Existing Instances canonical_order ascii_only whole_numbers integers.

(** A bound of the wrong type is not an error: it is dropped, and the condition becomes a
    range that every value passes. *)
Theorem bad_bound_is_dropped :
  parse_filters (Object [("filters", Array [Object [("field", JString "altitude");
    ("min", JString "10000")]])]) =
  Ok (Some {| f_conditions := [{| fc_field := "altitude";
    fc_test := Some (Range {| nr_min := None; nr_max := None |}) |}] |}).
Proof. reflexivity. Qed.

(** The limit is not held to the schema's maximum: it is truncated to 32 bits, and 2^32
    becomes 0, which means no limit. *)
Theorem limit_wraps_to_none : tool_limit (Object [("limit", Number (2 ^ 32))]) = 0.
Proof. reflexivity. Qed.
