(* ===== verification/Mcp.v ===== *)
(** * The MCP server: [crates/mcp-agent/src/main.rs]

    JSON-RPC over standard input around the agent tools. Parsing and printing JSON are
    parameters, the lines and which writes succeed are inputs; diagnostics are left out. *)

From S2P Require Export AgentTools.

Section mcp.
Context {W : Type} {AN : AgentNet W} {JS : Json} {HO : HashOrder} {UC : Unicode} {FL : FloatLib}
  (show_status : Status → string) (version : string).

(** ** Messages *)

Definition rpc_result (id result : Value) : Value :=
  Object [("jsonrpc", JString "2.0"); ("id", id); ("result", result)]%string.

Definition rpc_error (id : Value) (code : Z) (message : string) : Value :=
  Object [("jsonrpc", JString "2.0"); ("id", id);
          ("error", Object [("code", Number (number_of_Z code)); ("message", JString message)])]%string.

(** [Value::pointer] for a path of two names. *)
Definition pointer (v : Value) (a b : string) : option Value := value_get v a ≫= λ p, value_get p b.

(** ** One message *)

Definition initialize (msg : Value) : Value :=
  Object [("protocolVersion", default (JString "2024-11-05") (pointer msg "params" "protocolVersion"));
          ("capabilities", Object [("tools", Object [])]);
          ("serverInfo", Object [("name", JString "aether-query-agent"); ("version", JString version)])]%string.

Definition tools_call (msg : Value) (w : W) : W * Value :=
  let name := default EmptyString (pointer msg "params" "name" ≫= as_str) in
  let args := default (Object []) (pointer msg "params" "arguments") in
  let '(w, r) := call_tool show_status name args w in
  let '(text, is_error) := match r with Ok text => (text, false) | Err e => (e, true) end in
  (w, Object [("content", Array [Object [("type", JString "text"); ("text", JString text)]]);
              ("isError", Bool is_error)]%string).

Definition handle (msg : Value) (w : W) : W * option Value :=
  match value_get msg "method" ≫= as_str, value_get msg "id" with
  | Some method, Some id =>
      if bool_decide (method = "initialize"%string) then (w, Some (rpc_result id (initialize msg)))
      else if bool_decide (method = "ping"%string) then (w, Some (rpc_result id (Object [])))
      else if bool_decide (method = "tools/list"%string) then
        (w, Some (rpc_result id (Object [("tools"%string, definitions)])))
      else if bool_decide (method = "tools/call"%string) then
        let '(w, result) := tools_call msg w in (w, Some (rpc_result id result))
      else (w, Some (rpc_error id (-32601) ("method not found: " +:+ method)))
  | _, _ => (w, None)
  end.

(** ** The loop *)

Context (parse : string → option Value) (value_display : Value → string).

(** [writes] is whether each write succeeds; the first that fails ends the loop. The
    result is what was written. *)
Fixpoint serve_lines (lines : list string) (writes : list bool) (w : W) (out : list string)
    : W * list string :=
  match lines with
  | [] => (w, out)
  | line :: rest =>
      let line := str_trim line in
      if str_is_empty line then serve_lines rest writes w out
      else match parse line with
           | None => serve_lines rest writes w out
           | Some msg =>
               let '(w, response) := handle msg w in
               match response with
               | None => serve_lines rest writes w out
               | Some v =>
                   match writes with
                   | true :: writes => serve_lines rest writes w (out ++ [value_display v +:+ newline])
                   | _ => (w, out)
                   end
               end
           end
  end.

(** ** Lemmas *)

Lemma handle_shape msg w :
  match (handle msg w).2 with
  | None => value_get msg "method" ≫= as_str = None ∨ value_get msg "id" = None
  | Some v => ∃ method id, value_get msg "method" ≫= as_str = Some method ∧
      value_get msg "id" = Some id ∧
      ((∃ r, v = rpc_result id r) ∧ method ∈ ["initialize"; "ping"; "tools/list"; "tools/call"]%string ∨
       v = rpc_error id (-32601) ("method not found: " +:+ method) ∧
       method ∉ ["initialize"; "ping"; "tools/list"; "tools/call"]%string)
  end.
Proof.
  unfold handle. destruct (value_get msg "method" ≫= as_str) as [method|]; [|by left].
  destruct (value_get msg "id") as [id|]; [|by right].
  repeat case_bool_decide; [..|destruct (tools_call msg w) as [w' r]|]; cbn [snd];
    exists method, id; (split; [done|]); (split; [done|]); [left..|right]; split; eauto; set_solver.
Qed.
End mcp.

(** ** Properties *)

Section properties.
Context {HO : HashOrder} {UC : Unicode} {FL : FloatLib} {JS : Json} (show_status : Status → string)
  (version : string) (parse : string → option Value) (value_display : Value → string).

Lemma handle_untouched msg w w1 :
  untouched w w1 → untouched w (handle show_status version msg w1).1.
Proof.
  intros Hu. unfold handle. repeat case_match; try exact Hu; simplify_eq/=.
  unfold tools_call in *. pose proof (call_untouched show_status
    (default EmptyString (pointer msg "params" "name" ≫= as_str))
    (default (Object []) (pointer msg "params" "arguments")) w w1 Hu) as Hc.
  destruct (call_tool _ _ _ _) as [w2 r]. by repeat case_match; simplify_eq/=.
Qed.

(** A session is read-only and answers no more than it is asked. Whatever lines come in,
    in whatever order, and whichever write fails, the coordinator's registry, tokens and
    group are as before, and there are at most as many responses as lines that parse. *)
Theorem session_read_only (lines : list string) (writes : list bool) (w : AgentWorld) :
  let '(w', out) := serve_lines show_status version parse value_display lines writes w [] in
  untouched w w' ∧ (length out ≤ length (omap (λ l, parse (str_trim l)) lines))%nat.
Proof.
  assert (∀ w1 out, untouched w w1 →
    let '(w', out') := serve_lines show_status version parse value_display lines writes w1 out in
    untouched w w' ∧
    (length out' ≤ length out + length (omap (λ l, parse (str_trim l)) lines))%nat) as H.
  2: { apply (H w []). apply untouched_refl. }
  revert writes. induction lines as [|line lines IH]; intros writes w1 out Hu.
  { cbn. split; [done|lia]. }
  assert (∀ writes' w2 out', untouched w w2 → (length out' ≤ length out +
      length (omap (λ l, parse (str_trim l)) [line]))%nat →
    let '(w', out'') := serve_lines show_status version parse value_display lines writes' w2 out' in
    untouched w w' ∧ (length out'' ≤ length out + length (omap (λ l, parse (str_trim l)) (line :: lines)))%nat) as Hgo.
  { intros writes' w2 out' Hu2 Hlen. specialize (IH writes' w2 out' Hu2).
    destruct (serve_lines _ _ _ _ lines writes' w2 out') as [w' out'']. destruct IH as [? Hl].
    split; [done|]. change (line :: lines) with ([line] ++ lines). rewrite omap_app, length_app. lia. }
  cbn [serve_lines]. destruct (str_is_empty (str_trim line)); [apply Hgo; [done|lia]|].
  destruct (parse (str_trim line)) as [msg|] eqn:Ep; [|apply Hgo; [done|lia]].
  pose proof (handle_untouched msg w w1 Hu) as Hh.
  destruct (handle show_status version msg w1) as [w2 [v|]]; cbn [fst] in Hh; [|apply Hgo; [done|lia]].
  destruct writes as [|[] writes].
  - split; [done|]. cbn. rewrite Ep. cbn. lia.
  - apply Hgo; [done|]. rewrite length_app. cbn. rewrite Ep. cbn. lia.
  - split; [done|]. cbn. rewrite Ep. cbn. lia.
Qed.

(** The server lists five tools. *)
Theorem lists_five (id : Value) (w : AgentWorld) :
  (handle show_status version (Object [("method", JString "tools/list"); ("id", id)]%string) w).2 =
    Some (rpc_result id (Object [("tools"%string, definitions)])) ∧ length defined_names = 5%nat.
Proof. done. Qed.
End properties.
