(* ===== verification/Nlq.v ===== *)
(** * The natural-language loop: [nlq/src/lib.rs] and [nlq/src/openai.rs]

    Planning models and tool runners are interfaces with a state of their own; the loop,
    the budget and the composition of provenance are the source's. The loop runs on fuel,
    and [run] gives it one step more than the budget, which [run_total] shows is enough. *)

From S2P Require Export AgentTools.

(** ** Models and tools *)

Section loop.
Context {JS : Json}.

Inductive Step :=
| CallTool (name : string) (args : Value)
| AnswerWith (text : string).

(** What was observed so far: tool names and outputs, in order. *)
Abbreviation Observations := (list (string * string)).

Class Model (M : Type) := {
  next_step : string → Observations → M → M * result Step string;
}.

Class ToolRunner (W : Type) := {
  run_tool : string → Value → W → W * result string string;
}.

Record Budget := { max_tool_calls : nat }.

Definition budget_default : Budget := {| max_tool_calls := 6 |}.

Record Answer := {
  an_text : string;
  an_budget_exhausted : bool;
  an_provenance : list string;
  an_tool_calls : nat;
}.

(** ** The loop *)

Section run.
Context {M W : Type} {MO : Model M} {TR : ToolRunner W}.

(** The local variables of [run], and the two parties. *)
Record LoopState := {
  ls_model : M;
  ls_world : W;
  ls_observations : Observations;
  ls_provenance : list string;
  ls_calls : nat;
}.

Definition provenance_of (output : string) : list string :=
  omap (strip_prefix "provenance: ") (str_lines output).

Definition finish (st : LoopState) (text : string) (exhausted : bool) : LoopState * Answer :=
  (st, {| an_text := text; an_budget_exhausted := exhausted; an_provenance := ls_provenance st;
          an_tool_calls := ls_calls st |}).

Definition partial_text (st : LoopState) (budget : Budget) : string :=
  "[partial answer — tool-call budget of " +:+ show_nat (max_tool_calls budget) +:+ " reached]"
    +:+ newline +:+ default "no results gathered"%string (snd <$> last (ls_observations st)).

(** One tool call, its provenance lifted and its output observed. *)
Definition observe (st : LoopState) (name : string) (args : Value) : LoopState :=
  let '(w, r) := run_tool name args (ls_world st) in
  let output := match r with Ok out => out
                | Err e => "tool '" +:+ name +:+ "' error: " +:+ e end in
  {| ls_model := ls_model st; ls_world := w;
     ls_observations := ls_observations st ++ [(name, output)];
     ls_provenance := ls_provenance st ++ provenance_of output;
     ls_calls := S (ls_calls st) |}.

Fixpoint run_fuel (fuel : nat) (question : string) (budget : Budget) (st : LoopState)
    : option (LoopState * Answer) :=
  match fuel with
  | O => None
  | S fuel =>
      let '(m, step) := next_step question (ls_observations st) (ls_model st) in
      let st := {| ls_model := m; ls_world := ls_world st; ls_observations := ls_observations st;
                   ls_provenance := ls_provenance st; ls_calls := ls_calls st |} in
      match step with
      | Err e => Some (finish st ("could not complete the query: " +:+ e) false)
      | Ok (AnswerWith text) => Some (finish st text false)
      | Ok (CallTool name args) =>
          if bool_decide (max_tool_calls budget ≤ ls_calls st)%nat
          then Some (finish st (partial_text st budget) true)
          else run_fuel fuel question budget (observe st name args)
      end
  end.

Definition loop_start (m : M) (w : W) : LoopState :=
  {| ls_model := m; ls_world := w; ls_observations := []; ls_provenance := []; ls_calls := 0 |}.

Definition run (m : M) (w : W) (question : string) (budget : Budget) : option (LoopState * Answer) :=
  run_fuel (S (max_tool_calls budget)) question budget (loop_start m w).
End run.

Definition render_answer (a : Answer) : string :=
  match an_provenance a with
  | [] => an_text a
  | ps => an_text a +:+ newline +:+ newline +:+ "— evidence —" +:+ newline
            +:+ concat_text ((λ ip : nat * string,
                  "  [" +:+ show_nat (ip.1 + 1) +:+ "] " +:+ ip.2 +:+ newline) <$> enumerate ps)
  end.

(** ** The models of this crate *)

(** [FakeModel]: the rest of its script; once it is empty, the same harmless call. *)
#[export] Instance fake_model : Model (list Step) :=
  {| next_step _ _ script :=
       match script with
       | s :: rest => (rest, Ok s)
       | [] => ([], Ok (CallTool "cluster_state" (Object [])))
       end |}.

Section heuristic.
Context {UC : Unicode}.

Definition first_call (question : string) : Step :=
  let q := str_to_lowercase question in
  let has s := str_contains s q in
  let numeric := default "altitude"%string
                   (head (filter (λ f, has f = true) ["altitude"; "velocity"; "heading"]%string)) in
  if has "cluster" || has "shard" || has "health" || has "nodes" then
    CallTool "cluster_state" (Object [])
  else if has "percentile" || has "p50" || has "p90" || has "p99" then
    CallTool "aggregate_flights"
      (Object [("kind", JString "percentiles"); ("field", JString numeric);
               ("percentiles", Array (Number ∘ number_of_Z <$> [50; 90; 99]))])
  else if has "how many" || has "count" then
    CallTool "aggregate_flights" (Object [("kind", JString "count")])
  else if has "aircraft" || has "origin" || has "countries" || has "by " then
    CallTool "aggregate_flights"
      (Object [("kind", JString "value_counts");
               ("field", JString (if has "aircraft" then "aircraft_type" else "origin"))])
  else CallTool "search_flights" (Object [("query", JString question)]).

#[export] Instance heuristic_model : Model unit :=
  {| next_step question observations m :=
       (m, Ok (match last observations with
               | Some (_, out) => AnswerWith ("Here's what I found:" +:+ newline +:+ out)
               | None => first_call question
               end)) |}.
End heuristic.
End loop.

Arguments LoopState : clear implicits.

(** [EngineTools]: the shared surface, over the coordinator's handlers. *)
Definition engine_tools {JS : Json} {HO : HashOrder} {UC : Unicode} {FL : FloatLib}
    (show_status : Status → string) : ToolRunner AgentWorld :=
  {| run_tool := call_tool show_status |}.

(** ** The OpenAI-compatible planner *)

Section openai.
Context {JS : Json} {UC : Unicode} (json_parse : string → result Value string).

(** [v[key]] and [v[i]] on a value: [Null] when there is nothing there. *)
Definition index_key (v : Value) (k : string) : Value := default Null (value_get v k).
Definition index_nth (v : Value) (i : nat) : Value :=
  match v with Array a => default Null (a !! i) | _ => Null end.

Definition user_message (content : string) : Value :=
  Object [("role", JString "user"); ("content", JString content)].

Definition oa_messages (question : string) (observations : list (string * string)) : list Value :=
  user_message question ::
  ((λ no : string * string, user_message ("[tool " +:+ no.1 +:+ " returned]" +:+ newline +:+ no.2))
     <$> observations).

Definition oa_tools (defs : Value) : result Value string :=
  arr <-? ok_or (as_array defs) "tool defs must be an array";;
  Ok (Array ((λ d, Object [("type", JString "function");
                           ("function", Object [("name", index_key d "name");
                                                ("description", index_key d "description");
                                                ("parameters", index_key d "inputSchema")])]) <$> arr)).

Definition oa_body (model question : string) (observations : list (string * string))
    : result Value string :=
  tools <-? oa_tools definitions;;
  Ok (Object [("model", JString model); ("messages", Array (oa_messages question observations));
              ("tools", tools); ("temperature", Number (number_of_Z 0))]).

(** What the endpoint's reply comes to. *)
Definition oa_step (reply : Value) : result Step string :=
  let message := index_key (index_nth (index_key reply "choices") 0) "message" in
  match as_array (index_key message "tool_calls") ≫= head with
  | Some call =>
      let f := index_key call "function" in
      name <-? ok_or (as_str (index_key f "name")) "tool call missing name";;
      let raw := default "{}"%string (as_str (index_key f "arguments")) in
      args <-? (if str_is_empty (str_trim raw) then Ok (Object [])
                else map_err (λ e, "tool args parse: " +:+ e) (json_parse raw));;
      Ok (CallTool name args)
  | None => Ok (AnswerWith (default EmptyString (as_str (index_key message "content"))))
  end.

(** [post body] is the exchange: no connection or no body, or the status (as text and
    whether it is a success) and the body. *)
Definition oa_next_step (model : string) (post : Value → result (string * bool * string) string)
    (question : string) (observations : list (string * string)) : result Step string :=
  body <-? oa_body model question observations;;
  resp <-? post body;;
  let '(status, ok, text) := resp in
  if negb ok then Err ("openai " +:+ status +:+ ": " +:+ text)
  else v <-? map_err (λ e, "openai parse: " +:+ e) (json_parse text);; oa_step v.
End openai.

(** ** Lemmas *)

Section lemmas.
Context {JS : Json} {M W : Type} {MO : Model M} {TR : ToolRunner W}.

(** What the loop maintains. *)
Record loop_ok (budget : Budget) (st : LoopState M W) : Prop := {
  lk_provenance : ls_provenance st = ls_observations st ≫= provenance_of ∘ snd;
  lk_calls : ls_calls st = length (ls_observations st);
  lk_budget : (ls_calls st ≤ max_tool_calls budget)%nat;
}.

Lemma observe_ok budget (st : LoopState M W) name args :
  loop_ok budget st → (ls_calls st < max_tool_calls budget)%nat → loop_ok budget (observe st name args).
Proof.
  intros [Hp Hc Hb] Hlt. unfold observe. destruct (run_tool name args (ls_world st)) as [w r].
  split; cbn [ls_provenance ls_observations ls_calls].
  - rewrite bind_app, bind_singleton, <- Hp. done.
  - rewrite length_app. cbn. lia.
  - lia.
Qed.

Lemma observe_world (st : LoopState M W) name args : ls_world (observe st name args) = (run_tool name args (ls_world st)).1.
Proof. unfold observe. by destruct (run_tool name args (ls_world st)). Qed.

(** The loop ends within what is left of the budget, plus one step. *)
Lemma run_fuel_spec (P : W → Prop) fuel question budget (st : LoopState M W) :
  (∀ name args w, P w → P (run_tool name args w).1) →
  loop_ok budget st → P (ls_world st) → (max_tool_calls budget < fuel + ls_calls st)%nat →
  ∃ st' a, run_fuel fuel question budget st = Some (st', a) ∧ loop_ok budget st' ∧ P (ls_world st') ∧
    an_tool_calls a = ls_calls st' ∧ an_provenance a = ls_provenance st' ∧
    (an_budget_exhausted a = true → ls_calls st' = max_tool_calls budget ∧
       an_text a = partial_text st' budget).
Proof.
  intros HP. revert st. induction fuel as [|fuel IH]; intros st Hok Hw Hf.
  { pose proof (lk_budget _ _ Hok). lia. }
  cbn [run_fuel]. destruct (next_step question (ls_observations st) (ls_model st)) as [m step].
  set (st1 := {| ls_model := m |}).
  assert (loop_ok budget st1) as Hok1 by (destruct Hok; by split).
  destruct step as [[name args|text]|e].
  - case_bool_decide as Hb.
    + eexists st1, _. split; [done|]. split_and!; try done. intros _. split; [|done].
      destruct Hok1 as [_ _ H]. change (ls_calls st1) with (ls_calls st) in *. lia.
    + apply IH.
      * apply observe_ok; [done|]. change (ls_calls st1) with (ls_calls st) in *. lia.
      * rewrite observe_world. by apply HP.
      * unfold observe. destruct (run_tool _ _ _). change (ls_calls st1) with (ls_calls st) in *. cbn [ls_calls]. lia.
  - by eexists st1, _.
  - by eexists st1, _.
Qed.

Lemma loop_start_ok budget (m : M) (w : W) : loop_ok budget (loop_start m w).
Proof. split; cbn; [done|done|lia]. Qed.
End lemmas.

(** ** Properties *)

(** C19: a question always gets an answer, on a budget. Whatever the planning model does and
    whatever the tools return, the loop stops: it makes at most the budgeted number of
    tool calls, says so when it was cut off (and only then, with exactly the budget
    spent), and the answer's provenance is every provenance line of every tool result, in
    call order, and nothing else. *)
Theorem run_total {JS : Json} {M W : Type} {MO : Model M} {TR : ToolRunner W}
    (m : M) (w : W) (question : string) (budget : Budget) :
  ∃ st a, run m w question budget = Some (st, a) ∧
    (an_tool_calls a ≤ max_tool_calls budget)%nat ∧
    an_tool_calls a = length (ls_observations st) ∧
    an_provenance a = ls_observations st ≫= provenance_of ∘ snd ∧
    (an_budget_exhausted a = true → an_tool_calls a = max_tool_calls budget ∧
       an_text a = partial_text st budget).
Proof.
  destruct (run_fuel_spec (λ _, True) (S (max_tool_calls budget)) question budget (loop_start m w))
    as (st & a & E & [Hp Hc Hb] & _ & Hcalls & Hprov & Hex);
    [done|apply loop_start_ok|done|lia|].
  exists st, a. split; [exact E|]. rewrite Hcalls, Hprov. split_and!; [done|done|done|done].
Qed.

(** A planner cannot reach past the tools. Whatever model drives the loop over the
    engine's tools, the coordinator's registry, token table and group membership are at
    the end what they were at the start. *)
Theorem run_read_only {JS : Json} {HO : HashOrder} {UC : Unicode} {FL : FloatLib} {M : Type}
    {MO : Model M} (show_status : Status → string) (m : M) (w : AgentWorld) (question : string)
    (budget : Budget) :
  ∃ st a, @run _ _ _ MO (engine_tools show_status) m w question budget = Some (st, a) ∧
    untouched w (ls_world st).
Proof.
  destruct (@run_fuel_spec _ _ _ MO (engine_tools show_status) (untouched w)
    (S (max_tool_calls budget)) question budget (loop_start m w)) as (st & a & E & _ & Hu & _).
  - intros name args w' Hu. by apply call_untouched.
  - apply loop_start_ok.
  - apply untouched_refl.
  - lia.
  - by exists st, a.
Qed.

(** The offline planner answers after one hop, through a tool that exists. *)
Theorem heuristic_one_hop {JS : Json} {UC : Unicode} {W : Type} {TR : ToolRunner W} (w : W)
    (question : string) (budget : Budget) (Hb : max_tool_calls budget ≠ 0%nat) :
  ∃ name args st, first_call question = CallTool name args ∧ name ∈ defined_names ∧
    run () w question budget = Some (st,
      {| an_text := "Here's what I found:" +:+ newline +:+ default EmptyString (snd <$> last (ls_observations st));
         an_budget_exhausted := false; an_provenance := ls_provenance st; an_tool_calls := 1 |}) ∧
    ls_observations st = ls_observations (observe (loop_start () w) name args).
Proof.
  assert (∃ name args, first_call question = CallTool name args ∧ name ∈ defined_names)
    as (name & args & E & Hin).
  { assert (defined_names = ["search_flights"; "semantic_search_flights"; "hybrid_search_flights";
      "cluster_state"; "aggregate_flights"]%string) as -> by reflexivity.
    unfold first_call. cbv zeta.
    destruct (_ || _); [eexists _, _; split; [done|set_solver]|].
    destruct (_ || _); [eexists _, _; split; [done|set_solver]|].
    destruct (_ || _); [eexists _, _; split; [done|set_solver]|].
    destruct (_ || _); eexists _, _; (split; [done|set_solver]). }
  exists name, args, (observe (loop_start () w) name args). split_and!; [done|done| |done].
  unfold run. destruct (max_tool_calls budget) as [|k] eqn:Ek; [done|].
  cbn [run_fuel next_step heuristic_model loop_start ls_observations last]. rewrite E.
  rewrite bool_decide_false by (rewrite Ek; cbn; lia).
  cbn. unfold observe. cbn. by destruct (run_tool name args w) as [w' r].
Qed.

(** ** Witnesses and examples *)

#[local] Existing Instances canonical_order ascii_only whole_numbers integers.

(** A runner that echoes, with a provenance line. *)
#[local] Instance echo_runner : ToolRunner nat :=
  {| run_tool name _ n := (S n, Ok (name +:+ newline +:+ "provenance: " +:+ show_nat n)) |}.

Lemma heuristic_one_hop_witness :
  ∃ name args st, first_call "how many flights?" = CallTool name args ∧ name ∈ defined_names ∧
    run () 0%nat "how many flights?" budget_default = Some st.
Proof.
  destruct (heuristic_one_hop 0%nat "how many flights?" budget_default) as (name & args & st & E & Hin & Hr & _);
    [discriminate|].
  eexists name, args, _. split; [exact E|]. split; [exact Hin|exact Hr].
Defined.

Example budget_ex :
  (λ sa, render_answer sa.2) <$> run [CallTool "a" Null; CallTool "b" Null] 7%nat "q" {| max_tool_calls := 1 |} =
  Some ("[partial answer — tool-call budget of 1 reached]" +:+ newline +:+ "a" +:+ newline
    +:+ "provenance: 7" +:+ newline +:+ newline +:+ "— evidence —" +:+ newline +:+ "  [1] 7" +:+ newline).
Proof. vm_compute. reflexivity. Qed.

Example oa_step_ex :
  oa_step (λ _, Err "no") (Object [("choices", Array [Object [("message", Object
    [("content", JString "done")])]])]) = Ok (AnswerWith "done") ∧
  oa_step (λ _, Err "no") (Object [("choices", Array [Object [("message", Object
    [("tool_calls", Array [Object [("function", Object [("name", JString "cluster_state")])]])])]])]) =
    Err "tool args parse: no".
Proof. split; reflexivity. Qed.
