(* ===== verification/Eval.v ===== *)
(** * The evaluation harness: [crates/nlq/src/bin/eval.rs]

    A set of questions run through the planning loop with a runner that records the tools
    it was asked for, and graded. Reading the file and printing are left out; which model
    is selected, and the file's JSON, are inputs. *)

From S2P Require Export Nlq.

(** ** The recording runner *)

#[export] Instance tracing_tools {JS : Json} {W : Type} (TR : ToolRunner W) : ToolRunner (W * list string) :=
  {| run_tool name args wc :=
       let '(w, r) := run_tool name args wc.1 in ((w, wc.2 ++ [name]), r) |}.

(** ** Questions *)

Section eval.
Context {JS : Json} {UC : Unicode}.

Record Question := {
  qu_id : string;
  qu_ask : string;
  qu_want_tools : list string;
  qu_want_text : list string;
}.

(** The strings of an array, if it is one. *)
Definition strings_at (q : Value) (k : string) : list string :=
  match as_array (index_key q k) with Some a => omap as_str a | None => [] end.

Definition question_of (q : Value) : Question :=
  {| qu_id := default "?"%string (as_str (index_key q "id"));
     qu_ask := default EmptyString (as_str (index_key q "ask"));
     qu_want_tools := strings_at q "expect_tools";
     qu_want_text := str_to_lowercase <$> strings_at q "expect_contains" |}.

Definition grade (q : Question) (answer : string) (called : list string) : bool :=
  forallb (λ t, existsb (λ c, bool_decide (c = t)) called) (qu_want_tools q) &&
  forallb (λ s, str_contains s (str_to_lowercase answer)) (qu_want_text q).

(** ** The run *)

Context {M W : Type} {MO : Model M} {TR : ToolRunner W}.

(** One question: the parties after it, and whether it passed. *)
Definition eval_question (mw : M * W) (v : Value) : option (M * W * bool) :=
  let q := question_of v in
  '(st, answer) ← run mw.1 (mw.2, []) (qu_ask q) budget_default;
  let '(w, called) := ls_world st in
  Some (ls_model st, w, grade q (an_text answer) called).

Fixpoint eval_questions (mw : M * W) (qs : list Value) (passed : Z) : option (M * W * Z) :=
  match qs with
  | [] => Some (mw.1, mw.2, passed)
  | v :: qs =>
      '(m, w, ok) ← eval_question mw v;
      eval_questions (m, w) qs (wrap_u64 (passed + if ok : bool then 1 else 0))
  end.

(** What is printed at the end: the harness skips when the model does not answer. *)
Inductive Outcome :=
| BadSpec (e : string)
| Skipped (e : string)
| Graded (passed total : Z).

Definition eval (spec : Value) (m : M) (w : W) : option (M * W * Outcome) :=
  match as_array (index_key spec "questions") with
  | None => Some (m, w, BadSpec "questions must be an array")
  | Some questions =>
      let '(m, probe) := next_step "ping" [] m in
      match probe with
      | Err e => Some (m, w, Skipped e)
      | Ok _ =>
          '(m, w, passed) ← eval_questions (m, w) questions 0;
          Some (m, w, Graded passed (len_u64 questions))
      end
  end.

(** ** Lemmas *)

(** The loop state without the recording. *)
Definition plain_state (st : LoopState M (W * list string)) : LoopState M W :=
  {| ls_model := ls_model st; ls_world := (ls_world st).1; ls_observations := ls_observations st;
     ls_provenance := ls_provenance st; ls_calls := ls_calls st |}.

Lemma tracing_fuel fuel q budget (st : LoopState M (W * list string)) called :
  (ls_world st).2 = called ++ (ls_observations st).*1 →
  match run_fuel fuel q budget st with
  | None => run_fuel fuel q budget (plain_state st) = None
  | Some (st', a) => run_fuel fuel q budget (plain_state st) = Some (plain_state st', a) ∧
      (ls_world st').2 = called ++ (ls_observations st').*1
  end.
Proof.
  revert st. induction fuel as [|fuel IH]; intros st Hc; [done|]. cbn [run_fuel].
  change (ls_model (plain_state st)) with (ls_model st).
  change (ls_observations (plain_state st)) with (ls_observations st).
  destruct (next_step q (ls_observations st) (ls_model st)) as [m [[name args|text]|e]]; [|done..].
  change (ls_calls (plain_state st)) with (ls_calls st). cbn [ls_calls].
  case_bool_decide; [done|].
  match goal with |- context [run_fuel fuel q budget (observe ?s name args)] =>
    match s with context [ls_world st] => set (st1 := s) end end.
  assert (observe (plain_state st1) name args = plain_state (observe st1 name args) ∧
    (ls_world (observe st1 name args)).2 = called ++ (ls_observations (observe st1 name args)).*1) as [E Ec].
  { unfold observe. cbn [run_tool tracing_tools ls_world st1 plain_state].
    destruct (run_tool name args (ls_world st).1) as [w r]. split; [done|].
    cbn [ls_world ls_observations snd]. rewrite fmap_app, Hc, <- app_assoc. done. }
  specialize (IH (observe st1 name args) Ec). rewrite <- E in IH. exact IH.
Qed.

(** ** Properties *)

(** Recording is transparent: the loop does over the recording runner exactly what it
    does over the runner itself, and what is recorded are the tools of its observations. *)
Theorem tracing_transparent (m : M) (w : W) (q : string) (budget : Budget) :
  ∃ st a, run m (w, []) q budget = Some (st, a) ∧ run m w q budget = Some (plain_state st, a) ∧
    (ls_world st).2 = (ls_observations st).*1.
Proof.
  destruct (run_fuel_spec (λ _, True) (S (max_tool_calls budget)) q budget
    (loop_start m (w, [] : list string))) as (st & a & E & _); [done|apply loop_start_ok|done|lia|].
  pose proof (tracing_fuel (S (max_tool_calls budget)) q budget (loop_start m (w, [])) [] eq_refl) as H.
  rewrite E in H. destruct H as [E' Hc]. exists st, a. split; [exact E|]. by split.
Qed.
End eval.

Section total.
Context {JS : Json} {UC : Unicode} {HO : HashOrder} {FL : FloatLib} {M : Type} {MO : Model M}
  (show_status : Status → string).
#[local] Instance tools : ToolRunner AgentWorld := engine_tools show_status.

Lemma eval_question_spec (m : M) (w w1 : AgentWorld) v :
  untouched w w1 → ∃ m' w' b, eval_question (m, w1) v = Some (m', w', b) ∧ untouched w w'.
Proof.
  intros Hu. unfold eval_question. cbn [fst snd].
  destruct (tracing_transparent m w1 (qu_ask (question_of v)) budget_default) as (st & a & E & E' & _).
  rewrite E. cbn [mbind option_bind]. destruct (ls_world st) as [w' called] eqn:Ew.
  eexists _, _, _. split; [done|].
  destruct (run_fuel_spec (untouched w) (S (max_tool_calls budget_default)) (qu_ask (question_of v))
    budget_default (loop_start m w1)) as (st' & a' & E2 & _ & Hw & _).
  - intros name args w2 H2. by apply call_untouched.
  - apply loop_start_ok.
  - done.
  - lia.
  - unfold run in E'. rewrite E' in E2. injection E2 as <- _. cbn in Hw. by rewrite Ew in Hw.
Qed.

(** An evaluation always ends, with at most as many passes as questions, and leaves the
    coordinator as it was. *)
Theorem eval_total (spec : Value) (m : M) (w : AgentWorld) :
  ∃ m' w' out, eval spec m w = Some (m', w', out) ∧ untouched w w' ∧
    match out with
    | Graded passed total => ∃ qs, as_array (index_key spec "questions") = Some qs ∧
        (Z.of_nat (length qs) < 2 ^ 64 → 0 ≤ passed ≤ total ∧ total = Z.of_nat (length qs))
    | Skipped e => (next_step "ping" [] m).2 = Err e
    | BadSpec _ => as_array (index_key spec "questions") = None
    end.
Proof.
  unfold eval. destruct (as_array (index_key spec "questions")) as [qs|].
  2: { eexists _, _, _. split; [done|]. split; [apply untouched_refl|done]. }
  destruct (next_step "ping" [] m) as [m1 [s|e]].
  2: { eexists _, _, _. split; [done|]. split; [apply untouched_refl|done]. }
  assert (∀ qs m1 w1 p, untouched w w1 → ∃ m' w' p', eval_questions (m1, w1) qs p = Some (m', w', p') ∧
    untouched w w' ∧ (0 ≤ p → p + Z.of_nat (length qs) < 2 ^ 64 → 0 ≤ p' ≤ p + Z.of_nat (length qs))) as H.
  { clear. intros qs. induction qs as [|v qs IH]; intros m1 w1 p Hu.
    - eexists _, _, _. split; [done|]. split; [done|]. cbn. lia.
    - cbn [eval_questions]. destruct (eval_question_spec m1 w w1 v Hu) as (m2 & w2 & b & E & Hu2).
      rewrite E. cbn [mbind option_bind].
      destruct (IH m2 w2 (wrap_u64 (p + if b then 1 else 0)) Hu2) as (m3 & w3 & p3 & E3 & Hu3 & Hp).
      rewrite E3. eexists _, _, _. split; [done|]. split; [done|]. intros H0 Hlt. cbn [length] in Hlt |- *.
      unfold wrap_u64 in Hp. rewrite Z.mod_small in Hp by (destruct b; lia).
      assert (0 ≤ p3 ≤ p + (if b then 1 else 0) + Z.of_nat (length qs)) by (apply Hp; destruct b; lia).
      destruct b; lia. }
  destruct (H qs m1 w 0 (untouched_refl w)) as (m2 & w2 & p & E & Hu & Hp). rewrite E.
  cbn [mbind option_bind]. eexists _, _, _. split; [done|]. split; [done|].
  exists qs. split; [done|]. intros Hlt. unfold len_u64, wrap_u64. rewrite Z.mod_small by lia.
  split; [|done]. apply Hp; lia.
Qed.
End total.
