(* ===== verification/Bedrock.v ===== *)
(** * The Bedrock planner: [nlq/src/bedrock.rs], and which planner the binaries choose

    The AWS client and the SDK's builders are parameters. A document of the SDK holds an
    object as a hash map: here its entries in the iteration order of the process, which is
    the [HashOrder]. [json_f64] is [json!] on a float: [Null] unless it is finite. *)

From S2P Require Export Eval.

(** ** Documents of the SDK *)

Inductive SmithyNumber := PosInt (u : Z) | NegInt (i : Z) | SFloat (f : f64).

Inductive Document :=
| DNull
| DBool (b : bool)
| DNumber (n : SmithyNumber)
| DString (s : string)
| DArray (a : list Document)
| DObject (o : list (string * Document)).

(** Collecting pairs into a map: a later entry replaces an earlier one. *)
Definition collect_map {A} (l : list (string * A)) : gmap string A := list_to_map (reverse l).

(** A [HashMap], as iterated; a [serde_json::Map], in key order. *)
Definition hash_entries {HO : HashOrder} {A} (l : list (string * A)) : list (string * A) :=
  hm_order (collect_map l).
Definition entry_cmp {A} (a b : string * A) : comparison := str_cmp a.1 b.1.
Definition sorted_entries {A} (l : list (string * A)) : list (string * A) :=
  sort_by entry_cmp (map_to_list (collect_map l)).

Section convert.
Context {JS : Json} {HO : HashOrder} (json_f64 : f64 → Value).

Definition number_to_document (n : jnumber) : SmithyNumber :=
  match number_as_i64 n with
  | Some i => NegInt i
  | None => SFloat (default f64_zero (number_as_f64 n))
  end.

Fixpoint json_to_document (v : Value) : Document :=
  match v with
  | Null => DNull
  | Bool b => DBool b
  | Number n => DNumber (number_to_document n)
  | JString s => DString s
  | Array a => DArray (map json_to_document a)
  | Object o => DObject (hash_entries (map (λ kv, (kv.1, json_to_document kv.2)) o))
  end.

Fixpoint document_to_json (d : Document) : Value :=
  match d with
  | DNull => Null
  | DBool b => Bool b
  | DNumber (NegInt i) => Number (number_of_Z i)
  | DNumber (PosInt u) => Number (number_of_Z u)
  | DNumber (SFloat f) => json_f64 f
  | DString s => JString s
  | DArray a => Array (map document_to_json a)
  | DObject o => Object (sorted_entries (map (λ kv, (kv.1, document_to_json kv.2)) o))
  end.
End convert.

(** ** The Converse call *)

Record ToolSpecification := {
  ts_name : string;
  ts_description : string;
  ts_input_schema : Document;
}.

(** A content block: text, a tool use, or anything else the service may return. *)
Inductive ContentBlock :=
| TextBlock (text : string)
| ToolUse (name : string) (input : Document)
| OtherBlock.

Inductive ConverseOutput := MessageOutput (content : list ContentBlock) | OtherOutput.

(** The SDK: its builders, which check that required members are set, and the call, over
    the state of the service. *)
Class BedrockSdk (B : Type) := {
  SdkMessage : Type;
  SdkTool : Type;
  ToolConfiguration : Type;
  build_user_message : ContentBlock → result SdkMessage string;
  build_tool_spec : ToolSpecification → result SdkTool string;
  build_tool_configuration : list SdkTool → result ToolConfiguration string;
  converse : string → list SdkMessage → ToolConfiguration → B →
    B * result (option ConverseOutput) string;
}.

(** [collect::<Result<Vec<_>, _>>] and the [?] inside a loop: the first error ends it. *)
Fixpoint try_map {A C E} (f : A → result C E) (l : list A) : result (list C) E :=
  match l with
  | [] => Ok []
  | x :: l => y <-? f x;; ys <-? try_map f l;; Ok (y :: ys)
  end.

Section bedrock.
Context {JS : Json} {HO : HashOrder} {B : Type} {SDK : BedrockSdk B} (json_f64 : f64 → Value)
  (model_id : string).

Definition tool_spec (def : Value) : result SdkTool string :=
  name <-? ok_or (as_str (index_key def "name")) "tool needs a name"%string;;
  let desc := default ""%string (as_str (index_key def "description")) in
  let schema := json_to_document (index_key def "inputSchema") in
  build_tool_spec {| ts_name := name; ts_description := desc; ts_input_schema := schema |}.

Definition tool_config (defs : Value) : result ToolConfiguration string :=
  arr <-? ok_or (as_array defs) "tool defs must be an array"%string;;
  tools <-? try_map tool_spec arr;;
  build_tool_configuration tools.

Definition bedrock_texts (question : string) (observations : list (string * string))
    : list string :=
  question :: ((λ no : string * string, "[tool " +:+ no.1 +:+ " returned]" +:+ newline +:+ no.2)
                 <$> observations).

(** What a reply comes to: the first tool use wins over any text. *)
Definition first_tool_use (content : list ContentBlock) : option (string * Document) :=
  head (omap (λ b, match b with ToolUse name input => Some (name, input) | _ => None end) content).

Definition content_text (content : list ContentBlock) : string :=
  concat_text (omap (λ b, match b with TextBlock t => Some t | _ => None end) content).

Definition bedrock_step (output : option ConverseOutput) : result Step string :=
  out <-? ok_or output "no output from model"%string;;
  match out with
  | OtherOutput => Err "output was not a message"%string
  | MessageOutput content =>
      Ok (match first_tool_use content with
          | Some (name, input) => CallTool name (document_to_json json_f64 input)
          | None => AnswerWith (content_text content)
          end)
  end.

Definition bedrock_next_step (question : string) (observations : list (string * string)) (b : B)
    : B * result Step string :=
  match (messages <-? try_map (build_user_message ∘ TextBlock) (bedrock_texts question observations);;
         tools <-? tool_config definitions;;
         Ok (messages, tools)) with
  | Err e => (b, Err e)
  | Ok (messages, tools) =>
      let '(b, resp) := converse model_id messages tools b in
      (b, output <-? map_err (λ e, "bedrock converse: " +:+ e) resp;; bedrock_step output)
  end.

Definition bedrock_model : Model B := {| next_step := bedrock_next_step |}.
End bedrock.

(** ** Choosing a planner *)

(** What the environment configures, in a binary built with the given features. *)
Inductive Planner :=
| OpenAiPlanner (base_url api_key model : string)
| BedrockPlanner (model_id : string)
| HeuristicPlanner.

Section choose.
Context (env : string → option string).

Definition openai_from_env (feature : bool) : option Planner :=
  if feature then
    api_key ← env "AETHER_OPENAI_API_KEY"; model ← env "AETHER_OPENAI_MODEL";
    Some (OpenAiPlanner (default "https://api.openai.com/v1"%string (env "AETHER_OPENAI_BASE_URL"))
            api_key model)
  else None.

Definition bedrock_from_env (feature : bool) : option Planner :=
  if feature then BedrockPlanner <$> env "AETHER_BEDROCK_MODEL" else None.

(** The [nlq] binary: no planner is an error. *)
Definition nlq_planner (openai bedrock : bool) : option Planner :=
  match openai_from_env openai with
  | Some m => Some m
  | None => bedrock_from_env bedrock
  end.

(** The eval, with its label. *)
Definition eval_planner (openai bedrock : bool) : Planner * string :=
  match openai_from_env openai with
  | Some m => (m, "openai-compatible"%string)
  | None =>
      match bedrock_from_env bedrock with
      | Some m => (m, "bedrock"%string)
      | None => (HeuristicPlanner, "heuristic (offline)"%string)
      end
  end.

(** The dashboard. *)
Definition select_model (openai bedrock : bool) : Planner * string :=
  match openai_from_env openai with
  | Some m => (m, default "local LLM"%string (env "AETHER_OPENAI_MODEL"))
  | None =>
      match bedrock_from_env bedrock with
      | Some m => (m, default "bedrock"%string (env "AETHER_BEDROCK_MODEL"))
      | None => (HeuristicPlanner, "heuristic router (no LLM configured)"%string)
      end
  end.

(** The briefing asks for Bedrock only. *)
Definition briefing_planner (bedrock : bool) : Planner :=
  default HeuristicPlanner (bedrock_from_env bedrock).
End choose.

(** ** Specification *)

Section spec.
Context {JS : Json} (json_f64 : f64 → Value).

(** The value as [serde_json] holds it: objects in key order, without duplicates. *)
Fixpoint normalize (v : Value) : Value :=
  match v with
  | Array a => Array (map normalize a)
  | Object o => Object (sorted_entries (map (λ kv, (kv.1, normalize kv.2)) o))
  | _ => v
  end.

(** What becomes of a number: an [i64] stays, any other comes back as its float. *)
Definition resend_number (n : jnumber) : Value :=
  match number_as_i64 n with
  | Some i => Number (number_of_Z i)
  | None => json_f64 (default f64_zero (number_as_f64 n))
  end.

(** What comes back of a value: its numbers so, its objects in key order. *)
Fixpoint resend (v : Value) : Value :=
  match v with
  | Number n => resend_number n
  | Array a => Array (map resend a)
  | Object o => Object (sorted_entries (map (λ kv, (kv.1, resend kv.2)) o))
  | _ => v
  end.

(** The numbers that come back as they were. *)
Definition faithful_number (n : jnumber) : Prop :=
  match number_as_i64 n with
  | Some i => number_of_Z i = n
  | None => ∃ f, number_as_f64 n = Some f ∧ json_f64 f = Number n
  end.

(** A property of every node of a value. *)
Fixpoint everywhere (P : Value → Prop) (v : Value) : Prop :=
  P v ∧ match v with
        | Array a => foldr (λ x Q, everywhere P x ∧ Q) True a
        | Object o => foldr (λ kv Q, everywhere P kv.2 ∧ Q) True o
        | _ => True
        end.

Definition faithful : Value → Prop :=
  everywhere (λ v, match v with Number n => faithful_number n | _ => True end).

Definition in_key_order : Value → Prop :=
  everywhere (λ v, match v with
                   | Object o => StronglySorted (λ a b, entry_cmp a b = Lt) o
                   | _ => True
                   end).
End spec.

(** ** Lemmas *)

Lemma foldr_and {A} (P : A → Prop) l : foldr (λ x Q, P x ∧ Q) True l ↔ Forall P l.
Proof.
  induction l as [|x l IH]; [by split; [constructor|]|]. cbn. by rewrite IH, Forall_cons.
Qed.

(** Induction with a hypothesis for every element of an array or an object. *)
Section value_ind.
Context {JS : Json} (P : Value → Prop).

Definition leaf (v : Value) : bool := match v with Array _ | Object _ => false | _ => true end.

Hypothesis Hleaf : ∀ v, leaf v = true → P v.
Hypothesis Harray : ∀ a, Forall P a → P (Array a).
Hypothesis Hobject : ∀ o, Forall (λ kv, P kv.2) o → P (Object o).

Fixpoint value_nested (v : Value) : P v :=
  match v with
  | Array a => Harray a
      ((fix go l : Forall P l := match l with
                                 | [] => Forall_nil_2 _
                                 | x :: l => Forall_cons_2 _ _ _ (value_nested x) (go l)
                                 end) a)
  | Object o => Hobject o
      ((fix go l : Forall (λ kv, P kv.2) l :=
          match l with
          | [] => Forall_nil_2 _
          | kv :: l => Forall_cons_2 _ kv l (value_nested kv.2) (go l)
          end) o)
  | Null => Hleaf Null eq_refl
  | Bool b => Hleaf (Bool b) eq_refl
  | Number n => Hleaf (Number n) eq_refl
  | JString s => Hleaf (JString s) eq_refl
  end.
End value_ind.

Lemma collect_map_fmap {A C} (f : A → C) (l : list (string * A)) :
  collect_map (map (λ kv, (kv.1, f kv.2)) l) = f <$> collect_map l.
Proof.
  unfold collect_map. rewrite <- list_to_map_fmap, <- fmap_reverse. by f_equal.
Qed.

Lemma collect_map_entries {HO : HashOrder} {A} (m : gmap string A) : collect_map (hm_order m) = m.
Proof.
  unfold collect_map. rewrite <- (list_to_map_to_list m) at 2.
  apply list_to_map_proper; [|by rewrite reverse_Permutation, hm_order_perm].
  rewrite reverse_Permutation, hm_order_perm. apply NoDup_fst_map_to_list.
Qed.

Lemma collect_map_elem {A} (l : list (string * A)) k x : collect_map l !! k = Some x → (k, x) ∈ l.
Proof. intros H%elem_of_list_to_map_2. by rewrite reverse_Permutation in H. Qed.

Lemma entry_cmp_total {A} : total_on (λ _ : string * A, True) entry_cmp.
Proof.
  split; unfold entry_cmp; intros; [apply str_cmp_anti|]. by eapply str_cmp_trans.
Qed.

(** A list in strict key order is what its map lists. *)
Lemma sorted_entries_id {A} (l : list (string * A)) :
  StronglySorted (λ a b, entry_cmp a b = Lt) l → sorted_entries l = l.
Proof.
  intros Hs.
  assert (NoDup l.*1) as Hnd.
  { induction Hs as [|x l Hs IH Hx]; [constructor|]. cbn. constructor; [|done].
    rewrite list_elem_of_fmap. intros (y & E & Hy). rewrite Forall_forall in Hx.
    specialize (Hx y Hy). unfold entry_cmp in Hx. rewrite E in Hx.
    by rewrite (proj2 (str_cmp_eq y.1 y.1) eq_refl) in Hx. }
  assert (map_to_list (collect_map l) ≡ₚ l) as Hp.
  { unfold collect_map. rewrite map_to_list_to_map; [apply reverse_Permutation|].
    by rewrite reverse_Permutation. }
  unfold sorted_entries. symmetry. apply (ranked_unique (λ x, x ∈ l) entry_cmp).
  - eapply total_on_weaken; [|apply entry_cmp_total]. done.
  - intros [k x] [k' y] Hx Hy E%str_cmp_eq. cbn in E. subst k'. f_equal.
    pose proof (proj1 (NoDup_alt _) Hnd) as Hu.
    apply list_elem_of_lookup in Hx as [i Hi], Hy as [j Hj].
    assert (i = j) as <-; [|congruence]. apply (Hu i j k); by rewrite list_lookup_fmap, ?Hi, ?Hj.
  - by apply Forall_forall.
  - clear -Hs. unfold ranked. induction Hs as [|x l Hs IH Hx]; constructor; [done|].
    eapply Forall_impl; [exact Hx|]. by intros y ->.
  - apply (sort_by_ranked (λ _, True)); [apply entry_cmp_total|by apply Forall_forall].
  - by rewrite sort_by_perm, Hp.
Qed.

Section roundtrip.
Context {JS : Json} {HO : HashOrder} (json_f64 : f64 → Value).

Lemma roundtrip_resend v : document_to_json json_f64 (json_to_document v) = resend json_f64 v.
Proof.
  induction v as [v Hv|a IH|o IH] using value_nested.
  - destruct v as [| |n| | |]; cbn; try done. unfold number_to_document, resend_number.
    by destruct (number_as_i64 n).
  - cbn. f_equal. rewrite map_map. apply map_ext_in. intros x Hx%list_elem_of_In.
    rewrite Forall_forall in IH. by apply IH.
  - cbn. f_equal. unfold sorted_entries. do 2 f_equal.
    rewrite !collect_map_fmap. unfold hash_entries. rewrite collect_map_entries, collect_map_fmap.
    rewrite <- map_fmap_compose. apply map_fmap_ext. intros k v Hv%collect_map_elem.
    rewrite Forall_forall in IH. exact (IH _ Hv).
Qed.

Lemma resend_faithful v : faithful json_f64 v → resend json_f64 v = normalize v.
Proof.
  unfold faithful.
  induction v as [v Hv|a IH|o IH] using value_nested.
  - destruct v as [| |n| | |]; cbn; try done. intros [Hn _]. unfold resend_number.
    unfold faithful_number in Hn. destruct (number_as_i64 n) as [i|]; [by rewrite Hn|].
    destruct Hn as (f & -> & Hf). exact Hf.
  - cbn [everywhere]. rewrite foldr_and. intros [_ Ha]. cbn. f_equal.
    apply map_ext_in. intros x Hx%list_elem_of_In. rewrite Forall_forall in IH, Ha. by apply IH, Ha.
  - cbn [everywhere]. rewrite (foldr_and (λ kv, everywhere _ kv.2)). intros [_ Ho]. cbn. do 2 f_equal.
    apply map_ext_in. intros kv Hkv%list_elem_of_In. rewrite Forall_forall in IH, Ho.
    f_equal. by apply IH, Ho.
Qed.

Lemma roundtrip_normal v : faithful json_f64 v →
  document_to_json json_f64 (json_to_document v) = normalize v.
Proof. intros H. by rewrite roundtrip_resend, resend_faithful. Qed.

Lemma normalize_ordered v : in_key_order v → normalize v = v.
Proof.
  unfold in_key_order.
  induction v as [v Hv|a IH|o IH] using value_nested.
  - by destruct v.
  - cbn [everywhere]. rewrite foldr_and. intros [_ Ha]. cbn. f_equal.
    induction IH as [|x a Hx IH IHa]; [done|]. apply Forall_cons in Ha as [Hx' Ha]. cbn.
    f_equal; auto.
  - cbn [everywhere]. rewrite (foldr_and (λ kv, everywhere _ kv.2)). intros [Hs Ho]. cbn. f_equal.
    assert (map (λ kv, (kv.1, normalize kv.2)) o = o) as ->; [|by apply sorted_entries_id].
    clear Hs. induction IH as [|[k x] o Hx IH IHo]; [done|].
    apply Forall_cons in Ho as [Hx' Ho]. cbn in *. f_equal; [by rewrite Hx|auto].
Qed.
End roundtrip.

(** ** Properties *)

Section properties.
Context {JS : Json} {UC : Unicode} {HO : HashOrder} (json_f64 : f64 → Value).

(** C20: what a JSON value comes back as, translated into a document of the SDK and back,
    whatever order the hash map in between iterates in: every object in key order, the last
    of equal keys kept, every number that is an [i64] as that integer and any other as its
    float, everything else as it was. So a value as [serde_json] holds it whose numbers are
    such integers or floats comes back as itself; an integer above [i64::MAX] does not. *)
Theorem document_roundtrip (v : Value) :
  document_to_json json_f64 (json_to_document v) = resend json_f64 v ∧
  (faithful json_f64 v → in_key_order v → document_to_json json_f64 (json_to_document v) = v).
Proof.
  split; [apply roundtrip_resend|]. intros Hn Ho. rewrite roundtrip_normal by done.
  by apply normalize_ordered.
Qed.

Lemma first_tool_use_skip pre rest :
  Forall (λ b, match b with ToolUse _ _ => False | _ => True end) pre →
  first_tool_use (pre ++ rest) = first_tool_use rest.
Proof.
  unfold first_tool_use. induction 1 as [|b pre Hb _ IH]; [done|]. cbn. by destruct b.
Qed.

Lemma texts_step ts :
  bedrock_step json_f64 (Some (MessageOutput (TextBlock <$> ts))) = Ok (AnswerWith (concat_text ts)).
Proof.
  cbn. assert (first_tool_use (TextBlock <$> ts) = None) as ->.
  { unfold first_tool_use. by induction ts. }
  do 2 f_equal. unfold content_text. f_equal. induction ts as [|t ts IH]; [done|].
  cbn. by rewrite IH.
Qed.

(** The planners agree. A tool use anywhere in a Bedrock message, whatever text surrounds
    it and whatever tool uses follow, becomes the call that the same name and arguments
    become when an OpenAI-compatible endpoint sends them; without one both answer with the
    text. *)
Theorem planners_agree (parse : string → result Value string) (name raw : string) (args : Value)
    (pre post : list ContentBlock) (calls : list Value) (content : Value) (texts : list string)
    (Hnum : faithful json_f64 args) (Hord : in_key_order args)
    (Hpre : Forall (λ b, match b with ToolUse _ _ => False | _ => True end) pre)
    (Hraw : str_is_empty (str_trim raw) = false) (Hparse : parse raw = Ok args) :
  let oa_reply calls content :=
    Object [("choices"%string, Array [Object [("message"%string,
      Object [("tool_calls"%string, Array calls); ("content"%string, content)])]])] in
  let oa_call := Object [("function"%string,
      Object [("name"%string, JString name); ("arguments"%string, JString raw)])] in
  bedrock_step json_f64 (Some (MessageOutput (pre ++ ToolUse name (json_to_document args) :: post))) =
    Ok (CallTool name args) ∧
  oa_step parse (oa_reply (oa_call :: calls) content) = Ok (CallTool name args) ∧
  bedrock_step json_f64 (Some (MessageOutput (TextBlock <$> texts))) =
    oa_step parse (oa_reply [] (JString (concat_text texts))).
Proof.
  cbv zeta. split_and!.
  - cbn [bedrock_step ok_or]. rewrite first_tool_use_skip by done. cbn.
    by rewrite roundtrip_normal, normalize_ordered.
  - trans (a <-? (if str_is_empty (str_trim raw) then Ok (Object [])
                  else map_err (λ e, "tool args parse: " +:+ e) (parse raw));; Ok (CallTool name a));
      [reflexivity|]. by rewrite Hraw, Hparse.
  - rewrite texts_step. reflexivity.
Qed.

Context {B : Type} {SDK : BedrockSdk B}.

Lemma try_map_ok {A C E} (f : A → result C E) (l : list A) :
  Forall (λ x, ∃ y, f x = Ok y) l → ∃ ys, try_map f l = Ok ys ∧ Forall2 (λ x y, f x = Ok y) l ys.
Proof.
  induction 1 as [|x l [y Hy] _ (ys & E1 & H)]; [by exists []|].
  exists (y :: ys). cbn. rewrite Hy, E1. by split; [|constructor].
Qed.

Definition spec_of (def : Value) : ToolSpecification :=
  {| ts_name := default ""%string (as_str (index_key def "name"));
     ts_description := default ""%string (as_str (index_key def "description"));
     ts_input_schema := json_to_document (index_key def "inputSchema") |}.

(** The model is offered every tool of the shared surface, under its name, and with an
    input schema that reads back as the one the surface defines: nothing is lost in the
    translation. The SDK accepts a specification whose members are set, and small integers
    are [i64]s. *)
Theorem bedrock_offers_all_tools
    (Hspec : ∀ s, ∃ t, build_tool_spec s = Ok t)
    (Hint : ∀ z, 0 ≤ z < 100 → number_as_i64 (number_of_Z z) = Some z) :
  ∃ tools, tool_config definitions = build_tool_configuration tools ∧
    Forall2 (λ s t, build_tool_spec s = Ok t) (spec_of <$> default [] (as_array definitions)) tools ∧
    ts_name ∘ spec_of <$> default [] (as_array definitions) = defined_names ∧
    Forall (λ def, document_to_json json_f64 (ts_input_schema (spec_of def))
                     = normalize (index_key def "inputSchema")) (default [] (as_array definitions)).
Proof.
  assert (Forall (λ def, tool_spec def = build_tool_spec (spec_of def))
    (default [] (as_array definitions))) as Hsame by repeat constructor.
  destruct (try_map_ok tool_spec (default [] (as_array definitions))) as (tools & E & Hf).
  { eapply Forall_impl; [exact Hsame|]. intros def ->. apply Hspec. }
  exists tools. split_and!.
  - unfold tool_config. change (as_array definitions) with
      (Some (default [] (as_array definitions))). cbn [ok_or]. by rewrite E.
  - apply Forall2_fmap_l. clear -Hsame Hf. induction Hf as [|x y l k Hxy _ IH]; [constructor|].
    apply Forall_cons in Hsame as [Hx Hs]. constructor; [|auto]. etrans; [symmetry; exact Hx|exact Hxy].
  - reflexivity.
  - assert (faithful_number json_f64 (number_of_Z 1)) by (unfold faithful_number; by rewrite Hint).
    assert (faithful_number json_f64 (number_of_Z 50)) by (unfold faithful_number; by rewrite Hint).
    assert (Forall (λ def, faithful json_f64 (index_key def "inputSchema"))
      (default [] (as_array definitions))) as Hfa.
    { repeat constructor; try done. }
    eapply Forall_impl; [exact Hfa|]. intros def Hd. by apply roundtrip_normal.
Qed.
End properties.

(** The eval and the dashboard choose the planner the [nlq] binary would, and the heuristic
    where that gives up. An endpoint needs its key and its model, wins over Bedrock, and
    neither is looked at by a binary built without it; the briefing never uses an
    endpoint. *)
Theorem planner_choice (env : string → option string) (openai bedrock : bool) :
  (eval_planner env openai bedrock).1 = default HeuristicPlanner (nlq_planner env openai bedrock) ∧
  (select_model env openai bedrock).1 = default HeuristicPlanner (nlq_planner env openai bedrock) ∧
  (nlq_planner env openai bedrock = None ↔
     (openai = false ∨ env "AETHER_OPENAI_API_KEY" = None ∨ env "AETHER_OPENAI_MODEL" = None) ∧
     (bedrock = false ∨ env "AETHER_BEDROCK_MODEL" = None)) ∧
  (∀ key model, openai = true → env "AETHER_OPENAI_API_KEY" = Some key →
     env "AETHER_OPENAI_MODEL" = Some model →
     ∃ url, nlq_planner env openai bedrock = Some (OpenAiPlanner url key model)) ∧
  (∀ url key model, briefing_planner env bedrock ≠ OpenAiPlanner url key model).
Proof.
  unfold eval_planner, select_model, nlq_planner, briefing_planner, openai_from_env, bedrock_from_env.
  destruct openai, bedrock, (env "AETHER_OPENAI_API_KEY"), (env "AETHER_OPENAI_MODEL"),
    (env "AETHER_BEDROCK_MODEL"); cbn; split_and!; naive_solver.
Qed.

(** ** Witnesses *)

#[local] Existing Instances canonical_order ascii_only whole_numbers integers.

(** Arguments as a model sends them. *)
Definition count_args : Value :=
  Object [("kind"%string, JString "percentiles");
          ("percentiles"%string, Array [Number (50 : jnumber); Number (99 : jnumber)])].

Lemma count_args_faithful json_f64 : faithful json_f64 count_args.
Proof. repeat constructor. Qed.

Lemma count_args_ordered : in_key_order count_args.
Proof. repeat constructor. Qed.

Lemma planners_agree_witness :
  let parse s := if bool_decide (s = "{..}"%string) then Ok count_args else Err "no"%string in
  bedrock_step (λ _, Null) (Some (MessageOutput
    [TextBlock "let me count"; ToolUse "aggregate_flights" (json_to_document count_args); OtherBlock]))
  = Ok (CallTool "aggregate_flights" count_args).
Proof.
  intros parse. apply (planners_agree (λ _, Null) parse "aggregate_flights" "{..}" count_args
    [TextBlock "let me count"] [OtherBlock] [] Null []).
  - apply count_args_faithful.
  - exact count_args_ordered.
  - by repeat constructor.
  - reflexivity.
  - reflexivity.
Defined.

(** An SDK whose builders keep what they are given, and a service that answers nothing. *)
#[local] Instance plain_sdk : BedrockSdk unit :=
  {| SdkMessage := ContentBlock; SdkTool := ToolSpecification;
     ToolConfiguration := list ToolSpecification;
     build_user_message := Ok; build_tool_spec := Ok; build_tool_configuration := Ok;
     converse _ _ _ b := (b, Ok None) |}.

Lemma bedrock_offers_all_tools_witness :
  ∃ tools : list ToolSpecification, tool_config definitions = Ok tools ∧ length tools = 5%nat.
Proof.
  destruct (bedrock_offers_all_tools (λ _, Null)) as (tools & E & H & _).
  - intros s. by exists s.
  - by intros z _.
  - exists tools. split; [exact E|]. exact (eq_sym (Forall2_length _ _ _ H)).
Defined.

Example bedrock_silent : bedrock_next_step (λ _, Null) "m" "how many?" [] tt =
  (tt, Err "no output from model"%string).
Proof. vm_compute. reflexivity. Qed.

(** *** The numbers of [serde_json] *)

(** An unsigned or a negative integer of 64 bits, or a finite float. *)
Inductive SerdeNumber := SdPos (u : Z) | SdNeg (i : Z) | SdFloat (f : f64).

Definition serde_numbers : Json :=
  {| jnumber := SerdeNumber;
     number_as_f64 n := Some match n with SdPos z | SdNeg z => f64_of_Z z | SdFloat f => f end;
     number_as_i64 n := match n with
                        | SdPos u => if u <? 2 ^ 63 then Some u else None
                        | SdNeg i => Some i
                        | SdFloat _ => None
                        end;
     number_as_u64 n := match n with SdPos u => Some u | _ => None end;
     number_display n := match n with SdPos z | SdNeg z => show_Z z | SdFloat _ => "float"%string end;
     number_of_Z z := if 0 <=? z then SdPos z else SdNeg z |}.

#[local] Existing Instance serde_numbers.

Definition serde_f64 (f : f64) : Value := if is_finite f then Number (SdFloat f : jnumber) else Null.

(** The numbers that come back are all but the integers above [i64::MAX]. *)
Lemma serde_faithful (n : SerdeNumber) :
  match n with SdPos u => 0 ≤ u | SdNeg i => i < 0 | SdFloat f => is_finite f = true end →
  faithful_number (JS := serde_numbers) serde_f64 n ↔
    match n with SdPos u => u < 2 ^ 63 | _ => True end.
Proof.
  unfold faithful_number, serde_f64. destruct n as [u|i|f]; cbn -[Z.pow]; intros H.
  - destruct (Z.ltb_spec u (2 ^ 63)) as [Hu|Hu].
    + destruct (Z.leb_spec 0 u); [by split|lia].
    + split; [|lia]. intros (f & _ & E). by destruct (is_finite f).
  - destruct (Z.leb_spec 0 i); [lia|by split].
  - split; [done|]. intros _. exists f. by rewrite H.
Qed.

Definition some_args : Value :=
  Object [("a"%string, Array [Number (SdPos 50 : jnumber); Number (SdNeg (-3) : jnumber);
                              Number (SdFloat (f64_div (f64_of_Z 1) (f64_of_Z 2)) : jnumber)]);
          ("b"%string, Object [("deep"%string, Bool true); ("none"%string, Null)])].

Lemma some_args_faithful : faithful serde_f64 some_args.
Proof.
  unfold faithful, some_args. cbn [everywhere foldr fst snd].
  split_and!; try exact I; apply serde_faithful; first [exact I|lia|by vm_compute].
Qed.

Lemma document_roundtrip_witness :
  document_to_json serde_f64 (json_to_document some_args) = some_args.
Proof.
  apply (document_roundtrip serde_f64 some_args).
  - exact some_args_faithful.
  - repeat constructor.
Defined.

(** 2^64 - 1 comes back as the float 2^64. *)
Theorem big_integer_becomes_float :
  document_to_json serde_f64 (json_to_document (Number (SdPos (2 ^ 64 - 1) : jnumber))) =
    Number (SdFloat (f64_of_Z (2 ^ 64)) : jnumber).
Proof.
  rewrite roundtrip_resend. cbn [resend]. unfold resend_number.
  assert (number_as_i64 (SdPos (2 ^ 64 - 1) : jnumber) = None) as -> by reflexivity.
  change (serde_f64 (f64_of_Z (2 ^ 64 - 1)) = Number (SdFloat (f64_of_Z (2 ^ 64)) : jnumber)).
  assert (f64_of_Z (2 ^ 64 - 1) = f64_of_Z (2 ^ 64)) as -> by (vm_compute; reflexivity).
  unfold serde_f64. assert (is_finite (f64_of_Z (2 ^ 64)) = true) as ->; [vm_compute; reflexivity|done].
Qed.
