(* ===== verification/Briefing.v ===== *)
(** * The briefing agent: [briefing/src/lib.rs] and [briefing/src/main.rs]

    The allowlist, composing a briefing and handing it off. The email sink is an interface
    with a state of its own; [dry_run] is the default one. *)

From S2P Require Export Nlq.

(** ** The allowlist *)

Section allowlist.
Context {UC : Unicode}.

Definition Allowlist : Type := list string.

Definition allowlist_new (addrs : list string) : Allowlist :=
  filter (λ a, a ≠ EmptyString) ((λ a, str_to_lowercase (str_trim a)) <$> addrs).

Definition allowlist_from_env (recipients : option string) : Allowlist :=
  allowlist_new (str_split (λ c, c =? comma)%N (default EmptyString recipients)).

Definition allows (a : Allowlist) (addr : string) : bool :=
  existsb (λ x, bool_decide (x = str_to_lowercase (str_trim addr))) a.
End allowlist.

(** ** Email sinks *)

Class Emailer (E : Type) := {
  send : string → string → string → E → E * result () string;
}.

(** Records what it would have sent. *)
#[export] Instance dry_run : Emailer (list (string * string)) :=
  {| send to subject _ sent := (sent ++ [(to, subject)], Ok ()) |}.

(** ** Composing *)

Record BriefingText := { bf_subject : string; bf_body : string; bf_provenance : list string }.

Section briefing.
Context {JS : Json} {UC : Unicode} {M W E : Type} {MO : Model M} {TR : ToolRunner W} {EM : Emailer E}.

(** One question: the parties after it, the body and the provenance so far. *)
Definition ask (budget : Budget) (st : M * W * string * list string) (q : string)
    : option (M * W * string * list string) :=
  let '(m, w, body, provenance) := st in
  '(ls, answer) ← run m w q budget;
  Some (ls_model ls, ls_world ls,
        body +:+ "Q: " +:+ q +:+ newline +:+ an_text answer +:+ newline +:+ newline,
        provenance ++ an_provenance answer).

Definition evidence (provenance : list string) : string :=
  match provenance with
  | [] => EmptyString
  | ps => "— evidence —" +:+ newline +:+ concat_text ((λ ip : nat * string,
            "  [" +:+ show_nat (ip.1 + 1) +:+ "] " +:+ ip.2 +:+ newline) <$> enumerate ps)
  end.

Definition compose (m : M) (w : W) (questions : list string) : option (M * W * BriefingText) :=
  '(m, w, body, provenance) ←
    foldl (λ st q, st ← st; ask budget_default st q)
      (Some (m, w, "Aether cluster briefing" +:+ newline +:+ "=======================" +:+ newline
                     +:+ newline, [])) questions;
  Some (m, w, {| bf_subject := "Aether cluster briefing"; bf_body := body +:+ evidence provenance;
                 bf_provenance := provenance |}).

(** ** Handing off *)

(** One recipient: the sink, those delivered to and the errors. *)
Definition hand_off (allowlist : Allowlist) (b : BriefingText)
    (st : E * list string * list string) (r : string) : E * list string * list string :=
  let '(e, delivered, errors) := st in
  if negb (allows allowlist r) then (e, delivered, errors ++ ["recipient not allowlisted: " +:+ r])
  else
    let '(e, res) := send r (bf_subject b) (bf_body b) e in
    match res with
    | Ok _ => (e, delivered ++ [r], errors)
    | Err x => (e, delivered, errors ++ ["send to " +:+ r +:+ " failed: " +:+ x])
    end.

Definition brief_and_send (m : M) (w : W) (questions recipients : list string)
    (allowlist : Allowlist) (e : E) : option (M * W * E * result (list string) (list string)) :=
  '(m, w, b) ← compose m w questions;
  let '(e, delivered, errors) := foldl (hand_off allowlist b) (e, [], []) recipients in
  Some (m, w, e, match errors with [] => Ok delivered | _ => Err errors end).
End briefing.

(** ** The binary *)

Definition briefing_questions : list string :=
  ["how many flights are there?"; "which aircraft types are flying?";
   "what are the altitude percentiles?"; "is the cluster healthy?"].

Definition briefing_recipients `{!Unicode} (raw : option string) : list string :=
  comma_list (default EmptyString raw).

(** The sink: the real one needs both the opt-in and a configuration. *)
Inductive Sink := DryRun | Smtp.
Definition choose_sink (send : option string) (smtp_configured : bool) : Sink :=
  match bool_decide (send = Some "send"%string), smtp_configured with
  | true, true => Smtp
  | _, _ => DryRun
  end.

Section binary.
Context {JS : Json} {UC : Unicode} {M W E : Type} {MO : Model M} {TR : ToolRunner W} {EM : Emailer E}.

(** Briefing every [cadence] seconds, or once when it is 0, and each round's outcome. The
    process is watched for [horizon] rounds; the flag is whether it has returned by then.
    [meanwhile] is what becomes of the cluster during a sleep. *)
Fixpoint run_loop (horizon : nat) (cadence : Z) (meanwhile : W → W) (questions recipients : list string)
    (allowlist : Allowlist) (m : M) (w : W) (e : E)
    : option (M * W * E * list (result (list string) (list string)) * bool) :=
  match horizon with
  | O => Some (m, w, e, [], false)
  | S horizon =>
      '(m, w, e, r) ← brief_and_send m w questions recipients allowlist e;
      if cadence =? 0 then Some (m, w, e, [r], true)
      else
        '(m, w, e, rs, returned) ←
          run_loop horizon cadence meanwhile questions recipients allowlist m (meanwhile w) e;
        Some (m, w, e, r :: rs, returned)
  end.

(** [main], over the planner and the sink it chose. *)
Definition briefing_main (env : string → option string) (horizon : nat) (meanwhile : W → W)
    (m : M) (w : W) (e : E) : option (M * W * E * list (result (list string) (list string)) * bool) :=
  run_loop horizon (env_or env parse_u64 "AETHER_BRIEFING_CADENCE_SECS" 0) meanwhile briefing_questions
    (briefing_recipients (env "AETHER_BRIEFING_RECIPIENTS"%string))
    (allowlist_from_env (env "AETHER_BRIEFING_RECIPIENTS"%string)) m w e.
End binary.

(** ** Lemmas *)

Section lemmas.
Context {JS : Json} {UC : Unicode} {M W E : Type} {MO : Model M} {TR : ToolRunner W} {EM : Emailer E}.

Lemma run_some (m : M) (w : W) q budget (P : W → Prop) :
  (∀ name args w, P w → P (run_tool name args w).1) → P w →
  ∃ st a, run m w q budget = Some (st, a) ∧ P (ls_world st) ∧
    an_provenance a = ls_observations st ≫= provenance_of ∘ snd.
Proof.
  intros HP Hw.
  destruct (run_fuel_spec P (S (max_tool_calls budget)) q budget (loop_start m w))
    as (st & a & E' & [Hp _ _] & Hw' & _ & Hprov & _);
    [done|apply loop_start_ok|done|cbn; lia|].
  exists st, a. split_and!; [exact E'|done|congruence].
Qed.

Lemma compose_some (m : M) (w : W) questions (P : W → Prop) :
  (∀ name args w, P w → P (run_tool name args w).1) → P w →
  ∃ m' w' b, compose m w questions = Some (m', w', b) ∧ P w'.
Proof.
  intros HP. unfold compose.
  generalize ("Aether cluster briefing" +:+ newline +:+ "=======================" +:+ newline +:+ newline).
  generalize (@nil string). intros provenance body.
  revert m w provenance body. induction questions as [|q qs IH]; intros m w provenance body Hw.
  { by eexists _, _, _. }
  cbn [foldl mbind option_bind ask].
  destruct (run_some m w q budget_default P HP Hw) as (st & a & -> & Hw' & _).
  cbn [mbind option_bind]. by apply IH.
Qed.

Lemma sublist_same_length {A} (l k : list A) : sublist l k → length l = length k → l = k.
Proof.
  induction 1 as [|x l k _ IH|x l k Hs _]; cbn; intros Hl; [done|f_equal; auto|].
  apply sublist_length in Hs. lia.
Qed.

(** The hand-off is a pass over the recipients in order. *)
Lemma hand_off_spec (I : E → Prop) allowlist b recipients (e : E) delivered errors :
  (∀ r e, r ∈ recipients → allows allowlist r = true → I e → I (send r (bf_subject b) (bf_body b) e).1) →
  I e →
  let '(e', d, x) := foldl (hand_off allowlist b) (e, delivered, errors) recipients in
  I e' ∧ (∃ new, d = delivered ++ new ∧ sublist new recipients ∧
            Forall (λ r, allows allowlist r = true) new ∧
            (length new + length x = length recipients + length errors)%nat).
Proof.
  intros HI. revert e delivered errors. induction recipients as [|r rs IH]; intros e delivered errors He.
  { split; [done|]. exists []. rewrite app_nil_r. split_and!; [done|constructor|constructor|cbn; lia]. }
  assert (∀ r e, r ∈ rs → allows allowlist r = true → I e → I (send r (bf_subject b) (bf_body b) e).1) as HI'
    by (intros; apply HI; [by right|done..]).
  cbn [foldl hand_off]. destruct (allows allowlist r) eqn:Ea; cbn [negb].
  - pose proof (HI r e ltac:(by left) Ea He) as He'.
    destruct (send r (bf_subject b) (bf_body b) e) as [e1 [[]|x]].
    + specialize (IH HI' e1 (delivered ++ [r]) errors He').
      destruct (foldl _ _ rs) as [[e2 d] xs]. destruct IH as (? & new & -> & Hsub & Hal & Hlen).
      split; [done|]. exists (r :: new). rewrite <- app_assoc.
      split_and!; [done|by constructor|by constructor|cbn; lia].
    + specialize (IH HI' e1 delivered (errors ++ ["send to " +:+ r +:+ " failed: " +:+ x]) He').
      destruct (foldl _ _ rs) as [[e2 d] xs]. destruct IH as (? & new & -> & Hsub & Hal & Hlen).
      split; [done|]. exists new. rewrite length_app in Hlen.
      split_and!; [done|by constructor|done|cbn in *; lia].
  - specialize (IH HI' e delivered (errors ++ ["recipient not allowlisted: " +:+ r]) He).
    destruct (foldl _ _ rs) as [[e2 d] xs]. destruct IH as (? & new & -> & Hsub & Hal & Hlen).
    split; [done|]. exists new. rewrite length_app in Hlen.
    split_and!; [done|by constructor|done|cbn in *; lia].
Qed.

(** What a round came to. *)
Definition outcome_ok (allowlist : Allowlist) (recipients : list string)
    (res : result (list string) (list string)) : Prop :=
  match res with
  | Ok delivered => delivered = recipients ∧ Forall (λ r, allows allowlist r = true) recipients
  | Err errors => errors ≠ [] ∧ (length errors ≤ length recipients)%nat
  end.

(** [I] survives mailing the recipients that are allowed. *)
Definition mail_safe (allowlist : Allowlist) (recipients : list string) (I : E → Prop) : Prop :=
  ∀ r subject body e, r ∈ recipients → allows allowlist r = true → I e → I (send r subject body e).1.

Lemma brief_and_send_spec (m : M) (w : W) questions recipients allowlist (e : E) (P : W → Prop) :
  (∀ name args w, P w → P (run_tool name args w).1) → P w →
  ∃ m' w' e' res, brief_and_send m w questions recipients allowlist e = Some (m', w', e', res) ∧
    P w' ∧ (∀ I, mail_safe allowlist recipients I → I e → I e') ∧ outcome_ok allowlist recipients res.
Proof.
  intros HP Hw. destruct (compose_some m w questions P HP Hw) as (m' & w' & b & Ec & Hw').
  unfold brief_and_send. rewrite Ec. cbn [mbind option_bind].
  pose proof (λ I HI He, hand_off_spec I allowlist b recipients e [] [] HI He) as Hspec.
  destruct (foldl (hand_off allowlist b) (e, [], []) recipients) as [[e' d] errors].
  eexists m', w', e', _. split; [done|]. split; [done|]. split.
  - intros I HI He. destruct (Hspec I ltac:(eauto) He) as [H _]. exact H.
  - destruct (Hspec (λ _, True) ltac:(done) I) as (_ & new & -> & Hsub & Hal & Hlen). cbn [app] in *.
    destruct errors as [|x errors]; cbn [length] in Hlen.
    + assert (new = recipients) as -> by (apply sublist_same_length; [done|lia]). done.
    + split; [done|]. cbn. lia.
Qed.
End lemmas.

(** ** Properties *)

(** C21: the only way out is governed. Whatever the model, the tools and the sink do, a
    briefing ends, and the sink is only ever asked to mail recipients on the allowlist
    (so anything such mails preserve still holds of it; with an empty allowlist it is not
    touched at all); the hand-off succeeds exactly with every recipient allowlisted and
    delivered to, in order, and otherwise reports an error for each one that is not; and
    over the engine's tools the cluster is only read. *)
Theorem briefing_governed {JS : Json} {HO : HashOrder} {UC : Unicode} {FL : FloatLib} {M E : Type}
    {MO : Model M} {EM : Emailer E} (show_status : Status → string) (m : M) (w : AgentWorld)
    (questions recipients : list string) (allowlist : Allowlist) (e : E) :
  ∃ m' w' e' res,
    brief_and_send (TR := engine_tools show_status) m w questions recipients allowlist e
      = Some (m', w', e', res) ∧
    untouched w w' ∧
    (∀ I : E → Prop,
       (∀ r subject body e, r ∈ recipients → allows allowlist r = true → I e → I (send r subject body e).1) →
       I e → I e') ∧
    match res with
    | Ok delivered => delivered = recipients ∧ Forall (λ r, allows allowlist r = true) recipients
    | Err errors => errors ≠ [] ∧ (length errors ≤ length recipients)%nat
    end ∧
    (allowlist = [] → e' = e).
Proof.
  destruct (brief_and_send_spec (TR := engine_tools show_status) m w questions recipients allowlist e
    (untouched w)) as (m' & w' & e' & res & Eb & Hu & HI & Hres); [|apply untouched_refl|].
  { intros name args w1 Hu. by apply call_untouched. }
  exists m', w', e', res. split_and!; [done..|]. intros ->. by apply (HI (λ x, x = e)).
Qed.

(** The scheduled run is governed too. A briefing every [cadence] seconds goes on for as
    long as one watches and never dies, one with cadence 0 returns after its only round;
    over all rounds the sink is only asked to mail recipients on the allowlist, each round
    reports all delivered or errors, and the rounds change nothing of the cluster: what
    survives the sleeps between them holds in the end. *)
Theorem run_loop_governed {JS : Json} {HO : HashOrder} {UC : Unicode} {FL : FloatLib} {M E : Type}
    {MO : Model M} {EM : Emailer E} (show_status : Status → string) (horizon : nat) (cadence : Z)
    (meanwhile : AgentWorld → AgentWorld) (questions recipients : list string) (allowlist : Allowlist)
    (m : M) (w : AgentWorld) (e : E) :
  ∃ m' w' e' rounds returned,
    run_loop (TR := engine_tools show_status) horizon cadence meanwhile questions recipients allowlist m w e
      = Some (m', w', e', rounds, returned) ∧
    length rounds = (if cadence =? 0 then Nat.min 1 horizon else horizon) ∧
    returned = (cadence =? 0) && (0 <? horizon)%nat ∧
    Forall (outcome_ok allowlist recipients) rounds ∧
    (∀ I : E → Prop, mail_safe allowlist recipients I → I e → I e') ∧
    (∀ P : AgentWorld → Prop, (∀ w1 w2, untouched w1 w2 → P w1 → P w2) →
       (∀ w1, P w1 → P (meanwhile w1)) → P w → P w').
Proof.
  revert m w e. induction horizon as [|n IH]; intros m w e.
  { exists m, w, e, [], false. rewrite andb_false_r. split_and!; try done. by destruct (cadence =? 0). }
  destruct (brief_and_send_spec (TR := engine_tools show_status) m w questions recipients allowlist e
    (untouched w)) as (m1 & w1 & e1 & res & Eb & Hu & HI & Hres); [|apply untouched_refl|].
  { intros name args w1 Hu. by apply call_untouched. }
  cbn [run_loop]. rewrite Eb. cbn [mbind option_bind]. destruct (cadence =? 0).
  - exists m1, w1, e1, [res], true. split_and!; [done..| | |]; [by constructor|done|]. intros P HP _. by apply HP.
  - destruct (IH m1 (meanwhile w1) e1) as (m2 & w2 & e2 & rs & b & Er & Hlen & Hb & Hrs & HI2 & HP2).
    rewrite Er. cbn [mbind option_bind]. exists m2, w2, e2, (res :: rs), b.
    split_and!; [done|cbn; lia|by rewrite Hb|by constructor|intros I HM ?; by apply HI2, HI|].
    intros P HP Hm Hw. apply HP2; [done|done|]. apply Hm. by eapply HP.
Qed.

(** In the binary the allowlist and the recipients are read from the same variable, so no
    recipient is ever refused: what mail goes out is decided by the choice of the sink
    alone. Lower-casing turns no text into the empty one. *)
Theorem binary_gate_is_open {UC : Unicode} (recipients : option string)
    (Hlow : ∀ s, s ≠ EmptyString → str_to_lowercase s ≠ EmptyString) :
  Forall (λ r, allows (allowlist_from_env recipients) r = true) (briefing_recipients recipients).
Proof.
  apply Forall_forall. intros r. unfold briefing_recipients, comma_list, allows.
  rewrite list_elem_of_filter. intros [Hr (a & -> & Ha)%list_elem_of_fmap].
  apply existsb_exists. exists (str_to_lowercase (str_trim a)). rewrite str_trim_idem.
  split; [|by apply bool_decide_eq_true].
  apply list_elem_of_In, list_elem_of_filter. split; [by apply Hlow|].
  apply list_elem_of_fmap. by exists a.
Qed.

Lemma ascii_lower_nonempty (s : string) :
  s ≠ EmptyString → @str_to_lowercase ascii_only s ≠ EmptyString.
Proof. destruct s; [done|]. intros _. unfold str_to_lowercase. by case_match. Qed.

Lemma binary_gate_is_open_witness :
  let raw := Some "ops@aether.io, Evil@example.com"%string in
  @briefing_recipients ascii_only raw = ["ops@aether.io"; "Evil@example.com"]%string ∧
  Forall (λ r, @allows ascii_only (@allowlist_from_env ascii_only raw) r = true)
    ["ops@aether.io"; "Evil@example.com"]%string.
Proof.
  split; [vm_compute; reflexivity|].
  apply (binary_gate_is_open (UC := ascii_only) (Some "ops@aether.io, Evil@example.com"%string)).
  exact ascii_lower_nonempty.
Defined.
