(* ===== verification/Smtp.v ===== *)
(** * The SMTP sink of the briefing: [briefing/src/smtp.rs]

    The mail stack (crate [lettre]) is a parameter: parsing mailboxes, building a message
    and the transport, over the state of the world outside. [SmtpEmailer] implements the
    briefing's [Emailer]. *)

From S2P Require Export Briefing.

(** ** Configuration *)

Record SmtpConfig := {
  smtp_host : string;
  smtp_port : Z;
  smtp_user : string;
  smtp_pass : string;
  smtp_from : string;
}.

(** [relay host] is whether a STARTTLS transport can be set up for the host; [feature]
    whether the binary has the mail stack. *)
Definition smtp_from_env (env : string → option string) (feature : bool) (relay : string → bool)
    : option SmtpConfig :=
  if feature then
    host ← env "AETHER_SMTP_HOST"%string;
    user ← env "AETHER_SMTP_USER"%string;
    pass ← env "AETHER_SMTP_PASS"%string;
    from ← env "AETHER_SMTP_FROM"%string;
    let port := default 587 (env "AETHER_SMTP_PORT"%string ≫= parse_uint (2 ^ 16 - 1)) in
    if relay host
    then Some {| smtp_host := host; smtp_port := port; smtp_user := user; smtp_pass := pass;
                 smtp_from := from |}
    else None
  else None.

(** ** The mail stack *)

(** A plain-text message as the builder is given it. *)
Record Draft (A : Type) := {
  dr_from : A;
  dr_to : A;
  dr_subject : string;
  dr_body : string;
}.
Arguments Build_Draft {A} _ _ _ _.
Arguments dr_from {A} _.
Arguments dr_to {A} _.
Arguments dr_subject {A} _.
Arguments dr_body {A} _.

Class MailStack (T : Type) := {
  Mailbox : Type;
  Mail : Type;
  parse_mailbox : string → result Mailbox string;
  build_mail : Draft Mailbox → result Mail string;
  transport_send : SmtpConfig → Mail → T → T * result () string;
}.

Section smtp.
Context {T : Type} {MS : MailStack T} (config : SmtpConfig).

Definition draft_mail (to subject body : string) : result Mail string :=
  from <-? map_err (λ e, "bad from address: " +:+ e) (parse_mailbox (smtp_from config));;
  rcpt <-? map_err (λ e, "bad recipient " +:+ to +:+ ": " +:+ e) (parse_mailbox to);;
  map_err (λ e, "build message: " +:+ e)
    (build_mail {| dr_from := from; dr_to := rcpt; dr_subject := subject; dr_body := body |}).

Definition smtp_send (to subject body : string) (t : T) : T * result () string :=
  match draft_mail to subject body with
  | Err e => (t, Err e)
  | Ok mail =>
      let '(t, sent) := transport_send config mail t in
      (t, map_err (λ e, "smtp send: " +:+ e) sent)
  end.

Definition SmtpEmailer : Emailer T := {| send := smtp_send |}.

(** ** Lemmas *)

Lemma draft_mail_ok to subject body mail :
  draft_mail to subject body = Ok mail ↔
  ∃ from rcpt, parse_mailbox (smtp_from config) = Ok from ∧ parse_mailbox to = Ok rcpt ∧
    build_mail {| dr_from := from; dr_to := rcpt; dr_subject := subject; dr_body := body |} = Ok mail.
Proof.
  unfold draft_mail. split.
  - destruct (parse_mailbox (smtp_from config)) as [from|]; [|done]. cbn [map_err].
    destruct (parse_mailbox to) as [rcpt|]; [|done]. cbn [map_err]. intros H.
    exists from, rcpt. split_and!; [done..|]. by destruct (build_mail _); simplify_eq/=.
  - by intros (from & rcpt & -> & -> & H); cbn [map_err]; rewrite H.
Qed.
End smtp.

(** ** Properties *)

(** The real sink needs everything: the feature, the four settings without a default and
    a relay; the port falls back to 587 and is one of 16 bits. A binary without any of
    these, or without the opt-in, keeps the dry run. *)
Theorem smtp_opt_in (env : string → option string) (feature : bool) (relay : string → bool) :
  (is_Some (smtp_from_env env feature relay) ↔
     feature = true ∧ is_Some (env "AETHER_SMTP_USER"%string) ∧
     is_Some (env "AETHER_SMTP_PASS"%string) ∧ is_Some (env "AETHER_SMTP_FROM"%string) ∧
     ∃ host, env "AETHER_SMTP_HOST"%string = Some host ∧ relay host = true) ∧
  (∀ c, smtp_from_env env feature relay = Some c → smtp_port c < 2 ^ 16) ∧
  (choose_sink (env "AETHER_BRIEFING_SEND"%string) (is_some (smtp_from_env env feature relay)) = Smtp ↔
     env "AETHER_BRIEFING_SEND"%string = Some "send"%string ∧
     is_Some (smtp_from_env env feature relay)).
Proof.
  assert (∀ s n, parse_uint (2 ^ 16 - 1) s = Some n → n < 2 ^ 16) as Hport.
  { intros s n. unfold parse_uint.
    set (ds := match str_bytes s with 43%N :: r => r | l => l end). clearbody ds.
    destruct ds as [|b ds]; [done|]. destruct (parse_digits _ _) as [m|]; [|done].
    cbn [mbind option_bind]. destruct (Z.leb_spec m (2 ^ 16 - 1)); [|done]. intros [= <-]. lia. }
  split_and!.
  - unfold smtp_from_env.
    destruct feature, (env "AETHER_SMTP_HOST"%string) as [host|], (env "AETHER_SMTP_USER"%string),
      (env "AETHER_SMTP_PASS"%string), (env "AETHER_SMTP_FROM"%string); cbn;
      try (split; [by intros []|by intros (? & [] & [] & [] & ? & ? & ?)]).
    destruct (relay host) eqn:E; split; [eauto 10| |by intros []|]; [eauto|].
    intros (_ & _ & _ & _ & h & [= <-] & H). congruence.
  - intros c. unfold smtp_from_env. destruct feature; [|done].
    destruct (env "AETHER_SMTP_HOST"%string) as [host|], (env "AETHER_SMTP_USER"%string),
      (env "AETHER_SMTP_PASS"%string), (env "AETHER_SMTP_FROM"%string); try done. cbn.
    destruct (relay host); [|done]. intros [= <-]. cbn [smtp_port].
    destruct (env "AETHER_SMTP_PORT"%string) as [p|]; [|done]. cbn.
    destruct (parse_uint _ p) eqn:E; [|done]. cbn. by eapply Hport.
  - unfold choose_sink. case_bool_decide; destruct (smtp_from_env env feature relay); cbn;
      split; try done; naive_solver.
Qed.

(** Mail leaves only for allowlisted recipients, and only as written. Over the SMTP sink a
    briefing ends with its hand-off decided, and whatever every message to a recipient that
    is on the allowlist and parses as a mailbox, from the configured sender, preserves of
    the world outside, the briefing preserves; with an empty allowlist, or a sender that
    is no mailbox, nothing leaves. *)
Theorem smtp_governed {JS : Json} {HO : HashOrder} {UC : Unicode} {FL : FloatLib} {M T : Type}
    {MO : Model M} {MS : MailStack T} (config : SmtpConfig) (show_status : Status → string) (m : M)
    (w : AgentWorld) (questions recipients : list string) (allowlist : Allowlist) (t : T) :
  ∃ m' w' t' res,
    brief_and_send (TR := engine_tools show_status) (EM := SmtpEmailer config)
      m w questions recipients allowlist t = Some (m', w', t', res) ∧
    untouched w w' ∧
    (∀ I : T → Prop,
       (∀ r from rcpt subject body mail t, r ∈ recipients → allows allowlist r = true →
          parse_mailbox (smtp_from config) = Ok from → parse_mailbox r = Ok rcpt →
          build_mail (Build_Draft from rcpt subject body) = Ok mail →
          I t → I (transport_send config mail t).1) →
       I t → I t') ∧
    (∀ e, parse_mailbox (smtp_from config) = Err e → t' = t) ∧ (allowlist = [] → t' = t).
Proof.
  destruct (compose_some (TR := engine_tools show_status) m w questions (untouched w))
    as (m' & w' & b & Ec & Hu); [|apply untouched_refl|].
  { intros name args w1 Hu. by apply call_untouched. }
  unfold brief_and_send. rewrite Ec. cbn [mbind option_bind].
  pose proof (λ I HI He, hand_off_spec (EM := SmtpEmailer config) I allowlist b recipients t [] [] HI He)
    as Hspec.
  destruct (foldl (hand_off allowlist b) (t, [], []) recipients) as [[t' d] errors] eqn:Ef.
  eexists m', w', t', _. split; [done|]. split; [exact Hu|].
  assert (∀ I : T → Prop,
       (∀ r from rcpt subject body mail t, r ∈ recipients → allows allowlist r = true →
          parse_mailbox (smtp_from config) = Ok from → parse_mailbox r = Ok rcpt →
          build_mail (Build_Draft from rcpt subject body) = Ok mail →
          I t → I (transport_send config mail t).1) →
       I t → I t') as HI.
  { intros I HI Ht. destruct (Hspec I) as [H _]; [|done|exact H].
    intros r t1 Hr Ha Ht1. cbn [send SmtpEmailer]. unfold smtp_send.
    destruct (draft_mail config r _ _) as [mail|] eqn:Ed; [|done].
    apply draft_mail_ok in Ed as (from & rcpt & Hfrom & Hrcpt & Hmail).
    pose proof (HI r from rcpt _ _ mail t1 Hr Ha Hfrom Hrcpt Hmail Ht1) as H1.
    by destruct (transport_send config mail t1). }
  split_and!; [exact HI| |].
  - intros e He. apply (HI (λ t1, t1 = t)); [|done]. intros. congruence.
  - intros ->. apply (HI (λ t1, t1 = t)); [|done]. done.
Qed.

(** ** An outbox *)

(** A mail stack that keeps what it sends; any non-empty string is a mailbox. *)
#[local] Instance outbox : MailStack (list (Draft string)) :=
  {| Mailbox := string; Mail := Draft string;
     parse_mailbox := λ s, if bool_decide (s = EmptyString) then Err "empty"%string else Ok s;
     build_mail := λ d, Ok d; transport_send := λ _ d t, (t ++ [d], Ok ()) |}.

Definition ops_mail : SmtpConfig :=
  {| smtp_host := "mail"; smtp_port := 587; smtp_user := "u"; smtp_pass := "p"; smtp_from := "ops@x" |}.

Example outbox_sends :
  smtp_send ops_mail "a@b" "s" "b" [] = ([Build_Draft (A := string) "ops@x" "a@b" "s" "b"]%string, Ok ()) ∧
  smtp_send ops_mail "" "s" "b" [] = ([] : list (Draft string), Err "bad recipient : empty"%string).
Proof. split; reflexivity. Qed.
