(* ===== verification/Proxy.v ===== *)
(** * The fault-injecting proxy: [crates/testkit/src/lib.rs]

    The accept loop and the test that blocks and unblocks, as steps of two tasks over the
    flag and the list of splices; each step is one atomic access. A splice is a number;
    aborting one ends it, and it may end by itself at any time. *)

From S2P Require Export Prelude.
From stdpp Require Import relations.

(** ** State *)

(** Where the accept loop is: waiting for a connection, past the check of the flag, or
    with a spliced connection it has not filed yet. *)
Inductive AcceptAt := Accepting | Checked | Spliced (n : Z).

(** Where the controlling test is: outside, or in [block] between the store and the drain. *)
Inductive ControlAt := Outside | Stored.

Record Proxy := {
  px_blocked : bool;
  px_splices : gset Z;
  px_live : gset Z;
  px_next : Z;
  px_accept : AcceptAt;
  px_control : ControlAt;
}.

Definition proxy_spawn : Proxy :=
  {| px_blocked := false; px_splices := ∅; px_live := ∅; px_next := 0; px_accept := Accepting;
     px_control := Outside |}.

(** ** Steps *)

(** The accept loop takes a connection and checks the flag. *)
Definition check_flag (p : Proxy) : Proxy :=
  {| px_blocked := px_blocked p; px_splices := px_splices p; px_live := px_live p;
     px_next := px_next p; px_accept := if px_blocked p then Accepting else Checked;
     px_control := px_control p |}.

(** It spawns the splice. *)
Definition spawn_splice (p : Proxy) : Proxy :=
  {| px_blocked := px_blocked p; px_splices := px_splices p; px_live := {[px_next p]} ∪ px_live p;
     px_next := px_next p + 1; px_accept := Spliced (px_next p); px_control := px_control p |}.

(** Under the lock it drops the finished handles and files the new one. *)
Definition file_splice (p : Proxy) (n : Z) : Proxy :=
  {| px_blocked := px_blocked p; px_splices := {[n]} ∪ (px_splices p ∩ px_live p);
     px_live := px_live p; px_next := px_next p; px_accept := Accepting; px_control := px_control p |}.

(** [block]: the store, and the drain under the lock. *)
Definition store_flag (p : Proxy) (blocked : bool) (at_ : ControlAt) : Proxy :=
  {| px_blocked := blocked; px_splices := px_splices p; px_live := px_live p; px_next := px_next p;
     px_accept := px_accept p; px_control := at_ |}.
Definition drain_splices (p : Proxy) : Proxy :=
  {| px_blocked := px_blocked p; px_splices := ∅; px_live := px_live p ∖ px_splices p;
     px_next := px_next p; px_accept := px_accept p; px_control := Outside |}.

Definition end_splice (p : Proxy) (n : Z) : Proxy :=
  {| px_blocked := px_blocked p; px_splices := px_splices p; px_live := px_live p ∖ {[n]};
     px_next := px_next p; px_accept := px_accept p; px_control := px_control p |}.

Inductive proxy_step : Proxy → Proxy → Prop :=
| step_check p : px_accept p = Accepting → proxy_step p (check_flag p)
| step_spawn p : px_accept p = Checked → proxy_step p (spawn_splice p)
| step_file p n : px_accept p = Spliced n → proxy_step p (file_splice p n)
| step_block p : px_control p = Outside → proxy_step p (store_flag p true Stored)
| step_drain p : px_control p = Stored → proxy_step p (drain_splices p)
| step_unblock p : px_control p = Outside → proxy_step p (store_flag p false Outside)
| step_end p n : n ∈ px_live p → proxy_step p (end_splice p n).

(** ** Invariant *)

(** The connections past the check and not filed. *)
Definition in_hand (p : Proxy) : gset Z :=
  match px_accept p with Spliced n => {[n]} | _ => ∅ end.
Definition on_the_way (p : Proxy) : nat :=
  match px_accept p with Checked => 1 | _ => 0 end.

Record proxy_ok (p : Proxy) : Prop := {
  po_filed : px_live p ⊆ px_splices p ∪ in_hand p;
  po_stored : px_control p = Stored → px_blocked p = true;
  po_blocked : px_blocked p = true → px_control p = Outside →
    (size (px_live p) + on_the_way p ≤ 1)%nat;
}.

Lemma size_le_1 (X : gset Z) n : X ⊆ {[n]} → (size X ≤ 1)%nat.
Proof. intros H. apply subseteq_size in H. by rewrite size_singleton in H. Qed.

Lemma proxy_step_ok p p' : proxy_ok p → proxy_step p p' → proxy_ok p'.
Proof.
  intros [Hf Hs Hb] Hst. unfold in_hand, on_the_way in *.
  destruct Hst as [p Ha|p Ha|p n Ha|p Hc|p Hc|p Hc|p n Hn];
    unfold check_flag, spawn_splice, file_splice, store_flag, drain_splices, end_splice in *;
    split; unfold in_hand, on_the_way; cbn; rewrite ?Ha in *.
  - destruct (px_blocked p); set_solver.
  - done.
  - intros Hbl Hc. specialize (Hb Hbl Hc). rewrite Hbl. done.
  - set_solver.
  - done.
  - intros Hbl Hc. specialize (Hb Hbl Hc). assert (px_live p = ∅) as ->.
    { apply leibniz_equiv, size_empty_inv. lia. }
    rewrite union_empty_r_L, size_singleton. lia.
  - set_solver.
  - done.
  - done.
  - done.
  - done.
  - done.
  - set_solver.
  - intros _. by apply Hs.
  - intros _ _. destruct (px_accept p) as [| |n]; cbn [in_hand on_the_way] in *.
    + assert (px_live p ∖ px_splices p = ∅) as -> by set_solver. rewrite size_empty. lia.
    + assert (px_live p ∖ px_splices p = ∅) as -> by set_solver. rewrite size_empty. lia.
    + rewrite Nat.add_0_r. apply (size_le_1 _ n). set_solver.
  - done.
  - by rewrite Hc in *.
  - done.
  - set_solver.
  - done.
  - intros Hbl Hc. specialize (Hb Hbl Hc).
    assert (size (px_live p ∖ {[n]}) ≤ size (px_live p))%nat by (apply subseteq_size; set_solver). lia.
Qed.

Lemma proxy_reach_ok p : rtc proxy_step proxy_spawn p → proxy_ok p.
Proof.
  assert (proxy_ok proxy_spawn) as H0 by (split; [set_solver|done|done]).
  intros H. revert H0. induction H as [|x y z Hxy _ IH]; [done|]. intros Hx.
  by apply IH, (proxy_step_ok x).
Qed.

(** ** Properties *)

(** Blocking severs all but one. However the two tasks interleave, once [block] has
    returned and until the next [unblock], at most one connection is alive or still to
    come: one the accept loop had let past before the flag was set. *)
Theorem block_leaves_one (p : Proxy) (Hr : rtc proxy_step proxy_spawn p)
    (Hb : px_blocked p = true) (Hc : px_control p = Outside) :
  (size (px_live p) + on_the_way p ≤ 1)%nat.
Proof. by apply (po_blocked p (proxy_reach_ok p Hr)). Qed.

(** Blocking once more, when the accept loop is back at its socket, severs that one too. *)
Theorem block_again_severs (p : Proxy) (Hr : rtc proxy_step proxy_spawn p)
    (Ha : px_accept p = Accepting) :
  px_live (drain_splices (store_flag p true Stored)) = ∅.
Proof.
  pose proof (po_filed p (proxy_reach_ok p Hr)) as H. unfold in_hand in H. rewrite Ha in H.
  cbn. set_solver.
Qed.

(** While blocked, a connection that arrives is dropped. *)
Theorem blocked_drops (p : Proxy) (Hb : px_blocked p = true) (Ha : px_accept p = Accepting) :
  px_accept (check_flag p) = Accepting ∧ px_live (check_flag p) = px_live p.
Proof. cbn. by rewrite Hb. Qed.

(** The one is real: a connection let past before the flag is set is spliced after [block]
    has returned, and stays alive. *)
Definition leaked : Proxy :=
  file_splice (spawn_splice (drain_splices (store_flag (check_flag proxy_spawn) true Stored))) 0.

Theorem block_can_leak :
  rtc proxy_step proxy_spawn leaked ∧ px_blocked leaked = true ∧ px_control leaked = Outside ∧
  px_accept leaked = Accepting ∧ px_live leaked = {[0%Z]}.
Proof.
  split_and!; [|done..|vm_compute; done].
  eapply rtc_l; [by apply step_check|]. eapply rtc_l; [by apply step_block|].
  eapply rtc_l; [by apply step_drain|]. eapply rtc_l; [by apply step_spawn|].
  apply rtc_once. by apply step_file.
Qed.

Lemma block_leaves_one_witness : (size (px_live leaked) + on_the_way leaked ≤ 1)%nat.
Proof. apply block_leaves_one; [apply block_can_leak|reflexivity|reflexivity]. Defined.
