(* ===== verification/Supervisor.v ===== *)
(** * The process supervisor: [crates/dashboard/src/supervisor.rs]

    Child processes spawned, killed and never orphaned. The operating system is an
    interface with the laws of [std::process]; [live_os] implements it and keeps what was
    spawned. [env] is the supervisor's own environment, [exe_dir] the directory of its
    executable. Ports are [u16], sequence numbers [u32], both wrapping. *)

From S2P Require Export Text.

(** ** Processes *)

Abbreviation Env := (list (string * string)).

(** [ps_held] are the processes started and not yet waited for. Killing is [Child::kill]
    and then [Child::wait]. *)
Class Processes (W : Type) := {
  ps_spawn : string → Env → W → W * result Z string;
  ps_kill : Z → W → W;
  ps_held : W → gset Z;
  ps_spawn_ok : ∀ bin env w w' p, ps_spawn bin env w = (w', Ok p) →
    p ∉ ps_held w ∧ ps_held w' = {[p]} ∪ ps_held w;
  ps_spawn_err : ∀ bin env w w' e, ps_spawn bin env w = (w', Err e) → ps_held w' = ps_held w;
  ps_kill_held : ∀ p w, ps_held (ps_kill p w) = ps_held w ∖ {[p]};
}.

(** ** The supervisor *)

Record Supervisor := {
  sp_children : gmap string Z;
  sp_next_port : Z;
  sp_follower_seq : Z;
  sp_shard_count : Z;
  sp_raft : bool;
  sp_coordinator_addr : string;
}.

Definition sup_new (shard_count : Z) (coordinator_addr : string) (raft : bool) : Supervisor :=
  {| sp_children := ∅; sp_next_port := 50051; sp_follower_seq := 1; sp_shard_count := shard_count;
     sp_raft := raft; sp_coordinator_addr := coordinator_addr |}.

Definition set_children (s : Supervisor) (m : gmap string Z) : Supervisor :=
  {| sp_children := m; sp_next_port := sp_next_port s; sp_follower_seq := sp_follower_seq s;
     sp_shard_count := sp_shard_count s; sp_raft := sp_raft s;
     sp_coordinator_addr := sp_coordinator_addr s |}.

Definition wrap_u16 (z : Z) : Z := z mod 2 ^ 16.

(** [fetch_add] on the port and on the follower sequence. *)
Definition take_port (s : Supervisor) : Supervisor * Z :=
  ({| sp_children := sp_children s; sp_next_port := wrap_u16 (sp_next_port s + 1);
      sp_follower_seq := sp_follower_seq s; sp_shard_count := sp_shard_count s;
      sp_raft := sp_raft s; sp_coordinator_addr := sp_coordinator_addr s |}, sp_next_port s).
Definition take_seq (s : Supervisor) : Supervisor * Z :=
  ({| sp_children := sp_children s; sp_next_port := sp_next_port s;
      sp_follower_seq := wrap_u32 (sp_follower_seq s + 1); sp_shard_count := sp_shard_count s;
      sp_raft := sp_raft s; sp_coordinator_addr := sp_coordinator_addr s |}, sp_follower_seq s).

Section supervisor.
Context {W : Type} {PS : Processes W} (exe_dir : string) (env : string → option string).

Definition bin (name : string) : string := exe_dir +:+ "/" +:+ name.

(** Inserting over a child that is still held forgets it. *)
Definition keep_child (s : Supervisor) (node_id : string) (r : W * result Z string)
    : W * Supervisor * result () string :=
  match r.2 with
  | Err e => (r.1, s, Err e)
  | Ok pid => (r.1, set_children s (<[node_id := pid]> (sp_children s)), Ok ())
  end.

Definition spawn_coordinator (s : Supervisor) (w : W) : W * Supervisor * result () string :=
  keep_child s "coordinator" (ps_spawn (bin "coordinator")
    [("AETHER_COORDINATOR_ADDR", sp_coordinator_addr s);
     ("AETHER_SHARD_COUNT", show_Z (sp_shard_count s));
     ("AETHER_LIVENESS_TIMEOUT_SECS", "6")]%string w).

(** The variables passed through when they are set. *)
Definition passed_vars : list string :=
  ["AETHER_SOURCE"; "AETHER_HTTP_URL"; "AETHER_HTTP_RECORDS_PATH"; "AETHER_HTTP_ID_FIELD";
   "AETHER_HTTP_ID_PREFIX"; "AETHER_S3_INGEST_BUCKET"; "AETHER_S3_INGEST_PREFIX";
   "AETHER_S3_ENDPOINT"; "AWS_ACCESS_KEY_ID"; "AWS_SECRET_ACCESS_KEY"; "AWS_REGION"]%string.

Definition node_env (s : Supervisor) (port : Z) (node_id : string) (shard_id : Z) (role : string)
    (joining : bool) : Env :=
  [("AETHER_SHARD_ADDR", "127.0.0.1:" +:+ show_Z port);
   ("AETHER_SHARD_INDEX", show_Z shard_id);
   ("AETHER_SHARD_COUNT", show_Z (sp_shard_count s));
   ("AETHER_ROLE", role);
   ("AETHER_COORDINATOR_ADDR", sp_coordinator_addr s);
   ("AETHER_NODE_ID", node_id);
   ("AETHER_HEARTBEAT_SECS", "2");
   ("AETHER_POLL_SECS", default "10" (env "AETHER_POLL_SECS"))]%string ++
  omap (λ var, val ← env var; Some (var, val)) passed_vars ++
  (if sp_raft s then
     [("AETHER_CONSENSUS", "raft"); ("AETHER_GROUP_SIZE", "3")]%string ++
     (if joining then [("AETHER_RAFT_JOIN", "1")]%string else [])
   else []).

Definition spawn_shard_node (s : Supervisor) (node_id : string) (shard_id : Z) (role : string)
    (joining : bool) (w : W) : W * Supervisor * result () string :=
  let '(s, port) := take_port s in
  keep_child s node_id
    (ps_spawn (bin "shard-node") (node_env s port node_id shard_id role joining) w).

(** The members of one shard, with their roles. *)
Definition shard_members (raft : bool) (shard : Z) : list (string * Z * string) :=
  let name suffix := "shard" +:+ show_Z shard +:+ "-" +:+ suffix in
  if raft then
    (λ member, (name ("m" +:+ show_Z member), shard, "follower"%string)) <$> [0; 1; 2]
  else [(name "leader", shard, "leader"%string); (name "f0", shard, "follower"%string)].

Fixpoint spawn_nodes (nodes : list (string * Z * string)) (spawned : list string)
    (s : Supervisor) (w : W) : W * Supervisor * result (list string) string :=
  match nodes with
  | [] => (w, s, Ok spawned)
  | (node_id, shard, role) :: rest =>
      let '(w, s, r) := spawn_shard_node s node_id shard role false w in
      match r with
      | Err e => (w, s, Err e)
      | Ok _ => spawn_nodes rest (spawned ++ [node_id]) s w
      end
  end.

Definition spawn_initial_topology (s : Supervisor) (w : W)
    : W * Supervisor * result (list string) string :=
  spawn_nodes (seqZ 0 (sp_shard_count s) ≫= shard_members (sp_raft s)) [] s w.

Definition add_follower (s : Supervisor) (shard_id : Z) (w : W)
    : W * Supervisor * result string string :=
  let '(s, seq) := take_seq s in
  let node_id := "shard" +:+ show_Z shard_id +:+ "-" +:+ "f" +:+ show_Z seq in
  let '(w, s, r) := spawn_shard_node s node_id shard_id "follower" (sp_raft s) w in
  (w, s, _ <-? r;; Ok node_id).

Definition kill (s : Supervisor) (node_id : string) (w : W) : W * Supervisor * bool :=
  match sp_children s !! node_id with
  | Some pid => (ps_kill pid w, set_children s (delete node_id (sp_children s)), true)
  | None => (w, s, false)
  end.

Definition managed `{!HashOrder} (s : Supervisor) : list string := hm_keys (sp_children s).

(** [drain] empties the map; also what dropping the supervisor does. *)
Definition kill_all `{!HashOrder} (s : Supervisor) (w : W) : W * Supervisor :=
  (foldl (λ w pid, ps_kill pid w) w (hm_values (sp_children s)), set_children s ∅).

(** ** A run of the dashboard: [main] in [crates/dashboard/src/main.rs] *)

(** Starting the cluster; an error drops the supervisor. *)
Definition launch (s : Supervisor) (w : W) : W * Supervisor * result (list string) string :=
  let '(w, s, r) := spawn_coordinator s w in
  match r with
  | Err e => (w, s, Err e)
  | Ok _ => spawn_initial_topology s w
  end.

(** What the buttons do. *)
Inductive sup_op := AddFollower (shard : Z) | Kill (node_id : string).

Definition sup_exec (st : W * Supervisor) (op : sup_op) : W * Supervisor :=
  match op with
  | AddFollower shard => (add_follower st.2 shard st.1).1
  | Kill node_id => (kill st.2 node_id st.1).1
  end.

Definition session (s : Supervisor) (w : W) (ops : list sup_op) : W * Supervisor :=
  foldl sup_exec (launch s w).1 ops.
End supervisor.

(** ** Specification *)

(** Every process held is one of [base], held before, or the child of exactly one id. *)
Record sup_ok {W} `{!Processes W} (base : gset Z) (w : W) (s : Supervisor) : Prop := {
  so_held : ∀ p, p ∈ ps_held w ↔ p ∈ base ∨ ∃ id, sp_children s !! id = Some p;
  so_apart : ∀ id p, sp_children s !! id = Some p → p ∉ base;
  so_inj : ∀ i j p, sp_children s !! i = Some p → sp_children s !! j = Some p → i = j;
}.

Definition node_name (shard : Z) (suffix : string) : string :=
  "shard" +:+ show_Z shard +:+ "-" +:+ suffix.

(** The ids a supervisor gives before its follower sequence reaches [seq]. *)
Inductive given (seq : Z) : string → Prop :=
| given_coordinator : given seq "coordinator"
| given_leader shard : 0 ≤ shard → given seq (node_name shard "leader")
| given_member shard k : 0 ≤ shard → 0 ≤ k → given seq (node_name shard ("m" +:+ show_Z k))
| given_follower shard n : 0 ≤ shard → 0 ≤ n < seq → given seq (node_name shard ("f" +:+ show_Z n)).

Definition adds (ops : list sup_op) : Z :=
  z_sum ((λ op, match op with AddFollower _ => 1 | Kill _ => 0 end) <$> ops).

Definition op_ok (op : sup_op) : Prop :=
  match op with AddFollower shard => u32_in shard | Kill _ => True end.

(** ** Lemmas *)

Lemma split_dash s r :
  Forall (λ b, b ≠ 45%N) (str_bytes s) → split_once "-" (s +:+ "-" +:+ r) = Some (s, r).
Proof.
  induction s as [|c s IH]; intros H.
  { cbn. by destruct r. }
  apply Forall_cons in H as [Hc H]. change (String c s +:+ "-" +:+ r) with (String c (s +:+ "-" +:+ r)).
  cbn [split_once strip_prefix]. rewrite bool_decide_false; [by rewrite IH|].
  intros <-. by apply Hc.
Qed.

Lemma node_name_split shard suffix :
  0 ≤ shard → split_once "-" (node_name shard suffix) = Some ("shard" +:+ show_Z shard, suffix).
Proof.
  intros H. unfold node_name. rewrite str_app_assoc. apply split_dash.
  rewrite str_bytes_app. apply Forall_app. split; [by repeat constructor|].
  eapply Forall_impl; [by apply show_Z_digits|]. intros b Hb ->. done.
Qed.

Lemma show_Z_inj a b : 0 ≤ a → 0 ≤ b → show_Z a = show_Z b → a = b.
Proof.
  intros Ha Hb E. apply (f_equal (λ s, parse_digits 0 (str_bytes s))) in E.
  rewrite !parse_show_Z in E by done. by injection E.
Qed.

Lemma node_name_inj a b x y :
  0 ≤ a → 0 ≤ b → node_name a x = node_name b y → a = b ∧ x = y.
Proof.
  intros Ha Hb E. apply (f_equal (split_once "-")) in E. rewrite !node_name_split in E by done.
  injection E as E ->. split; [|done]. by apply show_Z_inj.
Qed.

Lemma given_fresh seq shard :
  0 ≤ shard → 0 ≤ seq → ¬ given seq (node_name shard ("f" +:+ show_Z seq)).
Proof.
  intros Hs Hq H. remember (node_name shard ("f" +:+ show_Z seq)) as id eqn:E.
  destruct H as [|s' H|s' k H|s' n H Hn]; [discriminate|..];
    apply node_name_inj in E as [_ E]; try done.
  injection E as E. apply show_Z_inj in E; lia.
Qed.

Lemma given_mono seq seq' id : seq ≤ seq' → given seq id → given seq' id.
Proof. intros H [| | |]; constructor; lia. Qed.

Section lemmas.
Context {W : Type} {PS : Processes W}.
Implicit Types (w : W) (s : Supervisor) (base : gset Z).

Lemma keep_child_ok base s id bin e w :
  sup_ok base w s → sp_children s !! id = None →
  let '(w', s', _) := keep_child s id (ps_spawn bin e w) in sup_ok base w' s'.
Proof.
  intros [Hh Ha Hi] Hn. unfold keep_child. destruct (ps_spawn bin e w) as [w' [p|er]] eqn:E; cbn.
  - apply ps_spawn_ok in E as [Hf Hw]. rewrite Hh in Hf. split; cbn.
    + intros q. rewrite Hw, elem_of_union, elem_of_singleton, Hh. split.
      * intros [->|[?|[i ?]]]; [right; exists id; apply lookup_insert_eq|by left|].
        right. exists i. rewrite lookup_insert_ne; congruence.
      * intros [?|[i [[_ <-]|[_ ?]]%lookup_insert_Some]]; naive_solver.
    + intros i q [[_ <-]|[_ ?]]%lookup_insert_Some; naive_solver.
    + intros i j q [[<- <-]|[? Hq]]%lookup_insert_Some [[<- Hr]|[? Hr]]%lookup_insert_Some;
        [done|naive_solver| |by eapply Hi]. naive_solver.
  - apply ps_spawn_err in E. split; [|done..]. intros q. by rewrite E.
Qed.

Lemma keep_child_ids s id r i :
  is_Some (sp_children (keep_child (W:=W) s id r).1.2 !! i) → i = id ∨ is_Some (sp_children s !! i).
Proof.
  unfold keep_child. destruct r as [w' [p|e]]; cbn; [|by right].
  rewrite lookup_insert_is_Some. naive_solver.
Qed.

Lemma keep_child_seq s id r :
  sp_follower_seq (keep_child (W:=W) s id r).1.2 = sp_follower_seq s.
Proof. unfold keep_child. by destruct r as [w' [p|e]]. Qed.

Lemma sup_ok_children base w s s' :
  sp_children s' = sp_children s → sup_ok base w s → sup_ok base w s'.
Proof. intros E [Hh Ha Hi]. split; rewrite E; done. Qed.

Context (exe_dir : string) (env : string → option string).

Lemma spawn_shard_node_ok base s id shard role joining w :
  sup_ok base w s → sp_children s !! id = None →
  let '(w', s', _) := spawn_shard_node exe_dir env s id shard role joining w in
  sup_ok base w' s' ∧ sp_follower_seq s' = sp_follower_seq s ∧
  ∀ i, is_Some (sp_children s' !! i) → i = id ∨ is_Some (sp_children s !! i).
Proof.
  intros Hok Hn. unfold spawn_shard_node. cbn [take_port].
  set (s1 := {| sp_children := _ |}). assert (sup_ok base w s1) as Hok1 by (by apply (sup_ok_children _ _ s)).
  match goal with |- context [keep_child s1 id (ps_spawn ?b ?e w)] =>
    pose proof (keep_child_ok base s1 id b e w Hok1 Hn) as H;
    pose proof (keep_child_seq s1 id (ps_spawn b e w)) as Hq;
    pose proof (keep_child_ids s1 id (ps_spawn b e w)) as Hi;
    destruct (keep_child s1 id (ps_spawn b e w)) as [[w' s'] r] end.
  by split_and!.
Qed.

Lemma spawn_nodes_ok base nodes spawned s w :
  sup_ok base w s → NoDup (nodes.*1.*1) → (∀ id, id ∈ nodes.*1.*1 → sp_children s !! id = None) →
  let '(w', s', _) := spawn_nodes exe_dir env nodes spawned s w in
  sup_ok base w' s' ∧ sp_follower_seq s' = sp_follower_seq s ∧
  ∀ i, is_Some (sp_children s' !! i) → i ∈ nodes.*1.*1 ∨ is_Some (sp_children s !! i).
Proof.
  revert spawned s w. induction nodes as [|[[id shard] role] nodes IH]; intros spawned s w Hok Hnd Hfree.
  { cbn. split_and!; [done|done|by right]. }
  cbn [fmap list_fmap fst] in *. apply NoDup_cons in Hnd as [Hid Hnd]. cbn [spawn_nodes].
  pose proof (spawn_shard_node_ok base s id shard role false w Hok (Hfree id ltac:(by left))) as H.
  destruct (spawn_shard_node _ _ _ _ _ _ _ _) as [[w1 s1] [[]|e]]; destruct H as (Hok1 & Hq1 & Hi1).
  - specialize (IH (spawned ++ [id]) s1 w1 Hok1 Hnd).
    destruct (spawn_nodes _ _ _ _ _ _) as [[w2 s2] r]. destruct IH as (Hok2 & Hq2 & Hi2).
    { intros i Hin. destruct (sp_children s1 !! i) eqn:E; [|done].
      destruct (Hi1 i ltac:(by eexists)) as [->|[? Hx]]; [done|].
      rewrite Hfree in Hx by (by right). done. }
    split_and!; [done|congruence|]. intros i Hin. destruct (Hi2 i Hin) as [?|Hin1]; [by left; right|].
    destruct (Hi1 i Hin1) as [->|?]; [left; left|by right].
  - split_and!; [done|done|]. intros i Hin. destruct (Hi1 i Hin) as [->|?]; [left; left|by right].
Qed.
End lemmas.

Lemma members_given raft shard id :
  0 ≤ shard → id ∈ (shard_members raft shard).*1.*1 → given 1 id.
Proof.
  intros Hs. unfold shard_members. destruct raft; cbn; rewrite ?elem_of_cons, elem_of_nil.
  - intros [->|[->|[->|[]]]];
      [apply (given_member 1 shard 0)|apply (given_member 1 shard 1)|apply (given_member 1 shard 2)]; lia.
  - intros [->|[->|[]]]; [by apply given_leader|by apply (given_follower 1 shard 0)].
Qed.

Lemma members_shard raft shard id :
  id ∈ (shard_members raft shard).*1.*1 → ∃ suffix, id = node_name shard suffix.
Proof.
  unfold shard_members. destruct raft; cbn; rewrite ?elem_of_cons, elem_of_nil;
    intros H; repeat (destruct H as [->|H]; [by eexists|]); destruct H.
Qed.

Lemma members_nodup raft shard : 0 ≤ shard → NoDup (shard_members raft shard).*1.*1.
Proof.
  intros Hs. unfold shard_members. destruct raft; cbn;
    repeat (apply NoDup_cons; split; [rewrite ?elem_of_cons, elem_of_nil; intros H|]);
    try apply NoDup_nil_2.
  all: repeat (destruct H as [H|H]; [apply node_name_inj in H as [_ H]; done|]); destruct H.
Qed.

Lemma topology_nodup raft shards :
  Forall (λ z, 0 ≤ z) shards → NoDup shards → NoDup (shards ≫= shard_members raft).*1.*1.
Proof.
  induction shards as [|z shards IH]; intros Hz Hnd; [apply NoDup_nil_2|].
  apply Forall_cons in Hz as [Hz0 Hz]. apply NoDup_cons in Hnd as [Hn Hnd]. cbn [mbind list_bind].
  rewrite !fmap_app. apply NoDup_app. split_and!; [by apply members_nodup| |by apply IH].
  intros id Hid Hid'. apply members_shard in Hid as [x ->].
  rewrite <- list_fmap_compose in Hid'. apply list_elem_of_fmap in Hid' as (n & E & Hn').
  apply list_elem_of_bind in Hn' as (z' & Hn' & Hz'). rewrite Forall_forall in Hz.
  assert (node_name z x ∈ (shard_members raft z').*1.*1) as Hm.
  { rewrite E, <- list_fmap_compose. by apply list_elem_of_fmap_2. }
  apply members_shard in Hm as [y Hm]. apply node_name_inj in Hm as [-> _]; [done|done|by apply Hz].
Qed.

Lemma topology_given raft shards id :
  Forall (λ z, 0 ≤ z) shards → id ∈ (shards ≫= shard_members raft).*1.*1 → given 1 id.
Proof.
  intros Hz Hid. rewrite <- list_fmap_compose in Hid. apply list_elem_of_fmap in Hid as (n & -> & Hn).
  apply list_elem_of_bind in Hn as (z & Hn & Hin). rewrite Forall_forall in Hz.
  apply (members_given raft z); [by apply Hz|]. rewrite <- list_fmap_compose. by apply list_elem_of_fmap_2.
Qed.

Lemma seqZ_nonneg n : Forall (λ z, 0 ≤ z) (seqZ 0 n).
Proof. apply Forall_forall. intros z Hz%elem_of_seqZ. lia. Qed.

Section session_lemmas.
Context {W : Type} {PS : Processes W}.
Implicit Types (w : W) (s : Supervisor) (base : gset Z).

Lemma kill_ok base s id w :
  sup_ok base w s → let '(w', s', _) := kill s id w in
  sup_ok base w' s' ∧ sp_follower_seq s' = sp_follower_seq s ∧
  ∀ i, is_Some (sp_children s' !! i) → is_Some (sp_children s !! i).
Proof.
  intros Hok. unfold kill. destruct (sp_children s !! id) as [p|] eqn:E; [|done].
  destruct Hok as [Hh Ha Hi]. split; [|split; [done|]].
  2: { intros i. cbn. rewrite lookup_delete_is_Some. naive_solver. }
  split; cbn.
  - intros q. rewrite ps_kill_held, elem_of_difference, elem_of_singleton, Hh. split.
    + intros [[?|[i Hq]] Hne]; [by left|]. right. exists i. apply lookup_delete_Some. split; [|done].
      intros <-. congruence.
    + intros [Hb|[i [Hne Hq]%lookup_delete_Some]].
      * split; [by left|]. intros ->. by apply (Ha id p).
      * split; [right; by exists i|]. intros ->. by apply Hne, (Hi _ _ p).
  - intros i q [_ ?]%lookup_delete_Some. by eapply Ha.
  - intros i j q [_ ?]%lookup_delete_Some [_ ?]%lookup_delete_Some. by eapply Hi.
Qed.

Lemma foldl_kill pids w :
  ps_held (foldl (λ w pid, ps_kill pid w) w pids) = ps_held w ∖ list_to_set pids.
Proof.
  revert w. induction pids as [|p pids IH]; intros w; cbn [foldl]; [set_solver|].
  rewrite IH, ps_kill_held. set_solver.
Qed.

Lemma kill_all_held `{!HashOrder} base s w : sup_ok base w s → ps_held (kill_all s w).1 = base.
Proof.
  intros [Hh Ha _]. unfold kill_all. cbn [fst]. rewrite foldl_kill. apply set_eq. intros p.
  rewrite elem_of_difference, elem_of_list_to_set, Hh, elem_of_hm_values. naive_solver.
Qed.

Context (exe_dir : string) (env : string → option string).

Lemma launch_ok s w :
  sp_children s = ∅ → sp_follower_seq s = 1 →
  let '(w', s', _) := launch exe_dir env s w in
  sup_ok (ps_held w) w' s' ∧ sp_follower_seq s' = 1 ∧
  ∀ i, is_Some (sp_children s' !! i) → given 1 i.
Proof.
  intros Hc Hq. assert (sup_ok (ps_held w) w s) as Hok.
  { split; rewrite Hc; [|done|done]. intros p. split; [by left|]. by intros [?|[? ?]]. }
  unfold launch, spawn_coordinator.
  match goal with |- context [keep_child s ?id (ps_spawn ?b ?e w)] =>
    pose proof (keep_child_ok (ps_held w) s id b e w Hok ltac:(by rewrite Hc)) as H1;
    pose proof (keep_child_seq s id (ps_spawn b e w)) as Hq1;
    pose proof (keep_child_ids s id (ps_spawn b e w)) as Hi1;
    destruct (keep_child s id (ps_spawn b e w)) as [[w1 s1] r] end.
  cbn [fst snd] in *.
  assert (∀ i, is_Some (sp_children s1 !! i) → i = "coordinator"%string) as Hc1.
  { intros i [->|Hi]%Hi1; [done|]. rewrite Hc, lookup_empty in Hi. by destruct Hi. }
  destruct r as [[]|e].
  - unfold spawn_initial_topology.
    pose proof (spawn_nodes_ok exe_dir env (ps_held w)
      (seqZ 0 (sp_shard_count s1) ≫= shard_members (sp_raft s1)) [] s1 w1 H1) as H.
    destruct (spawn_nodes _ _ _ _ _ _) as [[w2 s2] r2]. destruct H as (Hok2 & Hq2 & Hi2).
    + apply topology_nodup; [apply seqZ_nonneg|apply NoDup_seqZ].
    + intros id Hid. destruct (sp_children s1 !! id) eqn:E; [|done].
      rewrite (Hc1 id ltac:(by eexists)) in Hid. rewrite <- list_fmap_compose in Hid.
      apply list_elem_of_fmap in Hid as (n & En & Hn). apply list_elem_of_bind in Hn as (sh & Hn & _).
      assert ("coordinator"%string ∈ (shard_members (sp_raft s1) sh).*1.*1) as Hm.
      { rewrite En, <- list_fmap_compose. by apply list_elem_of_fmap_2. }
      apply members_shard in Hm as [x Hm]. discriminate.
    + split_and!; [done|congruence|]. intros i [Hi|Hi]%Hi2.
      * by eapply topology_given, Hi; apply seqZ_nonneg.
      * rewrite (Hc1 i Hi). constructor.
  - split_and!; [done|congruence|]. intros i Hi. rewrite (Hc1 i Hi). constructor.
Qed.

Lemma sup_exec_ok base st op :
  sup_ok base st.1 st.2 → 0 < sp_follower_seq st.2 → sp_follower_seq st.2 + adds [op] < 2 ^ 32 →
  (∀ i, is_Some (sp_children st.2 !! i) → given (sp_follower_seq st.2) i) → op_ok op →
  let st' := sup_exec exe_dir env st op in
  sup_ok base st'.1 st'.2 ∧ sp_follower_seq st'.2 = sp_follower_seq st.2 + adds [op] ∧
  ∀ i, is_Some (sp_children st'.2 !! i) → given (sp_follower_seq st'.2) i.
Proof.
  destruct st as [w s]. cbn [fst snd]. intros Hok Hpos Hlt Hg Hop. destruct op as [shard|id]; cbn [sup_exec fst snd].
  - change (adds [AddFollower shard]) with 1 in *. unfold add_follower. cbn [take_seq].
    set (s1 := {| sp_children := _ |}). assert (sup_ok base w s1) as Hok1 by (by apply (sup_ok_children _ _ s)).
    set (id := _ +:+ _). assert (id = node_name shard ("f" +:+ show_Z (sp_follower_seq s))) as Eid by done.
    assert (sp_children s1 !! id = None) as Hfree.
    { destruct (sp_children s1 !! id) eqn:E; [|done]. exfalso.
      apply (given_fresh (sp_follower_seq s) shard); [apply Hop|lia|]. rewrite <- Eid. apply Hg. by eexists. }
    pose proof (spawn_shard_node_ok exe_dir env base s1 id shard "follower" (sp_raft s1) w Hok1 Hfree) as H.
    destruct (spawn_shard_node _ _ _ _ _ _ _ _) as [[w' s'] r]. destruct H as (Hok' & Hq & Hi).
    assert (sp_follower_seq s' = sp_follower_seq s + 1) as Eq.
    { rewrite Hq. cbn. unfold wrap_u32. apply Z.mod_small. lia. }
    cbn [fst snd]. split_and!; [done|lia|].
    intros i [->|Hx]%Hi; rewrite Eq.
    + rewrite Eid. apply given_follower; [apply Hop|lia].
    + eapply given_mono, Hg, Hx. lia.
  - change (adds [Kill id]) with 0 in *. pose proof (kill_ok base s id w Hok) as H. destruct (kill s id w) as [[w' s'] b].
    destruct H as (Hok' & Hq & Hi). cbn [fst snd]. split_and!; [done|lia|].
    intros i Hx. rewrite Hq. by apply Hg, Hi.
Qed.

Lemma adds_cons op ops : adds (op :: ops) = adds [op] + adds ops.
Proof. unfold adds, z_sum. cbn [fmap list_fmap foldr]. lia. Qed.

Lemma adds_nonneg ops : 0 ≤ adds ops.
Proof.
  unfold adds, z_sum. induction ops as [|[] ops IH]; cbn [fmap list_fmap foldr]; lia.
Qed.

Lemma ops_ok base ops st :
  sup_ok base st.1 st.2 → 0 < sp_follower_seq st.2 → sp_follower_seq st.2 + adds ops < 2 ^ 32 →
  (∀ i, is_Some (sp_children st.2 !! i) → given (sp_follower_seq st.2) i) → Forall op_ok ops →
  let st' := foldl (sup_exec exe_dir env) st ops in
  sup_ok base st'.1 st'.2 ∧ sp_follower_seq st'.2 = sp_follower_seq st.2 + adds ops ∧
  ∀ i, is_Some (sp_children st'.2 !! i) → given (sp_follower_seq st'.2) i.
Proof.
  revert st. induction ops as [|op ops IH]; intros st Hok Hpos Hlt Hg Hops.
  { cbn [foldl]. change (adds []) with 0. split_and!; [done|lia|done]. }
  cbn [foldl]. apply Forall_cons in Hops as [Hop Hops]. rewrite adds_cons in *.
  pose proof (adds_nonneg ops). pose proof (adds_nonneg [op]).
  destruct (sup_exec_ok base st op) as (Hok' & Hq' & Hg'); [done|done|lia|done|done|].
  destruct (IH (sup_exec exe_dir env st op)) as (? & Hq & ?); [done|lia|lia|done|done|].
  split_and!; [done|lia|done].
Qed.

Lemma session_ok s w ops :
  sp_children s = ∅ → sp_follower_seq s = 1 → Forall op_ok ops → 1 + adds ops < 2 ^ 32 →
  let st := session exe_dir env s w ops in sup_ok (ps_held w) st.1 st.2.
Proof.
  intros Hc Hq Hops Hlt. unfold session. pose proof (launch_ok s w Hc Hq) as H.
  destruct (launch exe_dir env s w) as [[w1 s1] r]. destruct H as (Hok & Hq1 & Hg).
  apply (ops_ok (ps_held w) ops (w1, s1)); cbn [fst snd]; rewrite ?Hq1; done || lia.
Qed.
End session_lemmas.

(** ** An operating system *)

(** The processes with what they were started with, all that was ever started, oldest
    first, and whether the nth attempt to start one succeeds. *)
Record Os := {
  os_procs : gmap Z (string * Env);
  os_log : list (string * Env);
  os_tries : Z;
  os_ok : Z → bool;
}.

Definition new_pid (w : Os) : Z := 1 + foldr Z.max 0 (map_to_list (os_procs w)).*1.

Definition os_spawn (bin : string) (e : Env) (w : Os) : Os * result Z string :=
  if os_ok w (os_tries w) then
    ({| os_procs := <[new_pid w := (bin, e)]> (os_procs w); os_log := os_log w ++ [(bin, e)];
        os_tries := os_tries w + 1; os_ok := os_ok w |}, Ok (new_pid w))
  else
    ({| os_procs := os_procs w; os_log := os_log w; os_tries := os_tries w + 1; os_ok := os_ok w |},
     Err "spawn failed"%string).

Definition os_kill (p : Z) (w : Os) : Os :=
  {| os_procs := delete p (os_procs w); os_log := os_log w; os_tries := os_tries w; os_ok := os_ok w |}.

Lemma new_pid_fresh w : os_procs w !! new_pid w = None.
Proof.
  destruct (os_procs w !! new_pid w) as [x|] eqn:E; [|done]. exfalso.
  apply elem_of_map_to_list, (list_elem_of_fmap_2 fst) in E. cbn in E. unfold new_pid in E.
  revert E. generalize (map_to_list (os_procs w)).*1. intros l.
  assert (∀ p, p ∈ l → p ≤ foldr Z.max 0 l) as H.
  { induction l as [|q l IH]; intros p Hp; [by apply elem_of_nil in Hp|].
    apply elem_of_cons in Hp as [->|Hp]; cbn; [lia|]. specialize (IH p Hp). lia. }
  intros Hin%H. lia.
Qed.

#[export] Program Instance live_os : Processes Os :=
  {| ps_spawn := os_spawn; ps_kill := os_kill; ps_held w := dom (os_procs w) |}.
Next Obligation.
  intros bin e w w' p. unfold os_spawn. destruct (os_ok w (os_tries w)); [|done]. intros [= <- <-]. cbn.
  split; [apply not_elem_of_dom, new_pid_fresh|]. by rewrite dom_insert_L.
Qed.
Next Obligation.
  intros bin e w w' er. unfold os_spawn. by destruct (os_ok w (os_tries w)); intros [= <- <-].
Qed.
Next Obligation. intros p w. cbn. by rewrite dom_delete_L. Qed.

Definition env_get (e : Env) (k : string) : option string :=
  snd <$> head (filter (λ kv, kv.1 = k) e).

(** The addresses of all nodes ever started. *)
Definition node_addresses (w : Os) : list string :=
  omap (λ be, env_get be.2 "AETHER_SHARD_ADDR") (os_log w).

Section ports.
Context (exe_dir : string) (env : string → option string).

Definition at_port (p : Z) : string := "127.0.0.1:" +:+ show_Z p.

(** The next port is free, and [n] more can be taken. *)
Record ports_ok (n : Z) (w : Os) (s : Supervisor) : Prop := {
  pk_room : 50051 ≤ sp_next_port s ∧ sp_next_port s + n < 65536;
  pk_used : ∀ a, a ∈ node_addresses w → ∃ p, 50051 ≤ p < sp_next_port s ∧ a = at_port p;
  pk_nodup : NoDup (node_addresses w);
}.

Lemma at_port_inj p q : 0 ≤ p → 0 ≤ q → at_port p = at_port q → p = q.
Proof. intros Hp Hq E. injection E as E. by apply show_Z_inj. Qed.

Lemma node_env_address s port id shard role joining :
  env_get (node_env env s port id shard role joining) "AETHER_SHARD_ADDR" = Some (at_port port).
Proof. done. Qed.

Lemma spawn_addresses bin e w :
  node_addresses (os_spawn bin e w).1 = node_addresses w ++
    (if os_ok w (os_tries w) then option_list (env_get e "AETHER_SHARD_ADDR") else []).
Proof.
  unfold os_spawn, node_addresses. destruct (os_ok w (os_tries w)); cbn [fst os_log]; [|by rewrite app_nil_r].
  rewrite omap_app. cbn [omap list_omap snd]. by destruct (env_get e _).
Qed.

Lemma keep_child_parts s id (r : Os * result Z string) :
  (keep_child s id r).1.1 = r.1 ∧ sp_next_port (keep_child s id r).1.2 = sp_next_port s.
Proof. unfold keep_child. by destruct r as [w [p|e]]. Qed.

Lemma spawn_node_ports n s id shard role joining w :
  0 ≤ n → ports_ok (n + 1) w s →
  let r := spawn_shard_node exe_dir env s id shard role joining w in ports_ok n r.1.1 r.1.2.
Proof.
  intros Hn [[Hr1 Hr2] Hu Hnd]. unfold spawn_shard_node. cbn [take_port ps_spawn live_os].
  assert (wrap_u16 (sp_next_port s + 1) = sp_next_port s + 1) as Hw.
  { unfold wrap_u16. apply Z.mod_small. change (2 ^ 16) with 65536. lia. }
  match goal with |- context [keep_child ?s1 id ?r] => destruct (keep_child_parts s1 id r) as [E1 E2] end.
  cbn zeta. rewrite E1. split; rewrite ?E2, ?spawn_addresses; cbn [sp_next_port]; rewrite ?Hw; [lia| |];
    rewrite node_env_address; cbn [option_list]; set (extra := if os_ok w _ then _ else _);
    assert (∀ a, a ∈ extra → a = at_port (sp_next_port s)) as Hx by
      (intros a; unfold extra; destruct (os_ok w _); [by intros ?%list_elem_of_singleton|by intros ?%elem_of_nil]).
  - intros a [(p & Hp & ->)%Hu|Ha%Hx]%elem_of_app; [exists p; split; [lia|done]|].
    exists (sp_next_port s). split; [lia|done].
  - apply NoDup_app. split_and!; [done| |].
    + intros a (p & Hp & ->)%Hu Ha%Hx. apply at_port_inj in Ha; lia.
    + unfold extra. destruct (os_ok w _); [apply NoDup_singleton|apply NoDup_nil_2].
Qed.

Lemma spawn_nodes_ports n nodes spawned s w :
  0 ≤ n → ports_ok (n + Z.of_nat (length nodes)) w s →
  let r := spawn_nodes exe_dir env nodes spawned s w in ports_ok n r.1.1 r.1.2.
Proof.
  intros Hn. cbn zeta. revert spawned s w. induction nodes as [|[[id shard] role] nodes IH]; intros spawned s w Hok.
  { cbn in *. by rewrite Z.add_0_r in Hok. }
  cbn [length spawn_nodes] in *.
  pose proof (spawn_node_ports (n + Z.of_nat (length nodes)) s id shard role false w ltac:(lia)) as H.
  destruct (spawn_shard_node _ _ _ _ _ _ _ _) as [[w1 s1] [[]|e]].
  - cbn [fst snd] in H. apply IH. apply H. by replace (n + Z.of_nat (length nodes) + 1) with (n + Z.of_nat (S (length nodes))) by lia.
  - destruct H as [Hr Hu Hnd];
      [by replace (n + Z.of_nat (length nodes) + 1) with (n + Z.of_nat (S (length nodes))) by lia|].
    cbn [fst snd] in *. split; [lia|done|done].
Qed.

Lemma topology_length raft n :
  0 ≤ n → Z.of_nat (length (seqZ 0 n ≫= shard_members raft)) = (if raft then 3 else 2) * n.
Proof.
  intros Hn. assert (∀ l, Z.of_nat (length (l ≫= shard_members raft)) = (if raft then 3 else 2) * Z.of_nat (length l)) as H.
  { induction l as [|z l IH]; [by destruct raft|].
    change ((z :: l) ≫= shard_members raft) with (shard_members raft z ++ (l ≫= shard_members raft)).
    rewrite length_app, Nat2Z.inj_add, IH.
    assert (length (shard_members raft z) = if raft then 3 else 2)%nat as -> by by destruct raft.
    cbn [length]. destruct raft; lia. }
  by rewrite H, length_seqZ, Z2Nat.id by done.
Qed.

Lemma sup_exec_ports n st op :
  0 ≤ n → ports_ok (n + adds [op]) st.1 st.2 → ports_ok n (sup_exec exe_dir env st op).1 (sup_exec exe_dir env st op).2.
Proof.
  destruct st as [w s]. intros Hn Hok. destruct op as [shard|id]; cbn [sup_exec fst snd] in *.
  - change (adds [AddFollower shard]) with 1 in *. unfold add_follower. cbn [take_seq].
    match goal with |- context [spawn_shard_node _ _ ?s1 ?id _ ?r ?j w] =>
      pose proof (spawn_node_ports n s1 id shard r j w Hn) as H;
      destruct (spawn_shard_node exe_dir env s1 id shard r j w) as [[w1 s2] x] end.
    apply H. destruct Hok as [Hr Hu Hnd]. by split.
  - change (adds [Kill id]) with 0 in *. rewrite Z.add_0_r in Hok. unfold kill.
    destruct (sp_children s !! id); [|done]. destruct Hok as [Hr Hu Hnd]. by split.
Qed.

Lemma ops_ports n st ops :
  0 ≤ n → ports_ok (n + adds ops) st.1 st.2 →
  let st' := foldl (sup_exec exe_dir env) st ops in ports_ok n st'.1 st'.2.
Proof.
  revert st. induction ops as [|op ops IH]; intros st Hn Hok; cbn [foldl].
  { by rewrite Z.add_0_r in Hok. }
  apply IH; [done|]. pose proof (adds_nonneg ops). apply sup_exec_ports; [lia|].
  rewrite adds_cons in Hok. by replace (n + adds ops + adds [op]) with (n + (adds [op] + adds ops)) by lia.
Qed.
End ports.

(** ** Properties *)

Section properties.
Context (exe_dir : string) (env : string → option string).

(** No process is orphaned. Whatever shards are grown and whichever nodes are killed,
    and whichever attempts to start a process fail, starting the cluster included: every
    process started and not waited for is the child of exactly one id the supervisor
    manages, no process that was there before is ever touched, and killing everything
    leaves exactly what was there before. (The sequence that names followers is good for
    2^32 - 2 of them.) *)
Theorem no_orphans {W} {PS : Processes W} {HO : HashOrder} (shard_count : Z) (addr : string)
    (raft : bool) (w : W) (ops : list sup_op)
    (Hops : Forall op_ok ops) (Hlt : 1 + adds ops < 2 ^ 32) :
  let '(w', s') := session exe_dir env (sup_new shard_count addr raft) w ops in
  (∀ p, p ∈ ps_held w' ↔ p ∈ ps_held w ∨ ∃ id, id ∈ managed s' ∧ sp_children s' !! id = Some p) ∧
  (∀ i j p, sp_children s' !! i = Some p → sp_children s' !! j = Some p → i = j ∧ p ∉ ps_held w) ∧
  ps_held (kill_all s' w').1 = ps_held w ∧ managed (kill_all s' w').2 = [].
Proof.
  pose proof (session_ok exe_dir env (sup_new shard_count addr raft) w ops eq_refl eq_refl Hops Hlt) as H.
  destruct (session _ _ _ _ _) as [w' s']. cbn [fst snd] in H. pose proof H as [Hh Ha Hi]. split_and!.
  - intros p. rewrite Hh. split; (intros [?|[id Hp]]; [by left|right; exists id]).
    + split; [|done]. apply elem_of_hm_keys. by eexists.
    + apply Hp.
  - intros i j p H1 H2. split; [by eapply Hi|by eapply Ha].
  - by apply kill_all_held.
  - unfold managed, kill_all, hm_keys. cbn. apply Permutation_nil.
    by rewrite hm_order_perm, map_to_list_empty.
Qed.

(** Nodes do not collide on ports: as long as fewer than 15485 are started, their
    addresses are distinct, at ports from 50051 on. *)
Theorem ports_distinct (shard_count : Z) (addr : string) (raft : bool) (w : Os) (ops : list sup_op)
    (Hc : 0 ≤ shard_count) (Hw : os_log w = [])
    (Hlt : (if raft then 3 else 2) * shard_count + adds ops < 15485) :
  let w' := (session exe_dir env (sup_new shard_count addr raft) w ops).1 in
  NoDup (node_addresses w') ∧
  ∀ a, a ∈ node_addresses w' → ∃ p, 50051 ≤ p < 65536 ∧ a = at_port p.
Proof.
  set (n := (if raft then 3 else 2) * shard_count + adds ops) in *.
  assert (ports_ok 0 (session exe_dir env (sup_new shard_count addr raft) w ops).1
    (session exe_dir env (sup_new shard_count addr raft) w ops).2) as [Hr Hu Hnd].
  2: { split; [done|]. intros a (p & Hp & ->)%Hu. exists p. split; [lia|done]. }
  unfold session. apply ops_ports; [lia|]. pose proof (adds_nonneg ops).
  unfold launch, spawn_coordinator.
  match goal with |- context [keep_child ?s ?id (ps_spawn ?b ?e w)] =>
    pose proof (keep_child_parts s id (ps_spawn b e w)) as [E1 E2];
    assert (node_addresses (ps_spawn b e w).1 = []) as E3 by
      (etransitivity; [apply spawn_addresses|unfold node_addresses; rewrite Hw; by destruct (os_ok w _)]);
    assert ((keep_child s id (ps_spawn b e w)).1.2 = s ∨ sp_raft (keep_child s id (ps_spawn b e w)).1.2 = raft ∧
      sp_shard_count (keep_child s id (ps_spawn b e w)).1.2 = shard_count) as E4 by
      (unfold keep_child; destruct (ps_spawn b e w) as [? [?|?]]; [by right|by left]);
    destruct (keep_child s id (ps_spawn b e w)) as [[w1 s1] r] end.
  cbn [fst snd] in *. rewrite <- E1 in E3.
  assert (sp_raft s1 = raft ∧ sp_shard_count s1 = shard_count) as [Er Es] by (destruct E4 as [->|?]; [done|done]).
  assert (∀ k, 0 ≤ k → 50051 + k < 65536 → ports_ok k w1 s1) as Hok.
  { intros k Hk Hk2. split; rewrite ?E2, ?E3; cbn; [lia| |apply NoDup_nil_2]. by intros a ?%elem_of_nil. }
  destruct r as [[]|e].
  - unfold spawn_initial_topology.
    pose proof (spawn_nodes_ports exe_dir env (0 + adds ops)
      (seqZ 0 (sp_shard_count s1) ≫= shard_members (sp_raft s1)) [] s1 w1 ltac:(lia)) as Hn.
    destruct (spawn_nodes _ _ _ _ _ _) as [[w2 s2] r2]. apply Hn, Hok; rewrite topology_length, Er, Es by lia;
      destruct raft; lia.
  - apply Hok; destruct raft; lia.
Qed.
End properties.

(** ** Witnesses *)

#[local] Existing Instance canonical_order.

(** Every third attempt to start a process fails. *)
Definition flaky : Os :=
  {| os_procs := ∅; os_log := []; os_tries := 1; os_ok := λ n, negb (n mod 3 =? 0) |}.

Lemma no_orphans_witness :
  ps_held (kill_all (session "bin" (λ _, None) (sup_new 1 "c:1" false) flaky
                       [AddFollower 0; Kill "shard0-leader"; AddFollower 0]).2
             (session "bin" (λ _, None) (sup_new 1 "c:1" false) flaky
                       [AddFollower 0; Kill "shard0-leader"; AddFollower 0]).1).1 = ∅.
Proof.
  assert (Forall op_ok [AddFollower 0; Kill "shard0-leader"; AddFollower 0]) as Hops
    by (rewrite !Forall_cons; split_and!; [by split|exact I|by split|constructor]).
  pose proof (no_orphans "bin" (λ _, None) 1 "c:1" false flaky
    [AddFollower 0; Kill "shard0-leader"; AddFollower 0] Hops eq_refl) as H.
  destruct (session _ _ _ _ _) as [w' s']. destruct H as (_ & _ & H & _). exact H.
Defined.

Lemma ports_distinct_witness :
  NoDup (node_addresses (session "bin" (λ _, None) (sup_new 1 "c:1" true) flaky [AddFollower 0]).1).
Proof.
  apply (ports_distinct "bin" (λ _, None) 1 "c:1" true flaky [AddFollower 0]);
    [lia|reflexivity|reflexivity].
Defined.
