(* ===== verification/Dashboard.v ===== *)
(** * The dashboard: [crates/dashboard/src/main.rs]

    The poller that watches a cluster, the event log, and the buttons. Coordinators are
    reached through the interface of the agent tools, processes through the supervisor's;
    what the clock reads is an input; [None] is a panic. Starting, serving and stopping are
    in [DashboardMain]. *)

From S2P Require Export Briefing Supervisor.

Section dashboard.
Context {W P : Type} {AN : AgentNet W} {PS : Processes P} {JS : Json} {HO : HashOrder}
  {UC : Unicode} {FL : FloatLib}.
(** [show_status] is [Status::to_string], [json_f64] is [json!] on a float. *)
Context (show_status : Status → string) (json_f64 : f64 → Value).

Definition json_int (z : Z) : Value := Number (number_of_Z z).

(** ** The application *)

Record App := {
  da_supervisor : Supervisor;
  da_events : list Value;
  da_query_ok : Z;
  da_query_err : Z;
}.

Definition event (at_ms : Z) (msg : string) : Value :=
  Object [("at_ms", json_int at_ms); ("msg", JString msg)]%string.

Definition EVENTS : nat := 50.

Definition keep_last {A} (n : nat) (l : list A) : list A := drop (length l - n) l.

Definition push_event (a : App) (at_ms : Z) (msg : string) : App :=
  {| da_supervisor := da_supervisor a;
     da_events := keep_last EVENTS (da_events a ++ [event at_ms msg]);
     da_query_ok := da_query_ok a; da_query_err := da_query_err a |}.

Definition with_supervisor (a : App) (s : Supervisor) : App :=
  {| da_supervisor := s; da_events := da_events a; da_query_ok := da_query_ok a;
     da_query_err := da_query_err a |}.

Definition count_query (a : App) (ok : bool) : App :=
  {| da_supervisor := da_supervisor a; da_events := da_events a;
     da_query_ok := if ok then wrap_u64 (da_query_ok a + 1) else da_query_ok a;
     da_query_err := if ok then da_query_err a else wrap_u64 (da_query_err a + 1) |}.

(** ** Queries *)

Definition run_agg (kind : AggKind) (field : string) (interval : f64) (percentiles : list f64) (w : W)
    : W * option (gmap string Z * list Percentile) :=
  let '(w, r) := an_aggregate
    {| ar_query := EmptyString; ar_kind := agg_kind_to_i32 kind; ar_field := field;
       ar_interval := interval; ar_percentiles := percentiles; ar_filter := None |} w in
  (w, match r with
      | Err _ => None
      | Ok resp => p ← ag_partial resp; Some (ap_buckets p, ag_percentiles resp)
      end).

Definition row (key_name : string) (kv : string * Z) : Value :=
  Object [(key_name, JString kv.1); ("count"%string, json_int kv.2)].

Definition bucket_rows (buckets : gmap string Z) (key_name : string) (n : nat) : Value :=
  Array (row key_name <$> take n (sort_by bucket_cmp (hm_order buckets))).

(** Cells whose key is not a pair of numbers are left out; the order is the map's. *)
Definition geo_cell (kv : string * Z) : option Value :=
  '(lat, lon) ← split_once "," kv.1;
  lat ← f64_parse lat; lon ← f64_parse lon;
  Some (Object [("lat", json_f64 lat); ("lon", json_f64 lon); ("count", json_int kv.2)]%string).

(** Sorting by [partial_cmp] and unwrapping: a key that is no number panics as soon as
    there is another to compare it with. *)
Definition histogram_rows (buckets : gmap string Z) : option Value :=
  let rows := omap (λ kv : string * Z, k ← f64_parse kv.1; Some (k, kv.2)) (hm_order buckets) in
  if bool_decide (1 < length rows)%nat && existsb (λ r : f64 * Z, is_nan r.1) rows then None
  else Some (Array ((λ r : f64 * Z, Object [("bucket", json_f64 r.1); ("count", json_int r.2)]%string)
                      <$> sort_by (λ a b : f64 * Z, default Eq (f64_cmp a.1 b.1)) rows)).

Definition percentile_rows (pcts : list Percentile) : Value :=
  Array ((λ p, Object [("p", json_f64 (pc_p p)); ("value", json_f64 (pc_value p))]%string) <$> pcts).

(** ** The poller *)

Record Poller := {
  po_prev_roles : gmap string Z;
  po_series : list Value;
  po_prev_err : Z;
}.

Definition poller_start : Poller := {| po_prev_roles := ∅; po_series := []; po_prev_err := 0 |}.

(** What the clock reads during a tick: when a node's event is pushed, how long the query
    took (read twice), and the seconds since the start. *)
Record TickClock := {
  tk_event_ms : string → Z;
  tk_query_ms : Z;
  tk_query_ms' : Z;
  tk_secs : Z;
}.

Definition promoted (prev : gmap string Z) (node : NodeState) : bool :=
  match prev !! ns_node_id node with
  | Some role => (role =? role_to_i32 Follower) && (ns_role node =? role_to_i32 Leader)
  | None => false
  end.

Definition promotion (node : NodeState) : string :=
  "PROMOTED " +:+ ns_node_id node +:+ " to leader of shard " +:+ show_Z (ns_shard_id node).

Definition node_json (managed : list string) (node : NodeState) : Value :=
  Object [("node_id", JString (ns_node_id node)); ("address", JString (ns_address node));
          ("role", JString (show_role (role_of_i32 (ns_role node))));
          ("shard_id", json_int (ns_shard_id node));
          ("millis_since_seen", json_int (ns_millis_since_seen node));
          ("has_process", Bool (bool_decide (ns_node_id node ∈ managed)));
          ("draining", Bool (ns_draining node))]%string.

(** One node of the state: an event when it was promoted, its role, its tile. *)
Definition see_node (clock : TickClock) (st : App * gmap string Z) (node : NodeState)
    : App * gmap string Z :=
  let '(a, prev) := st in
  (if promoted prev node
   then push_event a (tk_event_ms clock (ns_node_id node)) (promotion node) else a,
   <[ns_node_id node := ns_role node]> prev).

(** The panels of one tick. *)
Record Panels := {
  pa_reachable : bool;
  pa_nodes : list Value;
  pa_shard_count : Z;
  pa_vshard_group : list Z;
  pa_last_query : Value;
  pa_ms : Z;
  pa_matched : Z;
  pa_by_origin : Value;
  pa_geo : Value;
  pa_by_aircraft : Value;
  pa_hist : Value;
  pa_pcts : Value;
}.

Definition blank : Panels :=
  {| pa_reachable := false; pa_nodes := []; pa_shard_count := 0; pa_vshard_group := [];
     pa_last_query := Null; pa_ms := 0; pa_matched := 0; pa_by_origin := Array [];
     pa_geo := Array []; pa_by_aircraft := Array []; pa_hist := Array []; pa_pcts := Array [] |}.

Definition query_json (r : SearchResponse) (now_ms : Z) (ms : Z) : Value :=
  Object [("ok", Bool true); ("total_matched", json_int (sp_total_matched r));
          ("answered", json_int (sp_shards_answered r)); ("queried", json_int (sp_shards_queried r));
          ("ms", json_int ms);
          ("provenance",
             match sp_manifest r with
             | None => Null
             | Some m =>
                 Object [("summary", JString (manifest_summary m now_ms));
                         ("omitted", Array ((λ o, Object [("address", JString (os_address o));
                                                          ("reason", JString (os_reason o))])
                                              <$> qm_omitted m));
                         ("deduped", json_int (qm_deduped m));
                         ("freshest_observed_at", json_int (qm_freshest_observed_at m));
                         ("placement_version", json_int (qm_placement_version m))]
             end)]%string.

(** The state the coordinator reports. *)
Definition see_state (clock : TickClock) (a : App) (po : Poller) (w : W)
    : App * gmap string Z * W * Panels :=
  let '(w, r) := an_cluster_state w in
  match r with
  | Err _ => (a, po_prev_roles po, w, blank)
  | Ok state =>
      let running := managed (da_supervisor a) in
      let '(a, prev) := foldl (see_node clock) (a, po_prev_roles po) (cs_nodes state) in
      (a, prev, w,
       {| pa_reachable := true; pa_nodes := node_json running <$> cs_nodes state;
          pa_shard_count := cs_shard_count state; pa_vshard_group := cs_vshard_group state;
          pa_last_query := Null; pa_ms := 0; pa_matched := 0; pa_by_origin := Array [];
          pa_geo := Array []; pa_by_aircraft := Array []; pa_hist := Array []; pa_pcts := Array [] |})
  end.

(** The aggregate panels, over the panels so far; [None] when one panicked. *)
Definition see_aggregates (pa : Panels) (w : W) : W * option Panels :=
  let rows r name := match r with Some (b, _) => bucket_rows b name 8 | None => Array [] end in
  let '(w, origin) := run_agg AggValueCounts "origin" f64_zero [] w in
  let '(w, geo) := run_agg AggGeoGrid EmptyString (f64_of_Z 10) [] w in
  let '(w, aircraft) := run_agg AggValueCounts "aircraft_type" f64_zero [] w in
  let '(w, hist) := run_agg AggNumericHistogram "altitude" (f64_of_Z 2000) [] w in
  match match hist with Some (b, _) => histogram_rows b | None => Some (Array []) end with
  | None => (w, None)
  | Some hist =>
  let '(w, pcts) := run_agg AggPercentiles "altitude" f64_zero (f64_of_Z <$> [50; 90; 99]) w in
  (w, Some
    {| pa_reachable := pa_reachable pa; pa_nodes := pa_nodes pa; pa_shard_count := pa_shard_count pa;
       pa_vshard_group := pa_vshard_group pa; pa_last_query := pa_last_query pa; pa_ms := pa_ms pa;
       pa_matched := pa_matched pa; pa_by_origin := rows origin "origin"%string;
       pa_geo := match geo with
                 | Some (b, _) => Array (omap geo_cell (hm_order b))
                 | None => Array []
                 end;
       pa_by_aircraft := rows aircraft "aircraft_type"%string; pa_hist := hist;
       pa_pcts := match pcts with Some (_, ps) => percentile_rows ps | None => Array [] end |})
  end.

(** The live query, over the panels so far. *)
Definition see_query (term : string) (clock : TickClock) (a : App) (pa : Panels) (w : W)
    : App * W * Panels :=
  let '(w, r) := an_search {| sr_query := term; sr_limit := 3; sr_filter := None |} w in
  let with_query q ms matched :=
    {| pa_reachable := pa_reachable pa; pa_nodes := pa_nodes pa; pa_shard_count := pa_shard_count pa;
       pa_vshard_group := pa_vshard_group pa; pa_last_query := q; pa_ms := ms; pa_matched := matched;
       pa_by_origin := pa_by_origin pa; pa_geo := pa_geo pa; pa_by_aircraft := pa_by_aircraft pa;
       pa_hist := pa_hist pa; pa_pcts := pa_pcts pa |} in
  match r with
  | Ok resp => (count_query a true, w,
      with_query (query_json resp (an_now w) (tk_query_ms' clock)) (tk_query_ms clock) (sp_total_matched resp))
  | Err e => (count_query a false, w,
      with_query (Object [("ok", Bool false); ("error", JString (show_status e))]%string) 0 0)
  end.

Definition SERIES : nat := 120.

Definition point (clock : TickClock) (pa : Panels) (errored : bool) : Value :=
  Object [("t", json_int (tk_secs clock)); ("ms", json_int (pa_ms pa));
          ("matched", json_int (pa_matched pa)); ("errored", Bool errored)]%string.

Definition snapshot (a : App) (pa : Panels) (series : list Value) : Value :=
  Object [("v", json_int 1); ("shard_count", json_int (pa_shard_count pa));
          ("vshard_group", Array (json_int <$> pa_vshard_group pa));
          ("coordinator", Object [("addr", JString (sp_coordinator_addr (da_supervisor a)));
                                  ("reachable", Bool (pa_reachable pa))]);
          ("nodes", Array (pa_nodes pa));
          ("query", Object [("ok", json_int (da_query_ok a)); ("err", json_int (da_query_err a));
                            ("last", pa_last_query pa)]);
          ("aggregate", Object [("by_origin", pa_by_origin pa); ("by_aircraft", pa_by_aircraft pa);
                                ("geo_cells", pa_geo pa); ("altitude_hist", pa_hist pa);
                                ("altitude_pcts", pa_pcts pa)]);
          ("series", Array series); ("events", Array (da_events a))]%string.

(** The end of a tick: the point of the series, and the snapshot that is published. *)
Definition publish (clock : TickClock) (a : App) (po : Poller) (prev : gmap string Z) (pa : Panels)
    : Poller * Value :=
  let err_now := da_query_err a in
  let series := keep_last SERIES (po_series po ++ [point clock pa (po_prev_err po <? err_now)]) in
  ({| po_prev_roles := prev; po_series := series; po_prev_err := err_now |}, snapshot a pa series).

(** One tick, and the snapshot it publishes. A panic ends the poller; the events and the
    counts of its last tick stay. *)
Definition tick (term : string) (clock : TickClock) (a : App) (po : Poller) (w : W)
    : App * W * option (Poller * Value) :=
  match an_connect w with
  | Err _ => (a, w, Some (publish clock a po (po_prev_roles po) blank))
  | Ok _ =>
      let '(a, prev, w, pa) := see_state clock a po w in
      let '(a, w, pa) := see_query term clock a pa w in
      let '(w, pa) := see_aggregates pa w in
      (a, w, pa ← pa; Some (publish clock a po prev pa))
  end.

(** ** The buttons *)

Abbreviation Response := (Z * string)%type.
Definition OK : Z := 200.
Definition NOT_FOUND : Z := 404.
Definition INTERNAL_SERVER_ERROR : Z := 500.
Definition BAD_GATEWAY : Z := 502.

Definition api_kill (at_ms : Z) (node_id : string) (a : App) (p : P) : App * P * Response :=
  let '(p, s, killed) := kill (da_supervisor a) node_id p in
  let a := with_supervisor a s in
  if killed : bool then (push_event a at_ms ("KILLED " +:+ node_id +:+ " (SIGKILL)"), p, (OK, "killed"%string))
  else (a, p, (NOT_FOUND, "no such managed node"%string)).

(** [drain] is [drain_node] through the first coordinator that answers. *)
Definition api_drain (drain : DrainRequest → W → W * result DrainResponse Status) (at_ms : Z)
    (node_id : string) (a : App) (w : W) : App * W * Response :=
  match an_connect w with
  | Err e => (a, w, (BAD_GATEWAY, e))
  | Ok _ =>
      let '(w, r) := drain {| dr_node_id := node_id |} w in
      match r with
      | Err e => (a, w, (BAD_GATEWAY, show_status e))
      | Ok resp =>
          if dp_ok resp then
            (push_event a at_ms ("DRAINING " +:+ node_id +:+ " — leader will remove it from the group"),
             w, (OK, dp_message resp))
          else (a, w, (NOT_FOUND, dp_message resp))
      end
  end.

Definition api_add_follower (exe_dir : string) (env : string → option string) (at_ms shard_id : Z)
    (a : App) (p : P) : App * P * Response :=
  let '(p, s, r) := add_follower exe_dir env (da_supervisor a) shard_id p in
  let a := with_supervisor a s in
  match r with
  | Ok node_id =>
      let msg := if sp_raft s then "spawned " +:+ node_id +:+ " — joining the raft group"
                 else "spawned " +:+ node_id in
      (push_event a at_ms msg, p, (OK, node_id))
  | Err e => (a, p, (INTERNAL_SERVER_ERROR, e))
  end.

(** ** Asking and reporting *)

Section ask.
Context {M : Type} {MO : Model M} {TR : ToolRunner W}.

(** [label] names the model that was selected. *)
Definition api_ask (label : string) (q : option string) (m : M) (w : W) : option (W * Value) :=
  let question := default EmptyString q in
  if str_is_empty (str_trim question) then
    Some (w, Object [("error", JString "empty question")]%string)
  else
    '(st, answer) ← run m w question budget_default;
    Some (ls_world st,
          Object [("answer", JString (an_text answer));
                  ("provenance", Array (JString <$> an_provenance answer));
                  ("tool_calls", json_int (Z.of_nat (an_tool_calls answer)));
                  ("budget_exhausted", Bool (an_budget_exhausted answer));
                  ("model", JString label)]%string).

Definition report_questions : list string :=
  ["how many flights are there right now?"; "which aircraft types are flying?";
   "what are the p50 and p99 altitudes?"; "is the cluster healthy? how many shards answered?"]%string.

Definition report_allowlist (to : string) : Allowlist :=
  if str_is_empty (str_trim to) then [] else allowlist_new [to].

(** The addresses recorded as delivered to, and the refusals. *)
Definition report_gate (to : string) : list string * list string :=
  if str_is_empty (str_trim to) then ([], [])
  else if allows (report_allowlist to) to then ([to], [])
  else ([], ["recipient not allowlisted: " +:+ to]).

Definition api_report (label : string) (to : option string) (m : M) (w : W) : option (W * Value) :=
  let to := default EmptyString to in
  '(_, w, b) ← Briefing.compose m w report_questions;
  let '(delivered, refused) := report_gate to in
  Some (w, Object [("subject", JString (bf_subject b)); ("body", JString (bf_body b));
                   ("provenance", Array (JString <$> bf_provenance b)); ("model", JString label);
                   ("to", JString to); ("delivered", Array (JString <$> delivered));
                   ("refused", Array (JString <$> refused)); ("dry_run", Bool true)]%string).
End ask.

(** ** Lemmas *)

Lemma keep_last_length {A} n (l : list A) : (length (keep_last n l) ≤ n)%nat.
Proof. unfold keep_last. rewrite length_drop. lia. Qed.

(** Keeping the last n of a list that already lost its older part is keeping the last n
    of all. *)
Lemma keep_last_app {A} n (l k : list A) : keep_last n (keep_last n l ++ k) = keep_last n (l ++ k).
Proof.
  unfold keep_last. rewrite !length_app, length_drop.
  rewrite !drop_app, drop_drop, length_drop. f_equal; f_equal; lia.
Qed.

Lemma foldl_push_events (a : App) (l : list (Z * string)) :
  da_events (foldl (λ a e, push_event a e.1 e.2) a l) =
    match l with [] => da_events a
    | _ => keep_last EVENTS (da_events a ++ ((λ e, event e.1 e.2) <$> l)) end.
Proof.
  induction l as [|e l IH] using rev_ind; [done|]. rewrite foldl_app. cbn [foldl push_event da_events].
  rewrite IH, fmap_app. destruct l as [|x l]; [done|]. rewrite keep_last_app, <- app_assoc. done.
Qed.

(** The promotions a list of nodes shows, over the roles seen before. *)
Definition role_steps (prev : gmap string Z) (nodes : list NodeState) : gmap string Z :=
  foldl (λ m n, <[ns_node_id n := ns_role n]> m) prev nodes.

Lemma see_nodes_spec clock a prev nodes :
  NoDup (ns_node_id <$> nodes) →
  foldl (see_node clock) (a, prev) nodes =
  (foldl (λ a e, push_event a e.1 e.2) a
     ((λ n, (tk_event_ms clock (ns_node_id n), promotion n)) <$> filter (λ n, promoted prev n = true) nodes),
   role_steps prev nodes).
Proof.
  revert a prev. induction nodes as [|n nodes IH]; intros a prev Hnd; [done|].
  apply NoDup_cons in Hnd as [Hn Hnd]. cbn [foldl see_node]. rewrite IH by done.
  assert (filter (λ m, promoted (<[ns_node_id n := ns_role n]> prev) m = true) nodes =
          filter (λ m, promoted prev m = true) nodes) as ->.
  { apply list_filter_iff_in. intros m Hm. unfold promoted. rewrite lookup_insert_ne; [done|].
    intros E. apply Hn. rewrite E. by apply list_elem_of_fmap_2. }
  rewrite filter_cons. destruct (promoted prev n) eqn:E; [by rewrite decide_True|by rewrite decide_False].
Qed.

Lemma see_query_events term clock a pa w :
  let '(a', _, _) := see_query term clock a pa w in
  da_events a' = da_events a ∧ da_supervisor a' = da_supervisor a.
Proof. unfold see_query. destruct (an_search _ w) as [w' [r|e]]; done. Qed.

Lemma see_nodes_supervisor clock a prev nodes :
  da_supervisor (foldl (see_node clock) (a, prev) nodes).1 = da_supervisor a.
Proof.
  revert a prev. induction nodes as [|n nodes IH]; intros a prev; [done|]. cbn [foldl see_node].
  rewrite IH. by destruct (promoted prev n).
Qed.

Lemma see_state_supervisor clock a po w : da_supervisor (see_state clock a po w).1.1.1 = da_supervisor a.
Proof.
  unfold see_state. destruct (an_cluster_state w) as [w1 [state|e]]; [|done].
  pose proof (see_nodes_supervisor clock a (po_prev_roles po) (cs_nodes state)) as H.
  by destruct (foldl _ _ _).
Qed.

(** What a tick does to the application is what its first two parts do. *)
Lemma tick_app term clock a po w :
  (∃ e, an_connect w = Err e ∧
        tick term clock a po w = (a, w, Some (publish clock a po (po_prev_roles po) blank))) ∨
  (an_connect w = Ok () ∧ let '(a1, prev, w1, pa1) := see_state clock a po w in
   let '(a2, w2, pa2) := see_query term clock a1 pa1 w1 in
   let '(w3, pa) := see_aggregates pa2 w2 in
   tick term clock a po w = (a2, w3, pa ← pa; Some (publish clock a2 po prev pa)) ∧
   da_events a2 = da_events a1 ∧ da_supervisor a2 = da_supervisor a).
Proof.
  unfold tick. destruct (an_connect w) as [[]|e]; [right|left; by eexists]. split; [done|].
  pose proof (see_state_supervisor clock a po w) as Hs.
  destruct (see_state clock a po w) as [[[a1 prev] w1] pa1].
  pose proof (see_query_events term clock a1 pa1 w1) as Hq.
  destruct (see_query term clock a1 pa1 w1) as [[a2 w2] pa2]. destruct Hq as [He Hs2].
  destruct (see_aggregates pa2 w2) as [w3 pa]. cbn in Hs. split_and!; [done..|congruence].
Qed.

Lemma tick_supervisor term clock a po w : da_supervisor (tick term clock a po w).1.1 = da_supervisor a.
Proof.
  destruct (tick_app term clock a po w) as [(e & _ & ->)|(_ & H)]; [done|].
  destruct (see_state clock a po w) as [[[a1 prev] w1] pa1].
  destruct (see_query term clock a1 pa1 w1) as [[a2 w2] pa2].
  destruct (see_aggregates pa2 w2) as [w3 pa]. by destruct H as (-> & _ & Hs).
Qed.

(** ** Properties *)

(** One tick reports exactly what it saw. If a coordinator answers, the event log gains,
    in the order of the nodes, one entry for each node that was last seen a follower and
    is now a leader, cut to the last fifty, whether or not a panel then panics, and every
    node's role is remembered; if none does, log and roles stay. The series gains one
    point and never exceeds its 120. *)
Theorem tick_exact (term : string) (clock : TickClock) (a : App) (po : Poller) (w : W) :
  let '(a', _, r) := tick term clock a po w in
  da_supervisor a' = da_supervisor a ∧
  match r with
  | None => True
  | Some (po', _) => (length (po_series po') ≤ SERIES)%nat ∧ po_prev_err po' = da_query_err a'
  end ∧
  match an_connect w, (an_cluster_state w).2 with
  | Ok _, Ok state => NoDup (ns_node_id <$> cs_nodes state) →
      da_events a' = da_events (foldl (λ a e, push_event a e.1 e.2) a
        ((λ n, (tk_event_ms clock (ns_node_id n), promotion n)) <$>
           filter (λ n, promoted (po_prev_roles po) n = true) (cs_nodes state))) ∧
      from_option (λ p, po_prev_roles p.1 = role_steps (po_prev_roles po) (cs_nodes state)) True r
  | _, _ => da_events a' = da_events a ∧ from_option (λ p, po_prev_roles p.1 = po_prev_roles po) True r
  end.
Proof.
  pose proof (@keep_last_length Value SERIES).
  destruct (tick_app term clock a po w) as [(e & -> & ->)|(-> & H0)].
  { cbn. by split_and!. }
  unfold see_state in H0. destruct (an_cluster_state w) as [w1 [state|e]]; cbn [snd].
  - destruct (foldl (see_node clock) _ _) as [a1 prev1] eqn:Ef.
    destruct (see_query _ _ _ _ _) as [[a2 w2] pa2], (see_aggregates pa2 w2) as [w3 [pa|]];
      destruct H0 as (-> & He & Hs); cbn; (split_and!; [done..|]); intros Hnd;
      rewrite (see_nodes_spec clock a (po_prev_roles po) _ Hnd) in Ef; injection Ef as <- <-; done.
  - destruct (see_query _ _ _ _ _) as [[a2 w2] pa2], (see_aggregates pa2 w2) as [w3 [pa|]];
      destruct H0 as (-> & He & Hs); cbn; by split_and!.
Qed.

(** The report's gate is open: the allow-list is made of the very address that is
    checked, so no address that keeps a character when trimmed and lowered is refused. *)
Theorem report_gate_open (to : string) (Ht : str_trim to ≠ EmptyString)
    (Hl : str_to_lowercase (str_trim to) ≠ EmptyString) : report_gate to = ([to], []).
Proof.
  unfold report_gate, report_allowlist, str_is_empty. rewrite bool_decide_false by done.
  assert (allows (allowlist_new [to]) to = true) as ->; [|done].
  unfold allows, allowlist_new. cbn [fmap list_fmap]. rewrite filter_cons_True by done.
  cbn. by rewrite bool_decide_true.
Qed.
End dashboard.

Section read_only.
Context {HO : HashOrder} {UC : Unicode} {FL : FloatLib} {JS : Json} {P : Type} {PS : Processes P}
  (show_status : Status → string) (json_f64 : f64 → Value).

Lemma untouched_trans w1 w2 w3 : untouched w1 w2 → untouched w2 w3 → untouched w1 w3.
Proof. intros (? & ? & ?) (? & ? & ?). split_and!; congruence. Qed.

Lemma run_agg_untouched kind field interval ps w w' r :
  run_agg kind field interval ps w = (w', r) → untouched w w'.
Proof.
  unfold run_agg. set (req := {| ar_query := _ |}). pose proof (live_aggregate req w) as H.
  destruct (an_aggregate req w) as [w2 x]. by intros [= <- _].
Qed.

Lemma see_query_untouched term clock a pa w a' w' pa' :
  see_query show_status term clock a pa w = (a', w', pa') → untouched w w'.
Proof.
  unfold see_query. set (req := {| sr_query := _ |}). pose proof (live_search req w) as H.
  destruct (an_search req w) as [w2 [x|x]]; by intros [= _ <- _].
Qed.

Lemma see_aggregates_untouched pa w : untouched w (see_aggregates json_f64 pa w).1.
Proof.
  unfold see_aggregates.
  do 4 (match goal with |- context [run_agg ?k ?f ?i ?p ?x] =>
    let E := fresh "E" in destruct (run_agg k f i p x) as [? ?] eqn:E; apply run_agg_untouched in E end).
  match goal with |- context [match ?m with Some _ => _ | None => (_, None) end] =>
    destruct m as [h|] end; [|cbn; eauto using untouched_trans].
  match goal with |- context [run_agg ?k ?f ?i ?p ?x] =>
    let E := fresh "E" in destruct (run_agg k f i p x) as [? ?] eqn:E; apply run_agg_untouched in E end.
  cbn. eauto using untouched_trans.
Qed.

Lemma see_state_untouched clock a po w a' prev w' pa :
  see_state clock a po w = (a', prev, w', pa) → untouched w w'.
Proof.
  unfold see_state. destruct (an_cluster_state w) as [w1 r] eqn:E.
  assert (w1 = w) as -> by (by injection E). destruct r as [state|e].
  - destruct (foldl _ _ _). by intros [= _ _ <- _].
  - by intros [= _ _ <- _].
Qed.

(** Watching changes nothing: a tick, one that panics included, leaves the coordinator's
    registry, tokens and group membership as they were. *)
Theorem poller_read_only (term : string) (clock : TickClock) (a : App) (po : Poller) (w : AgentWorld) :
  untouched w (tick show_status json_f64 term clock a po w).1.2.
Proof.
  unfold tick. destruct (an_connect w) as [[]|e]; [|apply untouched_refl].
  destruct (see_state clock a po w) as [[[a1 prev] w1] pa1] eqn:E1. apply see_state_untouched in E1.
  destruct (see_query show_status term clock a1 pa1 w1) as [[a2 w2] pa2] eqn:E2.
  apply see_query_untouched in E2. pose proof (see_aggregates_untouched pa2 w2) as E3.
  destruct (see_aggregates json_f64 pa2 w2) as [w3 pa3]. cbn in *. eauto using untouched_trans.
Qed.
End read_only.

(** ** Examples *)

(** A bucket whose key is no number stops the poller for good: comparing it panics. *)
Theorem nan_bucket_panics {JS : Json} {HO : HashOrder} {FL : FloatLib} (json_f64 : f64 → Value)
    (Hn : f64_parse "NaN" = Some f64_nan) (H0 : f64_parse "0" = Some f64_zero) :
  histogram_rows json_f64 (<["NaN"%string := 1]> {["0"%string := 1]}) = None.
Proof.
  unfold histogram_rows. set (f := λ kv : string * Z, _).
  assert (hm_order (<["NaN"%string := 1]> {["0"%string := 1]} : gmap string Z) ≡ₚ
    [("NaN"%string, 1); ("0"%string, 1)]) as Hp.
  { rewrite hm_order_perm, map_to_list_insert by done. by rewrite map_to_list_singleton. }
  assert (omap f (hm_order (<["NaN"%string := 1]> {["0"%string := 1]} : gmap string Z)) ≡ₚ
    [(f64_nan, 1); (f64_zero, 1)]) as Hq.
  { rewrite Hp. unfold f. cbn. by rewrite Hn, H0. }
  rewrite bool_decide_true by (rewrite Hq; cbn; lia). cbn [andb].
  assert (existsb (λ r : f64 * Z, is_nan r.1) (omap f (hm_order (<["NaN"%string := 1]>
    {["0"%string := 1]} : gmap string Z))) = true) as ->; [|done].
  apply existsb_exists. exists (f64_nan, 1). split; [|done]. apply list_elem_of_In.
  rewrite Hq. left.
Qed.
