(* ===== verification/DashboardMain.v ===== *)
(** * The dashboard's binary: [main] of [crates/dashboard/src/main.rs]

    From its environment to its shutdown: what it starts, the poller and the requests it
    serves in whatever order they come, the channel the snapshots go through and the
    sockets that push them. [env] is the environment, [exe_dir] the directory of the
    executable; binding the address is an input. *)

From S2P Require Export Dashboard.

(** ** The watch channel

    What the code relies on of [tokio::sync::watch]: a receiver reads the latest value, and
    is notified of one it has not marked as seen. [C] is the channel, [R] a receiver. *)
Class Watch (C R : Type) := {
  wt_channel : string → C;
  wt_send : string → C → C;
  wt_borrow : C → string;
  wt_update : C → R → R;
  wt_changed : C → R → bool;
  wt_borrow_channel v : wt_borrow (wt_channel v) = v;
  wt_borrow_send v c : wt_borrow (wt_send v c) = v;
  wt_update_seen c r : wt_changed c (wt_update c r) = false;
  wt_send_unseen v c r : wt_changed (wt_send v c) (wt_update c r) = true;
  wt_send_changed v c r : wt_changed c r = true → wt_changed (wt_send v c) r = true;
}.

(** ** Pushing snapshots *)

Section push.
Context {C R : Type} {WT : Watch C R}.

(** One browser: its receiver, what was sent to it, and whether its task still runs. *)
Record Socket := { so_rx : R; so_sent : list string; so_open : bool }.

(** [borrow_and_update], and sending; [ok] is whether the send succeeds. *)
Definition ws_send (c : C) (ok : bool) (s : Socket) : Socket :=
  {| so_rx := wt_update c (so_rx s);
     so_sent := if ok then so_sent s ++ [wt_borrow c] else so_sent s; so_open := ok |}.

Definition ws_connect (c : C) (rx : R) (ok : bool) : Socket :=
  ws_send c ok {| so_rx := rx; so_sent := []; so_open := true |}.

(** A turn of [ws_push], in [changed]: it goes on when there is a value it has not seen,
    and gives up when there is none and the publisher is [gone]. *)
Definition ws_turn (c : C) (gone ok : bool) (s : Socket) : Socket :=
  if negb (so_open s) then s
  else if wt_changed c (so_rx s) then ws_send c ok s
  else {| so_rx := so_rx s; so_sent := so_sent s; so_open := negb gone |}.

(** The poller publishes or ends; the socket's task has its turn. *)
Inductive PushEvent := Published (v : string) | PublisherGone | Turn (ok : bool).

Record Push := { pu_chan : C; pu_gone : bool; pu_socket : Socket }.

Definition push_step (p : Push) (e : PushEvent) : Push :=
  match e with
  | Published v =>
      if pu_gone p then p
      else {| pu_chan := wt_send v (pu_chan p); pu_gone := false; pu_socket := pu_socket p |}
  | PublisherGone => {| pu_chan := pu_chan p; pu_gone := true; pu_socket := pu_socket p |}
  | Turn ok =>
      {| pu_chan := pu_chan p; pu_gone := pu_gone p;
         pu_socket := ws_turn (pu_chan p) (pu_gone p) ok (pu_socket p) |}
  end.

Definition push_run : Push → list PushEvent → Push := foldl push_step.

(** What is published, up to the end of the publisher. *)
Fixpoint published (events : list PushEvent) : list string :=
  match events with
  | [] => []
  | Published v :: events => v :: published events
  | PublisherGone :: _ => []
  | Turn _ :: events => published events
  end.
End push.
Arguments Socket : clear implicits.
Arguments Push : clear implicits.

(** ** Configuration *)

Definition LOCAL_COORDINATOR : string := "127.0.0.1:50050".

Record DashConfig := {
  dc_shard_count : Z;
  dc_http_addr : string;
  dc_remote : bool;
  dc_coordinators : list string;
  dc_raft : bool;
}.

Definition dash_config {UC : Unicode} (env : string → option string) : DashConfig :=
  {| dc_shard_count := env_or env parse_u32 "AETHER_SHARD_COUNT" 2;
     dc_http_addr := default "127.0.0.1:8080"%string (env "AETHER_DASHBOARD_ADDR");
     dc_remote := is_some (env "AETHER_DASHBOARD_REMOTE");
     dc_coordinators := match env "AETHER_DASHBOARD_REMOTE" with
                        | Some raw => parse_addr_list raw LOCAL_COORDINATOR
                        | None => [LOCAL_COORDINATOR]
                        end;
     dc_raft := env_is env "AETHER_CONSENSUS" "raft" |}.

(** The term of the poller's live query. *)
Definition query_term (env : string → option string) : string :=
  default (if bool_decide (env "AETHER_SOURCE" = Some "synthetic"%string) then "synthetica"%string
           else "united"%string) (env "AETHER_DASHBOARD_QUERY").

(** ** Running *)

Section main.
Context {W P C R : Type} {AN : AgentNet W} {PS : Processes P} {WT : Watch C R} {JS : Json}
  {HO : HashOrder} {UC : Unicode} {FL : FloatLib}.
Context (exe_dir : string) (env : string → option string).
(** [show_value] is [Value::to_string]; [drain] is [drain_node] through the coordinator. *)
Context (show_status : Status → string) (json_f64 : f64 → Value) (show_value : Value → string)
  (drain : DrainRequest → W → W * result DrainResponse Status).

#[local] Abbreviation Response := (Z * string)%type.

(** The application, the poller while it runs, the channel, the cluster and the processes. *)
Record Dash := {
  ds_app : App;
  ds_poller : option Poller;
  ds_chan : C;
  ds_world : W;
  ds_procs : P;
}.

Definition new_app (s : Supervisor) : App :=
  {| da_supervisor := s; da_events := []; da_query_ok := 0; da_query_err := 0 |}.

Definition startup_events (spawned : list string) : list string :=
  (String.append "spawned " <$> spawned) ++ ["spawned coordinator"%string].

(** Up to the spawning of the poller; [clock] tells when an event is pushed. An error drops
    the supervisor. [None]: the list of coordinators has no first. *)
Definition start (clock : string → Z) (w : W) (p : P) : option (P * result Dash string) :=
  let c := dash_config env in
  addr ← head (dc_coordinators c);
  let s := sup_new (dc_shard_count c) addr (dc_raft c) in
  let '(p, s, r) := if dc_remote c then (p, s, Ok []) else launch exe_dir env s p in
  Some match r with
  | Err e => ((kill_all s p).1, Err e)
  | Ok spawned =>
      (p, Ok {| ds_app := foldl (λ a m, push_event a (clock m) m) (new_app s) (startup_events spawned);
                ds_poller := Some poller_start; ds_chan := wt_channel "{}"; ds_world := w;
                ds_procs := p |})
  end.

(** A tick of the poller, the requests that use the application, and whatever else changes
    the cluster, the questions asked through the other routes included. *)
Inductive DashOp :=
| Tick (clock : TickClock)
| GetState
| PostKill (at_ms : Z) (node_id : string)
| PostDrain (at_ms : Z) (node_id : string)
| PostAddFollower (at_ms : Z) (shard_id : Z)
| Elsewhere (f : W → W).

(** [api_state]. *)
Definition api_state (d : Dash) : Response := (OK, wt_borrow (ds_chan d)).

(** There is always a receiver, the application's own: sending never fails. A poller that
    panicked is gone, and its sender with it. *)
Definition dash_tick (clock : TickClock) (d : Dash) : Dash :=
  match ds_poller d with
  | None => d
  | Some po =>
      let '(a, w, r) := tick show_status json_f64 (query_term env) clock (ds_app d) po (ds_world d) in
      {| ds_app := a; ds_poller := fst <$> r;
         ds_chan := match r with
                    | Some (_, v) => wt_send (show_value v) (ds_chan d)
                    | None => ds_chan d
                    end;
         ds_world := w; ds_procs := ds_procs d |}
  end.

Definition with_app (d : Dash) (a : App) (w : W) (p : P) : Dash :=
  {| ds_app := a; ds_poller := ds_poller d; ds_chan := ds_chan d; ds_world := w; ds_procs := p |}.

Definition dash_step (d : Dash) (op : DashOp) : Dash * option Response :=
  match op with
  | Tick clock => (dash_tick clock d, None)
  | GetState => (d, Some (api_state d))
  | PostKill at_ms id =>
      let '(a, p, r) := api_kill at_ms id (ds_app d) (ds_procs d) in
      (with_app d a (ds_world d) p, Some r)
  | PostDrain at_ms id =>
      let '(a, w, r) := api_drain show_status drain at_ms id (ds_app d) (ds_world d) in
      (with_app d a w (ds_procs d), Some r)
  | PostAddFollower at_ms shard =>
      let '(a, p, r) := api_add_follower exe_dir env at_ms shard (ds_app d) (ds_procs d) in
      (with_app d a (ds_world d) p, Some r)
  | Elsewhere f => (with_app d (ds_app d) (f (ds_world d)) (ds_procs d), None)
  end.

Definition dash_run : Dash → list DashOp → Dash := foldl (λ d op, (dash_step d op).1).

Definition dash_kill_all (d : Dash) : Dash :=
  let '(p, s) := kill_all (da_supervisor (ds_app d)) (ds_procs d) in
  with_app d (with_supervisor (ds_app d) s) (ds_world d) p.

(** The whole of [main]: [bind] is the binding of the address; the requests [ops] are
    served until ctrl-c, which kills everything; [late] are those still in flight then.
    Returning drops the application, and with it the supervisor, on every path. *)
Definition dashboard_main (clock : string → Z) (bind : string → result () string)
    (ops late : list DashOp) (w : W) (p : P) : option (P * result () string) :=
  '(p, r) ← start clock w p;
  Some match r with
  | Err e => (p, Err e)
  | Ok d =>
      match bind (dc_http_addr (dash_config env)) with
      | Err e => (ds_procs (dash_kill_all d), Err e)
      | Ok _ => (ds_procs (dash_kill_all (dash_run (dash_kill_all (dash_run d ops)) late)), Ok ())
      end
  end.

(** ** Lemmas *)

(** What an operation asks of the supervisor. *)
Definition sup_op_of (op : DashOp) : option sup_op :=
  match op with
  | PostKill _ id => Some (Kill id)
  | PostAddFollower _ shard => Some (AddFollower shard)
  | _ => None
  end.

Lemma dash_step_supervisor d op :
  let d' := (dash_step d op).1 in
  (ds_procs d', da_supervisor (ds_app d')) =
    foldl (sup_exec exe_dir env) (ds_procs d, da_supervisor (ds_app d)) (option_list (sup_op_of op)).
Proof.
  destruct op as [clock| |at_ms id|at_ms id|at_ms shard|f]; cbn [dash_step sup_op_of option_list foldl sup_exec fst snd].
  - unfold dash_tick. destruct (ds_poller d) as [po|]; [|done].
    pose proof (tick_supervisor show_status json_f64 (query_term env) clock (ds_app d) po (ds_world d)) as H.
    destruct (tick _ _ _ _ _ _ _) as [[a w] r]. cbn in *. by rewrite H.
  - done.
  - unfold api_kill. cbn. by destruct (kill _ _ _) as [[p s] []].
  - unfold api_drain. destruct (an_connect _) as [[]|e]; [|done].
    destruct (drain _ _) as [w [resp|e]]; [|done]. by destruct (dp_ok resp).
  - unfold api_add_follower. cbn - [add_follower]. by destruct (add_follower _ _ _ _ _) as [[p s] [id|e]].
  - done.
Qed.

Lemma dash_run_supervisor d ops :
  (ds_procs (dash_run d ops), da_supervisor (ds_app (dash_run d ops))) =
    foldl (sup_exec exe_dir env) (ds_procs d, da_supervisor (ds_app d)) (omap sup_op_of ops).
Proof.
  revert d. induction ops as [|op ops IH]; intros d; [done|]. cbn [dash_run foldl omap list_omap].
  change (foldl (λ d op, (dash_step d op).1) ?x ops) with (dash_run x ops).
  rewrite IH, dash_step_supervisor. by destruct (sup_op_of op).
Qed.

(** The processes and the supervisor are in order: nothing is held that is not managed, and
    [n] more followers can be added. *)
Definition tidy (base : gset Z) (n : Z) (d : Dash) : Prop :=
  let s := da_supervisor (ds_app d) in
  sup_ok base (ds_procs d) s ∧ 0 < sp_follower_seq s ∧ sp_follower_seq s + n < 2 ^ 32 ∧
  ∀ i, is_Some (sp_children s !! i) → given (sp_follower_seq s) i.

Lemma dash_run_tidy base n d ops :
  tidy base (adds (omap sup_op_of ops) + n) d → 0 ≤ n → Forall op_ok (omap sup_op_of ops) →
  tidy base n (dash_run d ops).
Proof.
  intros (Hok & Hpos & Hlt & Hg) Hn Hops. pose proof (adds_nonneg (omap sup_op_of ops)).
  assert (sp_follower_seq (da_supervisor (ds_app d)) + adds (omap sup_op_of ops) < 2 ^ 32) as Hlt' by lia.
  pose proof (ops_ok exe_dir env base (omap sup_op_of ops) (ds_procs d, da_supervisor (ds_app d))
    Hok Hpos Hlt' Hg Hops) as H1. cbv zeta in H1.
  rewrite <- dash_run_supervisor in H1. cbn [fst snd] in H1. destruct H1 as (? & Hq & ?).
  split_and!; [done|lia|lia|done].
Qed.

Lemma dash_kill_all_tidy base n d :
  tidy base n d → ds_procs (dash_kill_all d) = (kill_all (da_supervisor (ds_app d)) (ds_procs d)).1 ∧
    ps_held (ds_procs (dash_kill_all d)) = base ∧ tidy base n (dash_kill_all d).
Proof.
  intros (Hok & Hpos & Hlt & Hg). pose proof (kill_all_held base _ _ Hok) as Hh.
  unfold dash_kill_all. destruct (kill_all _ _) as [p s] eqn:E. injection E as Ep Es. subst s.
  cbn [ds_procs ds_app with_app da_supervisor with_supervisor fst] in *. split_and!; [done|done|].
  split_and!; [|done|done|]; cbn [sp_children set_children].
  - split; cbn; [|done|done]. intros q. rewrite Hh. split; [by left|]. by intros [?|[? ?]].
  - intros i Hi. cbn in Hi. rewrite lookup_empty in Hi. by destruct Hi.
Qed.

Lemma start_events s clock p :
  da_supervisor (foldl (λ a m, push_event a (clock m) m) (new_app s) p) = s.
Proof. induction p as [|m p IH] using rev_ind; [done|]. by rewrite foldl_app. Qed.

(** The list of coordinators always has a first. *)
Lemma coordinators_head : ∃ addr, head (dc_coordinators (dash_config env)) = Some addr.
Proof.
  cbn. destruct (env _) as [raw|]; [|by eexists]. unfold parse_addr_list.
  destruct (comma_list raw); by eexists.
Qed.

Lemma start_tidy clock w p n :
  0 ≤ n → 1 + n < 2 ^ 32 →
  ∃ p' r, start clock w p = Some (p', r) ∧
    match r with
    | Err _ => ps_held p' = ps_held p
    | Ok d => tidy (ps_held p) n d ∧ ds_procs d = p' ∧ ds_poller d = Some poller_start ∧
              (dc_remote (dash_config env) = true → p' = p)
    end.
Proof.
  intros Hn Hlt. unfold start. destruct coordinators_head as [addr ->]. cbn [mbind option_bind].
  set (c := dash_config env). set (s := sup_new _ _ _).
  destruct (dc_remote c).
  - do 2 eexists. split; [done|]. split_and!; [|done..]. unfold tidy. cbn [ds_app ds_procs].
    rewrite start_events. split_and!; [|done|cbn; lia|].
    + split; cbn; [|done|done]. intros q. split; [by left|]. by intros [?|[? ?]].
    + intros i Hi. cbn in Hi. rewrite lookup_empty in Hi. by destruct Hi.
  - pose proof (launch_ok exe_dir env s p eq_refl eq_refl) as H.
    destruct (launch exe_dir env s p) as [[p1 s1] [spawned|e]]; destruct H as (Hok & Hq & Hg);
      do 2 eexists; (split; [done|]).
    + split_and!; [|done..]. unfold tidy. cbn [ds_app ds_procs]. rewrite start_events, Hq.
      split_and!; [done|lia|lia|done].
    + by apply kill_all_held.
Qed.
End main.

Section push_lemmas.
Context {C R : Type} {WT : Watch C R}.

(** What one browser was sent against what was published. *)
Record push_ok (pubs : list string) (p : Push C R) : Prop := {
  po_latest : last pubs = Some (wt_borrow (pu_chan p));
  po_sent : so_sent (pu_socket p) `sublist_of` pubs;
  po_unseen : wt_changed (pu_chan p) (so_rx (pu_socket p)) = true →
    ∃ l, pubs = l ++ [wt_borrow (pu_chan p)] ∧ so_sent (pu_socket p) `sublist_of` l;
  po_seen : wt_changed (pu_chan p) (so_rx (pu_socket p)) = false →
    (∃ r, so_rx (pu_socket p) = wt_update (pu_chan p) r) ∧
    (so_open (pu_socket p) = true → last (so_sent (pu_socket p)) = Some (wt_borrow (pu_chan p)));
}.

(** The receiver has not seen the latest value, or marked it as seen. *)
Lemma push_published pubs p v :
  pu_gone p = false → push_ok pubs p → push_ok (pubs ++ [v]) (push_step p (Published v)).
Proof.
  intros Eg [Hl Hs Hu Hn]. cbn [push_step]. rewrite Eg.
  assert (wt_changed (wt_send v (pu_chan p)) (so_rx (pu_socket p)) = true) as Hc.
  { destruct (wt_changed (pu_chan p) (so_rx (pu_socket p))) eqn:E; [by apply wt_send_changed|].
    destruct (Hn eq_refl) as [[r ->] _]. apply wt_send_unseen. }
  split; cbn [pu_chan pu_socket].
  - by rewrite last_snoc, wt_borrow_send.
  - by apply sublist_inserts_r.
  - intros _. exists pubs. by rewrite wt_borrow_send.
  - by rewrite Hc.
Qed.

Lemma ws_send_ok pubs l c gone s ok :
  pubs = l ++ [wt_borrow c] → so_sent s `sublist_of` l →
  push_ok pubs {| pu_chan := c; pu_gone := gone; pu_socket := ws_send c ok s |}.
Proof.
  intros -> Hs. split; cbn.
  - apply last_snoc.
  - destruct ok; [by apply sublist_app|by apply sublist_inserts_r].
  - by rewrite wt_update_seen.
  - intros _. split; [by eexists|]. intros ->. apply last_snoc.
Qed.

Lemma push_turn pubs p ok : push_ok pubs p → push_ok pubs (push_step p (Turn ok)).
Proof.
  destruct p as [c gone s]. intros [Hl Hs Hu Hn]. cbn in *. unfold ws_turn.
  destruct (so_open s) eqn:Eo; [|split; cbn; by rewrite ?Eo]. cbn [negb].
  destruct (wt_changed c (so_rx s)) eqn:Ec.
  - destruct (Hu eq_refl) as (l & -> & Hsl). by eapply ws_send_ok.
  - destruct (Hn eq_refl) as [Hr Hlast]. split; cbn; [done|done|by rewrite Ec|].
    intros _. split; [done|]. intros _. by apply Hlast.
Qed.

Lemma push_run_ok pubs p events :
  push_ok pubs p →
  push_ok (pubs ++ if pu_gone p then [] else published events) (push_run p events).
Proof.
  revert pubs p. induction events as [|e events IH]; intros pubs p H.
  { cbn. destruct (pu_gone p); by rewrite app_nil_r. }
  change (push_run p (e :: events)) with (push_run (push_step p e) events). destruct e as [v| |ok].
  - destruct (pu_gone p) eqn:Eg.
    + specialize (IH pubs p H). rewrite Eg in IH. cbn [push_step]. by rewrite Eg.
    + specialize (IH _ _ (push_published pubs p v Eg H)). cbn [push_step] in *. rewrite Eg in *.
      cbn [pu_gone published] in *. by rewrite <- app_assoc in IH.
  - specialize (IH pubs (push_step p PublisherGone)). cbn [push_step pu_gone published] in *.
    destruct (pu_gone p); apply IH; by destruct H.
  - exact (IH _ _ (push_turn pubs p ok H)).
Qed.
End push_lemmas.

(** ** Properties *)

(** A browser is pushed a faithful trickle. However publishing and the turns of its task
    interleave, what it was sent are snapshots that were published since it connected, the
    one current then first among them, in their order and none twice; some are skipped when
    the browser is slow, but never the latest: a task that still runs and gets a turn whose
    send succeeds has sent the last snapshot published, also when the poller is gone. *)
Theorem ws_pushes {C R : Type} {WT : Watch C R} (c : C) (rx : R) (ok : bool) (events : list PushEvent) :
  let pubs := wt_borrow c :: published events in
  let p := push_run {| pu_chan := c; pu_gone := false; pu_socket := ws_connect c rx ok |} events in
  so_sent (pu_socket p) `sublist_of` pubs ∧
  (so_open (pu_socket p) = true → last (so_sent (pu_socket (push_step p (Turn true)))) = last pubs).
Proof.
  cbv zeta. set (p0 := {| pu_chan := c; pu_gone := false; pu_socket := ws_connect c rx ok |}).
  pose proof (ws_send_ok [wt_borrow c] [] c false {| so_rx := rx; so_sent := []; so_open := true |} ok
    eq_refl ltac:(constructor)) as H0.
  apply (push_run_ok _ _ events) in H0. cbn [pu_gone app] in H0. fold (ws_connect c rx ok) in H0. fold p0 in H0.
  destruct H0 as [Hl Hs Hu Hn]. split; [done|]. intros Ho. rewrite Hl.
  cbn [push_step pu_socket]. unfold ws_turn. rewrite Ho. cbn [negb].
  destruct (wt_changed _ _) eqn:Ec; cbn; [apply last_snoc|]. by apply Hn.
Qed.

Section properties.
Context {W P C R : Type} {AN : AgentNet W} {PS : Processes P} {WT : Watch C R} {JS : Json}
  {HO : HashOrder} {UC : Unicode} {FL : FloatLib}.
Context (show_status : Status → string) (json_f64 : f64 → Value) (show_value : Value → string)
  (drain : DrainRequest → W → W * result DrainResponse Status).

(** C31: The dashboard cleans up after itself. From any environment, local or remote,
    whatever is pressed and however the poller's ticks, its panics and changes of the
    cluster fall in between, and whichever attempts to start a process or to bind the
    address fail: [main] returns, and exactly the processes that were there before are
    there then, those of requests still in flight at the shutdown included. At any time
    before that, everything it started is managed under exactly one id. (The sequence that
    names followers is good for 2^32 - 2 of them.) *)
Theorem dashboard_cleans_up (exe_dir : string) (env : string → option string) (clock : string → Z)
    (bind : string → result () string) (ops late : list DashOp) (w : W) (p : P)
    (Hops : Forall op_ok (omap sup_op_of (ops ++ late)))
    (Hlt : 1 + adds (omap sup_op_of (ops ++ late)) < 2 ^ 32) :
  ∃ p' r, dashboard_main exe_dir env show_status json_f64 show_value drain clock bind ops late w p
            = Some (p', r) ∧ ps_held p' = ps_held p ∧
  match start exe_dir env clock w p with
  | Some (p1, Ok d) =>
      (dc_remote (dash_config env) = true → p1 = p) ∧
      let d := dash_run exe_dir env show_status json_f64 show_value drain d ops in
      let s := da_supervisor (ds_app d) in
      (∀ q, q ∈ ps_held (ds_procs d) ↔ q ∈ ps_held p ∨ ∃ id, sp_children s !! id = Some q) ∧
      (∀ i j q, sp_children s !! i = Some q → sp_children s !! j = Some q → i = j ∧ q ∉ ps_held p)
  | _ => r ≠ Ok ()
  end.
Proof.
  rewrite omap_app in *. apply Forall_app in Hops as [Ho1 Ho2].
  assert (adds (omap sup_op_of ops ++ omap sup_op_of late) =
    adds (omap sup_op_of ops) + (adds (omap sup_op_of late) + 0)) as Ea.
  { unfold adds. rewrite fmap_app, z_sum_app. lia. }
  pose proof (adds_nonneg (omap sup_op_of ops)). pose proof (adds_nonneg (omap sup_op_of late)).
  destruct (start_tidy exe_dir env clock w p
    (adds (omap sup_op_of ops) + (adds (omap sup_op_of late) + 0))) as (p1 & r & Es & H1); [lia|lia|].
  unfold dashboard_main. rewrite Es. cbn [mbind option_bind]. destruct r as [d|e].
  2: { by do 2 eexists. }
  destruct H1 as (Ht & Hp & _ & Hrem).
  pose proof (dash_kill_all_tidy _ _ _ Ht) as (_ & Hb & _).
  apply (dash_run_tidy exe_dir env show_status json_f64 show_value drain) in Ht; [|lia|done].
  pose proof (dash_kill_all_tidy _ _ _ Ht) as (_ & _ & Hk).
  apply (dash_run_tidy exe_dir env show_status json_f64 show_value drain) in Hk; [|lia|done].
  pose proof (dash_kill_all_tidy _ _ _ Hk) as (_ & He & _).
  destruct Ht as ([Hh Ha Hi] & _ & _ & _).
  destruct (bind _) as [[]|e]; do 2 eexists; (split; [done|]); (split; [done|]); (split; [exact Hrem|]);
    cbv zeta; (split; [exact Hh|]); intros i j q H2 H3; (split; [by eapply Hi|by eapply Ha]).
Qed.
End properties.

(** ** Examples *)

#[local] Existing Instances canonical_order ascii_only whole_numbers integers.

(** A channel is all that was sent, a receiver how much of it was there when it looked. *)
#[export] Program Instance history : Watch (list string) nat :=
  {| wt_channel v := [v]; wt_send v c := c ++ [v]; wt_borrow c := default EmptyString (last c);
     wt_update c _ := length c; wt_changed c r := bool_decide (r < length c)%nat |}.
Next Obligation. done. Qed.
Next Obligation. intros v c. cbv beta. by rewrite last_snoc. Qed.
Next Obligation. intros c r. apply bool_decide_false. lia. Qed.
Next Obligation. intros v c r. cbv beta. apply bool_decide_true. rewrite length_app. cbn. lia. Qed.
Next Obligation.
  intros v c r H%bool_decide_eq_true. apply bool_decide_true. rewrite length_app. lia.
Qed.

(** No coordinator answers. *)
#[local] Instance nobody : AgentNet () :=
  let down := {| st_code := Unavailable; st_message := "down" |} in
  {| an_connect _ := Err "down"%string; an_now _ := 0; an_search _ w := (w, Err down);
     an_vector_search _ w := (w, Err down); an_hybrid_search _ w := (w, Err down);
     an_cluster_state w := (w, Err down); an_aggregate _ w := (w, Err down) |}.

Definition still : TickClock :=
  {| tk_event_ms _ := 0; tk_query_ms := 0; tk_query_ms' := 0; tk_secs := 0 |}.

Definition nothing_drained (_ : DrainRequest) (w : ()) : () * result DrainResponse Status :=
  (w, Ok {| dp_ok := false; dp_message := "" |}).

(** An operating system that starts the five processes of the topology and one more. *)
Definition six_starts : Os := {| os_procs := ∅; os_log := []; os_tries := 1; os_ok := λ n, n <=? 6 |}.

Definition pressed : list (DashOp (W := ())) :=
  [PostAddFollower 0 0; Tick still; PostKill 1 "shard0-leader"; GetState].
Definition pressed_late : list (DashOp (W := ())) := [PostAddFollower 2 1; PostDrain 3 "shard0-leader"].

(** Buttons pressed between ticks, two of them while the dashboard shuts down, when no more
    process can be started: it starts, serves, and leaves nothing behind. *)
Lemma dashboard_cleans_up_witness :
  ∃ p', dashboard_main (C:=list string) "bin" (λ _, None) (λ _, EmptyString) (λ _, Null)
            (λ _, EmptyString) nothing_drained (λ _, 0) (λ _, Ok ()) pressed pressed_late () six_starts
          = Some (p', Ok ()) ∧ ps_held p' = ∅.
Proof.
  destruct (dashboard_cleans_up (C:=list string) (λ _, EmptyString) (λ _, Null) (λ _, EmptyString)
    nothing_drained "bin" (λ _, None) (λ _, 0) (λ _, Ok ()) pressed pressed_late () six_starts)
    as (p' & r & E & Hh & _).
  - cbn. rewrite !Forall_cons. split_and!; [by split|exact I|by split|constructor].
  - reflexivity.
  - assert (r = Ok ()) as ->.
    { assert (snd <$> dashboard_main (C:=list string) "bin" (λ _, None) (λ _, EmptyString) (λ _, Null)
        (λ _, EmptyString) nothing_drained (λ _, 0) (λ _, Ok ()) pressed pressed_late () six_starts
        = Some (Ok ())) as E' by (vm_compute; reflexivity).
      rewrite E in E'. by injection E'. }
    exists p'. split; [exact E|exact Hh].
Defined.

(** A browser that misses the second snapshot gets the third. *)
Example slow_browser :
  so_sent (pu_socket (push_run {| pu_chan := ["{}"%string]; pu_gone := false;
    pu_socket := ws_connect ["{}"%string] 0%nat true |}
    [Turn true; Published "a"; Published "b"; Turn true; PublisherGone; Turn true]%string)) =
  ["{}"; "b"]%string.
Proof. reflexivity. Qed.

(** Observing a remote cluster starts nothing, yet the event log opens with the spawning of
    a coordinator. *)
Theorem remote_announces_spawn {W P C R : Type} {AN : AgentNet W} {PS : Processes P} {WT : Watch C R}
    {JS : Json} {HO : HashOrder} {UC : Unicode} {FL : FloatLib} (exe_dir : string)
    (env : string → option string) (clock : string → Z) (w : W) (p : P) (raw : string)
    (Hr : env "AETHER_DASHBOARD_REMOTE" = Some raw) :
  ∃ d, start (C:=C) exe_dir env clock w p = Some (p, Ok d) ∧
       da_events (ds_app d) = [event (clock "spawned coordinator"%string) "spawned coordinator"].
Proof.
  unfold start. destruct (coordinators_head env) as [addr ->]. cbn [mbind option_bind].
  assert (dc_remote (dash_config env) = true) as -> by (cbn; by rewrite Hr).
  eexists. split; [done|]. done.
Qed.

(** The add button has something to act on in remote mode: it starts a shard node on this
    machine, at a loopback address, that registers with the first of the remote
    coordinators. *)
Theorem remote_add_spawns {W C R : Type} {AN : AgentNet W} {WT : Watch C R}
    {JS : Json} {HO : HashOrder} {UC : Unicode} {FL : FloatLib} (exe_dir : string)
    (env : string → option string) (show_status : Status → string) (json_f64 : f64 → Value)
    (show_value : Value → string) (drain : DrainRequest → W → W * result DrainResponse Status)
    (clock : string → Z) (at_ms shard : Z) (w : W) (p : Os) (raw addr : string)
    (Hr : env "AETHER_DASHBOARD_REMOTE" = Some raw)
    (Ha : head (parse_addr_list raw LOCAL_COORDINATOR) = Some addr) (Hp : os_ok p (os_tries p) = true) :
  ∃ d d' node_id started,
    start (C:=C) exe_dir env clock w p = Some (p, Ok d) ∧
    dash_step exe_dir env show_status json_f64 show_value drain d (PostAddFollower at_ms shard) =
      (d', Some (OK, node_id)) ∧
    os_log (ds_procs d') = os_log p ++ [(bin exe_dir "shard-node", started)] ∧
    ("AETHER_COORDINATOR_ADDR", addr)%string ∈ started ∧
    ("AETHER_SHARD_ADDR", "127.0.0.1:50051")%string ∈ started.
Proof.
  unfold start. cbn [dash_config dc_coordinators dc_remote]. rewrite Hr, Ha. cbn [mbind option_bind is_some].
  do 4 eexists. split; [done|]. cbn [dash_step ds_app ds_procs]. unfold api_add_follower, add_follower.
  cbn [foldl startup_events fmap list_fmap app push_event new_app da_supervisor take_seq].
  unfold spawn_shard_node. cbn [take_port ps_spawn live_os]. unfold os_spawn. rewrite Hp.
  cbn. split; [done|]. split; [done|]. unfold node_env. split; set_unfold; naive_solver.
Qed.
